(* ===== verification/_CoqProject ===== *)
-Q . S2P
Prelude.v
JsNum.v
Json.v
Prog.v
ConfirmToken.v
Interceptor.v
DateTime.v
DateText.v
ZonedTime.v
AuditSigning.v
AuditVerify.v
AuditRecorder.v
AuditRetention.v
AuditRoots.v
DeviceUpdate.v
RoleGuard.v
PeopleDirectory.v
PeopleMachine.v
BusinessTime.v
BusinessMeasure.v
Sla.v
Relations.v
Outbox.v
NetAddress.v
OutboundGuard.v
Webhooks.v
WebhookQueue.v
SecondFactor.v
Money.v
Reconcile.v
ErpSync.v
ErpClaims.v
SlaSweep.v
Sessions.v
RefreshTokens.v
AccessCatalog.v
EffectiveAccess.v
ToolAccess.v
AccessRoles.v
