(* ===== verification/Prelude.v ===== *)
(** * Droplet onboard services: a verification library

    Droplet's onboard services are the programs of a small on-premises server:
    an orchestrator (TypeScript, apps/orchestrator) that serves the dashboard,
    keeps the company's data and runs tools for an AI assistant, the packages
    it shares with the tools server (packages/tools-core and others), and
    helper services in other languages. This library models the parts of the
    TypeScript code in which the product's promises are kept: that a tool
    never writes without the user's approval, that the audit log cannot be
    rewritten unnoticed, that an update never installs an older release, that
    nobody can take over, lock out or lose the people of the box, that a
    customer's service level is measured in the desk's opening hours and a
    missed promise is told once, that a session ends when it should and a
    second factor works once, that what a person may open and what the
    assistant may do for them is what their role says, that
    the tracker's links and events stay whole, and that what the box sends out
    reaches only the destinations it vetted.

    ** Files

    - [Prelude] (this file): results and thrown errors, the state-and-error
      handlers ([handler], [do!], [run!], transactions, partial-correctness
      triples), JavaScript strings as lists of UTF-16 code units, string order,
      association lists sorted by key, stable sorting by a comparator
      ([sort_by]), shared automation ([boom], [b2p]).
    - [Prog]: programs of commands, for the code that awaits between its
      accesses to shared state, and the rule by which a program is shown to
      respect a [Protocol] whatever happens in between.
    - [JsNum]: JavaScript numbers as their shortest decimal digits and the text
      [String(x)] gives them; different numbers have different texts.
    - [Json]: JavaScript values, [JSON.stringify], the property order of
      objects built by assignment; the text determines the value
      ([render_inj]).
    - [DateTime]: the proleptic Gregorian calendar of [Date] in UTC,
      [toISOString] and its injectivity.
    - [DateText]: decimal digits, [padStart] and YYYY-MM-DD texts, whose order
      is the order of the days.
    - [ZonedTime]: lib/zoned-time.ts. Wall clocks in named zones over the
      runtime's zone database (the class [Intl]); [zonedWallClockToUtc] is the
      one converter, the rest validates zones and dates.
    - [ConfirmToken]: packages/tools-core/src/confirmation-token.ts. [Store] is
      the insertion-ordered [Map] of pending approvals; [mint], [redeem] and
      [sweepExpired] are its methods; [canonicalizeToolArgs] and
      [confirmationBindingHash] the text and hash an approval is bound to.
    - [Interceptor]: packages/tools-core/src/interceptor.ts. [intercept] is the
      decision taken before every tool call (read-only namespaces, deny rules,
      approval), [interceptorAuditEvent] what it leaves in the audit trail.
    - [AuditSigning]: services/audit-signing.service.ts. The canonical text of
      an audit row, the HMAC signer, the resolution of the signing key, the
      retired keys and the epoch verifier.
    - [AuditVerify]: services/audit-verify.service.ts and
      audit-chain-head.service.ts. The paged walk of the chain and its
      relational specification [valid_from].
    - [AuditRecorder]: services/activity.service.ts and activity.singleton.ts.
      The checks of a record, and a machine that interleaves the statements of
      any number of appending transactions, purges and key rotations.
    - [AuditRetention]: services/audit-retention-purge.service.ts.
    - [AuditRoots]: services/audit-daily-root.service.ts and
      audit-key-rotation.service.ts.
    - [DeviceUpdate]: services/update-agent/transitions.ts, apply.ts and the
      decisions of poller.ts: the [DeviceUpdate] table, statements interleaved
      by any number of writers, the apply and resume handlers with the
      answers of the outside world in an environment record, and [live], the
      life of a box as those handlers run one after another.
    - [RoleGuard]: services/role-mutation-guard.service.ts with the rank ladder
      of jwt.service.ts: the rails before a transaction, the invariants inside
      it, and the effects after it as a trace of calls and audit rows, those of
      device-client-revoke.service.ts, model-access-token.service.ts and
      pm/pm-api-token.service.ts included.
    - [PeopleDirectory]: the handlers that change people: routes/people.ts,
      auth.ts and access.ts, services/scim.service.ts, scim-role-mapping
      .service.ts and leaver-deletion.service.ts.
    - [PeopleMachine]: the interleaving of all of these, a commit being one
      step because every such transaction is SERIALIZABLE.
    - [BusinessTime]: services/support/business-time.ts. Calendars of opening
      hours, their validation and compilation, and the addition and measurement
      of business time. [BusinessMeasure] measures the instants at which a
      calendar is open and compares the code with that measure.
    - [Sla]: services/support/sla-engine.ts, syncTicketSla of
      sla-clock.service.ts and the policy schema of sla-schemas.ts: the clock
      of one ticket, its transitions and escalations. [SlaSweep]:
      sweepTicketSlas, the walk over all tickets, and the events of
      sla-runtime.ts.
    - [Relations]: services/pm/pm-relations.service.ts. The links between work
      items, the search that refuses a cycle of BLOCKS links, the timelines of
      the two ends, and [PmMachine], which interleaves requests with the other
      writers: deleteWorkItem of pm.service.ts and the support desk's links.
    - [Outbox]: services/pm/pm-outbox.ts. The consumers of the activity feed:
      the cursor, the batches, the retries and the dead letters of a sweep, and
      [ObMachine], which runs sweeps between any number of writers, failing
      commands and crashes.
    - [NetAddress]: IP addresses, [isIP] and [BlockList] of the runtime's
      node:net. [OutboundGuard]: lib/outbound-url-guard.ts, the rules on where
      the box may connect, and fetchWithTimeout of services/caldav.client.ts,
      which applies them at every redirect.
    - [Webhooks]: services/pm/webhook-delivery.service.ts, webhook-events.ts and
      webhook-signature.ts: one attempt at one delivery. [WebhookQueue]: the
      tables, with webhook-fanout.ts and pm-webhook.service.ts, and [WhMachine],
      which interleaves attempts with fan-out, management, failures and crashes.
    - [SecondFactor]: services/totp.service.ts, recovery.service.ts,
      login-second-factor.service.ts, webauthn-challenge.service.ts and the
      routes /auth/totp/enroll, /auth/totp/verify and /auth/recovery of
      routes/auth.ts, as programs of a pool of requests.
    - [Sessions]: services/session.service.ts. Each operation is a program of
      Redis commands; [Machine] interleaves the programs of any number
      of requests, with commands that fail and a clock that moves.
    - [RefreshTokens]: services/jwt.service.ts and session-mint.ts, /auth/refresh
      and the token half of /auth/logout of routes/auth.ts, as programs of a pool
      in which the programs of [Sessions] are parts of the requests.
    - [Money]: packages/shared-types/src/money.ts and
      packages/tools-core/src/major-units.ts: amounts in minor units, their
      conversion from and to decimal texts, and the texts quoted to people.
    - [Reconcile]: of services/erp-sync/, watermark.ts, reconcile.ts,
      drift-record.service.ts and schedule-jitter.ts, with m365/sync-policy.ts:
      positions, drift, the cadence of sweeps and retries. [ErpSync]:
      cursor.service.ts, erp-sync.service.ts, entities.ts and what
      integrations.service.ts does to cursors, as programs of a pool;
      [ErpClaims]: who runs a cursor.
    - [AccessCatalog]: services/access-catalog.ts, modules/module-registry.ts,
      modules.service.ts and tool-layers.service.ts: the modules, the levels a
      tier is offered on each, the modules a box has on, and the tools of the
      compiled catalog and of attached servers.
    - [EffectiveAccess]: services/effective-access.service.ts,
      effective-usage.service.ts and middleware/feature-gate.ts. What a person
      may open, composed from their tier, role, exceptions and the box, with the
      specification [person_holds], and the gates of the routes.
    - [ToolAccess]: services/tool-access.service.ts. Which tools the assistant
      is given and may run for a person; [tool_is] and [may_call] specify them.
    - [AccessRoles]: services/role-grant-writer.service.ts, routes/access.ts and
      the role assignment of routes/people.ts: the custom roles and the people
      who hold them, one request's transaction after another.

    ** How the parts depend on each other

    The interceptor uses the token store; both use the canonical texts of
    [Json]. Every audit writer goes through the recorder, which signs with
    [AuditSigning] and is read back by [AuditVerify]; retention, daily roots
    and key rotation act on the same table and keyring, and their theorems say
    what they leave of a chain that verifies. The people handlers hand their
    audit rows to the recorder's [RecordParams]. The SLA clock is evaluated in
    business time, and business time turns wall clocks into instants through
    [ZonedTime]; the sweep runs the synchronisation of one ticket on each.
    Sessions use the roles of [RoleGuard]; sessions and the outbox are both
    programs of [Prog], and so are the second factors, which run in its pool of
    requests. The links of [Relations] are told in the activity rows
    that [Outbox] delivers; the consumer of [SlaSweep] and the fan-out of
    [WebhookQueue] are two of those it delivers to, the fan-out's keys making its
    repeated deliveries harmless (C3). An attempt of [Webhooks] runs the
    send-time gate of [OutboundGuard] as a part of itself, so its theorem (C23)
    is the gate's lemma [pinned_destination_vetted] composed with the attempt.
    The access of a person is read from the tables that [AccessRoles] writes and
    that the people handlers write with it, whose transactions it reuses; the
    scope of [ToolAccess] is computed from that access, and C10 is a statement
    about all of it, from the tables to the dispatch of a tool. The dispatch comes
    before the approval of [Interceptor].

    ** What the theorems show

    - Approvals (C1, C8): the bound text is exact for the covered
      arguments; in any run
      of calls a write that needs approval
      happens only on a token issued for that very call. Lemmas: a token redeems as
      minted and is spent at most once, the store is bounded, every branch of [redeem], denials are final, the audit event of every outcome, and that a [__proto__] argument
      is not bound.
    - Audit chain (C11, C15, C19, C22): the canonical text is that of the content,
      whatever the order of members ([agree]), and determines it; the walk returns and is exact against
      [valid_from]; every interleaving of appends leaves a table that verifies;
      the purge is a truncation within its caps. Lemmas: the head pins the
      history up to an exhibited hash collision, the daily roots are contiguous,
      an edited row is located, a rotation keeps every chain that verified, a
      signature binds content and place, a retired key cannot append, and the
      table is append-only.
    - Updates (C26, C28): statuses only advance, and on a box whose boots find at
      most one update being applied the installed release is only replaced by a
      newer one. Lemmas: a claimed row belongs to its runner
      ([claimed_row_is_exclusive]), and two rows being applied at a boot may take
      the box back ([two_applying_go_back]).
    - People (C29 to C31, C34): the owner is untouchable and one active operator
      remains under every interleaving; no role is given above the actors'
      rank. Lemmas: the nightly job removes nobody early
      ([nightly_removes_only_due]), a scheduled leaver is
      kept until the date, and a role change happens entirely or not at all. C34
      shows what a Redis outage leaves undone when a deletion is scheduled.
    - Access (C10, C27, C35): what a person holds is exact against a
      specification in which the levels' order and the tiers' offers are written
      out ([best_level], [offered]), and so is what the feature gate lets in; the
      tools the assistant may run for the holder of a role are exactly those its
      grants, their modules and the tier allow, where a tool is the catalog's or
      an attached server's as its record says; the composed access of whoever
      holds a role is what the roles page lists, over any requests that find what
      they had read. Lemmas: a clamp is the best level on offer at or below the
      one asked ([clamp_best]), the dependency closure is
      the largest closed set ([satisfied_greatest]), no tool domain lacks a
      decision ([no_domain_is_unmapped]), and a derived slug is new
      ([derived_slug_is_free]).
    - Business time (C36 to C39): the converter follows RFC 5545 at gaps and
      repeated hours; a compiled calendar covers exactly its windows, merged;
      measuring counts the open instants between two instants, wherever the
      zone is calm; adding gives the earliest instant by which that much
      business time has passed.
    - Service levels (C2, C13, C14): a breach is announced once and the status
      stays breached; synchronising a ticket ends; every due ticket is checked
      within a bounded number of sweeps.
    - Tracker (C7): the BLOCKS links never form a cycle and no link is
      there twice, under every interleaving of requests. A lemma: a timeline
      explains the links of its item ([timelines_explain_links]).
    - Outbox (C9, C21): with a settle window longer than a transaction may
      live, no event is lost or overtaken, whatever fails; a sweep that nothing
      disturbs is one delivery, in order, of what waits.
    - Outbound connections (C4, C33): the table of blocked addresses is exact,
      IPv4-mapped texts included; the calendar client dials only names and
      addresses outside, as its own lookup answered, at every hop, and sends its
      credential to one origin; a resolver that answers the dial otherwise is not
      stopped, as the module says.
    - Webhooks (C3, C23): an attempt dials at most once, only a destination vetted
      just before, through the egress switch if it leaves the LAN, with a
      signature of the bytes sent; deliveries settle once, within eight attempts,
      under every interleaving, failure and crash.
    - Sessions (C40): an accepted session belongs to the login that drew its
      identifier and is within its absolute and idle limits, under every
      interleaving and failure.
    - Second factors (C12, C20): a time step, a recovery code and a passkey
      challenge are used up at most once, and a request that passes used one up
      itself; a confirmed authenticator is one a code has proven, and keeps its
      secret.
    - Tokens (C5, C6, C18): a token verifies for its time as the person it was
      made for and never as the other kind; a refresh token rotates once, unless
      a request stalls past the thirty seconds of its claim or the token's end;
      a token that was used up, refused or signed out stays dead. A lemma: a
      rotation takes the role from the person's row ([rotation_keeps_identity]).
    - Money (C17, C25): a conversion to minor units is exact or refused; the
      texts made of an amount read back as that amount.
    - Connector sync (C16, C24, C32): between ticks a cursor has one runner; a
      stored position is that of a page given to a landing that committed, under
      every interleaving, failure and stop; the drift report is exact against
      instants and a grammar of timestamps that use no comparison of the code's,
      and the position a sweep adopts repairs what it found. Lemmas: the ranges of the
      retry delay, the sweep interval and the jittered period.
    - Lemmas that are not numbered state what the code does against its
      comments: [late_skip_undercounts], [escalation_erases_breach],
      [failing_ticket_starves], [paused_ticket_starves], [touch_resurrects],
      [same_second_cap], [trailing_dot_passes],
      [recovery_codes_wiped], [failed_read_revokes_nothing],
      [empty_minor_is_zero],
      [sweep_blames_another], [audit_failure_parks_synced], [sweep_ends_claims],
      [stale_tick_moves_back], [claims_left_behind], [landing_failure_is_fatal],
      [allow_may_lower], [stale_edit_widens], [stale_restatement_splits],
      [tier_change_keeps_role], [two_applying_go_back].

    ** Parameters, bounds and fuel

    SHA-256, HMAC-SHA256 and base64url are the class [CryptoOps], with the laws
    used of them (the base64url alphabet and that a digest is not empty, never
    injectivity) in [CryptoLaws];
    theorems that need collision freedom state the collision they would
    exhibit. Random tokens, ids and the clock are arguments. PostgreSQL's
    column casts are [Storage] with [StorageLaws]. The zone database of the
    runtime is [Intl]; theorems about a zone say how its offset runs
    ([zone_runs], [one_change], [calm_at]). The eligibility check of an
    assignee and the policy of a ticket's project are arguments, and so are the
    session limits ([SessionConfig]) and the n-th random identifier ([fresh],
    injective). The URL parser is [UrlApi]; the sealed columns, the rendered
    bodies, HMAC in hexadecimal and the projects with their workspaces are
    arguments of the webhooks' definitions; the TOTP check, the cipher of its
    secrets and argon2id's check are arguments of the second factors'. The JWT library and the token hash are
    [JwtApi] with [JwtLaws], which speak of the claims this code mints (no
    [nbf], nothing else the library reserves); the currency symbols of Intl.NumberFormat are an
    argument of [Money]'s; [Date.parse] is [DateParse], and the provider table an
    argument of the connector sync's. The entries of tools-core's compiled
    catalog, which it builds from its registry of handlers, are [ToolCatalog],
    with the two facts the registry's index guarantees. Toy instances show that the
    laws can hold.

    [verify_loop] and [purge_batches] take fuel: one more than the number of
    rows, which is enough because every iteration but the last consumes or
    deletes at least one row; C15 and C22 prove that they return. The catch-up
    of daily roots has the code's own bound of 60 days. The scan of business
    days has the code's bound of 3660 ([MAX_SCAN_DAYS]); [syncTicketSla] runs
    with five nested calls, one per priority, and C14 proves that they are
    enough; a sweep has the code's five pages of a hundred tickets. The closure
    of module dependencies runs one pass more than there are modules held, and
    the numbering of slugs tries one candidate more than there are slugs taken;
    [satisfied_greatest] and [free_slug_found] prove both enough. Calendar facts are for
    all days; the ordering of date texts is for years 1970 to 9599
    ([DAY_LIMIT]), where the year has four digits. Times are integers of
    milliseconds, as [Date] has them.

    ** What is not modelled

    The web dashboard, the services in other languages, the database schema and
    the generated code; of the orchestrator, the clients of external systems
    (Nextcloud, Docker, GitHub, Microsoft 365, Google, the recorder of the
    cameras) beyond the answers the handlers above branch on, request schemas
    and middleware, logging, and in-process caches and observers. Of the
    modelled files: the text of a tool result made from an interceptor outcome,
    the coalescing of concurrent verifications and the nightly notification,
    discovery and download of releases, staging of client apps, the SCIM
    group upsert, the assignment and macro schemas of the desk, and the JSON
    parsing of stored SLA terms, which are read as typed values. Left out with
    logic of their own: release manifests and channel pointers,
    document status, ticket states and assignment, the landing of vendor rows,
    project filters, and the telemetry spool. The pages of an audit walk are read
    from one table ([verify_loop]), while the code asks page by page. The handlers
    of an update run one at a time in [live], and every write there is stamped
    later than the one before; the audit rows that revoking VPN devices writes in
    the background have no place in a trace of [RoleGuard]. Of the webhooks: the text of a payload, the
    list endpoints, the pinned socket, and the chunks of five in which a sweep
    makes its attempts, which are fewer orders than [WhMachine] has; of the guard,
    the read of the box's network interfaces; of the tokens, the OAuth2 fallback
    of a refresh, cookies, and the Nextcloud half of a logout. Of the access
    control: which module owns a nested route prefix, presets and the toggling of
    modules, the use of grants by the ERP's routes, roles carried by invitations,
    and what an edit of a role does after its commit. *)

From Stdlib Require Export ZArith Lia.
From stdpp Require Export sorting strings gmap sets numbers base list.

(** ** Results of fallible code: a thrown error is a value *)

Inductive result (E A : Type) : Type :=
| Ok (a : A)
| Throw (e : E).
Arguments Ok {E A} _.
Arguments Throw {E A} _.

Definition rbind {E A B : Type} (m : result E A) (f : A -> result E B) : result E B :=
  match m with Ok a => f a | Throw e => Throw e end.

Definition is_ok {E A : Type} (m : result E A) : bool :=
  match m with Ok _ => true | Throw _ => false end.

Declare Scope droplet_scope.
Delimit Scope droplet_scope with droplet.
Notation "'let!' x ':=' m 'in' k" := (rbind m (fun x => k))
  (at level 10, x name, m at level 100, k at level 200, only parsing) : droplet_scope.
Notation "'let!' ' x ':=' m 'in' k" := (rbind m (fun x => k))
  (at level 10, x strict pattern, m at level 100, k at level 200, only parsing) : droplet_scope.
Notation "m ';;!' k" := (rbind m (fun _ => k))
  (at level 100, k at level 200, right associativity, only parsing) : droplet_scope.
Open Scope droplet_scope.

Lemma rbind_ok {E A B} (m : result E A) (f : A -> result E B) b :
  rbind m f = Ok b <-> exists a, m = Ok a /\ f a = Ok b.
Proof. destruct m; simpl; [naive_solver|]. split; [intros [=]|]. by intros (? & ? & ?). Qed.

(** ** Handlers: state and errors *)

(** A handler runs to completion on a state and answers or throws; what it
    wrote before a throw stays written. *)
Definition handler (S E A : Type) : Type := S -> S * result E A.

Definition hret {S E A} (a : A) : handler S E A := fun s => (s, Ok a).
Definition hthrow {S E A} (e : E) : handler S E A := fun s => (s, Throw e).
Definition hget {S E} : handler S E S := fun s => (s, Ok s).
Definition hbind {S E A B} (m : handler S E A) (f : A -> handler S E B) : handler S E B :=
  fun s => match m s with
           | (s', Ok a) => f a s'
           | (s', Throw e) => (s', Throw e)
           end.
(** [try { m } finally { f }] *)
Definition hfinally {S E A} (m : handler S E A) (f : S -> S) : handler S E A :=
  fun s => let '(s', r) := m s in (f s', r).

(** A database transaction: a throw undoes its writes. *)
Definition htransaction {S E A} (m : handler S E A) : handler S E A :=
  fun s => match m s with (s', Ok a) => (s', Ok a) | (_, Throw e) => (s, Throw e) end.

Notation "'do!' x <- m ; k" := (hbind m (fun x => k))
  (at level 10, x name, m at level 100, k at level 200, only parsing) : droplet_scope.
Notation "'run!' m ; k" := (hbind m (fun _ => k))
  (at level 10, m at level 100, k at level 200, only parsing) : droplet_scope.

Lemma hbind_ok {S E A B} (m : handler S E A) (f : A -> handler S E B) s s' b :
  hbind m f s = (s', Ok b) <-> exists a s1, m s = (s1, Ok a) /\ f a s1 = (s', Ok b).
Proof.
  unfold hbind. destruct (m s) as [s1 [a|e]]; split.
  - eauto.
  - by intros (? & ? & [= -> ->] & ?).
  - by intros [=].
  - by intros (? & ? & [=] & ?).
Qed.

(** Partial-correctness triples: from [P], a normal answer leaves [Q] and a
    throw leaves [T]. *)
Definition triple {S E A} (P : S -> Prop) (m : handler S E A) (Q : A -> S -> Prop) (T : S -> Prop) : Prop :=
  forall s, P s -> match m s with (s', Ok a) => Q a s' | (s', Throw _) => T s' end.

Lemma triple_bind {S E A B} (P : S -> Prop) (m : handler S E A) (f : A -> handler S E B) Q R T :
  triple P m Q T -> (forall a, triple (Q a) (f a) R T) -> triple P (hbind m f) R T.
Proof.
  intros Hm Hf s Hs. unfold hbind. specialize (Hm s Hs). destruct (m s) as [s' [a|e]]; [|done].
  apply (Hf a s' Hm).
Qed.

Lemma triple_ret {S E A} (P : S -> Prop) (a : A) (Q : A -> S -> Prop) T :
  (forall s, P s -> Q a s) -> triple P (hret a : handler S E A) Q T.
Proof. intros H s Hs. by apply H. Qed.

Lemma triple_throw {S E A} (P : S -> Prop) (e : E) (Q : A -> S -> Prop) T :
  (forall s, P s -> T s) -> triple P (hthrow e : handler S E A) Q T.
Proof. intros H s Hs. by apply H. Qed.

Lemma triple_conseq {S E A} (P P' : S -> Prop) (m : handler S E A) Q Q' T T' :
  triple P' m Q' T' -> (forall s, P s -> P' s) -> (forall a s, Q' a s -> Q a s) -> (forall s, T' s -> T s) ->
  triple P m Q T.
Proof.
  intros H HP HQ HT s Hs. specialize (H s (HP s Hs)). destruct (m s) as [s' [a|e]]; auto.
Qed.

Lemma triple_transaction {S E A} (P : S -> Prop) (m : handler S E A) Q T :
  triple P m Q (fun _ => True) -> (forall s, P s -> T s) -> triple P (htransaction m) Q T.
Proof.
  intros H HT s Hs. unfold htransaction. specialize (H s Hs). destruct (m s) as [s' [a|e]]; auto.
Qed.

(** ** JavaScript strings: lists of UTF-16 code units *)

Abbreviation jsstr := (list N).

(** An ASCII literal as a JavaScript string. *)
Definition js (s : string) : jsstr := (fun c => Ascii.N_of_ascii c) <$> String.list_ascii_of_string s.

(** ** String methods *)

(** White space and line terminators of [String.prototype.trim]. *)
Definition is_space (u : N) : bool :=
  bool_decide (u ∈ [9; 10; 11; 12; 13; 32; 160; 5760; 8232; 8233; 8239; 8287; 12288; 65279]%N)
  || ((8192 <=? u) && (u <=? 8202))%N.

Fixpoint trim_start (s : jsstr) : jsstr :=
  match s with u :: r => if is_space u then trim_start r else s | [] => [] end.

Definition trim (s : jsstr) : jsstr := reverse (trim_start (reverse (trim_start s))).

(** [s.toLowerCase()] as far as the ASCII letters of the result can tell: A-Z,
    and the two characters outside ASCII whose lower case contains one. *)
Definition lower_unit (u : N) : jsstr :=
  (if (65 <=? u) && (u <=? 90) then [u + 32] else if u =? 0x212A then [107]
   else if u =? 0x130 then [105; 0x307] else [u])%N.

Definition toLowerCase (s : jsstr) : jsstr := flat_map lower_unit s.

(** [s.startsWith(p)] *)
Fixpoint startsWith (p s : jsstr) : bool :=
  match p, s with
  | [], _ => true
  | x :: p', y :: s' => N.eqb x y && startsWith p' s'
  | _ :: _, [] => false
  end.

(** A text without white space is its own trim. *)
Lemma trim_start_id s : Forall (fun c => is_space c = false) s -> trim_start s = s.
Proof. by destruct 1 as [|c s Hc _]; cbn; rewrite ?Hc. Qed.

Lemma trim_id s : Forall (fun c => is_space c = false) s -> trim s = s.
Proof. intros Hs. unfold trim. rewrite (trim_start_id s Hs). rewrite trim_start_id, reverse_involutive; [done|]. by apply Forall_reverse. Qed.

Lemma startsWith_app p s : startsWith p (p ++ s) = true.
Proof. induction p as [|c p IH]; cbn; [done|]. by rewrite N.eqb_refl. Qed.

Lemma startsWith_iff p s : startsWith p s = true <-> exists t, s = p ++ t.
Proof.
  split; [|intros [t ->]; apply startsWith_app]. revert s. induction p as [|c p IH]; intros s; cbn; [by exists s|].
  destruct s as [|d s]; [done|]. intros [->%N.eqb_eq [t ->]%IH]%andb_true_iff. by exists t.
Qed.

(** ** Automation *)

Create HintDb droplet discriminated.

(** Split every [if] and [match] of the goal or a hypothesis, then close the
    absurd branches. *)
Ltac boom := repeat (case_match || case_decide || simplify_eq/=); simplify_eq/=; try done.
Ltac b2p :=
  repeat match goal with
  | H : (_ && _)%bool = true |- _ => apply andb_prop in H as [? ?]
  | H : (_ <=? _)%Z = true |- _ => apply Z.leb_le in H
  | H : (_ <=? _)%Z = false |- _ => apply Z.leb_gt in H
  | H : (_ <? _)%Z = true |- _ => apply Z.ltb_lt in H
  | H : (_ <? _)%Z = false |- _ => apply Z.ltb_ge in H
  | H : (_ <? _)%N = true |- _ => apply N.ltb_lt in H
  | H : (_ <? _)%N = false |- _ => apply N.ltb_ge in H
  | H : (_ <=? _)%N = true |- _ => apply N.leb_le in H
  | H : (_ <=? _)%N = false |- _ => apply N.leb_gt in H
  | H : (_ <? _)%nat = true |- _ => apply Nat.ltb_lt in H
  | H : (_ <? _)%nat = false |- _ => apply Nat.ltb_ge in H
  | H : (_ <=? _)%nat = true |- _ => apply Nat.leb_le in H
  | H : (_ <=? _)%nat = false |- _ => apply Nat.leb_gt in H
  | H : (_ =? _)%Z = true |- _ => apply Z.eqb_eq in H
  | H : (_ =? _)%Z = false |- _ => apply Z.eqb_neq in H
  end.

(** ** Strict order of JavaScript strings ([a < b], by code unit) *)

Fixpoint str_ltb (a b : jsstr) : bool :=
  match a, b with
  | [], _ :: _ => true
  | x :: a', y :: b' => if N.eqb x y then str_ltb a' b' else N.ltb x y
  | _, [] => false
  end.

Lemma str_ltb_irrefl a : str_ltb a a = false.
Proof. induction a as [|x a IH]; simpl; [done|]. by rewrite N.eqb_refl. Qed.

Lemma str_ltb_trans a b c : str_ltb a b = true -> str_ltb b c = true -> str_ltb a c = true.
Proof.
  revert b c. induction a as [|x a IH]; intros [|y b] [|z c]; simpl; try done.
  repeat case_match; rewrite ?N.eqb_eq, ?N.eqb_neq, ?N.ltb_lt in *; subst; eauto; try lia; try done.
Qed.

Lemma str_ltb_total a b : str_ltb a b = false -> str_ltb b a = false -> a = b.
Proof.
  revert b. induction a as [|x a IH]; intros [|y b]; simpl; try done.
  repeat case_match; rewrite ?N.eqb_eq, ?N.eqb_neq, ?N.ltb_ge in *; subst; try lia.
  intros. f_equal; eauto.
Qed.

#[export] Hint Resolve str_ltb_irrefl str_ltb_trans str_ltb_total : droplet.

(** ** Sorted lists are determined by their elements *)

Lemma sorted_perm_unique {A} (R : relation A) `{!StrictOrder R} (l l' : list A) :
  StronglySorted R l -> StronglySorted R l' -> l ≡ₚ l' -> l = l'.
Proof.
  revert l'. induction l as [|e l IH]; intros l' Hs Hs' Hp.
  { by apply Permutation_nil_l in Hp. }
  destruct l' as [|e' l']; [by apply Permutation_nil_r in Hp|].
  apply StronglySorted_inv in Hs as [Hs A1], Hs' as [Hs' A2]. assert (e = e') as ->.
  { assert (e ∈ e' :: l') as Hin by (rewrite <- Hp; left).
    assert (e' ∈ e :: l) as Hin' by (rewrite Hp; left).
    apply elem_of_cons in Hin as [?|Hin]; [done|].
    apply elem_of_cons in Hin' as [?|Hin']; [done|].
    rewrite Forall_forall in A1, A2. destruct (StrictOrder_Irreflexive e).
    by transitivity e'; [apply A1|apply A2]. }
  f_equal. apply IH; try done. by apply Permutation_cons_inv in Hp.
Qed.

(** ** Association lists with string keys, in enumeration order *)

Section entries.
Context {A : Type}.
Implicit Types l : list (jsstr * A).

Fixpoint alookup (k : jsstr) l : option A :=
  match l with
  | [] => None
  | (k', v) :: r => if decide (k = k') then Some v else alookup k r
  end.

(** Insertion of an entry before the first entry with a larger key: the
    insertion step of a stable sort by key. *)
Fixpoint insert_entry (e : jsstr * A) l : list (jsstr * A) :=
  match l with
  | [] => [e]
  | e' :: r => if str_ltb e'.1 e.1 then e' :: insert_entry e r else e :: e' :: r
  end.

Definition sort_entries l : list (jsstr * A) := foldr insert_entry [] l.

Lemma insert_entry_perm e l : insert_entry e l ≡ₚ e :: l.
Proof.
  induction l as [|e' l IH]; simpl; [done|]. case_match; [|done].
  rewrite IH. apply Permutation_swap.
Qed.

Lemma sort_entries_perm l : sort_entries l ≡ₚ l.
Proof. induction l as [|e l IH]; simpl; [done|]. by rewrite insert_entry_perm, IH. Qed.

Definition key_lt (e e' : jsstr * A) : Prop := str_ltb e.1 e'.1 = true.

Lemma insert_entry_sorted e l :
  e.1 ∉ l.*1 -> StronglySorted key_lt l -> StronglySorted key_lt (insert_entry e l).
Proof.
  unfold key_lt. induction l as [|e' l IH]; intros Hne Hs; simpl.
  { repeat constructor. }
  inv Hs. simpl in Hne. rewrite not_elem_of_cons in Hne. destruct Hne as [Hne1 Hne2].
  case_match eqn:E.
  - constructor; [by apply IH|]. rewrite insert_entry_perm. by constructor.
  - assert (str_ltb e.1 e'.1 = true) as Hlt.
    { destruct (str_ltb e.1 e'.1) eqn:F; [done|]. exfalso. eauto with droplet. }
    constructor; [by constructor|]. constructor; [done|].
    eapply Forall_impl; [eassumption|]. intros e'' ?. simpl. eauto with droplet.
Qed.

Lemma sort_entries_sorted l : NoDup l.*1 -> StronglySorted key_lt (sort_entries l).
Proof.
  induction l as [|e l IH]; simpl; intros Hnd; [constructor|]. inv Hnd.
  apply insert_entry_sorted; [|by apply IH].
  by rewrite (Permutation_map fst (sort_entries_perm l)).
Qed.

#[export] Instance key_lt_strict : StrictOrder key_lt.
Proof.
  split; unfold key_lt.
  - intros e H. by rewrite str_ltb_irrefl in H.
  - intros e1 e2 e3. apply str_ltb_trans.
Qed.

(** Sorting forgets the order the entries arrived in. *)
Lemma sort_entries_ext l l' : NoDup l.*1 -> l ≡ₚ l' -> sort_entries l = sort_entries l'.
Proof.
  intros Hnd Hp. apply (sorted_perm_unique key_lt).
  - by apply sort_entries_sorted.
  - apply sort_entries_sorted. by rewrite <- (Permutation_map fst Hp).
  - by rewrite !sort_entries_perm.
Qed.

Lemma sort_entries_sorted_id l : StronglySorted key_lt l -> NoDup l.*1 -> sort_entries l = l.
Proof.
  intros Hs Hnd. apply (sorted_perm_unique key_lt); [by apply sort_entries_sorted|done|apply sort_entries_perm].
Qed.
End entries.

(** ** Lookups in association lists *)

Section alookup.
Context {A : Type}.
Implicit Types l : list (jsstr * A).

Lemma alookup_None k l : alookup k l = None <-> k ∉ l.*1.
Proof.
  induction l as [|[k' v] l IH]; csimpl; [set_solver|].
  rewrite not_elem_of_cons. case_decide; naive_solver.
Qed.

Lemma alookup_Some k v l : NoDup l.*1 -> alookup k l = Some v <-> (k, v) ∈ l.
Proof.
  induction l as [|[k' v'] l IH]; csimpl; intros Hnd; [set_solver|].
  apply NoDup_cons in Hnd as [Hk Hnd]. rewrite elem_of_cons. case_decide as E.
  - subst. split; [by intros [= ->]; left|]. intros [[= ->]|Hin]; [done|].
    exfalso. apply Hk. by apply (list_elem_of_fmap_2 fst _ (k', v)).
  - rewrite IH by done. split; [by right|]. intros [[= -> ->]|?]; done.
Qed.

Lemma alookup_elem k v l : alookup k l = Some v -> (k, v) ∈ l.
Proof.
  induction l as [|[k' v'] l IH]; simpl; [done|]. case_decide.
  - intros [= ->]. subst. left.
  - right. auto.
Qed.

Lemma alookup_perm k l l' : NoDup l.*1 -> l ≡ₚ l' -> alookup k l = alookup k l'.
Proof.
  intros Hnd Hp. assert (Hnd' : NoDup l'.*1) by (by rewrite <- (Permutation_map fst Hp)).
  apply option_eq. intros v. rewrite !alookup_Some by done. by rewrite Hp.
Qed.

Lemma alookup_filter (P : jsstr -> Prop) `{!forall k, Decision (P k)} k l :
  NoDup l.*1 -> alookup k (filter (fun e => P e.1) l) = if decide (P k) then alookup k l else None.
Proof.
  induction l as [|[k' v'] l IH]; csimpl; intros Hnd; [by case_decide|].
  apply NoDup_cons in Hnd as [Hk Hnd]. rewrite filter_cons. simpl.
  destruct (decide (P k')); simpl; rewrite IH by done; repeat case_decide; subst; try done.
Qed.

(** Equal lookups and distinct keys: the same entries, up to order. *)
Lemma alookup_ext_perm l l' :
  NoDup l.*1 -> NoDup l'.*1 -> (forall k, alookup k l = alookup k l') -> l ≡ₚ l'.
Proof.
  intros Hnd Hnd' H. apply NoDup_Permutation; [by eapply NoDup_fmap_1..|].
  intros [k v]. by rewrite <- !alookup_Some, H.
Qed.
End alookup.

Lemma insert_entry_fmap {A B} (f : A -> B) e l :
  insert_entry (prod_map id f e) (prod_map id f <$> l) = prod_map id f <$> insert_entry e l.
Proof. induction l as [|e' l IH]; csimpl; [done|]. rewrite IH. by case_match. Qed.

Lemma sort_entries_fmap {A B} (f : A -> B) l :
  sort_entries (prod_map id f <$> l) = prod_map id f <$> sort_entries l.
Proof. induction l as [|e l IH]; csimpl; [done|]. by rewrite IH, <- insert_entry_fmap. Qed.

(** ** Lists *)

(** Split a list at the last occurrence of a separator that the tails avoid. *)
Lemma app_sep_inj {A} (c : A) (l1 l2 r1 r2 : list A) :
  c ∉ r1 -> c ∉ r2 -> l1 ++ c :: r1 = l2 ++ c :: r2 -> l1 = l2 /\ r1 = r2.
Proof.
  intros H1 H2. revert l2. induction l1 as [|x l1 IH]; intros [|y l2] E; simpl in E.
  - by injection E as ->.
  - injection E as -> ->. exfalso. apply H1. set_solver.
  - injection E as -> <-. exfalso. apply H2. set_solver.
  - injection E as -> E. by destruct (IH _ E) as [-> ->].
Qed.

(** Split at the first occurrence of a separator that the heads avoid. *)
Lemma app_sep_inj_l {A} (c : A) (l1 l2 r1 r2 : list A) :
  c ∉ l1 -> c ∉ l2 -> l1 ++ c :: r1 = l2 ++ c :: r2 -> l1 = l2 /\ r1 = r2.
Proof.
  revert l2. induction l1 as [|x l1 IH]; intros [|y l2] H1 H2 E; simpl in E;
    rewrite ?not_elem_of_cons in *; try naive_solver.
Qed.

Lemma StronglySorted_filter {A} (R : relation A) (P : A -> Prop) `{!forall x, Decision (P x)} l :
  StronglySorted R l -> StronglySorted R (filter P l).
Proof.
  induction 1 as [|x l Hs IH Hx]; [constructor|]. rewrite filter_cons. case_decide; [|done].
  constructor; [done|]. rewrite Forall_forall in *. intros y [_ ?]%list_elem_of_filter. auto.
Qed.

(** Strong sortedness on a relation implied inside the list. *)
Lemma StronglySorted_impl {A} (R R' : relation A) l :
  (forall x y, x ∈ l -> y ∈ l -> R x y -> R' x y) -> StronglySorted R l -> StronglySorted R' l.
Proof.
  induction l as [|x l IH]; intros HR Hs; [constructor|]. apply StronglySorted_inv in Hs as [Hs Hx].
  constructor; [apply IH; [set_solver|done]|]. rewrite Forall_forall in *. set_solver.
Qed.

(** ** Sorting by a comparison function *)

(** [l.sort(cmp)]: a stable sort, [cmp a b < 0] when [a] goes before [b]. *)
Section sort_by.
Context {A : Type} (cmp : A -> A -> Z).

Fixpoint insert_by (x : A) (l : list A) : list A :=
  match l with
  | [] => [x]
  | y :: r => if (cmp y x <? 0)%Z then y :: insert_by x r else x :: l
  end.

Definition sort_by (l : list A) : list A := foldr insert_by [] l.

Lemma insert_by_perm x l : insert_by x l ≡ₚ x :: l.
Proof. induction l as [|y l IH]; simpl; [done|]. case_match; [|done]. rewrite IH. apply Permutation_swap. Qed.

Lemma sort_by_perm l : sort_by l ≡ₚ l.
Proof. induction l as [|x l IH]; simpl; [done|]. by rewrite insert_by_perm, IH. Qed.

Lemma sort_by_sorted (R : relation A) l : Transitive R ->
  (forall x y, (cmp y x < 0)%Z -> R y x) -> (forall x y, (0 <= cmp y x)%Z -> R x y) -> StronglySorted R (sort_by l).
Proof.
  intros HT H1 H2. induction l as [|x l IH]; simpl; [constructor|].
  revert IH. generalize (sort_by l) as k. clear l. induction k as [|y k IHk]; intros Hs; simpl; [repeat constructor|].
  apply StronglySorted_inv in Hs as [Hs Hy]. case_match eqn:E; b2p.
  - constructor; [by apply IHk|]. rewrite insert_by_perm. constructor; [by apply H1|done].
  - constructor; [by constructor|]. assert (R x y) by (apply H2; lia). constructor; [done|].
    eapply Forall_impl; [exact Hy|]. intros z ?. by transitivity y.
Qed.
End sort_by.
