(* ===== verification/JsNum.v ===== *)
(** * Numbers as JavaScript prints them

    A finite number is its sign, its shortest decimal digits and the place of
    the decimal point, as in the ECMAScript definition of [Number::toString]
    (the form [JSON.stringify] and template literals print).  The printer
    follows that definition case by case; [num_str_inj] says that two numbers
    printed alike are the same number. *)

From S2P Require Import Prelude.
From Stdlib Require Import DecimalN.

Open Scope N_scope.

(** ** Natural numbers in decimal *)

Fixpoint uint_units (d : Decimal.uint) : jsstr :=
  match d with
  | Decimal.Nil => []
  | Decimal.D0 d => 48 :: uint_units d | Decimal.D1 d => 49 :: uint_units d
  | Decimal.D2 d => 50 :: uint_units d | Decimal.D3 d => 51 :: uint_units d
  | Decimal.D4 d => 52 :: uint_units d | Decimal.D5 d => 53 :: uint_units d
  | Decimal.D6 d => 54 :: uint_units d | Decimal.D7 d => 55 :: uint_units d
  | Decimal.D8 d => 56 :: uint_units d | Decimal.D9 d => 57 :: uint_units d
  end.

(** [String(n)] for a natural number. *)
Definition dec_str (n : N) : jsstr := uint_units (N.to_uint n).

Fixpoint units_uint (l : jsstr) : Decimal.uint :=
  match l with
  | [] => Decimal.Nil
  | c :: r => let d := units_uint r in
    match c with
    | 48 => Decimal.D0 d | 49 => Decimal.D1 d | 50 => Decimal.D2 d | 51 => Decimal.D3 d
    | 52 => Decimal.D4 d | 53 => Decimal.D5 d | 54 => Decimal.D6 d | 55 => Decimal.D7 d
    | 56 => Decimal.D8 d | _ => Decimal.D9 d
    end
  end.

Definition dec_val (l : jsstr) : N := N.of_uint (units_uint l).

Definition is_digit (c : N) : Prop := 48 <= c <= 57.

Lemma dec_val_str n : dec_val (dec_str n) = n.
Proof.
  unfold dec_val, dec_str. rewrite <- (DecimalN.Unsigned.of_to n) at 2. f_equal.
  generalize (N.to_uint n). intros d. by induction d; simpl; f_equal.
Qed.

Lemma dec_str_digits n : Forall is_digit (dec_str n).
Proof.
  unfold dec_str, is_digit. generalize (N.to_uint n).
  intros d. induction d; simpl; constructor; done || lia.
Qed.

Lemma dec_str_inj n m : dec_str n = dec_str m -> n = m.
Proof. intros E. by rewrite <- (dec_val_str n), E, dec_val_str. Qed.

Lemma digit_not_in c l : Forall is_digit l -> ~ is_digit c -> c ∉ l.
Proof. rewrite Forall_forall. naive_solver. Qed.

(** ** Finite numbers *)

Inductive jsnum : Type :=
| NZero
| NDec (neg : bool) (ds : list N) (n : Z).

#[export] Instance jsnum_eq_dec : EqDecision jsnum.
Proof. solve_decision. Defined.

(** The digits are decimal digits, neither leading nor trailing zeros: the
    number is [0.d1 d2 .. dk * 10^n]. *)
Definition digits_wf (ds : list N) : Prop :=
  ds <> [] /\ Forall (fun d => d < 10) ds /\ head ds <> Some 0 /\ last ds <> Some 0.

Definition jsnum_wf (x : jsnum) : Prop :=
  match x with NZero => True | NDec _ ds _ => digits_wf ds end.

Definition digit_units (ds : list N) : jsstr := (fun d => 48 + d) <$> ds.

Definition exp_units (e : Z) : jsstr :=
  101 :: (if (e <? 0)%Z then 45 else 43) :: dec_str (Z.to_N (Z.abs e)).

(** The four shapes of [Number::toString] for a positive number. *)
Definition num_abs_str (ds : list N) (n : Z) : jsstr :=
  let k := Z.of_nat (length ds) in
  if ((k <=? n) && (n <=? 21))%Z then digit_units ds ++ replicate (Z.to_nat (n - k)) 48
  else if ((0 <? n) && (n <=? 21))%Z then
    digit_units (take (Z.to_nat n) ds) ++ 46 :: digit_units (drop (Z.to_nat n) ds)
  else if ((-6 <? n) && (n <=? 0))%Z then
    48 :: 46 :: replicate (Z.to_nat (- n)) 48 ++ digit_units ds
  else match ds with
       | [] => []
       | [d] => 48 + d :: exp_units (n - 1)
       | d :: r => 48 + d :: 46 :: digit_units r ++ exp_units (n - 1)
       end.

(** [Number::toString]. *)
Definition num_str (x : jsnum) : jsstr :=
  match x with
  | NZero => [48]
  | NDec neg ds n => (if neg then [45] else []) ++ num_abs_str ds n
  end.

(** ** Reading a printed number back *)

Fixpoint split_at (c : N) (l : jsstr) : jsstr * option jsstr :=
  match l with
  | [] => ([], None)
  | x :: r => if N.eqb x c then ([], Some r)
              else let '(a, b) := split_at c r in (x :: a, b)
  end.

Fixpoint strip_zeros (ds : list N) : list N :=
  match ds with 0 :: r => strip_zeros r | _ => ds end.

Definition read_exp (o : option jsstr) : Z :=
  match o with
  | Some (45 :: l) => - Z.of_N (dec_val l)
  | Some (_ :: l) => Z.of_N (dec_val l)
  | _ => 0
  end.

Definition read_abs (s : jsstr) : list N * Z :=
  let '(m, e) := split_at 101 s in
  let '(ip, fp) := split_at 46 m in
  let all := (fun c => c - 48) <$> (ip ++ default [] fp) in
  let sig := strip_zeros all in
  (reverse (strip_zeros (reverse sig)),
   Z.of_nat (length ip) + read_exp e - (Z.of_nat (length all) - Z.of_nat (length sig)))%Z.

(** An integer as a number (exact up to 2^53). *)
Definition num_of_Z (z : Z) : jsnum :=
  if (z =? 0)%Z then NZero
  else let '(ds, n) := read_abs (dec_str (Z.to_N (Z.abs z))) in NDec (z <? 0)%Z ds n.

(** The integer a number is, when it is one ([Number.isInteger]). *)
Definition num_int (x : jsnum) : option Z :=
  match x with
  | NZero => Some 0%Z
  | NDec neg ds n =>
      if (Z.of_nat (length ds) <=? n)%Z then
        let v := (foldl (fun acc d => 10 * acc + Z.of_N d) 0 ds * 10 ^ (n - Z.of_nat (length ds)))%Z in
        Some (if neg then - v else v)%Z
      else None
  end.

Lemma split_at_none c l : c ∉ l -> split_at c l = (l, None).
Proof.
  induction l as [|x l IH]; simpl; [done|]. rewrite not_elem_of_cons. intros [Hne Hl].
  destruct (N.eqb_spec x c); [congruence|]. by rewrite IH.
Qed.

Lemma split_at_app c l r : c ∉ l -> split_at c (l ++ c :: r) = (l, Some r).
Proof.
  induction l as [|x l IH]; simpl; [by rewrite N.eqb_refl|]. rewrite not_elem_of_cons.
  intros [Hne Hl]. destruct (N.eqb_spec x c); [congruence|]. by rewrite IH.
Qed.

Lemma digit_units_digits ds : Forall (fun d => d < 10) ds -> Forall is_digit (digit_units ds).
Proof.
  unfold digit_units, is_digit. intros H. apply Forall_fmap.
  eapply Forall_impl; [exact H|]. simpl. lia.
Qed.

Lemma digit_units_sub ds : (fun c => c - 48) <$> digit_units ds = ds.
Proof.
  unfold digit_units. rewrite <- list_fmap_compose. rewrite <- (list_fmap_id ds) at 2.
  apply list_fmap_ext. intros i x _. simpl. lia.
Qed.

Lemma strip_zeros_head ds : head ds <> Some 0 -> strip_zeros ds = ds.
Proof. destruct ds as [|[|p] r]; simpl; [done| |done]. intros H. by destruct H. Qed.

Lemma strip_zeros_replicate m ds : head ds <> Some 0 -> strip_zeros (replicate m 0 ++ ds) = ds.
Proof. intros H. induction m; simpl; [by apply strip_zeros_head|done]. Qed.

Lemma strip_zeros_rev m ds :
  last ds <> Some 0 -> reverse (strip_zeros (reverse (ds ++ replicate m 0))) = ds.
Proof.
  intros H. rewrite reverse_app, reverse_replicate, strip_zeros_replicate.
  - apply reverse_involutive.
  - by rewrite head_reverse.
Qed.

(** Reading digits printed with [a] zeros before and [b] zeros after them, the
    decimal point after [length ip] characters. *)
Lemma read_abs_digits a b ds ip fp e :
  digits_wf ds -> ip ++ default [] fp = replicate a 48 ++ digit_units ds ++ replicate b 48 ->
  forall s, split_at 101 s = (from_option (fun f => ip ++ 46 :: f) ip fp, e) -> 46 ∉ ip ->
  read_abs s = (ds, Z.of_nat (length ip) + read_exp e - Z.of_nat a)%Z.
Proof.
  intros (Hne & Hlt & Hh & Hl) Hall s Hs Hip. unfold read_abs. rewrite Hs.
  assert (split_at 46 (from_option (fun f => ip ++ 46 :: f) ip fp) = (ip, fp)) as ->.
  { destruct fp; simpl; [by apply split_at_app|by apply split_at_none]. }
  rewrite Hall, !fmap_app, digit_units_sub, !fmap_replicate. change (48 - 48) with 0.
  rewrite strip_zeros_replicate by (destruct ds; done).
  rewrite strip_zeros_rev by done. f_equal.
  rewrite !length_app, !length_replicate. lia.
Qed.

Lemma read_exp_units e : read_exp (Some (tail (exp_units e))) = e.
Proof.
  unfold exp_units, read_exp. simpl. rewrite dec_val_str. destruct (Z.ltb_spec e 0); lia.
Qed.

Lemma is_digit_48 d : d < 10 -> is_digit (48 + d).
Proof. unfold is_digit. lia. Qed.

Lemma zeros_digits m : Forall is_digit (replicate m 48).
Proof. apply Forall_replicate. unfold is_digit. lia. Qed.

#[local] Hint Resolve digit_units_digits zeros_digits is_digit_48 dec_str_digits Forall_app_2
  Forall_take Forall_drop Forall_cons_2 Forall_nil_2 : core.

Ltac no_digit := simpl; eapply digit_not_in; [solve [eauto 6]|unfold is_digit; lia].

Lemma length_digit_units l : length (digit_units l) = length l.
Proof. apply length_fmap. Qed.

Lemma read_integer ds m : digits_wf ds ->
  read_abs (digit_units ds ++ replicate m 48) = (ds, Z.of_nat (length ds + m)).
Proof.
  intros Hwf. pose proof Hwf as (_ & ? & _).
  rewrite (read_abs_digits 0 m ds (digit_units ds ++ replicate m 48) None None);
    rewrite ?app_nil_r; try done; [|apply split_at_none; no_digit|no_digit].
  rewrite length_app, length_digit_units, length_replicate. f_equal. simpl. lia.
Qed.

Lemma read_point ds m : digits_wf ds -> (m <= length ds)%nat ->
  read_abs (digit_units (take m ds) ++ 46 :: digit_units (drop m ds)) = (ds, Z.of_nat m).
Proof.
  intros Hwf Hm. pose proof Hwf as (_ & ? & _).
  rewrite (read_abs_digits 0 0 ds (digit_units (take m ds)) (Some (digit_units (drop m ds))) None);
    try done; [| |apply split_at_none|]; try no_digit.
  - rewrite length_digit_units, length_take. f_equal. simpl. lia.
  - simpl. rewrite app_nil_r. unfold digit_units. by rewrite <- fmap_app, take_drop.
  - simpl. rewrite not_elem_of_app, not_elem_of_cons. split_and!; [no_digit|lia|no_digit].
Qed.

Lemma read_small ds m : digits_wf ds ->
  read_abs (48 :: 46 :: replicate m 48 ++ digit_units ds) = (ds, - Z.of_nat m)%Z.
Proof.
  intros Hwf. pose proof Hwf as (_ & ? & _).
  rewrite (read_abs_digits (S m) 0 ds [48] (Some (replicate m 48 ++ digit_units ds)) None);
    try done; [| |apply split_at_none|set_solver].
  - f_equal. simpl. lia.
  - simpl. by rewrite app_nil_r.
  - simpl. rewrite !not_elem_of_cons. split_and!; [lia|lia|no_digit].
Qed.

Lemma read_exponent d r e : digits_wf (d :: r) ->
  read_abs (48 + d :: (if decide (r = []) then [] else 46 :: digit_units r) ++ exp_units e)
  = (d :: r, 1 + e)%Z.
Proof.
  intros Hwf. pose proof Hwf as (_ & Hlt & _). inv Hlt.
  rewrite (read_abs_digits 0 0 (d :: r) [48 + d]
    (if decide (r = []) then None else Some (digit_units r)) (Some (tail (exp_units e)))); try done.
  - rewrite read_exp_units. f_equal. simpl. lia.
  - simpl. rewrite app_nil_r. unfold digit_units. case_decide; by subst.
  - case_decide; subst.
    + apply (split_at_app 101 [48 + d]). no_digit.
    + apply (split_at_app 101 (48 + d :: 46 :: digit_units r)).
      rewrite !not_elem_of_cons. split_and!; [lia|lia|no_digit].
  - no_digit.
Qed.

Lemma read_num_abs ds n : digits_wf ds -> read_abs (num_abs_str ds n) = (ds, n).
Proof.
  intros Hwf. unfold num_abs_str. repeat case_match; b2p; try by destruct Hwf.
  - rewrite read_integer by done. f_equal. lia.
  - rewrite read_point by (done || lia). f_equal. lia.
  - rewrite read_small by done. f_equal. lia.
  - pose proof (read_exponent n0 [] (n - 1) Hwf) as E. simpl in E. rewrite E. f_equal. lia.
  - pose proof (read_exponent n0 (n1 :: l0) (n - 1) Hwf) as E. simpl in *. rewrite E. f_equal. lia.
Qed.

(** A printed number starts with a minus sign exactly when it is negative. *)
Lemma num_abs_str_head ds n : digits_wf ds ->
  exists c r, num_abs_str ds n = c :: r /\ is_digit c.
Proof.
  intros (Hne & Hlt & _). unfold num_abs_str. destruct ds as [|d ds]; [done|]. inv Hlt.
  repeat case_match; b2p; simpl; eauto; try (eexists _, _; split; [reflexivity|unfold is_digit; lia]).
  destruct (Z.to_nat n) eqn:?; [lia|]. simpl. eauto.
Qed.

(** Two numbers that print alike are the same number. *)
Lemma num_str_inj x y : jsnum_wf x -> jsnum_wf y -> num_str x = num_str y -> x = y.
Proof.
  assert (Hz : forall neg ds n, digits_wf ds -> num_str NZero <> num_str (NDec neg ds n)).
  { intros neg ds n Hwf E. simpl in E. destruct neg; [done|]. simpl in E.
    pose proof (read_num_abs ds n Hwf) as R. rewrite <- E in R. by destruct Hwf; injection R as <-. }
  destruct x as [|sx dx nx], y as [|sy dy ny]; intros Hx Hy E; [done| | |].
  - by destruct (Hz sy dy ny).
  - by destruct (Hz sx dx nx).
  - simpl in *. destruct (num_abs_str_head dx nx Hx) as (cx & rx & Ex & Dx).
    destruct (num_abs_str_head dy ny Hy) as (cy & ry & Ey & Dy). unfold is_digit in *.
    assert (sx = sy) as ->.
    { rewrite Ex, Ey in E. destruct sx, sy; simpl in E; try done; injection E as ? ?; lia. }
    apply app_inv_head in E. pose proof (read_num_abs dx nx Hx) as R.
    rewrite E, read_num_abs in R by done. by injection R as -> ->.
Qed.

(** Every character of a printed number is one of [0-9 . e + -]. *)
Definition num_char (c : N) : Prop := is_digit c \/ c = 46 \/ c = 101 \/ c = 43 \/ c = 45.

Lemma digits_num_chars l : Forall is_digit l -> Forall num_char l.
Proof. intros H. eapply Forall_impl; [exact H|]. unfold num_char. tauto. Qed.

#[local] Hint Resolve digits_num_chars : core.
#[local] Hint Extern 1 (num_char _) => unfold num_char, is_digit; lia : core.

Lemma exp_units_chars e : Forall num_char (exp_units e).
Proof. unfold exp_units. case_match; auto 6. Qed.

#[local] Hint Resolve exp_units_chars : core.

Lemma num_str_chars x : jsnum_wf x -> Forall num_char (num_str x).
Proof.
  destruct x as [|neg ds n]; simpl; [auto|]. intros (_ & Hlt & _).
  apply Forall_app_2; [destruct neg; auto|]. unfold num_abs_str.
  repeat case_match; subst; auto 7.
  - inv Hlt. auto.
  - apply Forall_cons in Hlt as [? ?].
    apply Forall_cons_2; [auto|]. apply Forall_cons_2; [auto|]. apply Forall_app_2; auto.
Qed.

Lemma num_str_nonempty x : jsnum_wf x -> num_str x <> [].
Proof.
  destruct x as [|neg ds n]; simpl; [done|]. intros (c & r & -> & _)%(num_abs_str_head _ n).
  by destruct neg.
Qed.

(** ** Integers survive *)

Definition dec_fold (acc : Z) (ds : list N) : Z := foldl (fun acc d => 10 * acc + Z.of_N d)%Z acc ds.

Lemma of_uint_acc_fold d : forall p,
  Z.pos (Pos.of_uint_acc d p) = dec_fold (Z.pos p) ((fun c => c - 48) <$> uint_units d).
Proof. unfold dec_fold. induction d; intros p; [done|..]; cbn -[Z.mul Pos.mul]; rewrite IHd; f_equal; lia. Qed.

Lemma of_uint_fold d : Z.of_N (N.of_uint d) = dec_fold 0 ((fun c => c - 48) <$> uint_units d).
Proof.
  unfold N.of_uint. induction d; [done|by cbn -[Z.mul]; rewrite IHd|..]; unfold Pos.of_uint, Z.of_N; by rewrite of_uint_acc_fold.
Qed.

Lemma dec_fold_strip ds : dec_fold 0 (strip_zeros ds) = dec_fold 0 ds.
Proof. induction ds as [|d ds IH]; [done|]. destruct d; [exact IH|done]. Qed.

Lemma dec_fold_zeros k acc : dec_fold acc (replicate k 0) = (acc * 10 ^ Z.of_nat k)%Z.
Proof.
  revert acc. induction k as [|k IH]; intros acc; [cbn; lia|]. cbn [replicate]. unfold dec_fold in *. cbn [foldl].
  rewrite IH, Nat2Z.inj_succ, Z.pow_succ_r by lia. lia.
Qed.

Lemma strip_zeros_split ds : exists k, ds = replicate k 0 ++ strip_zeros ds.
Proof. induction ds as [|d ds [k IH]]; [by exists O|]. destruct d; [exists (S k); simpl; by f_equal|by exists O]. Qed.

Lemma strip_trailing ds : exists k, ds = reverse (strip_zeros (reverse ds)) ++ replicate k 0.
Proof.
  destruct (strip_zeros_split (reverse ds)) as [k Hk]. exists k.
  rewrite <- (reverse_involutive ds) at 1. rewrite Hk, reverse_app, reverse_replicate. by rewrite <- Hk.
Qed.

(** Writing an integer as a number and reading it back. *)
Lemma num_int_of_Z z : num_int (num_of_Z z) = Some z.
Proof.
  unfold num_of_Z. destruct (Z.eqb_spec z 0) as [->|Hz]; [done|]. unfold read_abs.
  set (n := Z.to_N (Z.abs z)). pose proof (dec_str_digits n) as Hd.
  rewrite (split_at_none 101 (dec_str n)), (split_at_none 46 (dec_str n)) by no_digit. cbn [default read_exp].
  rewrite app_nil_r. set (all := (fun c => c - 48) <$> dec_str n).
  assert (Hv : dec_fold 0 all = Z.of_N n).
  { unfold all, dec_str. rewrite <- of_uint_fold. f_equal. apply DecimalN.Unsigned.of_to. }
  rewrite <- dec_fold_strip in Hv. set (sig := strip_zeros all) in *.
  assert (Hl : length (dec_str n) = length all) by (unfold all; by rewrite length_fmap). rewrite Hl.
  destruct (strip_trailing sig) as [k Hk]. set (ds := reverse (strip_zeros (reverse sig))) in *.
  assert (Hlen : (length sig = length ds + k)%nat) by (rewrite Hk; by rewrite length_app, length_replicate).
  unfold num_int. rewrite (proj2 (Z.leb_le _ _)) by lia.
  replace (_ - Z.of_nat (length ds))%Z with (Z.of_nat k) by lia. fold (dec_fold 0 ds).
  rewrite <- dec_fold_zeros. unfold dec_fold in *. rewrite Hk, foldl_app in Hv. rewrite Hv.
  f_equal. unfold n. destruct (z <? 0)%Z eqn:E; b2p; lia.
Qed.
