(* ===== verification/Json.v ===== *)
(** * JavaScript values and their JSON text

    The values the tool arguments and the audit references are made of, the
    text [JSON.stringify] gives them, the order in which an object lists its
    properties, and the fact the binding hash and the audit signature rest on:
    the text determines the value ([render_inj]). *)

From S2P Require Import Prelude JsNum.

Open Scope N_scope.

(** ** Values *)

#[warnings="-register-all"]
Inductive jsval : Type :=
| JUndef
| JNull
| JBool (b : bool)
| JNum (n : jsnum)
| JStr (s : jsstr)
| JArr (l : list jsval)
| JObj (kvs : list (jsstr * jsval)).

Abbreviation entries := (list (jsstr * jsval)).

Section jsval_induction.
Variable P : jsval -> Prop.
Hypothesis Pundef : P JUndef.
Hypothesis Pnull : P JNull.
Hypothesis Pbool : forall b, P (JBool b).
Hypothesis Pnum : forall n, P (JNum n).
Hypothesis Pstr : forall s, P (JStr s).
Hypothesis Parr : forall l, Forall P l -> P (JArr l).
Hypothesis Pobj : forall kvs : entries, Forall (fun e => P e.2) kvs -> P (JObj kvs).

Fixpoint jsval_ind' (v : jsval) : P v :=
  match v with
  | JUndef => Pundef | JNull => Pnull | JBool b => Pbool b | JNum n => Pnum n | JStr s => Pstr s
  | JArr l => Parr l ((fix go (l : list jsval) : Forall P l := match l with
                       | [] => Forall_nil_2 _
                       | x :: r => Forall_cons_2 _ _ _ (jsval_ind' x) (go r) end) l)
  | JObj kvs => Pobj kvs ((fix go (l : entries) : Forall (fun e => P e.2) l := match l with
                       | [] => Forall_nil_2 _
                       | x :: r => Forall_cons_2 _ _ _ (jsval_ind' x.2) (go r) end) kvs)
  end.
End jsval_induction.

Definition is_undef (v : jsval) : bool := match v with JUndef => true | _ => false end.

(** Every number inside is a printable number; every object has distinct keys. *)
Fixpoint val_wf (v : jsval) : Prop :=
  match v with
  | JNum n => jsnum_wf n
  | JArr l => foldr (fun x P => val_wf x /\ P) True l
  | JObj kvs => NoDup kvs.*1 /\ foldr (fun e P => val_wf e.2 /\ P) True kvs
  | _ => True
  end.

Lemma val_wf_arr l : val_wf (JArr l) <-> Forall val_wf l.
Proof. simpl. induction l; simpl; rewrite ?Forall_nil, ?Forall_cons; naive_solver. Qed.
Lemma val_wf_obj kvs : val_wf (JObj kvs) <-> NoDup kvs.*1 /\ Forall (fun e => val_wf e.2) kvs.
Proof. simpl. apply and_iff_compat_l. induction kvs; simpl; rewrite ?Forall_nil, ?Forall_cons; naive_solver. Qed.

(** ** Strings: the [QuoteJSONString] of ECMAScript *)

Definition is_high (u : N) : bool := (0xD800 <=? u) && (u <=? 0xDBFF).
Definition is_low (u : N) : bool := (0xDC00 <=? u) && (u <=? 0xDFFF).

Definition hex_digit (d : N) : N := if d <? 10 then 48 + d else 87 + d.
Definition hex_val (c : N) : N := if c <? 58 then c - 48 else c - 87.

(** [\uXXXX] in lower-case hexadecimal. *)
Definition u_escape (u : N) : jsstr :=
  [92; 117; hex_digit (u / 4096); hex_digit (u / 256 mod 16);
   hex_digit (u / 16 mod 16); hex_digit (u mod 16)].

Definition escape_unit (u : N) : jsstr :=
  if u =? 8 then [92; 98] else if u =? 9 then [92; 116] else if u =? 10 then [92; 110]
  else if u =? 12 then [92; 102] else if u =? 13 then [92; 114]
  else if u =? 34 then [92; 34] else if u =? 92 then [92; 92]
  else if u <? 32 then u_escape u else [u].

Fixpoint quote_units (s : jsstr) : jsstr :=
  match s with
  | [] => []
  | u :: r =>
    if is_high u then
      match r with
      | v :: r' => if is_low v then u :: v :: quote_units r' else u_escape u ++ quote_units r
      | [] => u_escape u
      end
    else if is_low u then u_escape u ++ quote_units r
    else escape_unit u ++ quote_units r
  end.

(** [JSON.stringify(s)] for a string. *)
Definition quote (s : jsstr) : jsstr := 34 :: quote_units s ++ [34].

(** ** JSON text *)

Fixpoint join (sep : jsstr) (l : list jsstr) : jsstr :=
  match l with [] => [] | [x] => x | x :: r => x ++ sep ++ join sep r end.

Definition brackets (body : jsstr) : jsstr := 91 :: body ++ [93].
Definition braces (body : jsstr) : jsstr := 123 :: body ++ [125].
Definition member (k text : jsstr) : jsstr := quote k ++ 58 :: text.

(** The text of a value whose objects are listed as they stand. *)
Fixpoint render (v : jsval) : jsstr :=
  match v with
  | JUndef | JNull => js "null"
  | JBool true => js "true"
  | JBool false => js "false"
  | JNum n => num_str n
  | JStr s => quote s
  | JArr l => brackets (join [44] (map render l))
  | JObj kvs => braces (join [44] (map (fun e => member e.1 (render e.2)) kvs))
  end.

(** What [JSON.stringify] keeps of a value: [undefined] is dropped from objects
    and reads as [null] in arrays. *)
Fixpoint clean (v : jsval) : jsval :=
  match v with
  | JUndef => JNull
  | JArr l => JArr (map clean l)
  | JObj kvs => JObj (flat_map (fun e => if is_undef e.2 then [] else [(e.1, clean e.2)]) kvs)
  | _ => v
  end.

(** [JSON.stringify(v)] for [v] not [undefined]. *)
Definition json_stringify (v : jsval) : jsstr := render (clean v).

(** ** Objects built by assignment *)

(** A key that is an array index: the canonical decimal of an integer below 2^32-1. *)
Definition array_index (k : jsstr) : option N :=
  let n := dec_val k in
  if bool_decide (dec_str n = k /\ n < 4294967295) then Some n else None.

Fixpoint insert_index (n : N) (e : jsstr * jsval) (l : list (N * (jsstr * jsval))) :=
  match l with
  | [] => [(n, e)]
  | (m, e') :: r => if m <? n then (m, e') :: insert_index n e r else (n, e) :: (m, e') :: r
  end.

(** The own properties of the object that [out[k] = v], executed for each of
    the (distinct) keys in turn, builds from [{}]: a [__proto__] assignment goes
    to the prototype setter and creates no property; array indices are listed
    first, in ascending order; the other keys follow in assignment order. *)
Definition obj_assign (kvs : entries) : entries :=
  let own := filter (fun e => e.1 <> js "__proto__") kvs in
  let idx := foldr (fun e acc => match array_index e.1 with
                                 | Some n => insert_index n e acc | None => acc end) [] own in
  (snd <$> idx) ++ filter (fun e => array_index e.1 = None) own.

(** ** Reading quoted strings back *)

(** The reader of a quoted string's body, up to and including the closing quote. *)
Fixpoint unquote (l : jsstr) : option (jsstr * jsstr) :=
  match l with
  | [] => None
  | 34 :: r => Some ([], r)
  | 92 :: 117 :: a :: b :: c :: d :: r =>
      prod_map (cons (hex_val a * 4096 + hex_val b * 256 + hex_val c * 16 + hex_val d)) id <$> unquote r
  | 92 :: c :: r =>
      prod_map (cons (if c =? 98 then 8 else if c =? 116 then 9 else if c =? 110 then 10
                      else if c =? 102 then 12 else if c =? 114 then 13 else c)) id <$> unquote r
  | u :: r => prod_map (cons u) id <$> unquote r
  end.

Lemma hex_val_digit d : d < 16 -> hex_val (hex_digit d) = d.
Proof. unfold hex_val, hex_digit. intros. repeat case_match; rewrite ?N.ltb_lt, ?N.ltb_ge in *; lia. Qed.

Lemma unquote_u u r : u < 65536 -> unquote (u_escape u ++ r) = prod_map (cons u) id <$> unquote r.
Proof.
  intros Hu. cbn -[N.mul N.add N.div N.modulo hex_digit hex_val].
  rewrite !hex_val_digit; try (apply N.mod_lt; lia); [|apply N.Div0.div_lt_upper_bound; lia].
  do 3 f_equal.
  pose proof (N.div_mod u 16 ltac:(lia)). pose proof (N.div_mod (u/16) 16 ltac:(lia)).
  pose proof (N.div_mod (u/256) 16 ltac:(lia)).
  rewrite !N.Div0.div_div in *. change (16 * 16) with 256 in *. change (256 * 16) with 4096 in *. lia.
Qed.

(** An ordinary unit passes through the reader. *)
Lemma unquote_plain u r : u <> 34 -> u <> 92 -> unquote (u :: r) = prod_map (cons u) id <$> unquote r.
Proof.
  intros H1 H2. destruct u as [|p]; [done|].
  do 8 (try (destruct p as [p|p|]; try done; try congruence)).
Qed.

Lemma unquote_escape u r : unquote (escape_unit u ++ r) = prod_map (cons u) id <$> unquote r.
Proof.
  unfold escape_unit.
  repeat match goal with |- context [N.eqb u ?c] => destruct (N.eqb_spec u c); [by subst|] end.
  destruct (N.ltb_spec u 32); [apply unquote_u; lia|]. by apply unquote_plain.
Qed.

Lemma is_high_lt u : is_high u = true -> u < 65536 /\ u <> 34 /\ u <> 92.
Proof. unfold is_high. rewrite andb_true_iff, !N.leb_le. lia. Qed.
Lemma is_low_lt u : is_low u = true -> u < 65536 /\ u <> 34 /\ u <> 92.
Proof. unfold is_low. rewrite andb_true_iff, !N.leb_le. lia. Qed.

Lemma quote_units_cons u r : quote_units (u :: r) =
  if is_high u then
    match r with
    | v :: r' => if is_low v then u :: v :: quote_units r' else u_escape u ++ quote_units r
    | [] => u_escape u
    end
  else if is_low u then u_escape u ++ quote_units r
  else escape_unit u ++ quote_units r.
Proof. done. Qed.

Lemma unquote_quote s r : unquote (quote_units s ++ 34 :: r) = Some (s, r).
Proof.
  induction s as [s IH] using (Wf_nat.induction_ltof1 _ (@length N)). unfold Wf_nat.ltof in IH.
  destruct s as [|u s]; [done|]. rewrite quote_units_cons.
  destruct (is_high u) eqn:Hh; [|destruct (is_low u) eqn:Hl].
  - destruct (is_high_lt _ Hh) as (? & ? & ?). destruct s as [|v s].
    + rewrite unquote_u by done. done.
    + destruct (is_low v) eqn:Hv.
      * destruct (is_low_lt _ Hv) as (? & ? & ?). rewrite <- !app_comm_cons, !unquote_plain by done.
        rewrite IH by (simpl; lia). done.
      * rewrite <- app_assoc, unquote_u, IH by (done || simpl; lia). done.
  - destruct (is_low_lt _ Hl) as (? & ? & ?).
    rewrite <- app_assoc, unquote_u, IH by (done || simpl; lia). done.
  - rewrite <- app_assoc, unquote_escape, IH by (simpl; lia). done.
Qed.

Lemma quote_prefix s t r1 r2 : quote s ++ r1 = quote t ++ r2 -> s = t /\ r1 = r2.
Proof.
  unfold quote. rewrite <- !app_comm_cons, <- !app_assoc. simpl. intros E. injection E as E.
  pose proof (unquote_quote s r1) as R. rewrite E, unquote_quote in R. by injection R as -> ->.
Qed.

(** ** The text determines the value *)

(** What may follow a value inside a larger text. *)
Definition delim (r : jsstr) : Prop :=
  match r with [] => True | c :: _ => c = 44 \/ c = 93 \/ c = 125 end.

(** No [undefined] inside. *)
Fixpoint defined (v : jsval) : Prop :=
  match v with
  | JUndef => False
  | JArr l => foldr (fun x P => defined x /\ P) True l
  | JObj kvs => foldr (fun e P => defined e.2 /\ P) True kvs
  | _ => True
  end.

Lemma defined_arr l : defined (JArr l) <-> Forall defined l.
Proof. simpl. induction l; simpl; rewrite ?Forall_nil, ?Forall_cons; naive_solver. Qed.
Lemma defined_obj kvs : defined (JObj kvs) <-> Forall (fun e => defined e.2) kvs.
Proof. simpl. induction kvs; simpl; rewrite ?Forall_nil, ?Forall_cons; naive_solver. Qed.

(** A list of items separated by commas and closed by [cl] reads back, when each
    item reads back in front of a delimiter and never starts like [cl]. *)
Section join_inj.
Context {A : Type} (enc : A -> jsstr) (ok : A -> Prop) (cl : N).
Hypothesis Hcl : cl = 93 \/ cl = 125.
Hypothesis Hhead : forall x, ok x -> exists c t, enc x = c :: t /\ c <> 93 /\ c <> 125.

Lemma join_cons_app x l r :
  join [44] (map enc (x :: l)) ++ cl :: r
  = enc x ++ match l with [] => cl :: r | _ => 44 :: join [44] (map enc l) ++ cl :: r end.
Proof. destruct l; simpl; [done|]. by rewrite <- !app_assoc. Qed.

Lemma join_inj l1 l2 r1 r2 :
  Forall (fun x => ok x /\ forall y s1 s2, ok y -> delim s1 -> delim s2 ->
            enc x ++ s1 = enc y ++ s2 -> x = y /\ s1 = s2) l1 ->
  Forall ok l2 ->
  join [44] (map enc l1) ++ cl :: r1 = join [44] (map enc l2) ++ cl :: r2 ->
  l1 = l2 /\ r1 = r2.
Proof.
  assert (Hc : forall x l r r', ok x ->
    cl :: r <> join [44] (map enc (x :: l)) ++ cl :: r').
  { intros x l r r' Hx E. rewrite join_cons_app in E.
    destruct (Hhead x Hx) as (c & t & Hct & ? & ?). rewrite Hct in E. injection E as E _.
    destruct Hcl; congruence. }
  intros H1. revert l2. induction H1 as [|x l1 [Hx Hinj] H1 IH]; intros l2 H2 E;
    destruct H2 as [|y l2 Hy H2].
  - by injection E as ->.
  - by destruct (Hc y l2 r1 r2 Hy).
  - by destruct (Hc x l1 r2 r1 Hx).
  - rewrite !join_cons_app in E.
    apply Hinj in E as [-> E']; try (destruct l1, l2; simpl; tauto); try done. rename E' into E.
    destruct l1 as [|x' l1], l2 as [|y' l2]; try (injection E as E; destruct Hcl; congruence); try (destruct Hcl; congruence).
    + by injection E as ->.
    + injection E as E. by destruct (IH (y' :: l2) H2 E) as [-> ->].
Qed.
End join_inj.

Lemma num_char_head n r : jsnum_wf n -> exists c t, num_str n ++ r = c :: t /\ num_char c.
Proof.
  intros Hn. pose proof (num_str_chars n Hn) as Hc. pose proof (num_str_nonempty n Hn).
  destruct (num_str n) as [|c t]; [done|]. inv Hc. eexists _, _. split; [reflexivity|done].
Qed.

Lemma num_prefix x y r1 r2 : jsnum_wf x -> jsnum_wf y -> delim r1 -> delim r2 ->
  num_str x ++ r1 = num_str y ++ r2 -> x = y /\ r1 = r2.
Proof.
  intros Hx Hy D1 D2 E.
  assert (H : forall (a b : jsstr) r1 r2, Forall num_char a -> Forall num_char b ->
    delim r1 -> delim r2 -> a ++ r1 = b ++ r2 -> a = b /\ r1 = r2).
  { clear. intros a b r1 r2 Ha. revert b. unfold num_char, is_digit.
    induction Ha as [|c a Hc Ha IH]; intros [|d b] Hb D1 D2 E; simpl in E; [done| | |].
    - inv Hb. subst; simpl in *; lia.
    - subst. simpl in D2. unfold num_char, is_digit in *. lia.
    - apply Forall_cons in Hb as [_ Hb]. injection E as -> E. by destruct (IH b Hb D1 D2 E) as [-> ->]. }
  apply H in E as [E ->]; [|by apply num_str_chars..|done|done]. by apply num_str_inj in E.
Qed.

Lemma render_head v : val_wf v -> exists c t, render v = c :: t /\ c <> 93 /\ c <> 125 /\
  match v with
  | JUndef | JNull => c = 110 | JBool true => c = 116 | JBool false => c = 102
  | JNum _ => num_char c | JStr _ => c = 34 | JArr _ => c = 91 | JObj _ => c = 123
  end.
Proof.
  destruct v as [| |[]|n| | |]; intros Hv; try (eexists _, _; split; [reflexivity|done]).
  destruct (num_char_head n [] Hv) as (c & t & E & Hc). rewrite app_nil_r in E.
  exists c, t. split_and!; [done|..|done]; unfold num_char, is_digit in Hc; lia.
Qed.

(** The first character tells the kind of value. *)
Definition kind (v : jsval) : nat :=
  match v with
  | JUndef | JNull => 0 | JBool true => 1 | JBool false => 2 | JNum _ => 3 | JStr _ => 4
  | JArr _ => 5 | JObj _ => 6
  end%nat.

Lemma render_kind v w r1 r2 : val_wf v -> val_wf w ->
  render v ++ r1 = render w ++ r2 -> kind v = kind w.
Proof.
  intros Hv Hw E. destruct (render_head v Hv) as (c & t & Ev & _ & _ & Hc).
  destruct (render_head w Hw) as (d & u & Ew & _ & _ & Hd). rewrite Ev, Ew in E.
  injection E as <- _. unfold num_char, is_digit in *.
  destruct v as [| |[]| | | |], w as [| |[]| | | |]; simpl; lia.
Qed.

Lemma member_prefix k k' v v' r1 r2 :
  member k v ++ r1 = member k' v' ++ r2 -> k = k' /\ v ++ r1 = v' ++ r2.
Proof.
  unfold member. rewrite <- !app_assoc. intros [-> E]%quote_prefix. by injection E as ->.
Qed.

(** One value in front of a delimiter reads back. *)
Lemma render_prefix v w r1 r2 : val_wf v -> val_wf w -> defined v -> defined w ->
  delim r1 -> delim r2 -> render v ++ r1 = render w ++ r2 -> v = w /\ r1 = r2.
Proof.
  revert w r1 r2. induction v as [| |b|n|s|l IH|kvs IH] using jsval_ind';
    intros w r1 r2 Hv Hw Dv Dw D1 D2 E; try done;
    pose proof (render_kind _ _ _ _ Hv Hw E) as K.
  - destruct w as [| |[]| | | |]; try done. simpl in E. by injection E as ->.
  - destruct b, w as [| |[]| | | |]; try done; simpl in E; by injection E as ->.
  - destruct w as [| |[]|m| | |]; try done. by apply num_prefix in E as [-> ->].
  - destruct w as [| |[]| |t| |]; try done. by apply quote_prefix in E as [-> ->].
  - destruct w as [| |[]| | |l'|]; try done. cbn [render] in E. unfold brackets in E.
    cbn [app] in E. injection E as E. rewrite <- !app_assoc in E. cbn [app] in E.
    rewrite val_wf_arr, defined_arr in *.
    apply (join_inj render (fun x => val_wf x /\ defined x) 93) in E as [-> ->]; [done|auto|..].
    + intros x [Hx _]. destruct (render_head x Hx) as (c & t & ? & ? & ? & _). eauto.
    + rewrite Forall_forall in *. intros x Hin. split; [auto|]. intros y s1 s2 [? ?]. eauto.
    + apply Forall_and. done.
  - destruct w as [| |[]| | | |kvs']; try done. cbn [render] in E. unfold braces in E.
    cbn [app] in E. injection E as E. rewrite <- !app_assoc in E. cbn [app] in E.
    rewrite val_wf_obj, defined_obj in *. destruct Hv as [_ Hv], Hw as [_ Hw].
    apply (join_inj (fun e => member e.1 (render e.2)) (fun e => val_wf e.2 /\ defined e.2) 125)
      in E as [-> ->]; [done|auto|..].
    + intros x _. eexists _, _. split; [reflexivity|done].
    + rewrite Forall_forall in *. intros [k x] Hin. split; [auto|].
      intros [k' y] s1 s2 [? ?] ? ? [Hk E']%member_prefix. simpl in *.
      destruct (IH _ Hin y s1 s2) as [Ex ->]; simpl in *; try done; [by apply (Hv _ Hin)|by apply (Dv _ Hin)|].
      by subst.
    + apply Forall_and. done.
Qed.

(** The JSON text of a value without [undefined] determines the value. *)
Lemma render_inj v w : val_wf v -> val_wf w -> defined v -> defined w -> render v = render w -> v = w.
Proof.
  intros Hv Hw Dv Dw E.
  eapply (render_prefix v w [] []); rewrite ?app_nil_r; done.
Qed.

Lemma clean_defined v : defined (clean v).
Proof.
  induction v as [| |b|n|s|l IH|kvs IH] using jsval_ind'; try done; cbn [clean].
  - apply defined_arr. by apply Forall_fmap.
  - apply defined_obj. induction IH as [|[k v] kvs Hv _ IH]; simpl; [done|].
    destruct (is_undef v); simpl; [done|]. by constructor.
Qed.

Lemma clean_keys kvs :
  (flat_map (fun e => if is_undef e.2 then [] else [(e.1, clean e.2)]) kvs).*1
  = (filter (fun e : jsstr * jsval => is_undef e.2 = false) kvs).*1.
Proof.
  induction kvs as [|[k v] kvs IH]; [done|]. rewrite filter_cons. simpl.
  destruct (is_undef v) eqn:E; case_decide; try done. csimpl. by rewrite IH.
Qed.

Lemma filter_NoDup_fst {A B} (P : A * B -> Prop) `{!forall x, Decision (P x)} (l : list (A * B)) :
  NoDup l.*1 -> NoDup (filter P l).*1.
Proof.
  induction l as [|x l IH]; intros Hnd; [constructor|]. csimpl in Hnd. inv Hnd.
  rewrite filter_cons. case_decide; [|by apply IH]. csimpl. constructor; [|by apply IH].
  rewrite list_elem_of_fmap. intros (y & Hy & [_ Hin]%list_elem_of_filter).
  match goal with H : _ ∉ _ |- _ => apply H end. rewrite Hy. by apply list_elem_of_fmap_2.
Qed.

Lemma Forall_mp {A} (P Q : A -> Prop) l : Forall (fun x => P x -> Q x) l -> Forall P l -> Forall Q l.
Proof. rewrite !Forall_forall. eauto. Qed.

Lemma clean_wf v : val_wf v -> val_wf (clean v).
Proof.
  induction v as [| |b|n|s|l IH|kvs IH] using jsval_ind'; try done; cbn [clean].
  - rewrite !val_wf_arr. intros Hl. apply Forall_fmap. by eapply Forall_mp.
  - rewrite !val_wf_obj. intros [Hnd Hkvs]. rewrite clean_keys.
    split; [by apply filter_NoDup_fst|]. clear Hnd.
    induction kvs as [|[k v] kvs IHk]; simpl; [done|].
    apply Forall_cons in IH as [? IH], Hkvs as [? Hkvs]. destruct (is_undef v); simpl; [by apply IHk|].
    constructor; [by auto|by apply IHk].
Qed.

(** [JSON.stringify] tells apart exactly what it keeps. *)
Lemma json_stringify_inj v w : val_wf v -> val_wf w ->
  json_stringify v = json_stringify w <-> clean v = clean w.
Proof.
  intros Hv Hw. unfold json_stringify. split; [|by intros ->].
  apply render_inj; by (apply clean_wf || apply clean_defined).
Qed.

(** ** The entries an object built by assignment has *)

Lemma insert_index_perm n e l : snd <$> insert_index n e l ≡ₚ e :: (snd <$> l).
Proof.
  induction l as [|[m e'] l IH]; csimpl; [done|]. case_match; csimpl; [|done].
  rewrite IH. apply Permutation_swap.
Qed.

Lemma obj_assign_perm kvs : obj_assign kvs ≡ₚ filter (fun e => e.1 <> js "__proto__") kvs.
Proof.
  unfold obj_assign. generalize (filter (fun e : jsstr * jsval => e.1 <> js "__proto__") kvs).
  intros l. induction l as [|e l IH]; [done|]. simpl. rewrite filter_cons.
  destruct (array_index e.1) eqn:E; case_decide; try done.
  - rewrite insert_index_perm. simpl. by rewrite IH.
  - by rewrite <- Permutation_middle, IH.
Qed.

Lemma array_index_inj k k' n : array_index k = Some n -> array_index k' = Some n -> k = k'.
Proof.
  unfold array_index. intros H H'. do 2 case_bool_decide; simplify_eq/=. naive_solver congruence.
Qed.

(** Property enumeration order: array indices first, by value; then the other
    keys, here compared as strings. *)
Definition prop_lt (e e' : jsstr * jsval) : Prop :=
  match array_index e.1, array_index e'.1 with
  | Some n, Some m => n < m
  | Some _, None => True
  | None, Some _ => False
  | None, None => str_ltb e.1 e'.1 = true
  end.

#[export] Instance prop_lt_strict : StrictOrder prop_lt.
Proof.
  split; unfold prop_lt.
  - intros e H. destruct (array_index e.1); [lia|]. by rewrite str_ltb_irrefl in H.
  - intros e1 e2 e3. destruct (array_index e1.1), (array_index e2.1), (array_index e3.1); try done; try lia.
    apply str_ltb_trans.
Qed.

Lemma prop_lt_keys e e' f f' : e.1 = f.1 -> e'.1 = f'.1 -> prop_lt e e' -> prop_lt f f'.
Proof. unfold prop_lt. by intros -> ->. Qed.

(** The array-index entries of an object under assignment, by ascending index. *)
Definition index_entries (own : entries) : list (N * (jsstr * jsval)) :=
  foldr (fun e acc => match array_index e.1 with
                      | Some n => insert_index n e acc | None => acc end) [] own.

Lemma insert_index_perm' n e l : insert_index n e l ≡ₚ (n, e) :: l.
Proof.
  induction l as [|[m e'] l IH]; csimpl; [done|]. case_match; [|done].
  rewrite IH. apply Permutation_swap.
Qed.

Lemma index_entries_elem own n e : (n, e) ∈ index_entries own -> array_index e.1 = Some n /\ e ∈ own.
Proof.
  induction own as [|e' own IH]; simpl; [set_solver|].
  destruct (array_index e'.1) eqn:E; [|set_solver]. rewrite insert_index_perm', elem_of_cons.
  intros [[= <- <-]|H]; [split; [done|set_solver]|]. destruct (IH H). set_solver.
Qed.

Lemma insert_index_sorted n e l : (forall e', (n, e') ∉ l) ->
  StronglySorted (fun x y => x.1 < y.1) l -> StronglySorted (fun x y => x.1 < y.1) (insert_index n e l).
Proof.
  induction l as [|[m e'] l IH]; intros Hn Hs; simpl; [repeat constructor|].
  pose proof Hs as [Hs' Hx]%StronglySorted_inv. case_match eqn:Hmn; b2p.
  - constructor; [apply IH; [set_solver|done]|]. rewrite insert_index_perm'.
    constructor; [simpl; lia|done].
  - assert (n <> m) by (intros ->; apply (Hn e'); left).
    constructor; [done|]. constructor; [simpl; lia|].
    eapply Forall_impl; [exact Hx|]. intros [] ?. simpl in *. lia.
Qed.

Lemma index_entries_sorted own : NoDup own.*1 ->
  StronglySorted (fun x y => x.1 < y.1) (index_entries own).
Proof.
  induction own as [|e own IH]; csimpl; intros Hnd; [constructor|].
  apply NoDup_cons in Hnd as [Hk Hnd]. destruct (array_index e.1) as [n|] eqn:E; [|by apply IH].
  apply insert_index_sorted; [|by apply IH]. intros e' [E' Hin]%index_entries_elem.
  apply Hk. rewrite (array_index_inj _ _ _ E E'). by apply list_elem_of_fmap_2.
Qed.

(** Assigning keys in sorted order builds an object in enumeration order. *)
Lemma obj_assign_sorted kvs : NoDup kvs.*1 -> StronglySorted key_lt kvs ->
  StronglySorted prop_lt (obj_assign kvs).
Proof.
  intros Hnd Hs. unfold obj_assign. fold (index_entries (filter (fun e => e.1 <> js "__proto__") kvs)).
  apply StronglySorted_app_2.
  - intros x y ([n e] & -> & [Hi _]%index_entries_elem)%list_elem_of_fmap [Hy _]%list_elem_of_filter.
    unfold prop_lt. simpl. by rewrite Hi, Hy.
  - eapply (StronglySorted_fmap snd (fun x y => x.1 < y.1 /\ array_index x.2.1 = Some x.1 /\ array_index y.2.1 = Some y.1)).
    { intros x y (Hlt & Hx & Hy). unfold prop_lt. by rewrite Hx, Hy. }
    eapply StronglySorted_impl; [|apply index_entries_sorted; by apply filter_NoDup_fst].
    intros [n x] [m y] Hx%index_entries_elem Hy%index_entries_elem Hlt. naive_solver.
  - eapply StronglySorted_impl; [|by do 2 apply StronglySorted_filter].
    intros x y [Hx _]%list_elem_of_filter [Hy _]%list_elem_of_filter Hlt. unfold prop_lt. by rewrite Hx, Hy.
Qed.
