(* ===== verification/Prog.v ===== *)
(** * Prog: programs of commands, and what they keep safe

    A request handler that awaits is a program of commands: between two of
    them, other handlers run and the world changes.  A [Protocol] says, of a
    growing history of the world, what a command needs when it is issued and
    what its answer tells; [safe] is a program all of whose commands are issued
    with what they need, whatever happens in between, and whose answer has a
    property.  Components instantiate both ([Sessions], [Outbox]).  A pool runs any
    number of programs over one world, and keeps what each did
    ([SecondFactor]). *)

From S2P Require Import Prelude.

(** ** Programs *)

Inductive prog (C : Set -> Type) (A : Type) : Type :=
| Ret (a : A)
| Op {X : Set} (c : C X) (k : X -> prog C A).
Arguments Ret {C A} _.
Arguments Op {C A X} _ _.

Fixpoint pbind {C : Set -> Type} {A B} (p : prog C A) (f : A -> prog C B) : prog C B :=
  match p with Ret a => f a | Op c k => Op c (fun x => pbind (k x) f) end.

Notation "x '<~' c ';' k" := (Op c (fun x => k)) (at level 100, c at level 99, k at level 200, right associativity) : droplet_scope.

(** A command that may throw, which is the answer [None]: [catch] is what its
    failure jumps to. *)
Definition try_op {C : Set -> Type} {A : Type} {X : Set} (c : C (option X)) (catch : prog C A) (k : X -> prog C A) : prog C A :=
  Op c (fun r => match r with Some x => k x | None => catch end).

(** A program that may throw: the answer [None]. *)
Definition awaiting {C : Set -> Type} {A : Type} {X : Set} (c : C (option X)) (k : X -> prog C (option A)) : prog C (option A) := try_op c (Ret None) k.
Definition then_ {C : Set -> Type} {A B : Type} (p : prog C (option A)) (k : A -> prog C (option B)) : prog C (option B) :=
  pbind p (fun o => match o with Some a => k a | None => Ret None end).

(** How the scheduler lets a command fail: before it took effect, or after. *)
Inductive Fault := Works | LostRequest | LostReply.

Definition faulty {W : Type} {X : Set} (f : Fault) (w w' : W) (x : X) : W * option X :=
  match f with Works => (w', Some x) | LostRequest => (w, None) | LostReply => (w', None) end.

(** ** Protocols *)

Class Protocol (C : Set -> Type) := {
  history : Type;
  hist_le : relation history;
  hist_le_preorder :: PreOrder hist_le;
  needs : forall {X : Set}, history -> C X -> Prop;
  tells : forall {X : Set}, history -> C X -> X -> Prop;
  needs_mono : forall {X : Set} h h' (c : C X), hist_le h h' -> needs h c -> needs h' c
}.

Section safe.
Context {C : Set -> Type} `{!Protocol C}.

Fixpoint safe {A} (Q : history -> A -> Prop) (h : history) (p : prog C A) : Prop :=
  match p with
  | Ret a => Q h a
  | Op c k => needs h c /\ forall h' x, hist_le h h' -> tells h' c x -> safe Q h' (k x)
  end.

Definition stable {A} (Q : history -> A -> Prop) : Prop := forall h h' a, hist_le h h' -> Q h a -> Q h' a.

Lemma safe_mono {A} (Q : history -> A -> Prop) h h' p : stable Q -> hist_le h h' -> safe Q h p -> safe Q h' p.
Proof.
  intros HQ Hle. destruct p as [a|X c k]; cbn; [by apply HQ|].
  intros [Hn Hk]. split; [by eapply needs_mono|]. intros h2 x Hle2. apply Hk. by etrans.
Qed.

Lemma safe_bind {A B} (Q : history -> A -> Prop) (R : history -> B -> Prop) p f h :
  safe Q h p -> (forall h' a, hist_le h h' -> Q h' a -> safe R h' (f a)) -> safe R h (pbind p f).
Proof.
  revert h. induction p as [a|X c k IH]; cbn; intros h Hp Hf; [by apply Hf|].
  destruct Hp as [Hn Hk]. split; [done|]. intros h' x Hle Ht. apply IH; [by apply Hk|].
  intros h2 a Hle2. apply Hf. by etrans.
Qed.

Lemma safe_op {A} {X : Set} (Q : history -> A -> Prop) h (c : C X) k :
  needs h c -> (forall h' x, hist_le h h' -> tells h' c x -> safe Q h' (k x)) -> safe Q h (Op c k).
Proof. by split. Qed.

Lemma safe_try {A} {X : Set} (Q : history -> A -> Prop) h (c : C (option X)) catch k :
  needs h c -> (forall h', hist_le h h' -> safe Q h' catch) ->
  (forall h' x, hist_le h h' -> tells h' c (Some x) -> safe Q h' (k x)) -> safe Q h (try_op c catch k).
Proof. intros Hn Hc Hk. split; [done|]. intros h' [x|] Hle Ht; [by apply Hk | by apply Hc]. Qed.
End safe.

(** ** Runs

    What a program does when its commands are answered: the commands in order,
    with their answers. *)

Inductive event (C : Set -> Type) : Type :=
| Ev {X : Set} (c : C X) (x : X).
Arguments Ev {C X} _ _.

Fixpoint runs {C : Set -> Type} {A : Type} (p : prog C A) (tr : list (event C)) (a : A) : Prop :=
  match p with
  | Ret b => tr = [] /\ a = b
  | @Op _ _ X c k => exists (x : X) tr', tr = Ev c x :: tr' /\ runs (k x) tr' a
  end.

Lemma runs_bind {C : Set -> Type} {A B} (p : prog C A) (f : A -> prog C B) tr b :
  runs (pbind p f) tr b <-> exists tr1 tr2 a, tr = tr1 ++ tr2 /\ runs p tr1 a /\ runs (f a) tr2 b.
Proof.
  revert tr. induction p as [a|X c k IH]; intros tr; cbn.
  - split; [intros Hr; by exists [], tr, a|]. by intros (? & ? & ? & -> & [-> ->] & ?).
  - split.
    + intros (x & tr' & -> & Hr). apply IH in Hr as (tr1 & tr2 & a & -> & H1 & H2).
      exists (Ev c x :: tr1), tr2, a. split; [done|]. split; [by exists x, tr1|done].
    + intros (tr1 & tr2 & a & -> & (x & tr' & -> & H1) & H2). exists x, (tr' ++ tr2). split; [done|]. apply IH. by exists tr', tr2, a.
Qed.

(** What [h] must have had for the command of an event. *)
Definition ev_needs {C : Set -> Type} `{!Protocol C} (h : history) (e : event C) : Prop :=
  match e with Ev c _ => needs h c end.

(** A safe program, run alone: each command is issued with what it needs of the
    commands before it. *)
Lemma safe_runs {C : Set -> Type} `{!Protocol C} {A} (obs : list (event C) -> history) (Q : history -> A -> Prop) :
  (forall tr (X : Set) (c : C X) x, hist_le (obs tr) (obs (tr ++ [Ev c x])) /\ tells (obs (tr ++ [Ev c x])) c x) ->
  forall p tr a, runs p tr a -> forall past, safe Q (obs past) p ->
    (forall pre e post, tr = pre ++ e :: post -> ev_needs (obs (past ++ pre)) e) /\ Q (obs (past ++ tr)) a.
Proof.
  intros Hobs p. induction p as [b|X c k IH]; intros tr a Hr past Hs.
  - destruct Hr as [-> ->]. rewrite app_nil_r. split; [|done]. intros pre e post Hx. by destruct pre.
  - destruct Hr as (x & tr' & -> & Hr), Hs as [Hn Hk]. destruct (Hobs past X c x) as [Hle Ht].
    destruct (IH _ _ _ Hr _ (Hk _ _ Hle Ht)) as [Hpre HQ]. rewrite <- app_assoc in HQ. split; [|done]. intros [|e pre] e' post Hx.
    + injection Hx as <- _. by rewrite app_nil_r.
    + injection Hx as <- Hx. specialize (Hpre pre e' post Hx). by rewrite <- app_assoc in Hpre.
Qed.

(** The program of a component as a part of a larger one. *)
Fixpoint plift {C D : Set -> Type} (f : forall X : Set, C X -> D X) {A} (p : prog C A) : prog D A :=
  match p with Ret a => Ret a | Op c k => Op (f _ c) (fun x => plift f (k x)) end.

(** The same, each command run as a program of the larger component. *)
Fixpoint pinterp {C D : Set -> Type} (f : forall X : Set, C X -> prog D X) {A} (p : prog C A) : prog D A :=
  match p with Ret a => Ret a | Op c k => pbind (f _ c) (fun x => pinterp f (k x)) end.

(** ** A pool of programs

    Any number of requests, each a program, interleaved command by command over
    a shared world; a request may stop for good at any point.  [log] is what was
    done by whom, newest first. *)

(** [leads p tr q]: [p] has done [tr] and [q] is left. *)
Fixpoint leads {C : Set -> Type} {A : Type} (p : prog C A) (tr : list (event C)) (q : prog C A) : Prop :=
  (tr = [] /\ q = p) \/
  match p with
  | Ret _ => False
  | @Op _ _ X c k => exists (x : X) tr', tr = Ev c x :: tr' /\ leads (k x) tr' q
  end.

Lemma leads_refl {C : Set -> Type} {A} (p : prog C A) : leads p [] p.
Proof. destruct p; by left. Qed.

Lemma leads_step {C : Set -> Type} {A} (p : prog C A) tr {X : Set} (c : C X) k x :
  leads p tr (Op c k) -> leads p (tr ++ [Ev c x]) (k x).
Proof.
  revert tr. induction p as [a|Y d l IH]; intros tr [[-> Hq]|H]; [discriminate Hq|done| |].
  - rewrite <- Hq. right. exists x, []. split; [done|]. apply leads_refl.
  - destruct H as (y & tr' & -> & Hl). right. exists y, (tr' ++ [Ev c x]). split; [done|]. by apply IH.
Qed.

Lemma leads_ret {C : Set -> Type} {A} (p : prog C A) tr a : leads p tr (Ret a) -> runs p tr a.
Proof.
  revert tr. induction p as [b|Y d l IH]; intros tr; cbn; intros [[-> Hq]|H]; [by injection Hq as <-|done|discriminate Hq|].
  destruct H as (y & tr' & -> & Hl). exists y, tr'. split; [done|]. by apply IH.
Qed.

Lemma safe_leads {C : Set -> Type} `{!Protocol C} {A} (obs : list (event C) -> history) (Q : history -> A -> Prop) :
  (forall tr (X : Set) (c : C X) x, hist_le (obs tr) (obs (tr ++ [Ev c x])) /\ tells (obs (tr ++ [Ev c x])) c x) ->
  forall p tr q, leads p tr q -> forall past, safe Q (obs past) p -> safe Q (obs (past ++ tr)) q.
Proof.
  intros Hobs p. induction p as [b|X c k IH]; intros tr q [[-> ->]|Hl] past Hs; [by rewrite app_nil_r|done|by rewrite app_nil_r|].
  destruct Hl as (x & tr' & -> & Hl), Hs as [_ Hk]. destruct (Hobs past X c x) as [Hle Ht].
  specialize (IH x tr' q Hl (past ++ [Ev c x]) (Hk _ _ Hle Ht)). by rewrite <- app_assoc in IH.
Qed.

(** The protocol whose history is what the program itself did. *)
Definition trace_protocol {C : Set -> Type} (N : forall X : Set, list (event C) -> C X -> Prop)
    (HN : forall (X : Set) h h' (c : C X), h ⊆ h' -> N X h c -> N X h' c) : Protocol C :=
  {| history := list (event C); hist_le := subseteq; hist_le_preorder := _; needs := N; tells := fun X h c x => Ev c x ∈ h; needs_mono := HN |}.

Lemma trace_obs {C : Set -> Type} N HN tr (X : Set) (c : C X) x :
  @hist_le C (trace_protocol N HN) tr (tr ++ [Ev c x]) /\ @tells C (trace_protocol N HN) X (tr ++ [Ev c x]) c x.
Proof. split; [apply list_subseteq_app_l; done|]. cbn. apply elem_of_app. right. by left. Qed.

Section pool.
Context {C : Set -> Type} {A R I W : Type}.
Context (start : R -> prog C A) (exec : forall X : Set, I -> C X -> W -> option (W * X)).

Record Pool := mkPool {
  pl_world : W; pl_next : nat; pl_running : gmap nat (R * prog C A); pl_done : gmap nat (R * A); pl_log : list (nat * event C)
}.

Inductive PoolMove := P_Start (r : R) | P_Step (i : nat) (inp : I) | P_Die (i : nat).

Definition pool_move (mv : PoolMove) (m : Pool) : option Pool :=
  match mv with
  | P_Start r => Some (mkPool (pl_world m) (S (pl_next m)) (<[pl_next m := (r, start r)]> (pl_running m)) (pl_done m) (pl_log m))
  | P_Die i => Some (mkPool (pl_world m) (pl_next m) (delete i (pl_running m)) (pl_done m) (pl_log m))
  | P_Step i inp =>
      match pl_running m !! i with
      | None => None
      | Some (r, Ret a) => Some (mkPool (pl_world m) (pl_next m) (delete i (pl_running m)) (<[i := (r, a)]> (pl_done m)) (pl_log m))
      | Some (r, Op c k) =>
          match exec _ inp c (pl_world m) with
          | None => None
          | Some (w, x) => Some (mkPool w (pl_next m) (<[i := (r, k x)]> (pl_running m)) (pl_done m) ((i, Ev c x) :: pl_log m))
          end
      end
  end.

Fixpoint pool_moves (mvs : list PoolMove) (m : Pool) : option Pool :=
  match mvs with [] => Some m | mv :: r => match pool_move mv m with Some m' => pool_moves r m' | None => None end end.

Definition pool_of (w : W) : Pool := mkPool w 0 ∅ ∅ [].

(** What request [i] did, oldest first. *)
Definition trace_of (i : nat) (log : list (nat * event C)) : list (event C) :=
  rev (omap (fun e => if decide (e.1 = i) then Some e.2 else None) log).

#[local] Arguments trace_of : simpl never.

Lemma trace_of_same i e log : trace_of i ((i, e) :: log) = trace_of i log ++ [e].
Proof. unfold trace_of. cbn. by rewrite decide_True. Qed.

Lemma trace_of_other i j e log : i <> j -> trace_of i ((j, e) :: log) = trace_of i log.
Proof. intros Hne. unfold trace_of. cbn. by rewrite decide_False. Qed.

Lemma trace_of_app i l1 l2 : trace_of i (l1 ++ l2) = trace_of i l2 ++ trace_of i l1.
Proof. unfold trace_of. by rewrite omap_app, rev_app_distr. Qed.

(** Where a deed of a request is in the log. *)
Lemma trace_of_split i log pre e post : trace_of i log = pre ++ e :: post ->
  exists later earlier, log = later ++ (i, e) :: earlier /\ trace_of i earlier = pre /\ trace_of i later = post.
Proof.
  revert post. induction log as [|[j e'] log IH]; intros post; [by destruct pre|]. destruct (decide (j = i)) as [->|Hne].
  - rewrite trace_of_same. destruct post as [|e2 post _] using rev_ind.
    + intros [<- [= ->]]%app_inj_tail. by exists [], log.
    + rewrite app_comm_cons, app_assoc. intros [(l & l0 & -> & <- & Hl)%IH ->]%app_inj_tail.
      exists ((i, e2) :: l), l0. split; [done|]. split; [done|]. by rewrite trace_of_same, Hl.
  - rewrite trace_of_other by done. intros (l & l0 & -> & <- & <-)%IH. exists ((j, e') :: l), l0. by rewrite trace_of_other.
Qed.

Lemma trace_of_elem i e log : e ∈ trace_of i log <-> (i, e) ∈ log.
Proof.
  unfold trace_of. rewrite list_elem_of_In, <- in_rev, <- list_elem_of_In, list_elem_of_omap. split.
  - intros ([j e'] & Hin & He). cbn in He. destruct (decide (j = i)) as [->|]; [|done]. by injection He as ->.
  - intros Hin. exists (i, e). split; [done|]. cbn. by rewrite decide_True.
Qed.

Record pool_ok (m : Pool) : Prop := {
  po_old : forall i, (pl_next m <= i)%nat -> pl_running m !! i = None /\ pl_done m !! i = None /\ trace_of i (pl_log m) = [];
  po_running : forall i r p, pl_running m !! i = Some (r, p) -> pl_done m !! i = None /\ leads (start r) (trace_of i (pl_log m)) p;
  po_done : forall i r a, pl_done m !! i = Some (r, a) -> pl_running m !! i = None /\ runs (start r) (trace_of i (pl_log m)) a
}.

Lemma pool_of_ok w : pool_ok (pool_of w).
Proof. by split. Qed.

Lemma pool_start_ok r m : pool_ok m ->
  pool_ok (mkPool (pl_world m) (S (pl_next m)) (<[pl_next m := (r, start r)]> (pl_running m)) (pl_done m) (pl_log m)).
Proof.
  intros [Ho Hr Hd]. destruct (Ho (pl_next m) ltac:(lia)) as (Hn & Hdn & Ht). split; cbn.
  - intros i Hi. destruct (Ho i ltac:(lia)) as (? & ? & ?). rewrite lookup_insert_ne by lia. done.
  - intros i r' p [[<- [= <- <-]]|[_ Hi]]%lookup_insert_Some; [|by eapply Hr]. split; [done|]. rewrite Ht. apply leads_refl.
  - intros i r' a Hi. destruct (Hd _ _ _ Hi). rewrite lookup_insert_ne; [done|]. intros <-. congruence.
Qed.

Lemma pool_die_ok i m : pool_ok m -> pool_ok (mkPool (pl_world m) (pl_next m) (delete i (pl_running m)) (pl_done m) (pl_log m)).
Proof.
  intros [Ho Hr Hd]. split; cbn.
  - intros j Hj. destruct (Ho j Hj) as (? & ? & ?). split; [by apply lookup_delete_None; right|done].
  - intros j r p [_ Hj]%lookup_delete_Some. by eapply Hr.
  - intros j r a Hj. destruct (Hd _ _ _ Hj). split; [by apply lookup_delete_None; right|done].
Qed.

Lemma pool_ret_ok i r a m : pool_ok m -> pl_running m !! i = Some (r, Ret a) ->
  pool_ok (mkPool (pl_world m) (pl_next m) (delete i (pl_running m)) (<[i := (r, a)]> (pl_done m)) (pl_log m)).
Proof.
  intros [Ho Hr Hd] Hi. destruct (Hr _ _ _ Hi) as [Hdi Hl]. split; cbn.
  - intros j Hj. destruct (Ho j Hj) as (? & ? & ?). assert (i <> j) by congruence.
    rewrite lookup_insert_ne by done. split; [by apply lookup_delete_None; right|done].
  - intros j r' p [Hne Hj]%lookup_delete_Some. rewrite lookup_insert_ne by done. by eapply Hr.
  - intros j r' b [[<- [= <- <-]]|[Hne Hj]]%lookup_insert_Some.
    + split; [by apply lookup_delete_None; left|by apply leads_ret].
    + destruct (Hd _ _ _ Hj). split; [by apply lookup_delete_None; right|done].
Qed.

Lemma pool_op_ok i r {X : Set} (c : C X) k x w m : pool_ok m -> pl_running m !! i = Some (r, Op c k) ->
  pool_ok (mkPool w (pl_next m) (<[i := (r, k x)]> (pl_running m)) (pl_done m) ((i, Ev c x) :: pl_log m)).
Proof.
  intros [Ho Hr Hd] Hi. destruct (Hr _ _ _ Hi) as [Hdi Hl]. split; cbn.
  - intros j Hj. destruct (Ho j Hj) as (? & ? & ?). assert (j <> i) by congruence.
    by rewrite lookup_insert_ne, trace_of_other.
  - intros j r' p [[<- [= <- <-]]|[Hne Hj]]%lookup_insert_Some.
    + split; [done|]. rewrite trace_of_same. by apply leads_step.
    + rewrite trace_of_other by done. by eapply Hr.
  - intros j r' b Hj. destruct (Hd _ _ _ Hj). assert (j <> i) by congruence. by rewrite lookup_insert_ne, trace_of_other.
Qed.

Lemma pool_move_ok mv m m' : pool_move mv m = Some m' -> pool_ok m -> pool_ok m'.
Proof.
  intros Hm Hok. destruct mv as [r|i inp|i]; cbn in Hm.
  - injection Hm as <-. by apply pool_start_ok.
  - destruct (pl_running m !! i) as [[r [a|X c k]]|] eqn:Ei; [|destruct (exec _ _ _ _) as [[w x]|]; [|done]|done]; injection Hm as <-.
    + by apply pool_ret_ok.
    + by eapply pool_op_ok.
  - injection Hm as <-. by apply pool_die_ok.
Qed.

(** A relation between the world and the log that every command keeps, when it
    is issued with what it needs of its own request's past. *)
Lemma pool_moves_keep (N : forall X : Set, list (event C) -> C X -> Prop) (J : W -> list (nat * event C) -> Prop) :
  (forall r tr (X : Set) (c : C X) k, leads (start r) tr (Op c k) -> N X tr c) ->
  (forall (X : Set) i inp (c : C X) w w' x log, exec _ inp c w = Some (w', x) -> N X (trace_of i log) c -> J w log -> J w' ((i, Ev c x) :: log)) ->
  forall mvs m m', pool_moves mvs m = Some m' -> pool_ok m -> J (pl_world m) (pl_log m) ->
    pool_ok m' /\ J (pl_world m') (pl_log m').
Proof.
  intros HN HJ mvs. induction mvs as [|mv mvs IH]; intros m m'; cbn; [by intros [= <-]|].
  destruct (pool_move mv m) as [m1|] eqn:E; [|done]. intros Hr Hok Hj. apply (IH m1 m'); [done|by eapply pool_move_ok|].
  destruct mv as [r|i inp|i]; cbn in E; [by injection E as <-| |by injection E as <-].
  destruct (pl_running m !! i) as [[r [a|X c k]]|] eqn:Ei; [|destruct (exec _ _ _ _) as [[w x]|] eqn:Ex; [|done]|done]; injection E as <-; [done|].
  eapply HJ; [exact Ex| |done]. eapply HN, (po_running m); [done|exact Ei].
Qed.

Lemma pool_moves_app mvs1 mvs2 m : pool_moves (mvs1 ++ mvs2) m = match pool_moves mvs1 m with Some m1 => pool_moves mvs2 m1 | None => None end.
Proof. revert m. induction mvs1 as [|mv mvs IH]; intros m; [done|]. cbn. destruct (pool_move mv m); [apply IH|done]. Qed.

Lemma pool_moves_log mvs : forall m m', pool_moves mvs m = Some m' -> exists l, pl_log m' = l ++ pl_log m.
Proof.
  induction mvs as [|mv mvs IH]; intros m m'; cbn; [intros [= <-]; by exists []|]. destruct (pool_move mv m) as [m1|] eqn:E; [|done].
  intros (l & ->)%IH. assert (exists l1, pl_log m1 = l1 ++ pl_log m) as (l1 & ->); [|exists (l ++ l1); by rewrite app_assoc].
  destruct mv as [r|i inp|i]; cbn in E; [injection E as <-; by exists []| |injection E as <-; by exists []].
  destruct (pl_running m !! i) as [[r [a|X c k]]|]; [|destruct (exec _ _ _ _) as [[w x]|]; [|done]|done]; injection E as <-; [by exists []|by exists [(i, Ev c x)]].
Qed.
End pool.
Arguments Pool : clear implicits.
Arguments PoolMove : clear implicits.

(** ** Order within a program

    [safe] asks of a command what stays true once true.  [abides] asks anything of
    the commands before it, in their order; the answers are those [answer]
    allows. *)
Section abides.
Context {C : Set -> Type} (answer : forall X : Set, C X -> X -> Prop) (N : forall X : Set, list (event C) -> C X -> Prop).

Fixpoint abides {A : Type} (Q : list (event C) -> A -> Prop) (h : list (event C)) (p : prog C A) : Prop :=
  match p with
  | Ret a => Q h a
  | @Op _ _ X c k => N X h c /\ forall x, answer X c x -> abides Q (h ++ [Ev c x]) (k x)
  end.

Lemma abides_bind {A B} (Q : list (event C) -> A -> Prop) (R : list (event C) -> B -> Prop) p f h :
  abides Q h p -> (forall h' a, Q h' a -> abides R h' (f a)) -> abides R h (pbind p f).
Proof. revert h. induction p as [a|X c k IH]; intros h; cbn; [auto|]. intros [Hn Hk] Hf. split; [done|]. intros x Hx. apply IH; [by apply Hk|done]. Qed.

Lemma abides_weaken {A} (Q R : list (event C) -> A -> Prop) p h : abides Q h p -> (forall h' a, Q h' a -> R h' a) -> abides R h p.
Proof. revert h. induction p as [a|X c k IH]; intros h; cbn; [auto|]. intros [Hn Hk] Hf. split; [done|]. intros x Hx. apply IH; [by apply Hk|done]. Qed.

Lemma abides_leads {A} (Q : list (event C) -> A -> Prop) p tr q past :
  leads p tr q -> Forall (fun e => match e with Ev c x => answer _ c x end) tr -> abides Q past p -> abides Q (past ++ tr) q.
Proof.
  revert tr past. induction p as [b|X c k IH]; intros tr past [[-> ->]|Hl] Ha Hp; [by rewrite app_nil_r|done|by rewrite app_nil_r|].
  destruct Hl as (x & tr' & -> & Hl), Hp as [_ Hk]. apply Forall_cons in Ha as [Hx Ha].
  specialize (IH x tr' (past ++ [Ev c x]) Hl Ha (Hk x Hx)). by rewrite <- app_assoc in IH.
Qed.
End abides.
