(* ===== verification/ConfirmToken.v ===== *)
(** * The confirmation token (packages/tools-core/src/confirmation-token.ts)

    Canonical text of tool arguments, the hash that binds a token to one tool
    and one set of arguments, and the in-memory store that mints, spends and
    evicts tokens.  [sha256] (node:crypto, hexadecimal digest of the UTF-8 bytes
    of a string) is a parameter; no theorem assumes it injective: where the
    argument needs it, the conclusion offers the collision. *)

From S2P Require Import Prelude JsNum Json.

Set Default Proof Using "Type".

Open Scope Z_scope.

(** ** Constants *)

Definition DEFAULT_CONFIRMATION_TTL_MS : Z := 5 * 60000.
Definition DEFAULT_MAX_PENDING_CONFIRMATIONS : Z := 1000.
Definition CONFIRMATION_CONTROL_KEYS : list jsstr := [js "confirmed"].

(** ** Canonical arguments *)

(** The copy [out[k] = v] of every entry whose key is not a control key. *)
Definition stripControlKeys (args : entries) : entries :=
  obj_assign (filter (fun e => e.1 ∉ CONFIRMATION_CONTROL_KEYS) args).

(** An object prints its entries sorted by key, [undefined] ones left out; the
    text of each member is computed beside its value so that the recursion is on
    the object itself. *)
Fixpoint stableStringify (value : jsval) : jsstr :=
  match value with
  | JNull => js "null"
  | JArr l => brackets (join [44%N] (map stableStringify l))
  | JObj kvs =>
      let texts := map (fun e => (e.1, (is_undef e.2, stableStringify e.2))) kvs in
      let sorted := sort_entries (List.filter (fun e => negb e.2.1) texts) in
      braces (join [44%N] (map (fun e => member e.1 e.2.2) sorted))
  | JUndef => js "null"  (* JSON.stringify(undefined) is undefined: the [?? "null"] *)
  | _ => json_stringify value
  end.

Definition canonicalizeToolArgs (args : entries) : jsstr :=
  stableStringify (JObj (stripControlKeys args)).

(** ** The store *)

Record PendingConfirmation := mkPending {
  toolName : jsstr;
  bindingHash : jsstr;
  mintedAt : Z;
  expiresAt : Z;
  usedAt : option Z
}.

(** A [Map], oldest entry first. *)
Abbreviation Store := (list (jsstr * PendingConfirmation)).

Inductive ConfirmationRedeemFailure :=
  unknown_token | already_used | expired | wrong_tool | arguments_mismatch.

#[export] Instance redeem_failure_eq_dec : EqDecision ConfirmationRedeemFailure.
Proof. solve_decision. Defined.

(** [Map.prototype.set]: in place when the key is there, at the end otherwise. *)
Fixpoint map_set {A} (k : jsstr) (v : A) (m : list (jsstr * A)) : list (jsstr * A) :=
  match m with
  | [] => [(k, v)]
  | (k', v') :: r => if decide (k = k') then (k', v) :: r else (k', v') :: map_set k v r
  end.

(** [sweep]: the surviving map and the number of entries dropped. *)
Definition sweep (now : Z) (pending : Store) : Store * nat :=
  let kept := List.filter (fun e => negb (expiresAt e.2 <=? now)) pending in
  (kept, (length pending - length kept)%nat).

(** [while (pending.size >= maxEntries) delete oldest], leaving when empty. *)
Fixpoint evict (maxEntries : Z) (pending : Store) : Store :=
  match pending with
  | [] => []
  | _ :: r => if maxEntries <=? Z.of_nat (length pending) then evict maxEntries r else pending
  end.

Section store.
Variable sha256 : jsstr -> jsstr.
Variable ttlMs : Z.
Variable maxEntries : Z.

(** The text the hash covers: the tool name, length-prefixed, and the arguments. *)
Definition binding_text (tool : jsstr) (args : entries) : jsstr :=
  dec_str (N.of_nat (length tool)) ++ 58%N :: tool ++ 58%N :: canonicalizeToolArgs args.

Definition confirmationBindingHash (tool : jsstr) (args : entries) : jsstr :=
  sha256 (binding_text tool args).

(** [token] is the [randomBytes(32)] draw. *)
Definition mint (tool : jsstr) (args : entries) (now : Z) (token : jsstr) (pending : Store)
  : Store * (jsstr * Z) :=
  let swept := (sweep now pending).1 in
  let room := evict maxEntries swept in
  let exp := now + ttlMs in
  (map_set token (mkPending tool (confirmationBindingHash tool args) now exp None) room,
   (token, exp)).

Definition redeem (token tool : jsstr) (args : entries) (now : Z) (pending : Store)
  : Store * (Z + ConfirmationRedeemFailure) :=
  match alookup token pending with
  | None => (pending, inr unknown_token)
  | Some entry =>
    match usedAt entry with
    | Some _ => (pending, inr already_used)
    | None =>
      if expiresAt entry <=? now then (pending, inr expired)
      else if bool_decide (bindingHash entry <> confirmationBindingHash tool args) then
        (pending, inr (if bool_decide (toolName entry <> tool) then wrong_tool else arguments_mismatch))
      else
        (map_set token (mkPending (toolName entry) (bindingHash entry) (mintedAt entry)
                                  (expiresAt entry) (Some now)) pending,
         inl (mintedAt entry))
    end
  end.

Definition sweepExpired (now : Z) (pending : Store) : Store * nat := sweep now pending.
Definition store_size (pending : Store) : nat := length pending.
End store.

(** ** What the canonical text keeps *)

(** Objects with sorted keys and without [undefined], at every depth. *)
Fixpoint norm (v : jsval) : jsval :=
  match v with
  | JUndef => JNull
  | JArr l => JArr (map norm l)
  | JObj kvs => JObj (sort_entries (flat_map (fun e => if is_undef e.2 then [] else [(e.1, norm e.2)]) kvs))
  | _ => v
  end.

(** The value an argument key is bound to: absent and [undefined] are alike. *)
Definition bound_value (args : entries) (k : jsstr) : option jsval :=
  match alookup k args with
  | Some v => if is_undef v then None else Some (norm v)
  | None => None
  end.

Lemma stableStringify_norm v : stableStringify v = render (norm v).
Proof.
  induction v as [| |b|n|s|l IH|kvs IH] using jsval_ind'; try done.
  - cbn [stableStringify norm render]. do 2 f_equal. rewrite map_map. by apply map_ext_Forall.
  - cbn [stableStringify norm render]. do 2 f_equal.
    assert (List.filter (fun e => negb e.2.1)
              (map (fun e => (e.1, (is_undef e.2, stableStringify e.2))) kvs)
            = prod_map id (fun v => (false, render v)) <$>
              flat_map (fun e => if is_undef e.2 then [] else [(e.1, norm e.2)]) kvs) as ->.
    { induction IH as [|[k v] kvs Hv _ IHk]; [done|]. simpl in *.
      destruct (is_undef v); simpl; [done|]. by rewrite Hv, IHk. }
    rewrite sort_entries_fmap.
    match goal with |- map _ (_ <$> ?l) = _ => induction l as [|? ? IHl]; csimpl; [done|] end.
    by rewrite IHl.
Qed.

Lemma norm_entries_keys kvs :
  (flat_map (fun e => if is_undef e.2 then [] else [(e.1, norm e.2)]) kvs).*1
  = (filter (fun e : jsstr * jsval => is_undef e.2 = false) kvs).*1.
Proof.
  induction kvs as [|[k v] kvs IH]; [done|]. rewrite filter_cons. simpl.
  destruct (is_undef v) eqn:E; case_decide; try done. csimpl. by rewrite IH.
Qed.

Lemma norm_entries_wf kvs :
  Forall (fun e => val_wf (norm e.2)) kvs -> NoDup kvs.*1 ->
  val_wf (JObj (flat_map (fun e => if is_undef e.2 then [] else [(e.1, norm e.2)]) kvs)).
Proof.
  intros Hkvs Hnd. rewrite val_wf_obj, norm_entries_keys.
  split; [by apply filter_NoDup_fst|]. clear Hnd.
  induction Hkvs as [|[k v] kvs Hv _ IH]; simpl; [done|]. destruct (is_undef v); simpl; [done|].
  by constructor.
Qed.

Lemma norm_wf v : val_wf v -> val_wf (norm v).
Proof.
  induction v as [| |b|n|s|l IH|kvs IH] using jsval_ind'; try done; cbn [norm].
  - rewrite !val_wf_arr. intros Hl. apply Forall_fmap. by eapply Forall_mp.
  - rewrite val_wf_obj. intros [Hnd Hkvs]. pose proof (Forall_mp _ _ _ IH Hkvs) as Hn.
    pose proof (norm_entries_wf kvs Hn Hnd) as [Hnd' Hf]%val_wf_obj. rewrite val_wf_obj.
    rewrite (Permutation_map fst (sort_entries_perm _)). by rewrite sort_entries_perm.
Qed.

Lemma norm_defined v : defined (norm v).
Proof.
  induction v as [| |b|n|s|l IH|kvs IH] using jsval_ind'; try done; cbn [norm].
  - apply defined_arr. by apply Forall_fmap.
  - apply defined_obj. rewrite sort_entries_perm.
    induction IH as [|[k v] kvs Hv _ IH]; simpl; [done|]. destruct (is_undef v); simpl; [done|].
    by constructor.
Qed.

(** Two values have one canonical text exactly when they are the same value up
    to key order and [undefined]. *)
Lemma stableStringify_inj v w : val_wf v -> val_wf w ->
  stableStringify v = stableStringify w <-> norm v = norm w.
Proof.
  intros Hv Hw. rewrite !stableStringify_norm. split; [|by intros ->].
  apply render_inj; by (apply norm_wf || apply norm_defined).
Qed.

(** ** The arguments the binding covers *)

(** The keys that survive the copy: [confirmed] is skipped on purpose, and
    [__proto__] is lost to the prototype setter. *)
Definition covered (k : jsstr) : Prop := k <> js "__proto__" /\ k ∉ CONFIRMATION_CONTROL_KEYS.
#[export] Instance covered_dec k : Decision (covered k).
Proof. unfold covered. apply _. Defined.

Lemma stripControlKeys_perm args : stripControlKeys args ≡ₚ filter (fun e => covered e.1) args.
Proof.
  unfold stripControlKeys. rewrite obj_assign_perm, list_filter_filter.
  by rewrite (list_filter_iff _ (fun e => covered e.1)) by (intros; unfold covered; naive_solver).
Qed.

Lemma stripControlKeys_wf args : val_wf (JObj args) -> val_wf (JObj (stripControlKeys args)).
Proof.
  rewrite !val_wf_obj. intros [Hnd Hf]. split.
  - rewrite (Permutation_map fst (stripControlKeys_perm args)). by apply filter_NoDup_fst.
  - rewrite stripControlKeys_perm. rewrite Forall_forall in *. intros e [_ ?]%list_elem_of_filter. auto.
Qed.

Lemma alookup_norm_entries k kvs : NoDup kvs.*1 ->
  alookup k (flat_map (fun e => if is_undef e.2 then [] else [(e.1, norm e.2)]) kvs) = bound_value kvs k.
Proof.
  unfold bound_value. induction kvs as [|[k' v] kvs IH]; intros Hnd; [done|].
  csimpl in *. apply NoDup_cons in Hnd as [Hk Hnd]. specialize (IH Hnd).
  destruct (is_undef v) eqn:E; simpl; case_decide; subst; rewrite ?E; try done.
  rewrite IH. by rewrite (proj2 (alookup_None k' kvs) Hk).
Qed.

Lemma bound_value_strip args k : NoDup args.*1 -> bound_value (stripControlKeys args) k =
  if decide (k = js "__proto__" \/ k = js "confirmed") then None else bound_value args k.
Proof.
  intros Hnd. unfold bound_value.
  rewrite (alookup_perm _ _ _ ltac:(rewrite (Permutation_map fst (stripControlKeys_perm args));
    by apply filter_NoDup_fst) (stripControlKeys_perm args)).
  rewrite (alookup_filter covered) by done.
  unfold covered, CONFIRMATION_CONTROL_KEYS. do 2 case_decide; try done; set_solver.
Qed.

Lemma norm_obj_ext kvs kvs' : NoDup kvs.*1 -> NoDup kvs'.*1 ->
  norm (JObj kvs) = norm (JObj kvs') <-> forall k, bound_value kvs k = bound_value kvs' k.
Proof.
  intros Hnd Hnd'. cbn [norm].
  set (f := flat_map (fun e : jsstr * jsval => if is_undef e.2 then [] else [(e.1, norm e.2)])).
  assert (Hf : forall l, NoDup l.*1 -> NoDup (f l).*1).
  { intros l Hl. unfold f. rewrite norm_entries_keys. by apply filter_NoDup_fst. }
  split.
  - intros [= E] k. rewrite <- !alookup_norm_entries by done. fold f.
    assert (f kvs ≡ₚ f kvs') as Hp by (by rewrite <- (sort_entries_perm (f kvs)), E, sort_entries_perm).
    by apply alookup_perm; [apply Hf|].
  - intros H. f_equal. apply sort_entries_ext; [by apply Hf|]. apply alookup_ext_perm; [by apply Hf..|].
    intros k. unfold f. by rewrite !alookup_norm_entries.
Qed.

(** ** Properties *)

(** Two argument objects agree on every key the binding covers. *)
Definition same_args (a b : entries) : Prop :=
  forall k, k <> js "confirmed" -> k <> js "__proto__" -> bound_value a k = bound_value b k.

Lemma canonicalizeToolArgs_iff a b : val_wf (JObj a) -> val_wf (JObj b) ->
  canonicalizeToolArgs a = canonicalizeToolArgs b <-> same_args a b.
Proof.
  intros Ha Hb. unfold canonicalizeToolArgs.
  rewrite stableStringify_inj by (by apply stripControlKeys_wf).
  pose proof (stripControlKeys_wf _ Ha) as [Sa _]%val_wf_obj.
  pose proof (stripControlKeys_wf _ Hb) as [Sb _]%val_wf_obj.
  rewrite norm_obj_ext by done. apply val_wf_obj in Ha as [Na _], Hb as [Nb _].
  unfold same_args. split; intros H k; specialize (H k);
    rewrite !bound_value_strip in * by done; case_decide; naive_solver.
Qed.

(** C1: the canonical text of tool arguments is stable under key order and
    sensitive to every value: two argument objects have the same text exactly
    when they bind every key other than [confirmed] and [__proto__] to the same
    value (itself up to key order, [undefined] counting as absent). *)
Theorem canonical_args_iff a b : val_wf (JObj a) -> val_wf (JObj b) ->
  canonicalizeToolArgs a = canonicalizeToolArgs b <->
  forall k, k <> js "confirmed" -> k <> js "__proto__" -> bound_value a k = bound_value b k.
Proof. apply canonicalizeToolArgs_iff. Qed.

Lemma binding_text_iff t a t' b : val_wf (JObj a) -> val_wf (JObj b) ->
  binding_text t a = binding_text t' b <-> t = t' /\ same_args a b.
Proof.
  intros Ha Hb. rewrite <- canonicalizeToolArgs_iff by done. unfold binding_text. split.
  - intros E. apply app_sep_inj_l in E as [Hl E];
      [|by apply digit_not_in; [apply dec_str_digits|unfold is_digit; lia]..].
    apply dec_str_inj, Nat2N.inj in Hl. apply app_inj_1 in E as [-> E]; [|done].
    split; [done|]. exact (f_equal tail E).
  - by intros [-> ->].
Qed.

(** The hashed text frames the tool name and the arguments without
    ambiguity: equal texts mean the same tool and the same bound arguments, so
    two different calls share a hash only through a SHA-256 collision on two
    known texts. *)
Theorem binding_text_inj t a t' b : val_wf (JObj a) -> val_wf (JObj b) ->
  binding_text t a = binding_text t' b <-> t = t' /\ same_args a b.
Proof. apply binding_text_iff. Qed.

(** ** The map operations *)

Lemma map_set_lookup {A} k (v : A) m k' :
  alookup k' (map_set k v m) = if decide (k' = k) then Some v else alookup k' m.
Proof.
  induction m as [|[k1 v1] m IH]; simpl; [repeat case_decide; naive_solver|].
  destruct (decide (k = k1)); simpl; rewrite ?IH; repeat case_decide; naive_solver.
Qed.

Lemma map_set_length {A} k (v : A) m :
  (length (map_set k v m) <= S (length m))%nat /\
  (is_Some (alookup k m) -> length (map_set k v m) = length m).
Proof.
  induction m as [|[k1 v1] m IH]; simpl; [split; [lia|by intros []]|].
  case_decide; simpl; [split; [lia|done]|]. destruct IH. split; [lia|]. intros; f_equal; auto.
Qed.

Lemma map_set_keys {A} k (v : A) m : NoDup m.*1 -> NoDup (map_set k v m).*1.
Proof.
  induction m as [|[k1 v1] m IH]; csimpl; intros Hnd; [apply NoDup_singleton|].
  apply NoDup_cons in Hnd as [Hk Hnd]. case_decide; csimpl; [by constructor|].
  constructor; [|auto]. rewrite <- alookup_None, map_set_lookup in *. by case_decide.
Qed.

Lemma alookup_sublist_kept (f : jsstr * PendingConfirmation -> bool) tok st :
  NoDup st.*1 -> alookup tok (List.filter f st) = None \/ alookup tok (List.filter f st) = alookup tok st.
Proof.
  induction st as [|[k e] st IH]; csimpl; intros Hnd; [auto|].
  apply NoDup_cons in Hnd as [Hk Hnd]. destruct (f (k, e)); simpl; case_decide; subst; auto.
  destruct (IH Hnd) as [->| ->]; [auto|]. left. by apply alookup_None.
Qed.

Lemma NoDup_filter_keys (f : jsstr * PendingConfirmation -> bool) st :
  NoDup st.*1 -> NoDup (List.filter f st).*1.
Proof.
  induction st as [|e st IH]; csimpl; intros Hnd; [done|]. apply NoDup_cons in Hnd as [Hk Hnd].
  destruct (f e); csimpl; [|auto]. constructor; [|auto]. contradict Hk.
  apply list_elem_of_fmap in Hk as (x & -> & [Hx _]%list_elem_of_In%filter_In).
  apply list_elem_of_fmap_2. by apply list_elem_of_In.
Qed.

Section properties.
Variable sha256 : jsstr -> jsstr.
Variable ttlMs maxEntries : Z.

Lemma evict_length m : Z.of_nat (length (evict maxEntries m)) < Z.max 1 maxEntries.
Proof.
  induction m as [|e m IH]; simpl; [lia|].
  destruct (Z.leb_spec maxEntries (Z.of_nat (S (length m)))); [done|]. simpl. lia.
Qed.

(** However the store is used, a mint leaves at most [maxEntries] pending
    confirmations (one when the bound is not positive). *)
Theorem mint_bounded tool args now tok st :
  Z.of_nat (store_size (mint sha256 ttlMs maxEntries tool args now tok st).1) <= Z.max 1 maxEntries.
Proof.
  unfold mint, store_size. simpl.
  match goal with |- context [map_set ?k ?v (evict _ ?m)] =>
    pose proof (map_set_length k v (evict maxEntries m)) as [Hle _]; pose proof (evict_length m) end.
  lia.
Qed.

Lemma mint_lookup tool args now tok st k :
  alookup k (mint sha256 ttlMs maxEntries tool args now tok st).1 =
  if decide (k = tok)
  then Some (mkPending tool (confirmationBindingHash sha256 tool args) now (now + ttlMs) None)
  else alookup k (evict maxEntries (sweep now st).1).
Proof. apply map_set_lookup. Qed.

(** What redeeming does on every branch.  Success needs a known, unspent,
    unexpired token whose stored hash is the hash of the presented call, and
    marks exactly that token as spent; every refusal leaves the store as it
    was and names its reason. *)
Theorem redeem_spec token tool args now st :
  let '(st', r) := redeem sha256 token tool args now st in
  match r with
  | inl m => exists e, alookup token st = Some e /\ usedAt e = None /\ now < expiresAt e /\
      bindingHash e = confirmationBindingHash sha256 tool args /\ m = mintedAt e /\
      forall k, alookup k st' = if decide (k = token)
        then Some (mkPending (toolName e) (bindingHash e) (mintedAt e) (expiresAt e) (Some now))
        else alookup k st
  | inr why => st' = st /\
      match alookup token st with
      | None => why = unknown_token
      | Some e => match usedAt e with
          | Some _ => why = already_used
          | None => if decide (expiresAt e <= now) then why = expired
              else bindingHash e <> confirmationBindingHash sha256 tool args /\
                   why = if decide (toolName e = tool) then arguments_mismatch else wrong_tool
          end
      end
  end.
Proof.
  unfold redeem. destruct (alookup token st) as [e|] eqn:Hl; [|done].
  destruct (usedAt e) as [u|] eqn:Hu; [done|].
  destruct (Z.leb_spec (expiresAt e) now); [by rewrite decide_True by lia|].
  case_bool_decide as Hh.
  - rewrite decide_False by lia. repeat split; [done|]. case_bool_decide; by case_decide.
  - exists e. split_and!; try done.
    intros k. by rewrite map_set_lookup.
Qed.

Lemma redeem_ok_inv token tool args now st st' m :
  redeem sha256 token tool args now st = (st', inl m) ->
  exists e, alookup token st = Some e /\ usedAt e = None /\ now < expiresAt e /\
    bindingHash e = confirmationBindingHash sha256 tool args /\
    st' = map_set token (mkPending (toolName e) (bindingHash e) (mintedAt e) (expiresAt e) (Some now)) st.
Proof.
  unfold redeem. destruct (alookup token st) as [e|] eqn:Hl; [|done].
  destruct (usedAt e) as [u|] eqn:Hu; [done|].
  destruct (Z.leb_spec (expiresAt e) now); [done|]. case_bool_decide as Hh; [done|].
  intros [= <- <-]. by exists e.
Qed.

Lemma redeem_refused_inv token tool args now st st' why :
  redeem sha256 token tool args now st = (st', inr why) -> st' = st.
Proof.
  unfold redeem. repeat case_match; by intros [= <- _].
Qed.

(** An approval given in time is accepted: a token redeemed right after it
    was minted, before its expiry, with the same tool and arguments that bind
    every covered key alike, succeeds. *)
Theorem mint_then_redeem tool args args' now now' tok st :
  val_wf (JObj args) -> val_wf (JObj args') -> same_args args args' -> now' < now + ttlMs ->
  (redeem sha256 tok tool args' now' (mint sha256 ttlMs maxEntries tool args now tok st).1).2 = inl now.
Proof.
  intros Ha Ha' Hs Hn. unfold redeem. rewrite mint_lookup, decide_True by done. simpl.
  destruct (Z.leb_spec (now + ttlMs) now'); [lia|]. rewrite bool_decide_eq_false_2; [done|].
  intros []. unfold confirmationBindingHash. f_equal. by apply binding_text_iff.
Qed.
(** *** Any sequence of uses of the store *)

Inductive store_op :=
| OMint (tool : jsstr) (args : entries) (now : Z) (token : jsstr)
| ORedeem (token tool : jsstr) (args : entries) (now : Z)
| OSweep (now : Z).

(** One operation, and the token it spent, if it spent one. *)
Definition store_step (op : store_op) (st : Store) : Store * option jsstr :=
  match op with
  | OMint tool args now tok => ((mint sha256 ttlMs maxEntries tool args now tok st).1, None)
  | ORedeem tok tool args now =>
      let '(st', r) := redeem sha256 tok tool args now st in
      (st', match r with inl _ => Some tok | inr _ => None end)
  | OSweep now => ((sweepExpired now st).1, None)
  end.

(** The tokens spent along a sequence of operations, in order. *)
Fixpoint spent (ops : list store_op) (st : Store) : list jsstr :=
  match ops with
  | [] => []
  | op :: r => let '(st', o) := store_step op st in option_list o ++ spent r st'
  end.

Definition minted (op : store_op) : option jsstr :=
  match op with OMint _ _ _ tok => Some tok | _ => None end.

Definition mints_of (tok : jsstr) (ops : list store_op) : nat :=
  length (filter (fun op => minted op = Some tok) ops).

(** How often [tok] can still be spent: once if it is pending and unspent. *)
Definition avail (tok : jsstr) (st : Store) : nat :=
  match alookup tok st with
  | Some e => match usedAt e with None => 1 | Some _ => 0 end
  | None => 0
  end.

Lemma evict_kept tok st : NoDup st.*1 ->
  alookup tok (evict maxEntries st) = None \/ alookup tok (evict maxEntries st) = alookup tok st.
Proof.
  induction st as [|[k e] st IH]; intros Hnd; [auto|]. csimpl in *.
  apply NoDup_cons in Hnd as [Hk Hnd]. case_match; [|by right].
  destruct (IH Hnd) as [->| ->]; [auto|]. case_decide; subst; [left; by apply alookup_None|auto].
Qed.

Lemma evict_suffix st : exists d, st = d ++ evict maxEntries st.
Proof.
  induction st as [|e st [d IH]]; simpl; [by exists []|].
  case_match; [exists (e :: d); simpl; congruence|by exists []].
Qed.

Lemma evict_keys st : NoDup st.*1 -> NoDup (evict maxEntries st).*1.
Proof.
  destruct (evict_suffix st) as [d Hd]. rewrite Hd at 1. rewrite fmap_app. by intros (_ & _ & ?)%NoDup_app.
Qed.

Lemma store_step_keys op st : NoDup st.*1 -> NoDup (store_step op st).1.*1.
Proof.
  intros Hnd. destruct op; simpl; [|unfold redeem; repeat case_match; simplify_eq/=|];
    auto using map_set_keys, evict_keys, NoDup_filter_keys.
Qed.

(** Each step pays for the tokens it spends. *)
Definition is_spent (tok : jsstr) (o : option jsstr) : nat :=
  match o with Some t => if decide (t = tok) then 1 else 0 | None => 0 end.

Lemma sweep_kept tok now st : NoDup st.*1 ->
  alookup tok (sweep now st).1 = None \/ alookup tok (sweep now st).1 = alookup tok st.
Proof. apply alookup_sublist_kept. Qed.

Lemma avail_le tok st st' :
  alookup tok st' = None \/ alookup tok st' = alookup tok st -> (avail tok st' <= avail tok st)%nat.
Proof. unfold avail. intros [-> | ->]; repeat case_match; lia. Qed.

Lemma mints_of_cons tok op ops :
  mints_of tok (op :: ops) = (is_spent tok (minted op) + mints_of tok ops)%nat.
Proof.
  unfold mints_of, is_spent. rewrite filter_cons.
  destruct (minted op); repeat case_decide; simplify_eq; done.
Qed.

Lemma store_step_avail op tok st : NoDup st.*1 ->
  (avail tok (store_step op st).1 + is_spent tok (store_step op st).2
   <= avail tok st + is_spent tok (minted op))%nat.
Proof.
  intros Hnd. destruct op as [tool args now t|t tool args now|now]; cbn [store_step minted fst snd].
  - assert (Hk : NoDup (sweep now st).1.*1) by (by apply NoDup_filter_keys).
    unfold is_spent. case_decide as Ht.
    + subst t. unfold avail at 1. rewrite mint_lookup, decide_True by done. simpl. lia.
    + assert (avail tok (mint sha256 ttlMs maxEntries tool args now t st).1 <= avail tok st)%nat; [|lia].
      apply avail_le. rewrite mint_lookup, decide_False by congruence.
      destruct (evict_kept tok _ Hk) as [->| ->]; [auto|]. by apply sweep_kept.
  - destruct (redeem sha256 t tool args now st) as [st' [m|why]] eqn:E; simpl.
    + apply redeem_ok_inv in E as (e & Hl & Hu & _ & _ & ->). unfold avail.
      rewrite map_set_lookup. repeat case_decide; subst; try congruence; simpl; [|lia].
      rewrite Hl, Hu. lia.
    + apply redeem_refused_inv in E as ->. lia.
  - unfold sweepExpired, is_spent. pose proof (avail_le tok st _ (sweep_kept tok now st Hnd)). lia.
Qed.

Lemma spent_avail ops tok st : NoDup st.*1 ->
  (length (filter (.= tok) (spent ops st)) <= avail tok st + mints_of tok ops)%nat.
Proof.
  revert st. induction ops as [|op ops IH]; intros st Hnd; cbn [spent]; [simpl; lia|].
  pose proof (store_step_avail op tok st Hnd) as H1. pose proof (store_step_keys op st Hnd) as H2.
  destruct (store_step op st) as [st' o]. specialize (IH st' H2). simpl in H1.
  rewrite mints_of_cons, filter_app, length_app.
  assert (length (filter (.= tok) (option_list o)) = is_spent tok o) as ->; [|lia].
  destruct o as [x|]; [|done]. unfold is_spent. simpl. rewrite filter_cons. by repeat case_decide.
Qed.

(** A token is spent at most once.  Along any sequence of mints, redeems
    and sweeps on a fresh store, a token drawn by at most one mint admits at
    most one call. *)
Theorem token_single_use ops tok : (mints_of tok ops <= 1)%nat ->
  (length (filter (.= tok) (spent ops [])) <= 1)%nat.
Proof. intros H. pose proof (spent_avail ops tok [] (NoDup_nil_2 (A := jsstr))) as Hs. simpl in *. lia. Qed.
End properties.

(** A [__proto__] argument is not bound.  The copy made by [out[k] = v]
    hands the key [__proto__] to the prototype setter, so a call with any
    [__proto__] value has the hash of the call without it, and a token minted
    for one admits the other. *)
Theorem proto_argument_unbound sha256 tool before after v :
  confirmationBindingHash sha256 tool (before ++ (js "__proto__", v) :: after)
  = confirmationBindingHash sha256 tool (before ++ after).
Proof.
  unfold confirmationBindingHash, binding_text, canonicalizeToolArgs, stripControlKeys, obj_assign.
  by rewrite !filter_app.
Qed.

(** ** Witnesses *)

Definition wf_args (args : entries) : bool :=
  bool_decide (NoDup args.*1) &&
  forallb (fun e => match e.2 with JNum _ | JArr _ | JObj _ => false | _ => true end) args.

Lemma wf_args_ok args : wf_args args = true -> val_wf (JObj args).
Proof.
  unfold wf_args. rewrite andb_true_iff, bool_decide_eq_true, forallb_forall, val_wf_obj.
  intros [? H]. split; [done|]. apply Forall_forall. intros e He%list_elem_of_In. specialize (H e He).
  by destruct e as [k []].
Qed.

Definition del_x : entries := [(js "path", JStr (js "/tmp/x")); (js "force", JBool false)].
Definition del_x' : entries :=
  [(js "confirmed", JBool true); (js "force", JBool false); (js "path", JStr (js "/tmp/x"))].
Definition del_pay : entries := [(js "path", JStr (js "/payroll")); (js "force", JBool false)].

Lemma same_del_x : same_args del_x del_x'.
Proof.
  apply canonicalizeToolArgs_iff; [apply wf_args_ok; by vm_compute..|by vm_compute].
Qed.

Lemma canonical_args_iff_witness :
  wf_args del_x = true /\ wf_args del_pay = true /\
  ~ (forall k, k <> js "confirmed" -> k <> js "__proto__" -> bound_value del_x k = bound_value del_pay k).
Proof.
  split_and!; [by vm_compute..|].
  intros H. apply (canonical_args_iff del_x del_pay) in H; [|apply wf_args_ok; by vm_compute..].
  by vm_compute in H.
Defined.

Lemma binding_text_inj_witness :
  wf_args del_x = true /\ wf_args del_x' = true /\
  binding_text (js "delete_file") del_x = binding_text (js "delete_file") del_x'.
Proof.
  split_and!; [by vm_compute..|].
  apply binding_text_inj; [apply wf_args_ok; by vm_compute..|]. split; [done|exact same_del_x].
Defined.

(** A stand-in digest for concrete runs. *)
Definition toy_hash (s : jsstr) : jsstr := s.

Lemma mint_then_redeem_witness :
  wf_args del_x = true /\ wf_args del_x' = true /\ 299999 < 0 + 300000 /\
  (redeem toy_hash (js "t") (js "delete_file") del_x' 299999
     (mint toy_hash 300000 1000 (js "delete_file") del_x 0 (js "t") []).1).2 = inl 0.
Proof.
  split_and!; [by vm_compute..|].
  apply mint_then_redeem; [apply wf_args_ok; by vm_compute..|exact same_del_x|lia].
Defined.

Definition double_spend : list store_op :=
  [OMint (js "delete_file") del_x 0 (js "t"); ORedeem (js "t") (js "delete_file") del_x 10;
   ORedeem (js "t") (js "delete_file") del_x 20; OSweep 400000].

Lemma token_single_use_witness :
  (mints_of (js "t") double_spend <= 1)%nat /\
  spent toy_hash 300000 1000 double_spend [] = [js "t"] /\
  (length (filter (.= js "t") (spent toy_hash 300000 1000 double_spend [])) <= 1)%nat.
Proof.
  split_and!; [vm_compute; lia|by vm_compute|].
  apply token_single_use. vm_compute. lia.
Defined.
