(* ===== verification/Interceptor.v ===== *)
(** * The write-confirmation interceptor (packages/tools-core/src/interceptor.ts)

    The dispatch-time gate in front of every tool handler: read-only
    namespaces, the runtime deny tier, and the two-phase confirmation over the
    token store of [ConfirmToken].  The state of an interceptor is its pending
    tokens and its deny rules; [intercept] is the whole handler.  The headline
    is [no_unapproved_write]: no confirming call proceeds unless an earlier call
    was answered with a challenge for the same tool and arguments. *)

From S2P Require Import Prelude JsNum Json ConfirmToken.

Set Default Proof Using "Type".

Open Scope Z_scope.

(** ** Data *)

Inductive ConfirmationOwner := owner_interceptor | owner_route.

Record InterceptableTool := mkTool {
  name : jsstr;
  requiresConfirmation : bool;
  requiresWrite : option bool;
  inputSchema : option jsval;
  confirmationOwner : option ConfirmationOwner
}.

Record DenyReason := mkDeny { code : jsstr; message : jsstr }.

Definition DenyRule : Type := InterceptableTool -> entries -> option DenyReason.

Inductive InterceptOutcome :=
| proceed (args : entries) (confirmationConsumed : bool)
| denied (reason : DenyReason)
| confirmation_required (token : jsstr) (expires : Z)
| confirmation_rejected (why : ConfirmationRedeemFailure).

Definition confirmationOwnerOf (tool : InterceptableTool) : ConfirmationOwner :=
  default owner_interceptor (confirmationOwner tool).

(** ** The runtime deny tier: a [Map] from rule id to rule *)

Module DenyTier.
Abbreviation Rules := (list (jsstr * DenyRule)).

Definition add (id : jsstr) (rule : DenyRule) (rules : Rules) : Rules := map_set id rule rules.

Definition remove (id : jsstr) (rules : Rules) : Rules * bool :=
  (filter (fun e => e.1 <> id) rules, bool_decide (is_Some (alookup id rules))).

Definition clear (_ : Rules) : Rules := [].

(** The first rule that objects decides. *)
Fixpoint evaluate (rules : Rules) (tool : InterceptableTool) (args : entries) : option DenyReason :=
  match rules with
  | [] => None
  | (_, rule) :: r => match rule tool args with
                      | Some reason => Some reason
                      | None => evaluate r tool args
                      end
  end.

Definition ids (rules : Rules) : list jsstr := rules.*1.
End DenyTier.

(** ** Read-only namespaces *)

Definition READ_ONLY_TOOL_NAMESPACES : list jsstr := [].

Definition read_only_message (tool : InterceptableTool) (ns : jsstr) : jsstr :=
  js "'" ++ name tool ++ js "' is in the read-only '" ++ ns ++
  js "' namespace, and the assistant only reads there: it never writes or asks for a confirmation. Nothing about this call was attempted, and no approval changes that.".

Definition readOnlyNamespaceBreach (namespaces : list jsstr) (tool : InterceptableTool) : option DenyReason :=
  let nm := toLowerCase (trim (name tool)) in
  match List.find (fun p => startsWith p nm) namespaces with
  | None => None
  | Some [] => None  (* [if (!namespace)]: the empty string is falsy *)
  | Some ns =>
      if bool_decide (requiresWrite tool = Some false) && negb (requiresConfirmation tool) then None
      else Some (mkDeny (js "read_only_namespace") (read_only_message tool ns))
  end.

(** Does the input schema declare a [confirmed] property? *)
Definition declaresConfirmedFlag (tool : InterceptableTool) : bool :=
  match inputSchema tool with
  | Some (JObj schema) =>
      match alookup (js "properties") schema with
      | Some (JObj properties) => bool_decide (is_Some (alookup (js "confirmed") properties))
      | _ => false
      end
  | _ => false
  end.

(** ** The interceptor *)

Section interceptor.
Variable sha256 : jsstr -> jsstr.
Variable ttlMs maxEntries : Z.
Variable namespaces : list jsstr.

(** [meta] is [_meta.confirmationToken]; [draw] is the random token a challenge would use. *)
Definition intercept (rules : DenyTier.Rules) (tool : InterceptableTool) (args : entries)
    (meta : option jsstr) (now : Z) (draw : jsstr) (tokens : Store) : Store * InterceptOutcome :=
  match readOnlyNamespaceBreach namespaces tool with
  | Some breach => (tokens, denied breach)
  | None =>
  match DenyTier.evaluate rules tool args with
  | Some reason => (tokens, denied reason)
  | None =>
  if negb (requiresConfirmation tool) then (tokens, proceed args false)
  else match confirmationOwnerOf tool with
  | owner_route => (tokens, proceed args false)
  | owner_interceptor =>
    match meta with
    | Some (u :: t) =>
        let '(tokens', r) := redeem sha256 (u :: t) (name tool) args now tokens in
        match r with
        | inr why => (tokens', confirmation_rejected why)
        | inl _ =>
            (tokens', proceed (if declaresConfirmedFlag tool
                               then map_set (js "confirmed") (JBool true) args else args) true)
        end
    | _ =>
        let '(tokens', (token, exp)) := mint sha256 ttlMs maxEntries (name tool) args now draw tokens in
        (tokens', confirmation_required token exp)
    end
  end
  end
  end.
End interceptor.

(** ** The audit view of a decision *)

Record InterceptorAuditEvent := mkAudit {
  ev_outcome : jsstr; ev_tool : jsstr; ev_reason : option jsstr; ev_expiresAt : option Z }.

Definition failure_name (f : ConfirmationRedeemFailure) : jsstr :=
  match f with
  | unknown_token => js "unknown_token" | already_used => js "already_used" | expired => js "expired"
  | wrong_tool => js "wrong_tool" | arguments_mismatch => js "arguments_mismatch"
  end.

Definition interceptorAuditEvent (tool : InterceptableTool) (o : InterceptOutcome)
  : option InterceptorAuditEvent :=
  match o with
  | confirmation_required _ exp => Some (mkAudit (js "confirmation_required") (name tool) None (Some exp))
  | confirmation_rejected why =>
      Some (mkAudit (js "confirmation_rejected") (name tool) (Some (failure_name why)) None)
  | denied reason => Some (mkAudit (js "denied") (name tool) (Some (code reason)) None)
  | proceed _ consumed =>
      if consumed then Some (mkAudit (js "confirmed") (name tool) None None) else None
  end.

(** ** Properties *)

(** One call as the dispatcher makes it: the deny rules in force, the tool, its
    arguments, the token presented, the clock and the random draw. *)
Record call := mkCall {
  c_rules : DenyTier.Rules; c_tool : InterceptableTool; c_args : entries;
  c_meta : option jsstr; c_now : Z; c_draw : jsstr }.

(** A tool the interceptor itself must ask about. *)
Definition needs_approval (tool : InterceptableTool) : Prop :=
  requiresConfirmation tool = true /\ confirmationOwnerOf tool = owner_interceptor.

Section properties.
Variable sha256 : jsstr -> jsstr.
Variable ttlMs maxEntries : Z.
Variable namespaces : list jsstr.

Definition do_call (c : call) (tokens : Store) : Store * InterceptOutcome :=
  intercept sha256 ttlMs maxEntries namespaces (c_rules c) (c_tool c) (c_args c) (c_meta c)
    (c_now c) (c_draw c) tokens.

(** The calls a dispatcher makes, each with the decision it got. *)
Fixpoint run (calls : list call) (tokens : Store) : list (call * InterceptOutcome) :=
  match calls with
  | [] => []
  | c :: r => let '(tokens', o) := do_call c tokens in (c, o) :: run r tokens'
  end.

(** A pending token was handed out by a challenge of the history. *)
Definition challenged (hist : list (call * InterceptOutcome)) (tok : jsstr) (e : PendingConfirmation) : Prop :=
  exists c, (c, confirmation_required tok (expiresAt e)) ∈ hist /\ expiresAt e = c_now c + ttlMs /\
    bindingHash e = confirmationBindingHash sha256 (name (c_tool c)) (c_args c).

Definition backed (hist : list (call * InterceptOutcome)) (tokens : Store) : Prop :=
  NoDup tokens.*1 /\ forall tok e, alookup tok tokens = Some e -> challenged hist tok e.

(** The four ways a decision can be reached. *)
Lemma do_call_cases c tokens :
  (exists d, do_call c tokens = (tokens, denied d)) \/
  (~ needs_approval (c_tool c) /\ do_call c tokens = (tokens, proceed (c_args c) false)) \/
  (needs_approval (c_tool c) /\ exists tok, c_meta c = Some tok /\
     let '(tokens', r) := redeem sha256 tok (name (c_tool c)) (c_args c) (c_now c) tokens in
     do_call c tokens = (tokens', match r with
       | inr why => confirmation_rejected why
       | inl _ => proceed (if declaresConfirmedFlag (c_tool c)
                           then map_set (js "confirmed") (JBool true) (c_args c) else c_args c) true
       end)) \/
  (needs_approval (c_tool c) /\ (c_meta c = None \/ c_meta c = Some []) /\
     do_call c tokens =
     let '(tokens', (token, exp)) := mint sha256 ttlMs maxEntries (name (c_tool c)) (c_args c)
                                       (c_now c) (c_draw c) tokens in
     (tokens', confirmation_required token exp)).
Proof.
  unfold do_call, intercept, needs_approval.
  destruct (readOnlyNamespaceBreach _ _); [eauto|]. destruct (DenyTier.evaluate _ _ _); [eauto|].
  destruct (requiresConfirmation _) eqn:Hr; simpl; [|right; left; split; [naive_solver|done]].
  destruct (confirmationOwnerOf _) eqn:Ho; [|right; left; split; [naive_solver|done]].
  destruct (c_meta c) as [[|u t]|] eqn:Hm; [right; right; right; auto 10| |right; right; right; auto 10].
  right; right; left. split; [done|]. exists (u :: t). split; [done|].
  by destruct (redeem _ _ _ _ _ _) as [tokens' []].
Qed.

Lemma backed_sub hist tokens tokens' :
  (forall tok, alookup tok tokens' = None \/ alookup tok tokens' = alookup tok tokens) ->
  NoDup tokens'.*1 -> backed hist tokens -> backed hist tokens'.
Proof.
  intros Hsub Hnd [_ Hb]. split; [done|]. intros tok e He. apply Hb.
  destruct (Hsub tok) as [E|E]; congruence.
Qed.

Lemma do_call_backed hist c tokens : backed hist tokens ->
  backed (hist ++ [(c, (do_call c tokens).2)]) (do_call c tokens).1.
Proof.
  intros [Hnd Hb].
  assert (Hb' : forall o, backed (hist ++ [(c, o)]) tokens).
  { intros o. split; [done|]. intros tok e (c' & Hin & ?)%Hb. exists c'. split; [|done].
    apply elem_of_app. by left. }
  destruct (do_call_cases c tokens) as [[d ->]|[[_ ->]|[(_ & tok & Hm & E)|(_ & _ & ->)]]]; [auto..| |].
  - destruct (redeem _ _ _ _ _ _) as [tokens' [m|why]] eqn:R; rewrite E; simpl.
    + apply redeem_ok_inv in R as (e & Hl & _ & _ & _ & ->). split; [by apply map_set_keys|].
      intros tok' e'. rewrite map_set_lookup. case_decide; subst.
      * intros [= <-]. destruct (proj2 (Hb' (proceed (if declaresConfirmedFlag (c_tool c)
          then map_set (js "confirmed") (JBool true) (c_args c) else c_args c) true)) _ _ Hl) as (c' & ? & ? & ?).
        by exists c'.
      * apply Hb'.
    + apply redeem_refused_inv in R as ->. auto.
  - unfold mint. simpl. split.
    + apply map_set_keys, evict_keys, NoDup_filter_keys, Hnd.
    + intros tok e. rewrite map_set_lookup. case_decide; subst.
      * intros [= <-]. exists c. simpl. split_and!; [apply elem_of_app; right; by left|done..].
      * pose proof (evict_kept maxEntries tok (sweep (c_now c) tokens).1
          (NoDup_filter_keys _ _ Hnd)) as He. simpl in He.
        destruct He as [->| ->]; [done|].
        destruct (sweep_kept tok (c_now c) tokens Hnd) as [Hs|Hs]; simpl in Hs; rewrite Hs; [done|].
        apply Hb'.
Qed.

(** Each decision of a run was taken on a store backed by what came before. *)
Lemma run_backed calls hist tokens pre c o post :
  backed hist tokens -> run calls tokens = pre ++ (c, o) :: post ->
  c ∈ calls /\ Forall (fun e => e.1 ∈ calls) pre /\
  exists tokens', backed (hist ++ pre) tokens' /\ (do_call c tokens').2 = o.
Proof.
  revert hist tokens pre. induction calls as [|c0 calls IH]; intros hist tokens pre Hb; simpl.
  { by destruct pre. }
  pose proof (do_call_backed hist c0 tokens Hb) as Hb1.
  destruct (do_call c0 tokens) as [tokens1 o1] eqn:E1. destruct pre as [|e pre]; simpl.
  - intros [= -> -> _]. split_and!; [left|done|]. exists tokens. rewrite app_nil_r. by rewrite E1.
  - intros [= <- Hr]. apply (IH _ _ _ Hb1) in Hr as (Hc & Hpre & tokens' & Hb' & Ho).
    rewrite <- app_assoc in Hb'. split_and!; [by right|constructor; [left|]|eauto].
    eapply Forall_impl; [exact Hpre|]. intros ? ?. by right.
Qed.

(** C8: no write without an approval challenge for that very call.  In any run
    of the dispatcher from an empty store, a call to a tool the interceptor
    must ask about proceeds only by spending a token that an earlier challenge
    of the run handed out, before it expired, for the same tool name and the
    same bound arguments; the only other way is a SHA-256 collision between
    the two named texts. *)
Theorem no_unapproved_write calls pre c args consumed post :
  Forall (fun c => val_wf (JObj (c_args c))) calls ->
  run calls [] = pre ++ (c, proceed args consumed) :: post ->
  requiresConfirmation (c_tool c) = true -> confirmationOwnerOf (c_tool c) = owner_interceptor ->
  consumed = true /\
  exists c' tok exp, (c', confirmation_required tok exp) ∈ pre /\ c_meta c = Some tok /\
    exp = c_now c' + ttlMs /\ c_now c < exp /\
    ((name (c_tool c') = name (c_tool c) /\ same_args (c_args c') (c_args c)) \/
     (let t := binding_text (name (c_tool c')) (c_args c') in
      let t' := binding_text (name (c_tool c)) (c_args c) in t <> t' /\ sha256 t = sha256 t')).
Proof.
  intros Hwf Hrun Hr Ho.
  assert (backed [] []) as Hb0 by (split; [constructor|done]).
  apply (run_backed _ _ _ _ _ _ _ Hb0) in Hrun as (Hc & Hpre & tokens & [_ Hb] & Hout).
  destruct (do_call_cases c tokens) as [[d E]|[[Hn _]|[(_ & tok & Hm & E)|(_ & _ & E)]]].
  { by rewrite E in Hout. } { by destruct Hn. }
  2: { rewrite E in Hout. by destruct (mint _ _ _ _ _ _ _ _) as [? []]. }
  destruct (redeem _ _ _ _ _ _) as [tokens' [m|why]] eqn:R; rewrite E in Hout; simplify_eq/=.
  split; [done|]. apply redeem_ok_inv in R as (e & Hl & _ & Hexp & Hh & _).
  apply Hb in Hl as (c' & Hin & Hexp' & Hh'). exists c', tok, (expiresAt e). split_and!; try done.
  rewrite Forall_forall in Hwf. rewrite Forall_forall in Hpre.
  destruct (decide (binding_text (name (c_tool c')) (c_args c') = binding_text (name (c_tool c)) (c_args c)))
    as [Ht|Ht].
  - left. apply binding_text_iff in Ht; [done|by apply Hwf, (Hpre _ Hin)|by apply Hwf].
  - right. split; [done|]. unfold confirmationBindingHash in *. congruence.
Qed.

(** Nothing overrides a refusal.  A tool in a read-only namespace that
    does not affirm being a pure read, or one a deny rule objects to, is
    denied whatever token is presented, and no token is minted or spent. *)
Theorem denial_is_final rules tool args meta now draw tokens :
  readOnlyNamespaceBreach namespaces tool <> None \/ DenyTier.evaluate rules tool args <> None ->
  exists reason,
    intercept sha256 ttlMs maxEntries namespaces rules tool args meta now draw tokens
    = (tokens, denied reason).
Proof.
  unfold intercept. intros H. destruct (readOnlyNamespaceBreach _ _); [eauto|].
  destruct (DenyTier.evaluate _ _ _); [eauto|]. naive_solver.
Qed.

(** The audit trail is exact.  A call that runs its handler leaves a
    [confirmed] audit event exactly when it spent a token, a call that does
    not run always leaves an event, and an ordinary read leaves none. *)
Theorem audit_event_exact rules tool args meta now draw tokens :
  let o := (intercept sha256 ttlMs maxEntries namespaces rules tool args meta now draw tokens).2 in
  match interceptorAuditEvent tool o with
  | None => o = proceed args false /\
      (requiresConfirmation tool = false \/ confirmationOwnerOf tool = owner_route)
  | Some ev => ev_tool ev = name tool /\
      (ev_outcome ev = js "confirmed" <-> exists args', o = proceed args' true)
  end.
Proof.
  pose proof (do_call_cases (mkCall rules tool args meta now draw) tokens) as H.
  unfold do_call in H. simpl in H.
  destruct H as [[d ->]|[[Hn ->]|[(_ & tok & _ & E)|(_ & _ & ->)]]]; simpl.
  - split; [done|]. split; [by vm_compute|by intros (? & ?)].
  - split; [done|]. unfold needs_approval in Hn.
    destruct (requiresConfirmation tool), (confirmationOwnerOf tool); naive_solver.
  - destruct (redeem _ _ _ _ _ _) as [tokens' [m|why]]; rewrite E; simpl.
    + split; [done|]. split; [eauto|done].
    + split; [done|]. split; [by vm_compute|by intros (? & ?)].
  - split; [done|]. split; [by vm_compute|by intros (? & ?)].
Qed.
End properties.

(** ** Witnesses *)

Definition delete_file : InterceptableTool :=
  mkTool (js "delete_file") true (Some true)
    (Some (JObj [(js "properties", JObj [(js "confirmed", JObj [])])])) None.

Definition ask : call := mkCall [] delete_file del_x None 0 (js "t").
Definition confirm : call := mkCall [] delete_file del_x' (Some (js "t")) 1000 (js "u").

Lemma no_unapproved_write_witness :
  run toy_hash 300000 1000 [] [ask; confirm] []
    = [(ask, confirmation_required (js "t") 300000);
       (confirm, proceed (map_set (js "confirmed") (JBool true) del_x') true)] /\
  exists c' tok exp, (c', confirmation_required tok exp) ∈ [(ask, confirmation_required (js "t") 300000)] /\
    c_meta confirm = Some tok /\ exp = c_now c' + 300000 /\ c_now confirm < exp /\
    ((name (c_tool c') = name (c_tool confirm) /\ same_args (c_args c') (c_args confirm)) \/
     (let t := binding_text (name (c_tool c')) (c_args c') in
      let t' := binding_text (name (c_tool confirm)) (c_args confirm) in
      t <> t' /\ toy_hash t = toy_hash t')).
Proof.
  split; [by vm_compute|].
  apply (no_unapproved_write toy_hash 300000 1000 [] [ask; confirm] [(ask, confirmation_required (js "t") 300000)]
    confirm (map_set (js "confirmed") (JBool true) del_x') true []); [|by vm_compute|done|done].
  repeat apply Forall_cons_2; [apply wf_args_ok; by vm_compute..|apply Forall_nil_2].
Defined.

Lemma denial_is_final_witness :
  exists reason, intercept toy_hash 300000 1000 [js "bank_"] [] (mkTool (js " Bank_pay") false None None None)
    [] (Some (js "t")) 0 (js "u") [] = ([], denied reason).
Proof. apply denial_is_final. left. by vm_compute. Defined.
