(* ===== verification/DateTime.v ===== *)
(** * DateTime: the ECMAScript calendar

    A JavaScript [Date] is a whole number of milliseconds since the epoch.
    This file holds the proleptic Gregorian calendar the language prescribes
    for it: [MakeDay]/[Date.UTC] ([day_of_civil], [date_utc]), the UTC getters
    ([civil_of_day], [utc_fields], [weekday]) and [toISOString].  The round
    trip between days and civil dates is proved by evaluating one 400-year
    cycle and by periodicity; [toISOString] is proved injective. *)

From S2P Require Import Prelude.
From S2P Require Import JsNum.

Local Open Scope Z_scope.

(** ** Days and civil dates *)

(** Days are counted inside a 146097-day cycle that starts on 1 March, so
    that the leap day is the last day of its year. *)
Definition DAYS_PER_CYCLE : Z := 146097.
Definition EPOCH_SHIFT : Z := 719468.

(** Year of the cycle, month counted from March, and day of the month. *)
Definition cycle_civil (doe : Z) : Z * Z * Z :=
  let c := Z.min 3 (doe / 36524) in
  let dc := doe - 36524 * c in
  let q := dc / 1461 in
  let dq := dc - 1461 * q in
  let y := Z.min 3 (dq / 365) in
  let doy := dq - 365 * y in
  let mp := (5 * doy + 2) / 153 in
  (100 * c + 4 * q + y, mp, doy - (153 * mp + 2) / 5 + 1).

Definition cycle_day (yoe mp d : Z) : Z :=
  365 * yoe + yoe / 4 - yoe / 100 + (153 * mp + 2) / 5 + d - 1.

(** The civil date (year, month 1-12, day 1-31) of a day number. *)
Definition civil_of_day (day : Z) : Z * Z * Z :=
  let z := day + EPOCH_SHIFT in
  let '(yoe, mp, d) := cycle_civil (z mod DAYS_PER_CYCLE) in
  let y := yoe + 400 * (z / DAYS_PER_CYCLE) in
  if mp <? 10 then (y, mp + 3, d) else (y + 1, mp - 9, d).

(** The day number of a civil date; the day of the month may lie outside its
    month, as [Date.UTC] allows. *)
Definition day_of_civil (y m d : Z) : Z :=
  let '(y', mp) := if m <=? 2 then (y - 1, m + 9) else (y, m - 3) in
  DAYS_PER_CYCLE * (y' / 400) + cycle_day (y' mod 400) mp d - EPOCH_SHIFT.

Definition leap (y : Z) : bool :=
  ((y mod 4 =? 0) && negb (y mod 100 =? 0)) || (y mod 400 =? 0).

Definition days_in_month (y m : Z) : Z :=
  if m =? 2 then (if leap y then 29 else 28)
  else if (m =? 4) || (m =? 6) || (m =? 9) || (m =? 11) then 30 else 31.

Definition valid_civil (y m d : Z) : bool :=
  (1 <=? m) && (m <=? 12) && (1 <=? d) && (d <=? days_in_month y m).

(** ** Instants *)

Definition MS_SECOND : Z := 1000.
Definition MS_MINUTE : Z := 60000.
Definition MS_HOUR : Z := 3600000.
Definition MS_DAY : Z := 86400000.
(** The time clip: a valid [Date] lies within 100,000,000 days of the epoch. *)
Definition MAX_TIME : Z := 8640000000000000.

Record utc_fields := UtcFields {
  f_year : Z; f_month : Z; f_day : Z; f_hour : Z; f_minute : Z; f_second : Z; f_ms : Z
}.

Definition utc_of (t : Z) : utc_fields :=
  let '(y, m, d) := civil_of_day (t / MS_DAY) in
  let r := t mod MS_DAY in
  UtcFields y m d (r / MS_HOUR) (r / MS_MINUTE mod 60) (r / MS_SECOND mod 60) (r mod MS_SECOND).

(** [Date.UTC(y, m - 1, d, h, mi, s, ms)] with a month that may overflow. *)
Definition date_utc (y m d h mi s ms : Z) : Z :=
  let y' := y + (m - 1) / 12 in
  let m' := (m - 1) mod 12 + 1 in
  day_of_civil y' m' d * MS_DAY + h * MS_HOUR + mi * MS_MINUTE + s * MS_SECOND + ms.

(** [getUTCDay]: 0 is Sunday. *)
Definition weekday_of_day (day : Z) : Z := (day + 4) mod 7.

(** ** toISOString *)

Fixpoint pad (w : nat) (n : Z) : jsstr :=
  match w with
  | O => []
  | S w => pad w (n / 10) ++ [(48 + Z.to_N (n mod 10))%N]
  end.

Definition year_text (y : Z) : jsstr :=
  if (0 <=? y) && (y <=? 9999) then pad 4 y
  else if y <? 0 then 45%N :: pad 6 (- y) else 43%N :: pad 6 y.

Definition iso_text (f : utc_fields) : jsstr :=
  year_text (f_year f) ++ 45%N :: pad 2 (f_month f) ++ 45%N :: pad 2 (f_day f) ++ 84%N ::
  pad 2 (f_hour f) ++ 58%N :: pad 2 (f_minute f) ++ 58%N :: pad 2 (f_second f) ++ 46%N ::
  pad 3 (f_ms f) ++ [90%N].

Definition toISOString (t : Z) : jsstr := iso_text (utc_of t).

(** ** The calendar round trip *)

Fixpoint all_from (f : Z -> bool) (n : nat) (z : Z) : bool :=
  match n with O => true | S n => f z && all_from f n (Z.succ z) end.

Lemma all_from_spec f n : forall z, all_from f n z = true ->
  forall i, z <= i < z + Z.of_nat n -> f i = true.
Proof.
  induction n as [|n IH]; intros z H i Hi; [lia|]. simpl in H. b2p.
  destruct (decide (i = z)) as [->|]; [done|]. apply (IH (Z.succ z)); [done|lia].
Qed.

(** Every day of a year that starts in March has its month and day. *)
Definition march_ok (doy : Z) : bool :=
  let mp := (5 * doy + 2) / 153 in
  let d := doy - (153 * mp + 2) / 5 + 1 in
  (0 <=? mp) && (mp <? 12) && (1 <=? d) &&
  (if mp <? 10 then d <=? days_in_month 0 (mp + 3)
   else if mp =? 10 then d <=? 31 else d <=? (if doy =? 365 then 29 else 28)).

Lemma march_ok_all doy : 0 <= doy < 366 -> march_ok doy = true.
Proof. intros Hr. apply (all_from_spec _ 366 0); [vm_compute; reflexivity|lia]. Qed.

Lemma days_in_month_year m y y' : m <> 2 -> days_in_month y m = days_in_month y' m.
Proof. intros H. unfold days_in_month. destruct (m =? 2) eqn:E; b2p; [lia|done]. Qed.

Lemma days_in_month_period y m k : days_in_month (y + 400 * k) m = days_in_month y m.
Proof.
  unfold days_in_month, leap.
  replace ((y + 400 * k) mod 4) with (y mod 4) by (symmetry; replace (400 * k) with ((100 * k) * 4) by lia; apply Z_mod_plus_full).
  replace ((y + 400 * k) mod 100) with (y mod 100) by (symmetry; replace (400 * k) with ((4 * k) * 100) by lia; apply Z_mod_plus_full).
  replace ((y + 400 * k) mod 400) with (y mod 400) by (symmetry; replace (400 * k) with (k * 400) by lia; apply Z_mod_plus_full).
  done.
Qed.

Lemma valid_civil_spec y m d :
  valid_civil y m d = true <-> 1 <= m <= 12 /\ 1 <= d <= days_in_month y m.
Proof. unfold valid_civil. rewrite !andb_true_iff, !Z.leb_le. lia. Qed.

Lemma march_valid y doy mp d : 0 <= doy < 366 -> (doy = 365 -> leap (y + 1) = true) ->
  mp = (5 * doy + 2) / 153 -> d = doy - (153 * mp + 2) / 5 + 1 ->
  0 <= mp < 12 /\
  (if mp <? 10 then valid_civil y (mp + 3) d else valid_civil (y + 1) (mp - 9) d) = true.
Proof.
  intros Hd Hl -> ->. pose proof (march_ok_all doy Hd) as H. unfold march_ok in H.
  set (mp := (5 * doy + 2) / 153) in *. set (d := doy - (153 * mp + 2) / 5 + 1) in *. b2p.
  split; [lia|]. destruct (mp <? 10) eqn:E; b2p; apply valid_civil_spec; split; try lia.
  - rewrite (days_in_month_year _ y 0) by lia. lia.
  - destruct (mp =? 10) eqn:E'; b2p; [replace (mp - 9) with 1 by lia; unfold days_in_month; simpl; lia|].
    replace (mp - 9) with 2 by lia. unfold days_in_month. simpl.
    destruct (doy =? 365) eqn:E''; b2p; [rewrite Hl by lia; lia|]. case_match; lia.
Qed.

Lemma leap_in_cycle c q : 0 <= c <= 3 -> 0 <= q <= 24 -> (q = 24 -> c = 3) ->
  leap (100 * c + 4 * q + 3 + 1) = true.
Proof.
  intros Hc Hq Hqc. unfold leap. apply orb_true_iff.
  destruct (decide (q = 24)) as [->|Hne].
  - right. rewrite Hqc by done. done.
  - left. apply andb_true_iff. rewrite negb_true_iff, Z.eqb_eq, Z.eqb_neq.
    split; Z.to_euclidean_division_equations; lia.
Qed.

Lemma cycle_civil_spec doe : 0 <= doe < DAYS_PER_CYCLE ->
  exists yoe mp d, cycle_civil doe = (yoe, mp, d) /\ cycle_day yoe mp d = doe /\
    0 <= yoe < 400 /\ 0 <= mp < 12 /\
    (if mp <? 10 then valid_civil yoe (mp + 3) d else valid_civil (yoe + 1) (mp - 9) d) = true.
Proof.
  intros Hr. unfold DAYS_PER_CYCLE in Hr. unfold cycle_civil.
  set (c := Z.min 3 (doe / 36524)). set (dc := doe - 36524 * c).
  assert (Hc : 0 <= c <= 3 /\ 0 <= dc <= 36524 /\ (dc = 36524 -> c = 3))
    by (unfold dc, c; Z.to_euclidean_division_equations; lia).
  set (q := dc / 1461). set (dq := dc - 1461 * q).
  assert (Hq : 0 <= q <= 24 /\ 0 <= dq <= 1460) by (unfold dq, q; Z.to_euclidean_division_equations; lia).
  set (y := Z.min 3 (dq / 365)). set (doy := dq - 365 * y).
  assert (Hy : 0 <= y <= 3 /\ 0 <= doy < 366 /\ (doy = 365 -> y = 3 /\ dq = 1460))
    by (unfold doy, y; Z.to_euclidean_division_equations; lia).
  eexists _, _, _. split; [reflexivity|].
  assert (H4 : (100 * c + 4 * q + y) / 4 = 25 * c + q) by (symmetry; apply (Z.div_unique _ _ _ y); lia).
  assert (H100 : (100 * c + 4 * q + y) / 100 = c) by (symmetry; apply (Z.div_unique _ _ _ (4 * q + y)); lia).
  split; [unfold cycle_day; rewrite H4, H100; unfold doy, dq, dc; lia|]. split; [lia|].
  apply (march_valid _ doy); [lia| |done..]. intros H365. destruct (proj2 (proj2 Hy) H365) as [E3 Edq].
  rewrite E3. apply leap_in_cycle; [lia..|]. intros ->. unfold dq in Edq. lia.
Qed.

Lemma days_in_month_le y m : days_in_month y m <= 31.
Proof. unfold days_in_month. repeat case_match; lia. Qed.

Lemma civil_of_day_valid day y m d :
  civil_of_day day = (y, m, d) -> day_of_civil y m d = day /\ valid_civil y m d = true.
Proof.
  unfold civil_of_day. set (z := day + EPOCH_SHIFT).
  destruct (cycle_civil_spec (z mod DAYS_PER_CYCLE)) as (yoe & mp & d' & -> & Hd & Hy & Hm & Hv);
    [apply Z.mod_pos_bound; unfold DAYS_PER_CYCLE; lia|].
  assert (Hz : DAYS_PER_CYCLE * (z / DAYS_PER_CYCLE) + z mod DAYS_PER_CYCLE = z)
    by (symmetry; apply Z_div_mod_eq_full).
  set (q := z / DAYS_PER_CYCLE) in *.
  assert (Hq : (yoe + 400 * q) / 400 = q) by (symmetry; apply (Z.div_unique _ _ _ yoe); lia).
  assert (Hr : (yoe + 400 * q) mod 400 = yoe) by (symmetry; apply (Z.mod_unique _ _ q); lia).
  destruct (mp <? 10) eqn:Hmp; intros [= <- <- <-]; b2p; unfold day_of_civil.
  - rewrite (proj2 (Z.leb_gt _ _)) by lia. replace (mp + 3 - 3) with mp by lia.
    rewrite Hq, Hr, Hd. unfold z in *. split; [lia|].
    apply valid_civil_spec. rewrite days_in_month_period. by apply valid_civil_spec.
  - rewrite (proj2 (Z.leb_le _ _)) by lia. replace (mp - 9 + 9) with mp by lia.
    replace (yoe + 400 * q + 1 - 1) with (yoe + 400 * q) by lia.
    rewrite Hq, Hr, Hd. unfold z in *. split; [lia|].
    apply valid_civil_spec. replace (yoe + 400 * q + 1) with (yoe + 1 + 400 * q) by lia.
    rewrite days_in_month_period. by apply valid_civil_spec.
Qed.

Lemma civil_of_day_inj a b : civil_of_day a = civil_of_day b -> a = b.
Proof.
  destruct (civil_of_day a) as [[y m] d] eqn:Ha. intros Hb. symmetry in Hb.
  apply civil_of_day_valid in Ha as [<- _]. by apply civil_of_day_valid in Hb as [<- _].
Qed.

(** ** Instants from fields *)

Lemma utc_of_fields t : let f := utc_of t in
  date_utc (f_year f) (f_month f) (f_day f) (f_hour f) (f_minute f) (f_second f) (f_ms f) = t /\
  valid_civil (f_year f) (f_month f) (f_day f) = true /\
  0 <= f_hour f < 24 /\ 0 <= f_minute f < 60 /\ 0 <= f_second f < 60 /\ 0 <= f_ms f < 1000.
Proof.
  unfold utc_of. destruct (civil_of_day (t / MS_DAY)) as [[y m] d] eqn:Hc. simpl.
  apply civil_of_day_valid in Hc as [Hd Hv].
  assert (1 <= m <= 12) by (apply valid_civil_spec in Hv; lia).
  unfold date_utc. rewrite Z.div_small, Z.mod_small by lia.
  replace (y + 0) with y by lia. replace (m - 1 + 1) with m by lia.
  split_and!; try done; rewrite ?Hd; unfold MS_DAY, MS_HOUR, MS_MINUTE, MS_SECOND in *;
    Z.to_euclidean_division_equations; lia.
Qed.

Lemma utc_of_inj s t : utc_of s = utc_of t -> s = t.
Proof.
  intros H. destruct (utc_of_fields s) as [<- _]. destruct (utc_of_fields t) as [<- _].
  by rewrite H.
Qed.

(** ** Printing *)

Lemma length_pad w n : length (pad w n) = w.
Proof. revert n. induction w as [|w IH]; intros n; simpl; [done|]. rewrite length_app, IH. simpl. lia. Qed.

Lemma pad_inj w : forall a b, 0 <= a < 10 ^ Z.of_nat w -> 0 <= b < 10 ^ Z.of_nat w ->
  pad w a = pad w b -> a = b.
Proof.
  induction w as [|w IH]; intros a b Ha Hb H; [simpl in *; lia|].
  rewrite Nat2Z.inj_succ, Z.pow_succ_r in Ha, Hb by lia. simpl in H.
  apply app_inj_tail in H as [H1 H2].
  assert (a / 10 = b / 10) by (apply IH; [Z.to_euclidean_division_equations; lia..|done]).
  assert (a mod 10 = b mod 10) by (Z.to_euclidean_division_equations; lia).
  rewrite (Z_div_mod_eq_full a 10), (Z_div_mod_eq_full b 10). lia.
Qed.

Lemma pad_digits w n : Forall is_digit (pad w n).
Proof.
  revert n. induction w as [|w IH]; intros n; simpl; [constructor|].
  apply Forall_app. split; [done|]. apply Forall_singleton. unfold is_digit.
  pose proof (Z.mod_pos_bound n 10 ltac:(lia)). lia.
Qed.

Lemma cons_tl (x y : N) (l m : jsstr) : x :: l = y :: m -> l = m.
Proof. by intros [= _ ->]. Qed.

Lemma year_text_prefix a b r s : -1000000 < a < 1000000 -> -1000000 < b < 1000000 ->
  year_text a ++ r = year_text b ++ s -> a = b /\ r = s.
Proof.
  intros Ha Hb. unfold year_text.
  assert (Hhd : forall w n c (l m : jsstr), ~ is_digit c -> pad (S w) n ++ l <> c :: m).
  { intros w n c l m Hc E. pose proof (pad_digits (S w) n) as F. pose proof (length_pad (S w) n) as L.
    destruct (pad (S w) n) as [|x p]; [done|]. simplify_eq/=. by apply Forall_cons in F as [? _]. }
  assert (H45 : ~ is_digit 45%N) by (unfold is_digit; lia).
  assert (H43 : ~ is_digit 43%N) by (unfold is_digit; lia).
  destruct ((0 <=? a) && (a <=? 9999)) eqn:Ca, ((0 <=? b) && (b <=? 9999)) eqn:Cb; intros H.
  - b2p. apply app_inj_1 in H as [H ->]; [|by rewrite !length_pad].
    split; [|done]. apply (pad_inj 4); [lia..|done].
  - case_match; exfalso; by eapply Hhd, H.
  - symmetry in H. case_match; exfalso; by eapply Hhd, H.
  - apply andb_false_iff in Ca, Cb. rewrite !Z.leb_gt in Ca, Cb.
    destruct (a <? 0) eqn:Na, (b <? 0) eqn:Nb; b2p; try done;
      apply cons_tl in H; (apply app_inj_1 in H as [H ->]; [|by rewrite !length_pad]);
      (split; [|done]); apply (pad_inj 6) in H; change (10 ^ Z.of_nat 6) with 1000000; lia.
Qed.

Lemma pad_prefix w a b r s : 0 <= a < 10 ^ Z.of_nat w -> 0 <= b < 10 ^ Z.of_nat w ->
  pad w a ++ r = pad w b ++ s -> a = b /\ r = s.
Proof.
  intros Ha Hb H. apply app_inj_1 in H as [H ->]; [|by rewrite !length_pad].
  split; [by eapply pad_inj|done].
Qed.

(** A valid [Date] has a year of at most six digits. *)
Lemma year_bound t : - MAX_TIME <= t <= MAX_TIME -> -1000000 < f_year (utc_of t) < 1000000.
Proof.
  intros Ht. unfold utc_of.
  assert (Hd : -100000000 <= t / MS_DAY <= 100000000)
    by (unfold MAX_TIME, MS_DAY in *; Z.to_euclidean_division_equations; lia).
  destruct (civil_of_day (t / MS_DAY)) as [[y m] d] eqn:E. simpl.
  unfold civil_of_day in E. set (z := t / MS_DAY + EPOCH_SHIFT) in E.
  destruct (cycle_civil_spec (z mod DAYS_PER_CYCLE)) as (yoe & mp & d' & H & _ & Hy & _);
    [apply Z.mod_pos_bound; unfold DAYS_PER_CYCLE; lia|]. rewrite H in E.
  assert (-1000 <= z / DAYS_PER_CYCLE <= 1000)
    by (unfold z, EPOCH_SHIFT, DAYS_PER_CYCLE in *; Z.to_euclidean_division_equations; lia).
  case_match; simplify_eq/=; lia.
Qed.

Definition fields_ok (f : utc_fields) : Prop :=
  -1000000 < f_year f < 1000000 /\ 0 <= f_month f < 100 /\ 0 <= f_day f < 100 /\
  0 <= f_hour f < 24 /\ 0 <= f_minute f < 60 /\ 0 <= f_second f < 60 /\ 0 <= f_ms f < 1000.

Lemma utc_fields_ok t : - MAX_TIME <= t <= MAX_TIME -> fields_ok (utc_of t).
Proof.
  intros Ht. pose proof (year_bound t Ht). destruct (utc_of_fields t) as (_ & V & ? & ? & ? & ?).
  apply valid_civil_spec in V as [? ?].
  pose proof (days_in_month_le (f_year (utc_of t)) (f_month (utc_of t))).
  unfold fields_ok. split_and!; lia.
Qed.

Lemma iso_text_inj f g : fields_ok f -> fields_ok g -> iso_text f = iso_text g -> f = g.
Proof.
  intros (? & ? & ? & ? & ? & ? & ?) (? & ? & ? & ? & ? & ? & ?) E. unfold iso_text in E.
  apply year_text_prefix in E as [E1 E]; [|done..]. apply cons_tl in E.
  apply pad_prefix in E as [E2 E]; [|change (10 ^ Z.of_nat 2) with 100; lia..]. apply cons_tl in E.
  apply pad_prefix in E as [E3 E]; [|change (10 ^ Z.of_nat 2) with 100; lia..]. apply cons_tl in E.
  apply pad_prefix in E as [E4 E]; [|change (10 ^ Z.of_nat 2) with 100; lia..]. apply cons_tl in E.
  apply pad_prefix in E as [E5 E]; [|change (10 ^ Z.of_nat 2) with 100; lia..]. apply cons_tl in E.
  apply pad_prefix in E as [E6 E]; [|change (10 ^ Z.of_nat 2) with 100; lia..]. apply cons_tl in E.
  apply pad_prefix in E as [E7 _]; [|change (10 ^ Z.of_nat 3) with 1000; lia..].
  destruct f, g; simpl in *. congruence.
Qed.

Lemma toISOString_inj s t : - MAX_TIME <= s <= MAX_TIME -> - MAX_TIME <= t <= MAX_TIME ->
  toISOString s = toISOString t -> s = t.
Proof.
  unfold toISOString. intros Hs Ht H.
  apply iso_text_inj in H; [|apply utc_fields_ok; assumption..]. apply utc_of_inj. exact H.
Qed.

Lemma iso_sample : toISOString 1767225600000 = js "2026-01-01T00:00:00.000Z" /\
  toISOString (-62198755200001) = js "-000002-12-31T23:59:59.999Z".
Proof. split; vm_compute; reflexivity. Qed.

(** ** Civil dates back to days *)

(** Every month of a year that starts in March, day by day. *)
Definition march_inv_ok (mp d : Z) : bool :=
  let doy := (153 * mp + 2) / 5 + d - 1 in
  ((5 * doy + 2) / 153 =? mp) && (0 <=? doy) && (doy <? 366) && (if doy =? 365 then (mp =? 11) && (d =? 29) else true).

Definition march_len (mp : Z) : Z := if mp <? 10 then days_in_month 0 (mp + 3) else if mp =? 10 then 31 else 29.

Lemma march_inv_all mp d : 0 <= mp < 12 -> 1 <= d <= march_len mp -> march_inv_ok mp d = true.
Proof.
  intros Hm Hd.
  assert (H : all_from (fun mp => all_from (march_inv_ok mp) (Z.to_nat (march_len mp)) 1) 12 0 = true)
    by (vm_compute; reflexivity).
  pose proof (all_from_spec _ _ _ H mp ltac:(lia)) as H'. simpl in H'.
  apply (all_from_spec _ _ _ H' d). rewrite Z2Nat.id; [lia|]. unfold march_len in *. repeat case_match; try lia.
Qed.

Lemma cycle_day_civil yoe mp d : 0 <= yoe < 400 -> 0 <= mp < 12 -> 1 <= d <= march_len mp ->
  (mp = 11 -> d = 29 -> leap (yoe + 1) = true) ->
  0 <= cycle_day yoe mp d < DAYS_PER_CYCLE /\ cycle_civil (cycle_day yoe mp d) = (yoe, mp, d).
Proof.
  intros Hy Hm Hd Hl. pose proof (march_inv_all mp d Hm Hd) as H. unfold march_inv_ok in H.
  set (doy := (153 * mp + 2) / 5 + d - 1) in *. b2p.
  set (c := yoe / 100). set (q := (yoe mod 100) / 4). set (y := yoe mod 4).
  assert (Hdec : yoe = 100 * c + 4 * q + y /\ 0 <= c <= 3 /\ 0 <= q <= 24 /\ 0 <= y <= 3 /\ yoe / 4 = 25 * c + q /\ yoe / 100 = c)
    by (unfold c, q, y; Z.to_euclidean_division_equations; lia).
  destruct Hdec as (Hdec & Hc & Hq & Hy3 & H4 & H100).
  assert (Hleap : doy = 365 -> y = 3 /\ (q = 24 -> c = 3)).
  { intros E. rewrite E in *. simpl in *. b2p. specialize (Hl ltac:(lia) ltac:(lia)).
    unfold leap in Hl. apply orb_true_iff in Hl as [[H5 H6]%andb_true_iff|H5].
    - apply negb_true_iff in H6. b2p. split; [Z.to_euclidean_division_equations; lia|]. intros ->.
      Z.to_euclidean_division_equations; lia.
    - b2p. split; Z.to_euclidean_division_equations; lia. }
  assert (Hcd : cycle_day yoe mp d = 36524 * c + (1461 * q + (365 * y + doy)))
    by (unfold cycle_day; rewrite H4, H100; unfold doy; lia).
  rewrite Hcd. set (r1 := 365 * y + doy). set (r2 := 1461 * q + r1).
  assert (Hr1 : 0 <= r1 <= 1460) by (unfold r1; lia).
  assert (Hr2 : 0 <= r2 <= 36524 /\ (r2 = 36524 -> c = 3)) by (unfold r2, r1 in *; lia).
  split; [unfold DAYS_PER_CYCLE; lia|]. unfold cycle_civil.
  assert (E1 : Z.min 3 ((36524 * c + r2) / 36524) = c) by (Z.to_euclidean_division_equations; lia).
  rewrite E1. replace (36524 * c + r2 - 36524 * c) with r2 by lia.
  assert (E2 : r2 / 1461 = q) by (symmetry; apply (Z.div_unique _ _ _ r1); unfold r2; lia).
  rewrite E2. replace (r2 - 1461 * q) with r1 by (unfold r2; lia).
  assert (E3 : Z.min 3 (r1 / 365) = y) by (unfold r1; Z.to_euclidean_division_equations; lia).
  rewrite E3. replace (r1 - 365 * y) with doy by (unfold r1; lia).
  replace ((5 * doy + 2) / 153) with mp by lia. f_equal; [f_equal; lia|unfold doy; lia].
Qed.

Lemma civil_day_civil y m d : valid_civil y m d = true -> civil_of_day (day_of_civil y m d) = (y, m, d).
Proof.
  intros [Hm Hd]%valid_civil_spec. unfold day_of_civil.
  set (ym := if m <=? 2 then (y - 1, m + 9) else (y, m - 3)).
  destruct ym as [y' mp] eqn:Eym. unfold ym in Eym.
  assert (Hmp : 0 <= mp < 12 /\ 1 <= d <= march_len mp /\ (mp = 11 -> d = 29 -> leap (y' + 1) = true)).
  { destruct (m <=? 2) eqn:E; b2p; injection Eym as <- <-.
    - split; [lia|]. unfold march_len. rewrite (proj2 (Z.ltb_ge _ _)) by lia.
      destruct (m + 9 =? 10) eqn:E1; b2p.
      + replace m with 1 in * by lia. unfold days_in_month in Hd. simpl in Hd. split; lia.
      + replace m with 2 in * by lia. unfold days_in_month in Hd. simpl in Hd.
        replace (y - 1 + 1) with y by lia. destruct (leap y); split; try lia; intros; try done; lia.
    - split; [lia|]. unfold march_len. rewrite (proj2 (Z.ltb_lt _ _)) by lia. split; [|lia].
      replace (m - 3 + 3) with m by lia. by rewrite (days_in_month_year m 0 y) by lia. }
  destruct Hmp as (Hmp & Hd' & Hl). set (yoe := y' mod 400). set (era := y' / 400).
  assert (Hy' : y' = 400 * era + yoe /\ 0 <= yoe < 400)
    by (unfold yoe, era; Z.to_euclidean_division_equations; lia). destruct Hy' as [Hy' Hyoe].
  destruct (cycle_day_civil yoe mp d Hyoe Hmp Hd') as [Hb Hc].
  { intros E1 E2. rewrite <- (Hl E1 E2), Hy'. unfold leap.
    replace (400 * era + yoe + 1) with (yoe + 1 + era * 400) by lia.
    replace ((yoe + 1 + era * 400) mod 400) with ((yoe + 1) mod 400) by (by rewrite Z_mod_plus_full).
    replace ((yoe + 1 + era * 400) mod 100) with ((yoe + 1) mod 100)
      by (replace (era * 400) with ((era * 4) * 100) by lia; by rewrite Z_mod_plus_full).
    replace ((yoe + 1 + era * 400) mod 4) with ((yoe + 1) mod 4)
      by (replace (era * 400) with ((era * 100) * 4) by lia; by rewrite Z_mod_plus_full). done. }
  unfold civil_of_day. set (cd := cycle_day yoe mp d) in *.
  replace (DAYS_PER_CYCLE * era + cd - EPOCH_SHIFT + EPOCH_SHIFT) with (DAYS_PER_CYCLE * era + cd) by lia.
  assert (E1 : (DAYS_PER_CYCLE * era + cd) / DAYS_PER_CYCLE = era) by (symmetry; apply (Z.div_unique _ _ _ cd); lia).
  assert (E2 : (DAYS_PER_CYCLE * era + cd) mod DAYS_PER_CYCLE = cd) by (symmetry; apply (Z.mod_unique _ _ era); lia).
  rewrite E1, E2, Hc. destruct (m <=? 2) eqn:E; b2p; injection Eym as Ey Em.
  - rewrite (proj2 (Z.ltb_ge _ _)) by lia. repeat f_equal; lia.
  - rewrite (proj2 (Z.ltb_lt _ _)) by lia. repeat f_equal; lia.
Qed.

Lemma day_of_civil_add y m d k : day_of_civil y m (d + k) = day_of_civil y m d + k.
Proof. unfold day_of_civil, cycle_day. case_match. lia. Qed.

(** The day after, in civil terms. *)
Definition next_civil (y m d : Z) : Z * Z * Z :=
  if d <? days_in_month y m then (y, m, d + 1) else if m <? 12 then (y, m + 1, 1) else (y + 1, 1, 1).

Lemma next_civil_valid y m d : valid_civil y m d = true ->
  let '(y', m', d') := next_civil y m d in
  valid_civil y' m' d' = true /\ day_of_civil y' m' d' = day_of_civil y m d + 1.
Proof.
  intros [Hm Hd]%valid_civil_spec. unfold next_civil.
  assert (Hpos : forall a b, 28 <= days_in_month a b) by (intros; unfold days_in_month; repeat case_match; lia).
  destruct (d <? days_in_month y m) eqn:E; b2p.
  - split; [apply valid_civil_spec; lia|]. apply day_of_civil_add.
  - assert (Ed : d = days_in_month y m) by lia. subst d.
    destruct (m <? 12) eqn:E12; b2p; (split; [apply valid_civil_spec; pose proof (Hpos y (m + 1));
      pose proof (Hpos (y + 1) 1); lia|]).
    + unfold day_of_civil, cycle_day, days_in_month, leap, DAYS_PER_CYCLE.
      assert (Hcases : m = 1 \/ m = 2 \/ m = 3 \/ m = 4 \/ m = 5 \/ m = 6 \/ m = 7 \/ m = 8 \/ m = 9 \/ m = 10 \/ m = 11) by lia.
      destruct Hcases as [->|[->|[->|[->|[->|[->|[->|[->|[->|[->| ->]]]]]]]]]]; simpl; try lia; try (Z.to_euclidean_division_equations; lia).
      destruct ((y mod 4 =? 0) && negb (y mod 100 =? 0) || (y mod 400 =? 0)) eqn:L.
      * apply orb_true_iff in L as [[L1 L2]%andb_true_iff|L]; [apply negb_true_iff in L2|]; b2p;
          Z.to_euclidean_division_equations; lia.
      * apply orb_false_iff in L as [[L1|L1]%andb_false_iff L2]; [|apply negb_false_iff in L1]; b2p;
          Z.to_euclidean_division_equations; lia.
    + replace m with 12 by lia. unfold day_of_civil, cycle_day, days_in_month. simpl.
      replace (y + 1 - 1) with y by lia. unfold DAYS_PER_CYCLE. Z.to_euclidean_division_equations; lia.
Qed.

Lemma civil_of_day_succ day : civil_of_day (day + 1) =
  let '(y, m, d) := civil_of_day day in next_civil y m d.
Proof.
  destruct (civil_of_day day) as [[y m] d] eqn:E. apply civil_of_day_valid in E as [<- Hv].
  pose proof (next_civil_valid y m d Hv) as Hn. destruct (next_civil y m d) as [[y' m'] d'].
  destruct Hn as [Hv' <-]. by apply civil_day_civil.
Qed.
