(* ===== verification/DateText.v ===== *)
(** * DateText: calendar dates as text

    Dates as the code stores, matches and compares them: four, two and two
    decimal digits joined by hyphens.  Shared by the daily roots and by the
    business calendars. *)

From S2P Require Import Prelude JsNum DateTime.

Local Open Scope Z_scope.

(** ** Digits *)

Definition digitb (c : N) : bool := ((48 <=? c) && (c <=? 57))%N.

(** The value of a string of decimal digits. *)
Definition digits_val (l : jsstr) : Z := foldl (fun acc c => 10 * acc + (Z.of_N c - 48)) 0 l.

(** ** Dates in order *)

Lemma str_ltb_app_same l a b : str_ltb (l ++ a) (l ++ b) = str_ltb a b.
Proof. induction l as [|x l IH]; simpl; [done|]. by rewrite N.eqb_refl. Qed.

Lemma str_ltb_app_lt l l' a b : length l = length l' -> str_ltb l l' = true -> str_ltb (l ++ a) (l' ++ b) = true.
Proof.
  revert l'. induction l as [|x l IH]; intros [|y l'] Hl; simpl in *; try done.
  destruct (N.eqb x y); [|done]. apply IH. lia.
Qed.

Lemma pad_lt w : forall a b, 0 <= a -> a < b -> b < 10 ^ Z.of_nat w -> str_ltb (pad w a) (pad w b) = true.
Proof.
  induction w as [|w IH]; intros a b Ha Hab Hb; [simpl in *; lia|].
  rewrite Nat2Z.inj_succ, Z.pow_succ_r in Hb by lia. cbn [pad].
  destruct (decide (a / 10 = b / 10)) as [E|E].
  - rewrite E, str_ltb_app_same. simpl.
    assert (a mod 10 < b mod 10) by (Z.to_euclidean_division_equations; lia).
    assert (0 <= a mod 10) by (Z.to_euclidean_division_equations; lia).
    rewrite (proj2 (N.eqb_neq _ _)) by lia. apply N.ltb_lt. lia.
  - apply str_ltb_app_lt; [by rewrite !length_pad|]. apply IH; Z.to_euclidean_division_equations; lia.
Qed.

Lemma digits_val_pad w : forall n, 0 <= n < 10 ^ Z.of_nat w -> digits_val (pad w n) = n.
Proof.
  induction w as [|w IH]; intros n Hn; [simpl in *; cbn; lia|].
  rewrite Nat2Z.inj_succ, Z.pow_succ_r in Hn by lia. cbn [pad]. unfold digits_val in *.
  rewrite foldl_snoc, IH by (Z.to_euclidean_division_equations; lia).
  pose proof (Z.mod_pos_bound n 10 ltac:(lia)). rewrite N2Z.inj_add, Z2N.id by lia.
  Z.to_euclidean_division_equations; lia.
Qed.

Lemma digitb_pad w n : forallb digitb (pad w n) = true.
Proof.
  apply forallb_forall. intros c Hc%list_elem_of_In. pose proof (pad_digits w n) as H.
  rewrite Forall_forall in H. specialize (H c Hc). unfold is_digit, digitb in *.
  apply andb_true_iff. rewrite !N.leb_le. lia.
Qed.

(** The days whose year has four digits, up to the year 9600. *)
Definition DAY_LIMIT : Z := 2786860.
Definition ok_day (day : Z) : Prop := 0 <= day < DAY_LIMIT.

Definition date_text (day : Z) : jsstr :=
  let '(y, m, d) := civil_of_day day in pad 4 y ++ 45%N :: pad 2 m ++ 45%N :: pad 2 d.

Lemma ok_day_civil day : ok_day day -> exists y m d, civil_of_day day = (y, m, d) /\
  0 <= y <= 9999 /\ 1 <= m <= 12 /\ 1 <= d <= 31 /\ day_of_civil y m d = day.
Proof.
  intros Hd. destruct (civil_of_day day) as [[y m] d] eqn:E. exists y, m, d. split; [done|].
  pose proof (civil_of_day_valid _ _ _ _ E) as [Hday [Hm Hd']%valid_civil_spec].
  pose proof (days_in_month_le y m). split_and!; try lia; [|].
  all: unfold civil_of_day in E; set (z := day + EPOCH_SHIFT) in E;
    destruct (cycle_civil_spec (z mod DAYS_PER_CYCLE)) as (yoe & mp & d' & H' & _ & Hy & _);
    [apply Z.mod_pos_bound; unfold DAYS_PER_CYCLE; lia|]; rewrite H' in E;
    assert (4 <= z / DAYS_PER_CYCLE <= 23)
      by (unfold ok_day, DAY_LIMIT, z, EPOCH_SHIFT, DAYS_PER_CYCLE in *; Z.to_euclidean_division_equations; lia);
    case_match; simplify_eq/=; lia.
Qed.

(** [toISOString().slice(0, 10)] *)
Lemma iso_date_text t : ok_day (t / MS_DAY) -> take 10 (toISOString t) = date_text (t / MS_DAY).
Proof.
  intros Hd. destruct (ok_day_civil _ Hd) as (y & m & d & E & Hy & _). unfold toISOString, iso_text, utc_of, date_text.
  rewrite E. cbn [f_year f_month f_day]. unfold year_text.
  rewrite (proj2 (Z.leb_le 0 y)), (proj2 (Z.leb_le y 9999)) by lia. cbn [andb].
  match goal with |- take 10 (?a ++ 45%N :: ?b ++ 45%N :: ?c ++ ?r) = _ =>
    replace (a ++ 45%N :: b ++ 45%N :: c ++ r) with ((a ++ 45%N :: b ++ 45%N :: c) ++ r) end.
  - apply take_app_length'. rewrite !length_app. cbn [length]. rewrite !length_app. cbn [length]. by rewrite !length_pad.
  - by rewrite <- !app_assoc; cbn [app]; rewrite <- !app_assoc.
Qed.

Lemma date_text_succ day : ok_day day -> ok_day (day + 1) -> str_ltb (date_text day) (date_text (day + 1)) = true.
Proof.
  intros H1 H2. destruct (ok_day_civil _ H1) as (y & m & d & E & Hy & Hm & Hd & Hday).
  destruct (ok_day_civil _ H2) as (y' & m' & d' & E' & Hy' & Hm' & Hd' & Hday').
  unfold date_text. rewrite E'. rewrite civil_of_day_succ, E in E'. rewrite E. unfold next_civil in E'.
  destruct (d <? days_in_month y m); [|destruct (m <? 12)]; injection E' as <- <- <-.
  - rewrite str_ltb_app_same. cbn [str_ltb]. rewrite N.eqb_refl, str_ltb_app_same. cbn [str_ltb].
    rewrite N.eqb_refl. apply pad_lt; simpl; lia.
  - rewrite str_ltb_app_same. cbn [str_ltb]. rewrite N.eqb_refl. apply str_ltb_app_lt; [by rewrite !length_pad|].
    apply pad_lt; simpl; lia.
  - apply str_ltb_app_lt; [by rewrite !length_pad|]. apply pad_lt; simpl; lia.
Qed.

Lemma date_text_lt a b : ok_day a -> ok_day b -> a < b -> str_ltb (date_text a) (date_text b) = true.
Proof.
  intros Ha Hb Hlt. replace b with (a + Z.of_nat (Z.to_nat (b - a))) in Hb |- * by lia.
  assert (Hk : (0 < Z.to_nat (b - a))%nat) by lia. clear Hlt. revert Hb Hk. generalize (Z.to_nat (b - a)).
  intros n Hb Hn. induction n as [|n IH]; [lia|]. destruct n as [|n].
  - by apply date_text_succ.
  - assert (Hb' : ok_day (a + Z.of_nat (S n))) by (unfold ok_day in *; lia).
    eapply str_ltb_trans; [apply IH; [done|lia]|].
    replace (a + Z.of_nat (S (S n))) with (a + Z.of_nat (S n) + 1) in * by lia. by apply date_text_succ.
Qed.

(** ** Numbers as text *)

(** [String(n)] of an integer. *)
Definition int_str (z : Z) : jsstr := if z <? 0 then 45%N :: dec_str (Z.to_N (- z)) else dec_str (Z.to_N z).

(** [s.padStart(w, "0")] *)
Definition padStart (w : nat) (s : jsstr) : jsstr := replicate (w - length s) 48%N ++ s.

Lemma padStart_2 n : 0 <= n <= 99 -> padStart 2 (int_str n) = pad 2 n.
Proof.
  intros Hn. assert (H : all_from (fun n => bool_decide (padStart 2 (int_str n) = pad 2 n)) 100 0 = true) by (vm_compute; reflexivity).
  by apply (bool_decide_eq_true _), (all_from_spec _ _ _ H n); lia.
Qed.

Lemma padStart_4 n : 0 <= n <= 9999 -> padStart 4 (int_str n) = pad 4 n.
Proof.
  intros Hn. assert (H : all_from (fun n => bool_decide (padStart 4 (int_str n) = pad 4 n)) (Z.to_nat 10000) 0 = true) by (vm_compute; reflexivity).
  by apply (bool_decide_eq_true _), (all_from_spec _ _ _ H n); lia.
Qed.

(** ** The pattern of a date: four, two and two digits *)

Definition ymd_match (s : jsstr) : option (Z * Z * Z) :=
  match s with
  | [a; b; c; d; h; e; f; h'; g; i] =>
      if forallb digitb [a; b; c; d; e; f; g; i] && N.eqb h 45 && N.eqb h' 45
      then Some (digits_val [a; b; c; d], digits_val [e; f], digits_val [g; i]) else None
  | _ => None
  end.

Lemma ymd_match_pad y m d : 0 <= y <= 9999 -> 0 <= m <= 99 -> 0 <= d <= 99 ->
  ymd_match (pad 4 y ++ 45%N :: pad 2 m ++ 45%N :: pad 2 d) = Some (y, m, d).
Proof.
  intros Hy Hm Hd. transitivity (if forallb digitb (pad 4 y ++ pad 2 m ++ pad 2 d) && true && true
    then Some (digits_val (pad 4 y), digits_val (pad 2 m), digits_val (pad 2 d)) else None); [reflexivity|].
  rewrite !forallb_app, !digitb_pad, !digits_val_pad by (simpl; lia). reflexivity.
Qed.

Lemma ymd_match_range s y m d : ymd_match s = Some (y, m, d) -> 0 <= y <= 9999 /\ 0 <= m <= 99 /\ 0 <= d <= 99.
Proof.
  unfold ymd_match. do 11 (destruct s as [|? s]; try done).
  destruct (forallb _ _ && _ && _) eqn:E; [|done]. apply andb_prop in E as [[E _]%andb_prop _].
  cbn [forallb] in E. unfold digitb in E. rewrite !andb_true_iff, !N.leb_le in E. intros [= <- <- <-].
  cbn. lia.
Qed.

(** A date of the pattern is the text of its three numbers. *)
Lemma digits_pad s : forallb digitb s = true -> pad (length s) (digits_val s) = s.
Proof.
  induction s as [|c s IH] using rev_ind; [done|]. rewrite forallb_app, length_app. cbn [length forallb].
  rewrite Nat.add_comm. cbn [Nat.add pad]. intros [Hs Hc]%andb_prop. rewrite andb_true_r in Hc.
  unfold digitb in Hc. rewrite andb_true_iff, !N.leb_le in Hc. unfold digits_val. rewrite foldl_snoc.
  fold (digits_val s). set (v := digits_val s) in *.
  assert (E1 : (10 * v + (Z.of_N c - 48)) / 10 = v) by (symmetry; apply (Z.div_unique _ _ _ (Z.of_N c - 48)); lia).
  assert (E2 : (10 * v + (Z.of_N c - 48)) mod 10 = Z.of_N c - 48) by (symmetry; apply (Z.mod_unique _ _ v); lia).
  rewrite E1, E2, IH by done. do 2 f_equal. lia.
Qed.

Lemma ymd_match_text s y m d : ymd_match s = Some (y, m, d) -> s = pad 4 y ++ 45%N :: pad 2 m ++ 45%N :: pad 2 d.
Proof.
  unfold ymd_match. do 11 (destruct s as [|? s]; try done).
  destruct (forallb _ _ && _ && _) eqn:E; [|done].
  apply andb_prop in E as [[E ->%N.eqb_eq]%andb_prop ->%N.eqb_eq].
  match type of E with forallb _ [?a; ?b; ?c; ?d; ?e; ?f; ?g; ?h] = true =>
    change (forallb digitb ([a; b; c; d] ++ [e; f] ++ [g; h]) = true) in E end.
  rewrite !forallb_app, !andb_true_iff in E. destruct E as (E1 & E2 & E3).
  intros [= <- <- <-]. apply digits_pad in E1, E2, E3. cbn [length] in *. by rewrite E1, E2, E3.
Qed.

(** ** [Date.parse] of what [toISOString] writes *)

(** The instants with a four-digit year from 1970 on. *)
Definition ok_time (t : Z) : Prop := ok_day (t / MS_DAY).
#[export] Instance ok_time_dec t : Decision (ok_time t).
Proof. unfold ok_time, ok_day. apply _. Defined.

Definition iso_parse (s : jsstr) : option Z :=
  '(y, m, d) ← ymd_match (take 10 s);
  match drop 10 s with
  | [t; a; b; c1; c; e; c2; f; g; dot; i; j; k; z] =>
      let h := digits_val [a; b] in let mi := digits_val [c; e] in let sec := digits_val [f; g] in
      if forallb digitb [a; b; c; e; f; g; i; j; k] && N.eqb t 84 && N.eqb c1 58 && N.eqb c2 58 && N.eqb dot 46 && N.eqb z 90 &&
         valid_civil y m d && (h <? 24) && (mi <? 60) && (sec <? 60)
      then Some (date_utc y m d h mi sec (digits_val [i; j; k])) else None
  | _ => None
  end.

Lemma iso_parse_text t : ok_time t -> iso_parse (toISOString t) = Some t.
Proof.
  intros Ht. destruct (utc_of_fields t) as (Hd & Hv & Hh & Hmi & Hs & Hms).
  destruct (ok_day_civil _ Ht) as (y & m & d & Hc & Hy & Hm & Hdd). unfold toISOString, iso_text.
  assert (Hf : f_year (utc_of t) = y /\ f_month (utc_of t) = m /\ f_day (utc_of t) = d) by (unfold utc_of; by rewrite Hc).
  destruct (utc_of t) as [fy fm fd fh fmi fs fms]. cbn [f_year f_month f_day f_hour f_minute f_second f_ms] in *.
  destruct Hf as (-> & -> & ->). unfold year_text.
  replace ((0 <=? y) && (y <=? 9999)) with true by (symmetry; apply andb_true_intro; split; apply Z.leb_le; lia).
  transitivity ('(y', m', d') ← ymd_match (pad 4 y ++ 45%N :: pad 2 m ++ 45%N :: pad 2 d);
    if forallb digitb (pad 2 fh ++ pad 2 fmi ++ pad 2 fs ++ pad 3 fms) && true && true && true && true && true &&
       valid_civil y' m' d' && (digits_val (pad 2 fh) <? 24) && (digits_val (pad 2 fmi) <? 60) && (digits_val (pad 2 fs) <? 60)
    then Some (date_utc y' m' d' (digits_val (pad 2 fh)) (digits_val (pad 2 fmi)) (digits_val (pad 2 fs)) (digits_val (pad 3 fms)))
    else None); [reflexivity|].
  rewrite ymd_match_pad by lia. cbn [mbind option_bind].
  rewrite !forallb_app, !digitb_pad, !digits_val_pad by (cbn; lia). rewrite Hv.
  rewrite !(proj2 (Z.ltb_lt _ _)) by lia. cbn. by rewrite Hd.
Qed.
