(* ===== verification/ZonedTime.v ===== *)
(** * ZonedTime: wall clocks in named zones
      (apps/orchestrator/src/lib/zoned-time.ts)

    The one RFC 5545 converter of the box, the local parts of an instant and
    the arithmetic on calendar dates.  The zone database is the runtime's
    ([Intl.DateTimeFormat]): a parameter, the class [Intl].  A [Date] is an
    [option Z], [None] for an Invalid Date; NaN is [None] likewise. *)

From S2P Require Import Prelude JsNum DateTime DateText.

Local Open Scope Z_scope.

(** ** The runtime's zone database *)

Class Intl := {
  (** [new Intl.DateTimeFormat("en-US", { timeZone }).resolvedOptions().timeZone],
      [None] when the constructor throws. *)
  intl_resolve : jsstr -> option jsstr;
  (** [formatToParts] of a valid instant in a zone it resolves: the numeric
      parts by type. *)
  intl_parts : jsstr -> Z -> list (jsstr * Z)
}.

Inductive ZonedError :=
| InvalidTimeZone | InvalidTimeValue | NotAYmd | NotACalendarDate | NotAnIanaZone
| InvalidInstant | UnreadableParts | MinuteOutOfRange | UnresolvedZone.

#[export] Instance ZonedError_eq_dec : EqDecision ZonedError.
Proof. solve_decision. Defined.

Abbreviation date := (option Z).

(** [new Date(ms)]: the time clip. *)
Definition TimeClip (z : Z) : date := if (- MAX_TIME <=? z) && (z <=? MAX_TIME) then Some z else None.

(** [Date.UTC(y, mo - 1, d, h, mi, s)]: the years 0 to 99 are read as 1900 to
    1999; a NaN argument gives NaN. *)
Definition Date_UTC (y mo d h mi s : option Z) : option Z :=
  match y, mo, d, h, mi, s with
  | Some y, Some mo, Some d, Some h, Some mi, Some s =>
      TimeClip (date_utc (if (0 <=? y) && (y <=? 99) then 1900 + y else y) mo d h mi s 0)
  | _, _, _, _, _, _ => None
  end.

Section zoned.
Context `{Intl}.

(** ** Instants and wall clocks *)

(** [zoneFormatter(tz).formatToParts(d)] *)
Definition formatToParts (tz : jsstr) (d : date) : result ZonedError (list (jsstr * Z)) :=
  match intl_resolve tz with
  | None => Throw InvalidTimeZone
  | Some _ => match d with None => Throw InvalidTimeValue | Some t => Ok (intl_parts tz t) end
  end.

Definition timeZoneOffsetMs (utcInstantMs : option Z) (tz : jsstr) : result ZonedError (option Z) :=
  let! parts := formatToParts tz (utcInstantMs ≫= TimeClip) in
  let field ty := alookup (js ty) parts in
  let asIfUtc := Date_UTC (field "year"%string) (field "month"%string) (field "day"%string)
                          (field "hour"%string) (field "minute"%string) (field "second"%string) in
  Ok (a ← asIfUtc; t ← utcInstantMs; Some (a - t)).

(** [.filter((instant) => timeZoneOffsetMs(instant, tz) === wallAsUtc - instant)]
    on the candidates [wallAsUtc - off]; a comparison with NaN is false. *)
Fixpoint valid_candidates (wallAsUtc : Z) (tz : jsstr) (offs : list (option Z)) : result ZonedError (list Z) :=
  match offs with
  | [] => Ok []
  | off :: rest =>
      let instant := (fun o => wallAsUtc - o) <$> off in
      let! got := timeZoneOffsetMs instant tz in
      let! more := valid_candidates wallAsUtc tz rest in
      Ok match got, instant with
         | Some g, Some i => if g =? wallAsUtc - i then i :: more else more
         | _, _ => more
         end
  end.

Definition zonedWallClockToUtc (y mo d h mi s : Z) (tz : jsstr) : result ZonedError date :=
  let wall := Date_UTC (Some y) (Some mo) (Some d) (Some h) (Some mi) (Some s) in
  let probe k := timeZoneOffsetMs ((fun w => w + k) <$> wall) tz in
  match wall, probe (- MS_DAY), probe MS_DAY with
  | Some w, Ok offsetBefore, Ok offsetAfter =>
      let! valid := valid_candidates w tz
        (if decide (offsetBefore = offsetAfter) then [offsetBefore] else [offsetBefore; offsetAfter]) in
      Ok (match valid with
          | v :: vs => TimeClip (foldl Z.min v vs)
          | [] => offsetBefore ≫= fun o => TimeClip (w - o)
          end)
  | _, _, _ => Ok None
  end.

(** ** Zones *)

Definition is_alpha (c : N) : bool := ((65 <=? c) && (c <=? 90) || (97 <=? c) && (c <=? 122))%N.

(** [/^[A-Za-z]/.test(s)] *)
Definition starts_alpha (s : jsstr) : bool := match s with c :: _ => is_alpha c | [] => false end.

Definition isValidIanaZone (tz : jsstr) : bool :=
  if Nat.eqb (length tz) 0 || Nat.ltb 64 (length tz) then false
  else match intl_resolve tz with
       | None => false
       | Some resolved => starts_alpha resolved && starts_alpha tz
       end.

Definition canonicalZone (tz : jsstr) : result ZonedError jsstr :=
  if isValidIanaZone tz then
    match intl_resolve tz with Some r => Ok r | None => Throw InvalidTimeZone end
  else Throw NotAnIanaZone.

(** ** Calendar dates *)

Definition pad2 (n : Z) : jsstr := padStart 2 (int_str n).

(** The fields of an Invalid Date are NaN. *)
Definition ymdOfUtcDate (d : date) : jsstr :=
  match d with
  | None => js "0NaN-NaN-NaN"
  | Some t => let f := utc_of t in
      padStart 4 (int_str (f_year f)) ++ 45%N :: pad2 (f_month f) ++ 45%N :: pad2 (f_day f)
  end.

(** A date at 00:00 UTC after [setUTCFullYear(y, m - 1, d)], where the day may overflow. *)
Definition setUTCFullYear_midnight (y m d : Z) : date := TimeClip (date_utc y m d 0 0 0 0).

Definition isCalendarYmd (ymd : jsstr) : bool :=
  match ymd_match ymd with
  | None => false
  | Some (y, mo, d) =>
      if (y <? 1) || (mo <? 1) || (mo >? 12) || (d <? 1) || (d >? 31) then false
      else bool_decide (ymdOfUtcDate (setUTCFullYear_midnight y mo d) = ymd)
  end.

Definition parseYmd (ymd : jsstr) : result ZonedError (Z * Z * Z) :=
  match ymd_match ymd with
  | None => Throw NotAYmd
  | Some (y, mo, d) => if isCalendarYmd ymd then Ok (y, mo, d) else Throw NotACalendarDate
  end.

(** 1 is Monday, 7 Sunday.  A parsed date has four digits of year, so the
    date is never invalid. *)
Definition isoWeekdayOf (ymd : jsstr) : result ZonedError Z :=
  let! '(y, m, d) := parseYmd ymd in
  match setUTCFullYear_midnight y m d with
  | Some t => let wd := weekday_of_day (t / MS_DAY) in Ok (if wd =? 0 then 7 else wd)
  | None => Throw InvalidTimeValue
  end.

(** The count is an integer here, so the [Number.isInteger] guard holds. *)
Definition ymdAddDays (ymd : jsstr) (n : Z) : result ZonedError jsstr :=
  let! '(y, m, d) := parseYmd ymd in
  Ok (ymdOfUtcDate (setUTCFullYear_midnight y m (d + n))).

Record LocalParts := mkLocalParts { lp_ymd : jsstr; lp_isoWeekday : Z; lp_minuteOfDay : Z }.

Definition localPartsOf (instant : date) (tz : jsstr) : result ZonedError LocalParts :=
  match instant with
  | None => Throw InvalidInstant
  | Some ms =>
      let! parts := formatToParts tz instant in
      let field ty := alookup (js ty) parts in
      match field "year"%string, field "month"%string, field "day"%string, field "hour"%string, field "minute"%string with
      | Some y, Some mo, Some d, Some h, Some mi =>
          let ymd := padStart 4 (int_str y) ++ 45%N :: pad2 mo ++ 45%N :: pad2 d in
          let! wd := isoWeekdayOf ymd in
          Ok (mkLocalParts ymd wd (h * 60 + mi))
      | _, _, _, _, _ => Throw UnreadableParts
      end
  end.

Definition zonedDateMinuteToUtc (ymd : jsstr) (minute : Z) (tz : jsstr) : result ZonedError Z :=
  if (minute <? 0) || (minute >? 1440) then Throw MinuteOutOfRange else
  let! day := if minute =? 1440 then ymdAddDays ymd 1 else Ok ymd in
  let m := if minute =? 1440 then 0 else minute in
  let! '(y, mo, d) := parseYmd day in
  let! at_ := zonedWallClockToUtc y mo d (m / 60) (m mod 60) 0 tz in
  match at_ with None => Throw UnresolvedZone | Some t => Ok t end.
End zoned.

(** ** Zones that run at an offset *)

Definition EARLY : Z := -100000 * MS_DAY.
Definition LATE : Z := (DAY_LIMIT - 1) * MS_DAY.
(** The instants of the years 1697 to 9599. *)
Definition in_range (t : Z) : Prop := EARLY <= t < LATE.

(** What the runtime documents of a zone: at the instant [t] its wall clock
    shows [t + off t], by whole seconds, less than a day from UTC. *)
Record zone_runs `{Intl} (tz : jsstr) (off : Z -> Z) : Prop := {
  zr_resolves : is_Some (intl_resolve tz);
  zr_bound : forall t, - MS_DAY < off t < MS_DAY;
  zr_second : forall t, off t mod MS_SECOND = 0;
  zr_year : forall t, in_range t -> alookup (js "year") (intl_parts tz t) = Some (f_year (utc_of (t + off t)));
  zr_month : forall t, in_range t -> alookup (js "month") (intl_parts tz t) = Some (f_month (utc_of (t + off t)));
  zr_day : forall t, in_range t -> alookup (js "day") (intl_parts tz t) = Some (f_day (utc_of (t + off t)));
  zr_hour : forall t, in_range t -> alookup (js "hour") (intl_parts tz t) = Some (f_hour (utc_of (t + off t)));
  zr_minute : forall t, in_range t -> alookup (js "minute") (intl_parts tz t) = Some (f_minute (utc_of (t + off t)));
  zr_sec : forall t, in_range t -> alookup (js "second") (intl_parts tz t) = Some (f_second (utc_of (t + off t)))
}.

(** Between two instants the clocks of a zone change at most once: at [T], from
    [o1] to [o2] (no change when [o1 = o2]). *)
Definition one_change (off : Z -> Z) (T o1 o2 a b : Z) : Prop :=
  a < T <= b /\ forall t, a <= t <= b -> off t = if t <? T then o1 else o2.

(** The converter's answer for the wall clock [w], in terms of the offsets. *)
Definition wall_instant (off : Z -> Z) (w : Z) : Z :=
  let ob := off (w - MS_DAY) in let oa := off (w + MS_DAY) in
  if off (w - ob) =? ob then if off (w - oa) =? oa then Z.min (w - ob) (w - oa) else w - ob
  else if off (w - oa) =? oa then w - oa else w - ob.

Lemma year_range day y m d : -135080 <= day < DAY_LIMIT -> civil_of_day day = (y, m, d) -> 1600 <= y <= 9999.
Proof.
  intros Hd E. unfold civil_of_day in E. set (z := day + EPOCH_SHIFT) in E.
  destruct (cycle_civil_spec (z mod DAYS_PER_CYCLE)) as (yoe & mp & d' & H' & _ & Hy & _);
    [apply Z.mod_pos_bound; unfold DAYS_PER_CYCLE; lia|]. rewrite H' in E.
  assert (4 <= z / DAYS_PER_CYCLE <= 23)
    by (unfold DAY_LIMIT, z, EPOCH_SHIFT, DAYS_PER_CYCLE in *; Z.to_euclidean_division_equations; lia).
  case_match; simplify_eq/=; lia.
Qed.

Lemma TimeClip_small z : -100001 * MS_DAY <= z < DAY_LIMIT * MS_DAY -> TimeClip z = Some z.
Proof.
  intros Hz. unfold TimeClip. rewrite !(proj2 (Z.leb_le _ _)) by (unfold DAY_LIMIT, MS_DAY, MAX_TIME in *; lia). done.
Qed.

(** A wall clock read as UTC, to the second. *)
Lemma Date_UTC_fields x : -100001 * MS_DAY <= x < DAY_LIMIT * MS_DAY -> x mod MS_SECOND = 0 -> let f := utc_of x in
  Date_UTC (Some (f_year f)) (Some (f_month f)) (Some (f_day f)) (Some (f_hour f)) (Some (f_minute f)) (Some (f_second f))
  = Some x.
Proof.
  intros Hx Hs. pose proof (utc_of_fields x) as Hf. cbv zeta in *.
  assert (Hy : 1600 <= f_year (utc_of x) <= 9999).
  { unfold utc_of. destruct (civil_of_day (x / MS_DAY)) as [[y m] d] eqn:E. cbn [f_year].
    apply (year_range (x / MS_DAY) y m d); [|done]. unfold MS_DAY, DAY_LIMIT in *. Z.to_euclidean_division_equations; lia. }
  assert (Hms : f_ms (utc_of x) = 0) by (unfold utc_of; case_match; case_match; cbn [f_ms];
    unfold MS_SECOND, MS_DAY in *; Z.to_euclidean_division_equations; lia).
  destruct Hf as [Hf _]. rewrite Hms in Hf. unfold Date_UTC.
  rewrite (proj2 (Z.leb_gt (f_year (utc_of x)) 99)), andb_false_r, Hf by lia. by apply TimeClip_small.
Qed.

Section offsets.
Context `{Intl} (tz : jsstr) (off : Z -> Z).
Hypothesis Hz : zone_runs tz off.

Lemma formatToParts_in t : in_range t -> formatToParts tz (TimeClip t) = Ok (intl_parts tz t).
Proof.
  intros Ht. unfold formatToParts. destruct (zr_resolves _ _ Hz) as [r ->].
  rewrite TimeClip_small; [done|]. unfold in_range, EARLY, LATE, MS_DAY in *. lia.
Qed.

Lemma wall_range t : in_range t -> -100001 * MS_DAY <= t + off t < DAY_LIMIT * MS_DAY.
Proof. pose proof (zr_bound _ _ Hz t). unfold in_range, EARLY, LATE, MS_DAY in *. lia. Qed.

Lemma timeZoneOffsetMs_in t : in_range t -> t mod MS_SECOND = 0 -> timeZoneOffsetMs (Some t) tz = Ok (Some (off t)).
Proof.
  intros Ht Hs. pose proof (zr_second _ _ Hz t) as Ho. unfold timeZoneOffsetMs. cbn [mbind option_bind].
  rewrite formatToParts_in by done. cbn [rbind].
  rewrite (zr_year _ _ Hz), (zr_month _ _ Hz), (zr_day _ _ Hz), (zr_hour _ _ Hz), (zr_minute _ _ Hz), (zr_sec _ _ Hz) by done.
  rewrite Date_UTC_fields; [simpl; do 2 f_equal; lia|by apply wall_range|].
  unfold MS_SECOND in *. Z.to_euclidean_division_equations; lia.
Qed.

(** A wall clock whose conversion stays inside the range. *)
Definition wall_ok (w : Z) : Prop := EARLY + 2 * MS_DAY <= w < LATE - 2 * MS_DAY /\ w mod MS_SECOND = 0.

Lemma wall_instant_near w : w - MS_DAY < wall_instant off w < w + MS_DAY.
Proof.
  unfold wall_instant. pose proof (zr_bound _ _ Hz (w - MS_DAY)). pose proof (zr_bound _ _ Hz (w + MS_DAY)).
  repeat case_match; lia.
Qed.

Lemma candidate_ok w t : wall_ok w -> in_range (w - off t) /\ (w - off t) mod MS_SECOND = 0.
Proof.
  intros [Hw Hs]. pose proof (zr_bound _ _ Hz t). pose proof (zr_second _ _ Hz t).
  split; [unfold in_range, LATE, EARLY, MS_DAY in *; lia|]. unfold MS_SECOND in *. Z.to_euclidean_division_equations; lia.
Qed.

Lemma valid_candidates_cons w o os vs : wall_ok w -> (exists t, o = off t) -> valid_candidates w tz os = Ok vs ->
  valid_candidates w tz (Some o :: os) = Ok (if off (w - o) =? o then (w - o) :: vs else vs).
Proof.
  intros Hw [t ->] Hos. destruct (candidate_ok w t Hw) as [Hr Hs]. cbn [valid_candidates fmap option_fmap option_map].
  rewrite timeZoneOffsetMs_in, Hos by done. cbn [rbind]. by replace (w - (w - off t)) with (off t) by lia.
Qed.

(** The code computes [wall_instant]. *)
Lemma zonedWallClockToUtc_in y mo d h mi s w :
  Date_UTC (Some y) (Some mo) (Some d) (Some h) (Some mi) (Some s) = Some w -> wall_ok w ->
  zonedWallClockToUtc y mo d h mi s tz = Ok (Some (wall_instant off w)).
Proof.
  intros HU Hw. unfold zonedWallClockToUtc. rewrite HU. cbn [fmap option_fmap option_map].
  assert (Hp : forall k, k = - MS_DAY \/ k = MS_DAY -> timeZoneOffsetMs (Some (w + k)) tz = Ok (Some (off (w + k)))).
  { intros k Hk. destruct Hw as [Hw Hs]. apply timeZoneOffsetMs_in.
    - unfold in_range, LATE, EARLY, MS_DAY in *. lia.
    - unfold MS_DAY, MS_SECOND in *. Z.to_euclidean_division_equations; lia. }
  rewrite !Hp by auto. change (w + - MS_DAY) with (w - MS_DAY).
  assert (Hc : forall v, w - MS_DAY < v < w + MS_DAY -> TimeClip v = Some v).
  { intros v Hv. apply TimeClip_small. destruct Hw as [Hw _]. unfold LATE, EARLY, MS_DAY in *. lia. }
  pose proof (zr_bound _ _ Hz (w - MS_DAY)). pose proof (zr_bound _ _ Hz (w + MS_DAY)).
  assert (Hn : valid_candidates w tz [] = Ok []) by done. unfold wall_instant.
  destruct (decide (Some (off (w - MS_DAY)) = Some (off (w + MS_DAY)))) as [[= E]|E].
  - rewrite (valid_candidates_cons _ _ _ _ Hw (ex_intro _ _ eq_refl) Hn). cbn [rbind]. rewrite <- E.
    destruct (off (w - off (w - MS_DAY)) =? off (w - MS_DAY)); cbn [foldl mbind option_bind]; rewrite Hc by lia; [|done].
    by rewrite Z.min_id.
  - pose proof (valid_candidates_cons _ _ _ _ Hw (ex_intro _ (w + MS_DAY) eq_refl) Hn) as Hv.
    rewrite (valid_candidates_cons _ _ _ _ Hw (ex_intro _ _ eq_refl) Hv). cbn [rbind].
    destruct (off (w - off (w - MS_DAY)) =? off (w - MS_DAY)), (off (w - off (w + MS_DAY)) =? off (w + MS_DAY));
      cbn [foldl mbind option_bind]; rewrite Hc by lia; done.
Qed.

(** With at most one change around it: a wall clock is read at the offset
    before the change unless both readings fall after it. *)
Lemma wall_instant_formula T o1 o2 a b w : one_change off T o1 o2 a b -> a <= w - MS_DAY -> w + MS_DAY <= b ->
  wall_instant off w = if (w - o1 <? T) || (w - o2 <? T) then w - o1 else w - o2.
Proof.
  intros [HT Hoff] Ha Hb.
  assert (H1 : - MS_DAY < o1 < MS_DAY).
  { pose proof (zr_bound _ _ Hz a) as B. rewrite (Hoff a) in B by lia. by rewrite (proj2 (Z.ltb_lt _ _)) in B by lia. }
  assert (H2 : - MS_DAY < o2 < MS_DAY).
  { pose proof (zr_bound _ _ Hz b) as B. rewrite (Hoff b) in B by lia. by rewrite (proj2 (Z.ltb_ge _ _)) in B by lia. }
  assert (Hd : 0 < MS_DAY) by (unfold MS_DAY; lia). unfold wall_instant.
  rewrite (Hoff (w - MS_DAY)), (Hoff (w + MS_DAY)) by lia.
  destruct (w - MS_DAY <? T) eqn:E1, (w + MS_DAY <? T) eqn:E2; rewrite !Hoff by lia;
    destruct (w - o1 <? T) eqn:E3, (w - o2 <? T) eqn:E4; b2p; cbn [orb]; repeat case_match; b2p; lia.
Qed.

(** Wall clocks of different dates are resolved in order, unless the clocks
    are put forward so near midnight that the skipped times, read at the old
    offset, reach the next date. *)
Definition skip_within_day (T o1 o2 : Z) : Prop :=
  o1 < o2 -> (T + o1) / MS_DAY = (T + 2 * o2 - o1 - 1) / MS_DAY.

Definition calm_at (x : Z) : Prop :=
  exists T o1 o2, one_change off T o1 o2 (x - 3 * MS_DAY) (x + 3 * MS_DAY) /\ skip_within_day T o1 o2.

Lemma wall_instant_days w1 w2 k : w1 < k * MS_DAY <= w2 -> calm_at (k * MS_DAY) ->
  wall_instant off w1 <= wall_instant off w2.
Proof.
  intros Hw (T & o1 & o2 & Hc & Hs). assert (Hd : 0 < MS_DAY) by (unfold MS_DAY; lia).
  destruct (Z_lt_le_dec (w2 - w1) (2 * MS_DAY)) as [Hn|Hf].
  - rewrite !(wall_instant_formula _ _ _ _ _ _ Hc) by lia.
    destruct (w1 - o1 <? T) eqn:E1, (w1 - o2 <? T) eqn:E2, (w2 - o1 <? T) eqn:E3, (w2 - o2 <? T) eqn:E4;
      b2p; cbn [orb]; try lia.
    destruct (Z_le_gt_dec (w1 - o1) (w2 - o2)) as [|Hgt]; [done|exfalso].
    specialize (Hs ltac:(lia)). assert ((T + o1) / MS_DAY < k) by (apply Z.div_lt_upper_bound; lia).
    assert (k <= (T + 2 * o2 - o1 - 1) / MS_DAY) by (apply Z.div_le_lower_bound; lia). lia.
  - pose proof (wall_instant_near w1). pose proof (wall_instant_near w2). lia.
Qed.

(** The first instant at which the wall clock shows [w]. *)
Lemma wall_instant_first T o1 o2 w : one_change off T o1 o2 (w - MS_DAY) (w + MS_DAY) ->
  let t := wall_instant off w in
  ((exists u, u + off u = w) -> t + off t = w /\ forall u, u + off u = w -> t <= u) /\
  ((forall u, u + off u <> w) -> t = w - o1 /\ T <= t /\ T + o1 <= w < T + o2).
Proof.
  intros Hc. pose proof (wall_instant_formula _ _ _ _ _ w Hc ltac:(lia) ltac:(lia)) as E.
  pose proof (wall_instant_near w) as Hn. destruct Hc as [HT Hoff]. cbv zeta.
  assert (Hu : forall u, u + off u = w -> u = (if u <? T then w - o1 else w - o2)).
  { intros u Hu. pose proof (zr_bound _ _ Hz u). rewrite (Hoff u) in Hu by lia. case_match; lia. }
  rewrite (Hoff (wall_instant off w)) by lia. rewrite E in *. split.
  - intros [u Hw]. pose proof (Hu u Hw) as Eu. split.
    + destruct (w - o1 <? T) eqn:E1, (w - o2 <? T) eqn:E2; cbn [orb]; repeat case_match; b2p; lia.
    + intros v Hv%Hu. destruct (w - o1 <? T) eqn:E1, (w - o2 <? T) eqn:E2; cbn [orb]; repeat case_match; b2p; lia.
  - intros Hnone.
    assert (N1 : T <= w - o1 \/ w + MS_DAY < w - o1 \/ w - o1 < w - MS_DAY).
    { destruct (Z_lt_le_dec (w - o1) T); [|lia]. destruct (Z_le_gt_dec (w - MS_DAY) (w - o1)); [|lia].
      exfalso. apply (Hnone (w - o1)). rewrite Hoff by lia. rewrite (proj2 (Z.ltb_lt _ _)) by lia. lia. }
    destruct (w - o1 <? T) eqn:E1, (w - o2 <? T) eqn:E2; cbn [orb] in *; b2p; try lia.
    exfalso. apply (Hnone (w - o2)). rewrite Hoff by lia. rewrite (proj2 (Z.ltb_ge _ _)) by lia. lia.
Qed.
End offsets.

(** ** Dates of four-digit years *)

Lemma date_utc_civil y m d : 1 <= m <= 12 -> date_utc y m d 0 0 0 0 = day_of_civil y m d * MS_DAY.
Proof. intros Hm. unfold date_utc. rewrite Z.div_small, Z.mod_small by lia. rewrite (Z.add_0_r y), Z.sub_add. lia. Qed.

Lemma utc_of_day n : utc_of (n * MS_DAY) = let '(y, m, d) := civil_of_day n in UtcFields y m d 0 0 0 0.
Proof.
  unfold utc_of. rewrite Z.div_mul, Z.mod_mul by done. by destruct (civil_of_day n) as [[y m] d].
Qed.

Lemma ok_day_clip n : ok_day n -> TimeClip (n * MS_DAY) = Some (n * MS_DAY).
Proof. intros Hn. apply TimeClip_small. unfold ok_day, DAY_LIMIT, MS_DAY in *. lia. Qed.

Lemma civil_text y m d : 0 <= y <= 9999 -> 1 <= m <= 12 -> 1 <= d <= 31 ->
  padStart 4 (int_str y) ++ 45%N :: pad2 m ++ 45%N :: pad2 d = pad 4 y ++ 45%N :: pad 2 m ++ 45%N :: pad 2 d.
Proof. intros. unfold pad2. by rewrite padStart_4, !padStart_2 by lia. Qed.

Lemma ymdOfUtcDate_day n : ok_day n -> ymdOfUtcDate (Some (n * MS_DAY)) = date_text n.
Proof.
  intros Hn. destruct (ok_day_civil n Hn) as (y & m & d & E & Hy & Hm & Hd & _).
  unfold ymdOfUtcDate, date_text. rewrite utc_of_day, E. by apply civil_text.
Qed.

Lemma date_text_match n : ok_day n -> ymd_match (date_text n) = Some (civil_of_day n).
Proof.
  intros Hn. destruct (ok_day_civil n Hn) as (y & m & d & E & Hy & Hm & Hd & _).
  unfold date_text. rewrite E. apply ymd_match_pad; lia.
Qed.

Lemma set_year_day n y m d k : ok_day n -> ok_day (n + k) -> civil_of_day n = (y, m, d) ->
  setUTCFullYear_midnight y m (d + k) = Some ((n + k) * MS_DAY).
Proof.
  intros Hn Hk E. apply civil_of_day_valid in E as [Hd [Hm _]%valid_civil_spec].
  unfold setUTCFullYear_midnight. rewrite date_utc_civil, day_of_civil_add, Hd by done. by apply ok_day_clip.
Qed.

Lemma isCalendarYmd_day n : ok_day n -> isCalendarYmd (date_text n) = true.
Proof.
  intros Hn. destruct (ok_day_civil n Hn) as (y & m & d & E & Hy & Hm & Hd & _).
  unfold isCalendarYmd. rewrite date_text_match, E by done.
  assert (1600 <= y) by (apply (year_range n y m d); [unfold ok_day in Hn; lia|done]).
  rewrite !(proj2 (Z.ltb_ge _ _)), !Z.gtb_ltb, !(proj2 (Z.ltb_ge _ _)) by lia. cbn [orb].
  apply bool_decide_eq_true. pose proof (set_year_day n y m d 0) as Hs. rewrite !Z.add_0_r in Hs.
  rewrite (Hs Hn Hn E). by apply ymdOfUtcDate_day.
Qed.

Lemma parseYmd_day n : ok_day n -> parseYmd (date_text n) = Ok (civil_of_day n).
Proof.
  intros Hn. unfold parseYmd. rewrite date_text_match, isCalendarYmd_day by done. by destruct (civil_of_day n) as [[y m] d].
Qed.

Lemma isoWeekdayOf_day n : ok_day n -> exists wd, isoWeekdayOf (date_text n) = Ok wd.
Proof.
  intros Hn. unfold isoWeekdayOf. rewrite parseYmd_day by done. destruct (civil_of_day n) as [[y m] d] eqn:E.
  cbn [rbind]. pose proof (set_year_day n y m d 0) as Hs. rewrite !Z.add_0_r in Hs. rewrite (Hs Hn Hn E). eauto.
Qed.

Lemma ymdAddDays_day n k : ok_day n -> ok_day (n + k) -> ymdAddDays (date_text n) k = Ok (date_text (n + k)).
Proof.
  intros Hn Hk. unfold ymdAddDays. rewrite parseYmd_day by done. destruct (civil_of_day n) as [[y m] d] eqn:E.
  cbn [rbind]. by rewrite (set_year_day n y m d k), ymdOfUtcDate_day.
Qed.

Section local.
Context `{Intl} (tz : jsstr) (off : Z -> Z).
Hypothesis Hz : zone_runs tz off.

(** The local date of an instant. *)
Lemma localPartsOf_ymd t : in_range t -> ok_day ((t + off t) / MS_DAY) ->
  exists p, localPartsOf (TimeClip t) tz = Ok p /\ lp_ymd p = date_text ((t + off t) / MS_DAY).
Proof.
  intros Ht Hd. pose proof (formatToParts_in tz off Hz t Ht) as Hf.
  assert (HT : TimeClip t = Some t) by (apply TimeClip_small; unfold in_range, EARLY, LATE, MS_DAY in *; lia).
  rewrite HT in *. unfold localPartsOf. rewrite Hf. cbn [rbind].
  rewrite (zr_year _ _ Hz), (zr_month _ _ Hz), (zr_day _ _ Hz), (zr_hour _ _ Hz), (zr_minute _ _ Hz) by done.
  destruct (ok_day_civil _ Hd) as (y & m & d & E & Hy & Hm & Hdd & _).
  assert (HE : date_text ((t + off t) / MS_DAY) = padStart 4 (int_str y) ++ 45%N :: pad2 m ++ 45%N :: pad2 d)
    by (unfold date_text; rewrite E, civil_text by done; done).
  assert (F : f_year (utc_of (t + off t)) = y /\ f_month (utc_of (t + off t)) = m /\ f_day (utc_of (t + off t)) = d)
    by (unfold utc_of; rewrite E; done).
  destruct F as (-> & -> & ->). rewrite <- HE.
  destruct (isoWeekdayOf_day _ Hd) as [wd ->]. cbn [rbind]. by eexists.
Qed.

(** The instant of a minute of a local day. *)
Lemma zonedDateMinuteToUtc_day n minute : ok_day n -> ok_day (n + 1) -> ok_day (n + 4) -> 0 <= minute <= 1440 ->
  zonedDateMinuteToUtc (date_text n) minute tz = Ok (wall_instant off (n * MS_DAY + minute * MS_MINUTE)).
Proof.
  intros Hn Hn1 Hn4 Hm. unfold zonedDateMinuteToUtc.
  rewrite (proj2 (Z.ltb_ge _ _)), Z.gtb_ltb, (proj2 (Z.ltb_ge _ _)) by lia. cbn [orb].
  set (day := if minute =? 1440 then n + 1 else n). set (mm := if minute =? 1440 then 0 else minute).
  assert (Hday : ok_day day /\ ok_day (day + 3) /\ 0 <= mm < 1440 /\ n * MS_DAY + minute * MS_MINUTE = day * MS_DAY + mm * MS_MINUTE).
  { unfold day, mm. unfold ok_day, MS_DAY, MS_MINUTE in *. destruct (minute =? 1440) eqn:E; b2p; lia. }
  destruct Hday as (Hok & Hok3 & Hmm & ->).
  assert (E : (if minute =? 1440 then ymdAddDays (date_text n) 1 else Ok (date_text n)) = Ok (date_text day)).
  { unfold day. destruct (minute =? 1440); [by apply ymdAddDays_day|done]. }
  rewrite E. cbn [rbind]. rewrite parseYmd_day by done. destruct (civil_of_day day) as [[y m] d] eqn:Ec. cbn [rbind].
  pose proof (year_range day y m d) as Hy. apply civil_of_day_valid in Ec as Hv. destruct Hv as [Hd [Hmo _]%valid_civil_spec].
  rewrite (zonedWallClockToUtc_in tz off Hz _ _ _ _ _ _ (day * MS_DAY + mm * MS_MINUTE)); [done| |].
  - unfold Date_UTC. rewrite (proj2 (Z.leb_gt y 99)), andb_false_r by (unfold ok_day in *; specialize (Hy ltac:(lia) Ec); lia).
    unfold date_utc. rewrite Z.div_small, Z.mod_small by lia. rewrite (Z.add_0_r y), Z.sub_add, Hd.
    replace (day * MS_DAY + _ + _ + _ + _) with (day * MS_DAY + mm * MS_MINUTE)
      by (unfold MS_HOUR, MS_MINUTE; Z.to_euclidean_division_equations; lia).
    apply TimeClip_small. unfold ok_day, DAY_LIMIT, MS_DAY, MS_MINUTE in *. lia.
  - split.
    + unfold ok_day, LATE, EARLY, MS_DAY, MS_MINUTE, DAY_LIMIT in *. lia.
    + unfold MS_DAY, MS_MINUTE, MS_SECOND. Z.to_euclidean_division_equations; lia.
Qed.
End local.

(** ** A concrete runtime *)

(** A runtime whose zones all run at the offsets [off], as the parts of the
    wall clock that [formatToParts] would give. *)
Definition intl_of (off : Z -> Z) : Intl := {|
  intl_resolve := fun tz => Some tz;
  intl_parts := fun _ t => let f := utc_of (t + off t) in
    [(js "month", f_month f); (js "day", f_day f); (js "year", f_year f);
     (js "hour", f_hour f); (js "minute", f_minute f); (js "second", f_second f)]
|}.

Lemma intl_of_runs off tz : (forall t, - MS_DAY < off t < MS_DAY) -> (forall t, off t mod MS_SECOND = 0) ->
  @zone_runs (intl_of off) tz off.
Proof. intros Hb Hs. split; try done; by eexists. Qed.

(** A change of clocks: New York on 8 March 2026, from five to four hours
    behind UTC at 07:00 UTC. *)
Definition ny_change : Z := 1772953200000.
Definition ny_off (t : Z) : Z := if t <? ny_change then -5 * MS_HOUR else -4 * MS_HOUR.

Lemma ny_runs tz : @zone_runs (intl_of ny_off) tz ny_off.
Proof. apply intl_of_runs; intros t; unfold ny_off; case_match; unfold MS_DAY, MS_HOUR, MS_SECOND; done || lia. Qed.

Lemma ny_one_change a b : a < ny_change <= b -> one_change ny_off ny_change (-5 * MS_HOUR) (-4 * MS_HOUR) a b.
Proof. intros H. by split. Qed.

(** ** The converter follows RFC 5545 *)

(** C38: The wall-clock converter follows RFC 5545, section 3.3.5.  Take a zone
    whose clocks change at most once within a day of the wall clock asked
    for, from [o1] to [o2] at [T].  The conversion succeeds; when some
    instant shows that wall clock, the answer is the first such instant (the
    repeated hour of autumn included), and when none does (the skipped hour
    of spring) it is the reading at the offset before the gap, an instant not
    before the change. *)
Theorem wall_clock_resolves `{Intl} tz off y mo d h mi s w T o1 o2 :
  zone_runs tz off ->
  Date_UTC (Some y) (Some mo) (Some d) (Some h) (Some mi) (Some s) = Some w -> wall_ok w ->
  one_change off T o1 o2 (w - MS_DAY) (w + MS_DAY) ->
  exists t, zonedWallClockToUtc y mo d h mi s tz = Ok (Some t) /\
    ((exists u, u + off u = w) -> t + off t = w /\ forall u, u + off u = w -> t <= u) /\
    ((forall u, u + off u <> w) -> t = w - o1 /\ T <= t /\ T + o1 <= w < T + o2).
Proof.
  intros Hz HU Hw Hc. exists (wall_instant off w). split; [by apply (zonedWallClockToUtc_in tz off Hz)|].
  by apply (wall_instant_first tz off Hz).
Qed.

Definition ny_zone : jsstr := js "America/New_York".

(** 02:30 on the night New York skips it, read at the offset before: 07:30 UTC. *)
Lemma wall_clock_resolves_witness :
  let w := 1772937000000 in
  exists t, @zonedWallClockToUtc (intl_of ny_off) 2026 3 8 2 30 0 ny_zone = Ok (Some t) /\
    ((exists u, u + ny_off u = w) -> t + ny_off t = w /\ forall u, u + ny_off u = w -> t <= u) /\
    ((forall u, u + ny_off u <> w) -> t = w - (-5 * MS_HOUR) /\ ny_change <= t /\
       ny_change + (-5 * MS_HOUR) <= w < ny_change + (-4 * MS_HOUR)).
Proof.
  apply (@wall_clock_resolves (intl_of ny_off) ny_zone ny_off 2026 3 8 2 30 0).
  - apply ny_runs.
  - vm_compute. reflexivity.
  - split; [vm_compute; split; done|done].
  - apply ny_one_change. vm_compute. done.
Defined.
