(* ===== verification/AuditSigning.v ===== *)
(** * AuditSigning: the signed content of an activity row
      (apps/orchestrator/src/services/audit-signing.service.ts)

    The canonical text of a row, the HMAC signer over that text and the
    previous signature's hash, the resolution of the signing key, the retired
    keyring and the epoch rule.

    node:crypto is a parameter: [CryptoOps] has the three digests the file
    calls, [CryptoLaws] what it relies on (the base64url alphabet, and that a
    digest is not the empty string).  No theorem assumes a digest injective. *)

From S2P Require Import Prelude JsNum Json DateTime DateText.

Local Open Scope Z_scope.

(** ** Data *)

(** [severity], [kind] and [actorType] are checked at run time, so they are
    strings here as they are in the running program.  [sub], [actorType] and
    [actorId] read [undefined] as [null]; [refs] keeps the two apart.  An
    invalid [Date] is [None]. *)
Record ActivityRowContent := mkContent {
  c_at : option Z;
  c_severity : jsstr;
  c_sourceIcon : jsstr;
  c_what : jsstr;
  c_sub : option jsstr;
  c_kind : jsstr;
  c_refs : jsval;
  c_actorType : option jsstr;
  c_actorId : option jsstr;
  c_schemaVersion : Z
}.

Inductive AuditError :=
| UnknownSchemaVersion (v : Z)
| InvalidTimeValue
| KeyTooShort (got : nat)
| DiskKeyTooShort (got : nat)
| EnvKeyConflict
| EnvKeyTooShort (got : nat)
| KeyNotFound.

Definition MIN_KEY_BYTES : nat := 32.

(** ** Canonical text *)

Fixpoint sortValue (v : jsval) : jsval :=
  match v with
  | JArr l => JArr (map sortValue l)
  | JObj kvs => JObj (obj_assign (sort_entries (map (fun e => (e.1, sortValue e.2)) kvs)))
  | _ => v
  end.

(** [Date.prototype.toISOString] throws on an invalid date. *)
Definition iso_of (d : option Z) : result AuditError jsstr :=
  match d with Some t => Ok (toISOString t) | None => Throw InvalidTimeValue end.

Definition str_or_null (o : option jsstr) : jsval :=
  match o with Some s => JStr s | None => JNull end.

Definition refs_value (refs : jsval) : jsval :=
  match refs with JUndef => JNull | _ => sortValue refs end.

Definition canonicalizeRowContent (content : ActivityRowContent) : result AuditError jsstr :=
  if c_schemaVersion content =? 1 then
    let! at_ := iso_of (c_at content) in
    Ok (json_stringify (JObj
      [(js "at", JStr at_);
       (js "kind", JStr (c_kind content));
       (js "refs", refs_value (c_refs content));
       (js "severity", JStr (c_severity content));
       (js "sourceIcon", JStr (c_sourceIcon content));
       (js "sub", str_or_null (c_sub content));
       (js "what", JStr (c_what content))]))
  else if c_schemaVersion content =? 2 then
    let! at_ := iso_of (c_at content) in
    Ok (json_stringify (JObj
      [(js "actorId", str_or_null (c_actorId content));
       (js "actorType", str_or_null (c_actorType content));
       (js "at", JStr at_);
       (js "kind", JStr (c_kind content));
       (js "refs", refs_value (c_refs content));
       (js "severity", JStr (c_severity content));
       (js "sourceIcon", JStr (c_sourceIcon content));
       (js "sub", str_or_null (c_sub content));
       (js "what", JStr (c_what content))]))
  else Throw (UnknownSchemaVersion (c_schemaVersion content)).

Definition canonicalRefsJson (refs : jsval) : option jsstr :=
  match refs with
  | JNull | JUndef => None
  | _ => Some (json_stringify (sortValue refs))
  end.

(** ** UTF-8 (the bytes compared by [timingSafeEqual]) *)

Definition utf8_unit (u : N) : list N :=
  (if u <? 128 then [u]
   else if u <? 2048 then [192 + u / 64; 128 + u mod 64]
   else [224 + u / 4096; 128 + u / 64 mod 64; 128 + u mod 64])%N.

Definition utf8_pair (u v : N) : list N :=
  (let c := 65536 + (u - 0xD800) * 1024 + (v - 0xDC00) in
   [240 + c / 262144; 128 + c / 4096 mod 64; 128 + c / 64 mod 64; 128 + c mod 64])%N.

Definition REPLACEMENT : list N := [239; 191; 189]%N.

Fixpoint utf8 (s : jsstr) : list N :=
  match s with
  | [] => []
  | u :: r =>
      if is_high u then
        match r with
        | v :: r' => if is_low v then utf8_pair u v ++ utf8 r' else REPLACEMENT ++ utf8 r
        | [] => REPLACEMENT
        end
      else if is_low u then REPLACEMENT ++ utf8 r
      else utf8_unit u ++ utf8 r
  end.

(** ** Signers *)

Definition b64url (c : N) : Prop :=
  is_digit c \/ (65 <= c <= 90)%N \/ (97 <= c <= 122)%N \/ c = 45%N \/ c = 95%N.

Class CryptoOps := {
  (** [createHmac("sha256", key).update(text, "utf8").digest("base64url")] *)
  hmac_b64 : list N -> jsstr -> jsstr;
  (** [createHash("sha256").update(text, "utf8").digest("base64url")] *)
  sha_b64 : jsstr -> jsstr;
  (** [createHash("sha256").update(bytes).digest("hex")] *)
  sha_hex : list N -> jsstr
}.

Class CryptoLaws `{CryptoOps} : Prop := {
  hmac_b64_chars k m : Forall b64url (hmac_b64 k m);
  hmac_b64_nonempty k m : hmac_b64 k m <> [];
  sha_b64_chars m : Forall b64url (sha_b64 m);
  sha_b64_nonempty m : sha_b64 m <> []
}.

Record ActivityRowSigner := mkSigner {
  sign : ActivityRowContent -> jsstr -> result AuditError jsstr;
  verify : ActivityRowContent -> jsstr -> jsstr -> result AuditError bool
}.

Record AuditKeyEpoch := mkEpoch { keyId : jsstr; signer : ActivityRowSigner }.

Section signing.
Context `{CryptoOps}.

Definition hashSignature (signature : jsstr) : jsstr := sha_b64 signature.

(** The text three [hmac.update] calls feed to the MAC. *)
Definition signed_text (canonical prev : jsstr) : jsstr := canonical ++ 124%N :: prev.

Definition hmac_sign (key : list N) (content : ActivityRowContent) (prev : jsstr)
  : result AuditError jsstr :=
  let! canonical := canonicalizeRowContent content in
  Ok (hmac_b64 key (signed_text canonical prev)).

Definition hmac_verify (key : list N) (content : ActivityRowContent) (prev signature : jsstr)
  : result AuditError bool :=
  let! expected := hmac_sign key content prev in
  let a := utf8 expected in
  let b := utf8 signature in
  if negb (Nat.eqb (length a) (length b)) then Ok false else Ok (bool_decide (a = b)).

Definition createHmacSigner (key : list N) : result AuditError ActivityRowSigner :=
  if Nat.ltb (length key) MIN_KEY_BYTES then Throw (KeyTooShort (length key))
  else Ok (mkSigner (hmac_sign key) (hmac_verify key)).

Definition auditKeyId (key : list N) : jsstr := take 16 (sha_hex key).
End signing.

(** ** Loading the key *)

Section load_key.
(** [Buffer.from(text, "base64")] of Node. *)
Variable base64_decode : jsstr -> list N.

(** The key, and whether the override warning was logged.  [disk] is the key
    file's content when the file exists; [env] and [node_env] the two
    environment variables when set. *)
Definition loadAuditKeyFromDisk (disk : option (list N)) (env node_env : option jsstr)
  : result AuditError (list N * bool) :=
  let envKey := match env with Some (c :: r) => Some (c :: r) | _ => None end in
  let! diskKey := match disk with
                  | Some d => if Nat.ltb (length d) MIN_KEY_BYTES
                              then Throw (DiskKeyTooShort (length d)) else Ok (Some d)
                  | None => Ok None
                  end in
  match diskKey, envKey with
  | Some d, Some e =>
      let envBuf := base64_decode e in
      if bool_decide (d = envBuf) then Ok (d, false)
      else if bool_decide (node_env = Some (js "production")) then Throw EnvKeyConflict
      else Ok (envBuf, true)
  | Some d, None => Ok (d, false)
  | None, Some e =>
      let envBuf := base64_decode e in
      if Nat.ltb (length envBuf) MIN_KEY_BYTES then Throw (EnvKeyTooShort (length envBuf))
      else Ok (envBuf, false)
  | None, None => Throw KeyNotFound
  end.
End load_key.

(** ** The retired keyring *)

Definition hexb (c : N) : bool := (digitb c || ((97 <=? c) && (c <=? 102)))%N.

(** [RETIRED_KEY_FILE_RE.exec(name)]: the captured key id. *)
Definition retired_key_match (name : jsstr) : option jsstr :=
  let day := take 8 name in
  let time := take 6 (drop 9 name) in
  let id := take 16 (drop 17 name) in
  if Nat.eqb (length name) 37 && forallb digitb day && bool_decide (name !! 8%nat = Some 84%N) &&
     forallb digitb time && bool_decide (take 2 (drop 15 name) = js "Z-") &&
     forallb hexb id && bool_decide (drop 33 name = js ".key")
  then Some id else None.

Section retired.
Context `{CryptoOps}.

(** One file of the directory: the epoch it contributes, if any. *)
Definition retired_entry (file : jsstr * list N) : list AuditKeyEpoch :=
  match retired_key_match file.1 with
  | None => []
  | Some id =>
      if Nat.ltb (length file.2) MIN_KEY_BYTES || negb (bool_decide (auditKeyId file.2 = id)) then []
      else match createHmacSigner file.2 with
           | Ok s => [mkEpoch id s]
           | Throw _ => []
           end
  end.

(** [dir] is the directory's files, or [None] when it cannot be listed. *)
Definition loadRetiredAuditKeys (dir : option (list (jsstr * list N))) : list AuditKeyEpoch :=
  match dir with
  | None => []
  | Some files => flat_map retired_entry (sort_entries files)
  end.
End retired.

(** ** The epoch rule *)

(** One call of the checker's [verify]: the new epoch and the matching key's
    id.  [i] counts from the current epoch; a signer that throws does not
    vouch. *)
Fixpoint epoch_scan (keys : list AuditKeyEpoch) (i : nat) (content : ActivityRowContent)
    (prev signature : jsstr) : option (nat * jsstr) :=
  match keys with
  | [] => None
  | k :: r =>
      match verify (signer k) content prev signature with
      | Ok true => Some (i, keyId k)
      | _ => epoch_scan r (S i) content prev signature
      end
  end.

Definition epoch_verify (keys : list AuditKeyEpoch) (epoch : nat) (content : ActivityRowContent)
    (prev signature : jsstr) : nat * option jsstr :=
  match epoch_scan (drop epoch keys) epoch content prev signature with
  | Some (i, id) => (i, Some id)
  | None => (epoch, None)
  end.

(** ** What the canonical text keeps of [refs] *)

(** The value whose JSON text is signed. *)
Definition canon (v : jsval) : jsval := clean (sortValue v).

(** The canonical value under a key; absent and [undefined] are alike. *)
Definition ref_value (kvs : entries) (k : jsstr) : option jsval :=
  match alookup k kvs with
  | Some v => if is_undef v then None else Some (canon v)
  | None => None
  end.

Definition canon_entries (kvs : entries) : entries :=
  flat_map (fun e => if is_undef e.2 then [] else [(e.1, clean e.2)])
    (obj_assign (sort_entries (map (fun e => (e.1, sortValue e.2)) kvs))).

Lemma canon_obj kvs : canon (JObj kvs) = JObj (canon_entries kvs).
Proof. done. Qed.

Lemma sortValue_undef v : is_undef (sortValue v) = is_undef v.
Proof. by destruct v. Qed.

Lemma sorted_members_keys kvs : (map (fun e : jsstr * jsval => (e.1, sortValue e.2)) kvs).*1 = kvs.*1.
Proof. induction kvs as [|e kvs IH]; csimpl; [done|]. by rewrite IH. Qed.

Lemma sorted_members_NoDup kvs : NoDup kvs.*1 ->
  NoDup (sort_entries (map (fun e : jsstr * jsval => (e.1, sortValue e.2)) kvs)).*1.
Proof. intros. by rewrite (Permutation_map fst (sort_entries_perm _)), sorted_members_keys. Qed.

Lemma canon_entries_perm kvs : canon_entries kvs ≡ₚ
  flat_map (fun e => if is_undef e.2 then [] else [(e.1, canon e.2)])
           (filter (fun e => e.1 <> js "__proto__") kvs).
Proof.
  unfold canon_entries. rewrite obj_assign_perm.
  assert (Hp : filter (fun e => e.1 <> js "__proto__")
                 (sort_entries (map (fun e : jsstr * jsval => (e.1, sortValue e.2)) kvs))
               ≡ₚ filter (fun e => e.1 <> js "__proto__") (map (fun e => (e.1, sortValue e.2)) kvs))
    by (by rewrite sort_entries_perm). rewrite Hp. clear Hp.
  apply reflexive_eq. induction kvs as [|[k v] kvs IH]; [done|]. cbn [map]. rewrite !filter_cons. cbn [fst].
  case_decide; [|exact IH]. cbn [flat_map fst snd]. rewrite sortValue_undef, IH. done.
Qed.

Lemma canon_entries_sub kvs : NoDup kvs.*1 -> NoDup (canon_entries kvs).*1.
Proof.
  intros Hnd. unfold canon_entries. rewrite clean_keys. apply filter_NoDup_fst.
  rewrite (Permutation_map fst (obj_assign_perm _)). apply filter_NoDup_fst.
  by apply sorted_members_NoDup.
Qed.

Lemma flat_map_sorted (kvs : entries) : StronglySorted prop_lt kvs ->
  StronglySorted prop_lt (flat_map (fun e => if is_undef e.2 then [] else [(e.1, clean e.2)]) kvs).
Proof.
  induction 1 as [|e kvs Hs IH He]; simpl; [constructor|]. destruct (is_undef e.2); [done|].
  constructor; [done|]. rewrite Forall_forall in *. intros y Hy. simpl in Hy.
  apply list_elem_of_In, in_flat_map in Hy. destruct Hy as (x & Hx & Hy). apply list_elem_of_In in Hx. specialize (He _ Hx).
  destruct (is_undef x.2); [done|]. destruct Hy as [<-|[]]. by eapply prop_lt_keys, He.
Qed.

Lemma canon_entries_sorted kvs : NoDup kvs.*1 -> StronglySorted prop_lt (canon_entries kvs).
Proof.
  intros Hnd. apply flat_map_sorted, obj_assign_sorted; [by apply sorted_members_NoDup|].
  apply sort_entries_sorted. by rewrite sorted_members_keys.
Qed.

Lemma alookup_canon_entries kvs k : NoDup kvs.*1 ->
  alookup k (canon_entries kvs) = if decide (k = js "__proto__") then None else ref_value kvs k.
Proof.
  intros Hnd. rewrite (alookup_perm _ _ _ (canon_entries_sub kvs Hnd) (canon_entries_perm kvs)).
  unfold ref_value. induction kvs as [|[k' v] kvs IH]; csimpl; [by case_decide|].
  csimpl in Hnd. apply NoDup_cons in Hnd as [Hk Hnd]. specialize (IH Hnd). rewrite filter_cons. simpl.
  apply alookup_None in Hk.
  destruct (decide (k' <> js "__proto__")) as [Hp|Hp]; simpl.
  - destruct (is_undef v) eqn:E; simpl; rewrite ?IH; destruct (decide (k = k')) as [<-|]; rewrite ?E, ?Hk;
      by case_decide.
  - apply dec_stable in Hp. rewrite IH. repeat case_decide; naive_solver.
Qed.

(** Objects have one canonical value exactly when they hold the same canonical
    values under every key but [__proto__]. *)
Lemma canon_obj_ext a b : NoDup a.*1 -> NoDup b.*1 ->
  canon (JObj a) = canon (JObj b) <-> forall k, k <> js "__proto__" -> ref_value a k = ref_value b k.
Proof.
  intros Ha Hb. rewrite !canon_obj. split.
  - intros [= E] k Hk. pose proof (alookup_canon_entries a k Ha) as H1.
    pose proof (alookup_canon_entries b k Hb) as H2. rewrite decide_False in H1, H2 by done. congruence.
  - intros H. f_equal. apply (sorted_perm_unique prop_lt); [by apply canon_entries_sorted..|].
    apply alookup_ext_perm; [by apply canon_entries_sub..|]. intros k.
    rewrite !alookup_canon_entries by done. case_decide; auto.
Qed.

(** ** JSON data up to the order of object members *)

Inductive same_json : jsval -> jsval -> Prop :=
| sj_refl v : same_json v v
| sj_arr l l' : Forall2 same_json l l' -> same_json (JArr l) (JArr l')
| sj_obj a b c : Forall2 (fun x y => x.1 = y.1 /\ same_json x.2 y.2) a b -> b ≡ₚ c ->
    same_json (JObj a) (JObj c).

Lemma same_json_undef v w : same_json v w -> is_undef v = is_undef w.
Proof. by destruct 1. Qed.

Lemma ref_value_perm a b k : NoDup a.*1 -> a ≡ₚ b -> ref_value a k = ref_value b k.
Proof. intros Hnd Hp. unfold ref_value. by rewrite (alookup_perm k a b). Qed.

(** Reordering members, at any depth, leaves the canonical value as it is. *)
Lemma same_json_canon v w : val_wf v -> same_json v w -> canon v = canon w.
Proof.
  revert w. induction v as [| |b|n|s|l IH|kvs IH] using jsval_ind'; intros w Hv Hw; try (by inversion Hw).
  - inversion Hw as [|? l' Hl|]; subst; [done|]. unfold canon. cbn [sortValue clean]. f_equal.
    apply val_wf_arr in Hv. rewrite !map_map. clear Hw. revert Hv IH.
    induction Hl as [|x y l l' Hxy Hl IHl]; [done|]. intros [??]%Forall_cons [Hx ?]%Forall_cons.
    cbn [map]. f_equal; [by apply Hx|by apply IHl].
  - inversion Hw as [| |? b c Hab Hbc]; subst; [done|]. apply val_wf_obj in Hv as [Hnd Hkvs].
    assert (Hkeys : kvs.*1 = b.*1).
    { clear -Hab. induction Hab as [|x y ? ? [E _] _ IH]; csimpl; [done|]. by rewrite E, IH. }
    apply canon_obj_ext; [done|by rewrite <- Hbc, <- Hkeys|].
    intros k _. rewrite <- (ref_value_perm b c k) by (by rewrite <- ?Hkeys).
    unfold ref_value. clear -Hab IH Hkvs.
    induction Hab as [|[k1 x] [k2 y] a b [E Hxy] Hab IHab]; [done|]. simpl in *. subst.
    apply Forall_cons in IH as [Hx IH], Hkvs as [? Hkvs]. case_decide; [|by apply IHab].
    simpl in *. rewrite <- (same_json_undef x y) by done. by rewrite (Hx y).
Qed.

(** The member of an object; absent and [undefined] are alike. *)
Definition present (kvs : entries) (k : jsstr) : option jsval :=
  match alookup k kvs with Some JUndef => None | o => o end.

(** Two values are the same JSON data: atoms are equal ([undefined] in a list
    reads as [null]), lists agree place by place, and objects hold agreeing
    values under the same keys, in whatever order; [__proto__] is never a
    member of a rebuilt object. *)
Inductive agree : jsval -> jsval -> Prop :=
| ag_null v w : v = JUndef \/ v = JNull -> w = JUndef \/ w = JNull -> agree v w
| ag_bool b : agree (JBool b) (JBool b)
| ag_num n : agree (JNum n) (JNum n)
| ag_str s : agree (JStr s) (JStr s)
| ag_arr l l' : Forall2 agree l l' -> agree (JArr l) (JArr l')
| ag_obj a b : (forall k, k <> js "__proto__" -> option_Forall2 agree (present a k) (present b k)) -> agree (JObj a) (JObj b).

Lemma ref_value_present kvs k : ref_value kvs k = canon <$> present kvs k.
Proof. unfold ref_value, present. by destruct (alookup k kvs) as [[]|]. Qed.

Lemma present_elem kvs k v : present kvs k = Some v -> (k, v) ∈ kvs.
Proof. unfold present. intros H. apply alookup_elem. destruct (alookup k kvs) as [[]|]; congruence. Qed.

Lemma canon_arr_agree l : Forall (fun v => val_wf v -> forall w, val_wf w -> canon v = canon w <-> agree v w) l -> Forall val_wf l ->
  forall l', Forall val_wf l' -> map canon l = map canon l' <-> Forall2 agree l l'.
Proof.
  induction 1 as [|v l Hv _ IH]; intros Hw [|w l'] Hw'; cbn [map].
  - by split.
  - split; [discriminate|by intros ?%Forall2_nil_inv_l].
  - split; [discriminate|by intros ?%Forall2_nil_inv_r].
  - apply Forall_cons in Hw as [Hw Hl], Hw' as [Hw' Hl']. rewrite Forall2_cons, <- (Hv Hw w Hw'), <- (IH Hl l' Hl').
    split; [by intros [= -> ->]|by intros [-> ->]].
Qed.

(** The canonical value is as fine as that. *)
Lemma canon_agree v : val_wf v -> forall w, val_wf w -> canon v = canon w <-> agree v w.
Proof.
  induction v as [| |b|n|s|l IH|kvs IH] using jsval_ind'; intros Hv w Hw.
  1-5: destruct w; (split; [intros E; first [discriminate E|solve [constructor; tauto]|injection E as <-; first [apply ag_bool|apply ag_num|apply ag_str]]|intros E; inversion E; subst; naive_solver]).
  - destruct w as [| |b|n|s|l'|kvs']; try (split; [discriminate|by inversion 1; naive_solver]).
    rewrite val_wf_arr in Hv, Hw. pose proof (canon_arr_agree l IH Hv l' Hw) as H.
    unfold canon in *. cbn [sortValue clean]. rewrite !map_map. split.
    + intros [= E]. by apply ag_arr, H.
    + inversion 1; subst; [naive_solver|]. f_equal. by apply H.
  - destruct w as [| |b|n|s|l'|kvs']; try (split; [discriminate|by inversion 1; naive_solver]).
    apply val_wf_obj in Hv as [Hnd Hv], Hw as [Hnd' Hw]. rewrite canon_obj_ext by done. rewrite Forall_forall in IH, Hv, Hw.
    assert (Hk : forall k, ref_value kvs k = ref_value kvs' k <-> option_Forall2 agree (present kvs k) (present kvs' k)).
    { intros k. rewrite !ref_value_present. destruct (present kvs k) as [x|] eqn:Ex, (present kvs' k) as [y|] eqn:Ey; cbn;
        try (split; [discriminate|by inversion 1]); [|by split; [constructor|]].
      apply present_elem in Ex, Ey. pose proof (IH _ Ex (Hv _ Ex) y (Hw _ Ey)) as H. cbn in H. split.
      - intros [= E]. by constructor; apply H.
      - inversion 1; subst. f_equal. by apply H. }
    split; [intros H; apply ag_obj; intros k Hp; by apply Hk, H|]. inversion 1; subst; [naive_solver|]. intros k Hp. by apply Hk; auto.
Qed.

Lemma canon_undef v : is_undef (canon v) = false.
Proof. unfold canon. by destruct v. Qed.

(** Canonical values are canonical. *)
Lemma canon_idem v : val_wf v -> canon (canon v) = canon v.
Proof.
  induction v as [| |b|n|s|l IH|kvs IH] using jsval_ind'; intros Hv; try done.
  - apply val_wf_arr in Hv. unfold canon. cbn [sortValue clean map]. f_equal. rewrite !map_map.
    apply map_ext_Forall. by eapply Forall_mp.
  - apply val_wf_obj in Hv as [Hnd Hkvs]. rewrite canon_obj.
    apply canon_obj_ext; [by apply canon_entries_sub|done|]. intros k Hk. unfold ref_value at 1.
    rewrite alookup_canon_entries, decide_False by done. unfold ref_value.
    destruct (alookup k kvs) as [v|] eqn:E; [|done]. destruct (is_undef v); [done|].
    rewrite canon_undef. f_equal. apply alookup_elem in E. rewrite Forall_forall in IH, Hkvs.
    by apply (IH _ E), (Hkvs _ E).
Qed.

Lemma sortValue_wf v : val_wf v -> val_wf (sortValue v).
Proof.
  induction v as [| |b|n|s|l IH|kvs IH] using jsval_ind'; intros Hv; try done; cbn [sortValue].
  - apply val_wf_arr in Hv. apply val_wf_arr, Forall_fmap. by eapply Forall_mp.
  - apply val_wf_obj in Hv as [Hnd Hkvs]. apply val_wf_obj. split.
    + rewrite (Permutation_map fst (obj_assign_perm _)). apply filter_NoDup_fst. by apply sorted_members_NoDup.
    + rewrite obj_assign_perm, sort_entries_perm. apply Forall_forall. intros e [_ He]%list_elem_of_filter.
      apply list_elem_of_fmap in He as (x & -> & Hx). simpl. rewrite Forall_forall in IH, Hkvs.
      by apply (IH _ Hx), (Hkvs _ Hx).
Qed.

Lemma canon_wf v : val_wf v -> val_wf (canon v).
Proof. intros. by apply clean_wf, sortValue_wf. Qed.

(** ** The canonical text of a row *)

(** A content whose date, if valid, is in the range of [Date], and whose
    [refs] is JSON data with distinct keys. *)
Definition content_wf (c : ActivityRowContent) : Prop :=
  val_wf (c_refs c) /\ match c_at c with Some t => - MAX_TIME <= t <= MAX_TIME | None => True end.

(** Two contents agree on everything their version's signature covers. *)
Definition same_content (c d : ActivityRowContent) : Prop :=
  c_schemaVersion c = c_schemaVersion d /\ c_at c = c_at d /\ c_severity c = c_severity d /\
  c_sourceIcon c = c_sourceIcon d /\ c_what c = c_what d /\ c_sub c = c_sub d /\ c_kind c = c_kind d /\
  canon (c_refs c) = canon (c_refs d) /\
  (c_schemaVersion c = 2 -> c_actorType c = c_actorType d /\ c_actorId c = c_actorId d).

(** The same, said of the data: [refs] agree as JSON. *)
Definition agree_content (c d : ActivityRowContent) : Prop :=
  c_schemaVersion c = c_schemaVersion d /\ c_at c = c_at d /\ c_severity c = c_severity d /\
  c_sourceIcon c = c_sourceIcon d /\ c_what c = c_what d /\ c_sub c = c_sub d /\ c_kind c = c_kind d /\
  agree (c_refs c) (c_refs d) /\
  (c_schemaVersion c = 2 -> c_actorType c = c_actorType d /\ c_actorId c = c_actorId d).

Lemma same_content_agree c d : content_wf c -> content_wf d -> same_content c d <-> agree_content c d.
Proof. intros [Hc _] [Hd _]. unfold same_content, agree_content. by rewrite (canon_agree _ Hc _ Hd). Qed.

Lemma refs_value_canon r : clean (refs_value r) = canon r.
Proof. by destruct r. Qed.
Lemma refs_value_undef r : is_undef (refs_value r) = false.
Proof. by destruct r. Qed.
Lemma refs_value_wf r : val_wf r -> val_wf (refs_value r).
Proof. destruct r; intros; try done; by apply sortValue_wf. Qed.
Lemma str_or_null_undef o : is_undef (str_or_null o) = false.
Proof. by destruct o. Qed.
Lemma clean_str_or_null o : clean (str_or_null o) = str_or_null o.
Proof. by destruct o. Qed.
Lemma str_or_null_inj o p : str_or_null o = str_or_null p -> o = p.
Proof. destruct o, p; simpl; congruence. Qed.
Lemma str_or_null_wf o : val_wf (str_or_null o).
Proof. by destruct o. Qed.

(** The signed object of either version, before printing. *)
Definition row_members (c : ActivityRowContent) (iso : jsstr) : entries :=
  [(js "at", JStr iso); (js "kind", JStr (c_kind c)); (js "refs", refs_value (c_refs c));
   (js "severity", JStr (c_severity c)); (js "sourceIcon", JStr (c_sourceIcon c));
   (js "sub", str_or_null (c_sub c)); (js "what", JStr (c_what c))].

Definition actor_members (c : ActivityRowContent) : entries :=
  [(js "actorId", str_or_null (c_actorId c)); (js "actorType", str_or_null (c_actorType c))].

Lemma canonicalize_inv c t : canonicalizeRowContent c = Ok t ->
  exists at_, c_at c = Some at_ /\
  ((c_schemaVersion c = 1 /\ t = json_stringify (JObj (row_members c (toISOString at_)))) \/
   (c_schemaVersion c = 2 /\ t = json_stringify (JObj (actor_members c ++ row_members c (toISOString at_))))).
Proof.
  unfold canonicalizeRowContent, iso_of. destruct (c_at c) as [at_|]; simpl; [|by repeat case_match].
  intros E. exists at_. split; [done|]. repeat case_match; b2p; simplify_eq; auto.
Qed.

Lemma row_members_clean c iso : clean (JObj (row_members c iso)) =
  JObj [(js "at", JStr iso); (js "kind", JStr (c_kind c)); (js "refs", canon (c_refs c));
        (js "severity", JStr (c_severity c)); (js "sourceIcon", JStr (c_sourceIcon c));
        (js "sub", str_or_null (c_sub c)); (js "what", JStr (c_what c))].
Proof.
  unfold row_members. cbn [clean flat_map snd fst is_undef app].
  by rewrite refs_value_undef, str_or_null_undef, clean_str_or_null, refs_value_canon.
Qed.

Lemma all_members_clean c iso : clean (JObj (actor_members c ++ row_members c iso)) =
  JObj ((js "actorId", str_or_null (c_actorId c)) :: (js "actorType", str_or_null (c_actorType c)) ::
        match clean (JObj (row_members c iso)) with JObj l => l | _ => [] end).
Proof.
  unfold actor_members. cbn [clean flat_map snd fst is_undef app].
  by rewrite !str_or_null_undef, !clean_str_or_null.
Qed.

Lemma members_wf c iso : val_wf (c_refs c) ->
  val_wf (JObj (row_members c iso)) /\ val_wf (JObj (actor_members c ++ row_members c iso)).
Proof.
  intros Hr. rewrite !val_wf_obj. split; (split; [vm_compute; repeat constructor; set_solver|]);
    unfold actor_members, row_members; cbn [app];
    repeat (apply Forall_cons; split; [try done; by (apply str_or_null_wf || apply refs_value_wf)|]); done.
Qed.

Lemma row_members_inj c d s t : clean (JObj (row_members c s)) = clean (JObj (row_members d t)) ->
  s = t /\ c_kind c = c_kind d /\ canon (c_refs c) = canon (c_refs d) /\ c_severity c = c_severity d /\
  c_sourceIcon c = c_sourceIcon d /\ c_sub c = c_sub d /\ c_what c = c_what d.
Proof.
  rewrite !row_members_clean. intros E. injection E as E1 E2 E3 E4 E5 E6 E7.
  split_and!; try done. by apply str_or_null_inj.
Qed.

Lemma canonical_content_inj c d t : content_wf c -> content_wf d ->
  canonicalizeRowContent c = Ok t -> canonicalizeRowContent d = Ok t -> same_content c d.
Proof.
  intros [Wc Ac] [Wd Ad] Hc Hd. apply canonicalize_inv in Hc as (a & Ea & Hc), Hd as (b & Eb & Hd).
  rewrite Ea in Ac. rewrite Eb in Ad.
  destruct (members_wf c (toISOString a) Wc), (members_wf d (toISOString b) Wd).
  destruct Hc as [[Vc ->]|[Vc ->]], Hd as [[Vd E]|[Vd E]]; apply json_stringify_inj in E; try done.
  - apply row_members_inj in E as (E & ? & ? & ? & ? & ? & ?). apply toISOString_inj in E; [|done..].
    unfold same_content. split_and!; congruence.
  - exfalso. rewrite all_members_clean, row_members_clean in E. discriminate E.
  - exfalso. rewrite all_members_clean, !row_members_clean in E. discriminate E.
  - rewrite !all_members_clean in E.
    rewrite !row_members_clean in E. injection E as E1 E2 E' ? ? ? ? E3 ?.
    apply toISOString_inj in E'; [|done..]. apply str_or_null_inj in E1, E2, E3.
    unfold same_content. split_and!; [congruence..|]. done.
Qed.

Lemma same_content_canonical c d : same_content c d ->
  canonicalizeRowContent c = canonicalizeRowContent d.
Proof.
  intros (Ev & Ea & Es & Ei & Ew & Eu & Ek & Er & Eact). unfold canonicalizeRowContent.
  rewrite <- Ev, <- Ea.
  assert (E : forall iso, clean (JObj (row_members c iso)) = clean (JObj (row_members d iso)))
    by (intros iso; rewrite !row_members_clean; congruence).
  repeat case_match; b2p; destruct (c_at c); simpl; try done; f_equal; unfold json_stringify; f_equal.
  - apply E.
  - change (clean (JObj (actor_members c ++ row_members c (toISOString z)))
            = clean (JObj (actor_members d ++ row_members d (toISOString z)))).
    rewrite !all_members_clean, E. destruct Eact as [-> ->]; done.
Qed.

(** ** Signatures *)

Lemma utf8_ascii s : Forall (fun u => u < 128)%N s -> utf8 s = s.
Proof.
  induction 1 as [|u s Hu _ IH]; [done|]. cbn [utf8].
  assert (is_high u = false) as -> by (unfold is_high; apply andb_false_iff; left; apply N.leb_gt; lia).
  assert (is_low u = false) as -> by (unfold is_low; apply andb_false_iff; left; apply N.leb_gt; lia).
  unfold utf8_unit. rewrite (proj2 (N.ltb_lt _ _)) by done. by rewrite IH.
Qed.

(** Only the ASCII text itself encodes to an ASCII text. *)
Lemma utf8_ascii_inv s a : Forall (fun u => u < 128)%N a -> utf8 s = a -> s = a.
Proof.
  revert a. induction s as [|u s IH]; intros a Ha <-; [done|]. cbn [utf8] in *.
  destruct (is_high u) eqn:Eh; [exfalso|destruct (is_low u) eqn:El; [exfalso|]].
  - destruct s as [|v s]; [|destruct (is_low v)]; apply Forall_inv in Ha; cbv beta zeta in Ha; [lia| |lia].
    generalize dependent ((65536 + (u - 55296) * 1024 + (v - 56320)) / 262144)%N. intros. lia.
  - apply Forall_inv in Ha; cbv beta in Ha; lia.
  - revert Ha. unfold utf8_unit. repeat case_match; b2p; intros Ha; cbn [app] in Ha;
      apply Forall_cons in Ha as [Hu Ha]; cbv beta in Hu; [|exfalso; revert Hu; generalize (u / 64)%N, (u / 4096)%N; lia..].
    cbn [app]. f_equal. by apply IH.
Qed.

Lemma b64url_ascii s : Forall b64url s -> Forall (fun u => u < 128)%N s.
Proof. intros H. eapply Forall_impl; [exact H|]. unfold b64url, is_digit. lia. Qed.

Lemma b64url_no_bar s : Forall b64url s -> 124%N ∉ s.
Proof. rewrite Forall_forall. intros H Hin%H. unfold b64url, is_digit in Hin. lia. Qed.

Section signatures.
Context `{CryptoLaws}.

Lemma hmac_verify_iff key c prev s :
  hmac_verify key c prev s = Ok true <-> hmac_sign key c prev = Ok s.
Proof.
  unfold hmac_verify. destruct (hmac_sign key c prev) as [e|] eqn:E; simpl; [|naive_solver].
  assert (Ha : Forall (fun u => u < 128)%N e).
  { unfold hmac_sign in E. apply rbind_ok in E as (t & _ & [= <-]). apply b64url_ascii, hmac_b64_chars. }
  rewrite (utf8_ascii e Ha). split.
  - case_match; [done|]. intros [= Hb]. apply bool_decide_eq_true in Hb. f_equal. symmetry.
    by apply utf8_ascii_inv.
  - intros [= ->]. rewrite (utf8_ascii s Ha), Nat.eqb_refl. simpl. by rewrite bool_decide_true.
Qed.

Lemma hmac_verify_false key c prev s : hmac_sign key c prev <> Ok s ->
  is_ok (hmac_sign key c prev) = true -> hmac_verify key c prev s = Ok false.
Proof.
  intros Hne Hok. pose proof (hmac_verify_iff key c prev s) as Hi.
  unfold hmac_verify in *. destruct (hmac_sign key c prev); simpl in *; [|done].
  revert Hi. case_match; [done|]. case_bool_decide; naive_solver.
Qed.

(** The previous hash of a row: empty at the start, a digest after. *)
Definition prev_wf (p : jsstr) : Prop := Forall b64url p.

Lemma hashSignature_wf s : prev_wf (hashSignature s).
Proof. apply sha_b64_chars. Qed.

Lemma signed_text_inj c p d q : prev_wf p -> prev_wf q ->
  signed_text c p = signed_text d q -> c = d /\ p = q.
Proof. intros. by apply (app_sep_inj 124%N); try apply b64url_no_bar. Qed.

(** Two texts with one HMAC under a key. *)
Definition hmac_collision (key : list N) : Prop :=
  exists m m', m <> m' /\ hmac_b64 key m = hmac_b64 key m'.

Lemma hmac_sign_inj key c d p q s : content_wf c -> content_wf d -> prev_wf p -> prev_wf q ->
  hmac_sign key c p = Ok s -> hmac_sign key d q = Ok s ->
  (same_content c d /\ p = q) \/ hmac_collision key.
Proof.
  intros Wc Wd Wp Wq Hc Hd. unfold hmac_sign in *.
  apply rbind_ok in Hc as (t & Ht & [= Hs]), Hd as (u & Hu & [= Hs']).
  destruct (decide (signed_text t p = signed_text u q)) as [E|E].
  - left. apply signed_text_inj in E as [-> ->]; [|done..]. split; [|done].
    by eapply canonical_content_inj.
  - right. exists (signed_text t p), (signed_text u q). split; [done|congruence].
Qed.
End signatures.

(** ** The epoch checker *)

Definition vouches (c : ActivityRowContent) (p s : jsstr) (k : AuditKeyEpoch) : bool :=
  match verify (signer k) c p s with Ok b => b | Throw _ => false end.

Lemma epoch_scan_spec keys i c p s :
  epoch_scan keys i c p s =
    match list_find (vouches c p s) keys with
    | Some (j, k) => Some ((i + j)%nat, keyId k)
    | None => None
    end.
Proof.
  revert i. induction keys as [|k keys IH]; intros i; [done|]. cbn [epoch_scan list_find].
  assert (Hv : vouches c p s k = match verify (signer k) c p s with Ok b => b | Throw _ => false end) by done.
  case_decide as D; rewrite Hv in D; destruct (verify (signer k) c p s) as [[]|]; try done;
    [by rewrite Nat.add_0_r|..]; rewrite IH; destruct (list_find _ keys) as [[j k']|];
    simpl; try done; do 2 f_equal; lia.
Qed.

(** ** Properties *)

(** C11: the canonical text of a row is exactly as fine as its schema version
    promises: two contents have one text iff they have the same version and
    agree on the timestamp, severity, icon, text, sub-text, kind and, in version
    2, on the actor, and their refs are the same JSON data: equal atoms, lists
    that agree place by place, and objects with agreeing values under the same
    keys, whatever the order of the members at any depth ([undefined] members
    being absent, and [__proto__] none).  The two versions never share a text. *)
Theorem canonical_content_iff c d t : content_wf c -> content_wf d ->
  canonicalizeRowContent c = Ok t ->
  canonicalizeRowContent d = Ok t <-> agree_content c d.
Proof.
  intros Wc Wd Hc. rewrite <- same_content_agree by done. split; [by eapply canonical_content_inj|].
  intros E. by rewrite <- (same_content_canonical c d).
Qed.

(** A signature vouches for one content in one place of the chain: when a
    signature made for content [c] after [p] verifies for content [d] after
    [q], then [d] is [c] as far as the version covers it and [q] is [p], or
    the two signed texts are an HMAC collision under the key. *)
Theorem signature_binds `{CryptoLaws} key c d p q s :
  content_wf c -> content_wf d -> prev_wf p -> prev_wf q ->
  hmac_sign key c p = Ok s ->
  hmac_verify key d q s = Ok true <-> (same_content c d /\ p = q) \/
    (exists m m', m <> m' /\ hmac_b64 key m = hmac_b64 key m' /\
       hmac_sign key c p = Ok (hmac_b64 key m) /\ hmac_sign key d q = Ok (hmac_b64 key m')).
Proof.
  intros Wc Wd Wp Wq Hs. rewrite hmac_verify_iff. split.
  - intros Hd. pose proof Hs as (t & Ht & [= Es])%rbind_ok. pose proof Hd as (u & Hu & [= Eu])%rbind_ok.
    destruct (decide (signed_text t p = signed_text u q)) as [E|E].
    + left. apply signed_text_inj in E as [-> ->]; [|done..]. by split; [eapply canonical_content_inj|].
    + right. exists (signed_text t p), (signed_text u q). by rewrite Hs, Hd, Es, Eu.
  - intros [[E ->]|(m & m' & _ & E & Hm & Hm')]; [|congruence].
    rewrite <- Hs. unfold hmac_sign. by rewrite (same_content_canonical c d).
Qed.

(** The signing key resolves as documented.  A key file shorter than 32
    bytes stops the start.  With a key file, the file's key is used whenever
    the variable is unset, empty or equal; a differing variable stops a
    production start and is otherwise used with a warning.  Without a file the
    variable is used if it decodes to 32 bytes; without either the start is
    refused.  So in production the loaded key always has 32 bytes and is never
    a silent override. *)
Theorem audit_key_resolution decode disk env node_env :
  let r := loadAuditKeyFromDisk decode disk env node_env in
  let production := node_env = Some (js "production") in
  match disk with
  | Some d =>
      if (length d <? MIN_KEY_BYTES)%nat then r = Throw (DiskKeyTooShort (length d))
      else match env with
           | Some (c :: e) =>
               (decode (c :: e) = d /\ r = Ok (d, false)) \/
               (decode (c :: e) <> d /\ production /\ r = Throw EnvKeyConflict) \/
               (decode (c :: e) <> d /\ ~ production /\ r = Ok (decode (c :: e), true))
           | _ => r = Ok (d, false)
           end
  | None =>
      match env with
      | Some (c :: e) =>
          let k := decode (c :: e) in
          r = if (length k <? MIN_KEY_BYTES)%nat then Throw (EnvKeyTooShort (length k)) else Ok (k, false)
      | _ => r = Throw KeyNotFound
      end
  end /\
  (forall k w, production -> r = Ok (k, w) ->
     w = false /\ (MIN_KEY_BYTES <= length k)%nat /\ (disk = None \/ disk = Some k)).
Proof.
  simpl. unfold loadAuditKeyFromDisk. split.
  - destruct disk as [d|]; simpl; [destruct (length d <? MIN_KEY_BYTES)%nat; simpl; [done|]|];
      destruct env as [[|c e]|]; try done.
    destruct (decide (d = decode (c :: e))) as [->|Hne].
    + left. by rewrite bool_decide_true.
    + right. rewrite (bool_decide_false (d = _)) by done. case_bool_decide; [left|right]; naive_solver.
  - intros k w Hp. rewrite (bool_decide_true (node_env = _)) by done.
    destruct disk as [d|]; simpl; [destruct (length d <? MIN_KEY_BYTES)%nat eqn:E; simpl; [done|]|];
      destruct env as [[|c e]|]; intros Hr; repeat case_match; simplify_eq; b2p; auto.
Qed.

Definition retired_ok `{CryptoOps} (f : jsstr * list N) : Prop :=
  retired_key_match f.1 = Some (auditKeyId f.2) /\ (MIN_KEY_BYTES <= length f.2)%nat.
#[export] Instance retired_ok_dec `{CryptoOps} f : Decision (retired_ok f).
Proof. unfold retired_ok. apply _. Defined.

(** The retired keyring holds exactly the archived keys whose file name
    carries the id of their own bytes and that are long enough, each with the
    signer of its bytes, in the order of the file names, which start with the
    retirement time: a renamed, swapped or truncated file is left out and
    never vouches under another key's name. *)
Theorem retired_keyring `{CryptoOps} files : NoDup files.*1 ->
  exists kept, kept ≡ₚ filter retired_ok files /\ StronglySorted key_lt kept /\
    loadRetiredAuditKeys (Some files) =
      (fun f => mkEpoch (auditKeyId f.2) (mkSigner (hmac_sign f.2) (hmac_verify f.2))) <$> kept.
Proof.
  intros Hnd. exists (filter retired_ok (sort_entries files)). split_and!.
  - by rewrite sort_entries_perm.
  - by apply StronglySorted_filter, sort_entries_sorted.
  - simpl. induction (sort_entries files) as [|f l IH]; [done|]. rewrite filter_cons. simpl. rewrite IH.
    unfold retired_entry, createHmacSigner.
    destruct (retired_key_match f.1) as [id|] eqn:E; [|by case_decide as D; [destruct D; congruence|]].
    case_decide as D; unfold retired_ok in D; rewrite E in D.
    + destruct D as [[= ->] D]. rewrite (proj2 (Nat.ltb_ge _ _)) by done. simpl.
      by rewrite bool_decide_true.
    + destruct (length f.2 <? MIN_KEY_BYTES)%nat eqn:L; simpl; [done|]. b2p.
      rewrite bool_decide_false; [done|]. intros <-. by apply D.
Qed.

(** ** Witnesses *)

Definition toy_b64 (m : jsstr) : jsstr := 65%N :: ((fun c => 65 + c mod 26)%N <$> m).

#[local] Instance toy_crypto : CryptoOps := {
  hmac_b64 k m := toy_b64 (k ++ m);
  sha_b64 m := toy_b64 m;
  sha_hex k := (fun b => 48 + b mod 10)%N <$> k
}.

Lemma toy_b64_chars m : Forall b64url (toy_b64 m).
Proof.
  unfold toy_b64. constructor; [unfold b64url; lia|]. apply Forall_fmap, Forall_forall. intros c _. simpl.
  unfold b64url. pose proof (N.mod_lt c 26 ltac:(done)). generalize dependent (c mod 26)%N. intros. lia.
Qed.

#[local] Instance toy_laws : CryptoLaws.
Proof. split; intros; simpl; try apply toy_b64_chars; done. Qed.

Definition sample_content : ActivityRowContent :=
  mkContent (Some 1767225600000) (js "ok") (js "shield") (js "Signed in") None (js "auth")
    (JObj [(js "b", JNum NZero); (js "a", JBool true)]) (Some (js "user")) (Some (js "u1")) 2.
Definition sample_content' : ActivityRowContent :=
  mkContent (Some 1767225600000) (js "ok") (js "shield") (js "Signed in") None (js "auth")
    (JObj [(js "a", JBool true); (js "b", JNum NZero)]) (Some (js "user")) (Some (js "u1")) 2.

Lemma sample_content_wf : content_wf sample_content /\ content_wf sample_content'.
Proof.
  split; (split; [|vm_compute; split; discriminate]); apply val_wf_obj;
    (split; [repeat constructor; set_solver|]); repeat constructor.
Qed.

Lemma canonical_content_iff_witness : exists t,
  canonicalizeRowContent sample_content = Ok t /\
  (canonicalizeRowContent sample_content' = Ok t <-> agree_content sample_content sample_content').
Proof.
  eexists. split; [vm_compute; reflexivity|].
  apply canonical_content_iff; [apply sample_content_wf..|vm_compute; reflexivity].
Defined.

Lemma signature_binds_witness : exists s, hmac_sign [1%N] sample_content [] = Ok s /\
  (hmac_verify [1%N] sample_content' [] s = Ok true <->
   (same_content sample_content sample_content' /\ @nil N = []) \/
    (exists m m', m <> m' /\ hmac_b64 [1%N] m = hmac_b64 [1%N] m' /\
       hmac_sign [1%N] sample_content [] = Ok (hmac_b64 [1%N] m) /\
       hmac_sign [1%N] sample_content' [] = Ok (hmac_b64 [1%N] m'))).
Proof.
  eexists. split; [vm_compute; reflexivity|].
  apply signature_binds; [apply sample_content_wf..|constructor|constructor|vm_compute; reflexivity].
Defined.

Definition sample_files : list (jsstr * list N) :=
  [(js "20260301T000000Z-7777777777777777.key", replicate 32 7%N);
   (js "20260201T000000Z-ffffffffffffffff.key", replicate 32 8%N)].

Lemma retired_keyring_witness : NoDup sample_files.*1 /\
  exists kept, kept ≡ₚ filter retired_ok sample_files /\ StronglySorted key_lt kept /\
    loadRetiredAuditKeys (Some sample_files) =
      (fun f => mkEpoch (auditKeyId f.2) (mkSigner (hmac_sign f.2) (hmac_verify f.2))) <$> kept.
Proof.
  assert (H : NoDup sample_files.*1) by (vm_compute; repeat constructor; set_solver).
  split; [exact H|]. apply (retired_keyring sample_files H).
Defined.
