(* ===== verification/AuditVerify.v ===== *)
(** * AuditVerify: the chain walk
      (apps/orchestrator/src/services/audit-verify.service.ts and
       audit-chain-head.service.ts)

    The activity table is the list of its rows in ascending id order, which is
    the order both queries of this file ask for.  The walk reads pages of 200
    rows after a cursor; [verifyActivityChain] runs it with fuel one more than
    the number of rows, which [verify_walk_total] shows is always enough. *)

From S2P Require Import Prelude JsNum Json DateTime AuditSigning.

Local Open Scope Z_scope.

(** ** Rows *)

Record ActivityRow := mkRow {
  r_id : Z;
  r_content : ActivityRowContent;
  r_signature : jsstr;
  r_prev : jsstr
}.

Abbreviation Table := (list ActivityRow).

(** [activityRowContent]: the signature-covered columns as read back; a SQL
    NULL and the JSON value [null] both read as [null]. *)
Definition activityRowContent (r : ActivityRow) : ActivityRowContent := r_content r.

Definition table_wf (t : Table) : Prop := StronglySorted (fun a b => r_id a < r_id b) t.

Record ChainVerifyResult := mkResult {
  v_ok : bool;
  v_rowsChecked : nat;
  v_brokenAtId : option Z
}.

(** A bare signer is a ring of one key. *)
Definition asKeyring (keys : ActivityRowSigner + list AuditKeyEpoch) : list AuditKeyEpoch :=
  match keys with inl s => [mkEpoch (js "current") s] | inr ks => ks end.

Definition PAGE : nat := 200.

Section walk.
Context {CO : CryptoOps}.
Variable keys : list AuditKeyEpoch.

(** The walk's variables: the epoch, [prevSignature] and [rowsChecked]. *)
Record walk := mkWalk { w_epoch : nat; w_prev : option jsstr; w_count : nat }.

(** One row of the inner loop: the next state, or the break. *)
Definition check_row (w : walk) (r : ActivityRow) : walk + Z :=
  let expectedPrevHash := match w_prev w with None => r_prev r | Some s => hashSignature s end in
  let count := S (w_count w) in
  if bool_decide (r_prev r <> expectedPrevHash) then inr (r_id r)
  else match epoch_verify keys (w_epoch w) (activityRowContent r) expectedPrevHash (r_signature r) with
       | (e, Some _) => inl (mkWalk e (Some (r_signature r)) count)
       | (_, None) => inr (r_id r)
       end.

(** The rows of a page until the first break; the count includes the row
    that breaks. *)
Fixpoint check_page (w : walk) (page : Table) : walk * option Z :=
  match page with
  | [] => (w, None)
  | r :: rs =>
      match check_row w r with
      | inl w' => check_page w' rs
      | inr id => (mkWalk (w_epoch w) (w_prev w) (S (w_count w)), Some id)
      end
  end.

(** [findMany({ where: id > cursor, orderBy: id asc, take: PAGE })] *)
Definition find_page (tbl : Table) (cursor : option Z) : Table :=
  take PAGE (match cursor with
             | None => tbl
             | Some c => filter (fun r => c < r_id r) tbl
             end).

(** The outer loop; [None] only when the fuel runs out. *)
Fixpoint verify_loop (fuel : nat) (tbl : Table) (cursor : option Z) (w : walk) : option (walk * option Z) :=
  match fuel with
  | O => None
  | S fuel =>
      let page := find_page tbl cursor in
      match last page with
      | None => Some (w, None)
      | Some lst =>
          match check_page w page with
          | (w', Some id) => Some (w', Some id)
          | (w', None) =>
              if (length page <? PAGE)%nat then Some (w', None)
              else verify_loop fuel tbl (Some (r_id lst)) w'
          end
      end
  end.

Definition verifyActivityChain (tbl : Table) (from : option (Z * jsstr)) : option ChainVerifyResult :=
  let cursor := fst <$> from in
  let prevSignature := snd <$> from in
  match verify_loop (S (length tbl)) tbl cursor (mkWalk 0 prevSignature 0) with
  | Some (w, broken) => Some (mkResult (bool_decide (broken = None)) (w_count w) broken)
  | None => None
  end.
End walk.

(** ** The chain head *)

Record DailyRoot := mkDailyRoot {
  dr_date : jsstr;
  dr_firstRowId : Z;
  dr_lastRowId : Z;
  dr_rowCount : nat;
  dr_tailSignatureHash : jsstr;
  dr_prevRootHash : jsstr;
  dr_rootHash : jsstr;
  dr_signature : jsstr;
  dr_algorithm : jsstr
}.

Record ChainHead := mkHead {
  capturedAt : Z;
  lastRow : option (Z * option Z * jsstr);
  latestDailyRoot : option DailyRoot
}.

(** The newest root: [roots] are in ascending date order. *)
Definition readChainHead `{CryptoOps} (tbl : Table) (roots : list DailyRoot) (now : Z) : ChainHead :=
  mkHead now
    ((fun r => (r_id r, c_at (r_content r), hashSignature (r_signature r))) <$> last tbl)
    (last roots).

(** ** What the walk checks *)

Section spec.
Context {CO : CryptoOps}.
Variable keys : list AuditKeyEpoch.

(** The rows can be given keys of the ring, never an older one after a newer
    one, such that each row verifies under its key and, but for the first
    when there is no anchor, points at its predecessor's signature. *)
Inductive valid_from : nat -> option jsstr -> Table -> Prop :=
| vf_nil e p : valid_from e p []
| vf_cons e p r rs i k :
    (e <= i)%nat -> keys !! i = Some k ->
    vouches (r_content r) (r_prev r) (r_signature r) k = true ->
    match p with Some s => r_prev r = hashSignature s | None => True end ->
    valid_from i (Some (r_signature r)) rs ->
    valid_from e p (r :: rs).

(** The walk without pages. *)
Definition scan (w : walk) (rows : Table) : walk * option Z := check_page keys w rows.

Lemma check_row_ok w r w' : check_row keys w r = inl w' <->
  match w_prev w with Some s => r_prev r = hashSignature s | None => True end /\
  exists j k, list_find (vouches (r_content r) (r_prev r) (r_signature r)) (drop (w_epoch w) keys) = Some (j, k) /\
    w' = mkWalk (w_epoch w + j) (Some (r_signature r)) (S (w_count w)).
Proof.
  unfold check_row, epoch_verify, activityRowContent.
  set (e := match w_prev w with None => r_prev r | Some s => hashSignature s end).
  assert (He : r_prev r = e <-> match w_prev w with Some s => r_prev r = hashSignature s | None => True end)
    by (unfold e; destruct (w_prev w); naive_solver). rewrite <- He. clear He.
  case_bool_decide as Hb.
  - split; [done|]. intros [? _]. done.
  - rewrite <- Hb, epoch_scan_spec.
    destruct (list_find _ _) as [[j k]|] eqn:E; [|naive_solver].
    split; [intros [= <-]; eauto 10|]. by intros [_ (j' & k' & [= <- <-] & ->)].
Qed.

Lemma valid_from_mono e e' p rs : (e' <= e)%nat -> valid_from e p rs -> valid_from e' p rs.
Proof.
  intros Hle H. inversion H as [|? ? r rs' i k]; subst; [constructor|].
  apply (vf_cons e' p r rs' i k); auto; lia.
Qed.

(** The greedy checker finds an assignment whenever there is one. *)
Lemma scan_valid rs w : (scan w rs).2 = None <-> valid_from (w_epoch w) (w_prev w) rs.
Proof.
  unfold scan. revert w. induction rs as [|r rs IH]; intros w; cbn [check_page].
  { split; [constructor|done]. }
  destruct (check_row keys w r) as [w'|id] eqn:E.
  - apply check_row_ok in E as [Hl (j & k & Hf & ->)]. rewrite IH. simpl.
    apply list_find_Some in Hf as (Hk & Hv & Hmin). rewrite lookup_drop in Hk. split.
    + intros H. apply (vf_cons _ _ r rs (w_epoch w + j) k); try done; [lia|]. by apply Is_true_true in Hv.
    + intros H. inversion H as [|? ? ? ? i k' Hle Hk' Hv' Hl' Hr]; subst.
      eapply valid_from_mono; [|exact Hr].
      destruct (decide (i < w_epoch w + j)%nat) as [Hlt|]; [exfalso|lia].
      apply (Hmin (i - w_epoch w)%nat k'); [|lia|by apply Is_true_true].
      rewrite lookup_drop. by replace (w_epoch w + (i - w_epoch w))%nat with i by lia.
  - split; [done|]. intros H. exfalso. inversion H as [|? ? ? ? i k' Hle Hk' Hv' Hl' Hr]; subst.
    destruct (list_find (vouches (r_content r) (r_prev r) (r_signature r)) (drop (w_epoch w) keys))
      as [[j k]|] eqn:F.
    + assert (check_row keys w r = inl (mkWalk (w_epoch w + j) (Some (r_signature r)) (S (w_count w))))
        by (apply check_row_ok; eauto). congruence.
    + apply list_find_None in F. rewrite Forall_forall in F. apply (F k'); [|by apply Is_true_true].
      apply list_elem_of_lookup. exists (i - w_epoch w)%nat. rewrite lookup_drop.
      by replace (w_epoch w + (i - w_epoch w))%nat with i by lia.
Qed.

Lemma scan_app w a b : scan w (a ++ b) =
  match scan w a with (w', None) => scan w' b | r => r end.
Proof.
  unfold scan. revert w. induction a as [|r a IH]; intros w; cbn [check_page app]; [done|].
  by destruct (check_row keys w r).
Qed.
End spec.

(** ** Pages *)

Definition rows_after (cursor : option Z) (tbl : Table) : Table :=
  match cursor with None => tbl | Some c => filter (fun r => c < r_id r) tbl end.

Lemma rows_after_sorted c tbl : table_wf tbl -> table_wf (rows_after c tbl).
Proof. intros. destruct c; [by apply StronglySorted_filter|done]. Qed.

Lemma filter_id {A} (P : A -> Prop) `{!forall x, Decision (P x)} l : Forall P l -> filter P l = l.
Proof. induction 1 as [|x l ? _ IH]; [done|]. by rewrite filter_cons_True, IH. Qed.

Lemma filter_none {A} (P : A -> Prop) `{!forall x, Decision (P x)} l :
  Forall (fun x => ~ P x) l -> filter P l = [].
Proof. induction 1 as [|x l ? _ IH]; [done|]. by rewrite filter_cons_False. Qed.

(** The rows after the last row of a page are the rows the page left. *)
Lemma rows_after_page c tbl page more lst : table_wf tbl -> rows_after c tbl = page ++ more ->
  last page = Some lst -> rows_after (Some (r_id lst)) tbl = more.
Proof.
  intros Hs E Hl. pose proof (rows_after_sorted c tbl Hs) as Hs'. rewrite E in Hs'.
  destruct (proj1 (last_Some page lst) Hl) as [pre ->]. clear Hl.
  assert (Hc : forall c', c = Some c' -> c' < r_id lst).
  { intros c' ->. assert (lst ∈ rows_after (Some c') tbl) as H by (rewrite E; set_solver).
    by apply list_elem_of_filter in H as [? _]. }
  transitivity (filter (fun r => r_id lst < r_id r) (rows_after c tbl)).
  { destruct c as [c'|]; [|done]. simpl. rewrite list_filter_filter. apply list_filter_iff.
    intros r. specialize (Hc c' eq_refl). lia. }
  rewrite E. unfold table_wf in Hs'. rewrite <- app_assoc in Hs'. cbn [app] in Hs'.
  apply StronglySorted_app in Hs' as (Hpre & _ & Hrest). apply StronglySorted_inv in Hrest as [_ Hmore].
  rewrite !filter_app. rewrite (filter_none _ pre), filter_cons_False; simpl; [|lia|].
  - apply filter_id. done.
  - apply Forall_forall. intros x Hx. specialize (Hpre x lst Hx). simpl in Hpre.
    assert (r_id x < r_id lst) by (apply Hpre; set_solver). lia.
Qed.

Section pages.
Context {CO : CryptoOps}.
Variable keys : list AuditKeyEpoch.

(** The paged walk is the walk over all rows, and always ends. *)
Lemma verify_loop_scan fuel : forall tbl cursor w, table_wf tbl ->
  (length (rows_after cursor tbl) < fuel)%nat ->
  verify_loop keys fuel tbl cursor w = Some (scan keys w (rows_after cursor tbl)).
Proof.
  induction fuel as [|fuel IH]; intros tbl cursor w Hs Hf; [lia|]. cbn [verify_loop].
  change (find_page tbl cursor) with (take PAGE (rows_after cursor tbl)).
  set (rows := rows_after cursor tbl) in *. set (page := take PAGE rows).
  assert (Hr : rows = page ++ drop PAGE rows) by (symmetry; apply take_drop).
  destruct (last page) as [lst|] eqn:Hl.
  - pose proof (scan_app keys w page (drop PAGE rows)) as Hscan. rewrite <- Hr in Hscan. rewrite Hscan.
    unfold scan at 1. destruct (check_page keys w page) as [w' [id|]] eqn:Hp; [done|].
    destruct (length page <? PAGE)%nat eqn:Hlen; b2p.
    + unfold page in Hlen. rewrite length_take in Hlen. by rewrite drop_ge by lia.
    + assert (Ha : rows_after (Some (r_id lst)) tbl = drop PAGE rows)
        by (by eapply (rows_after_page cursor tbl page)).
      rewrite IH; [by rewrite Ha|done|]. rewrite Ha, length_drop.
      assert (0 < length rows)%nat by (destruct rows; [done|simpl; lia]). unfold PAGE. lia.
  - apply last_None in Hl. destruct rows; [done|]. done.
Qed.

Lemma verifyActivityChain_scan tbl from : table_wf tbl ->
  verifyActivityChain keys tbl from =
    let '(w, broken) := scan keys (mkWalk 0 (snd <$> from) 0) (rows_after (fst <$> from) tbl) in
    Some (mkResult (bool_decide (broken = None)) (w_count w) broken).
Proof.
  intros Hs. unfold verifyActivityChain. rewrite verify_loop_scan; [|done|].
  - by destruct (scan _ _ _).
  - assert (length (rows_after (fst <$> from) tbl) <= length tbl)%nat; [|lia].
    destruct from; simpl; [apply length_filter|lia].
Qed.

Lemma scan_count w rs w' : scan keys w rs = (w', None) -> w_count w' = (w_count w + length rs)%nat.
Proof.
  unfold scan. revert w. induction rs as [|r rs IH]; intros w; cbn [check_page]; [intros [= ->]; simpl; lia|].
  destruct (check_row keys w r) as [w1|] eqn:E; [|done]. intros H%IH.
  apply check_row_ok in E as [_ (? & ? & _ & ->)]. simpl in *. lia.
Qed.

(** A break is reported at the first row that cannot be explained. *)
Lemma scan_break w rs w' id : scan keys w rs = (w', Some id) ->
  exists pre r post, rs = pre ++ r :: post /\ id = r_id r /\
    w_count w' = (w_count w + length pre + 1)%nat /\
    (scan keys w pre).2 = None /\ (scan keys w (pre ++ [r])).2 <> None.
Proof.
  unfold scan. revert w. induction rs as [|r rs IH]; intros w; cbn [check_page]; [done|].
  destruct (check_row keys w r) as [w1|i] eqn:E.
  - intros (pre & r' & post & -> & -> & Hc & H1 & H2)%IH.
    exists (r :: pre), r', post. cbn [app check_page]. rewrite E. split_and!; try done.
    apply check_row_ok in E as [_ (? & ? & _ & ->)]. simpl in *. lia.
  - intros [= <- <-]. exists [], r, rs. cbn [app check_page]. rewrite E.
    assert (i = r_id r) as ->; [|split_and!; try done; simpl; lia].
    unfold check_row in E. repeat case_match; by simplify_eq.
Qed.
End pages.

(** ** Rings of HMAC keys *)

Definition epochFor `{CryptoOps} (key : list N) : AuditKeyEpoch :=
  mkEpoch (auditKeyId key) (mkSigner (hmac_sign key) (hmac_verify key)).

Definition ring `{CryptoOps} (ks : list (list N)) : list AuditKeyEpoch := epochFor <$> ks.

(** The link of a row to the row before it, or to the anchor. *)
Definition linked `{CryptoOps} (p : option jsstr) (before : option ActivityRow) (r : ActivityRow) : Prop :=
  match before, p with
  | Some b, _ => r_prev r = hashSignature (r_signature b)
  | None, Some s => r_prev r = hashSignature s
  | None, None => True
  end.

Section chains.
Context {CO : CryptoOps}.
Implicit Types keys : list AuditKeyEpoch.

Lemma valid_from_snoc_inv keys rs : forall e p r, valid_from keys e p (rs ++ [r]) ->
  valid_from keys e p rs /\ linked p (last rs) r /\
  exists i k, (e <= i)%nat /\ keys !! i = Some k /\ vouches (r_content r) (r_prev r) (r_signature r) k = true.
Proof.
  induction rs as [|r0 rs IH]; intros e p r Hv; cbn [app] in Hv;
    inversion Hv as [|? ? ? ? i k Hle Hk Hvo Hl Hr]; subst.
  - split; [constructor|]. split; [by destruct p|]. exists i, k. done.
  - apply IH in Hr as (Hr & Hlast & i' & k' & Hi' & Hk' & Hv'). split_and!.
    + by eapply (vf_cons keys e p r0 rs i k).
    + revert Hlast. rewrite last_cons. by destruct (last rs).
    + exists i', k'. split_and!; [lia|done..].
Qed.

(** Appending a linked row signed by the newest key. *)
Lemma valid_from_snoc keys rs r i k : forall e p, valid_from keys e p rs ->
  S i = length keys -> (e <= i)%nat -> keys !! i = Some k ->
  vouches (r_content r) (r_prev r) (r_signature r) k = true -> linked p (last rs) r ->
  valid_from keys e p (rs ++ [r]).
Proof.
  induction rs as [|r0 rs IH]; intros e p Hv Hi He Hk Hvo Hl; cbn [app].
  - apply (vf_cons keys e p r [] i k); try done. constructor.
  - inversion Hv as [|? ? ? ? i' k' Hle Hk' Hvo' Hl' Hr]; subst.
    apply (vf_cons keys e p r0 _ i' k'); try done. apply IH; try done.
    + apply lookup_lt_Some in Hk'. lia.
    + revert Hl. rewrite last_cons. by destruct (last rs).
Qed.

Lemma valid_from_more_keys keys more e p rs : valid_from keys e p rs -> valid_from (keys ++ more) e p rs.
Proof.
  induction 1 as [|e p r rs i k ? Hk ? ? ? IH]; [constructor|].
  apply (vf_cons _ e p r rs i k); try done. by apply lookup_app_l_Some.
Qed.

(** Dropping a prefix re-anchors the walk on the first row left. *)
Lemma valid_from_drop keys n rs : forall e p, valid_from keys e p rs -> valid_from keys 0 None (drop n rs).
Proof.
  assert (H0 : forall e p l, valid_from keys e p l -> valid_from keys 0 None l).
  { intros e p l Hv. inversion Hv as [|? ? r rs' i k]; subst; [constructor|].
    apply (vf_cons keys 0 None r rs' i k); auto; lia. }
  revert n. induction rs as [|r rs IH]; intros n e p Hv; [destruct n; constructor|].
  destruct n as [|n]; simpl; [by eapply H0|].
  inversion Hv; subst. by eapply IH.
Qed.

Lemma valid_from_app_inv keys a b : forall e p, valid_from keys e p (a ++ b) ->
  exists e', (e <= e')%nat /\ (forall r, last a = Some r -> exists k, keys !! e' = Some k /\
    vouches (r_content r) (r_prev r) (r_signature r) k = true) /\
  valid_from keys e' (match last a with Some r => Some (r_signature r) | None => p end) b.
Proof.
  induction a as [|r0 a IH]; intros e p Hv; cbn [app] in Hv.
  - exists e. by split_and!.
  - inversion Hv as [|? ? ? ? i k Hle Hk Hvo Hl Hr]; subst.
    apply IH in Hr as (e' & He' & Hlast & Hb). destruct a as [|r1 a'].
    + exists i. split_and!; [done| |].
      * intros r [= <-]. eauto.
      * simpl. by eapply valid_from_mono.
    + exists e'. split_and!; [lia|..].
      * intros r. rewrite last_cons_cons. apply Hlast.
      * rewrite last_cons_cons. destruct (last (r1 :: a')) eqn:El; [done|]. by apply last_None in El.
Qed.
End chains.

Section tamper.
Context {CO : CryptoOps} {CL : CryptoLaws}.
Implicit Types ks : list (list N).

Lemma vouches_hmac c p s key : vouches c p s (epochFor key) = true <-> hmac_sign key c p = Ok s.
Proof.
  unfold vouches. simpl. rewrite <- hmac_verify_iff.
  destruct (hmac_verify key c p s) as [b|]; [|naive_solver]. split; [by intros ->|by intros [= ->]].
Qed.

Lemma ring_lookup ks i k : ring ks !! i = Some k <-> exists key, ks !! i = Some key /\ k = epochFor key.
Proof. unfold ring. rewrite list_lookup_fmap. destruct (ks !! i); naive_solver. Qed.

(** A row whose content and previous hash are as the recorder writes them. *)
Definition row_wf (r : ActivityRow) : Prop := content_wf (r_content r) /\ prev_wf (r_prev r).

(** Two rows of the two tables that are a collision: their signed texts
    differ and have one HMAC, or their signatures differ and have one hash. *)
Definition collide (l l' : Table) : Prop :=
  exists r r', r ∈ l /\ r' ∈ l' /\
    ((exists k k' t t', canonicalizeRowContent (r_content r) = Ok t /\
        canonicalizeRowContent (r_content r') = Ok t' /\
        signed_text t (r_prev r) <> signed_text t' (r_prev r') /\
        hmac_b64 k (signed_text t (r_prev r)) = hmac_b64 k' (signed_text t' (r_prev r')) /\
        hmac_b64 k (signed_text t (r_prev r)) = r_signature r) \/
     (r_signature r <> r_signature r' /\ hashSignature (r_signature r) = hashSignature (r_signature r'))).

Lemma collide_mono l l' m m' : l ⊆ m -> l' ⊆ m' -> collide l l' -> collide m m'.
Proof. intros Hl Hl' (r & r' & ? & ? & ?). exists r, r'. split_and!; [by apply Hl|by apply Hl'|done]. Qed.

Lemma same_signature l l' r r' k k' : r ∈ l -> r' ∈ l' -> row_wf r -> row_wf r' ->
  hmac_sign k (r_content r) (r_prev r) = Ok (r_signature r) ->
  hmac_sign k' (r_content r') (r_prev r') = Ok (r_signature r') ->
  r_signature r = r_signature r' ->
  (same_content (r_content r) (r_content r') /\ r_prev r = r_prev r') \/ collide l l'.
Proof.
  intros Hin Hin' [Wc Wp] [Wc' Wp'] Hs Hs' E.
  pose proof Hs as (t & Ht & [= Et])%rbind_ok. pose proof Hs' as (u & Hu & [= Eu])%rbind_ok.
  destruct (decide (signed_text t (r_prev r) = signed_text u (r_prev r'))) as [D|D].
  - left. apply signed_text_inj in D as [-> ->]; [|done..]. by split; [eapply canonical_content_inj|].
  - right. exists r, r'. split_and!; [done..|]. left. exists k, k', t, u. split_and!; try done. congruence.
Qed.

(** Two chains that verify and end in one signature agree backwards from it. *)
Lemma chains_agree ks ks' l : forall l' e e' p p', valid_from (ring ks) e p l -> valid_from (ring ks') e' p' l' ->
  Forall row_wf l -> Forall row_wf l' ->
  r_signature <$> last l = r_signature <$> last l' ->
  (forall i r r', reverse l !! i = Some r -> reverse l' !! i = Some r' ->
     same_content (r_content r) (r_content r') /\ r_prev r = r_prev r' /\ r_signature r = r_signature r') \/
  collide l l'.
Proof.
  induction l as [|r l IH] using rev_ind; intros l' e e' p p' Hv Hv' Hw Hw' Hl; [left; by intros [] ? ?|].
  destruct l' as [|r' l' _] using rev_ind; [left; by intros [] ? ?|].
  rewrite !last_snoc in Hl. simpl in Hl. injection Hl as Hsig.
  apply valid_from_snoc_inv in Hv as (Hv & Hlk & i & k & _ & Hk & Hvo),
    Hv' as (Hv' & Hlk' & i' & k' & _ & Hk' & Hvo').
  apply ring_lookup in Hk as (key & _ & ->), Hk' as (key' & _ & ->). rewrite vouches_hmac in Hvo, Hvo'.
  rewrite Forall_app, Forall_singleton in Hw, Hw'. destruct Hw as [Hw Hr], Hw' as [Hw' Hr'].
  destruct (same_signature (l ++ [r]) (l' ++ [r']) r r' key key') as [[Hc Hp]|?]; try done;
    [by apply elem_of_app; right; left..| |by right].
  assert (Hsub : collide l l' -> collide (l ++ [r]) (l' ++ [r'])) by (apply collide_mono; by apply list_subseteq_app_l).
  destruct (decide (l = [] \/ l' = [])) as [Hnil|Hnil].
  { left. intros [|j] x y; rewrite !reverse_snoc; simpl; [by intros [= <-] [= <-]|].
    destruct Hnil as [-> | ->]; by destruct j. }
  assert (Hlast : r_signature <$> last l = r_signature <$> last l' \/ collide (l ++ [r]) (l' ++ [r'])).
  { destruct (last l) as [b|] eqn:Eb; [|apply last_None in Eb; by destruct Hnil; left].
    destruct (last l') as [b'|] eqn:Eb'; [|apply last_None in Eb'; by destruct Hnil; right]. simpl in *.
    destruct (decide (r_signature b = r_signature b')) as [->|Hne]; [by left|right].
    exists b, b'. apply last_Some_elem_of in Eb, Eb'. split_and!; [by apply elem_of_app; left..|]. right.
    split; [done|]. by rewrite <- Hlk, <- Hlk'. }
  destruct Hlast as [Hlast|?]; [|by right].
  destruct (IH l' e e' p p') as [Hag|?]; try done; [|by right; apply Hsub].
  left. intros [|j] x y; rewrite !reverse_snoc; simpl; [by intros [= <-] [= <-]|apply Hag].
Qed.
End tamper.

(** ** Properties *)

(** C15: the walk always returns, whatever the number of pages, and its answer
    is exact.  It says ok precisely when the rows after the anchor can be
    assigned keys of the ring, never an older one after a newer one, so that
    each row verifies under its key and points at its predecessor's signature;
    it has then counted every row.  Otherwise it names the first row at which
    no such assignment exists, and has counted the rows up to it. *)
Theorem verify_exact `{CryptoOps} keys tbl from : table_wf tbl ->
  let rows := rows_after (fst <$> from) tbl in
  let anchor := snd <$> from in
  exists res, verifyActivityChain keys tbl from = Some res /\
    (v_ok res = true <-> valid_from keys 0 anchor rows) /\
    (v_ok res = true -> v_rowsChecked res = length rows /\ v_brokenAtId res = None) /\
    (v_ok res = false -> exists pre r post, rows = pre ++ r :: post /\
       v_brokenAtId res = Some (r_id r) /\ v_rowsChecked res = S (length pre) /\
       valid_from keys 0 anchor pre /\ ~ valid_from keys 0 anchor (pre ++ [r])).
Proof.
  intros Hs. cbv zeta. rewrite verifyActivityChain_scan by done.
  set (rows := rows_after _ tbl). set (w0 := mkWalk 0 (snd <$> from) 0).
  pose proof (fun l => scan_valid keys l w0) as Hv. simpl in Hv.
  destruct (scan keys w0 rows) as [w b] eqn:E. eexists. split; [done|]. simpl. split_and!.
  - rewrite <- Hv, E. apply bool_decide_eq_true.
  - intros ->%bool_decide_eq_true. apply scan_count in E. simpl in E. done.
  - intros Hb%bool_decide_eq_false. destruct b as [id|]; [|done].
    apply scan_break in E as (pre & r & post & -> & -> & Hc & H1 & H2).
    exists pre, r, post. rewrite <- !Hv. split_and!; try done. simpl in Hc. lia.
Qed.

(** The head pins the history.  Take two row sequences that both verify,
    under any two keyrings, and whose last rows carry the same signature.
    Counting back from the end, the rows at each position then have the same
    signature, the same link and the same signed content, as far as both
    sequences reach, or two of their rows exhibit a collision of HMAC-SHA256
    or SHA-256.  So a rewritten past never ends in the recorded head. *)
Theorem head_pins_history `{CryptoLaws} ks ks' l l' e e' p p' :
  valid_from (ring ks) e p l -> valid_from (ring ks') e' p' l' ->
  Forall row_wf l -> Forall row_wf l' ->
  r_signature <$> last l = r_signature <$> last l' ->
  (forall i r r', reverse l !! i = Some r -> reverse l' !! i = Some r' ->
     same_content (r_content r) (r_content r') /\ r_prev r = r_prev r' /\ r_signature r = r_signature r') \/
  collide l l'.
Proof. apply chains_agree. Qed.

(** An edited row is found.  In a table that verifies, replace the
    content of one row by a content that differs in anything its signature
    covers: the walk then reports a break at exactly that row, having checked
    exactly the rows up to it, or the edit is an HMAC collision with the
    original row. *)
Theorem edited_row_is_located `{CryptoLaws} ks pre r post c :
  table_wf (pre ++ r :: post) -> valid_from (ring ks) 0 None (pre ++ r :: post) ->
  row_wf r -> content_wf c -> ~ same_content (r_content r) c ->
  let r' := mkRow (r_id r) c (r_signature r) (r_prev r) in
  verifyActivityChain (ring ks) (pre ++ r' :: post) None =
    Some (mkResult false (S (length pre)) (Some (r_id r))) \/
  collide [r] [r'].
Proof.
  intros Hs Hv Hr Wc Hne r'.
  assert (Hs' : table_wf (pre ++ r' :: post)).
  { unfold table_wf in *. rewrite !StronglySorted_app in *. destruct Hs as (H1 & H2 & H3).
    apply StronglySorted_inv in H3 as [H3 H4]. split_and!; [|done|by constructor].
    intros x y Hx [->|Hy]%elem_of_cons; [apply (H1 x r)|apply (H1 x y)]; try done; [left|by right]. }
  apply valid_from_app_inv in Hv as Hv'. destruct Hv' as (e & _ & _ & Hrest).
  inversion Hrest as [|? ? ? ? i k _ Hk Hvo Hl _]; subst.
  apply ring_lookup in Hk as (key & _ & ->). rewrite vouches_hmac in Hvo.
  rewrite verifyActivityChain_scan by done. simpl. rewrite scan_app.
  destruct (scan (ring ks) (mkWalk 0 None 0) pre) as [w b] eqn:E.
  assert (b = None) as ->.
  { assert (H2 : (scan (ring ks) (mkWalk 0 None 0) (pre ++ r :: post)).2 = None) by (by apply scan_valid).
    rewrite scan_app, E in H2. by destruct b. }
  pose proof (scan_count _ _ _ _ E) as Hcount. simpl in Hcount.
  unfold scan. cbn [check_page]. destruct (check_row (ring ks) w r') as [w'|id] eqn:Ec.
  - right. apply check_row_ok in Ec as [_ (j & k & Hf & _)].
    apply list_find_Some in Hf as (Hk & Hvk & _). rewrite lookup_drop in Hk.
    apply ring_lookup in Hk as (key' & _ & ->). apply Is_true_true, vouches_hmac in Hvk.
    destruct (same_signature [r] [r'] r r' key key') as [[Hc _]|?]; try done; [by left..|].
    split; [done|apply Hr].
  - left. unfold check_row in Ec. simpl. rewrite Hcount. simpl.
    repeat case_match; simplify_eq; done.
Qed.

(** The epoch rule.  Once a row appears that no key older than the [n]-th
    vouches for (the first row after a rotation), no later row may be signed
    by the retired keys alone: if a later row is vouched for by no key from the
    [n]-th on, the walk fails, whatever lies between. *)
Theorem retired_key_cannot_append `{CryptoOps} keys n a r b f c :
  table_wf (a ++ r :: b ++ f :: c) ->
  Forall (fun k => vouches (r_content r) (r_prev r) (r_signature r) k = false) (take n keys) ->
  Forall (fun k => vouches (r_content f) (r_prev f) (r_signature f) k = false) (drop n keys) ->
  exists res, verifyActivityChain keys (a ++ r :: b ++ f :: c) None = Some res /\ v_ok res = false.
Proof.
  intros Hs Hold Hnew. rewrite verifyActivityChain_scan by done. simpl.
  destruct (scan keys _ _) as [w br] eqn:E. eexists. split; [done|]. simpl.
  apply bool_decide_eq_false. intros ->.
  assert (Hv : valid_from keys 0 None (a ++ r :: b ++ f :: c))
    by (apply (scan_valid keys _ (mkWalk 0 None 0)); by rewrite E).
  apply valid_from_app_inv in Hv as (e & _ & _ & Hv). inversion Hv as [|? ? ? ? i k Hle Hk Hvo _ Hr]; subst.
  apply valid_from_app_inv in Hr as (e' & He' & _ & Hf).
  inversion Hf as [|? ? ? ? j k' Hle' Hk' Hvo' _ _]; subst.
  rewrite Forall_forall in Hold, Hnew.
  assert (n <= i)%nat.
  { destruct (decide (i < n)%nat); [|lia]. rewrite (Hold k) in Hvo; [done|].
    apply list_elem_of_lookup. exists i. by rewrite lookup_take_lt. }
  rewrite (Hnew k') in Hvo'; [done|]. apply list_elem_of_lookup. exists (j - n)%nat.
  rewrite lookup_drop. by replace (n + (j - n))%nat with j by lia.
Qed.

(** ** Witnesses *)

#[local] Existing Instance toy_crypto.
#[local] Existing Instance toy_laws.

Definition key1 : list N := replicate 32 1%N.
Definition key2 : list N := replicate 32 2%N.

Definition signed_row (key : list N) (id : Z) (c : ActivityRowContent) (prev : jsstr) : ActivityRow :=
  mkRow id c (match hmac_sign key c prev with Ok s => s | Throw _ => [] end) prev.

Definition row1 : ActivityRow := signed_row key1 1 sample_content [].
Definition row2 : ActivityRow := signed_row key2 4 sample_content (hashSignature (r_signature row1)).
Definition row3 : ActivityRow := signed_row key1 5 sample_content (hashSignature (r_signature row2)).

Definition other_content : ActivityRowContent :=
  mkContent (Some 1767225600000) (js "err") (js "shield") (js "Signed in") None (js "auth") JNull
    (Some (js "user")) (Some (js "u1")) 2.

Lemma sample_table_wf : table_wf [row1; row2].
Proof. repeat constructor. Qed.
Lemma sample_valid : valid_from (ring [key1; key2]) 0 None [row1; row2].
Proof.
  apply (vf_cons _ 0 None row1 [row2] 0 (epochFor key1)); [lia|done|vm_compute; done|done|].
  apply (vf_cons _ 0 _ row2 [] 1 (epochFor key2)); [lia|done|vm_compute; done|done|constructor].
Qed.
Lemma sample_rows_wf : Forall row_wf [row1; row2].
Proof.
  repeat (apply Forall_cons; split; [split; [apply sample_content_wf|]|]); [constructor| |constructor].
  apply hashSignature_wf.
Qed.

Lemma verify_exact_witness : table_wf [row1; row2] /\
  exists res, verifyActivityChain (ring [key1; key2]) [row1; row2] None = Some res /\
    (v_ok res = true <-> valid_from (ring [key1; key2]) 0 None [row1; row2]) /\
    (v_ok res = true -> v_rowsChecked res = 2%nat /\ v_brokenAtId res = None) /\
    (v_ok res = false -> exists pre r post, [row1; row2] = pre ++ r :: post /\
       v_brokenAtId res = Some (r_id r) /\ v_rowsChecked res = S (length pre) /\
       valid_from (ring [key1; key2]) 0 None pre /\ ~ valid_from (ring [key1; key2]) 0 None (pre ++ [r])).
Proof.
  split; [apply sample_table_wf|].
  exact (verify_exact (ring [key1; key2]) [row1; row2] None sample_table_wf).
Defined.

Lemma head_pins_history_witness :
  (forall i r r', reverse [row1; row2] !! i = Some r -> reverse [row1; row2] !! i = Some r' ->
     same_content (r_content r) (r_content r') /\ r_prev r = r_prev r' /\ r_signature r = r_signature r') \/
  collide [row1; row2] [row1; row2].
Proof.
  exact (head_pins_history [key1; key2] [key1; key2] [row1; row2] [row1; row2] 0 0 None None
           sample_valid sample_valid sample_rows_wf sample_rows_wf eq_refl).
Defined.

Lemma edited_row_is_located_witness :
  ~ same_content (r_content row1) other_content /\
  (verifyActivityChain (ring [key1; key2]) [mkRow 1 other_content (r_signature row1) []; row2] None =
     Some (mkResult false 1 (Some 1)) \/
   collide [row1] [mkRow 1 other_content (r_signature row1) []]).
Proof.
  assert (Hne : ~ same_content (r_content row1) other_content) by (intros (_ & _ & E & _); discriminate E).
  split; [exact Hne|].
  refine (edited_row_is_located [key1; key2] [] row1 [row2] other_content sample_table_wf sample_valid _ _ Hne).
  - split; [apply sample_content_wf|constructor].
  - split; [done|vm_compute; split; discriminate].
Defined.

Lemma retired_key_cannot_append_witness : exists res,
  verifyActivityChain (ring [key1; key2]) [row1; row2; row3] None = Some res /\ v_ok res = false.
Proof.
  apply (retired_key_cannot_append (ring [key1; key2]) 1 [row1] row2 [] row3 []);
    [repeat constructor|repeat constructor; vm_compute; reflexivity..].
Defined.
