(* ===== verification/AuditRecorder.v ===== *)
(** * AuditRecorder: appending to the chain
      (apps/orchestrator/src/services/activity.service.ts and
       activity.singleton.ts)

    The recorder's input checks, the statements of one append (lock, tail
    read, sign, insert), the process keyring, and a machine that interleaves
    any number of transactions at statement granularity: each statement of an
    append is one event, reads see the committed rows and the transaction's
    own, ids come from a sequence that never goes back, and the advisory lock
    is held until commit or rollback.

    PostgreSQL is a parameter where its casts matter: [store_content] is what
    the columns give back for the values bound by the INSERT, or [None] when a
    cast refuses them; [StorageLaws] states that every column comes back as
    bound, the jsonb column up to the order of object members. *)

From S2P Require Import Prelude JsNum Json DateTime AuditSigning AuditVerify.

Local Open Scope Z_scope.

(** ** Parameters of a record *)

Record ActivityActor := mkActor { a_type : jsstr; a_id : option jsstr }.

(** [sub] and [actor.id] read [undefined] as [null]; a missing actor is
    [None], an absent [at] is [None], an invalid one [Some None]. *)
Record RecordParams := mkParams {
  p_kind : jsstr;
  p_severity : jsstr;
  p_sourceIcon : jsstr;
  p_what : jsstr;
  p_sub : option jsstr;
  p_refs : jsval;
  p_actor : option ActivityActor;
  p_at : option (option Z)
}.

Inductive RecordError :=
| UnknownKind | UnknownSeverity | UnknownActorType | MissingUserId
| NotReadCommitted | DifferentTransactions | BareClient | NoTransactionId | NotATransactionClient
| SignFailed (e : AuditError) | NotInitialised.

Definition KNOWN_KINDS : list jsstr :=
  js <$> ["chat"; "tool_call"; "file"; "camera"; "network"; "smart_home"; "email"; "auth";
          "tool_run"; "system"; "voice"]%string.
Definition KNOWN_SEVERITIES : list jsstr := js <$> ["ok"; "warn"; "err"; "info"]%string.
Definition KNOWN_ACTOR_TYPES : list jsstr := js <$> ["user"; "ai"; "system"; "anonymous"]%string.
Definition CURRENT_ACTIVITY_SCHEMA_VERSION : Z := 2.

(** [req.user] as its id and role. *)
Definition actorFromRequest (user : option (jsstr * option jsstr)) : ActivityActor :=
  match user with
  | None | Some ([], _) => mkActor (js "anonymous") None
  | Some (id, role) =>
      if bool_decide (role = Some (js "service")) || startsWith (js "_service:") id
      then mkActor (js "system") None else mkActor (js "user") (Some id)
  end.

Definition validateRecordParams (p : RecordParams) : result RecordError unit :=
  if bool_decide (p_kind p ∉ KNOWN_KINDS) then Throw UnknownKind
  else if bool_decide (p_severity p ∉ KNOWN_SEVERITIES) then Throw UnknownSeverity
  else match p_actor p with
       | None => Throw UnknownActorType
       | Some a =>
           if bool_decide (a_type a ∉ KNOWN_ACTOR_TYPES) then Throw UnknownActorType
           else if bool_decide (a_type a = js "user") &&
                   match a_id a with None | Some [] => true | Some i => bool_decide (trim i = []) end
           then Throw MissingUserId else Ok tt
       end.

Definition snapshotRecordParams (p : RecordParams) (defaultAt : Z) : RecordParams :=
  mkParams (p_kind p) (p_severity p) (p_sourceIcon p) (p_what p) (p_sub p) (p_refs p) (p_actor p)
    (Some (match p_at p with Some d => d | None => Some defaultAt end)).

(** ** The transaction handle *)

(** The shape the checks look at: is it the bare client, which transaction id
    does it carry, and does it have Prisma's two methods. *)
Record ActivityAppendTx := mkHandle { h_bare : bool; h_txid : option jsstr; h_methods : bool }.

Definition transactionIdOf (tx : ActivityAppendTx) : result RecordError jsstr :=
  match h_txid tx with
  | None | Some [] => Throw NoTransactionId
  | Some id => if h_methods tx then Ok id else Throw NotATransactionClient
  end.

(** [appendActivityRowInTx] up to the queue: the snapshot that will be
    appended, and the queue it waits in. *)
Definition admitAppend (tx : ActivityAppendTx) (p : RecordParams) (now : Z)
  : result RecordError (jsstr * RecordParams) :=
  let p := snapshotRecordParams p now in
  validateRecordParams p ;;!
  if h_bare tx then Throw BareClient
  else let! id := transactionIdOf tx in Ok (id, p).

(** ** The statements of one append *)

Definition content_of (p : RecordParams) (now : Z) : ActivityRowContent :=
  mkContent (match p_at p with Some d => d | None => Some now end)
    (p_severity p) (p_sourceIcon p) (p_what p) (p_sub p) (p_kind p)
    (match p_refs p with JUndef => JNull | r => r end)
    (a_type <$> p_actor p) (p_actor p ≫= a_id) CURRENT_ACTIVITY_SCHEMA_VERSION.

Definition check_isolation (iso : jsstr) : result RecordError unit :=
  if bool_decide (iso = js "read committed") then Ok tt else Throw NotReadCommitted.

Definition check_same_transaction (lockTxts tailTxts : jsstr) : result RecordError unit :=
  if bool_decide (lockTxts = []) || negb (bool_decide (tailTxts = lockTxts))
  then Throw DifferentTransactions else Ok tt.

Definition prev_hash `{CryptoOps} (prevSig : option jsstr) : jsstr :=
  match prevSig with None | Some [] => [] | Some s => hashSignature s end.

(** What the INSERT binds: the content, the signature and the previous hash. *)
Definition sign_append `{CryptoOps} (s : ActivityRowSigner) (p : RecordParams) (now : Z) (prevSig : option jsstr)
  : result RecordError (ActivityRowContent * jsstr * jsstr) :=
  let content := content_of p now in
  let prev := prev_hash prevSig in
  match sign s content prev with
  | Ok signature => Ok (content, signature, prev)
  | Throw e => Throw (SignFailed e)
  end.

(** [SELECT signature ... ORDER BY id DESC LIMIT 1] over the visible rows. *)
Definition tail_row (rows : Table) : option ActivityRow :=
  foldr (fun r acc => match acc with
                      | Some b => if r_id b <? r_id r then Some r else acc
                      | None => Some r end) None rows.

(** ** The keyring of the process *)

Record AuditSingleton := mkSingleton { s_current : AuditKeyEpoch; s_retired : list AuditKeyEpoch }.

Definition getAuditKeyring (s : option AuditSingleton) : list AuditKeyEpoch :=
  match s with Some s => s_retired s ++ [s_current s] | None => [] end.

Definition makeEpoch `{CryptoOps} (key : list N) : result AuditError AuditKeyEpoch :=
  let! s := createHmacSigner key in Ok (mkEpoch (auditKeyId key) s).

Definition initActivityRecorder `{CryptoOps} (decode : jsstr -> list N) (disk : option (list N))
    (env node_env : option jsstr) (retiredDir : option (list (jsstr * list N)))
  : result AuditError AuditSingleton :=
  let! k := loadAuditKeyFromDisk decode disk env node_env in
  let! cur := makeEpoch k.1 in
  Ok (mkSingleton cur (filter (fun k => keyId k <> keyId cur) (loadRetiredAuditKeys retiredDir))).

Inductive AdoptError := AdoptSigner (e : AuditError) | AlreadyInRing.

Definition adoptAuditKey `{CryptoOps} (s : AuditSingleton) (newKey : list N)
  : result AdoptError (AuditSingleton * (jsstr * jsstr)) :=
  match makeEpoch newKey with
  | Throw e => Throw (AdoptSigner e)
  | Ok next =>
      if bool_decide (keyId next = keyId (s_current s)) ||
         existsb (fun k => bool_decide (keyId k = keyId next)) (s_retired s)
      then Throw AlreadyInRing
      else Ok (mkSingleton next (s_retired s ++ [s_current s]), (keyId (s_current s), keyId next))
  end.

(** ** The machine *)

Class Storage := store_content : ActivityRowContent -> option ActivityRowContent.

(** Where an append of a transaction stands. *)
Inductive phase :=
| Idle
| Locked (p : RecordParams)
| TailRead (p : RecordParams) (prevSig : option jsstr)
| Aborted.

Record txn := mkTxn { t_iso : jsstr; t_txts : jsstr; t_phase : phase; t_own : Table }.

Record db := mkDb {
  d_rows : Table;
  d_seq : Z;
  d_lock : option nat;
  d_txs : gmap nat txn;
  d_ring : AuditSingleton
}.

Inductive event :=
| EBegin (t : nat) (iso txts : jsstr)
| ELock (t : nat) (p : RecordParams) (now : Z)
| ETail (t : nat)
| EInsert (t : nat) (now : Z)
| ECommit (t : nat)
| ERollback (t : nat)
| ERotate (newKey : list N)
| EPurge (n : nat).

Fixpoint insert_by_id (r : ActivityRow) (l : Table) : Table :=
  match l with
  | [] => [r]
  | x :: l' => if r_id x <? r_id r then x :: insert_by_id r l' else r :: l
  end.

(** The table after a commit: the old and the new rows by id. *)
Definition table_union (rows own : Table) : Table := foldr insert_by_id own rows.

Definition set_tx (d : db) (t : nat) (tx : txn) (lock : option nat) (seq : Z) : db :=
  mkDb (d_rows d) seq lock (<[t := tx]> (d_txs d)) (d_ring d).

Definition end_tx (d : db) (t : nat) (rows : Table) : db :=
  mkDb rows (d_seq d) (if decide (d_lock d = Some t) then None else d_lock d) (delete t (d_txs d)) (d_ring d).

Section machine.
Context {CO : CryptoOps} {ST : Storage}.

Definition in_phase (tx : txn) (f : phase) : txn := mkTxn (t_iso tx) (t_txts tx) f (t_own tx).

(** One event; [None] when it is not enabled. *)
Definition step (d : db) (ev : event) : option db :=
  match ev with
  | EBegin t iso txts =>
      match d_txs d !! t with
      | None => Some (set_tx d t (mkTxn iso txts Idle []) (d_lock d) (d_seq d))
      | Some _ => None
      end
  | ELock t p now =>
      match d_txs d !! t with
      | Some tx =>
          let p := snapshotRecordParams p now in
          match t_phase tx, validateRecordParams p with
          | Idle, Ok _ =>
              if bool_decide (d_lock d = None \/ d_lock d = Some t) then
                let f := match check_isolation (t_iso tx) with Ok _ => Locked p | Throw _ => Idle end in
                Some (set_tx d t (in_phase tx f) (Some t) (d_seq d))
              else None  (* waits *)
          | _, _ => None
          end
      | None => None
      end
  | ETail t =>
      match d_txs d !! t with
      | Some tx =>
          match t_phase tx with
          | Locked p =>
              let f := match check_same_transaction (t_txts tx) (t_txts tx) with
                       | Ok _ => TailRead p (r_signature <$> tail_row (d_rows d ++ t_own tx))
                       | Throw _ => Idle
                       end in
              Some (set_tx d t (in_phase tx f) (d_lock d) (d_seq d))
          | _ => None
          end
      | None => None
      end
  | EInsert t now =>
      match d_txs d !! t with
      | Some tx =>
          match t_phase tx with
          | TailRead p prevSig =>
              match sign_append (signer (s_current (d_ring d))) p now prevSig with
              | Throw _ => Some (set_tx d t (in_phase tx Idle) (d_lock d) (d_seq d))
              | Ok (content, signature, prev) =>
                  match store_content content with
                  | None => Some (set_tx d t (in_phase tx Aborted) (d_lock d) (d_seq d + 1))
                  | Some stored =>
                      let row := mkRow (d_seq d) stored signature prev in
                      Some (set_tx d t (mkTxn (t_iso tx) (t_txts tx) Idle (t_own tx ++ [row]))
                              (d_lock d) (d_seq d + 1))
                  end
              end
          | _ => None
          end
      | None => None
      end
  | ECommit t =>
      match d_txs d !! t with
      | Some tx => match t_phase tx with
                   | Idle => Some (end_tx d t (table_union (d_rows d) (t_own tx)))
                   | _ => None
                   end
      | None => None
      end
  | ERollback t =>
      match d_txs d !! t with Some _ => Some (end_tx d t (d_rows d)) | None => None end
  | ERotate key =>
      match adoptAuditKey (d_ring d) key with
      | Ok (s, _) => Some (mkDb (d_rows d) (d_seq d) (d_lock d) (d_txs d) s)
      | Throw _ => None
      end
  | EPurge n => Some (mkDb (drop n (d_rows d)) (d_seq d) (d_lock d) (d_txs d) (d_ring d))
  end.

Definition run (d : db) (evs : list event) : option db :=
  foldl (fun acc ev => acc ≫= fun d => step d ev) (Some d) evs.
End machine.

(** ** Interfaces *)

(** What the recorder needs of a signer. *)
Class LawfulSigner (s : ActivityRowSigner) : Prop := {
  sign_verify c p x : sign s c p = Ok x -> verify s c p x = Ok true;
  verify_ext c d p x : same_content c d -> verify s c p x = verify s d p x;
  sign_nonempty c p x : sign s c p = Ok x -> x <> []
}.

#[export] Instance hmac_lawful `{CryptoLaws} key : LawfulSigner (mkSigner (hmac_sign key) (hmac_verify key)).
Proof.
  split; simpl.
  - intros c p x. by rewrite hmac_verify_iff.
  - intros c d p x E. unfold hmac_verify, hmac_sign. by rewrite (same_content_canonical c d).
  - intros c p x (t & _ & [= <-])%rbind_ok. apply hmac_b64_nonempty.
Qed.

(** The columns hold what was bound; [refs] is bound as its canonical text and
    read back up to the order of members, absent refs as NULL. *)
Definition stored_as (c c' : ActivityRowContent) : Prop :=
  c_at c' = c_at c /\ c_severity c' = c_severity c /\ c_sourceIcon c' = c_sourceIcon c /\
  c_what c' = c_what c /\ c_sub c' = c_sub c /\ c_kind c' = c_kind c /\
  c_actorType c' = c_actorType c /\ c_actorId c' = c_actorId c /\ c_schemaVersion c' = c_schemaVersion c /\
  val_wf (c_refs c') /\
  match canonicalRefsJson (c_refs c) with
  | None => c_refs c' = JNull
  | Some _ => same_json (canon (c_refs c)) (c_refs c')
  end.

Class StorageLaws `{Storage} : Prop :=
  storage_faithful : forall c c', store_content c = Some c' -> stored_as c c'.

(** The signed content survives the database. *)
Lemma stored_same_content c c' : val_wf (c_refs c) -> stored_as c c' -> same_content c c'.
Proof.
  intros Hw (Ea & Es & Ei & Ew & Eu & Ek & Et & Eid & Ev & Hw' & Er). unfold same_content.
  split_and!; try congruence; [|intros _; split; congruence].
  assert (E : canonicalRefsJson (c_refs c) = None -> canon (c_refs c) = JNull) by (by destruct (c_refs c)).
  destruct (canonicalRefsJson (c_refs c)).
  - rewrite <- (same_json_canon _ _ (canon_wf _ Hw) Er). by rewrite canon_idem.
  - by rewrite Er, E.
Qed.

(** ** Tables by id *)

Lemma tail_row_last rows : table_wf rows -> tail_row rows = last rows.
Proof.
  induction rows as [|r rows IH]; intros Hs; [done|]. apply StronglySorted_inv in Hs as [Hs Hr].
  cbn [tail_row foldr]. change (foldr _ None rows) with (tail_row rows). rewrite IH by done.
  rewrite last_cons. destruct (last rows) as [b|] eqn:E; [|done].
  rewrite Forall_forall in Hr. apply last_Some_elem_of in E. specialize (Hr b E). simpl in Hr.
  by rewrite (proj2 (Z.ltb_ge _ _)) by lia.
Qed.

Lemma table_union_app rows own : table_wf (rows ++ own) -> table_union rows own = rows ++ own.
Proof.
  unfold table_union. induction rows as [|r rows IH]; intros Hs; [done|]. cbn [app] in Hs.
  apply StronglySorted_inv in Hs as [Hs Hr]. cbn [foldr app]. rewrite IH by done.
  destruct (rows ++ own) as [|x l]; [done|]. apply Forall_cons in Hr as [Hx _]. simpl.
  by rewrite (proj2 (Z.ltb_ge _ _)) by (simpl in Hx; lia).
Qed.

Lemma table_wf_snoc rows r : table_wf rows -> Forall (fun x => r_id x < r_id r) rows -> table_wf (rows ++ [r]).
Proof.
  intros Hs Hr. apply StronglySorted_app_2; [|done|repeat constructor].
  intros x y Hx ->%list_elem_of_singleton. rewrite Forall_forall in Hr. by apply Hr.
Qed.

(** ** The invariant of the machine *)

(** A JavaScript value has distinct keys, and a date is in range. *)
Definition params_wf (p : RecordParams) : Prop :=
  val_wf (p_refs p) /\ match p_at p with Some (Some t) => - MAX_TIME <= t <= MAX_TIME | _ => True end.

Definition event_wf (ev : event) : Prop :=
  match ev with ELock _ p now => params_wf p /\ - MAX_TIME <= now <= MAX_TIME | _ => True end.

(** The uncommitted rows of the lock's holder. *)
Definition own_rows (d : db) : Table :=
  match d_lock d with
  | Some t => match d_txs d !! t with Some tx => t_own tx | None => [] end
  | None => []
  end.

Definition phase_params (f : phase) : option RecordParams :=
  match f with Locked p | TailRead p _ => Some p | _ => None end.

(** A pending append was admitted: well-formed and stamped. *)
Definition pending_wf (f : phase) : Prop :=
  match phase_params f with Some p => params_wf p /\ is_Some (p_at p) | None => True end.

Section invariant.
Context {CO : CryptoOps} {CL : CryptoLaws} {ST : Storage} {SL : StorageLaws}.

Definition ring_of (d : db) : list AuditKeyEpoch := getAuditKeyring (Some (d_ring d)).

(** The committed rows with the holder's own are one valid chain in id order. *)
Record chain_inv (rows : Table) (seq : Z) (ring : list AuditKeyEpoch) : Prop := {
  ci_sorted : table_wf rows;
  ci_seq : Forall (fun r => r_id r < seq) rows;
  ci_signed : Forall (fun r => r_signature r <> []) rows;
  ci_valid : valid_from ring 0 None rows
}.

Record Inv (d : db) : Prop := {
  i_chain : chain_inv (d_rows d ++ own_rows d) (d_seq d) (ring_of d);
  i_lock : forall t, d_lock d = Some t -> is_Some (d_txs d !! t);
  i_idle : forall t tx, d_txs d !! t = Some tx -> d_lock d <> Some t -> t_own tx = [] /\ t_phase tx = Idle;
  i_tail : forall t tx p s r, d_lock d = Some t -> d_txs d !! t = Some tx -> t_phase tx = TailRead p s ->
             last (d_rows d ++ t_own tx) = Some r -> s = Some (r_signature r);
  i_pending : forall t tx, d_txs d !! t = Some tx -> pending_wf (t_phase tx);
  i_lawful : Forall (fun k => LawfulSigner (signer k)) (ring_of d)
}.

Lemma own_rows_holder d t tx : d_lock d = Some t -> d_txs d !! t = Some tx -> own_rows d = t_own tx.
Proof. unfold own_rows. by intros -> ->. Qed.

Lemma own_rows_set d t tx seq : own_rows (set_tx d t tx (Some t) seq) = t_own tx.
Proof. unfold own_rows, set_tx. simpl. by rewrite lookup_insert_eq. Qed.

(** Only the holder is inside an append. *)
Lemma busy_holds d t tx : Inv d -> d_txs d !! t = Some tx -> t_phase tx <> Idle -> d_lock d = Some t.
Proof. intros HI Ht Hp. destruct (decide (d_lock d = Some t)); [done|]. by destruct (i_idle d HI t tx). Qed.

(** Replacing the holder's transaction keeps everything about the others. *)
Lemma Inv_set d t tx seq : Inv d -> (d_lock d = None \/ d_lock d = Some t) ->
  chain_inv (d_rows d ++ t_own tx) seq (ring_of d) ->
  (forall p s r, t_phase tx = TailRead p s -> last (d_rows d ++ t_own tx) = Some r -> s = Some (r_signature r)) ->
  pending_wf (t_phase tx) ->
  Inv (set_tx d t tx (Some t) seq).
Proof.
  intros HI Hl Hc Ht Hp. split.
  - rewrite own_rows_set. exact Hc.
  - intros t' [= <-]. simpl. rewrite lookup_insert_eq. eauto.
  - intros t' tx' Hl' Hne. simpl in *. rewrite lookup_insert_ne in Hl' by congruence.
    apply (i_idle d HI t' tx' Hl'). destruct Hl; congruence.
  - intros t' tx' p s r [= <-] Htx Hph Hlast. simpl in *. rewrite lookup_insert_eq in Htx. simplify_eq. eauto.
  - intros t' tx' Htx. simpl in Htx. destruct (decide (t = t')) as [->|].
    + rewrite lookup_insert_eq in Htx. by simplify_eq.
    + rewrite lookup_insert_ne in Htx by done. by eapply i_pending.
  - apply (i_lawful d HI).
Qed.

(** Ending a transaction, with a table that is a valid chain. *)
Lemma Inv_end d t rows : Inv d -> chain_inv (rows ++ own_rows (end_tx d t rows)) (d_seq d) (ring_of d) ->
  (d_lock d = Some t \/ rows = d_rows d) -> Inv (end_tx d t rows).
Proof.
  intros HI Hc Hr. split; try done.
  - intros t'. simpl. case_decide; [done|]. intros Hl. rewrite lookup_delete_ne by congruence.
    by apply (i_lock d HI).
  - intros t' tx' Hl Hne. simpl in *. apply lookup_delete_Some in Hl as [Hne' Hl].
    apply (i_idle d HI t' tx' Hl). case_decide; congruence.
  - intros t' tx' p s r Hl Htx Hph Hlast. simpl in *. case_decide; [done|].
    apply lookup_delete_Some in Htx as [_ Htx]. destruct Hr as [|Hr]; [congruence|]. rewrite Hr in Hlast.
    by eapply (i_tail d HI).
  - intros t' tx' Htx. simpl in Htx. apply lookup_delete_Some in Htx as [_ Htx]. by eapply i_pending.
  - apply (i_lawful d HI).
Qed.

Lemma chain_inv_prefix a b seq ring : chain_inv (a ++ b) seq ring -> chain_inv a seq ring.
Proof.
  intros [H1 H2 H3 H4]. split.
  - by apply StronglySorted_app_1_l in H1.
  - by apply Forall_app in H2 as [? _].
  - by apply Forall_app in H3 as [? _].
  - clear -H4. revert H4. generalize 0%nat, (@None jsstr).
    induction a as [|r a IH]; intros e p Hv; [constructor|]. cbn [app] in Hv.
    inversion Hv as [|? ? ? ? i k]; subst. apply (vf_cons ring e p r a i k); auto.
Qed.

Lemma chain_inv_drop n a b seq ring : chain_inv (a ++ b) seq ring -> chain_inv (drop n a ++ b) seq ring.
Proof.
  intros [H1 H2 H3 H4].
  assert (E : drop n a ++ b = drop (n `min` length a) (a ++ b)).
  { rewrite drop_app. replace (n `min` length a - length a)%nat with 0%nat by lia. rewrite drop_0. f_equal.
    destruct (decide (n <= length a)%nat); [by rewrite Nat.min_l|].
    rewrite Nat.min_r by lia. by rewrite !drop_ge by lia. }
  rewrite E. set (m := (n `min` length a)%nat). set (l := a ++ b) in *. split.
  - rewrite <- (take_drop m l) in H1. by apply StronglySorted_app_1_r in H1.
  - by apply Forall_drop.
  - by apply Forall_drop.
  - by eapply valid_from_drop.
Qed.

Lemma chain_inv_keys rows seq ring more : chain_inv rows seq ring -> chain_inv rows seq (ring ++ more).
Proof. intros [H1 H2 H3 H4]. split; try done. by apply valid_from_more_keys. Qed.

Lemma chain_inv_seq rows seq seq' ring : seq <= seq' -> chain_inv rows seq ring -> chain_inv rows seq' ring.
Proof.
  intros Hle [H1 H2 H3 H4]. split; try done. eapply Forall_impl; [exact H2|]. simpl. lia.
Qed.
End invariant.

Section preservation.
Context {CO : CryptoOps} {CL : CryptoLaws} {ST : Storage} {SL : StorageLaws}.

Lemma own_rows_free d t tx : Inv d -> d_txs d !! t = Some tx ->
  d_lock d = None \/ d_lock d = Some t -> own_rows d = t_own tx.
Proof.
  intros HI Ht [Hl|Hl]; [|by eapply own_rows_holder].
  unfold own_rows. rewrite Hl. destruct (i_idle d HI t tx Ht) as [-> _]; [by rewrite Hl|done].
Qed.

Lemma own_rows_end_other d t rows : d_lock d <> Some t -> own_rows (end_tx d t rows) = own_rows d.
Proof.
  intros Hl. unfold own_rows, end_tx. simpl. rewrite decide_False by done.
  destruct (d_lock d) as [t'|]; [|done]. by rewrite lookup_delete_ne by congruence.
Qed.

Lemma own_rows_end_holder d t rows : d_lock d = Some t -> own_rows (end_tx d t rows) = [].
Proof. intros Hl. unfold own_rows, end_tx. simpl. by rewrite decide_True. Qed.

Lemma begin_inv d t iso txts : Inv d -> d_txs d !! t = None ->
  Inv (set_tx d t (mkTxn iso txts Idle []) (d_lock d) (d_seq d)).
Proof.
  intros HI Ht. assert (Hne : forall t', d_lock d = Some t' -> t <> t').
  { intros t' Hl ->. destruct (i_lock d HI t' Hl). congruence. }
  assert (Ho : own_rows (set_tx d t (mkTxn iso txts Idle []) (d_lock d) (d_seq d)) = own_rows d).
  { unfold own_rows, set_tx. simpl. destruct (d_lock d) as [t'|]; [|done].
    by rewrite lookup_insert_ne by auto. }
  split.
  - rewrite Ho. apply (i_chain d HI).
  - intros t' Hl. simpl in *. rewrite lookup_insert_ne by auto. by apply (i_lock d HI).
  - intros t' tx' Hl Hn. simpl in *. destruct (decide (t = t')) as [->|].
    + rewrite lookup_insert_eq in Hl. by simplify_eq.
    + rewrite lookup_insert_ne in Hl by done. by eapply i_idle.
  - intros t' tx' p s r Hl Htx. simpl in *. rewrite lookup_insert_ne in Htx by auto.
    by eapply (i_tail d HI).
  - intros t' tx' Htx. simpl in *. destruct (decide (t = t')) as [->|].
    + rewrite lookup_insert_eq in Htx. by simplify_eq.
    + rewrite lookup_insert_ne in Htx by done. by eapply i_pending.
  - apply (i_lawful d HI).
Qed.

Lemma content_of_wf p now : params_wf p -> is_Some (p_at p) -> content_wf (content_of p now).
Proof.
  intros [Hr Ha] [d Hd]. rewrite Hd in Ha. unfold content_wf. simpl. rewrite Hd.
  split; [by destruct (p_refs p)|done].
Qed.

(** The row an append inserts extends the chain. *)
Lemma insert_chain rows seq (ring : AuditSingleton) p now s content signature prev stored :
  chain_inv rows seq (getAuditKeyring (Some ring)) ->
  Forall (fun k => LawfulSigner (signer k)) (getAuditKeyring (Some ring)) ->
  params_wf p -> is_Some (p_at p) ->
  (forall r, last rows = Some r -> s = Some (r_signature r)) ->
  sign_append (signer (s_current ring)) p now s = Ok (content, signature, prev) ->
  store_content content = Some stored ->
  chain_inv (rows ++ [mkRow seq stored signature prev]) (seq + 1) (getAuditKeyring (Some ring)).
Proof.
  intros [H1 H2 H3 H4] Hlaw Hp Hat Hs Hsign Hst.
  assert (Hc : LawfulSigner (signer (s_current ring))).
  { simpl in Hlaw. apply Forall_app in Hlaw as [_ Hlaw]. apply Forall_inv in Hlaw. exact Hlaw. }
  unfold sign_append in Hsign. destruct (sign _ _ _) as [x|] eqn:Ex; simplify_eq/=.
  assert (Hsame : same_content (content_of p now) stored)
    by (apply stored_same_content; [by destruct (content_of_wf p now Hp Hat)|by apply storage_faithful]).
  split.
  - by apply table_wf_snoc.
  - apply Forall_app. split; [|apply Forall_singleton; simpl; lia].
    eapply Forall_impl; [exact H2|]. simpl. lia.
  - apply Forall_app. split; [done|]. apply Forall_singleton. simpl. by eapply sign_nonempty.
  - apply (valid_from_snoc _ rows _ (length (s_retired ring)) (s_current ring)); try done; simpl.
    + rewrite length_app. simpl. lia.
    + lia.
    + rewrite lookup_app_r by lia. by rewrite Nat.sub_diag.
    + unfold vouches. rewrite <- (verify_ext _ _ _ _ Hsame). by rewrite (sign_verify _ _ _ Ex).
    + destruct (last rows) as [r|] eqn:El; [|done]. simpl. rewrite (Hs r eq_refl).
      apply last_Some_elem_of in El. rewrite Forall_forall in H3. specialize (H3 r El).
      by destruct (r_signature r).
Qed.

Lemma lock_inv d t tx p now lf : Inv d -> d_txs d !! t = Some tx -> t_phase tx = Idle ->
  d_lock d = None \/ d_lock d = Some t -> params_wf p -> - MAX_TIME <= now <= MAX_TIME ->
  lf = Locked (snapshotRecordParams p now) \/ lf = Idle ->
  Inv (set_tx d t (in_phase tx lf) (Some t) (d_seq d)).
Proof.
  intros HI Ht Hph Hl [Hr Ha] Hnow Hf. apply Inv_set; try done; simpl.
  - rewrite <- (own_rows_free d t tx) by done. apply (i_chain d HI).
  - intros p' s r. destruct Hf as [-> | ->]; done.
  - destruct Hf as [-> | ->]; [|done]. split; [|simpl; eauto]. split; [done|]. simpl.
    destruct (p_at p) as [[]|]; done.
Qed.

Lemma tail_inv d t tx p f : Inv d -> d_txs d !! t = Some tx -> t_phase tx = Locked p ->
  f = TailRead p (r_signature <$> tail_row (d_rows d ++ t_own tx)) \/ f = Idle ->
  Inv (set_tx d t (in_phase tx f) (d_lock d) (d_seq d)).
Proof.
  intros HI Ht Hph Hf. assert (Hl : d_lock d = Some t) by (apply (busy_holds d t tx); [done..|by rewrite Hph]).
  pose proof (i_chain d HI) as Hc. rewrite (own_rows_holder d t tx Hl Ht) in Hc. rewrite Hl.
  apply Inv_set; auto; simpl.
  - intros p' s r Hf' Hlast. destruct Hf as [-> | ->]; simplify_eq.
    by rewrite tail_row_last, Hlast by apply Hc.
  - destruct Hf as [-> | ->]; [|done]. pose proof (i_pending d HI t tx Ht) as Hw. by rewrite Hph in Hw.
Qed.

Lemma insert_inv d t tx p s now d' : Inv d -> d_txs d !! t = Some tx -> t_phase tx = TailRead p s ->
  step d (EInsert t now) = Some d' -> Inv d'.
Proof.
  intros HI Ht Hph Hs. assert (Hl : d_lock d = Some t) by (apply (busy_holds d t tx); [done..|by rewrite Hph]).
  pose proof (i_chain d HI) as Hc. rewrite (own_rows_holder d t tx Hl Ht) in Hc.
  pose proof (i_pending d HI t tx Ht) as Hw. rewrite Hph in Hw. destruct Hw as [Hw Hat].
  cbn [step] in Hs. rewrite Ht, Hph, Hl in Hs.
  destruct (sign_append _ p now s) as [[[content signature] prev]|] eqn:Es.
  - destruct (store_content content) as [stored|] eqn:Est; injection Hs as <-; apply Inv_set; auto; simpl; try done.
    + rewrite app_assoc. eapply insert_chain; eauto; [apply (i_lawful d HI)|].
      intros r Hlast. by eapply (i_tail d HI).
    + eapply chain_inv_seq; [|exact Hc]. lia.
  - injection Hs as <-. apply Inv_set; auto; simpl; done.
Qed.

Lemma commit_rows d t tx : Inv d -> d_txs d !! t = Some tx ->
  table_union (d_rows d) (t_own tx) = d_rows d ++ t_own tx /\
  (d_lock d <> Some t -> t_own tx = []).
Proof.
  intros HI Ht. destruct (decide (d_lock d = Some t)) as [Hl|Hl].
  - split; [|done]. apply table_union_app. rewrite <- (own_rows_holder d t tx) by done. apply (i_chain d HI).
  - destruct (i_idle d HI t tx Ht Hl) as [Ho _]. split; [|done]. rewrite Ho. apply table_union_app.
    rewrite app_nil_r. eapply chain_inv_prefix, (i_chain d HI).
Qed.

Lemma commit_inv d t tx : Inv d -> d_txs d !! t = Some tx ->
  Inv (end_tx d t (table_union (d_rows d) (t_own tx))).
Proof.
  intros HI Ht. destruct (commit_rows d t tx HI Ht) as [-> Ho].
  destruct (decide (d_lock d = Some t)) as [Hl|Hl].
  - apply Inv_end; auto. rewrite own_rows_end_holder, app_nil_r by done.
    rewrite <- (own_rows_holder d t tx) by done. apply (i_chain d HI).
  - rewrite Ho, app_nil_r by done. apply Inv_end; auto. rewrite own_rows_end_other by done. apply (i_chain d HI).
Qed.

Lemma rollback_inv d t : Inv d -> Inv (end_tx d t (d_rows d)).
Proof.
  intros HI. apply Inv_end; auto. destruct (decide (d_lock d = Some t)) as [Hl|Hl].
  - rewrite own_rows_end_holder, app_nil_r by done. eapply chain_inv_prefix, (i_chain d HI).
  - rewrite own_rows_end_other by done. apply (i_chain d HI).
Qed.

Lemma makeEpoch_lawful key k : makeEpoch key = Ok k -> LawfulSigner (signer k).
Proof.
  unfold makeEpoch, createHmacSigner. case_match; simpl; [done|]. intros [= <-]. apply hmac_lawful.
Qed.

Lemma rotate_inv d key s ids : Inv d -> adoptAuditKey (d_ring d) key = Ok (s, ids) ->
  Inv (mkDb (d_rows d) (d_seq d) (d_lock d) (d_txs d) s).
Proof.
  intros HI Ha. unfold adoptAuditKey in Ha. destruct (makeEpoch key) as [next|] eqn:En; [|done].
  case_match; [done|]. injection Ha as <- <-. pose proof HI as [H1 H2 H3 H4 H5 H6].
  split; try done; unfold ring_of in *; simpl in *.
  - by apply chain_inv_keys.
  - apply Forall_app. split; [done|]. apply Forall_singleton. by eapply makeEpoch_lawful.
Qed.

Lemma purge_inv d n : Inv d -> Inv (mkDb (drop n (d_rows d)) (d_seq d) (d_lock d) (d_txs d) (d_ring d)).
Proof.
  intros HI. pose proof HI as [H1 H2 H3 H4 H5 H6]. split; try done; simpl in *.
  - by apply chain_inv_drop.
  - intros t tx p s r Hl Ht Hph Hlast. eapply H4; eauto.
    rewrite <- (take_drop n (d_rows d)), <- app_assoc, last_app, Hlast. done.
Qed.

Lemma step_inv d ev d' : event_wf ev -> Inv d -> step d ev = Some d' -> Inv d'.
Proof.
  intros Hev HI Hs. destruct ev as [t iso txts|t p now|t|t now|t|t|key|n]; cbn [step] in Hs.
  - destruct (d_txs d !! t) eqn:Ht; simplify_eq. by apply begin_inv.
  - destruct (d_txs d !! t) as [tx|] eqn:Ht; [|done]. destruct (t_phase tx) eqn:Hph; try done.
    destruct (validateRecordParams _); [|done]. case_bool_decide as Hl; [|done]. injection Hs as <-.
    destruct Hev. eapply lock_inv; eauto. case_match; auto.
  - destruct (d_txs d !! t) as [tx|] eqn:Ht; [|done]. destruct (t_phase tx) eqn:Hph; try done.
    injection Hs as <-. eapply tail_inv; eauto. case_match; auto.
  - destruct (d_txs d !! t) as [tx|] eqn:Ht; [|done]. destruct (t_phase tx) eqn:Hph; try done.
    eapply insert_inv; eauto. cbn [step]. by rewrite Ht, Hph.
  - destruct (d_txs d !! t) as [tx|] eqn:Ht; [|done]. destruct (t_phase tx) eqn:Hph; simplify_eq.
    by apply commit_inv.
  - destruct (d_txs d !! t) as [tx|] eqn:Ht; simplify_eq. by apply rollback_inv.
  - destruct (adoptAuditKey (d_ring d) key) as [[s ids]|] eqn:Ea; simplify_eq. by eapply rotate_inv.
  - injection Hs as <-. by apply purge_inv.
Qed.

Lemma run_snoc d evs ev : run d (evs ++ [ev]) = run d evs ≫= fun d' => step d' ev.
Proof. unfold run. by rewrite foldl_snoc. Qed.

Lemma run_cons d ev evs : run d (ev :: evs) = step d ev ≫= fun d' => run d' evs.
Proof.
  unfold run. cbn [foldl mbind option_bind]. destruct (step d ev) as [d'|]; [done|]. simpl.
  by induction evs.
Qed.

Lemma run_inv d evs d' : Forall event_wf evs -> Inv d -> run d evs = Some d' -> Inv d'.
Proof.
  intros Hev HI. revert d'. induction evs as [|ev evs IH] using rev_ind; intros d' Hr; [by injection Hr as <-|].
  rewrite run_snoc in Hr. apply Forall_app in Hev as [Hev He]. apply Forall_inv in He.
  destruct (run d evs) as [d1|]; [|done]. simpl in Hr. eapply step_inv; [exact He| |exact Hr]. by apply IH.
Qed.
End preservation.

(** ** Properties *)

(** A process that has just started on an existing table. *)
Definition boot (rows : Table) (seq : Z) (s : AuditSingleton) : db := mkDb rows seq None ∅ s.

(** The stored chain verifies under the process's keyring, and the sequence is
    past every id. *)
Definition healthy `{CryptoOps} (rows : Table) (seq : Z) (s : AuditSingleton) : Prop :=
  chain_inv rows seq (getAuditKeyring (Some s)) /\
  Forall (fun k => LawfulSigner (signer k)) (getAuditKeyring (Some s)).

(** [record()]: its own READ COMMITTED transaction around one append. *)
Definition record_events (t : nat) (txts : jsstr) (p : RecordParams) (now : Z) : list event :=
  [EBegin t (js "read committed") txts; ELock t p now; ETail t; EInsert t now; ECommit t].

(** [recordSafely]: a failure is swallowed, the caller goes on. *)
Definition recordSafely {E A} (r : result E A) : option A :=
  match r with Ok a => Some a | Throw _ => None end.

Lemma boot_inv `{CryptoLaws} `{StorageLaws} rows seq s : healthy rows seq s -> Inv (boot rows seq s).
Proof.
  intros [Hc Hl]. split; try done; simpl.
  unfold own_rows. simpl. by rewrite app_nil_r.
Qed.

Definition is_purge (ev : event) : bool := match ev with EPurge _ => true | _ => false end.

Lemma step_extends `{CryptoLaws} `{StorageLaws} d ev d' : Inv d -> is_purge ev = false ->
  step d ev = Some d' -> exists new, d_rows d' = d_rows d ++ new.
Proof.
  intros HI Hp Hs. assert (Hn : forall l : Table, exists new, l = l ++ new) by (intros l; exists []; by rewrite app_nil_r).
  destruct ev as [t iso txts|t p now|t|t now|t|t|key|n]; cbn [step] in Hs; try done.
  all: try (destruct (d_txs d !! t) as [tx|] eqn:Ht; [|done]); try (destruct (t_phase tx) eqn:Hph; try done).
  all: repeat case_match; simplify_eq/=; auto.
  destruct (commit_rows d t tx HI Ht) as [-> _]. eauto.
Qed.

(** C19: whatever the interleaving of transactions, appends, commits,
    rollbacks, key rotations and purges after a start on a chain that
    verifies, the committed table verifies at every moment, in full, under the
    keyring of that moment: no fork, no gap, and one switch point per
    rotation. *)
Theorem every_interleaving_verifies `{CryptoLaws} `{StorageLaws} rows seq s evs d :
  healthy rows seq s -> Forall event_wf evs -> run (boot rows seq s) evs = Some d ->
  verifyActivityChain (getAuditKeyring (Some (d_ring d))) (d_rows d) None
    = Some (mkResult true (length (d_rows d)) None).
Proof.
  intros Hh Hev Hr. pose proof (run_inv _ _ _ Hev (boot_inv rows seq s Hh) Hr) as HI.
  pose proof (chain_inv_prefix _ _ _ _ (i_chain d HI)) as [Hw _ _ Hv].
  rewrite verifyActivityChain_scan by done. simpl.
  apply (scan_valid (ring_of d) (d_rows d) (mkWalk 0 None 0)) in Hv.
  unfold ring_of, getAuditKeyring in Hv. destruct (scan _ _ (d_rows d)) as [w b] eqn:E. simpl in Hv. subst.
  apply scan_count in E. simpl in E. by rewrite E.
Qed.

(** The table is append-only.  Over any run without a purge the rows that
    were there stay, unchanged and in place, at the head of the table; what a
    transaction inserted shows up behind them, or not at all. *)
Theorem table_is_append_only `{CryptoLaws} `{StorageLaws} rows seq s before after d d' :
  healthy rows seq s -> Forall event_wf (before ++ after) ->
  run (boot rows seq s) before = Some d -> run d after = Some d' ->
  forallb (fun ev => negb (is_purge ev)) after = true ->
  exists new, d_rows d' = d_rows d ++ new.
Proof.
  intros Hh [Hb Ha]%Forall_app Hr Hr' Hp. pose proof (run_inv _ _ _ Hb (boot_inv rows seq s Hh) Hr) as HI.
  revert d' Hr'. induction after as [|ev after IH] using rev_ind; intros d' Hr'.
  - injection Hr' as <-. exists []. by rewrite app_nil_r.
  - rewrite run_snoc in Hr'. apply Forall_app in Ha as [Ha _]. rewrite forallb_app in Hp.
    apply andb_prop in Hp as [Hp1 Hp2]. destruct (run d after) as [d1|] eqn:E1; [|done]. simpl in Hr'.
    destruct (IH Ha Hp1 d1 eq_refl) as [n1 En1].
    simpl in Hp2. rewrite andb_true_r, negb_true_iff in Hp2.
    pose proof (run_inv _ _ _ Ha HI E1) as HI1.
    destruct (step_extends _ _ _ HI1 Hp2 Hr') as [n2 ->]. exists (n1 ++ n2). by rewrite En1, app_assoc.
Qed.

(** [record()] on a free chain appends exactly one row: its id is the
    next of the sequence, its content what the columns give back for the
    validated snapshot, its previous hash the hash of the last row's signature
    (empty on an empty table) and its signature the current key's; the lock is
    free again and no transaction is left open. *)
Theorem record_appends_one_row `{CryptoLaws} `{StorageLaws} rows seq s t txts p now signature stored :
  let q := snapshotRecordParams p now in
  let prev := match last rows with Some r => hashSignature (r_signature r) | None => [] end in
  healthy rows seq s -> params_wf p -> - MAX_TIME <= now <= MAX_TIME -> txts <> [] ->
  validateRecordParams q = Ok tt ->
  sign (signer (s_current s)) (content_of q now) prev = Ok signature ->
  store_content (content_of q now) = Some stored ->
  run (boot rows seq s) (record_events t txts p now)
    = Some (boot (rows ++ [mkRow seq stored signature prev]) (seq + 1) s).
Proof.
  intros q prev Hh Hp Hnow Htx Hval Hsign Hst. destruct Hh as [[Hs Hq Hg Hv] Hl].
  assert (Etail : r_signature <$> tail_row (rows ++ []) = r_signature <$> last rows)
    by (by rewrite app_nil_r, tail_row_last).
  assert (Eprev : prev_hash (r_signature <$> last rows) = prev).
  { unfold prev. destruct (last rows) as [r|] eqn:E; [|done]. simpl. apply last_Some_elem_of in E.
    rewrite Forall_forall in Hg. specialize (Hg r E). by destruct (r_signature r). }
  assert (Echeck : check_same_transaction txts txts = Ok tt).
  { unfold check_same_transaction. rewrite (bool_decide_false (txts = [])), (bool_decide_true (txts = txts)) by done. done. }
  set (T := fun f own => mkTxn (js "read committed") txts f own).
  set (D := fun lock m n => mkDb rows n lock m s).
  assert (S2 : forall m, m !! t = Some (T Idle []) ->
    step (D None m seq) (ELock t p now) = Some (D (Some t) (<[t := T (Locked q) []]> m) seq)).
  { intros m Hm. unfold D, T in *. cbn [step d_txs]. rewrite Hm. cbn [t_phase]. fold q. by rewrite Hval. }
  assert (S3 : forall m, m !! t = Some (T (Locked q) []) ->
    step (D (Some t) m seq) (ETail t)
    = Some (D (Some t) (<[t := T (TailRead q (r_signature <$> last rows)) []]> m) seq)).
  { intros m Hm. unfold D, T in *. cbn [step d_txs]. rewrite Hm. cbn [t_phase t_txts t_own d_rows].
    rewrite Echeck. by rewrite Etail. }
  assert (S4 : forall m, m !! t = Some (T (TailRead q (r_signature <$> last rows)) []) ->
    step (D (Some t) m seq) (EInsert t now)
    = Some (D (Some t) (<[t := T Idle [mkRow seq stored signature prev]]> m) (seq + 1))).
  { intros m Hm. unfold D, T in *. cbn [step d_txs]. rewrite Hm. cbn [t_phase d_ring]. unfold sign_append.
    by rewrite Eprev, Hsign, Hst. }
  unfold record_events. rewrite run_cons. cbn [step boot d_txs]. rewrite lookup_empty.
  change (run (D None (<[t := T Idle []]> ∅) seq) [ELock t p now; ETail t; EInsert t now; ECommit t]
    = Some (boot (rows ++ [mkRow seq stored signature prev]) (seq + 1) s)).
  rewrite run_cons, S2 by (by rewrite lookup_insert_eq). cbn [mbind option_bind].
  rewrite run_cons, S3 by (by rewrite lookup_insert_eq). cbn [mbind option_bind].
  rewrite run_cons, S4 by (by rewrite lookup_insert_eq). cbn [mbind option_bind].
  unfold D, T. rewrite run_cons. cbn [step d_txs]. rewrite lookup_insert_eq.
  cbn [t_phase mbind option_bind t_own d_rows].
  unfold run, end_tx, boot. cbn [foldl d_lock d_txs d_seq d_ring]. rewrite decide_True by done.
  rewrite table_union_app by (by apply table_wf_snoc). rewrite !insert_insert_eq.
  by rewrite delete_insert_eq, delete_empty.
Qed.

(** ** Witnesses *)

#[local] Existing Instance toy_crypto.
#[local] Existing Instance toy_laws.

(** A database that keeps the canonical refs as bound. *)
Definition toy_store (c : ActivityRowContent) : option ActivityRowContent :=
  match c_refs c with JNull => Some c | _ => None end.
#[local] Instance toy_storage : Storage := toy_store.
#[local] Instance toy_storage_laws : StorageLaws.
Proof.
  intros c c'. unfold store_content, toy_storage, toy_store. destruct (c_refs c) eqn:E; try done. intros [= <-].
  unfold stored_as. by rewrite E.
Qed.

Definition toy_singleton : AuditSingleton := mkSingleton (epochFor key2) [epochFor key1].

Lemma toy_healthy : healthy [row1; row2] 9 toy_singleton.
Proof.
  split; [split|].
  - apply sample_table_wf.
  - repeat constructor; simpl; lia.
  - repeat constructor; vm_compute; discriminate.
  - exact sample_valid.
  - repeat constructor; apply hmac_lawful.
Qed.

Definition toy_params : RecordParams :=
  mkParams (js "system") (js "info") (js "shield") (js "Audit log purged") None JNull
    (Some (mkActor (js "system") None)) None.

(** Two writers, one of which waits; a rotation, a rollback and a purge. *)
Definition toy_events : list event :=
  let rc := js "read committed" in
  [EBegin 1 rc (js "t1"); EBegin 2 rc (js "t2"); ELock 1 toy_params 5; ETail 1; EInsert 1 5;
   ERotate (replicate 32 3%N); ELock 1 toy_params 6; ETail 1; EInsert 1 6; EPurge 1; ECommit 1;
   ELock 2 toy_params 7; ETail 2; EInsert 2 7; ERollback 2].

Lemma toy_events_wf : Forall event_wf toy_events.
Proof. repeat constructor; vm_compute; intros; discriminate. Qed.

Lemma every_interleaving_verifies_witness : exists d,
  run (boot [row1; row2] 9 toy_singleton) toy_events = Some d /\ length (d_rows d) = 3%nat /\
  verifyActivityChain (getAuditKeyring (Some (d_ring d))) (d_rows d) None
    = Some (mkResult true (length (d_rows d)) None).
Proof.
  assert (H : (fun d => length (d_rows d)) <$> run (boot [row1; row2] 9 toy_singleton) toy_events = Some 3%nat)
    by (vm_compute; reflexivity).
  destruct (run (boot [row1; row2] 9 toy_singleton) toy_events) as [d|] eqn:E; [|discriminate H].
  exists d. split; [reflexivity|]. split.
  - injection H as H. exact H.
  - exact (every_interleaving_verifies [row1; row2] 9 toy_singleton toy_events d toy_healthy toy_events_wf E).
Defined.

Definition toy_after : list event :=
  [EBegin 1 (js "read committed") (js "t1"); ELock 1 toy_params 5; ETail 1; EInsert 1 5; ECommit 1].

Lemma table_is_append_only_witness : exists d',
  run (boot [row1; row2] 9 toy_singleton) toy_after = Some d' /\
  exists new, d_rows d' = [row1; row2] ++ new.
Proof.
  assert (H : (fun d => length (d_rows d)) <$> run (boot [row1; row2] 9 toy_singleton) toy_after = Some 3%nat)
    by (vm_compute; reflexivity).
  destruct (run (boot [row1; row2] 9 toy_singleton) toy_after) as [d'|] eqn:E; [|discriminate H].
  exists d'. split; [reflexivity|].
  apply (table_is_append_only [row1; row2] 9 toy_singleton [] toy_after
           (boot [row1; row2] 9 toy_singleton) d' toy_healthy); [|reflexivity|exact E|reflexivity].
  repeat constructor; vm_compute; intros; discriminate.
Defined.

Lemma record_appends_one_row_witness : exists row,
  run (boot [row1; row2] 9 toy_singleton) (record_events 1 (js "t1") toy_params 5)
    = Some (boot ([row1; row2] ++ [row]) 10 toy_singleton).
Proof.
  eexists. apply (record_appends_one_row [row1; row2] 9 toy_singleton 1 (js "t1") toy_params 5);
    [apply toy_healthy|repeat constructor; vm_compute; intros; discriminate|vm_compute; split; discriminate
    |vm_compute; discriminate|reflexivity|vm_compute; reflexivity|vm_compute; reflexivity].
Defined.
