(* ===== verification/AuditRetention.v ===== *)
(** * AuditRetention: the nightly purge
      (apps/orchestrator/src/services/audit-retention-purge.service.ts)

    The activity table is purged by a prefix of its id order, the two plain log
    tables by [createdAt]; both loops select a batch of ids and delete it, at
    most [maxRowsPerTable] rows per run.  Tables are listed in the order their
    query asks for: activity rows by id, log rows by [createdAt]. *)

From S2P Require Import Prelude JsNum Json DateTime AuditSigning AuditVerify AuditRecorder.

Local Open Scope Z_scope.

Definition DEFAULT_BATCH_SIZE : Z := 5000.
Definition DEFAULT_MAX_ROWS_PER_TABLE : Z := 100000.

Record AuditPurgeResult := mkPurgeResult {
  activityDeleted : nat;
  commandAuditDeleted : nat;
  notificationDeleted : nat;
  skipped : bool
}.

Record LogRow := mkLogRow { l_id : jsstr; l_createdAt : Z }.

(** ** The batch loop *)

Section batches.
Context {A K : Type} `{EqDecision K} (key : A -> K) (old : A -> bool).

(** [DELETE ... WHERE id = ANY(ids)] *)
Definition delete_ids (ids : list K) (tbl : list A) : list A := filter (fun r => key r ∉ ids) tbl.

(** [while (deleted < max)]: select the first rows that match, delete them,
    stop on an empty or a short batch.  [None] only when the fuel runs out. *)
Fixpoint purge_batches (fuel batchSize max : nat) (tbl : list A) (deleted : nat) : option (list A * nat) :=
  match fuel with
  | O => None
  | S fuel =>
      if (deleted <? max)%nat then
        let take_n := Nat.min batchSize (max - deleted) in
        let batch := take take_n (List.filter old tbl) in
        match batch with
        | [] => Some (tbl, deleted)
        | _ =>
            let tbl' := delete_ids (map key batch) tbl in
            let deleted' := (deleted + (length tbl - length tbl'))%nat in
            if (length batch <? take_n)%nat then Some (tbl', deleted')
            else purge_batches fuel batchSize max tbl' deleted'
        end
      else Some (tbl, deleted)
  end.
End batches.

(** ** The two purges *)

Definition at_before (cutoff : Z) (r : ActivityRow) : bool :=
  match c_at (r_content r) with Some t => t <? cutoff | None => false end.
Definition at_or_after (cutoff : Z) (r : ActivityRow) : bool :=
  match c_at (r_content r) with Some t => cutoff <=? t | None => false end.

(** The id predicate of the prefix, or [None] when there is nothing to do. *)
Definition purge_boundary (tbl : Table) (cutoff : Z) : option (ActivityRow -> bool) :=
  match List.find (at_or_after cutoff) tbl with
  | Some firstSurvivor => Some (fun r => r_id r <? r_id firstSurvivor)
  | None =>
      match last (List.filter (at_before cutoff) tbl) with
      | Some lastOld => Some (fun r => r_id r <=? r_id lastOld)
      | None => None
      end
  end.

Definition purgeActivityRowPrefix (tbl : Table) (cutoff : Z) (batchSize max : nat) : option (Table * nat) :=
  match purge_boundary tbl cutoff with
  | None => Some (tbl, 0%nat)
  | Some idFilter => purge_batches r_id idFilter (S (length tbl)) batchSize max tbl 0
  end.

Definition purgeLogTable (tbl : list LogRow) (cutoff : Z) (batchSize max : nat) : option (list LogRow * nat) :=
  purge_batches l_id (fun r => l_createdAt r <? cutoff) (S (length tbl)) batchSize max tbl 0.

Record LogTables := mkTables { t_activity : Table; t_commandAudit : list LogRow; t_notification : list LogRow }.

(** [params] of the row that leaves a trace of the purge in the chain. *)
Definition purge_record (n c m : nat) (olderThanDays : Z) : RecordParams :=
  mkParams (js "system") (js "info") (js "shield") (js "Audit log purged")
    (Some (dec_str (N.of_nat n) ++ js " activity rows older than " ++
           num_str (num_of_Z olderThanDays) ++ js " days"))
    (JObj [(js "action", JStr (js "audit.retention_purge"));
           (js "activityDeleted", JNum (num_of_Z (Z.of_nat n)));
           (js "commandAuditDeleted", JNum (num_of_Z (Z.of_nat c)));
           (js "notificationDeleted", JNum (num_of_Z (Z.of_nat m)));
           (js "retentionDays", JNum (num_of_Z olderThanDays))])
    (Some (mkActor (js "system") None)) None.

(** The tables after the deletes, the row to record, and the answer. *)
Definition purgeAuditLogs (tables : LogTables) (olderThanDays now : Z) (batch max : option Z)
  : option (LogTables * option RecordParams * AuditPurgeResult) :=
  if olderThanDays <=? 0 then Some (tables, None, mkPurgeResult 0 0 0 true)
  else
    let batchSize := Z.to_nat (Z.max 1 (default DEFAULT_BATCH_SIZE batch)) in
    let maxRows := Z.to_nat (Z.max 1 (default DEFAULT_MAX_ROWS_PER_TABLE max)) in
    let cutoff := now - olderThanDays * 86400000 in
    match purgeActivityRowPrefix (t_activity tables) cutoff batchSize maxRows,
          purgeLogTable (t_commandAudit tables) cutoff batchSize maxRows,
          purgeLogTable (t_notification tables) cutoff batchSize maxRows with
    | Some (a, n), Some (c, k), Some (m, j) =>
        Some (mkTables a c m,
              if (0 <? n)%nat then Some (purge_record n k j olderThanDays) else None,
              mkPurgeResult n k j false)
    | _, _, _ => None
    end.

(** ** What the loop deletes *)

(** Drop the first [m] elements that match. *)
Fixpoint drop_matching {A} (f : A -> bool) (m : nat) (l : list A) : list A :=
  match l with
  | [] => []
  | x :: l' => if f x then match m with O => l | S m => drop_matching f m l' end
               else x :: drop_matching f m l'
  end.

Section batch_facts.
Context {A K : Type} `{EqDecision K} (key : A -> K) (f : A -> bool).

Lemma drop_matching_0 l : drop_matching f 0 l = l.
Proof. induction l as [|x l IH]; simpl; [done|]. case_match; [done|]. by rewrite IH. Qed.

Lemma drop_matching_add m n l : drop_matching f n (drop_matching f m l) = drop_matching f (m + n) l.
Proof.
  revert m. induction l as [|x l IH]; intros m; simpl; [done|].
  destruct (f x) eqn:E; [destruct m; simpl; [by rewrite E|apply IH]|].
  simpl. by rewrite E, IH.
Qed.

Lemma filter_drop_matching m l : List.filter f (drop_matching f m l) = drop m (List.filter f l).
Proof.
  revert m. induction l as [|x l IH]; intros m; simpl; [by destruct m|].
  destruct (f x) eqn:E; [destruct m; simpl; [by rewrite E|apply IH]|]. simpl. by rewrite E, IH.
Qed.

Lemma drop_matching_length m l : (m <= length (List.filter f l))%nat ->
  length (drop_matching f m l) = (length l - m)%nat.
Proof.
  revert m. induction l as [|x l IH]; intros m Hm; simpl in *; [lia|].
  destruct (f x); simpl in *; [|rewrite IH by lia].
  - destruct m; simpl; [lia|]. by rewrite IH by lia.
  - assert (length (List.filter f l) <= length l)%nat by apply List.filter_length_le. lia.
Qed.

Lemma drop_matching_all k l : (length (List.filter f l) <= k)%nat ->
  drop_matching f k l = drop_matching f (length (List.filter f l)) l.
Proof.
  revert k. induction l as [|x l IH]; intros k H; simpl in *; [done|]. destruct (f x); simpl in *.
  - destruct k; [lia|]. apply IH. lia.
  - f_equal. by apply IH.
Qed.

Lemma delete_ids_cons_ne k ids l : k ∉ map key l -> delete_ids key (k :: ids) l = delete_ids key ids l.
Proof.
  intros Hk. unfold delete_ids. induction l as [|x l IH]; [done|]. rewrite !filter_cons. simpl in Hk.
  rewrite not_elem_of_cons in Hk. destruct Hk as [Hne Hk]. rewrite IH by done.
  repeat case_decide; set_solver.
Qed.

Lemma delete_ids_nil l : delete_ids key [] l = l.
Proof. unfold delete_ids. induction l as [|x l IH]; [done|]. rewrite filter_cons_True by set_solver. by rewrite IH. Qed.

(** Deleting the ids of the first matching rows deletes those rows. *)
Lemma delete_batch m l : NoDup (map key l) ->
  delete_ids key (map key (take m (List.filter f l))) l = drop_matching f m l.
Proof.
  revert m. induction l as [|x l IH]; intros m Hnd; [by destruct m|]. cbn [map] in Hnd.
  apply NoDup_cons in Hnd as [Hx Hnd]. cbn [List.filter drop_matching].
  assert (Hsub : forall n, key x ∉ map key (take n (List.filter f l))).
  { intros n Hin. apply Hx. apply list_elem_of_fmap in Hin as (y & -> & Hy). apply list_elem_of_fmap.
    exists y. split; [done|]. apply elem_of_take in Hy as (i & Hi & _). apply list_elem_of_lookup_2 in Hi.
    by apply list_elem_of_In, filter_In in Hi as [Hi%list_elem_of_In _]. }
  destruct (f x); [destruct m; cbn [take map]|].
  - apply delete_ids_nil.
  - unfold delete_ids at 1. rewrite filter_cons_False by set_solver.
    fold (delete_ids key (key x :: map key (take m (List.filter f l))) l).
    by rewrite delete_ids_cons_ne, IH.
  - unfold delete_ids at 1. rewrite filter_cons_True by apply Hsub. f_equal. by apply IH.
Qed.

Lemma drop_matching_keys m l : map key (drop_matching f m l) `sublist_of` map key l.
Proof.
  revert m. induction l as [|x l IH]; intros m; simpl; [done|].
  destruct (f x); [destruct m; [done|by apply sublist_cons]|]. by apply sublist_skip.
Qed.

(** The loop ends, and deletes the first matching rows up to the cap. *)
Lemma purge_batches_spec batchSize max fuel : (0 < batchSize)%nat -> forall l deleted,
  NoDup (map key l) -> (length l < fuel)%nat ->
  let m := Nat.min (max - deleted) (length (List.filter f l)) in
  purge_batches key f fuel batchSize max l deleted = Some (drop_matching f m l, (deleted + m)%nat).
Proof.
  intros Hb. induction fuel as [|fuel IH]; intros l deleted Hnd Hf; [lia|]. cbv zeta.
  cbn [purge_batches]. destruct (deleted <? max)%nat eqn:Hd; b2p.
  2: { replace (max - deleted)%nat with 0%nat by lia. simpl. by rewrite drop_matching_0, Nat.add_0_r. }
  set (k := Nat.min batchSize (max - deleted)). set (batch := take k (List.filter f l)).
  assert (Hlb : length batch = Nat.min k (length (List.filter f l))) by apply length_take.
  destruct batch as [|b bs] eqn:Eb.
  { simpl in Hlb. replace (Nat.min (max - deleted) _) with 0%nat by lia.
    by rewrite drop_matching_0, Nat.add_0_r. }
  rewrite <- Eb in *. unfold batch at 1 2 3 4 5. rewrite !delete_batch by done.
  pose proof (List.filter_length_le f l) as Hle.
  set (j := length batch) in *.
  assert (Hj : drop_matching f k l = drop_matching f j l).
  { destruct (decide (k <= length (List.filter f l))%nat); [by replace j with k by lia|].
    rewrite drop_matching_all by lia. by replace j with (length (List.filter f l)) by lia. }
  rewrite Hj, drop_matching_length by lia. replace (length l - (length l - j))%nat with j by lia.
  fold batch j. destruct (j <? k)%nat eqn:Hjk; b2p.
  - replace (Nat.min (max - deleted) (length (List.filter f l))) with j by lia. done.
  - assert (0 < j)%nat by (unfold j; rewrite Eb; simpl; lia).
    rewrite IH.
    + rewrite drop_matching_add, filter_drop_matching, length_drop.
      replace (j + Nat.min (max - (deleted + j)) (length (List.filter f l) - j))%nat
        with (Nat.min (max - deleted) (length (List.filter f l))) by lia.
      do 2 f_equal. lia.
    + eapply sublist_NoDup; [exact Hnd|apply drop_matching_keys].
    + rewrite drop_matching_length by lia. lia.
Qed.
End batch_facts.

(** ** The boundary is a prefix *)

(** Every row has a date, as the column is NOT NULL. *)
Definition dated (tbl : Table) : Prop := Forall (fun r => is_Some (c_at (r_content r))) tbl.

(** The number of leading rows older than the cutoff. *)
Fixpoint old_prefix (cutoff : Z) (tbl : Table) : nat :=
  match tbl with
  | r :: rs => if at_before cutoff r then S (old_prefix cutoff rs) else 0
  | [] => 0
  end.

Lemma drop_matching_prefix {A} (f : A -> bool) m pre post :
  Forall (fun x => f x = true) pre -> Forall (fun x => f x = false) post ->
  List.filter f (pre ++ post) = pre /\ drop_matching f m (pre ++ post) = drop (Nat.min m (length pre)) (pre ++ post).
Proof.
  intros Hpre Hpost. revert m. induction Hpre as [|x pre Hx _ IH]; intros m.
  - rewrite Nat.min_0_r. cbn [app]. rewrite drop_0. induction Hpost as [|y post Hy _ IHp]; [done|]. simpl.
    rewrite Hy. destruct IHp as [-> ->]. done.
  - cbn [app List.filter drop_matching length]. rewrite Hx. destruct (IH 0%nat) as [-> _]. split; [done|].
    destruct m; [done|]. simpl. apply IH.
Qed.

Lemma at_or_after_neg cutoff r : is_Some (c_at (r_content r)) -> at_or_after cutoff r = negb (at_before cutoff r).
Proof. intros [t Ht]. unfold at_or_after, at_before. rewrite Ht. apply Z.leb_antisym. Qed.

Lemma old_prefix_app cutoff pre s post : Forall (fun r => at_before cutoff r = true) pre ->
  at_before cutoff s = false -> old_prefix cutoff (pre ++ s :: post) = length pre.
Proof. intros Hp Hs. induction Hp as [|r pre Hr _ IH]; simpl; [by rewrite Hs|]. by rewrite Hr, IH. Qed.

Lemma old_prefix_all cutoff tbl : Forall (fun r => at_before cutoff r = true) tbl -> old_prefix cutoff tbl = length tbl.
Proof. induction 1 as [|r tbl Hr _ IH]; simpl; [done|]. by rewrite Hr, IH. Qed.

Lemma find_split {A} (f : A -> bool) l x : List.find f l = Some x ->
  exists pre post, l = pre ++ x :: post /\ f x = true /\ Forall (fun y => f y = false) pre.
Proof.
  induction l as [|y l IH]; simpl; [done|]. destruct (f y) eqn:E.
  - intros [= <-]. exists [], l. done.
  - intros (pre & post & -> & Hx & Hpre)%IH. exists (y :: pre), post. split_and!; [done..|by constructor].
Qed.

Lemma find_none_all {A} (f : A -> bool) l : List.find f l = None -> Forall (fun y => f y = false) l.
Proof. intros H. apply Forall_forall. intros x Hx%list_elem_of_In. by eapply List.find_none. Qed.

Lemma purge_boundary_prefix tbl cutoff m : table_wf tbl -> dated tbl ->
  match purge_boundary tbl cutoff with
  | Some f => length (List.filter f tbl) = old_prefix cutoff tbl /\
              drop_matching f m tbl = drop (Nat.min m (old_prefix cutoff tbl)) tbl
  | None => old_prefix cutoff tbl = 0%nat
  end.
Proof.
  intros Hs Hd. unfold purge_boundary. destruct (List.find (at_or_after cutoff) tbl) as [s|] eqn:E.
  - apply find_split in E as (pre & post & -> & Hat & Hpre).
    apply Forall_app in Hd as [Hd1 Hd2]. apply Forall_cons in Hd2 as [Hds _].
    assert (Hold : Forall (fun r => at_before cutoff r = true) pre).
    { rewrite Forall_forall in *. intros r Hr. specialize (Hpre r Hr). rewrite at_or_after_neg in Hpre by auto.
      by apply negb_false_iff in Hpre. }
    assert (Hsn : at_before cutoff s = false) by (rewrite at_or_after_neg in Hat by done; by apply negb_true_iff in Hat).
    rewrite old_prefix_app by done. apply StronglySorted_app in Hs as (Hlt & _ & Hs).
    apply StronglySorted_inv in Hs as [_ Hs].
    destruct (drop_matching_prefix (fun r => r_id r <? r_id s) m pre (s :: post)) as [-> ->]; [..|done].
    + apply Forall_forall. intros r Hr. apply Z.ltb_lt, Hlt; [done|left].
    + constructor; [apply Z.ltb_irrefl|]. eapply Forall_impl; [exact Hs|]. intros r ?. apply Z.ltb_ge. simpl in *. lia.
  - apply find_none_all in E.
    assert (Hold : Forall (fun r => at_before cutoff r = true) tbl).
    { unfold dated in Hd. rewrite Forall_forall in *. intros r Hr. specialize (E r Hr).
      rewrite at_or_after_neg in E by auto. by apply negb_false_iff in E. }
    rewrite old_prefix_all by done.
    assert (List.filter (at_before cutoff) tbl = tbl) as ->.
    { clear -Hold. induction Hold as [|r l Hr _ IH]; simpl; [done|]. by rewrite Hr, IH. }
    destruct (last tbl) as [lst|] eqn:El; [|apply last_None in El; by subst].
    apply last_Some in El as [pre ->].
    destruct (drop_matching_prefix (fun r => r_id r <=? r_id lst) m (pre ++ [lst]) []) as [H1 H2]; [|constructor|].
    + apply StronglySorted_app in Hs as (Hlt & _ & _). apply Forall_app. split.
      * apply Forall_forall. intros r Hr. apply Z.leb_le. specialize (Hlt r lst Hr). simpl in Hlt.
        assert (r_id r < r_id lst) by (apply Hlt; left). lia.
      * constructor; [apply Z.leb_refl|constructor].
    + rewrite !app_nil_r in *. by rewrite H1, H2.
Qed.

Lemma table_ids_NoDup tbl : table_wf tbl -> NoDup (map r_id tbl).
Proof.
  induction 1 as [|r tbl Hs IH Hr]; simpl; [constructor|]. constructor; [|done].
  intros (x & E & Hx)%list_elem_of_fmap. rewrite Forall_forall in Hr. specialize (Hr x Hx). lia.
Qed.

Lemma purge_prefix_spec tbl cutoff batchSize max : table_wf tbl -> dated tbl -> (0 < batchSize)%nat ->
  let n := Nat.min max (old_prefix cutoff tbl) in
  purgeActivityRowPrefix tbl cutoff batchSize max = Some (drop n tbl, n).
Proof.
  intros Hs Hd Hb n. unfold purgeActivityRowPrefix.
  pose proof (purge_boundary_prefix tbl cutoff n Hs Hd) as Hp. destruct (purge_boundary tbl cutoff) as [f|].
  - destruct Hp as [Hl Hdm].
    rewrite (purge_batches_spec r_id f batchSize max (S (length tbl)) Hb); [|by apply table_ids_NoDup|lia].
    rewrite Nat.sub_0_r, Hl. fold n. rewrite Hdm. replace (Nat.min n _) with n by lia. done.
  - unfold n. by rewrite Hp, Nat.min_0_r.
Qed.

Lemma purge_log_spec tbl cutoff batchSize max : NoDup (map l_id tbl) -> (0 < batchSize)%nat ->
  let old r := l_createdAt r <? cutoff in
  let n := Nat.min max (length (List.filter old tbl)) in
  purgeLogTable tbl cutoff batchSize max = Some (drop_matching old n tbl, n).
Proof.
  intros Hnd Hb old n. unfold purgeLogTable.
  rewrite (purge_batches_spec l_id old batchSize max (S (length tbl)) Hb) by (done || lia).
  by rewrite Nat.sub_0_r.
Qed.

Lemma old_prefix_take cutoff tbl n : (n <= old_prefix cutoff tbl)%nat ->
  Forall (fun r => at_before cutoff r = true) (take n tbl).
Proof.
  revert n. induction tbl as [|r tbl IH]; intros [|n] Hn; simpl in *; try constructor.
  - destruct (at_before cutoff r); [done|lia].
  - apply IH. destruct (at_before cutoff r); lia.
Qed.

Lemma drop_matching_kept {A} (f : A -> bool) m l x : x ∈ l -> f x = false -> x ∈ drop_matching f m l.
Proof.
  revert m. induction l as [|y l IH]; intros m Hin Hf; [by apply elem_of_nil in Hin|]. simpl.
  apply elem_of_cons in Hin as [->|Hin].
  - rewrite Hf. left.
  - destruct (f y); [destruct m; [by right|by apply IH]|right; by apply IH].
Qed.

(** ** Properties *)

(** C22: the purge of the chain is a truncation.  Whatever order the rows'
    dates come in, it always returns, and removes exactly the leading rows (by
    id) that are older than the cutoff, at most [max] of them: every removed
    row is older than the cutoff, the rest is untouched, and a table that
    verified before still verifies in full. *)
Theorem purge_truncates `{CryptoOps} keys tbl cutoff batchSize max :
  table_wf tbl -> dated tbl -> (0 < batchSize)%nat ->
  let n := Nat.min max (old_prefix cutoff tbl) in
  purgeActivityRowPrefix tbl cutoff batchSize max = Some (drop n tbl, n) /\
  Forall (fun r => at_before cutoff r = true) (take n tbl) /\
  (valid_from keys 0 None tbl ->
   verifyActivityChain keys (drop n tbl) None = Some (mkResult true (length tbl - n) None)).
Proof.
  intros Hs Hd Hb n. split_and!; [by apply purge_prefix_spec|apply old_prefix_take; lia|].
  intros Hv. apply (valid_from_drop _ n) in Hv.
  assert (Hw : table_wf (drop n tbl)).
  { unfold table_wf in *. rewrite <- (take_drop n tbl) in Hs. by apply StronglySorted_app_1_r in Hs. }
  rewrite verifyActivityChain_scan by done. simpl.
  apply (scan_valid keys (drop n tbl) (mkWalk 0 None 0)) in Hv.
  destruct (scan _ _ _) as [w b] eqn:E. simpl in Hv. subst. apply scan_count in E. simpl in E.
  by rewrite E, length_drop.
Qed.

(** A retention run touches nothing inside the window and stays within
    its cap.  With a window of zero or fewer days it deletes nothing.
    Otherwise it returns; no table loses a row that is not older than the
    cutoff, none loses more than the cap, the reported counts are the rows
    lost, and the chain gets its "Audit log purged" row exactly when activity
    rows were removed. *)
Theorem retention_run tables days now batch max :
  table_wf (t_activity tables) -> dated (t_activity tables) ->
  NoDup (map l_id (t_commandAudit tables)) -> NoDup (map l_id (t_notification tables)) ->
  let cutoff := now - days * 86400000 in
  let cap := Z.to_nat (Z.max 1 (default DEFAULT_MAX_ROWS_PER_TABLE max)) in
  exists tables' rec res, purgeAuditLogs tables days now batch max = Some (tables', rec, res) /\
    (days <= 0 -> tables' = tables /\ rec = None /\ res = mkPurgeResult 0 0 0 true) /\
    (0 < days -> skipped res = false /\
       (forall r, r ∈ t_activity tables -> at_before cutoff r = false -> r ∈ t_activity tables') /\
       (forall r, r ∈ t_commandAudit tables -> cutoff <= l_createdAt r -> r ∈ t_commandAudit tables') /\
       (forall r, r ∈ t_notification tables -> cutoff <= l_createdAt r -> r ∈ t_notification tables') /\
       (activityDeleted res <= cap /\ commandAuditDeleted res <= cap /\ notificationDeleted res <= cap)%nat /\
       (length (t_activity tables') + activityDeleted res = length (t_activity tables))%nat /\
       (length (t_commandAudit tables') + commandAuditDeleted res = length (t_commandAudit tables))%nat /\
       (length (t_notification tables') + notificationDeleted res = length (t_notification tables))%nat /\
       (is_Some rec <-> (0 < activityDeleted res)%nat)).
Proof.
  intros Hs Hd Hc Hn cutoff cap. unfold purgeAuditLogs. destruct (days <=? 0) eqn:Hdays; b2p.
  { eexists _, _, _. split; [done|]. split; [done|lia]. }
  set (bs := Z.to_nat (Z.max 1 (default DEFAULT_BATCH_SIZE batch))).
  assert (Hb : (0 < bs)%nat) by (unfold bs; lia). fold cap cutoff.
  rewrite (purge_prefix_spec _ cutoff bs cap Hs Hd Hb), !(purge_log_spec _ cutoff bs cap) by done.
  eexists _, _, _. split; [done|]. split; [lia|]. intros _. simpl.
  assert (Hlog : forall l r, r ∈ l -> cutoff <= l_createdAt r ->
    r ∈ drop_matching (fun r => l_createdAt r <? cutoff) (Nat.min cap (length (List.filter (fun r => l_createdAt r <? cutoff) l))) l).
  { intros l r Hr Hge. apply drop_matching_kept; [done|]. by apply Z.ltb_ge. }
  assert (Hlen : forall l : list LogRow, let f r := l_createdAt r <? cutoff in
    (length (drop_matching f (Nat.min cap (length (List.filter f l))) l) + Nat.min cap (length (List.filter f l)) = length l)%nat).
  { intros l f. pose proof (List.filter_length_le f l). rewrite drop_matching_length by lia. lia. }
  split_and!; try done; try lia; eauto.
  - intros r Hr Hnew. set (n := Nat.min cap (old_prefix cutoff (t_activity tables))).
    rewrite <- (take_drop n (t_activity tables)) in Hr. apply elem_of_app in Hr as [Hr|]; [|done].
    assert (Hall : Forall (fun r => at_before cutoff r = true) (take n (t_activity tables)))
      by (apply old_prefix_take; lia). rewrite Forall_forall in Hall. rewrite (Hall r Hr) in Hnew. done.
  - rewrite length_drop. assert (old_prefix cutoff (t_activity tables) <= length (t_activity tables))%nat; [|lia].
    clear. induction (t_activity tables); simpl; [lia|]. case_match; lia.
  - destruct (0 <? _)%nat eqn:E; b2p; split; intros; try lia; [done|by destruct H].
Qed.

(** ** Witnesses *)

#[local] Existing Instance toy_crypto.

Definition purge_sample : LogTables := mkTables [row1; row2] [mkLogRow (js "a") 5] [].

Lemma sample_dated : dated [row1; row2].
Proof. repeat constructor; eauto. Qed.

Lemma purge_truncates_witness :
  purgeActivityRowPrefix [row1; row2] 1767225600001 1 1 = Some ([row2], 1%nat) /\
  Forall (fun r => at_before 1767225600001 r = true) [row1] /\
  (valid_from (ring [key1; key2]) 0 None [row1; row2] ->
   verifyActivityChain (ring [key1; key2]) [row2] None = Some (mkResult true 1 None)).
Proof.
  exact (purge_truncates (ring [key1; key2]) [row1; row2] 1767225600001 1 1 sample_table_wf sample_dated
           (Nat.lt_0_succ 0)).
Defined.

Lemma retention_run_witness : exists tables' rec res,
  purgeAuditLogs purge_sample 1 1767312000001 None None = Some (tables', rec, res) /\
  (0 < 1 -> skipped res = false).
Proof.
  destruct (retention_run purge_sample 1 1767312000001 None None sample_table_wf sample_dated)
    as (tables' & rec & res & H & _ & H2); [repeat constructor; set_solver|constructor|].
  exists tables', rec, res. split; [exact H|]. intros Hd. apply (H2 Hd).
Defined.
