(* ===== verification/AuditRoots.v ===== *)
(** * AuditRoots: daily roots and key rotation
      (apps/orchestrator/src/services/audit-daily-root.service.ts and
       audit-key-rotation.service.ts)

    The nightly job signs one root per UTC day with the device key
    ([sign_device], a parameter that may fail); the roots are listed by date,
    as every query of the file asks for them.  Dates are the strings the code
    stores and compares. *)

From S2P Require Import Prelude JsNum Json DateTime DateText AuditSigning AuditVerify AuditRecorder.

Local Open Scope Z_scope.

(** ** Dates as text *)

(** [d.toISOString().slice(0, 10)] *)
Definition utcDateString (t : Z) : jsstr := take 10 (toISOString t).

(** [DATE_RE.test(date)] *)
Definition DATE_RE (date : jsstr) : bool :=
  Nat.eqb (length date) 10 && forallb digitb (take 4 date) && bool_decide (date !! 4%nat = Some 45%N) &&
  forallb digitb (take 2 (drop 5 date)) && bool_decide (date !! 7%nat = Some 45%N) &&
  forallb digitb (take 2 (drop 8 date)).

(** [Date.parse(`${date}T00:00:00.000Z`)], [None] for NaN. *)
Definition parse_date (date : jsstr) : option Z :=
  if DATE_RE date then
    let y := digits_val (take 4 date) in
    let m := digits_val (take 2 (drop 5 date)) in
    let d := digits_val (take 2 (drop 8 date)) in
    if (1 <=? m) && (m <=? 12) && (1 <=? d) && (d <=? 31) then Some (day_of_civil y m d * MS_DAY) else None
  else None.

Definition endOfUtcDay (date : jsstr) : option Z := (fun t => t + MS_DAY) <$> parse_date date.

(** ** Roots *)

Record DailyRootContent := mkRootContent {
  rc_date : jsstr; rc_firstRowId : jsstr; rc_lastRowId : jsstr; rc_prevRootHash : jsstr;
  rc_rowCount : nat; rc_tailSignatureHash : jsstr
}.

Definition canonicalizeDailyRoot (c : DailyRootContent) : jsstr :=
  json_stringify (JObj
    [(js "date", JStr (rc_date c)); (js "firstRowId", JStr (rc_firstRowId c));
     (js "lastRowId", JStr (rc_lastRowId c)); (js "prevRootHash", JStr (rc_prevRootHash c));
     (js "rowCount", JNum (num_of_Z (Z.of_nat (rc_rowCount c))));
     (js "tailSignatureHash", JStr (rc_tailSignatureHash c))]).

(** [bigint.toString()] *)
Definition bigint_str (z : Z) : jsstr :=
  if z <? 0 then 45%N :: dec_str (Z.to_N (- z)) else dec_str (Z.to_N z).

Inductive RootError := InvalidRootDate | NoRowsInTable | DeviceKeyFailed.

Section roots.
Context {CO : CryptoOps}.
(** The device identity service: signature (as base64) and algorithm. *)
Variable sign_device : jsstr -> option (jsstr * jsstr).

Definition dailyRootHash (c : DailyRootContent) : jsstr := sha_b64 (canonicalizeDailyRoot c).

Definition root_content (r : DailyRoot) : DailyRootContent :=
  mkRootContent (dr_date r) (bigint_str (dr_firstRowId r)) (bigint_str (dr_lastRowId r))
    (dr_prevRootHash r) (dr_rowCount r) (dr_tailSignatureHash r).

Fixpoint insert_root (r : DailyRoot) (l : list DailyRoot) : list DailyRoot :=
  match l with
  | [] => [r]
  | x :: l' => if str_ltb (dr_date x) (dr_date r) then x :: insert_root r l' else r :: l
  end.

Definition row_before (dayEnd : Z) (r : ActivityRow) : bool :=
  match c_at (r_content r) with Some t => t <? dayEnd | None => false end.

(** The span and the tail hash a new root attests, or [None] when there is
    nothing to attest yet. *)
Definition root_span (prevRoot : option DailyRoot) (tailRow : option ActivityRow) (tbl : Table)
  : result RootError (option (Z * Z * jsstr)) :=
  match prevRoot with
  | Some p =>
      let firstRowId := dr_lastRowId p + 1 in
      Ok (Some (match tailRow with
                | Some t => if firstRowId <=? r_id t
                            then (firstRowId, r_id t, hashSignature (r_signature t))
                            else (firstRowId, dr_lastRowId p, dr_tailSignatureHash p)
                | None => (firstRowId, dr_lastRowId p, dr_tailSignatureHash p)
                end))
  | None =>
      match tailRow with
      | None => Ok None
      | Some t => match head tbl with
                  | Some h => Ok (Some (r_id h, r_id t, hashSignature (r_signature t)))
                  | None => Throw NoRowsInTable
                  end
      end
  end.

Definition signDailyRootForDate (roots : list DailyRoot) (tbl : Table) (date : jsstr)
  : result RootError (list DailyRoot * bool) :=
  if negb (DATE_RE date) then Throw InvalidRootDate
  else if existsb (fun r => bool_decide (dr_date r = date)) roots then Ok (roots, false)
  else
    let prevRoot := last roots in
    match endOfUtcDay date with
    | None => Throw InvalidRootDate
    | Some dayEnd =>
        let tailRow := last (List.filter (row_before dayEnd) tbl) in
        let! span := root_span prevRoot tailRow tbl in
        match span with
        | None => Ok (roots, false)
        | Some (firstRowId, lastRowId, tailHash) =>
            let rowCount := if firstRowId <=? lastRowId
                            then length (List.filter (fun r => (firstRowId <=? r_id r) && (r_id r <=? lastRowId)) tbl)
                            else 0%nat in
            let content := mkRootContent date (bigint_str firstRowId) (bigint_str lastRowId)
                             (match prevRoot with Some p => dr_rootHash p | None => [] end) rowCount tailHash in
            match sign_device (canonicalizeDailyRoot content) with
            | None => Throw DeviceKeyFailed
            | Some (signature, algorithm) =>
                Ok (insert_root (mkDailyRoot date firstRowId lastRowId rowCount tailHash
                                   (rc_prevRootHash content) (dailyRootHash content) signature algorithm) roots,
                    true)
            end
        end
    end.

Definition MAX_CATCHUP_DAYS : nat := 60.

(** The dates to sign: from [cursor] on, while not past [yesterday]. *)
Fixpoint catchup_dates (n : nat) (cursor : Z) (yesterday : jsstr) : list jsstr :=
  match n with
  | O => []
  | S n => let d := utcDateString cursor in
           if negb (str_ltb yesterday d) then d :: catchup_dates n (cursor + MS_DAY) yesterday else []
  end.

(** Sign the dates in turn; a failure stops the job with what was stored. *)
Fixpoint sign_dates (dates : list jsstr) (roots : list DailyRoot) (tbl : Table) (signed : list jsstr) (skipped : nat)
  : list DailyRoot * result RootError (list jsstr * nat) :=
  match dates with
  | [] => (roots, Ok (signed, skipped))
  | date :: rest =>
      match signDailyRootForDate roots tbl date with
      | Throw e => (roots, Throw e)
      | Ok (roots', true) => sign_dates rest roots' tbl (signed ++ [date]) skipped
      | Ok (roots', false) => sign_dates rest roots' tbl signed (S skipped)
      end
  end.

Definition runDailyRootJob (roots : list DailyRoot) (tbl : Table) (now : Z)
  : list DailyRoot * result RootError (list jsstr * nat) :=
  let yesterday := utcDateString (now - MS_DAY) in
  match (match last roots with
         | Some r => endOfUtcDay (dr_date r)
         | None => parse_date yesterday
         end) with
  | Some cursor => sign_dates (catchup_dates MAX_CATCHUP_DAYS cursor yesterday) roots tbl [] 0
  | None => (roots, Throw InvalidRootDate)  (* toISOString of an invalid date *)
  end.
End roots.

(** ** Key rotation *)

Inductive RotationError :=
| ROTATION_IN_PROGRESS | AUDIT_SIGNER_UNAVAILABLE | HOST_HELPER_UNAVAILABLE | RETIRED_KEY_DIR_MISSING
| ROTATION_FAILED | KeyLoad (e : AuditError) | Adopt (e : AdoptError).

(** The HTTP status of a refused rotation; other errors carry none. *)
Definition rotation_status (e : RotationError) : option Z :=
  match e with
  | ROTATION_IN_PROGRESS | RETIRED_KEY_DIR_MISSING => Some 409
  | AUDIT_SIGNER_UNAVAILABLE | HOST_HELPER_UNAVAILABLE => Some 503
  | ROTATION_FAILED => Some 502
  | KeyLoad _ | Adopt _ => None
  end.

Definition rotated_row (actor : ActivityActor) (username : option jsstr) (prev new via : jsstr) : RecordParams :=
  mkParams (js "system") (js "warn") (js "key-round") (js "Audit key rotated")
    (Some (prev ++ [32; 0x2192; 32]%N ++ new))
    (JObj [(js "actor", str_or_null username); (js "previousKeyId", JStr prev);
           (js "newKeyId", JStr new); (js "via", JStr via)])
    (Some actor) None.

Section rotation.
Context {CO : CryptoOps}.

(** [host]: [None] without a helper, else whether it succeeded; [loaded]: the
    key file read afterwards.  The new keyring, the row to record, and the
    answer. *)
Definition rotateAuditKeyOnce (s : option AuditSingleton) (host : option bool) (retiredDirExists : bool)
    (loaded : result AuditError (list N)) (actor : ActivityActor) (username : option jsstr)
  : result RotationError (AuditSingleton * RecordParams * (jsstr * jsstr)) :=
  match s with
  | None => Throw AUDIT_SIGNER_UNAVAILABLE
  | Some s =>
      match host with
      | None => Throw HOST_HELPER_UNAVAILABLE
      | Some hostOk =>
          if negb retiredDirExists then Throw RETIRED_KEY_DIR_MISSING
          else if negb hostOk then Throw ROTATION_FAILED
          else match loaded with
               | Throw e => Throw (KeyLoad e)
               | Ok newKey =>
                   if bool_decide (auditKeyId newKey = keyId (s_current s)) then Throw ROTATION_FAILED
                   else match adoptAuditKey s newKey with
                        | Throw e => Throw (Adopt e)
                        | Ok (s', (prev, new)) =>
                            Ok (s', rotated_row actor username prev new (js "dashboard"), (prev, new))
                        end
               end
      end
  end.

(** [rotateAuditKey]: refused while another one runs. *)
Definition rotateAuditKey (rotationInFlight : bool) (s : option AuditSingleton) (host : option bool)
    (retiredDirExists : bool) (loaded : result AuditError (list N)) (actor : ActivityActor) (username : option jsstr)
  : result RotationError (AuditSingleton * RecordParams * (jsstr * jsstr)) :=
  if rotationInFlight then Throw ROTATION_IN_PROGRESS
  else rotateAuditKeyOnce s host retiredDirExists loaded actor username.

(** The row a rotation found at boot writes, if any. *)
Definition recordRotationFoundAtBoot (keyring : list AuditKeyEpoch) (tbl : Table) : option RecordParams :=
  match last keyring with
  | None => None
  | Some current =>
      if (length keyring <? 2)%nat then None
      else match last tbl with
           | None => None
           | Some tail =>
               let signedBy := vouches (r_content tail) (r_prev tail) (r_signature tail) in
               if signedBy current then None
               else match List.find signedBy (reverse (take (length keyring - 1) keyring)) with
                    | None => None
                    | Some previous =>
                        Some (rotated_row (mkActor (js "system") None) None (keyId previous) (keyId current) (js "script"))
                    end
           end
  end.
End rotation.

(** ** Dates in order *)

Lemma utcDateString_text t : ok_day (t / MS_DAY) -> utcDateString t = date_text (t / MS_DAY).
Proof. apply iso_date_text. Qed.

Lemma date_text_parse day : ok_day day -> DATE_RE (date_text day) = true /\ parse_date (date_text day) = Some (day * MS_DAY).
Proof.
  intros Hd. destruct (ok_day_civil _ Hd) as (y & m & d & E & Hy & Hm & Hdd & Hday). unfold date_text. rewrite E.
  set (s := pad 4 y ++ 45%N :: pad 2 m ++ 45%N :: pad 2 d).
  assert (H4 : take 4 s = pad 4 y) by (apply take_app_length'; by rewrite length_pad).
  assert (D4 : drop 4 s = 45%N :: pad 2 m ++ 45%N :: pad 2 d) by (apply drop_app_length'; by rewrite length_pad).
  assert (D5 : drop 5 s = pad 2 m ++ 45%N :: pad 2 d) by (change 5%nat with (4 + 1)%nat; by rewrite <- drop_drop, D4).
  assert (H2 : take 2 (drop 5 s) = pad 2 m) by (rewrite D5; apply take_app_length'; by rewrite length_pad).
  assert (D7 : drop 7 s = 45%N :: pad 2 d) by (change 7%nat with (5 + 2)%nat; rewrite <- drop_drop, D5; apply drop_app_length'; by rewrite length_pad).
  assert (D8 : drop 8 s = pad 2 d) by (change 8%nat with (7 + 1)%nat; by rewrite <- drop_drop, D7).
  assert (H3 : take 2 (drop 8 s) = pad 2 d) by (rewrite D8; apply take_ge; by rewrite length_pad).
  assert (L4 : s !! 4%nat = Some 45%N) by (rewrite <- (Nat.add_0_r 4), <- lookup_drop, D4; done).
  assert (L7 : s !! 7%nat = Some 45%N) by (rewrite <- (Nat.add_0_r 7), <- lookup_drop, D7; done).
  assert (HR : DATE_RE s = true).
  { unfold DATE_RE. rewrite H4, H2, H3, !digitb_pad, !bool_decide_true by done. unfold s. rewrite !length_app. cbn [length].
    by rewrite !length_app; cbn [length]; rewrite !length_pad. }
  split; [done|]. unfold parse_date. rewrite HR, H4, H2, H3, !digits_val_pad by (simpl; lia).
  rewrite (proj2 (Z.leb_le 1 m)), (proj2 (Z.leb_le m 12)), (proj2 (Z.leb_le 1 d)), (proj2 (Z.leb_le d 31)) by lia.
  by rewrite Hday.
Qed.

(** ** The chain of roots *)

Section chain.
Context {CO : CryptoOps} (sign_device : jsstr -> option (jsstr * jsstr)).

(** A root's hash is the hash of its own canonical content. *)
Definition self_hashed (r : DailyRoot) : Prop := dr_rootHash r = dailyRootHash (root_content r).

(** Root [r] follows root [p]: the next row id, the next hash, no row lost. *)
Definition root_follows (p r : DailyRoot) : Prop :=
  dr_firstRowId r = dr_lastRowId p + 1 /\ dr_lastRowId p <= dr_lastRowId r /\ dr_prevRootHash r = dr_rootHash p.

(** Roots of consecutive days, each linked to the one before. *)
Inductive root_chain : list DailyRoot -> Prop :=
| rch_nil : root_chain []
| rch_one r day : ok_day (day + 1) -> ok_day day -> dr_date r = date_text day -> self_hashed r ->
    dr_prevRootHash r = [] -> root_chain [r]
| rch_snoc rs p r day : root_chain (rs ++ [p]) -> dr_date p = date_text day -> ok_day day -> ok_day (day + 1) ->
    ok_day (day + 2) -> dr_date r = date_text (day + 1) -> self_hashed r -> root_follows p r ->
    root_chain ((rs ++ [p]) ++ [r]).

Lemma root_chain_last roots p : root_chain roots -> last roots = Some p ->
  exists day, dr_date p = date_text day /\ ok_day day /\ ok_day (day + 1).
Proof.
  intros Hc Hl. destruct Hc as [|r day H1 H0 Hd _ _|rs q r day _ _ _ H1 H2 Hr _ _]; [done|..].
  - injection Hl as <-. eauto.
  - rewrite last_snoc in Hl. injection Hl as <-. exists (day + 1). split_and!; [done..|].
    by replace (day + 1 + 1) with (day + 2) by lia.
Qed.

(** Every root is dated no later than the last. *)
Lemma root_chain_dates roots p day : root_chain roots -> last roots = Some p -> dr_date p = date_text day ->
  ok_day day -> ok_day (day + 1) ->
  Forall (fun r => str_ltb (dr_date r) (date_text (day + 1)) = true) roots.
Proof.
  intros Hc. revert p day. induction Hc as [|r day' H1 H0 Hd _ _|rs q r day' Hc IH Hq H0 H1 H2 Hr _ _];
    intros p day Hl Hp Hok Hok'; [constructor|..].
  - constructor; [|constructor]. injection Hl as <-. rewrite Hp. by apply date_text_succ.
  - rewrite last_snoc in Hl. injection Hl as <-. apply Forall_app. split.
    + specialize (IH q day' (last_snoc _ _) Hq H0 H1). eapply Forall_impl; [exact IH|]. intros x Hx. simpl in Hx.
      rewrite <- Hr, Hp in Hx. eapply str_ltb_trans; [exact Hx|]. by apply date_text_succ.
    + constructor; [|constructor]. rewrite Hp. by apply date_text_succ.
Qed.

Lemma insert_root_last r roots : Forall (fun x => str_ltb (dr_date x) (dr_date r) = true) roots ->
  insert_root r roots = roots ++ [r].
Proof. induction 1 as [|x l Hx _ IH]; simpl; [done|]. by rewrite Hx, IH. Qed.

Lemma no_such_root date roots : Forall (fun x => str_ltb (dr_date x) date = true) roots ->
  existsb (fun r => bool_decide (dr_date r = date)) roots = false.
Proof.
  induction 1 as [|x l Hx _ IH]; simpl; [done|]. rewrite IH, orb_false_r.
  apply bool_decide_eq_false. intros <-. by rewrite str_ltb_irrefl in Hx.
Qed.

(** Signing the day after the last root adds its root, or fails at the key. *)
Lemma sign_next roots tbl p day : root_chain roots -> last roots = Some p -> dr_date p = date_text day ->
  ok_day day -> ok_day (day + 1) -> ok_day (day + 2) ->
  signDailyRootForDate sign_device roots tbl (date_text (day + 1)) = Throw DeviceKeyFailed \/
  exists r, signDailyRootForDate sign_device roots tbl (date_text (day + 1)) = Ok (roots ++ [r], true) /\
    root_chain (roots ++ [r]) /\ dr_date r = date_text (day + 1).
Proof.
  intros Hc Hl Hp H0 H1 H2. pose proof (root_chain_dates _ _ _ Hc Hl Hp H0 H1) as Hlt.
  destruct (date_text_parse (day + 1) H1) as [HR Hparse].
  unfold signDailyRootForDate. rewrite HR, no_such_root by done. cbn [negb]. unfold endOfUtcDay. rewrite Hparse, Hl.
  cbn [fmap option_fmap option_map root_span rbind]. set (tailRow := last _).
  set (span := match tailRow with Some _ => _ | None => _ end).
  assert (Hspan : exists last' h, span = (dr_lastRowId p + 1, last', h) /\ dr_lastRowId p <= last').
  { unfold span. destruct tailRow as [t|]; [case_match; b2p|]; eexists _, _; (split; [done|lia]). }
  destruct Hspan as (last' & h & -> & Hle). destruct (sign_device _) as [[sg alg]|]; [right|by left].
  eexists. split; [rewrite insert_root_last by done; done|]. split; [|done].
  destruct (proj1 (last_Some roots p) Hl) as [rs ->].
  by apply (rch_snoc rs p _ day).
Qed.

Lemma sign_first tbl day : ok_day day -> ok_day (day + 1) ->
  (exists e, signDailyRootForDate sign_device [] tbl (date_text day) = Throw e) \/
  signDailyRootForDate sign_device [] tbl (date_text day) = Ok ([], false) \/
  exists r, signDailyRootForDate sign_device [] tbl (date_text day) = Ok ([r], true) /\ root_chain [r].
Proof.
  intros H0 H1. destruct (date_text_parse day H0) as [HR Hparse].
  unfold signDailyRootForDate. rewrite HR. cbn [negb existsb last]. unfold endOfUtcDay. rewrite Hparse.
  cbn [fmap option_fmap option_map root_span]. destruct (last _) as [t|]; [|by right; left].
  destruct (head tbl) as [hd|]; [|left; eauto]. cbn [rbind].
  destruct (sign_device _) as [[sg alg]|]; [|left; eauto].
  right; right. eexists. split; [done|]. by apply (rch_one _ day).
Qed.

(** The dates of a run of days. *)
Definition day_dates (day : Z) (n : nat) : list jsstr := (fun i => date_text (day + Z.of_nat i)) <$> seq 0 n.

Lemma catchup_dates_days n : forall day yd, ok_day day -> ok_day (yd + 1) -> ok_day yd ->
  catchup_dates n (day * MS_DAY) (date_text yd) = day_dates day (Nat.min n (Z.to_nat (yd - day + 1))).
Proof.
  induction n as [|n IH]; intros day yd Hd Hy1 Hy; [done|]. cbn [catchup_dates].
  assert (Ediv : day * MS_DAY / MS_DAY = day) by (apply Z.div_mul; done).
  rewrite utcDateString_text by (by rewrite Ediv). rewrite Ediv.
  destruct (decide (day <= yd)) as [Hle|Hgt].
  - assert (str_ltb (date_text yd) (date_text day) = false) as ->.
    { destruct (decide (day = yd)) as [->|]; [apply str_ltb_irrefl|].
      destruct (str_ltb (date_text yd) (date_text day)) eqn:E; [|done].
      assert (F : str_ltb (date_text day) (date_text yd) = true) by (apply date_text_lt; [done..|lia]).
      pose proof (str_ltb_trans _ _ _ F E) as G. by rewrite str_ltb_irrefl in G. }
    cbn [negb]. replace (day * MS_DAY + MS_DAY) with ((day + 1) * MS_DAY) by lia.
    rewrite IH; [|unfold ok_day in *; lia|done..].
    replace (Nat.min (S n) (Z.to_nat (yd - day + 1))) with (S (Nat.min n (Z.to_nat (yd - (day + 1) + 1)))) by lia.
    unfold day_dates. cbn [seq fmap list_fmap]. f_equal; [f_equal; lia|]. rewrite <- seq_shift, <- list_fmap_compose.
    apply list_fmap_ext. intros i x _. unfold compose. f_equal. lia.
  - rewrite (date_text_lt yd day) by (done || lia). cbn [negb].
    by replace (Z.to_nat (yd - day + 1)) with 0%nat by lia; rewrite Nat.min_0_r.
Qed.

Lemma sign_dates_next tbl n : forall roots p day signed sk, root_chain roots -> last roots = Some p ->
  dr_date p = date_text day -> ok_day day -> ok_day (day + Z.of_nat n + 1) ->
  let '(roots', res) := sign_dates sign_device (day_dates (day + 1) n) roots tbl signed sk in
  root_chain roots' /\ exists new, roots' = roots ++ new /\ (length new <= n)%nat /\
    (is_ok res = true -> length new = n).
Proof.
  induction n as [|n IH]; intros roots p day signed sk Hc Hl Hp H0 Hn.
  - cbn. split; [done|]. exists []. rewrite app_nil_r. done.
  - assert (H1 : ok_day (day + 1)) by (unfold ok_day in *; lia).
    assert (H2 : ok_day (day + 2)) by (unfold ok_day in *; lia).
    assert (Ed : day_dates (day + 1) (S n) = date_text (day + 1) :: day_dates (day + 1 + 1) n).
    { unfold day_dates. cbn [seq fmap list_fmap]. f_equal; [f_equal; lia|]. rewrite <- seq_shift, <- list_fmap_compose.
      apply list_fmap_ext. intros i x _. unfold compose. f_equal. lia. }
    rewrite Ed. cbn [sign_dates]. destruct (sign_next roots tbl p day Hc Hl Hp H0 H1 H2) as [->|(r & -> & Hc' & Hr)].
    + split; [done|]. exists []. rewrite app_nil_r. split_and!; [done|simpl; lia|done].
    + pose proof (IH (roots ++ [r]) r (day + 1) (signed ++ [date_text (day + 1)]) sk Hc' (last_snoc _ _) Hr H1
        ltac:(unfold ok_day in *; lia)) as HIH.
      destruct (sign_dates _ _ (roots ++ [r]) tbl _ sk) as [roots' res]. destruct HIH as [Hch (new & -> & Hlen & Hok)].
      split; [done|]. exists (r :: new). rewrite <- app_assoc. split; [done|]. simpl. split; [lia|]. intros Hx. by rewrite Hok.
Qed.
End chain.

(** ** Properties *)

(** The roots never skip a day or a row.  From a list of roots that are of
    consecutive days and linked (each starts at the row after the one before,
    and carries its hash), the nightly job leaves such a list, with the old
    roots unchanged in front: even when the device key fails half way.  When it
    does not fail on a box that has roots, it has added one root for every day
    from the last root to yesterday, at most 60. *)
Theorem daily_roots_contiguous `{CryptoOps} sign_device roots tbl now :
  let yd := now / MS_DAY - 1 in
  root_chain roots -> ok_day yd -> ok_day (yd + 2) ->
  let '(roots', res) := runDailyRootJob sign_device roots tbl now in
  root_chain roots' /\
  exists new, roots' = roots ++ new /\ (length new <= MAX_CATCHUP_DAYS)%nat /\
    (forall p day, is_ok res = true -> last roots = Some p -> dr_date p = date_text day -> ok_day day -> ok_day (day + 1) ->
       length new = Nat.min MAX_CATCHUP_DAYS (Z.to_nat (yd - day))).
Proof.
  intros yd Hc Hy Hy2. unfold runDailyRootJob.
  assert (Hy1 : ok_day (yd + 1)) by (unfold ok_day in *; lia).
  assert (Eyd : (now - MS_DAY) / MS_DAY = yd).
  { unfold yd, MS_DAY. Z.to_euclidean_division_equations; lia. }
  rewrite utcDateString_text by (by rewrite Eyd). rewrite Eyd.
  destruct (last roots) as [p|] eqn:Hl.
  - destruct (root_chain_last roots p Hc Hl) as (day & Hp & H0 & H1). rewrite Hp. unfold endOfUtcDay.
    destruct (date_text_parse day H0) as [_ ->]. cbn [fmap option_fmap option_map].
    replace (day * MS_DAY + MS_DAY) with ((day + 1) * MS_DAY) by lia.
    rewrite catchup_dates_days by done. set (n := Nat.min _ _).
    pose proof (sign_dates_next sign_device tbl n roots p day [] 0 Hc Hl Hp H0) as Hs.
    destruct (sign_dates _ _ roots tbl [] 0) as [roots' res]. destruct Hs as [Hch (new & -> & Hlen & Hok)].
    { unfold ok_day in *. unfold n. lia. }
    split; [done|]. exists new. split_and!; [done|unfold n in Hlen; lia|].
    intros p' day' Hres [= <-] Hp' Hd' _. rewrite Hok by done. unfold n.
    assert (day' = day) as ->; [|f_equal; f_equal; lia].
    rewrite Hp in Hp'. destruct (date_text_parse day H0) as [_ E1]. destruct (date_text_parse day' Hd') as [_ E2].
    rewrite Hp', E2 in E1. injection E1 as E1. unfold MS_DAY in E1. lia.
  - apply last_None in Hl. subst. destruct (date_text_parse yd Hy) as [_ ->].
    rewrite catchup_dates_days by done. replace (yd - yd + 1) with 1 by lia.
    assert (day_dates yd (Nat.min MAX_CATCHUP_DAYS (Z.to_nat 1)) = [date_text yd]) as ->
      by (transitivity [date_text (yd + 0)]; [done|by rewrite Z.add_0_r]).
    cbn [sign_dates].
    destruct (sign_first sign_device tbl yd Hy Hy1) as [[e ->]|[->|(r & -> & Hch)]].
    + split; [done|]. exists []. split_and!; [done|simpl; lia|done].
    + split; [done|]. exists []. split_and!; [done|simpl; lia|done].
    + split; [done|]. exists [r]. split_and!; [done|simpl; unfold MAX_CATCHUP_DAYS; lia|done].
Qed.

(** A rotation adds a key and loses nothing.  It happens only when no
    other is running, the signer runs, the helper exists and succeeded, and
    the archive is visible; the new keyring is then the old one with the new
    key last, the new key is at least 32 bytes and its id was not in the ring;
    the ids answered and recorded are the old and the new one; and every table
    that verified under the old ring verifies under the new one. *)
Theorem rotation_keeps_history `{CryptoOps} inFlight s host dir loaded actor username s' row ids :
  rotateAuditKey inFlight s host dir loaded actor username = Ok (s', row, ids) ->
  exists s0 newKey, inFlight = false /\ s = Some s0 /\ host = Some true /\ dir = true /\ loaded = Ok newKey /\
    getAuditKeyring (Some s') = getAuditKeyring s ++ [epochFor newKey] /\
    (MIN_KEY_BYTES <= length newKey)%nat /\
    auditKeyId newKey ∉ (keyId <$> getAuditKeyring s) /\
    ids = (keyId (s_current s0), auditKeyId newKey) /\
    row = rotated_row actor username (keyId (s_current s0)) (auditKeyId newKey) (js "dashboard") /\
    (forall tbl, table_wf tbl ->
       v_ok <$> verifyActivityChain (getAuditKeyring s) tbl None = Some true ->
       v_ok <$> verifyActivityChain (getAuditKeyring (Some s')) tbl None = Some true).
Proof.
  unfold rotateAuditKey, rotateAuditKeyOnce. intros Hr.
  destruct inFlight; [done|]. destruct s as [s0|]; [|done]. destruct host as [[]|]; try done; [|by destruct dir].
  destruct dir; [|done]. cbn [negb] in Hr. destruct loaded as [newKey|]; [|done].
  case_bool_decide as Hid; [done|]. destruct (adoptAuditKey s0 newKey) as [[s1 [prev new]]|] eqn:Ea; [|done].
  injection Hr as <- <- <-. unfold adoptAuditKey, makeEpoch, createHmacSigner in Ea.
  destruct (length newKey <? MIN_KEY_BYTES)%nat eqn:El; [done|]. cbn [rbind] in Ea. b2p.
  destruct (bool_decide _ || existsb _ _) eqn:Eo; [done|]. injection Ea as <- <- <-.
  apply orb_false_iff in Eo as [Eo1 Eo2]. cbn [keyId] in *.
  exists s0, newKey. split_and!; try done.
  - cbn [getAuditKeyring]. rewrite fmap_app. intros [Hin|Hin]%elem_of_app.
    + apply list_elem_of_fmap in Hin as (k & E & Hk). apply not_true_iff_false in Eo2. apply Eo2.
      apply existsb_exists. exists k. split; [by apply list_elem_of_In|]. by apply bool_decide_eq_true.
    + apply list_elem_of_singleton in Hin. done.
  - intros tbl Hw. rewrite !verifyActivityChain_scan by done. simpl.
    pose proof (scan_valid (s_retired s0 ++ [s_current s0]) tbl (mkWalk 0 None 0)) as H1.
    pose proof (scan_valid ((s_retired s0 ++ [s_current s0]) ++ [epochFor newKey]) tbl (mkWalk 0 None 0)) as H2.
    unfold epochFor in H2. destruct (scan _ _ _) as [w b]. destruct (scan _ _ _) as [w' b']. simpl in *.
    intros [= Hb%bool_decide_eq_true]. apply H1 in Hb. f_equal. apply bool_decide_eq_true, H2.
    by apply valid_from_more_keys.
Qed.

(** ** Witnesses *)

#[local] Existing Instance toy_crypto.

Definition toy_device (m : jsstr) : option (jsstr * jsstr) := Some (js "sig", js "ES256").

Definition toy_root : DailyRoot :=
  let c := mkRootContent (date_text 20453) (bigint_str 1) (bigint_str 1) [] 1 (hashSignature (r_signature row1)) in
  mkDailyRoot (date_text 20453) 1 1 1 (hashSignature (r_signature row1)) [] (dailyRootHash c) (js "sig") (js "ES256").

Lemma daily_roots_contiguous_witness :
  let '(roots', res) := runDailyRootJob toy_device [toy_root] [row1; row2] (20456 * MS_DAY) in
  root_chain roots' /\
  exists new, roots' = [toy_root] ++ new /\ (length new <= MAX_CATCHUP_DAYS)%nat /\
    (forall p day, is_ok res = true -> last [toy_root] = Some p -> dr_date p = date_text day -> ok_day day -> ok_day (day + 1) ->
       length new = Nat.min MAX_CATCHUP_DAYS (Z.to_nat (20455 - day))).
Proof.
  apply (daily_roots_contiguous toy_device [toy_root] [row1; row2] (20456 * MS_DAY)).
  - apply (rch_one _ 20453); [vm_compute; split; done|vm_compute; split; done|reflexivity|reflexivity|reflexivity].
  - vm_compute; split; done.
  - vm_compute; split; done.
Defined.

Lemma rotation_keeps_history_witness : exists s' row ids,
  rotateAuditKey false (Some (mkSingleton (epochFor key1) [])) (Some true) true (Ok key2)
    (mkActor (js "user") (Some (js "u1"))) (Some (js "owner")) = Ok (s', row, ids) /\
  exists s0 newKey, false = false /\ Some (mkSingleton (epochFor key1) []) = Some s0 /\ Some true = Some true /\
    true = true /\ (Ok key2 : result AuditError (list N)) = Ok newKey /\
    getAuditKeyring (Some s') = getAuditKeyring (Some (mkSingleton (epochFor key1) [])) ++ [epochFor newKey].
Proof.
  assert (H : exists s' row ids, rotateAuditKey false (Some (mkSingleton (epochFor key1) [])) (Some true) true (Ok key2)
    (mkActor (js "user") (Some (js "u1"))) (Some (js "owner")) = Ok (s', row, ids)) by (eexists _, _, _; reflexivity).
  destruct H as (s' & row & ids & H). exists s', row, ids. split; [exact H|].
  destruct (rotation_keeps_history _ _ _ _ _ _ _ s' row ids H)
    as (s0 & newKey & H1 & H2 & H3 & H4 & H5 & H6 & _).
  exists s0, newKey. split; [exact H1|]. split; [exact H2|]. split; [exact H3|]. split; [exact H4|].
  split; [exact H5|exact H6].
Defined.
