(* ===== verification/DeviceUpdate.v ===== *)
(** * DeviceUpdate: the OTA update table and its runners
      (apps/orchestrator/src/services/update-agent: transitions.ts, apply.ts,
       the row-creating part of poller.ts)

    The table is the list of its rows by creation time.  Every database
    statement is one operation on it ([updateMany], [findFirst]); the handlers
    are written in a small state-and-error monad over the box's state, in the
    order of the code, with the answer of every call that leaves the process
    (settings, fetches, the apply runner, the health gates) given by an
    environment record.  A separate machine interleaves single statements of
    any number of writers. *)

From S2P Require Import Prelude JsNum Json.

Local Open Scope Z_scope.

(** ** Rows *)

Inductive Status :=
  pending | superseded | verifying | applying | committed | rolled_back | failed | rejected.
#[export] Instance status_eq_dec : EqDecision Status.
Proof. solve_decision. Defined.

Inductive Outcome :=
  not_applied | starting_services | o_committed | services_start_failed | o_rolled_back | rollback_failed.
#[export] Instance outcome_eq_dec : EqDecision Outcome.
Proof. solve_decision. Defined.

Record DeviceUpdateRow := mkUpdate {
  u_id : jsstr;
  u_status : Status;
  u_channel : jsstr;
  u_gitSha : jsstr;
  u_builtAt : Z;
  u_failureReason : option jsstr;
  u_outcome : Outcome;
  u_claim : option jsstr;  (* [applyClaim] and [applyClaimId] *)
  u_updatedAt : Z
}.

Abbreviation Updates := (list DeviceUpdateRow).

(** ** The advance-only map *)

Definition DEVICE_UPDATE_ALLOWED_TRANSITIONS (s : Status) : list Status :=
  match s with
  | pending => [superseded; verifying]
  | verifying => [applying; rejected; superseded]
  | applying => [committed; rolled_back; failed]
  | superseded | committed | rolled_back | failed | rejected => []
  end.

Inductive UpdateError :=
| NoSuchRow (id : jsstr)
| AdvanceOnly (id : jsstr) (from to : Status)
| ConcurrentChange (id : jsstr)
| CallFailed.

Definition assertTransitionAllowed (id : jsstr) (from to : Status) : result UpdateError unit :=
  if bool_decide (to ∈ DEVICE_UPDATE_ALLOWED_TRANSITIONS from) then Ok tt else Throw (AdvanceOnly id from to).

(** ** Statements *)

(** [UPDATE ... WHERE p] stamps [updatedAt] and counts the rows. *)
Definition update_rows (p : DeviceUpdateRow -> bool) (f : DeviceUpdateRow -> DeviceUpdateRow) (now : Z)
    (t : Updates) : Updates * nat :=
  (map (fun r => if p r then
                   let r' := f r in
                   mkUpdate (u_id r') (u_status r') (u_channel r') (u_gitSha r') (u_builtAt r')
                     (u_failureReason r') (u_outcome r') (u_claim r') now
                 else r) t,
   length (List.filter p t)).

Definition set_status (to : Status) (r : DeviceUpdateRow) : DeviceUpdateRow :=
  mkUpdate (u_id r) to (u_channel r) (u_gitSha r) (u_builtAt r) (u_failureReason r) (u_outcome r) (u_claim r) (u_updatedAt r).
Definition set_verdict (to : Status) (reason : option jsstr) (o : option Outcome) (r : DeviceUpdateRow) : DeviceUpdateRow :=
  mkUpdate (u_id r) to (u_channel r) (u_gitSha r) (u_builtAt r) reason (default (u_outcome r) o) (u_claim r) (u_updatedAt r).
Definition set_outcome (o : Outcome) (r : DeviceUpdateRow) : DeviceUpdateRow :=
  mkUpdate (u_id r) (u_status r) (u_channel r) (u_gitSha r) (u_builtAt r) (u_failureReason r) o (u_claim r) (u_updatedAt r).
Definition set_claim (c : option jsstr) (r : DeviceUpdateRow) : DeviceUpdateRow :=
  mkUpdate (u_id r) (u_status r) (u_channel r) (u_gitSha r) (u_builtAt r) (u_failureReason r) (u_outcome r) c (u_updatedAt r).

Definition has_id (id : jsstr) (r : DeviceUpdateRow) : bool := bool_decide (u_id r = id).
Definition in_status (ss : list Status) (r : DeviceUpdateRow) : bool := bool_decide (u_status r ∈ ss).
Definition unclaimed (r : DeviceUpdateRow) : bool := bool_decide (u_claim r = None).

Definition stmt_advance (id : jsstr) (from to : Status) (reason : option jsstr) (o : option Outcome) :=
  update_rows (fun r => has_id id r && in_status [from] r) (set_verdict to reason o).
Definition stmt_supersede_pending := update_rows (in_status [pending]) (set_status superseded).
Definition stmt_supersede_parked :=
  update_rows (fun r => in_status [verifying] r && unclaimed r) (set_status superseded).
Definition stmt_claim (id claimId : jsstr) :=
  update_rows (fun r => has_id id r && in_status [pending; verifying] r && unclaimed r) (set_claim (Some claimId)).
Definition stmt_release (id claimId : jsstr) :=
  update_rows (fun r => has_id id r && bool_decide (u_claim r = Some claimId)) (set_claim None).
Definition stmt_clear_claims := update_rows (fun r => negb (unclaimed r)) (set_claim None).
Definition stmt_outcome (id : jsstr) (o : Outcome) :=
  update_rows (fun r => has_id id r && in_status [committed] r) (set_outcome o).

(** [findFirst ... ORDER BY createdAt DESC] *)
Definition newest (p : DeviceUpdateRow -> bool) (t : Updates) : option DeviceUpdateRow := last (List.filter p t).
Definition find_id (id : jsstr) (t : Updates) : option DeviceUpdateRow := List.find (has_id id) t.

(** [findFirst({ where: committed, orderBy: updatedAt desc })] *)
Definition installedRelease (t : Updates) : option DeviceUpdateRow :=
  foldr (fun r acc => match acc with
                      | Some b => if u_updatedAt b <? u_updatedAt r then Some r else acc
                      | None => Some r end) None (List.filter (in_status [committed]) t).

(** ** Interleaved statements *)

(** A guarded advance between its read and its write. *)
Record Advance := mkAdvance { v_id : jsstr; v_from : Status; v_to : Status; v_reason : option jsstr; v_outcome : option Outcome }.

Inductive statement :=
| SRead (w : nat) (id : jsstr) (to : Status) (reason : option jsstr) (o : option Outcome)
| SWrite (w : nat)
| SSupersedePending
| SSupersedeParked
| SClaim (id claimId : jsstr)
| SRelease (id claimId : jsstr)
| SClearClaims
| SOutcome (id : jsstr) (o : Outcome)
| SCreate (id channel gitSha : jsstr) (builtAt : Z).

Record world := mkWorld { w_tbl : Updates; w_clock : Z; w_writers : gmap nat Advance }.

Definition apply_stmt (f : Z -> Updates -> Updates * nat) (s : world) : world :=
  mkWorld (f (w_clock s) (w_tbl s)).1 (w_clock s + 1) (w_writers s).

(** A new row: [create({ status: "pending", ... })]. *)
Definition new_row (id channel gitSha : jsstr) (builtAt now : Z) : DeviceUpdateRow :=
  mkUpdate id pending channel gitSha builtAt None not_applied None now.

Definition exec (s : world) (st : statement) : world :=
  match st with
  | SRead w id to reason o =>
      match find_id id (w_tbl s) with
      | None => s
      | Some r => match assertTransitionAllowed id (u_status r) to with
                  | Throw _ => s
                  | Ok _ => mkWorld (w_tbl s) (w_clock s)
                              (<[w := mkAdvance id (u_status r) to reason o]> (w_writers s))
                  end
      end
  | SWrite w =>
      match w_writers s !! w with
      | None => s
      | Some a =>
          let s' := apply_stmt (stmt_advance (v_id a) (v_from a) (v_to a) (v_reason a) (v_outcome a)) s in
          mkWorld (w_tbl s') (w_clock s') (delete w (w_writers s'))
      end
  | SSupersedePending => apply_stmt stmt_supersede_pending s
  | SSupersedeParked => apply_stmt stmt_supersede_parked s
  | SClaim id c => apply_stmt (stmt_claim id c) s
  | SRelease id c => apply_stmt (stmt_release id c) s
  | SClearClaims => apply_stmt stmt_clear_claims s
  | SOutcome id o => apply_stmt (stmt_outcome id o) s
  | SCreate id ch sha b =>
      if existsb (has_id id) (w_tbl s) then s
      else mkWorld (w_tbl s ++ [new_row id ch sha b (w_clock s)]) (w_clock s + 1) (w_writers s)
  end.

Definition exec_all (s : world) (l : list statement) : world := foldl exec s l.

(** ** Handlers *)

(** The box: the table, and a clock that every write advances. *)
Record box := mkBox { b_tbl : Updates; b_clock : Z }.

Abbreviation H A := (handler box UpdateError A).

Definition stmt (f : Z -> Updates -> Updates * nat) : H nat :=
  fun b => let '(t, n) := f (b_clock b) (b_tbl b) in (mkBox t (b_clock b + 1), Ok n).

(** A call out of the process that may throw. *)
Definition call (ok : bool) : H unit := if ok then hret tt else hthrow CallFailed.

Definition lift {A} (r : result UpdateError A) : H A :=
  match r with Ok a => hret a | Throw e => hthrow e end.

Definition transitionDeviceUpdate (id : jsstr) (to : Status) (reason : option jsstr) (o : option Outcome) : H unit :=
  do! b <- hget;
  match find_id id (b_tbl b) with
  | None => hthrow (NoSuchRow id)
  | Some row =>
      run! lift (assertTransitionAllowed id (u_status row) to);
      do! n <- stmt (stmt_advance id (u_status row) to reason o);
      if Nat.eqb n 1 then hret tt else hthrow (ConcurrentChange id)
  end.

Definition setStatus (id : jsstr) (to : Status) (reason : option jsstr) (o : option Outcome) : H unit :=
  transitionDeviceUpdate id to reason o.

Definition recordCommittedOutcome (id : jsstr) (o : Outcome) : H bool :=
  do! n <- stmt (stmt_outcome id o); hret (Nat.eqb n 1).

Definition supersedePendingUpdates : H nat := stmt stmt_supersede_pending.
Definition supersedeUnclaimedVerifyingUpdates : H nat := stmt stmt_supersede_parked.

Definition claimDeviceUpdateForApply (id claimId : jsstr) : H bool :=
  do! n <- stmt (stmt_claim id claimId); hret (Nat.eqb n 1).
Definition releaseDeviceUpdateClaim (id claimId : jsstr) : H unit :=
  do! n <- stmt (stmt_release id claimId); hret tt.

(** *** The poller, from a verified manifest on *)

Record Manifest := mkManifest { m_channel : jsstr; m_gitSha : jsstr; m_builtAt : Z }.

Inductive CheckResult := channel_mismatch | already_known | not_newer | pending_created (id : jsstr) (n : nat).

(** The transaction of step 6: both sweeps and the insert; [newId] is the id
    the database draws for the new row. *)
Definition createPending (m : Manifest) (newId : jsstr) : H CheckResult := htransaction (
  do! n <- supersedePendingUpdates;
  do! k <- supersedeUnclaimedVerifyingUpdates;
  do! b <- hget;
  if existsb (has_id newId) (b_tbl b) then hthrow CallFailed
  else fun b => (mkBox (b_tbl b ++ [new_row newId (m_channel m) (m_gitSha m) (m_builtAt m) (b_clock b)])
                   (b_clock b + 1),
                 Ok (pending_created newId (n + k)%nat))).

(** Steps 4 to 6 of [runCheck]. *)
Definition runCheck (m : Manifest) (channel newId : jsstr) : H CheckResult :=
  if negb (bool_decide (m_channel m = channel)) then hret channel_mismatch
  else
    do! b <- hget;
    if existsb (fun r => bool_decide (u_gitSha r = m_gitSha m)) (b_tbl b) then hret already_known
    else
      match installedRelease (b_tbl b) with
      | Some i => if m_builtAt m <=? u_builtAt i then hret not_newer else createPending m newId
      | None => createPending m newId
      end.

(** *** Applying *)

Inductive ConfigsAnswer := ConfigsOk | ConfigsMismatch | ConfigsTransient.
Inductive PullAnswer := PullOk | PullSignatureRefused | PullAuthRefused | PullThrew.
Inductive ReconcileAnswer := ReconcileOk | ReconcileUnsupported | ReconcileFailed.

(** The answers of the outside to one apply run, in the order they are asked. *)
Record ApplyEnv := mkApplyEnv {
  e_channel : jsstr;            (* update-agent settings *)
  e_setupReady : bool;          (* appliance setup state *)
  e_manifest : option jsstr;    (* re-validation: the failure reason, if any *)
  e_configs : ConfigsAnswer;
  e_snapshot : bool;            (* image refs and snapshot *)
  e_pull : PullAnswer;
  e_stage : bool;
  e_reconcile : ReconcileAnswer;  (* [ReconcileFailed] also without an orchestrator image *)
  e_restore : bool;
  e_migrate : bool;
  e_recreate : bool;
  e_healthy : bool;             (* the sidecars' health gate *)
  e_rollback : bool;            (* restoreConfigs and recreate of the previous digests *)
  e_rollbackHealthy : bool;
  e_selfSwap : bool;
  e_release : bool              (* the claim's release reaches the database *)
}.

Inductive ApplyResult :=
| nothing_pending
| apply_claimed_elsewhere (id : jsstr)
| stale_superseded (id : jsstr) (reason : jsstr)
| deferred_setup_in_progress (id : jsstr)
| r_rejected (id : jsstr) (reason : jsstr)
| retry_later (id : jsstr)
| r_rolled_back (id : jsstr)
| r_failed (id : jsstr)
| self_swap_started (id : jsstr).

Definition stale_reason (env : ApplyEnv) (row : DeviceUpdateRow) (t : Updates) : option jsstr :=
  if negb (bool_decide (u_channel row = e_channel env)) then Some (js "channel_mismatch")
  else match installedRelease t with
       | Some i => if u_builtAt row <=? u_builtAt i then Some (js "not_newer") else None
       | None => None
       end.

(** Steps 5 to 9: recreate, gate, roll back, or swap the orchestrator. *)
Definition applySwap (env : ApplyEnv) (id : jsstr) : H ApplyResult :=
  run! setStatus id applying None None;
  run! call (e_recreate env);
  if negb (e_healthy env) then
    run! call (e_rollback env);
    if negb (e_rollbackHealthy env) then
      run! setStatus id failed (Some (js "degraded_health")) (Some rollback_failed);
      hret (r_failed id)
    else
      run! setStatus id rolled_back (Some (js "health_gate_failed")) (Some o_rolled_back);
      hret (r_rolled_back id)
  else
    run! call (e_selfSwap env);
    hret (self_swap_started id).

(** Steps 1 to 4, once the row is [verifying]. *)
Definition applyVerified (env : ApplyEnv) (id : jsstr) : H ApplyResult :=
  match e_manifest env with
  | Some reason => run! setStatus id rejected (Some reason) None; hret (r_rejected id reason)
  | None =>
  match e_configs env with
  | ConfigsMismatch => run! setStatus id rejected (Some (js "configs_mismatch")) None;
                       hret (r_rejected id (js "configs_mismatch"))
  | ConfigsTransient => hret (retry_later id)
  | ConfigsOk =>
      run! call (e_snapshot env);
      match e_pull env with
      | PullSignatureRefused => run! setStatus id rejected (Some (js "image_signature_failed")) None;
                                hret (r_rejected id (js "image_signature_failed"))
      | PullAuthRefused => hret (retry_later id)
      | PullThrew => hthrow CallFailed
      | PullOk =>
          run! call (e_stage env);
          match e_reconcile env with
          | ReconcileFailed =>
              run! call (e_restore env);
              run! setStatus id rejected (Some (js "env_reconcile_failed")) None;
              hret (r_rejected id (js "env_reconcile_failed"))
          | ReconcileOk | ReconcileUnsupported =>
              run! call (e_migrate env);
              applySwap env id
          end
      end
  end
  end.

Definition applyClaimedRow (env : ApplyEnv) (row : DeviceUpdateRow) : H ApplyResult :=
  do! b <- hget;
  match stale_reason env row (b_tbl b) with
  | Some reason => run! setStatus (u_id row) superseded (Some reason) None; hret (stale_superseded (u_id row) reason)
  | None =>
      if negb (e_setupReady env) then hret (deferred_setup_in_progress (u_id row))
      else
        run! (if bool_decide (u_status row = verifying) then hret tt
             else setStatus (u_id row) verifying None None);
        applyVerified env (u_id row)
  end.

Definition release_after (env : ApplyEnv) (id claimId : jsstr) (b : box) : box :=
  if e_release env then (releaseDeviceUpdateClaim id claimId b).1 else b.

(** [claimed] is the claim a caller already took; [claimId] a fresh one. *)
Definition applyPendingUpdate (env : ApplyEnv) (claimed : option (jsstr * jsstr)) (claimId : jsstr) : H ApplyResult :=
  do! b <- hget;
  match claimed with
  | Some (cid, c) =>
      match List.find (fun r => has_id cid r && in_status [pending; verifying] r && bool_decide (u_claim r = Some c)) (b_tbl b) with
      | None => run! releaseDeviceUpdateClaim cid c; hret (apply_claimed_elsewhere cid)
      | Some row => hfinally (applyClaimedRow env row) (release_after env (u_id row) c)
      end
  | None =>
      match newest (in_status [pending; verifying]) (b_tbl b) with
      | None => hret nothing_pending
      | Some row =>
          do! got <- claimDeviceUpdateForApply (u_id row) claimId;
          if negb (got : bool) then hret (apply_claimed_elsewhere (u_id row))
          else hfinally (applyClaimedRow env row) (release_after env (u_id row) claimId)
      end
  end.

(** *** Resuming at boot *)

Record ResumeEnv := mkResumeEnv {
  n_manifest : option jsstr;
  n_refs : bool;
  n_runningTarget : bool;   (* the running image's digest is the row's *)
  n_listening : bool;
  n_healthy : bool;
  n_restore : bool;
  n_recreate : bool;
  n_selfSwap : bool
}.

Inductive ResumeResult :=
| s_committed (id : jsstr) | s_failed (id : jsstr) | s_rolled_back (id : jsstr)
| self_rollback_started (id : jsstr) | resumed_apply (id : jsstr) (r : ApplyResult) | nothing_to_resume.

Definition resumeApplying (env : ResumeEnv) (row : DeviceUpdateRow) : H ResumeResult :=
  let id := u_id row in
  match n_manifest env with
  | Some reason => run! setStatus id failed (Some reason) None; hret (s_failed id)
  | None =>
      run! call (n_refs env);
      let healthy := n_listening env && n_healthy env in
      if n_runningTarget env then
        if healthy then
          run! setStatus id committed None (Some starting_services); hret (s_committed id)
        else
          run! call (n_restore env);
          run! call (n_recreate env);
          run! call (n_selfSwap env);
          hret (self_rollback_started id)
      else if negb healthy then
        run! setStatus id failed (Some (js "degraded_health")) (Some rollback_failed); hret (s_failed id)
      else
        run! setStatus id rolled_back (Some (js "health_gate_failed")) (Some o_rolled_back); hret (s_rolled_back id)
  end.

Definition resumeInterruptedApply (env : ResumeEnv) (aenv : ApplyEnv) (claimId : jsstr) : H ResumeResult :=
  do! n <- stmt stmt_clear_claims;
  do! b <- hget;
  match newest (in_status [applying]) (b_tbl b) with
  | Some row => resumeApplying env row
  | None =>
      match newest (in_status [verifying]) (b_tbl b) with
      | Some row => do! r <- applyPendingUpdate aenv None claimId; hret (resumed_apply (u_id row) r)
      | None => hret nothing_to_resume
      end
  end.

Inductive WindowResult := w_nothing_pending | deferred_auto_apply_off (id : jsstr) | w_applied (r : ApplyResult).

Definition applyWindowTick (env : ApplyEnv) (autoApply : bool) (claimId : jsstr) : H WindowResult :=
  do! b <- hget;
  match newest (in_status [pending; verifying]) (b_tbl b) with
  | None => hret w_nothing_pending
  | Some row => if negb autoApply then hret (deferred_auto_apply_off (u_id row))
                else do! r <- applyPendingUpdate env None claimId; hret (w_applied r)
  end.

(** ** Every writer advances *)

(** What any statement may do to a row: its identity stays, its status stays
    or takes one allowed step. *)
Definition same_release (r r' : DeviceUpdateRow) : Prop :=
  u_id r' = u_id r /\ u_channel r' = u_channel r /\ u_gitSha r' = u_gitSha r /\ u_builtAt r' = u_builtAt r.

Definition allowed (s s' : Status) : Prop := s' ∈ DEVICE_UPDATE_ALLOWED_TRANSITIONS s.

Definition ok_change (r r' : DeviceUpdateRow) : Prop :=
  same_release r r' /\ (u_status r' = u_status r \/ allowed (u_status r) (u_status r')).

Definition writers_ok (s : world) : Prop :=
  forall w a, w_writers s !! w = Some a -> allowed (v_from a) (v_to a).

Lemma ok_change_refl r : ok_change r r.
Proof. unfold ok_change, same_release. auto. Qed.

(** A statement that maps rows, described by what it does to matching rows. *)
Lemma update_rows_map p f now t : (forall r, p r = true -> ok_change r (f r)) ->
  exists g, (update_rows p f now t).1 = map g t /\ forall r, ok_change r (g r).
Proof.
  intros Hf. eexists. split; [reflexivity|]. intros r. simpl. destruct (p r) eqn:E; [|apply ok_change_refl].
  destruct (Hf r E) as [(? & ? & ? & ?) ?]. split; [|done]. unfold same_release. simpl. auto.
Qed.

Lemma in_status_spec ss r : in_status ss r = true <-> u_status r ∈ ss.
Proof. apply bool_decide_eq_true. Qed.

Lemma apply_stmt_map f s : writers_ok s ->
  (exists g, (f (w_clock s) (w_tbl s)).1 = map g (w_tbl s) /\ forall r, ok_change r (g r)) ->
  exists g, w_tbl (apply_stmt f s) = map g (w_tbl s) /\ (forall r, ok_change r (g r)) /\ writers_ok (apply_stmt f s).
Proof. intros Hw (g & Hg & Hok). exists g. done. Qed.

Lemma exec_map s st : writers_ok s -> exists g new,
  w_tbl (exec s st) = map g (w_tbl s) ++ new /\ (forall r, ok_change r (g r)) /\ writers_ok (exec s st).
Proof.
  intros Hw. assert (Hsame : forall s', w_tbl s' = w_tbl s -> writers_ok s' -> exists g new,
    w_tbl s' = map g (w_tbl s) ++ new /\ (forall r, ok_change r (g r)) /\ writers_ok s').
  { intros s' E Hw'. exists id, []. rewrite app_nil_r, map_id. split_and!; auto using ok_change_refl. }
  assert (Hmap : forall p f, (forall r, p r = true -> ok_change r (f r)) -> exists g new,
    w_tbl (apply_stmt (update_rows p f) s) = map g (w_tbl s) ++ new /\ (forall r, ok_change r (g r)) /\
    writers_ok (apply_stmt (update_rows p f) s)).
  { intros p f Hf. destruct (apply_stmt_map _ s Hw (update_rows_map p f (w_clock s) (w_tbl s) Hf)) as (g & Hg & H1 & H2).
    exists g, []. by rewrite app_nil_r. }
  assert (Hid : forall (h : DeviceUpdateRow -> DeviceUpdateRow) r, same_release r (h r) -> u_status (h r) = u_status r -> ok_change r (h r))
    by (intros; split; auto).
  destruct st as [w id to reason o|w| | |id c|id c| |id o|id ch sha b]; cbn [exec].
  - destruct (find_id id (w_tbl s)) as [r|]; [|by apply Hsame].
    unfold assertTransitionAllowed. case_bool_decide; [|by apply Hsame]. apply Hsame; [done|].
    intros w' a. simpl. destruct (decide (w = w')) as [->|]; [rewrite lookup_insert_eq|rewrite lookup_insert_ne by done].
    + by intros [= <-].
    + apply Hw.
  - destruct (w_writers s !! w) as [a|] eqn:Ea; [|by apply Hsame].
    destruct (Hmap (fun r => has_id (v_id a) r && in_status [v_from a] r) (set_verdict (v_to a) (v_reason a) (v_outcome a)))
      as (g & new & Hg & Hok & Hw').
    { intros r [_ Hs]%andb_true_iff. apply in_status_spec in Hs. apply list_elem_of_singleton in Hs.
      split; [done|]. right. rewrite Hs. simpl. by apply (Hw w a). }
    exists g, new. split_and!; [exact Hg|done|]. intros w' a' Hl. cbn [w_writers apply_stmt] in Hl.
    apply lookup_delete_Some in Hl as [_ Hl]. by apply (Hw w').
  - apply Hmap. intros r Hs%in_status_spec%list_elem_of_singleton. split; [done|]. right. rewrite Hs. by left.
  - apply Hmap. intros r [Hs%in_status_spec%list_elem_of_singleton _]%andb_true_iff. split; [done|]. right. rewrite Hs.
    by right; right; left.
  - apply Hmap. intros r _. by apply Hid.
  - apply Hmap. intros r _. by apply Hid.
  - apply Hmap. intros r _. by apply Hid.
  - apply Hmap. intros r _. by apply Hid.
  - case_match; [by apply Hsame|]. exists (fun r => r), [new_row id ch sha b (w_clock s)].
    simpl. rewrite map_id. split_and!; [done|apply ok_change_refl|done].
Qed.

(** C26: the update table is advance-only under any interleaving.  However the
    single statements of any number of writers interleave (guarded advances
    split between read and write, both sweeps, claims, releases, outcomes and
    inserts), every row stays in its place with its release unchanged, its
    status only ever moves along the allowed transitions, and a final status
    never changes again. *)
Theorem updates_advance_only s l i r : writers_ok s -> w_tbl s !! i = Some r ->
  exists r', w_tbl (exec_all s l) !! i = Some r' /\ same_release r r' /\
    rtc allowed (u_status r) (u_status r') /\
    (DEVICE_UPDATE_ALLOWED_TRANSITIONS (u_status r) = [] -> u_status r' = u_status r).
Proof.
  intros Hw Hr.
  assert (H : exists r', w_tbl (exec_all s l) !! i = Some r' /\ same_release r r' /\ rtc allowed (u_status r) (u_status r')).
  { clear -Hw Hr. revert s r Hw Hr. induction l as [|st l IH]; intros s r Hw Hr.
    - exists r. split_and!; [done|by unfold same_release|apply rtc_refl].
    - destruct (exec_map s st Hw) as (g & new & Hg & Hok & Hw').
      assert (Hr' : w_tbl (exec s st) !! i = Some (g r)).
      { rewrite Hg. apply lookup_app_l_Some. by rewrite list_lookup_fmap, Hr. }
      destruct (IH (exec s st) (g r) Hw' Hr') as (r' & Hl & Hs & Hp). exists r'. split; [done|].
      destruct (Hok r) as [(E1 & E2 & E3 & E4) Hst]. destruct Hs as (F1 & F2 & F3 & F4).
      split; [unfold same_release; split_and!; congruence|].
      destruct Hst as [E|Ha]; [by rewrite <- E|]. by eapply rtc_l. }
  destruct H as (r' & Hl & Hs & Hp). exists r'. split_and!; try done. intros Hnil.
  inversion Hp as [|? y ? Hstep]; subst; [done|]. unfold allowed in Hstep. rewrite Hnil in Hstep. by apply elem_of_nil in Hstep.
Qed.

(** ** Claims *)

(** The statements that may touch a claimed row: its runner's own guarded
    write and release, and the boot's clearing of claims. *)
Definition of_its_runner (id claimId : jsstr) (s : world) (st : statement) : Prop :=
  match st with
  | SWrite w => exists a, w_writers s !! w = Some a /\ v_id a = id
  | SRelease id' c' => id' = id /\ c' = claimId
  | SClearClaims => True
  | _ => False
  end.

(** No statement of the list, at the moment it runs, is the runner's. *)
Fixpoint only_others (id claimId : jsstr) (s : world) (l : list statement) : Prop :=
  match l with
  | [] => True
  | st :: l' => ~ of_its_runner id claimId s st /\ only_others id claimId (exec s st) l'
  end.

Lemma update_rows_lookup p f now t i r : t !! i = Some r -> p r = false -> (update_rows p f now t).1 !! i = Some r.
Proof. intros Hr Hp. simpl. rewrite list_lookup_fmap, Hr. simpl. by rewrite Hp. Qed.

Lemma find_id_spec id t r : find_id id t = Some r -> r ∈ t /\ u_id r = id.
Proof.
  intros [Hin Hid]%List.find_some. split; [by apply list_elem_of_In|]. by apply bool_decide_eq_true in Hid.
Qed.

Lemma exec_claimed s st i r c : w_tbl s !! i = Some r -> u_status r = verifying -> u_claim r = Some c ->
  ~ of_its_runner (u_id r) c s st -> w_tbl (exec s st) !! i = Some r.
Proof.
  intros Hr Hs Hc Hn.
  assert (Hst : forall ss, verifying ∉ ss -> in_status ss r = false)
    by (intros ss Hx; apply bool_decide_eq_false; by rewrite Hs).
  assert (Hun : unclaimed r = false) by (apply bool_decide_eq_false; by rewrite Hc).
  destruct st as [w id to reason o|w| | |id c'|id c'| |id o|id ch sha b]; cbn [exec] in *.
  - repeat case_match; done.
  - destruct (w_writers s !! w) as [a|] eqn:Ea; [|done]. apply update_rows_lookup; [done|].
    apply andb_false_iff. left. apply bool_decide_eq_false. intros E. apply Hn. simpl. exists a. auto.
  - apply update_rows_lookup; [done|]. apply Hst. by intros ?%list_elem_of_singleton.
  - apply update_rows_lookup; [done|]. by rewrite Hun, andb_false_r.
  - apply update_rows_lookup; [done|]. by rewrite Hun, andb_false_r.
  - apply update_rows_lookup; [done|]. apply andb_false_iff.
    destruct (decide (u_id r = id)) as [E|E]; [right|left; by apply bool_decide_eq_false].
    apply bool_decide_eq_false. rewrite Hc. intros [= E']. apply Hn. simpl. auto.
  - destruct Hn. done.
  - apply update_rows_lookup; [done|]. rewrite (Hst [committed]); [by rewrite andb_false_r|by intros ?%list_elem_of_singleton].
  - case_match; [done|]. simpl. by apply lookup_app_l_Some.
Qed.

(** A claimed update belongs to its runner.  While a row is being applied
    ([verifying], claimed by a run), no interleaving of other writers'
    statements changes anything about it: not the poller's sweeps when a newer
    release arrives, not another run's claim or release, not an outcome write.
    A further claim on it is refused. *)
Theorem claimed_row_is_exclusive s l i r c : w_tbl s !! i = Some r -> u_status r = verifying -> u_claim r = Some c ->
  NoDup (map u_id (w_tbl s)) -> only_others (u_id r) c s l ->
  w_tbl (exec_all s l) !! i = Some r /\
  forall c' now, (stmt_claim (u_id r) c' now (w_tbl s)).2 = 0%nat.
Proof.
  intros Hr Hs Hc Hnd Hl. split.
  - clear Hnd. revert s Hr Hl. induction l as [|st l IH]; intros s Hr Hl; [done|]. destruct Hl as [Hn Hl].
    apply (IH (exec s st)); [by eapply exec_claimed|done].
  - intros c' now. simpl. apply length_zero_iff_nil.
    destruct (List.filter _ (w_tbl s)) as [|x l'] eqn:E; [done|]. exfalso.
    assert (Hx : In x (x :: l')) by (by left). rewrite <- E in Hx. apply filter_In in Hx as [Hin Hp].
    apply andb_true_iff in Hp as [[Hid _]%andb_true_iff Hun]. apply bool_decide_eq_true in Hid, Hun.
    apply list_elem_of_In, list_elem_of_lookup in Hin as [j Hj].
    assert (i = j) as <-; [|rewrite Hr in Hj; injection Hj as <-; congruence].
    apply (NoDup_lookup (map u_id (w_tbl s)) i j (u_id r)); [done|by rewrite list_lookup_fmap, Hr|].
    rewrite list_lookup_fmap, Hj. simpl. by rewrite Hid.
Qed.

(** ** The installed release *)

Definition is_committed (r : DeviceUpdateRow) : Prop := u_status r = committed.

(** Commits are in order: a later commit is a later build; every stamp is
    past; and a row that is being applied is newer than everything committed. *)
Record BoxInv (b : box) : Prop := {
  bi_order : forall r r', r ∈ b_tbl b -> r' ∈ b_tbl b -> is_committed r -> is_committed r' ->
               u_updatedAt r <= u_updatedAt r' -> u_id r = u_id r' \/ u_builtAt r < u_builtAt r';
  bi_past : forall r, r ∈ b_tbl b -> u_updatedAt r < b_clock b;
  bi_ids : NoDup (map u_id (b_tbl b));
  bi_free : forall r, r ∈ b_tbl b -> is_committed r -> u_claim r = None;
  bi_applying : forall r, r ∈ b_tbl b -> u_status r = applying ->
                  forall c, c ∈ b_tbl b -> is_committed c -> u_builtAt c < u_builtAt r
}.

(** [t] is newer than everything committed. *)
Definition above_floor (x : Z) (b : box) : Prop := forall c, c ∈ b_tbl b -> is_committed c -> u_builtAt c < x.

Lemma installed_spec t r : installedRelease t = Some r ->
  r ∈ t /\ is_committed r /\ forall c, c ∈ t -> is_committed c -> u_updatedAt c <= u_updatedAt r.
Proof.
  unfold installedRelease.
  assert (Hf : forall c, c ∈ List.filter (in_status [committed]) t <-> c ∈ t /\ is_committed c).
  { intros c. rewrite !list_elem_of_In, filter_In, in_status_spec. by rewrite list_elem_of_singleton. }
  assert (Hgoal : forall l, foldr (fun r acc => match acc with
     | Some b => if u_updatedAt b <? u_updatedAt r then Some r else acc | None => Some r end) None l = Some r ->
     r ∈ l /\ forall c, c ∈ l -> u_updatedAt c <= u_updatedAt r).
  { clear. intros l. revert r. induction l as [|x l IH]; intros r; simpl; [done|].
    destruct (foldr _ None l) as [b|] eqn:E.
    - destruct (IH b eq_refl) as [Hb Hmax]. case_match; b2p; intros [= <-].
      + split; [by left|]. intros c [->|Hc]%elem_of_cons; [lia|]. specialize (Hmax c Hc). lia.
      + split; [by right|]. intros c [->|Hc]%elem_of_cons; [lia|auto].
    - intros [= <-]. split; [by left|]. intros c [->|Hc]%elem_of_cons; [lia|]. exfalso.
      destruct l as [|y l]; [by apply elem_of_nil in Hc|]. simpl in E.
      destruct (foldr _ None l); [case_match; done|done]. }
  intros [Hr Hmax]%Hgoal. apply Hf in Hr as [Hin Hcm]. split_and!; [done..|]. intros c Hc Hcc. apply Hmax, Hf. done.
Qed.

Lemma installed_none t : installedRelease t = None -> forall c, c ∈ t -> ~ is_committed c.
Proof.
  unfold installedRelease. intros H c Hc Hcm.
  assert (Hin : c ∈ List.filter (in_status [committed]) t).
  { apply list_elem_of_In, filter_In. split; [by apply list_elem_of_In|]. apply in_status_spec. rewrite Hcm. left. }
  destruct (List.filter _ t) as [|x l]; [by apply elem_of_nil in Hin|]. simpl in H.
  destruct (foldr _ None l); [case_match; done|done].
Qed.

(** Strictly newer than the installed release is newer than every commit. *)
Lemma floor_check b x : BoxInv b ->
  match installedRelease (b_tbl b) with Some i => u_builtAt i < x | None => True end -> above_floor x b.
Proof.
  intros HI Hx c Hc Hcm. destruct (installedRelease (b_tbl b)) as [i|] eqn:E.
  - apply installed_spec in E as (Hi & Him & Hmax).
    destruct (bi_order b HI c i Hc Hi Hcm Him (Hmax c Hc Hcm)) as [Eid|]; [|lia].
    assert (c = i) as ->; [|lia].
    apply list_elem_of_lookup in Hc as [j Hj], Hi as [k Hk].
    assert (j = k) as <- by (apply (NoDup_lookup (map u_id (b_tbl b)) j k (u_id c)); [apply HI|by rewrite list_lookup_fmap, Hj|];
      rewrite list_lookup_fmap, Hk; simpl; by rewrite Eid). congruence.
  - by destruct (installed_none _ E c Hc).
Qed.

Definition after (b : box) (p : DeviceUpdateRow -> bool) (f : DeviceUpdateRow -> DeviceUpdateRow) : box :=
  mkBox (update_rows p f (b_clock b) (b_tbl b)).1 (b_clock b + 1).

Definition stamped (now : Z) (r : DeviceUpdateRow) : DeviceUpdateRow :=
  mkUpdate (u_id r) (u_status r) (u_channel r) (u_gitSha r) (u_builtAt r) (u_failureReason r) (u_outcome r) (u_claim r) now.

Lemma after_elem b p f r' : r' ∈ b_tbl (after b p f) <->
  exists r, r ∈ b_tbl b /\ r' = if p r then stamped (b_clock b) (f r) else r.
Proof. unfold after. simpl. rewrite list_elem_of_fmap. naive_solver. Qed.

Lemma after_ids b p f : (forall r, p r = true -> u_id (f r) = u_id r) -> map u_id (b_tbl (after b p f)) = map u_id (b_tbl b).
Proof.
  intros Hf. unfold after. simpl. rewrite map_map. apply map_ext. intros r. destruct (p r) eqn:E; [|done]. simpl. by apply Hf.
Qed.

(** A statement that neither touches nor makes a commit, and sends to
    [applying] only rows above the floor. *)
Lemma BoxInv_update b p f : BoxInv b -> (forall r, p r = true -> u_id (f r) = u_id r) ->
  (forall r, r ∈ b_tbl b -> p r = true -> u_status r <> committed /\ u_builtAt (f r) = u_builtAt r /\ u_status (f r) <> committed) ->
  (forall r, r ∈ b_tbl b -> p r = true -> u_status (f r) = applying -> u_status r = applying \/ above_floor (u_builtAt r) b) ->
  BoxInv (after b p f) /\ forall c, c ∈ b_tbl (after b p f) -> is_committed c -> c ∈ b_tbl b.
Proof.
  intros HI Hid H1 H2.
  assert (Hc : forall r', r' ∈ b_tbl (after b p f) -> is_committed r' -> r' ∈ b_tbl b).
  { intros r' (r & Hr & ->)%after_elem Hcm. destruct (p r) eqn:E; [|done]. by destruct (H1 r Hr E) as (_ & _ & []). }
  assert (Hfl : forall x, above_floor x b -> above_floor x (after b p f)).
  { intros x Hx c Hin Hcm. by apply Hx; [apply Hc|]. }
  split; [|exact Hc]. split.
  - intros r r' Hr Hr' Hm Hm'. apply (bi_order b HI); auto.
  - intros r' (r & Hr & ->)%after_elem. pose proof (bi_past b HI r Hr). simpl. case_match; simpl; lia.
  - rewrite after_ids by done. apply HI.
  - intros r Hr Hm. apply (bi_free b HI); auto.
  - intros r' (r & Hr & ->)%after_elem Hap c Hcin Hcm. specialize (Hc c Hcin Hcm). destruct (p r) eqn:E.
    + destruct (H1 r Hr E) as (_ & Hb & _). simpl in Hap. cbn [stamped u_builtAt]. rewrite Hb.
      destruct (H2 r Hr E Hap) as [Ha|Ha]; [|by apply Ha]. by eapply (bi_applying b HI r).
    + by eapply (bi_applying b HI).
Qed.

(** Committing the one row that is being applied keeps the commits in order. *)
Lemma BoxInv_commit b id o row : BoxInv b -> row ∈ b_tbl b -> u_id row = id ->
  u_status row = applying -> u_claim row = None -> (forall r, r ∈ b_tbl b -> u_status r = applying -> r = row) ->
  BoxInv (after b (fun r => has_id id r && in_status [applying] r) (set_verdict committed None o)).
Proof.
  intros HI Hrow Hid Hap Hcl Hone. set (p := fun r => has_id id r && in_status [applying] r).
  set (f := set_verdict committed None o).
  assert (Hp : forall r, r ∈ b_tbl b -> p r = true -> r = row).
  { intros r Hr [E _]%andb_true_iff. apply bool_decide_eq_true in E. rewrite <- Hid in E.
    apply list_elem_of_lookup in Hr as [j Hj], Hrow as [k Hk].
    assert (j = k) as <- by (apply (NoDup_lookup (map u_id (b_tbl b)) j k (u_id r)); [apply HI|by rewrite list_lookup_fmap, Hj|];
      rewrite list_lookup_fmap, Hk; simpl; by rewrite E). congruence. }
  assert (Hcs : forall r', r' ∈ b_tbl (after b p f) -> is_committed r' ->
    (r' ∈ b_tbl b /\ u_updatedAt r' < b_clock b /\ u_builtAt r' < u_builtAt row) \/ r' = stamped (b_clock b) (f row)).
  { intros r' (r & Hr & ->)%after_elem Hcm. destruct (p r) eqn:E.
    - right. by rewrite (Hp r Hr E).
    - left. split_and!; [done|by apply HI|]. by eapply (bi_applying b HI row). }
  split.
  - intros r r' Hr Hr' Hm Hm' Hle.
    destruct (Hcs r Hr Hm) as [(Ho & Ht & Hb)|E], (Hcs r' Hr' Hm') as [(Ho' & Ht' & Hb')|E'].
    + by apply (bi_order b HI).
    + right. rewrite E'. exact Hb.
    + exfalso. rewrite E in Hle. simpl in Hle. lia.
    + left. by rewrite E, E'.
  - intros r' (r & Hr & ->)%after_elem. pose proof (bi_past b HI r Hr). simpl. case_match; simpl; lia.
  - rewrite after_ids by done. apply HI.
  - intros r Hr Hm. destruct (Hcs r Hr Hm) as [(Ho & _)| ->]; [by apply (bi_free b HI)|done].
  - intros r' (r & Hr & ->)%after_elem Ha. destruct (p r) eqn:E; [done|]. exfalso. rewrite (Hone r Hr Ha) in E. unfold p in E.
    rewrite <- not_true_iff_false in E. apply E. apply andb_true_iff. split; [by apply bool_decide_eq_true|]. apply in_status_spec. rewrite Hap. left.
Qed.

(** ** Triples for the handlers *)

Lemma stmt_after b p f : stmt (update_rows p f) b = (after b p f, Ok (length (List.filter p (b_tbl b)))).
Proof. done. Qed.

Definition stays (P : box -> Prop) : Prop := forall b p f, P b -> (forall r, p r = true -> u_id (f r) = u_id r) ->
  (forall r, r ∈ b_tbl b -> p r = true -> u_status r <> committed /\ u_builtAt (f r) = u_builtAt r /\ u_status (f r) <> committed) ->
  (forall r, r ∈ b_tbl b -> p r = true -> u_status (f r) = applying -> u_status r = applying) -> P (after b p f).

Lemma stays_inv : stays BoxInv.
Proof. intros b p f HI Hid H1 H2. eapply BoxInv_update; eauto. Qed.

(** What a guarded advance does: nothing, or its conditional write. *)
Lemma setStatus_run id to reason o b :
  (exists e, setStatus id to reason o b = (b, Throw e)) \/
  exists row, find_id id (b_tbl b) = Some row /\ allowed (u_status row) to /\
    exists res, setStatus id to reason o b =
      (after b (fun r => has_id id r && in_status [u_status row] r) (set_verdict to reason o), res).
Proof.
  unfold setStatus, transitionDeviceUpdate, hbind, hget.
  destruct (find_id id (b_tbl b)) as [row|]; [|left; by eexists]. unfold assertTransitionAllowed.
  case_bool_decide as Hal; [|left; by eexists]. right. exists row. split_and!; [done..|].
  cbn [lift hret]. unfold stmt_advance. rewrite stmt_after. destruct (Nat.eqb _ 1); by eexists.
Qed.

(** A guarded advance to anything but [applying] and [committed]. *)
Lemma setStatus_quiet P id to reason o : stays P -> to <> applying -> to <> committed ->
  triple P (setStatus id to reason o) (fun _ => P) P.
Proof.
  intros HP Ha Hc b Hb. destruct (setStatus_run id to reason o b) as [[e ->]|(row & _ & Hal & res & ->)]; [done|].
  assert (Hb' : P (after b (fun r => has_id id r && in_status [u_status row] r) (set_verdict to reason o))).
  { apply HP; [done|done| |by intros r _ _ E; simpl in E].
    intros r _ [_ Hs%in_status_spec%list_elem_of_singleton]%andb_true_iff. split_and!; [|done|done].
    rewrite Hs. intros E. unfold allowed in Hal. rewrite E in Hal. by apply elem_of_nil in Hal. }
  by destruct res.
Qed.

Lemma call_stays (P : box -> Prop) ok : triple P (call ok) (fun _ => P) P.
Proof. destruct ok; [by apply triple_ret|by apply triple_throw]. Qed.

(** A commit that stays: the row, its build time and its status. *)
Definition has_commit (id : jsstr) (x : Z) (b : box) : Prop :=
  exists c, c ∈ b_tbl b /\ is_committed c /\ u_id c = id /\ u_builtAt c = x.

Lemma has_commit_after id x b p f : has_commit id x b ->
  (forall r, r ∈ b_tbl b -> p r = true -> u_status r <> committed) -> has_commit id x (after b p f).
Proof.
  intros (c & Hc & Hm & Hi & Hb) Hp. exists c. split_and!; try done. apply after_elem. exists c. split; [done|].
  destruct (p c) eqn:E; [|done]. by destruct (Hp c Hc E).
Qed.

Section handlers.
(** The commit that the run must not lose, if one is followed. *)
Variable kept : option (jsstr * Z).
(** The build time that no commit may pass, if one is given. *)
Variable cap : option Z.

Definition Kept (b : box) : Prop := match kept with Some (i, x) => has_commit i x b | None => True end.
Definition Capped (b : box) : Prop := match cap with Some x => forall c, c ∈ b_tbl b -> is_committed c -> u_builtAt c <= x | None => True end.
Definition Good (b : box) : Prop := BoxInv b /\ Kept b /\ Capped b.

(** Good, [x] above the floor, and [x] the build time of row [id]. *)
Definition Cleared (id : jsstr) (x : Z) (b : box) : Prop :=
  Good b /\ above_floor x b /\ forall r, r ∈ b_tbl b -> u_id r = id -> u_builtAt r = x.

Lemma Kept_after b p f : Kept b -> (forall r, r ∈ b_tbl b -> p r = true -> u_status r <> committed) -> Kept (after b p f).
Proof. unfold Kept. destruct kept as [[i x]|]; [|done]. apply has_commit_after. Qed.

Lemma Capped_less b b' : Capped b -> (forall c, c ∈ b_tbl b' -> is_committed c -> c ∈ b_tbl b) -> Capped b'.
Proof. unfold Capped. destruct cap; [|done]. intros H Hc c Hin Hcm. apply H; auto. Qed.

(** A statement that neither touches nor makes a commit. *)
Lemma Good_update b p f : Good b -> (forall r, p r = true -> u_id (f r) = u_id r) ->
  (forall r, r ∈ b_tbl b -> p r = true -> u_status r <> committed /\ u_builtAt (f r) = u_builtAt r /\ u_status (f r) <> committed) ->
  (forall r, r ∈ b_tbl b -> p r = true -> u_status (f r) = applying -> u_status r = applying \/ above_floor (u_builtAt r) b) ->
  Good (after b p f) /\ forall x, above_floor x b -> above_floor x (after b p f).
Proof.
  intros (HI & HK & HC) Hid H1 H2. destruct (BoxInv_update b p f HI Hid H1 H2) as [HI' Hc]. split.
  - split; [done|]. split; [|by eapply Capped_less]. apply Kept_after; [done|]. intros r Hr Hp. by apply H1.
  - intros x Hx c Hin Hcm. by apply Hx; [apply Hc|].
Qed.

Lemma stays_good : stays Good.
Proof. intros b p f HG Hid H1 H2. eapply Good_update; eauto. Qed.

Lemma after_same_built b p f id x : (forall r, p r = true -> u_id (f r) = u_id r) ->
  (forall r, r ∈ b_tbl b -> p r = true -> u_builtAt (f r) = u_builtAt r) ->
  (forall r, r ∈ b_tbl b -> u_id r = id -> u_builtAt r = x) ->
  forall r, r ∈ b_tbl (after b p f) -> u_id r = id -> u_builtAt r = x.
Proof.
  intros Hid Hb Hx r' (r & Hr & ->)%after_elem. destruct (p r) eqn:E; simpl; [|by apply Hx].
  rewrite (Hid r E), (Hb r Hr E). by apply Hx.
Qed.

Lemma stays_cleared id x : stays (Cleared id x).
Proof.
  intros b p f (HG & Hfl & Hx) Hid H1 H2. destruct (Good_update b p f HG Hid H1) as [HG' Hf]; [eauto|]. split_and!; auto.
  eapply after_same_built; eauto. intros r Hr Hp. by apply H1.
Qed.

Lemma Cleared_good id x b : Cleared id x b -> Good b.
Proof. by intros [? _]. Qed.

Lemma setStatus_applying id x : triple (Cleared id x) (setStatus id applying None None) (fun _ => Cleared id x) (Cleared id x).
Proof.
  intros b Hb. destruct (setStatus_run id applying None None b) as [[e ->]|(row & _ & Hal & res & ->)]; [done|].
  assert (Hs : u_status row = verifying)
    by (unfold allowed in Hal; destruct (u_status row); simpl in Hal; set_solver).
  destruct Hb as (HG & Hfl & Hx).
  set (p := fun r => has_id id r && in_status [u_status row] r).
  assert (Hp : forall r, p r = true -> u_id r = id /\ u_status r = verifying).
  { intros r [Hr1 Hr2]%andb_true_iff. apply bool_decide_eq_true in Hr1. apply in_status_spec, list_elem_of_singleton in Hr2.
    split; congruence. }
  destruct (Good_update b p (set_verdict applying None None) HG) as [HG' Hf]; [done|..].
  { intros r Hr Hpr. destruct (Hp r Hpr) as [_ ->]. done. }
  { intros r Hr Hpr _. right. destruct (Hp r Hpr) as [E _]. by rewrite (Hx r Hr E). }
  assert (Hc : Cleared id x (after b p (set_verdict applying None None))) by (split_and!; [done|by apply Hf|by eapply after_same_built]).
  by destruct res.
Qed.

Ltac quiet := eapply triple_conseq; [apply setStatus_quiet; [apply stays_cleared|discriminate|discriminate]|..];
  [intros ? Hpre; exact Hpre|simpl; intros ? ? Hpost; exact Hpost|intros ? Ht; eapply Cleared_good, Ht].
Ltac seq := eapply triple_bind; [|intros ?].
Ltac fin := apply triple_ret; intros ? Hfin; first [exact Hfin | eapply Cleared_good, Hfin].
Ltac callc := eapply triple_conseq; [apply call_stays|intros ? Hpre; exact Hpre|simpl; intros ? ? Hpost; exact Hpost
  |intros ? Ht; eapply Cleared_good, Ht].

Lemma applySwap_good env id x : triple (Cleared id x) (applySwap env id) (fun _ => Good) Good.
Proof.
  unfold applySwap. seq.
  { eapply triple_conseq; [apply setStatus_applying|intros ? Hp; exact Hp|simpl; intros ? ? Hq; exact Hq
    |intros ? Ht; eapply Cleared_good, Ht]. }
  seq; [callc|]. destruct (e_healthy env); cbn [negb].
  - seq; [callc|fin].
  - seq; [callc|]. destruct (e_rollbackHealthy env); cbn [negb]; (seq; [quiet|fin]).
Qed.

Lemma applyVerified_good env id x : triple (Cleared id x) (applyVerified env id) (fun _ => Good) Good.
Proof.
  unfold applyVerified. destruct (e_manifest env); [seq; [quiet|fin]|].
  destruct (e_configs env); [|seq; [quiet|fin]|fin]. seq; [callc|].
  destruct (e_pull env); [|seq; [quiet|fin]|fin|apply triple_throw; intros ? Ht; eapply Cleared_good, Ht].
  seq; [callc|]. destruct (e_reconcile env).
  1,2: seq; [callc|apply applySwap_good].
  seq; [callc|]. seq; [quiet|fin].
Qed.

(** The row the run works on: its build time is its id's. *)
Definition RowKnown (row : DeviceUpdateRow) (b : box) : Prop :=
  Good b /\ forall r, r ∈ b_tbl b -> u_id r = u_id row -> u_builtAt r = u_builtAt row.

Lemma stale_reason_none env row b : Good b -> stale_reason env row (b_tbl b) = None -> above_floor (u_builtAt row) b.
Proof.
  intros [HI _] Hs. apply floor_check; [done|]. unfold stale_reason in Hs. case_match; [done|].
  destruct (installedRelease (b_tbl b)); [|done]. case_match; [done|]. by b2p.
Qed.

Lemma applyClaimedRow_good env row : triple (RowKnown row) (applyClaimedRow env row) (fun _ => Good) Good.
Proof.
  intros b [HG Hrow]. unfold applyClaimedRow, hbind at 1, hget.
  destruct (stale_reason env row (b_tbl b)) as [reason|] eqn:Hs.
  - revert b HG Hrow Hs. intros b HG _ _. revert b HG.
    change (triple Good (run! setStatus (u_id row) superseded (Some reason) None; hret (stale_superseded (u_id row) reason))
      (fun _ => Good) Good).
    seq; [apply setStatus_quiet; [apply stays_good|discriminate|discriminate]|fin].
  - assert (HC : Cleared (u_id row) (u_builtAt row) b) by (split_and!; [done|by eapply stale_reason_none|done]).
    clear HG Hrow Hs. destruct (e_setupReady env); cbn [negb]; [|by destruct HC].
    revert b HC. change (triple (Cleared (u_id row) (u_builtAt row))
      (run! (if bool_decide (u_status row = verifying) then hret tt else setStatus (u_id row) verifying None None);
       applyVerified env (u_id row)) (fun _ => Good) Good).
    seq; [|apply applyVerified_good]. case_bool_decide; [|quiet].
    apply triple_ret. intros ? Hc. exact Hc.
Qed.

Lemma has_ids_row b row : BoxInv b -> row ∈ b_tbl b ->
  forall r, r ∈ b_tbl b -> u_id r = u_id row -> r = row.
Proof.
  intros HI Hrow r Hr E. apply list_elem_of_lookup in Hr as [j Hj], Hrow as [k Hk].
  assert (j = k) as <- by (apply (NoDup_lookup (map u_id (b_tbl b)) j k (u_id r)); [apply HI|by rewrite list_lookup_fmap, Hj|];
    rewrite list_lookup_fmap, Hk; simpl; by rewrite E). congruence.
Qed.

(** Writing a claim touches no commit: only rows that are not committed are
    claimed or claimable. *)
Lemma claim_stmt_good b p c : Good b -> (forall r, r ∈ b_tbl b -> p r = true -> u_status r <> committed) ->
  Good (after b p (set_claim c)).
Proof. intros HG Hp. apply stays_good; [done|done| |done]. intros r Hr Hpr. split_and!; [exact (Hp r Hr Hpr)|done|exact (Hp r Hr Hpr)]. Qed.

Lemma claimed_not_committed b r c : Good b -> r ∈ b_tbl b -> u_claim r = Some c -> u_status r <> committed.
Proof. intros [HI _] Hr Hc E. rewrite (bi_free b HI r Hr E) in Hc. done. Qed.

Lemma release_good id c b : Good b -> Good (releaseDeviceUpdateClaim id c b).1.
Proof.
  intros HG. unfold releaseDeviceUpdateClaim, hbind, stmt_release. rewrite stmt_after. simpl.
  apply (claim_stmt_good b); [done|]. intros r Hr [_ Hc]%andb_true_iff. apply bool_decide_eq_true in Hc.
  by eapply claimed_not_committed.
Qed.

Lemma release_after_good env id c b : Good b -> Good (release_after env id c b).
Proof. unfold release_after. destruct (e_release env); [apply release_good|done]. Qed.

Lemma finally_good {A} (m : H A) P f : triple P m (fun _ => Good) Good -> (forall b, Good b -> Good (f b)) ->
  triple P (hfinally m f) (fun _ => Good) Good.
Proof. intros Hm Hf b Hb. specialize (Hm b Hb). unfold hfinally. destruct (m b) as [b' [a|e]]; auto. Qed.

Lemma applyPendingUpdate_good env claimed claimId : triple Good (applyPendingUpdate env claimed claimId) (fun _ => Good) Good.
Proof.
  intros b HG. unfold applyPendingUpdate, hbind at 1, hget. destruct claimed as [[cid c]|].
  - destruct (List.find _ (b_tbl b)) as [row|] eqn:E.
    + apply List.find_some in E as [Hin _]. apply list_elem_of_In in Hin.
      apply (finally_good (applyClaimedRow env row) (RowKnown row)); [apply applyClaimedRow_good|by apply release_after_good|].
      split; [done|]. intros r Hr Hid. by rewrite (has_ids_row b row (proj1 HG) Hin r Hr Hid).
    + pose proof (release_good cid c b HG) as Hrel. unfold hbind. unfold releaseDeviceUpdateClaim, hbind, stmt_release in *.
      rewrite stmt_after in *. exact Hrel.
  - destruct (newest _ (b_tbl b)) as [row|] eqn:E; [|done].
    apply last_Some_elem_of, list_elem_of_In, filter_In in E as [Hin Hst]. apply list_elem_of_In in Hin.
    unfold hbind, claimDeviceUpdateForApply, hbind, stmt_claim. rewrite stmt_after. cbn [hret].
    set (p := fun r => _ && _ && unclaimed r). set (b' := after b p (set_claim (Some claimId))).
    assert (HG' : Good b').
    { apply claim_stmt_good; [done|]. intros r Hr [[_ Hs]%andb_true_iff _]%andb_true_iff. apply in_status_spec in Hs.
      intros Ec. rewrite Ec in Hs. set_solver. }
    destruct (Nat.eqb _ 1); cbn [negb]; [|exact HG'].
    apply (finally_good (applyClaimedRow env row) (RowKnown row)); [apply applyClaimedRow_good|by apply release_after_good|].
    split; [done|]. apply (after_same_built b p); [done|done|].
    intros r Hr Hid. by rewrite (has_ids_row b row (proj1 HG) Hin r Hr Hid).
Qed.

Lemma sweep_good p : (forall r, p r = true -> u_status r <> committed) -> triple Good (stmt (update_rows p (set_status superseded))) (fun _ => Good) Good.
Proof.
  intros Hp b HG. rewrite stmt_after. apply stays_good; [done|done| |done].
  intros r _ Hpr. split_and!; [by apply Hp|done|done].
Qed.

Lemma create_good m newId b : Good b -> existsb (has_id newId) (b_tbl b) = false ->
  Good (mkBox (b_tbl b ++ [new_row newId (m_channel m) (m_gitSha m) (m_builtAt m) (b_clock b)]) (b_clock b + 1)).
Proof.
  intros ([H1 H2 H3 H4 H5] & HK & HC) Hex.
  set (nr := new_row _ _ _ _ _). assert (Hnc : forall r, r ∈ b_tbl b ++ [nr] -> is_committed r -> r ∈ b_tbl b).
  { intros r [Hr| ->%list_elem_of_singleton]%elem_of_app Hc; [done|discriminate Hc]. }
  split; [split; simpl|split; [|by eapply Capped_less]].
  - intros r r' Hr Hr' Hc Hc'. apply H1; auto.
  - intros r [Hr| ->%list_elem_of_singleton]%elem_of_app; [specialize (H2 r Hr); lia|simpl; lia].
  - rewrite map_app. apply NoDup_app. split_and!; [done| |apply NoDup_singleton].
    intros x Hx ->%list_elem_of_singleton. apply list_elem_of_fmap in Hx as (r & Hid & Hr).
    apply not_true_iff_false in Hex. apply Hex, existsb_exists. exists r. split; [by apply list_elem_of_In|].
    by apply bool_decide_eq_true.
  - intros r Hr Hc. apply H4; auto.
  - intros r [Hr| ->%list_elem_of_singleton]%elem_of_app Hap c Hc Hcm; [|discriminate Hap]. by eapply (H5 r); auto.
  - unfold Kept in *. destruct kept as [[i x]|]; [|done]. destruct HK as (c & Hc & ?). exists c. split; [|done].
    simpl. by apply elem_of_app; left.
Qed.

Lemma runCheck_good m channel newId : triple Good (runCheck m channel newId) (fun _ => Good) Good.
Proof.
  unfold runCheck. destruct (negb _); [fin|]. intros b HG. unfold hbind at 1, hget.
  destruct (existsb _ (b_tbl b)); [done|].
  assert (Hcreate : triple Good (createPending m newId) (fun _ => Good) Good).
  { apply triple_transaction; [|done].
    eapply triple_bind; [eapply triple_conseq; [apply sweep_good|intros ? Hp; exact Hp|simpl; intros ? ? Hq; exact Hq|done]|intros n].
    { intros r Hs%in_status_spec%list_elem_of_singleton. by rewrite Hs. }
    eapply triple_bind; [eapply triple_conseq; [apply sweep_good|intros ? Hp; exact Hp|simpl; intros ? ? Hq; exact Hq|done]|intros k].
    { intros r [Hs _]%andb_true_iff. apply in_status_spec, list_elem_of_singleton in Hs. by rewrite Hs. }
    intros b' HG'. unfold hbind, hget. destruct (existsb _ (b_tbl b')) eqn:E; [done|].
    exact (create_good m newId b' HG' E). }
  destruct (installedRelease (b_tbl b)) as [i|]; [destruct (m_builtAt m <=? u_builtAt i); [done|]|]; by apply (Hcreate b).
Qed.
End handlers.

(** ** Resuming *)

(** What the boot finds: no claims, and no row being applied but [id]'s. *)
Definition Quiesced (kept : option (jsstr * Z)) (id : jsstr) (b : box) : Prop :=
  Good kept None b /\ (forall r, r ∈ b_tbl b -> u_claim r = None) /\ (forall r, r ∈ b_tbl b -> u_status r = applying -> u_id r = id).

(** The release [id] is the latest of the commits. *)
Definition latest_commit (id : jsstr) (b : box) : Prop := exists x, Good (Some (id, x)) (Some x) b.

Lemma commit_good kept id o b b' res : Quiesced kept id b -> setStatus id committed None o b = (b', res) ->
  Good kept None b' /\ (is_ok res = true -> latest_commit id b').
Proof.
  intros ((HI & HK & _) & Hcl & Hone) Hrun. destruct (setStatus_run id committed None o b)
    as [[e E]|(row & Hf & Hal & res' & E)]; rewrite E in Hrun; injection Hrun as <- <-; [by split|].
  apply find_id_spec in Hf as [Hrow Hid].
  assert (Hs : u_status row = applying) by (unfold allowed in Hal; destruct (u_status row); simpl in Hal; set_solver).
  rewrite Hs. set (p := fun r => has_id id r && in_status [applying] r).
  assert (Honly : forall r, r ∈ b_tbl b -> u_status r = applying -> r = row).
  { intros r Hr Ha. apply (has_ids_row b row HI Hrow r Hr). rewrite Hid. by apply Hone. }
  assert (HI' : BoxInv (after b p (set_verdict committed None o))) by (eapply BoxInv_commit; eauto).
  assert (Hp : forall r, r ∈ b_tbl b -> p r = true -> u_status r <> committed).
  { intros r Hr [_ Hst%in_status_spec%list_elem_of_singleton]%andb_true_iff. by rewrite Hst. }
  split; [split; [done|]; split; [by apply Kept_after|done]|]. intros _. exists (u_builtAt row). split; [done|]. split.
  - exists (stamped (b_clock b) (set_verdict committed None o row)). split; [|done]. apply after_elem. exists row. split; [done|].
    assert (Hpr : p row = true); [|by rewrite Hpr]. apply andb_true_iff. split; [by apply bool_decide_eq_true|]. apply in_status_spec. rewrite Hs. left.
  - intros c (r & Hr & ->)%after_elem Hcm. destruct (p r) eqn:Er.
    + apply andb_true_iff in Er as [_ Hst%in_status_spec%list_elem_of_singleton]. rewrite (Honly r Hr Hst). simpl. lia.
    + apply Z.lt_le_incl. by eapply (bi_applying b HI row).
Qed.

(** The verdict the boot answers with. *)
Definition resumed (kept : option (jsstr * Z)) (r : ResumeResult) (b : box) : Prop :=
  Good kept None b /\ match r with s_committed id => latest_commit id b | _ => True end.

Lemma resumeApplying_good kept env row :
  triple (Quiesced kept (u_id row)) (resumeApplying env row) (resumed kept) (Good kept None).
Proof.
  assert (Hq : forall to reason o, to <> applying -> to <> committed ->
    triple (Quiesced kept (u_id row)) (setStatus (u_id row) to reason o) (fun _ => Good kept None) (Good kept None)).
  { intros to reason o H1 H2. eapply triple_conseq; [by apply setStatus_quiet; [apply (stays_good kept None)|..]|..]; [|done|done].
    by intros b [HG _]. }
  assert (Hret : forall (r : ResumeResult), match r with s_committed _ => False | _ => True end ->
    triple (Good kept None) (hret r : H ResumeResult) (resumed kept) (Good kept None)).
  { intros r Hr b Hb. split; [done|]. by destruct r. }
  unfold resumeApplying. destruct (n_manifest env); [eapply triple_bind; [by apply Hq|intros ?; by apply Hret]|].
  eapply triple_bind; [eapply triple_conseq; [apply call_stays|intros ? Hp; exact Hp|simpl; intros ? ? Hx; exact Hx|by intros ? [HG _]]|].
  intros ?. cbv beta zeta. destruct (n_runningTarget env).
  - destruct (n_listening env && n_healthy env).
    + intros b Hb. unfold hbind. destruct (setStatus _ _ _ _ b) as [b' res] eqn:E. destruct (commit_good kept _ _ _ _ _ Hb E) as [HG Hl].
      destruct res; [|done]. split; [done|by apply Hl].
    + eapply triple_bind; [eapply triple_conseq; [apply (call_stays (Good kept None))|by intros ? [HG _]|simpl; intros ? ? Hx; exact Hx|done]|intros ?].
      eapply triple_bind; [apply (call_stays (Good kept None))|intros ?].
      eapply triple_bind; [apply (call_stays (Good kept None))|intros ?; by apply Hret].
  - destruct (n_listening env && n_healthy env); cbn [negb]; (eapply triple_bind; [by apply Hq|intros ?; by apply Hret]).
Qed.

(** No two rows are being applied. *)
Definition one_applying (b : box) : Prop :=
  forall r r', r ∈ b_tbl b -> r' ∈ b_tbl b -> u_status r = applying -> u_status r' = applying -> u_id r = u_id r'.

Lemma resume_good kept env aenv claimId b b' res : Good kept None b -> one_applying b ->
  resumeInterruptedApply env aenv claimId b = (b', res) ->
  Good kept None b' /\ match res with Ok (s_committed id) => latest_commit id b' | _ => True end.
Proof.
  intros HG Hone Hrun. unfold resumeInterruptedApply, hbind at 1, stmt_clear_claims in Hrun. rewrite stmt_after in Hrun.
  set (p := fun r => negb (unclaimed r)) in *. set (b1 := after b p (set_claim None)) in *.
  assert (HG' : Good kept None b1).
  { apply claim_stmt_good; [done|]. intros r Hr Hun. unfold p, unclaimed in Hun.
    destruct (u_claim r) as [c|] eqn:E; [by eapply claimed_not_committed|]. done. }
  assert (Hel : forall r', r' ∈ b_tbl b1 -> u_claim r' = None /\ exists r, r ∈ b_tbl b /\ u_id r' = u_id r /\ u_status r' = u_status r).
  { intros r' (r & Hr & ->)%after_elem. unfold p, unclaimed. case_bool_decide as E; simpl; (split; [done|by exists r]). }
  unfold hbind at 1, hget in Hrun.
  destruct (newest (in_status [applying]) (b_tbl b1)) as [row|] eqn:E.
  - apply last_Some_elem_of, list_elem_of_In, filter_In in E as [Hin%list_elem_of_In Hst%in_status_spec%list_elem_of_singleton].
    assert (HQ : Quiesced kept (u_id row) b1).
    { split; [done|]. split; [by intros r [? _]%Hel|]. intros r Hr Ha. destruct (Hel r Hr) as (_ & r0 & Hr0 & -> & Es).
      destruct (Hel row Hin) as (_ & w0 & Hw0 & -> & Ew). apply Hone; congruence. }
    pose proof (resumeApplying_good kept env row b1 HQ) as Hr. rewrite Hrun in Hr. by destruct res.
  - destruct (newest (in_status [verifying]) (b_tbl b1)) as [row|]; [|by injection Hrun as <- <-].
    pose proof (applyPendingUpdate_good kept None aenv None claimId b1 HG') as Hp. unfold hbind in Hrun.
    destruct (applyPendingUpdate aenv None claimId b1) as [b2 [a|e]]; by injection Hrun as <- <-.
Qed.

Lemma latest_installed id b : latest_commit id b -> exists i, installedRelease (b_tbl b) = Some i /\ u_id i = id.
Proof.
  intros (x & HI & (c & Hc & Hcm & Ei & Ex) & HC). destruct (installedRelease (b_tbl b)) as [i|] eqn:E; [|by destruct (installed_none _ E c Hc)].
  exists i. split; [done|]. apply installed_spec in E as (Hi & Hm & Hmax).
  destruct (bi_order _ HI c i Hc Hi Hcm Hm (Hmax c Hc Hcm)) as [Hid|Hlt]; [congruence|]. specialize (HC i Hi Hm). cbn in HC. lia.
Qed.

Lemma outcome_good kept cap id o b i : Good kept cap b -> installedRelease (b_tbl b) = Some i -> u_id i = id ->
  Good kept cap (recordCommittedOutcome id o b).1.
Proof.
  intros (HI & HK & HC) Hins Hid. unfold recordCommittedOutcome, hbind, stmt_outcome. rewrite stmt_after. simpl.
  apply installed_spec in Hins as (Hi & Him & Hmax). destruct HI as [H1 H2 H3 H4 H5] eqn:EHI.
  set (p := fun r => has_id id r && in_status [committed] r). set (f := set_outcome o).
  assert (Hp : forall r, r ∈ b_tbl b -> p r = true -> r = i).
  { intros r Hr [E _]%andb_true_iff. apply bool_decide_eq_true in E. apply (has_ids_row b i HI Hi r Hr). congruence. }
  assert (Hel : forall r', r' ∈ b_tbl (after b p f) -> exists r, r ∈ b_tbl b /\ u_id r' = u_id r /\ u_builtAt r' = u_builtAt r /\
    u_status r' = u_status r /\ u_claim r' = u_claim r /\
    ((u_updatedAt r' = u_updatedAt r /\ u_updatedAt r < b_clock b) \/ (r = i /\ u_updatedAt r' = b_clock b))).
  { intros r' (r & Hr & ->)%after_elem. exists r. destruct (p r) eqn:E; split_and!; try done; [right|left].
    - by rewrite (Hp r Hr E).
    - split; [done|by apply H2]. }
  split; [split|split].
  - intros r r' (s & Hs & E1 & E2 & E3 & _ & Ht)%Hel (s' & Hs' & E1' & E2' & E3' & _ & Ht')%Hel Hc Hc' Hle.
    unfold is_committed in *. rewrite E3 in Hc. rewrite E3' in Hc'. rewrite E1, E1', E2, E2'.
    destruct Ht as [[Eu Hlt]|[Ei Eu]], Ht' as [[Eu' Hlt']|[Ei' Eu']].
    + apply H1; auto. lia.
    + apply H1; auto. subst s'. by apply Hmax.
    + lia.
    + left. congruence.
  - intros r' (r & Hr & _ & _ & _ & _ & [[-> ?]|[_ ->]])%Hel; simpl; lia.
  - rewrite after_ids by done. done.
  - intros r' (r & Hr & _ & _ & Es & Ec & _)%Hel Hc. rewrite Ec. apply H4; [done|]. unfold is_committed in *. congruence.
  - intros r' (r & Hr & E1 & E2 & E3 & _)%Hel Hap c' (c & Hc & _ & F2 & F3 & _)%Hel Hcm.
    rewrite E2, F2. eapply (H5 r); try done; unfold is_committed in *; congruence.
  - unfold Kept in *. destruct kept as [[j x]|]; [|done]. destruct HK as (c & Hc & Hcm & Ej & Ex).
    exists (if p c then stamped (b_clock b) (f c) else c). split; [apply after_elem; by exists c|]. by destruct (p c).
  - unfold Capped in *. destruct cap as [x|]; [|done]. intros r' (r & Hr & _ & -> & Es & _)%Hel Hcm. apply HC; [done|]. unfold is_committed in *. congruence.
Qed.

(** ** Life of a box *)

Inductive box_event :=
| BPoll (m : Manifest) (channel newId : jsstr)
| BApply (env : ApplyEnv) (claimed : option (jsstr * jsstr)) (claimId : jsstr)
| BWindow (env : ApplyEnv) (autoApply : bool) (claimId : jsstr)
| BResume (env : ResumeEnv) (aenv : ApplyEnv) (claimId : jsstr)
| BOutcome (o : Outcome).

(** The box, and the release that the running process committed when it booted,
    whose services it then starts ([startNewServices]). *)
Record life := mkLife { lf_box : box; lf_committed : option jsstr }.

Definition life_step (l : life) (ev : box_event) : life :=
  let b := lf_box l in
  match ev with
  | BPoll m channel newId => mkLife (runCheck m channel newId b).1 (lf_committed l)
  | BApply env claimed claimId => mkLife (applyPendingUpdate env claimed claimId b).1 (lf_committed l)
  | BWindow env autoApply claimId => mkLife (applyWindowTick env autoApply claimId b).1 (lf_committed l)
  | BResume env aenv claimId =>
      let '(b', r) := resumeInterruptedApply env aenv claimId b in
      mkLife b' (match r with Ok (s_committed id) => Some id | _ => None end)
  | BOutcome o => match lf_committed l with Some id => mkLife (recordCommittedOutcome id o b).1 (Some id) | None => l end
  end.

Definition live (l : life) (evs : list box_event) : life := foldl life_step l evs.

(** At every boot at most one row is being applied. *)
Fixpoint boots_with_one (l : life) (evs : list box_event) : Prop :=
  match evs with
  | [] => True
  | ev :: evs => match ev with BResume _ _ _ => one_applying (lf_box l) | _ => True end /\ boots_with_one (life_step l ev) evs
  end.

Definition LifeInv (kept : option (jsstr * Z)) (l : life) : Prop :=
  Good kept None (lf_box l) /\ forall id, lf_committed l = Some id -> latest_commit id (lf_box l).

(** A handler that keeps every box good. *)
Lemma keeps_life {A} kept l (m : H A) : (forall kept cap, triple (Good kept cap) m (fun _ => Good kept cap) (Good kept cap)) ->
  LifeInv kept l -> LifeInv kept (mkLife (m (lf_box l)).1 (lf_committed l)).
Proof.
  intros Hm [HG Hl]. assert (H1 : forall k c, Good k c (lf_box l) -> Good k c (m (lf_box l)).1).
  { intros k c Hg. specialize (Hm k c (lf_box l) Hg). by destruct (m (lf_box l)) as [? []]. }
  split; cbn; [by apply H1|]. intros id [x Hx]%Hl. exists x. by apply H1.
Qed.

Lemma window_good kept cap env auto c : triple (Good kept cap) (applyWindowTick env auto c) (fun _ => Good kept cap) (Good kept cap).
Proof.
  intros b HG. unfold applyWindowTick, hbind at 1, hget. destruct (newest _ (b_tbl b)); [|done]. destruct auto; cbn [negb]; [|done].
  pose proof (applyPendingUpdate_good kept cap env None c b HG) as H0. unfold hbind. by destruct (applyPendingUpdate env None c b) as [? []].
Qed.

Lemma life_step_inv kept l ev : match ev with BResume _ _ _ => one_applying (lf_box l) | _ => True end -> LifeInv kept l -> LifeInv kept (life_step l ev).
Proof.
  intros Hone HL. destruct ev as [m ch id|env cl c|env auto c|env aenv c|o]; cbn [life_step].
  - apply keeps_life; [|done]. intros k cp. apply runCheck_good.
  - apply keeps_life; [|done]. intros k cp. apply applyPendingUpdate_good.
  - apply keeps_life; [|done]. intros k cp. apply window_good.
  - destruct (resumeInterruptedApply env aenv c (lf_box l)) as [b' r] eqn:E. destruct HL as [HG _].
    destruct (resume_good _ _ _ _ _ _ _ HG Hone E) as [HG' Hr]. split; [done|]. cbn. intros id. destruct r as [[]|]; try done. by intros [= <-].
  - destruct (lf_committed l) as [id|] eqn:El; [|done]. destruct HL as [HG Hl]. specialize (Hl id El).
    destruct (latest_installed _ _ Hl) as (i & Hi & Hid). destruct Hl as [x Hx].
    split; cbn [lf_box lf_committed]; [by eapply outcome_good|]. intros ? [= <-]. exists x. by eapply outcome_good.
Qed.

Lemma live_inv kept evs : forall l, boots_with_one l evs -> LifeInv kept l -> LifeInv kept (live l evs).
Proof. induction evs as [|ev evs IH]; intros l Hb HL; [done|]. destruct Hb as [Hev Hb]. apply IH; [done|]. by apply life_step_inv. Qed.

Lemma boots_app l evs evs' : boots_with_one l (evs ++ evs') <-> boots_with_one l evs /\ boots_with_one (live l evs) evs'.
Proof. revert l. induction evs as [|ev evs IH]; intros l; simpl; [tauto|]. rewrite IH. tauto. Qed.

(** A box fresh from the factory: no updates. *)
Definition factory : life := mkLife (mkBox [] 0) None.

(** C28: a box whose boots find at most one update being applied never goes
    backwards.  Over any history of polls, applies, apply windows, resumes at boot
    and the outcomes written once a committed release's services are started, and
    whatever the registry, the host helper (the digest it reports for the running
    image, its health gates, its failures) and the apply route's caller answer, the
    installed release is only ever replaced by one with a strictly later signed
    build time.  Assumed, besides: each handler runs in one piece (the apply
    window awaits the boot's resume, and the route refuses while a row is
    [applying], so no run passes its floor check before a boot commits) and every
    write is stamped later than the one before.  That no boot finds two rows
    [applying] is not free either: a swap that throws leaves its row so, the apply
    window does not look for it, and a boot that finds it again takes the box back
    where the two releases share an orchestrator image ([two_applying_go_back]). *)
Theorem installed_never_goes_back evs evs' i : boots_with_one factory (evs ++ evs') ->
  installedRelease (b_tbl (lf_box (live factory evs))) = Some i ->
  exists i', installedRelease (b_tbl (lf_box (live factory (evs ++ evs')))) = Some i' /\
    (u_id i' = u_id i /\ u_builtAt i' = u_builtAt i \/ u_builtAt i < u_builtAt i').
Proof.
  intros [Hh Hh']%boots_app Hi. unfold live in *. rewrite foldl_app. set (l := foldl life_step factory evs) in *.
  assert (H0 : LifeInv None factory).
  { split; [|done]. split; [|done]. split; simpl; try (intros; by (match goal with H : _ ∈ [] |- _ => apply elem_of_nil in H end)); constructor. }
  assert (HG : LifeInv (Some (u_id i, u_builtAt i)) l).
  { destruct (live_inv None evs factory Hh H0) as [(HI & _) Hl]. split; [|done]. split; [done|]. split; [|done].
    apply installed_spec in Hi as (Hin & Hc & _). exists i. done. }
  destruct (live_inv _ evs' l Hh' HG) as [(HI & (c & Hc & Hcm & Eid & Eb) & _) _]. unfold live in *.
  destruct (installedRelease (b_tbl (lf_box (foldl life_step l evs')))) as [i'|] eqn:E; [|by destruct (installed_none _ E c Hc)].
  exists i'. split; [done|]. apply installed_spec in E as (Hi' & Hm' & Hmax).
  destruct (bi_order _ HI c i' Hc Hi' Hcm Hm' (Hmax c Hc Hcm)) as [Ei|Hlt]; [left|right; lia].
  rewrite (has_ids_row _ i' HI Hi' c Hc Ei) in *. done.
Qed.

(** ** Witnesses *)

Definition good_env : ApplyEnv :=
  mkApplyEnv (js "stable") true None ConfigsOk true PullOk true ReconcileOk true true true true true true true true.
Definition good_resume : ResumeEnv := mkResumeEnv None true true true true true true true.

(** Release A is applied and committed; release B, newer, follows. *)
Definition first_release : list box_event :=
  [BPoll (mkManifest (js "stable") (js "aaa") 100) (js "stable") (js "A");
   BWindow good_env true (js "run1"); BResume good_resume good_env (js "boot1"); BOutcome o_committed].
Definition second_release : list box_event :=
  [BPoll (mkManifest (js "stable") (js "bbb") 200) (js "stable") (js "B");
   BPoll (mkManifest (js "stable") (js "old") 50) (js "stable") (js "C");
   BApply good_env None (js "run2"); BResume good_resume good_env (js "boot2"); BOutcome services_start_failed].

Lemma one_applying_dec b : forallb (fun r => forallb (fun r' =>
    negb (in_status [applying] r && in_status [applying] r') || bool_decide (u_id r = u_id r')) (b_tbl b)) (b_tbl b) = true -> one_applying b.
Proof.
  intros H r r' Hr%list_elem_of_In Hr'%list_elem_of_In Ha Ha'. rewrite forallb_forall in H. specialize (H r Hr). rewrite forallb_forall in H.
  specialize (H r' Hr'). unfold in_status in H. rewrite Ha, Ha' in H. by apply bool_decide_eq_true in H.
Qed.

Lemma sample_boots : boots_with_one factory (first_release ++ second_release).
Proof. repeat split; apply one_applying_dec; vm_compute; reflexivity. Qed.

Lemma installed_never_goes_back_witness : exists i i',
  installedRelease (b_tbl (lf_box (live factory first_release))) = Some i /\
  installedRelease (b_tbl (lf_box (live factory (first_release ++ second_release)))) = Some i' /\
  (u_id i' = u_id i /\ u_builtAt i' = u_builtAt i \/ u_builtAt i < u_builtAt i') /\ u_id i' = js "B".
Proof.
  assert (H : exists i, installedRelease (b_tbl (lf_box (live factory first_release))) = Some i)
    by (eexists; vm_compute; reflexivity).
  destruct H as [i Hi].
  destruct (installed_never_goes_back first_release second_release i sample_boots Hi) as (i' & Hi' & Hle).
  exists i, i'. split; [exact Hi|]. split; [exact Hi'|]. split; [exact Hle|].
  revert Hi'. vm_compute. intros [= <-]. reflexivity.
Defined.

(** *** Where it does go back

    The swap of A throws and leaves A's row [applying]; in the next window B,
    newer and with the same orchestrator image, is applied, swapped in and, at the
    boot, committed; at the boot after that the newest row [applying] is A's, and
    the running image's digest is A's as well, so A is committed in turn. *)
Definition failed_swap : ApplyEnv :=
  mkApplyEnv (js "stable") true None ConfigsOk true PullOk true ReconcileOk true true true true true true false true.
Definition stuck_then_newer : list box_event :=
  [BPoll (mkManifest (js "stable") (js "aaa") 100) (js "stable") (js "A"); BWindow failed_swap true (js "run1");
   BPoll (mkManifest (js "stable") (js "bbb") 200) (js "stable") (js "B"); BWindow good_env true (js "run2");
   BResume good_resume good_env (js "boot1"); BOutcome o_committed].

Lemma two_applying_go_back :
  u_id <$> installedRelease (b_tbl (lf_box (live factory stuck_then_newer))) = Some (js "B") /\
  u_id <$> installedRelease (b_tbl (lf_box (live factory (stuck_then_newer ++ [BResume good_resume good_env (js "boot2")])))) = Some (js "A").
Proof. split; vm_compute; reflexivity. Qed.

Definition two_rows : world :=
  mkWorld [mkUpdate (js "A") verifying (js "stable") (js "aaa") 100 None not_applied (Some (js "run1")) 1;
           mkUpdate (js "B") pending (js "stable") (js "bbb") 200 None not_applied None 2] 3 ∅.

Definition racing : list statement :=
  [SRead 1 (js "B") verifying None None; SSupersedePending; SSupersedeParked; SWrite 1; SClaim (js "A") (js "run2");
   SRelease (js "A") (js "run2"); SCreate (js "C") (js "stable") (js "ccc") 300].

Lemma no_writers : writers_ok two_rows.
Proof. intros w a Hl. discriminate Hl. Qed.

Lemma updates_advance_only_witness : exists r r', w_tbl two_rows !! 1%nat = Some r /\
  w_tbl (exec_all two_rows racing) !! 1%nat = Some r' /\ same_release r r' /\
  rtc allowed (u_status r) (u_status r') /\
  (DEVICE_UPDATE_ALLOWED_TRANSITIONS (u_status r) = [] -> u_status r' = u_status r) /\ u_status r' = superseded.
Proof.
  assert (H : exists r, w_tbl two_rows !! 1%nat = Some r) by (eexists; reflexivity). destruct H as [r Hr].
  destruct (updates_advance_only two_rows racing 1 r no_writers Hr) as (r' & H1 & H2 & H3 & H4).
  exists r, r'. split; [exact Hr|]. split; [exact H1|]. split; [exact H2|]. split; [exact H3|]. split; [exact H4|].
  revert H1. vm_compute. intros [= <-]. reflexivity.
Defined.

Lemma claimed_row_is_exclusive_witness : exists r, w_tbl two_rows !! 0%nat = Some r /\
  w_tbl (exec_all two_rows racing) !! 0%nat = Some r /\
  forall c' now, (stmt_claim (u_id r) c' now (w_tbl two_rows)).2 = 0%nat.
Proof.
  eexists. split; [reflexivity|].
  apply (claimed_row_is_exclusive two_rows racing 0 _ (js "run1")); [reflexivity|reflexivity|reflexivity|..].
  - vm_compute. repeat constructor; set_solver.
  - vm_compute. repeat split; try tauto.
    + intros (a & E & Hid). injection E as <-. discriminate Hid.
    + intros [_ E]. discriminate E.
Defined.
