(* ===== verification/RoleGuard.v ===== *)
(** * RoleGuard: the rails around every change of a person
      (apps/orchestrator/src/services/role-mutation-guard.service.ts and the
       rank ladder of jwt.service.ts)

    The pre-transaction rails and their composites as pure functions that
    accept or refuse, the in-transaction invariants over the user table, and
    the post-commit effect runners over a world that records the calls they
    make in order, with the audit rows that the awaited revocations of paired
    devices and tokens write themselves. What a call to another service answers (the Redis sweep,
    Nextcloud, the VPN revocation) is in [Env]; an audit row handed to
    [recordActivity] is the [Activity] call. *)

From S2P Require Import Prelude JsNum Json DateTime AuditSigning AuditVerify AuditRecorder.

Local Open Scope Z_scope.

(** ** Roles *)

Inductive Role := owner | admin | family | guest | service.

#[export] Instance Role_eq_dec : EqDecision Role.
Proof. solve_decision. Defined.

Definition ROLE_RANK (r : Role) : Z :=
  match r with service => -1 | guest => 0 | family => 1 | admin => 2 | owner => 3 end.

Definition roleOutranks (a b : Role) : bool := ROLE_RANK b <? ROLE_RANK a.

Definition role_name (r : Role) : jsstr :=
  match r with
  | owner => js "owner" | admin => js "admin" | family => js "family"
  | guest => js "guest" | service => js "service"
  end.

Definition ASSIGNABLE_ROLES : list Role := [admin; family; guest].
Definition ADMIN_TIER_ROLES : list Role := [owner; admin].
Definition ADMIN_TIER (r : Role) : bool := bool_decide (r ∈ ADMIN_TIER_ROLES).
Definition ASSIGNABLE (r : Role) : bool := bool_decide (r ∈ ASSIGNABLE_ROLES).

(** ** Refusals *)

Inductive RoleMutationRefusalCode :=
| OWNER_IMMUTABLE | SELF_ACTION_NOT_ALLOWED | ROLE_RANK_EXCEEDED | ROLE_NOT_ASSIGNABLE
| LAST_OWNER_INVARIANT | LAST_OPERATOR_INVARIANT | CONCURRENT_MUTATION | DELETION_PENDING.

Record RoleMutationRefusedError := mkRefusal {
  rf_status : Z;
  rf_code : RoleMutationRefusalCode;
  rf_message : jsstr
}.

Definition ownerImmutable : RoleMutationRefusedError :=
  mkRefusal 403 OWNER_IMMUTABLE (js "The owner has full control and can't be changed here.").
Definition selfAction : RoleMutationRefusedError :=
  mkRefusal 409 SELF_ACTION_NOT_ALLOWED (js "Cannot modify your own role, scope, or account").
Definition rankExceeded (message : jsstr) : RoleMutationRefusedError :=
  mkRefusal 403 ROLE_RANK_EXCEEDED message.
Definition roleNotAssignable : RoleMutationRefusedError :=
  mkRefusal 403 ROLE_NOT_ASSIGNABLE (js "This role can't be assigned to a person.").
Definition lastOwner : RoleMutationRefusedError :=
  mkRefusal 409 LAST_OWNER_INVARIANT
    (js "Cannot remove the only owner. Promote another user to owner first.").
Definition lastOperator : RoleMutationRefusedError :=
  mkRefusal 409 LAST_OPERATOR_INVARIANT
    (js "This is the last person who can manage access " ++ [0x2014%N] ++
     js " give someone else an admin role first.").
Definition deletionPending : RoleMutationRefusedError :=
  mkRefusal 409 DELETION_PENDING (js "This person is scheduled for deletion. Cancel the deletion first.").
Definition concurrentMutation : RoleMutationRefusedError :=
  mkRefusal 409 CONCURRENT_MUTATION (js "Someone else changed this person at the same time. Try again.").

(** What a handler of this part can throw: a refusal, a Prisma error by its
    code, the 503 of a session sweep Redis refused, a failed call to
    Nextcloud, or another refusal of a route by status and code. *)
Inductive GuardError :=
| Refused (e : RoleMutationRefusedError)
| PrismaError (code : jsstr)
| RevocationUnavailable
| NextcloudFailed
| RouteRefused (status : Z) (code : jsstr).

Definition isConcurrencyConflict (err : GuardError) : bool :=
  match err with
  | PrismaError code => bool_decide (code = js "P2034") || bool_decide (code = js "P2025")
  | _ => false
  end.

(** ** Rails before the transaction *)

Record GuardActor := mkGuardActor { ga_id : option jsstr; ga_role : option Role }.
Record GuardTarget := mkTarget { gt_id : jsstr; gt_role : Role }.

Abbreviation verdict := (result RoleMutationRefusedError unit).

Definition assertNotSelf (actorId : option jsstr) (targetId : jsstr) : verdict :=
  if bool_decide (actorId = Some targetId) then Throw selfAction else Ok tt.

Definition assertTargetNotOwner (targetRole : Role) : verdict :=
  if bool_decide (targetRole = owner) then Throw ownerImmutable else Ok tt.

Definition assertTargetNotOtherOwner (actorId : option jsstr) (target : GuardTarget) : verdict :=
  if negb (bool_decide (gt_role target = owner)) then Ok tt
  else match actorId with
       | None | Some [] => Throw ownerImmutable
       | Some id => if bool_decide (id = gt_id target) then Ok tt else Throw ownerImmutable
       end.

Definition assertRankCap (actorRole : option Role) (requestedRole : Role) (message : jsstr) : verdict :=
  match actorRole with
  | None => Throw (rankExceeded message)
  | Some r => if ROLE_RANK r <? ROLE_RANK requestedRole then Throw (rankExceeded message) else Ok tt
  end.

Definition assertRoleAssignable (requestedRole : Role) : verdict :=
  if ASSIGNABLE requestedRole then Ok tt else Throw roleNotAssignable.

Definition DEFAULT_RANK_MESSAGE : jsstr := js "You cannot assign a role higher than your own".

Definition assertRoleChangeAllowed (actor : GuardActor) (target : GuardTarget) (requestedRole : Role)
    (rankMessage : option jsstr) : verdict :=
  assertNotSelf (ga_id actor) (gt_id target) ;;!
  assertTargetNotOwner (gt_role target) ;;!
  assertRankCap (ga_role actor) requestedRole (default DEFAULT_RANK_MESSAGE rankMessage) ;;!
  assertRoleAssignable requestedRole.

Definition assertRemovalAllowed (actor : GuardActor) (target : GuardTarget) : verdict :=
  assertNotSelf (ga_id actor) (gt_id target) ;;! assertTargetNotOwner (gt_role target).

Definition assertDisableAllowed (actor : GuardActor) (target : GuardTarget) : verdict :=
  assertNotSelf (ga_id actor) (gt_id target) ;;! assertTargetNotOwner (gt_role target).

Definition assertSessionRevokeAllowed (actor : GuardActor) (target : GuardTarget) : verdict :=
  assertNotSelf (ga_id actor) (gt_id target) ;;!
  assertTargetNotOwner (gt_role target) ;;!
  assertRankCap (ga_role actor) (gt_role target)
    (js "You cannot sign out someone with a higher role than your own").

Definition assertScopeChangeAllowed (actor : GuardActor) (target : GuardTarget) : verdict :=
  assertNotSelf (ga_id actor) (gt_id target) ;;! assertTargetNotOwner (gt_role target).

Definition assertUsageWriteAllowed (target : GuardTarget) : verdict :=
  assertTargetNotOwner (gt_role target).

Definition assertDirectoryEditAllowed (actor : GuardActor) (target : GuardTarget) : verdict :=
  assertTargetNotOtherOwner (ga_id actor) target.

Definition assertAssignableForCreate (actorRole : option Role) (requestedRole : Role) (rankMessage : jsstr)
  : verdict :=
  assertRankCap actorRole requestedRole rankMessage ;;! assertRoleAssignable requestedRole.

(** ** The user table *)

Inductive DirectoryStatus := ACTIVE | DEACTIVATED.
Inductive DeletionStatus := NONE | PENDING | PURGING | HANDING_OVER.

#[export] Instance DirectoryStatus_eq_dec : EqDecision DirectoryStatus.
Proof. solve_decision. Defined.
#[export] Instance DeletionStatus_eq_dec : EqDecision DeletionStatus.
Proof. solve_decision. Defined.

(** The columns of [User] the guard and its callers read or write. *)
Record User := mkUser {
  us_id : jsstr;
  us_username : jsstr;
  us_nextcloudUsername : option jsstr;
  us_role : Role;
  us_accessRoleId : option jsstr;
  us_scim : bool;                      (* provisionSource = "SCIM" *)
  us_status : DirectoryStatus;
  us_deletion : DeletionStatus;
  us_dueAt : option Z;
  us_requestedBy : option jsstr;
  us_claimedAt : option Z;
  us_priorStatus : option DeletionStatus;
  us_recipient : option jsstr
}.

Abbreviation Directory := (@gmap (list N) (@list_eq_dec N N.eq_dec) (@list_countable N N.eq_dec N_countable) User).
Abbreviation DB A := (handler Directory GuardError A).

Definition target_of (u : User) : GuardTarget := mkTarget (us_id u) (us_role u).

(** [tx.user.count({ where })] *)
Definition count (p : User -> bool) (d : Directory) : nat := size (filter (fun kv => p kv.2 = true) d).

(** [tx.user.update({ where: { id, ... }, data })]: P2025 when nothing matches. *)
Definition user_update (id : jsstr) (p : User -> bool) (f : User -> User) : DB User :=
  fun d => match d !! id with
           | Some u => if p u then (<[id := f u]> d, Ok (f u)) else (d, Throw (PrismaError (js "P2025")))
           | None => (d, Throw (PrismaError (js "P2025")))
           end.

(** [updateMany({ where: { id, ... }, data })]: the count it answers. *)
Definition user_updateMany (id : jsstr) (p : User -> bool) (f : User -> User) : DB nat :=
  fun d => match d !! id with
           | Some u => if p u then (<[id := f u]> d, Ok 1%nat) else (d, Ok 0%nat)
           | None => (d, Ok 0%nat)
           end.

Definition set_role (r : Role) (u : User) : User :=
  mkUser (us_id u) (us_username u) (us_nextcloudUsername u) r (us_accessRoleId u) (us_scim u) (us_status u)
    (us_deletion u) (us_dueAt u) (us_requestedBy u) (us_claimedAt u) (us_priorStatus u) (us_recipient u).
Definition set_status (s : DirectoryStatus) (u : User) : User :=
  mkUser (us_id u) (us_username u) (us_nextcloudUsername u) (us_role u) (us_accessRoleId u) (us_scim u) s
    (us_deletion u) (us_dueAt u) (us_requestedBy u) (us_claimedAt u) (us_priorStatus u) (us_recipient u).

Definition lift_verdict {S} (v : verdict) : handler S GuardError unit :=
  match v with Ok _ => hret tt | Throw e => hthrow (Refused e) end.

Definition readGuardTargetTx (id : jsstr) : DB (option User) := fun d => (d, Ok (d !! id)).

Definition is_owner (u : User) : bool := bool_decide (us_role u = owner).
Definition operator (u : User) : bool := ADMIN_TIER (us_role u) && bool_decide (us_status u = ACTIVE).

Definition assertNotLastOwner (losesAnOwner : bool) : DB unit :=
  if negb losesAnOwner then hret tt
  else do! d <- hget;
       if (count is_owner d <=? 1)%nat then hthrow (Refused lastOwner) else hret tt.

Definition assertNotLastOperator (target : User) : DB unit :=
  if bool_decide (us_status target = DEACTIVATED) then hret tt
  else do! d <- hget;
       let remaining := count (fun u => operator u && negb (bool_decide (us_id u = us_id target))) d in
       if Nat.eqb remaining 0 then hthrow (Refused lastOperator) else hret tt.

Definition assertRoleChangeInvariantsTx (target : User) (requestedRole : Role) : DB unit :=
  run! assertNotLastOwner (is_owner target && negb (bool_decide (requestedRole = owner)));
  if ADMIN_TIER (us_role target) && negb (ADMIN_TIER requestedRole)
  then assertNotLastOperator target else hret tt.

Definition assertRemovalInvariantsTx (target : User) : DB unit :=
  run! assertNotLastOwner (is_owner target);
  if ADMIN_TIER (us_role target) then assertNotLastOperator target else hret tt.

Definition assertDisableInvariantsTx (target : User) : DB unit :=
  if ADMIN_TIER (us_role target) then assertNotLastOperator target else hret tt.

(** ** Post-commit effects *)

(** Calls to the other services, in the order they are made, and the audit rows.
    [RevokeVpn] writes a row for each device in the background, without being
    awaited: those rows have no place in the order and are not here. *)
Inductive effect :=
| RevokeSessions (userId : jsstr)
| Denylist (userId : jsstr) (ttlSeconds : Z)
| RevokeVpn (username reason : jsstr)
| RevokeDeviceClients (username reason : jsstr)
| RevokeModelTokens (userId reason : jsstr)
| RevokePmTokens (userId reason : jsstr)
| NcGroup (username : jsstr) (add : bool)
| NcSetEnabled (username : jsstr) (enabled : bool)
| NcDeleteUser (username : jsstr)
| NcTransfer (from to : jsstr)
| PurgeBrainMemory (userId : jsstr)
| PurgeOwnedData (userId username : jsstr)
| PurgeM365 (userId : jsstr)
| RevokeDepartmentShares (userId : jsstr)
| Activity (p : RecordParams).

Record World := mkWorld { w_dir : Directory; w_trace : list effect }.
Abbreviation H A := (handler World GuardError A).

(** The file transfer of a hand-over: done (and the folder it made), not
    available on this box, or failed. *)
Inductive TransferAnswer :=
| Transferred (folder : option jsstr)
| TransferUnavailable
| TransferFailed (mayBePartial : bool) (reason : jsstr).

(** The sweep of a person's paired devices: not wired, failed, or done, with the
    rows marked revoked, those of them whose app password was not confirmed
    deleted, and the rows that could not be marked. *)
Inductive ClientSweep := SweepUnwired | SweepFailed | Swept (revoked notDeleted failed : Z).

(** What the other services answer during one request: the session sweep
    (records deleted, or [None] when Redis refused it), the VPN revocation
    ([None] when it is not wired, else devices revoked and failed), the first
    sweep of the paired devices and a later one, how many coding-tool and API
    tokens were revoked ([None] when that is not wired or failed), whether the
    Nextcloud call succeeds, how the file transfer ends; [env_conflict i] is
    Postgres aborting the request's [i]-th transaction as the loser of a
    serialization conflict. *)
Record Env := mkEnv {
  env_sessions : option Z;
  env_vpn : option (Z * Z);
  env_clients : ClientSweep;
  env_clientsAgain : ClientSweep;
  env_modelTokens : option Z;
  env_pmTokens : option Z;
  env_nc : bool;
  env_transfer : TransferAnswer;
  env_conflict : nat -> bool
}.

Definition emit (e : effect) : H unit := fun w => (mkWorld (w_dir w) (w_trace w ++ [e]), Ok tt).
Definition recordActivity (p : RecordParams) : H unit := emit (Activity p).

(** [revokeAllSessions]: both sweeps run, then a refused one is thrown. *)
Definition revokeAllSessions (env : Env) (userId : jsstr) : H Z :=
  run! emit (RevokeSessions userId);
  match env_sessions env with Some n => hret n | None => hthrow RevocationUnavailable end.

Definition revokeCapturingFailure (env : Env) (userId : jsstr) : H (option GuardError) :=
  fun w => match revokeAllSessions env userId w with
           | (w', Ok _) => (w', Ok None)
           | (w', Throw e) => (w', Ok (Some e))
           end.

(** [devices]: omitted, or [null], or a username to revoke. *)
Inductive LeaverDevices := DevicesDefault | DevicesNone | DevicesOf (username : jsstr).

Definition revokeLeaverDevices (env : Env) (devices : LeaverDevices) (defaultUsername reason : jsstr)
  : H (option (Z * Z)) :=
  match devices with
  | DevicesNone => hret None
  | DevicesDefault => run! emit (RevokeVpn defaultUsername reason); hret (env_vpn env)
  | DevicesOf u => run! emit (RevokeVpn u reason); hret (Some (default (0, 0) (env_vpn env)))
  end.

(** *** Revocations that keep their own audit row *)

(** A call, and the row it writes if it writes one. *)
Definition revoking (e : effect) (row : option RecordParams) : H unit :=
  run! emit e; match row with Some p => recordActivity p | None => hret tt end.

Definition clients_row (username reason : jsstr) (actor : ActivityActor) (sweep : ClientSweep) : option RecordParams :=
  let row severity what refs :=
    mkParams (js "auth") severity (js "smartphone") what (Some (username ++ js ": " ++ reason))
      (JObj ([(js "event", JStr (js "device_clients_revoked")); (js "reason", JStr reason); (js "targetUsername", JStr username)] ++ refs))
      (Some actor) None in
  match username, sweep with
  | [], _ | _, SweepUnwired => None
  | _, Swept revoked notDeleted failed =>
      if revoked + failed =? 0 then None
      else Some (row (if 0 <? failed then js "err" else js "warn")
                   (if 0 <? failed then js "Some paired devices could not be revoked" else js "Paired devices revoked")
                   [(js "revoked", JNum (num_of_Z revoked)); (js "appPasswordsNotDeleted", JNum (num_of_Z notDeleted));
                    (js "failed", JNum (num_of_Z failed))])
  | _, SweepFailed => Some (row (js "err") (js "Paired devices could not be revoked") [(js "sweepFailed", JBool true)])
  end.

Definition revokeDeviceClientsForUser (sweep : ClientSweep) (username : jsstr) (actor : ActivityActor) (reason : jsstr) : H unit :=
  revoking (RevokeDeviceClients username reason) (clients_row username reason actor sweep).

Definition tokens_row (what userId reason sub : jsstr) (actor : ActivityActor) (count : option Z) : option RecordParams :=
  match count with
  | None => None
  | Some n =>
      if n =? 0 then None
      else Some (mkParams (js "auth") (js "warn") (js "key-round") what (Some sub)
                   (JObj [(js "userId", JStr userId); (js "revoked", JNum (num_of_Z n)); (js "reason", JStr reason)]) (Some actor) None)
  end.

Definition model_tokens_row (env : Env) (userId reason : jsstr) (actor : ActivityActor) : option RecordParams :=
  tokens_row (js "Coding-tool tokens revoked") userId reason
    (if bool_decide (reason = js "user_deactivated") then js "account deactivated" else js "role changed to guest") actor (env_modelTokens env).
Definition pm_tokens_row (env : Env) (userId reason : jsstr) (actor : ActivityActor) : option RecordParams :=
  tokens_row (js "API tokens revoked") userId reason
    (if bool_decide (reason = js "user_deactivated") then js "account deactivated" else js "role changed") actor (env_pmTokens env).

Definition revokeModelAccessTokensForUser (env : Env) (userId reason : jsstr) (actor : ActivityActor) : H unit :=
  revoking (RevokeModelTokens userId reason) (model_tokens_row env userId reason actor).
Definition revokePmApiTokensForUser (env : Env) (userId reason : jsstr) (actor : ActivityActor) : H unit :=
  revoking (RevokePmTokens userId reason) (pm_tokens_row env userId reason actor).

Definition revokeLeaverDeviceClients (env : Env) (devices : LeaverDevices) (defaultUsername : jsstr) (actor : ActivityActor)
    (reason : jsstr) : H unit :=
  match devices with
  | DevicesNone => hret tt
  | DevicesDefault => revokeDeviceClientsForUser (env_clientsAgain env) defaultUsername actor reason
  | DevicesOf u => revokeDeviceClientsForUser (env_clientsAgain env) u actor reason
  end.

Definition syncAdminTierGroup (nextcloudUsername : option jsstr) (previousRole nextRole : Role) : H unit :=
  match nextcloudUsername with
  | None | Some [] => hret tt
  | Some nc => if Bool.eqb (ADMIN_TIER previousRole) (ADMIN_TIER nextRole) then hret tt
               else emit (NcGroup nc (ADMIN_TIER nextRole))
  end.

Definition vpn_refs (vpn : option (Z * Z)) : entries :=
  match vpn with
  | Some (r, f) => [(js "vpnDevicesRevoked", JNum (num_of_Z r)); (js "vpnDevicesFailed", JNum (num_of_Z f))]
  | None => []
  end.
Definition revoke_refs (err : option GuardError) : entries :=
  match err with Some _ => [(js "sessionRevoke", JStr (js "failed"))] | None => [] end.

Definition rethrow (err : option GuardError) : H unit :=
  match err with Some e => hthrow e | None => hret tt end.

Definition role_changed_row (u : User) (previousRole nextRole : Role) (actorUsername : option jsstr)
    (actor : ActivityActor) (vpn : option (Z * Z)) (err : option GuardError) : RecordParams :=
  mkParams (js "system") (js "ok") (js "shield") (js "Role changed")
    (Some (us_username u ++ js ": " ++ role_name previousRole ++ [32; 0x2192; 32]%N ++ role_name nextRole))
    (JObj ([(js "actor", str_or_null actorUsername); (js "targetUserId", JStr (us_id u));
            (js "targetUsername", JStr (us_username u)); (js "previousRole", JStr (role_name previousRole));
            (js "nextRole", JStr (role_name nextRole))] ++ vpn_refs vpn ++ revoke_refs err))
    (Some actor) None.

Definition runRoleChangePostEffects (env : Env) (target : User) (previousRole nextRole : Role)
    (actorUsername : option jsstr) (actor : ActivityActor) (devices : LeaverDevices) : H unit :=
  let toGuest := bool_decide (nextRole = guest) && negb (bool_decide (previousRole = guest)) in
  do! revokeError <- revokeCapturingFailure env (us_id target);
  do! vpn <- (if toGuest then revokeLeaverDevices env devices (us_username target) (js "role_change") else hret None);
  run! (if toGuest then revokeModelAccessTokensForUser env (us_id target) (js "role_guest") actor else hret tt);
  run! (if bool_decide (previousRole = nextRole) then hret tt
        else revokePmApiTokensForUser env (us_id target) (js "role_changed") actor);
  run! syncAdminTierGroup (us_nextcloudUsername target) previousRole nextRole;
  run! recordActivity (role_changed_row target previousRole nextRole actorUsername actor vpn revokeError);
  rethrow revokeError.

Definition ACCESS_TOKEN_TTL_SECONDS : Z := 15 * 60.

(** [if (args.targetUserId)]: neither [null] nor empty. *)
Definition present (o : option jsstr) : option jsstr :=
  match o with Some [] => None | _ => o end.

Definition removed_row (targetUserId : option jsstr) (targetUsername : jsstr) (targetRole : option Role)
    (actorUsername : option jsstr) (actor : ActivityActor) (purged : entries) (vpn : option (Z * Z))
    (err : option GuardError) : RecordParams :=
  mkParams (js "auth") (js "warn") (js "user-x") (js "User removed") (Some targetUsername)
    (JObj ([(js "actor", str_or_null actorUsername); (js "targetUserId", str_or_null targetUserId);
            (js "targetUsername", JStr targetUsername); (js "role", str_or_null (role_name <$> targetRole))]
           ++ vpn_refs vpn ++ revoke_refs err
           ++ match purged with [] => [] | _ => [(js "purged", JObj purged)] end))
    (Some actor) None.

Definition runRemovalPostEffects (env : Env) (targetUserId : option jsstr) (targetUsername : jsstr)
    (targetRole : option Role) (actorUsername : option jsstr) (actor : ActivityActor) (devices : LeaverDevices)
    (purged : entries) : H unit :=
  do! revokeError <- match present targetUserId with
                     | Some id => do! e <- revokeCapturingFailure env id;
                                  run! emit (Denylist id ACCESS_TOKEN_TTL_SECONDS);
                                  hret e
                     | None => hret None
                     end;
  do! vpn <- revokeLeaverDevices env devices targetUsername (js "removal");
  run! revokeLeaverDeviceClients env devices targetUsername actor (js "removal");
  run! recordActivity (removed_row targetUserId targetUsername targetRole actorUsername actor purged vpn revokeError);
  rethrow revokeError.

Inductive NcMirror := synced | failed | no_account.
Definition mirror_name (m : NcMirror) : jsstr :=
  match m with synced => js "synced" | failed => js "failed" | no_account => js "no_account" end.

Definition disabled_row (targetUserId : option jsstr) (username : jsstr) (actor : ActivityActor)
    (ncMirror : option NcMirror) (sessionsRevoked : option Z) (vpn : option (Z * Z)) (err : option GuardError)
  : RecordParams :=
  mkParams (js "auth") (js "warn") (js "shield-off") (js "User disabled") (Some username)
    (JObj ([(js "username", JStr username); (js "targetUserId", str_or_null targetUserId);
            (js "sessionsRevoked", match sessionsRevoked with Some n => JNum (num_of_Z n) | None => JNull end)]
           ++ revoke_refs err
           ++ match ncMirror with Some m => [(js "ncMirror", JStr (mirror_name m))] | None => [] end
           ++ vpn_refs vpn))
    (Some actor) None.

Definition runDisablePostEffects (env : Env) (targetUserId : option jsstr) (username : jsstr)
    (actor : ActivityActor) (ncMirror : option NcMirror) (devices : LeaverDevices) : H unit :=
  do! revoke <- match present targetUserId with
                | Some id => fun w => match revokeAllSessions env id w with
                                      | (w', Ok n) => (w', Ok (Some n, None))
                                      | (w', Throw e) => (w', Ok (None, Some e))
                                      end
                | None => hret (Some 0, None)
                end;
  do! vpn <- revokeLeaverDevices env devices username (js "deactivation");
  run! revokeLeaverDeviceClients env devices username actor (js "deactivation");
  run! match present targetUserId with
       | Some id => run! revokeModelAccessTokensForUser env id (js "user_deactivated") actor;
                    revokePmApiTokensForUser env id (js "user_deactivated") actor
       | None => hret tt
       end;
  run! recordActivity (disabled_row targetUserId username actor ncMirror revoke.1 vpn revoke.2);
  rethrow revoke.2.
