(* ===== verification/PeopleDirectory.v ===== *)
(** * PeopleDirectory: the guarded mutations of the people directory
      (apps/orchestrator/src/routes/people.ts and auth.ts, services/
       scim.service.ts, scim-role-mapping.service.ts and
       leaver-deletion.service.ts)

    Every handler is in three parts, as in the code: what it reads and checks
    before its transaction ([prepare...]), the SERIALIZABLE transaction
    ([...Tx]), and the effects after the commit. The sequential handlers
    compose the three on a [World]; the machine [run] interleaves any number
    of requests, letting other commits fall between a request's first read
    and its transaction. The database is wired ([prisma] is there); bodies
    arrive parsed, and middleware has let the request through. *)

From S2P Require Import Prelude JsNum Json DateTime AuditSigning AuditVerify AuditRecorder RoleGuard.

Local Open Scope Z_scope.

(** Rows are keyed by their id. *)
Definition directory_wf (d : Directory) : Prop := forall id u, d !! id = Some u -> us_id u = id.

(** A SERIALIZABLE transaction takes effect as a whole or not at all; the
    serialization loser is thrown as P2034. *)
Definition serializable {A} (env : Env) (i : nat) (m : DB A) : H A :=
  fun w => if env_conflict env i then (w, Throw (PrismaError (js "P2034")))
           else match m (w_dir w) with
                | (d, Ok a) => (mkWorld d (w_trace w), Ok a)
                | (_, Throw e) => (w, Throw e)
                end.

(** One statement outside any transaction. *)
Definition direct {A} (m : DB A) : H A :=
  fun w => let '(d, r) := m (w_dir w) in (mkWorld d (w_trace w), r).

Definition lift_result {S A} (r : result GuardError A) : handler S GuardError A :=
  match r with Ok a => hret a | Throw e => hthrow e end.

Definition refuse_if (v : verdict) : result GuardError unit :=
  match v with Ok _ => Ok tt | Throw e => Throw (Refused e) end.

(** The [catch] that turns a lost race into the 409 of the guard. *)
Definition mapConflict {A} (m : H A) : H A :=
  fun w => match m w with
           | (w', Throw e) => (w', Throw (if isConcurrencyConflict e then Refused concurrentMutation else e))
           | (w', Ok a) => (w', Ok a)
           end.

(** ** PATCH /people/:id/role *)

(** [None] is the quiet 200 of a request that changes nothing. *)
Definition prepareRoleChange (actor : GuardActor) (id : jsstr) (requested : Role) (d : Directory)
  : result GuardError (option User) :=
  refuse_if (assertNotSelf (ga_id actor) id) ;;!
  match d !! id with
  | None => Throw (RouteRefused 404 [])
  | Some existing =>
      if bool_decide (us_role existing = requested) then Ok None
      else refuse_if (assertRoleChangeAllowed actor (target_of existing) requested None) ;;! Ok (Some existing)
  end.

Definition has_role (r : Role) (u : User) : bool := bool_decide (us_role u = r).

Definition roleChangeTx (id : jsstr) (requested : Role) : DB User :=
  do! fresh <- readGuardTargetTx id;
  match fresh with
  | None => hthrow (Refused concurrentMutation)
  | Some f => run! assertRoleChangeInvariantsTx f requested;
              user_update id (has_role (us_role f)) (set_role requested)
  end.

Definition patchPersonRole (env : Env) (actor : GuardActor) (id : jsstr) (requested : Role)
    (actorUsername : option jsstr) (activityActor : ActivityActor) : H unit := mapConflict (
  do! w <- hget;
  do! prepared <- lift_result (prepareRoleChange actor id requested (w_dir w));
  match prepared with
  | None => hret tt
  | Some existing =>
      run! serializable env 0 (roleChangeTx id requested);
      runRoleChangePostEffects env existing (us_role existing) requested actorUsername activityActor DevicesDefault
  end).

(** ** POST /auth/users/:username/disable and /enable *)

Definition findDirectoryUserByHandle (d : Directory) (handle : jsstr) : option User :=
  match List.find (fun u => bool_decide (us_nextcloudUsername u = Some handle)) (map_to_list d).*2 with
  | Some u => Some u
  | None => List.find (fun u => bool_decide (us_username u = handle)) (map_to_list d).*2
  end.

Definition disableTx (id : jsstr) : DB unit :=
  do! fresh <- readGuardTargetTx id;
  match fresh with
  | None => hthrow (Refused concurrentMutation)
  | Some f => run! assertDisableInvariantsTx f;
              run! user_update (us_id f) (has_role (us_role f)) (set_status DEACTIVATED);
              hret tt
  end.

(** [ncSetUserEnabled] inside a [try]: the mirror's outcome. *)
Definition mirror_disable (env : Env) (nextcloudUsername : option jsstr) : H NcMirror :=
  match nextcloudUsername with
  | None => hret no_account
  | Some nc => run! emit (NcSetEnabled nc false); hret (if env_nc env then synced else failed)
  end.

Definition disableUser (env : Env) (actor : GuardActor) (handle : jsstr) (activityActor : ActivityActor)
  : H NcMirror := mapConflict (
  do! w <- hget;
  match findDirectoryUserByHandle (w_dir w) handle with
  | Some row =>
      run! lift_verdict (assertDisableAllowed actor (target_of row));
      run! serializable env 0 (disableTx (us_id row));
      run! revokeDeviceClientsForUser (env_clients env) (us_username row) activityActor (js "deactivation");
      do! ncMirror <- mirror_disable env (us_nextcloudUsername row);
      run! runDisablePostEffects env (Some (us_id row)) handle activityActor (Some ncMirror)
             (DevicesOf (us_username row));
      hret ncMirror
  | None =>
      run! emit (NcSetEnabled handle false);
      if negb (env_nc env) then hthrow NextcloudFailed
      else run! runDisablePostEffects env None handle activityActor (Some synced) (DevicesOf handle);
           hret synced
  end).

Definition not_deleting (u : User) : bool := bool_decide (us_deletion u = NONE).

Definition reactivated_row (actorUsername : option jsstr) (handle : jsstr) (row : option User)
    (ncMirror : NcMirror) (activityActor : ActivityActor) : RecordParams :=
  mkParams (js "auth") (js "ok") (js "user-check") (js "User reactivated") (Some handle)
    (JObj [(js "actor", str_or_null actorUsername); (js "username", JStr handle);
           (js "targetUserId", str_or_null (us_id <$> row)); (js "ncMirror", JStr (mirror_name ncMirror))])
    (Some activityActor) None.

Definition enableUser (env : Env) (handle : jsstr) (actorUsername : option jsstr)
    (activityActor : ActivityActor) : H NcMirror :=
  do! w <- hget;
  let row := findDirectoryUserByHandle (w_dir w) handle in
  run! match row with
       | Some r => do! n <- direct (user_updateMany (us_id r) not_deleting (set_status ACTIVE));
                   if Nat.eqb n 0 then hthrow (Refused deletionPending) else hret tt
       | None => hret tt
       end;
  do! ncMirror <- match (match row with Some r => us_nextcloudUsername r | None => Some handle end) with
                  | None => hret no_account
                  | Some nc => run! emit (NcSetEnabled nc true);
                               if env_nc env then hret synced else hthrow NextcloudFailed
                  end;
  run! recordActivity (reactivated_row actorUsername handle row ncMirror activityActor);
  hret ncMirror.

(** ** PATCH /people/:id/access and POST /access/roles/:id/assign: everything
    that decides is read inside the transaction *)

Definition set_access (accessRoleId : option jsstr) (r : Role) (u : User) : User :=
  mkUser (us_id u) (us_username u) (us_nextcloudUsername u) r accessRoleId (us_scim u) (us_status u)
    (us_deletion u) (us_dueAt u) (us_requestedBy u) (us_claimedAt u) (us_priorStatus u) (us_recipient u).

Definition any_row (u : User) : bool := true.

Definition personAccessTx (actor : GuardActor) (id : jsstr) (accessRoleId : option jsstr) (requested : Role)
  : DB User :=
  do! existing <- readGuardTargetTx id;
  match existing with
  | None => hthrow (RouteRefused 404 [])
  | Some u =>
      run! lift_verdict (assertRoleChangeAllowed actor (target_of u) requested None);
      run! assertRoleChangeInvariantsTx u requested;
      run! user_update (us_id u) any_row (set_access accessRoleId requested);
      hret u
  end.

Fixpoint each {A} (f : A -> DB unit) (l : list A) : DB unit :=
  match l with [] => hret tt | x :: r => run! f x; each f r end.

Definition assign_changes (roleId : jsstr) (startingPoint : Role) (u : User) : bool :=
  negb (bool_decide (us_accessRoleId u = Some roleId)) || negb (bool_decide (us_role u = startingPoint)).

(** [userIds] in the order in which [findMany] lists them, each once. *)
Definition assignRoleTx (actor : GuardActor) (roleId : jsstr) (startingPoint : Role) (userIds : list jsstr)
  : DB (list User) :=
  do! d <- hget;
  let targets := remove_dups userIds in
  let rows := omap (fun id => d !! id) targets in
  if negb (Nat.eqb (length rows) (length targets)) then hthrow (RouteRefused 404 [])
  else
    let changed := List.filter (assign_changes roleId startingPoint) rows in
    run! each (fun t => lift_verdict (assertRoleChangeAllowed actor (target_of t) startingPoint None)) changed;
    run! each (fun t => run! assertRoleChangeInvariantsTx t startingPoint;
                        run! user_update (us_id t) any_row (set_access (Some roleId) startingPoint);
                        hret tt) changed;
    hret changed.

(** ** SCIM: the directory push *)

(** [ROLE_PRIVILEGE]: [service] has no entry, and a comparison with
    [undefined] is false. *)
Definition ROLE_PRIVILEGE (r : Role) : option Z :=
  match r with guest => Some 0 | family => Some 1 | admin => Some 2 | owner => Some 3 | service => None end.
Definition DEFAULT_DIRECTORY_ROLE : Role := family.
Definition SCIM_ROLE_CEILING : Role := admin.

Definition gt (a b : option Z) : bool := match a, b with Some x, Some y => y <? x | _, _ => false end.
Definition le (a b : option Z) : bool := match a, b with Some x, Some y => x <=? y | _, _ => false end.

Definition clampToCeiling (r : Role) : Role :=
  if gt (ROLE_PRIVILEGE r) (ROLE_PRIVILEGE SCIM_ROLE_CEILING) then SCIM_ROLE_CEILING else r.

Definition highestRole (roles : list Role) : Role :=
  foldl (fun best r => if gt (ROLE_PRIVILEGE r) (ROLE_PRIVILEGE best) then r else best)
    DEFAULT_DIRECTORY_ROLE roles.

Definition outranksCurrent (target current : Role) : bool :=
  gt (ROLE_PRIVILEGE target)
     (match ROLE_PRIVILEGE current with Some r => Some r | None => ROLE_PRIVILEGE family end).

Definition SCIM_ACTOR : GuardActor := mkGuardActor None (Some SCIM_ROLE_CEILING).
Definition SCIM_AUDIT_ACTOR : jsstr := js "scim:okta".
Definition SCIM_RANK_MESSAGE : jsstr := js "SCIM cannot assign a role above the directory-sync ceiling".
Definition SYSTEM : ActivityActor := mkActor (js "system") None.

(** The direction rule handed to [writeScimRole]: a raise, or the lowering of
    a person who left a group that granted [removed]. *)
Inductive ScimRule := Raise | Lower (removed : Role).

Definition applies (rule : ScimRule) (target current : Role) : bool :=
  match rule with
  | Raise => outranksCurrent target current
  | Lower removed =>
      match ROLE_PRIVILEGE current with
      | None => false
      | Some rank => gt (Some rank) (ROLE_PRIVILEGE target) && le (Some rank) (ROLE_PRIVILEGE removed)
      end
  end.

Definition prepareScimRole (id : jsstr) (target : Role) (rule : ScimRule) (d : Directory)
  : result GuardError (option User) :=
  match d !! id with
  | None => Ok None
  | Some user =>
      if negb (applies rule target (us_role user)) then Ok None
      else refuse_if (assertRoleChangeAllowed SCIM_ACTOR (target_of user) target (Some SCIM_RANK_MESSAGE)) ;;!
           Ok (Some user)
  end.

Definition scimRoleTx (id : jsstr) (target : Role) (rule : ScimRule) : DB bool :=
  do! fresh <- readGuardTargetTx id;
  match fresh with
  | None => hthrow (Refused concurrentMutation)
  | Some f =>
      if negb (applies rule target (us_role f)) then hret false
      else run! assertRoleChangeInvariantsTx f target;
           run! user_update id (has_role (us_role f)) (set_role target);
           hret true
  end.

Definition writeScimRole (env : Env) (id : jsstr) (target : Role) (rule : ScimRule) : H unit :=
  do! w <- hget;
  do! prepared <- lift_result (prepareScimRole id target rule (w_dir w));
  match prepared with
  | None => hret tt
  | Some user =>
      do! applied <- serializable env 0 (scimRoleTx id target rule);
      if negb applied then hret tt
      else runRoleChangePostEffects env user (us_role user) target (Some SCIM_AUDIT_ACTOR) SYSTEM DevicesDefault
  end.

Definition raiseUserRoleTo (env : Env) (id : jsstr) (target : Role) : H unit := writeScimRole env id target Raise.

(** [remaining]: the mapped roles of the groups the person is still in. *)
Definition lowerRoleAfterRemoval (env : Env) (id : jsstr) (removed : Role) (remaining : list Role) : H unit :=
  do! w <- hget;
  match w_dir w !! id with
  | None => hret tt
  | Some user => if negb (us_scim user) then hret tt
                 else writeScimRole env id (highestRole remaining) (Lower removed)
  end.

Definition prepareScimDeactivate (id : jsstr) (d : Directory) : result GuardError (option User) :=
  match d !! id with
  | None => Ok None
  | Some existing =>
      refuse_if (assertDisableAllowed SCIM_ACTOR (target_of existing)) ;;! Ok (Some existing)
  end.

Definition has_status (s : DirectoryStatus) (u : User) : bool := bool_decide (us_status u = s).

Definition scimDeactivateTx (id : jsstr) : DB User :=
  do! fresh <- readGuardTargetTx id;
  match fresh with
  | None => hthrow (Refused concurrentMutation)
  | Some f => run! assertDisableInvariantsTx f;
              user_update id (has_status (us_status f)) (set_status DEACTIVATED)
  end.

Definition deactivateUser (env : Env) (id : jsstr) : H (option User) :=
  do! w <- hget;
  do! prepared <- lift_result (prepareScimDeactivate id (w_dir w));
  match prepared with
  | None => hret None
  | Some existing =>
      do! updated <- mapConflict (serializable env 0 (scimDeactivateTx id));
      run! runDisablePostEffects env (Some (us_id existing)) (us_username existing) SYSTEM None
             (DevicesOf (us_username existing));
      hret (Some updated)
  end.

Definition isOperatorTier (r : Role) : bool := ADMIN_TIER r.
Definition operatorAccountRefusal : RoleMutationRefusedError :=
  rankExceeded (js "SCIM cannot bind identities to, or reactivate, operator accounts").

(** [None]: nothing to write (unknown, or already active). *)
Definition prepareReactivate (id : jsstr) (d : Directory) : result GuardError (option User) :=
  match d !! id with
  | None => Ok None
  | Some existing =>
      if bool_decide (us_status existing = ACTIVE) then Ok None
      else if isOperatorTier (us_role existing) then Throw (Refused operatorAccountRefusal)
      else Ok (Some existing)
  end.

Definition reactivateTx (existing : User) : DB unit :=
  do! n <- user_updateMany (us_id existing)
             (fun u => has_role (us_role existing) u && has_status (us_status existing) u && not_deleting u)
             (set_status ACTIVE);
  if negb (Nat.eqb n 0) then hret tt
  else hthrow (Refused (if not_deleting existing then concurrentMutation else deletionPending)).

Definition reactivateUser (id : jsstr) : H (option User) :=
  do! w <- hget;
  do! prepared <- lift_result (prepareReactivate id (w_dir w));
  match prepared with
  | None => hret (w_dir w !! id)
  | Some existing => run! direct (reactivateTx existing);
                     do! w' <- hget; hret (w_dir w' !! id)
  end.

Definition setUserActive (env : Env) (id : jsstr) (active : bool) : H (option User) :=
  if active then reactivateUser id else deactivateUser env id.

(** ** Leavers: scheduled deletion, hand-over, nightly removal *)

Definition RETENTION_DAYS : Z := 30.
Definition deletionDueAt (now : Z) : Z := now + RETENTION_DAYS * 24 * 60 * 60 * 1000.
Definition HANDOVER_STALE_MS : Z := 15 * 60 * 1000.

(** The write of a deletion state: the new status and deletion status, and the
    deletion columns. *)
Definition set_deletion (s : DirectoryStatus) (ds : DeletionStatus) (due : option Z) (by_ : option jsstr)
    (claimedAt : option Z) (prior : option DeletionStatus) (recipient : option jsstr) (u : User) : User :=
  mkUser (us_id u) (us_username u) (us_nextcloudUsername u) (us_role u) (us_accessRoleId u) (us_scim u) s
    ds due by_ claimedAt prior recipient.

Definition schedule_write (dueAt : Z) (by_ : option jsstr) (u : User) : User :=
  set_deletion DEACTIVATED PENDING (Some dueAt) by_ (us_claimedAt u) (us_priorStatus u) (us_recipient u) u.

Definition scheduleTx (id : jsstr) (dueAt : Z) (by_ : option jsstr) : DB unit :=
  do! fresh <- readGuardTargetTx id;
  match fresh with
  | None => hthrow (Refused concurrentMutation)
  | Some f =>
      run! assertRemovalInvariantsTx f;
      run! user_update (us_id f) (fun u => has_role (us_role f) u && not_deleting u) (schedule_write dueAt by_);
      hret tt
  end.

(** [Ok None]: already scheduled; [Ok (Some tt)]: go on. *)
Definition prepareSchedule (actor : GuardActor) (target : User) : result GuardError (option unit) :=
  match us_deletion target with
  | PENDING | PURGING => Ok None
  | HANDING_OVER => Throw (RouteRefused 409 (js "HANDOVER_IN_PROGRESS"))
  | NONE => refuse_if (assertRemovalAllowed actor (target_of target)) ;;! Ok (Some tt)
  end.

Inductive DeletionDisposition := retention | handover.

Definition scheduled_row (target : User) (dueAt : Z) (actorUsername : option jsstr)
    (disposition : DeletionDisposition) (defaulted : bool) (ncMirror : NcMirror) (vpn : option (Z * Z))
    (activityActor : ActivityActor) : RecordParams :=
  mkParams (js "auth") (js "warn") (js "user-x") (js "User deletion scheduled")
    (Some (us_username target ++ [32; 0xB7; 32]%N ++ js "files kept until " ++ take 10 (toISOString dueAt)))
    (JObj ([(js "actor", str_or_null actorUsername); (js "targetUserId", JStr (us_id target));
            (js "targetUsername", JStr (us_username target)); (js "role", JStr (role_name (us_role target)));
            (js "disposition", JStr (match disposition with retention => js "retention" | handover => js "handover" end));
            (js "dispositionDefaulted", JBool defaulted)]
           ++ (if defaulted
               then [(js "dispositionNote", JStr (js "disposition defaulted: retention (client sent none)"))] else [])
           ++ [(js "deletionDueAt", JStr (toISOString dueAt)); (js "ncMirror", JStr (mirror_name ncMirror))]
           ++ vpn_refs vpn))
    (Some activityActor) None.

(** The answer is the due date, or [None] when already scheduled. *)
Definition scheduleUserDeletion (env : Env) (target : User) (actor : GuardActor) (actorUsername : option jsstr)
    (activityActor : ActivityActor) (disposition : DeletionDisposition) (defaulted : bool) (now : Z)
  : H (option (Z * NcMirror)) :=
  do! go <- lift_result (prepareSchedule actor target);
  match go with
  | None => hret None
  | Some _ =>
      let dueAt := deletionDueAt now in
      run! serializable env 0 (scheduleTx (us_id target) dueAt actorUsername);
      run! revokeDeviceClientsForUser (env_clients env) (us_username target) activityActor (js "removal");
      do! ncMirror <- mirror_disable env (us_nextcloudUsername target);
      run! runDisablePostEffects env (Some (us_id target)) (us_username target) activityActor (Some ncMirror)
             DevicesNone;
      run! emit (Denylist (us_id target) ACCESS_TOKEN_TTL_SECONDS);
      run! emit (RevokeVpn (us_username target) (js "removal"));
      run! recordActivity (scheduled_row target dueAt actorUsername disposition defaulted ncMirror (env_vpn env)
                             activityActor);
      hret (Some (dueAt, ncMirror))
  end.

Definition purging (u : User) : bool :=
  bool_decide (us_status u = DEACTIVATED) && bool_decide (us_deletion u = PURGING).

(** [tx.user.deleteMany({ where: { id, DEACTIVATED, PURGING } })] *)
Definition removeRowTx (id : jsstr) : DB nat :=
  fun d => match d !! id with
           | Some u => if purging u then (delete id d, Ok 1%nat) else (d, Ok 0%nat)
           | None => (d, Ok 0%nat)
           end.

(** The local half of a removal: the pinned delete of the row with the data
    keyed by it, then what follows a confirmed delete. [counts]: what the purge
    of the person's data and shares reports. *)
Definition removeLocally (env : Env) (i : nat) (row : User) (activityActor : ActivityActor)
    (actorUsername : option jsstr) (counts : entries) : H unit :=
  run! emit (PurgeBrainMemory (us_id row));
  do! removed <- serializable env i (removeRowTx (us_id row));
  run! (if Nat.eqb removed 0 then hret tt
        else run! emit (PurgeOwnedData (us_id row) (us_username row));
             run! emit (PurgeM365 (us_id row));
             emit (RevokeDepartmentShares (us_id row)));
  runRemovalPostEffects env (Some (us_id row)) (us_username row) (Some (us_role row)) actorUsername
    activityActor DevicesDefault (if Nat.eqb removed 0 then [] else counts).

Definition completeUserDeletion (env : Env) (i : nat) (row : User) (activityActor : ActivityActor)
    (actorUsername : option jsstr) (counts : entries) : H NcMirror :=
  run! revokeDeviceClientsForUser (env_clients env) (us_username row) activityActor (js "removal");
  do! ncMirror <- match us_nextcloudUsername row with
                  | None => hret no_account
                  | Some nc => run! emit (NcDeleteUser nc);
                               if env_nc env then hret synced else hthrow NextcloudFailed
                  end;
  run! removeLocally env i row activityActor actorUsername counts;
  hret ncMirror.

Definition not_after (o : option Z) (t : Z) : bool := match o with Some x => x <=? t | None => false end.

(** The [where] of the nightly read and of its claim. *)
Definition due (now : Z) (u : User) : bool :=
  bool_decide (us_status u = DEACTIVATED) &&
  ((bool_decide (us_deletion u = PENDING) && not_after (us_dueAt u) now) ||
   (bool_decide (us_deletion u = PURGING) && not_after (us_claimedAt u) (now - HANDOVER_STALE_MS))).

Definition purge_claim_write (claimedAt : Z) (u : User) : User :=
  set_deletion (us_status u) PURGING (us_dueAt u) (us_requestedBy u) (Some claimedAt) (us_priorStatus u)
    (us_recipient u) u.

Definition claimPurgeTx (id : jsstr) (now claimedAt : Z) : DB nat :=
  user_updateMany id (due now) (purge_claim_write claimedAt).

(** One person of the nightly loop: [None] skipped, [Some true] completed,
    [Some false] failed. The claim is stamped with the time of the run. *)
Definition purgeOne (env : Env) (now : Z) (counts : entries) (row : User) : H (option bool) :=
  fun w => match direct (claimPurgeTx (us_id row) now now) w with
           | (w', Ok O) => (w', Ok None)
           | (w', Ok _) =>
               match completeUserDeletion env 0 row SYSTEM (us_requestedBy row) counts w' with
               | (w'', Ok _) => (w'', Ok (Some true))
               | (w'', Throw _) => (w'', Ok (Some false))
               end
           | (w', Throw _) => (w', Ok (Some false))
           end.

Fixpoint purgeAll (env : jsstr -> Env) (now : Z) (counts : jsstr -> entries) (rows : list User)
    (completed failed : nat) : H (nat * nat) :=
  match rows with
  | [] => hret (completed, failed)
  | row :: rest =>
      do! r <- purgeOne (env (us_id row)) now (counts (us_id row)) row;
      match r with
      | None => purgeAll env now counts rest completed failed
      | Some true => purgeAll env now counts rest (S completed) failed
      | Some false => purgeAll env now counts rest completed (S failed)
      end
  end.

Definition purgeDueDeletions (env : jsstr -> Env) (now : Z) (counts : jsstr -> entries) : H (nat * nat) :=
  do! w <- hget;
  purgeAll env now counts (List.filter (due now) (map_to_list (w_dir w)).*2) 0 0.

(** *** Hand-over *)

Definition HANDOVER_RECIPIENT_ROLES : list Role := [owner; admin; family].

Definition check (ok : bool) (status : Z) (code : jsstr) : result GuardError unit :=
  if ok then Ok tt else Throw (RouteRefused status code).

(** The checks before the claim; the answer is the prior deletion status, the
    recipient and the two Nextcloud names. *)
Definition prepareHandover (actor : GuardActor) (target : User) (recipientId : option jsstr) (d : Directory)
  : result GuardError (DeletionStatus * User * jsstr * jsstr) :=
  match present recipientId with
  | None => Throw (RouteRefused 400 (js "RECIPIENT_REQUIRED"))
  | Some rid =>
      let prior := us_deletion target in
      check (bool_decide (prior = NONE) || bool_decide (prior = PENDING)) 409 (js "DELETION_IN_PROGRESS") ;;!
      refuse_if (assertRemovalAllowed actor (target_of target)) ;;!
      match d !! rid with
      | None => Throw (RouteRefused 400 (js "RECIPIENT_UNKNOWN"))
      | Some recipient =>
          check (negb (bool_decide (us_id recipient = us_id target))) 400 (js "RECIPIENT_IS_LEAVER") ;;!
          check (bool_decide (us_status recipient = ACTIVE) && not_deleting recipient) 400
            (js "RECIPIENT_NOT_ACTIVE") ;;!
          check (bool_decide (us_role recipient ∈ HANDOVER_RECIPIENT_ROLES)) 400 (js "RECIPIENT_ROLE") ;;!
          match us_nextcloudUsername target, us_nextcloudUsername recipient with
          | None, _ => Throw (RouteRefused 409 (js "NO_FILES_ACCOUNT"))
          | Some _, None => Throw (RouteRefused 409 (js "RECIPIENT_NO_FILES_ACCOUNT"))
          | Some from, Some to => Ok (prior, recipient, from, to)
          end
      end
  end.

Definition claim_write (prior : DeletionStatus) (recipient : jsstr) (claimedAt : Z) (u : User) : User :=
  set_deletion (us_status u) HANDING_OVER (us_dueAt u) (us_requestedBy u) (Some claimedAt) (Some prior)
    (Some recipient) u.

Definition handoverClaimTx (id : jsstr) (prior : DeletionStatus) (recipient : jsstr) (claimedAt : Z) : DB unit :=
  do! fresh <- readGuardTargetTx id;
  match fresh with
  | None => hthrow (Refused concurrentMutation)
  | Some f =>
      run! assertRemovalInvariantsTx f;
      fun d => match user_update (us_id f) (fun u => bool_decide (us_deletion u = prior))
                       (claim_write prior recipient claimedAt) d with
               | (d', Ok _) => (d', Ok tt)
               | (d', Throw (PrismaError _)) => (d', Throw (RouteRefused 409 (js "HANDOVER_IN_PROGRESS")))
               | (d', Throw e) => (d', Throw e)
               end
  end.

Definition holds_claim (claimedAt : option Z) (u : User) : bool :=
  bool_decide (us_deletion u = HANDING_OVER) && bool_decide (us_claimedAt u = claimedAt).

(** [CLAIM_CLEARED] with the deletion status the claim replaced. *)
Definition release_write (prior : DeletionStatus) (u : User) : User :=
  set_deletion (us_status u) prior (us_dueAt u) (us_requestedBy u) None None None u.

Definition releaseClaimTx (id : jsstr) (prior : DeletionStatus) (claimedAt : Z) : DB nat :=
  user_updateMany id (holds_claim (Some claimedAt)) (release_write prior).

Definition revoke_write (by_ : option jsstr) (now : Z) (u : User) : User :=
  set_deletion DEACTIVATED PURGING (us_dueAt u) by_ (Some now) None None u.

Definition handoverRevokeTx (id : jsstr) (claimedAt now : Z) (by_ : option jsstr) : DB unit :=
  do! fresh <- readGuardTargetTx id;
  match fresh with
  | None => hthrow (Refused concurrentMutation)
  | Some f =>
      run! assertRemovalInvariantsTx f;
      run! user_update (us_id f) (fun u => has_role (us_role f) u && holds_claim (Some claimedAt) u)
             (revoke_write by_ now);
      hret tt
  end.

Definition handover_row (severity what : jsstr) (target recipient : User) (tail : jsstr) (refs : entries)
    (actorUsername : option jsstr) (activityActor : ActivityActor) : RecordParams :=
  mkParams (js "auth") severity (js "user-x") what
    (Some (us_username target ++ [32; 0x2192; 32]%N ++ us_username recipient ++ tail))
    (JObj ([(js "actor", str_or_null actorUsername); (js "targetUserId", JStr (us_id target));
            (js "targetUsername", JStr (us_username target)); (js "recipientUserId", JStr (us_id recipient));
            (js "recipientUsername", JStr (us_username recipient))] ++ refs))
    (Some activityActor) None.

Definition dot (s : jsstr) : jsstr := [32; 0xB7; 32]%N ++ s.

(** [t1] is the claim's time, [t2] the revoke's; the answer is the folder and
    whether the removal completed. *)
Definition handOverAndDeleteUser (env : Env) (target : User) (recipientId : option jsstr) (actor : GuardActor)
    (actorUsername : option jsstr) (activityActor : ActivityActor) (t1 t2 : Z) (counts : entries)
  : H (option jsstr * bool) :=
  do! w <- hget;
  do! prepared <- lift_result (prepareHandover actor target recipientId (w_dir w));
  let '(prior, recipient, from, to) := prepared in
  let release := direct (releaseClaimTx (us_id target) prior t1) in
  run! serializable env 0 (handoverClaimTx (us_id target) prior (us_id recipient) t1);
  run! emit (NcTransfer from to);
  match env_transfer env with
  | TransferUnavailable => run! release; hthrow (RouteRefused 503 (js "HANDOVER_UNAVAILABLE"))
  | TransferFailed partial reason =>
      run! release;
      run! recordActivity (handover_row (if partial then js "err" else js "warn")
             (if partial then js "File hand-over failed, may be partial" else js "File hand-over refused")
             target recipient (dot reason)
             [(js "reason", JStr reason); (js "mayBePartial", JBool partial)] actorUsername activityActor);
      hthrow (RouteRefused 502 (if partial then js "HANDOVER_INCOMPLETE" else js "HANDOVER_FAILED"))
  | Transferred folder =>
      run! recordActivity (handover_row (js "warn") (js "Files handed over") target recipient
             (match folder with None | Some [] => [] | Some f => dot f end)
             [(js "folder", str_or_null folder); (js "disposition", JStr (js "handover"))]
             actorUsername activityActor);
      run! (fun w => match serializable env 1 (handoverRevokeTx (us_id target) t1 t2 actorUsername) w with
                     | (w', Ok _) => (w', Ok tt)
                     | (w', Throw e) => ((release w').1, Throw e)
                     end);
      fun w => match completeUserDeletion env 2 target activityActor actorUsername counts w with
               | (w', Ok _) => (w', Ok (folder, true))
               | (w', Throw _) =>
                   let '(w'', _) := runDisablePostEffects env (Some (us_id target)) (us_username target)
                                      activityActor (Some failed) DevicesDefault w' in
                   (run! emit (Denylist (us_id target) ACCESS_TOKEN_TTL_SECONDS); hret (folder, false)) w''
               end
  end.

(** *** The boot and nightly sweep of abandoned claims *)

Definition stale (now : Z) (u : User) : bool :=
  bool_decide (us_deletion u = HANDING_OVER) && not_after (us_claimedAt u) (now - HANDOVER_STALE_MS).

Definition restored (u : User) : DeletionStatus :=
  if bool_decide (us_priorStatus u = Some PENDING) then PENDING else NONE.

(** Each release is pinned to the claim time that was read. *)
Definition releaseStaleTx (row : User) : DB nat :=
  user_updateMany (us_id row) (holds_claim (us_claimedAt row)) (release_write (restored row)).

Definition interrupted_row (row : User) (recipient : option User) : RecordParams :=
  let to := match recipient with Some r => us_username r | None => default (js "unknown") (us_recipient row) end in
  mkParams (js "auth") (js "err") (js "user-x") (js "File hand-over interrupted, may be partial")
    (Some (us_username row ++ [32; 0x2192; 32]%N ++ to ++ dot (js "released after an orchestrator restart")))
    (JObj [(js "targetUserId", JStr (us_id row)); (js "targetUsername", JStr (us_username row));
           (js "recipientUserId", str_or_null (us_recipient row));
           (js "recipientUsername", str_or_null (us_username <$> recipient));
           (js "claimedAt", str_or_null (toISOString <$> us_claimedAt row));
           (js "restoredStatus", JStr (match restored row with PENDING => js "PENDING" | _ => js "NONE" end));
           (js "mayBePartial", JBool true)])
    (Some SYSTEM) None.

Definition releaseOne (row : User) : H bool :=
  do! n <- direct (releaseStaleTx row);
  if Nat.eqb n 0 then hret false
  else do! w <- hget;
       let recipient := present (us_recipient row) ≫= fun id => w_dir w !! id in
       run! recordActivity (interrupted_row row recipient);
       hret true.

Fixpoint releaseAll (rows : list User) (released : nat) : H nat :=
  match rows with
  | [] => hret released
  | row :: rest => do! ok <- releaseOne row; releaseAll rest (if (ok : bool) then S released else released)
  end.

Definition releaseStaleHandovers (now : Z) : H nat :=
  do! w <- hget; releaseAll (List.filter (stale now) (map_to_list (w_dir w)).*2) 0.

(** *** POST /auth/users/:username/cancel-deletion *)

Definition cancel_write (u : User) : User :=
  set_deletion (us_status u) NONE None None (us_claimedAt u) (us_priorStatus u) (us_recipient u) u.

Definition cancelTx (id : jsstr) : DB nat :=
  user_updateMany id (fun u => bool_decide (us_deletion u = PENDING)) cancel_write.

Definition cancelDeletion (handle : jsstr) (actorUsername : option jsstr) (activityActor : ActivityActor) : H unit :=
  do! w <- hget;
  match findDirectoryUserByHandle (w_dir w) handle with
  | None => hthrow (RouteRefused 404 [])
  | Some row =>
      do! n <- direct (cancelTx (us_id row));
      if Nat.eqb n 0 then hthrow (RouteRefused 409 (js "NO_PENDING_DELETION"))
      else recordActivity (mkParams (js "auth") (js "ok") (js "user-check") (js "User deletion cancelled")
             (Some (us_username row))
             (JObj [(js "actor", str_or_null actorUsername); (js "targetUserId", JStr (us_id row));
                    (js "targetUsername", JStr (us_username row))]) (Some activityActor) None)
  end.

(** ** Effects, read back *)

Definition activities (l : list effect) : list RecordParams :=
  omap (fun e => match e with Activity p => Some p | _ => None end) l.

Definition vpn_revoked (l : list effect) : Prop := exists u reason, RevokeVpn u reason ∈ l.
Definition denylisted (l : list effect) : Prop := exists u ttl, Denylist u ttl ∈ l.

(** What the session sweep of a post-effect runner leaves to throw. *)
Definition sweep_error (env : Env) : option GuardError :=
  match env_sessions env with Some _ => None | None => Some RevocationUnavailable end.

Definition answer_of (err : option GuardError) : result GuardError unit :=
  match err with Some e => Throw e | None => Ok tt end.

(** A handler that only makes calls: the directory stays, the trace grows. *)
Definition calls {A} (m : H A) (effs : list effect) (r : result GuardError A) : Prop :=
  forall w, m w = (mkWorld (w_dir w) (w_trace w ++ effs), r).

Lemma calls_bind {A B} (m : H A) (f : A -> H B) e1 a e2 r :
  calls m e1 (Ok a) -> calls (f a) e2 r -> calls (hbind m f) (e1 ++ e2) r.
Proof. unfold calls, hbind. intros H1 H2 w. rewrite H1, H2. simpl. by rewrite app_assoc. Qed.

(** A call that throws ends the handler. *)
Lemma calls_bind_throw {A B} (m : H A) (f : A -> H B) e1 e :
  calls m e1 (Throw e) -> calls (hbind m f) e1 (Throw e).
Proof. unfold calls, hbind. intros H1 w. by rewrite H1. Qed.

Lemma calls_ret {A} (a : A) : calls (hret a) [] (Ok a).
Proof. intros w. unfold hret. rewrite app_nil_r. by destruct w. Qed.

(** A step that makes no call. *)
Lemma calls_bind_nil {A B} (m : H A) (f : A -> H B) a e2 r :
  calls m [] (Ok a) -> calls (f a) e2 r -> calls (hbind m f) e2 r.
Proof. exact (calls_bind m f [] a e2 r). Qed.

Lemma calls_emit e : calls (emit e) [e] (Ok tt).
Proof. done. Qed.

(** A revocation and its own row. *)
Definition with_row (e : effect) (row : option RecordParams) : list effect :=
  e :: match row with Some p => [Activity p] | None => [] end.

Lemma calls_revoking e row : calls (revoking e row) (with_row e row) (Ok tt).
Proof. apply (calls_bind _ (fun _ => _) [e] tt); [apply calls_emit|]. destruct row; [apply calls_emit|apply calls_ret]. Qed.

Lemma calls_rethrow err : calls (rethrow err) [] (answer_of err).
Proof. intros w. destruct err; simpl; unfold hthrow, hret; rewrite app_nil_r; by destruct w. Qed.

Lemma calls_capture env id : calls (revokeCapturingFailure env id) [RevokeSessions id] (Ok (sweep_error env)).
Proof.
  intros w. unfold revokeCapturingFailure, revokeAllSessions, sweep_error, hbind. simpl.
  by destruct (env_sessions env).
Qed.

Lemma calls_devices env dev u reason :
  exists effs vpn, calls (revokeLeaverDevices env dev u reason) effs (Ok vpn) /\ activities effs = [].
Proof.
  destruct dev; simpl.
  - exists [RevokeVpn u reason], (env_vpn env). done.
  - exists [], None. split; [apply calls_ret|done].
  - exists [RevokeVpn username reason], (Some (default (0, 0) (env_vpn env))). done.
Qed.

(** A call that is made or not. *)
Lemma calls_when {A} (b : bool) (m : H A) (a : A) effs : calls m effs (Ok a) ->
  calls (if b then m else hret a) (if b then effs else []) (Ok a) /\ calls (if b then hret a else m) (if b then [] else effs) (Ok a).
Proof. destruct b; auto using calls_ret. Qed.

Lemma calls_tier nc prev next :
  exists effs, calls (syncAdminTierGroup nc prev next) effs (Ok tt) /\ activities effs = [].
Proof.
  destruct nc as [[|c nc]|]; simpl; [by exists []; split; [apply calls_ret|]| |by exists []; split; [apply calls_ret|]].
  destruct (Bool.eqb _ _); [by exists []; split; [apply calls_ret|]|]. by eexists [_].
Qed.

(** The rows that the revocations of a role change write. *)
Definition role_rows (env : Env) (u : User) (prev next : Role) (act : ActivityActor) : list RecordParams :=
  (if bool_decide (next = guest) && negb (bool_decide (prev = guest))
   then option_list (model_tokens_row env (us_id u) (js "role_guest") act) else []) ++
  (if bool_decide (prev = next) then [] else option_list (pm_tokens_row env (us_id u) (js "role_changed") act)).

Lemma activities_app l l' : activities (l ++ l') = activities l ++ activities l'.
Proof. apply omap_app. Qed.

Lemma with_row_activities e row : activities [e] = [] -> activities (with_row e row) = option_list row.
Proof. unfold with_row. intros He. change (e :: ?l) with ([e] ++ l). rewrite activities_app, He. by destruct row. Qed.

(** The role-change runner: the sweep first, the revocations' rows and then its
    own, and the sweep's failure thrown last. *)
Lemma role_effects env u prev next an act dev :
  exists effs vpn,
    calls (runRoleChangePostEffects env u prev next an act dev) (RevokeSessions (us_id u) :: effs)
      (answer_of (sweep_error env)) /\
    activities effs = role_rows env u prev next act ++ [role_changed_row u prev next an act vpn (sweep_error env)].
Proof.
  unfold runRoleChangePostEffects, role_rows. set (g := _ && _).
  assert (exists e1 vpn, calls (if g then revokeLeaverDevices env dev (us_username u) (js "role_change") else hret None)
            e1 (Ok vpn) /\ activities e1 = []) as (e1 & vpn & H1 & Ha1).
  { destruct g; [apply calls_devices|]. exists [], None. split; [apply calls_ret|done]. }
  destruct (calls_tier (us_nextcloudUsername u) prev next) as (e4 & H4 & Ha4).
  eexists _, vpn. split.
  - eapply (calls_bind _ _ [_]); [apply calls_capture|]. eapply calls_bind; [exact H1|].
    eapply calls_bind; [apply calls_when, calls_revoking|]. eapply calls_bind; [apply calls_when, calls_revoking|]. eapply calls_bind; [exact H4|].
    eapply calls_bind; [apply calls_emit|]. apply calls_rethrow.
  - change (RevokeSessions (us_id u) :: ?l) with ([RevokeSessions (us_id u)] ++ l).
    rewrite !activities_app, Ha1, Ha4. destruct g, (bool_decide (prev = next)); rewrite ?with_row_activities by done;
      cbn [activities omap list_omap app]; rewrite <- ?app_assoc; done.
Qed.

(** ** The outcome of a role change *)

Lemma roleChangeTx_ok id r (d d' : Directory) (a : User) :
  roleChangeTx id r d = (d', Ok a) -> exists u, d !! id = Some u /\ d' = <[id := set_role r u]> d.
Proof.
  unfold roleChangeTx, readGuardTargetTx, assertRoleChangeInvariantsTx. intros H.
  apply hbind_ok in H as (o & d1 & [= <- <-] & H). destruct (d !! id) as [u|] eqn:Hu; [|done].
  apply hbind_ok in H as ([] & d1 & Hi & H).
  assert (d1 = d) as ->.
  { unfold assertNotLastOwner, assertNotLastOperator, hbind, hget, hret, hthrow in Hi. by boom. }
  unfold user_update in H. rewrite Hu in H. destruct (has_role (us_role u) u); [|done].
  injection H as <- _. eauto.
Qed.

(** It throws refusals and Prisma conflicts only. *)
Lemma roleChangeTx_throws id r (d d' : Directory) e :
  roleChangeTx id r d = (d', Throw e) -> (exists f, e = Refused f) \/ isConcurrencyConflict e = true.
Proof.
  unfold roleChangeTx, readGuardTargetTx, assertRoleChangeInvariantsTx, assertNotLastOwner, assertNotLastOperator,
    user_update, hbind, hget, hret, hthrow. intros H. boom; eauto.
Qed.

(** A change of role happens entirely or not at all. PATCH
    /people/:id/role either leaves the directory and every other service
    untouched, and answers a refusal (403/404/409, a lost race included) or a
    quiet 200 because the person already has that role; or it writes exactly
    the new role, sweeps the person's sessions first, records exactly one
    audit row naming both roles after those of the tokens it revoked, and answers
    an error only if the sweep failed, which the row then says. *)
Theorem role_change_outcome env actor id requested actorUsername act w :
  let '(w', r) := patchPersonRole env actor id requested actorUsername act w in
  (w' = w /\
   match r with
   | Ok _ => exists u, w_dir w !! id = Some u /\ us_role u = requested
   | Throw e => (exists f, e = Refused f) \/ e = RouteRefused 404 []
   end) \/
  (exists u effs vpn,
     w_dir w !! id = Some u /\ us_role u <> requested /\
     w' = mkWorld (<[id := set_role requested u]> (w_dir w)) (w_trace w ++ RevokeSessions (us_id u) :: effs) /\
     activities effs = role_rows env u (us_role u) requested act ++
       [role_changed_row u (us_role u) requested actorUsername act vpn (sweep_error env)] /\
     r = answer_of (sweep_error env)).
Proof.
  unfold patchPersonRole, mapConflict, hbind, hget, prepareRoleChange. simpl.
  destruct (assertNotSelf (ga_id actor) id) as [[]|e]; simpl; [|left; eauto].
  destruct (w_dir w !! id) as [u|] eqn:Hu; simpl; [|left; eauto].
  case_bool_decide as Hr; simpl; [left; eauto|].
  destruct (assertRoleChangeAllowed actor (target_of u) requested None) as [[]|e]; simpl; [|left; eauto].
  unfold serializable. destruct (env_conflict env 0); [left; simpl; eauto|].
  destruct (roleChangeTx id requested (w_dir w)) as [d' [a|e]] eqn:Htx.
  - apply roleChangeTx_ok in Htx as (u' & Hu' & ->). assert (u' = u) as -> by congruence.
    destruct (role_effects env u (us_role u) requested actorUsername act DevicesDefault) as (effs & vpn & Hc & Ha).
    rewrite Hc. unfold sweep_error in *. destruct (env_sessions env); right; by exists u, effs, vpn.
  - left. split; [done|]. left. apply roleChangeTx_throws in Htx as [[f ->]| ->]; simpl; eauto.
Qed.

(** ** A scheduled deletion while Redis is down *)

Lemma scheduleTx_ok id due by_ (d d' : Directory) (a : unit) :
  (forall u, d !! id = Some u -> us_id u = id) -> scheduleTx id due by_ d = (d', Ok a) ->
  exists u, d !! id = Some u /\ d' = <[id := schedule_write due by_ u]> d.
Proof.
  intros Hid H. unfold scheduleTx, readGuardTargetTx in H.
  apply hbind_ok in H as (o & d1 & [= <- <-] & H). destruct (d !! id) as [u|] eqn:Hu; [|done].
  apply hbind_ok in H as ([] & d1 & Hi & H).
  assert (d1 = d) as ->.
  { unfold assertRemovalInvariantsTx, assertNotLastOwner, assertNotLastOperator, hbind, hget, hret, hthrow in Hi.
    by boom. }
  apply hbind_ok in H as (? & ? & H & [= <- _]). rewrite (Hid u eq_refl) in H. unfold user_update in H.
  rewrite Hu in H. destruct (_ && _); [|done]. injection H as <- _. eauto.
Qed.

(** The disable runner with [devices: null] when the sweep fails. *)
Lemma disable_effects_outage env id username act m :
  env_sessions env = None -> id <> [] ->
  calls (runDisablePostEffects env (Some id) username act m DevicesNone)
    (RevokeSessions id :: with_row (RevokeModelTokens id (js "user_deactivated")) (model_tokens_row env id (js "user_deactivated") act) ++
     with_row (RevokePmTokens id (js "user_deactivated")) (pm_tokens_row env id (js "user_deactivated") act) ++
     [Activity (disabled_row (Some id) username act m None None (Some RevocationUnavailable))])
    (Throw RevocationUnavailable).
Proof.
  intros Hs Hid. destruct id as [|c id]; [done|]. unfold runDisablePostEffects. cbn [present].
  change (RevokeSessions (c :: id) :: ?l) with ([RevokeSessions (c :: id)] ++ l).
  eapply (calls_bind _ _ [RevokeSessions (c :: id)] (None, Some RevocationUnavailable)).
  { intros w. unfold revokeAllSessions, hbind. cbn. by rewrite Hs. }
  cbn [fst snd]. eapply calls_bind_nil; [apply calls_ret|]. eapply calls_bind_nil; [apply calls_ret|].
  rewrite app_assoc. eapply calls_bind; [eapply calls_bind; apply calls_revoking|].
  rewrite <- (app_nil_r [Activity _]). eapply calls_bind; [apply calls_emit|]. apply (calls_rethrow (Some RevocationUnavailable)).
Qed.

Lemma vpn_revoked_app l l' : vpn_revoked (l ++ l') <-> vpn_revoked l \/ vpn_revoked l'.
Proof. unfold vpn_revoked. setoid_rewrite elem_of_app. naive_solver. Qed.
Lemma denylisted_app l l' : denylisted (l ++ l') <-> denylisted l \/ denylisted l'.
Proof. unfold denylisted. setoid_rewrite elem_of_app. naive_solver. Qed.

Definition quiet (l : list effect) : Prop := ~ vpn_revoked l /\ ~ denylisted l.

Lemma quiet_both l l' : quiet l -> quiet l' -> quiet (l ++ l').
Proof. unfold quiet. rewrite vpn_revoked_app, denylisted_app. tauto. Qed.

Lemma quiet_with_row e row : (forall u r, e <> RevokeVpn u r) -> (forall u t, e <> Denylist u t) -> quiet (with_row e row).
Proof.
  unfold with_row. intros He Hd. split; intros (u & r & [H|H]%elem_of_cons); [by eapply He| |by eapply Hd|];
    destruct row; (apply list_elem_of_singleton in H || apply elem_of_nil in H); done.
Qed.

(** The headlines of the rows that the revocations write themselves. *)
Definition REVOCATION_ROWS : list jsstr := js <$>
  ["Paired devices revoked"; "Some paired devices could not be revoked"; "Paired devices could not be revoked";
   "Coding-tool tokens revoked"; "API tokens revoked"]%string.

Definition own_rows (l : list RecordParams) : Prop := Forall (fun p => p_what p ∈ REVOCATION_ROWS) l.

Lemma clients_own u reason act s : own_rows (option_list (clients_row u reason act s)).
Proof.
  unfold own_rows, clients_row. destruct u as [|c u], s as [| |r n f]; cbn [option_list]; try apply Forall_nil_2.
  - constructor; [|done]. cbn [p_what]. by right; right; left.
  - destruct (r + f =? 0); cbn [option_list]; [done|]. constructor; [|done]. cbn [p_what]. destruct (0 <? f); [by right; left|by left].
Qed.

Lemma tokens_own what id reason sub act n : what ∈ REVOCATION_ROWS -> own_rows (option_list (tokens_row what id reason sub act n)).
Proof. unfold own_rows, tokens_row. destruct n as [n|]; [|done]. destruct (n =? 0); cbn [option_list]; [done|]. by constructor. Qed.

Lemma calls_mirror env nc :
  exists effs m, calls (mirror_disable env nc) effs (Ok m) /\ activities effs = [] /\ quiet effs.
Proof.
  destruct nc as [nc|]; simpl.
  - eexists [NcSetEnabled nc false], _. split_and!; [done..|]. by apply (quiet_with_row _ None).
  - exists [], no_account. split_and!; [apply calls_ret|done|]. split; by intros (? & ? & ?%not_elem_of_nil).
Qed.

(** C34. When Redis refuses the session sweep, scheduling a deletion stops
    half-way and cannot be finished by asking again: the person is deactivated
    and pending, the request answers 503, but their VPN devices were not
    revoked, their access tokens were not denylisted, and the "User deletion
    scheduled" row was not recorded: the rows are "User disabled", last, and
    those that the revocations of paired devices and tokens write themselves;
    a second request finds the deletion pending and does nothing. *)
Theorem outage_leaves_vpn env target actor actorUsername act disposition defaulted now w w' r :
  env_sessions env = None ->
  us_id target <> [] ->
  (forall u, w_dir w !! us_id target = Some u -> us_id u = us_id target) ->
  scheduleUserDeletion env target actor actorUsername act disposition defaulted now w = (w', r) ->
  w_dir w' <> w_dir w ->
  r = Throw RevocationUnavailable /\
  (exists effs own row, w_trace w' = w_trace w ++ effs /\ ~ vpn_revoked effs /\ ~ denylisted effs /\
     activities effs = own ++ [row] /\ own_rows own /\ p_what row = js "User disabled") /\
  (exists u, w_dir w' !! us_id target = Some u /\ us_status u = DEACTIVATED /\ us_deletion u = PENDING) /\
  (forall env' now' u, w_dir w' !! us_id target = Some u ->
     scheduleUserDeletion env' u actor actorUsername act disposition defaulted now' w' = (w', Ok None)).
Proof.
  intros Hs Hne Hid H Hch. unfold scheduleUserDeletion in H.
  destruct (prepareSchedule actor target) as [[[]|]|e]; [|by injection H as <- _..].
  unfold lift_result, serializable in H. unfold hbind at 1 2 in H. simpl in H.
  destruct (env_conflict env 0); [by injection H as <- _|].
  destruct (scheduleTx _ _ _ (w_dir w)) as [d' [[]|e]] eqn:Htx; [|by injection H as <- _].
  destruct (scheduleTx_ok _ _ _ _ _ _ Hid Htx) as (u & Hu & ->). clear Htx.
  destruct (calls_mirror env (us_nextcloudUsername target)) as (em & m & Hm & Ham & Hqm).
  pose proof (disable_effects_outage env (us_id target) (us_username target) act (Some m) Hs Hne) as Hd.
  set (cr := clients_row (us_username target) (js "removal") act (env_clients env)) in *.
  set (mr := model_tokens_row env (us_id target) (js "user_deactivated") act) in *.
  set (pr := pm_tokens_row env (us_id target) (js "user_deactivated") act) in *.
  set (row := disabled_row (Some (us_id target)) (us_username target) act (Some m) None None (Some RevocationUnavailable)) in *.
  match type of H with ?b _ = _ => assert (Hc : exists effs, calls b effs (Throw RevocationUnavailable) /\
    effs = with_row (RevokeDeviceClients (us_username target) (js "removal")) cr ++ em ++ RevokeSessions (us_id target) ::
      with_row (RevokeModelTokens (us_id target) (js "user_deactivated")) mr ++
      with_row (RevokePmTokens (us_id target) (js "user_deactivated")) pr ++ [Activity row]) end.
  { eexists. split; [|reflexivity]. eapply calls_bind; [apply calls_revoking|]. eapply calls_bind; [exact Hm|].
    eapply calls_bind_throw, Hd. }
  destruct Hc as (effs & Hc & Heffs). rewrite Hc in H. injection H as <- <-. simpl.
  split; [done|]. rewrite lookup_insert_eq. split_and!.
  - exists effs, (option_list cr ++ option_list mr ++ option_list pr), row. split; [done|]. subst effs.
    change (RevokeSessions ?i :: ?l) with (with_row (RevokeSessions i) None ++ l).
    match goal with |- context [vpn_revoked ?l] => assert (quiet l) as [??] by (repeat apply quiet_both; first [exact Hqm|by apply quiet_with_row|by apply (quiet_with_row (Activity row) None)]) end.
    split_and!; [done..| | |done].
    + rewrite !activities_app, !with_row_activities, Ham by done. cbn. by rewrite <- !app_assoc.
    + unfold own_rows. rewrite !Forall_app. split; [apply clients_own|]. split; apply tokens_own; [by right; right; right; left|by right; right; right; right; left].
  - eexists. split; [done|]. done.
  - intros env' now' u' [= <-]. done.
Qed.

(** ** The nightly removal *)

(** The removal of one person touches only their row, and deletes it only
    after Nextcloud has let the account go. *)
Lemma calls_keep_dir {A} (m : H A) effs r w : calls m effs r -> w_dir (m w).1 = w_dir w.
Proof. intros H. by rewrite H. Qed.

Lemma removal_effects_dir env id u r an act dev purged w :
  w_dir (runRemovalPostEffects env id u r an act dev purged w).1 = w_dir w.
Proof.
  unfold runRemovalPostEffects. destruct (calls_devices env dev u (js "removal")) as (e & vpn & He & _).
  assert (exists e2, calls (revokeLeaverDeviceClients env dev u act (js "removal")) e2 (Ok tt)) as [e2 H2].
  { destruct dev; [|exists []; apply calls_ret|]; eexists; apply calls_revoking. }
  destruct (present id) as [i|].
  - eapply calls_keep_dir. eapply calls_bind.
    { eapply calls_bind; [apply calls_capture|]. eapply calls_bind; [apply calls_emit|apply calls_ret]. }
    eapply calls_bind; [exact He|]. eapply calls_bind; [exact H2|]. eapply calls_bind; [apply calls_emit|].
    apply calls_rethrow.
  - eapply calls_keep_dir. eapply calls_bind; [apply calls_ret|]. eapply calls_bind; [exact He|].
    eapply calls_bind; [exact H2|]. eapply calls_bind; [apply calls_emit|]. apply calls_rethrow.
Qed.

Definition nextcloud_let_go (env : Env) (row : User) : Prop :=
  us_nextcloudUsername row = None \/ env_nc env = true.

Lemma remove_locally_dir env i row act an counts w :
  let d' := w_dir (removeLocally env i row act an counts w).1 in
  d' = w_dir w \/ d' = delete (us_id row) (w_dir w).
Proof.
  unfold removeLocally, hbind, emit, serializable. simpl. destruct (env_conflict env i); [by left|].
  unfold removeRowTx.
  destruct (w_dir w !! us_id row) as [u|]; [destruct (purging u)|]; simpl; rewrite removal_effects_dir; auto.
Qed.

Lemma complete_dir env i row act an counts w :
  let d' := w_dir (completeUserDeletion env i row act an counts w).1 in
  d' = w_dir w \/ (d' = delete (us_id row) (w_dir w) /\ nextcloud_let_go env row).
Proof.
  unfold completeUserDeletion, nextcloud_let_go, hbind. cbv zeta. rewrite !(calls_revoking _ _ w : revokeDeviceClientsForUser _ _ _ _ w = _).
  set (w1 := mkWorld (w_dir w) _). assert (Hw1 : w_dir w1 = w_dir w) by done. clearbody w1. simpl.
  assert (Hrest : forall w0 m, w_dir w0 = w_dir w ->
    let d' := w_dir (match removeLocally env i row act an counts w0 with
                     | (s', Ok _) => (hret m : H NcMirror) s' | (s', Throw e) => (s', Throw e) end).1 in
    d' = w_dir w \/ d' = delete (us_id row) (w_dir w)).
  { intros w0 m Hw0. pose proof (remove_locally_dir env i row act an counts w0) as Hr. rewrite Hw0 in Hr.
    by destruct (removeLocally env i row act an counts w0) as [? [?|?]]. }
  destruct (us_nextcloudUsername row) as [nc|]; [destruct (env_nc env)|]; simpl; [|by left|].
  - destruct (Hrest (mkWorld (w_dir w1) (w_trace w1 ++ [NcDeleteUser nc])) synced Hw1); auto.
  - destruct (Hrest w1 no_account Hw1); auto.
Qed.

(** One person of the loop. *)
Lemma purge_one_dir env now counts row w id :
  let d' := w_dir (purgeOne env now counts row w).1 in
  is_Some (w_dir w !! id) -> d' !! id = None -> id = us_id row /\ nextcloud_let_go env row.
Proof.
  simpl. unfold purgeOne, direct, claimPurgeTx, user_updateMany. intros Hid.
  assert (Hgo : forall w0, is_Some (w_dir w0 !! id) ->
    w_dir (match completeUserDeletion env 0 row SYSTEM (us_requestedBy row) counts w0 with
           | (w'', Ok _) => (w'', Ok (Some true)) | (w'', Throw _) => (w'', Ok (Some false))
           end : World * result GuardError (option bool)).1 !! id = None ->
    id = us_id row /\ nextcloud_let_go env row).
  { intros w0 [v Hv]. pose proof (complete_dir env 0 row SYSTEM (us_requestedBy row) counts w0) as Hc.
    destruct (completeUserDeletion _ _ _ _ _ _ w0) as [w1 [?|?]]; simpl in *;
      (destruct Hc as [->|[-> Hl]]; [congruence|]; intros [?|?]%lookup_delete_None; [by subst|congruence]). }
  destruct Hid as [v Hv]. destruct (w_dir w !! us_id row) as [u|] eqn:Hu; simpl; [|congruence].
  destruct (due now u); simpl; [|congruence]. apply Hgo. simpl.
  destruct (decide (us_id row = id)) as [->|]; [by rewrite lookup_insert_eq|by rewrite lookup_insert_ne].
Qed.

Lemma purge_all_dir env now counts rows c f w id :
  is_Some (w_dir w !! id) -> w_dir (purgeAll env now counts rows c f w).1 !! id = None ->
  exists row, row ∈ rows /\ us_id row = id /\ nextcloud_let_go (env id) row.
Proof.
  revert c f w. induction rows as [|row rows IH]; simpl; intros c f w Hid H; [by destruct Hid; simplify_eq|].
  unfold hbind in H. pose proof (purge_one_dir (env (us_id row)) now (counts (us_id row)) row w id Hid) as Ho.
  destruct (purgeOne _ _ _ row w) as [w1 r] eqn:Hp; simpl in Ho.
  destruct (w_dir w1 !! id) as [v|] eqn:Hv.
  - assert (exists row0, row0 ∈ rows /\ us_id row0 = id /\ nextcloud_let_go (env id) row0) as (row0 & ? & ?).
    { destruct r as [[[]|]|]; try (eapply IH; [|exact H]; eauto). simpl in H. congruence. }
    exists row0. split; [by right|done].
  - destruct (Ho eq_refl) as [-> Hl]. exists row. split; [by left|done].
Qed.

(** The nightly job removes nobody early. A person whose row is gone
    after [purgeDueDeletions] was deactivated and either past the end of their
    30 days or already being purged by a run that went stale; and their
    Nextcloud account, if they had one, was deleted first. *)
Theorem nightly_removes_only_due env now counts w id u :
  directory_wf (w_dir w) -> w_dir w !! id = Some u ->
  w_dir (purgeDueDeletions env now counts w).1 !! id = None ->
  us_status u = DEACTIVATED /\
  ((us_deletion u = PENDING /\ exists t, us_dueAt u = Some t /\ t <= now) \/
   (us_deletion u = PURGING /\ exists t, us_claimedAt u = Some t /\ t <= now - HANDOVER_STALE_MS)) /\
  nextcloud_let_go (env id) u.
Proof.
  intros Hk Hu H. unfold purgeDueDeletions, hbind in H. simpl in H.
  apply purge_all_dir in H as (row & Hin & Hid & Hl); [|by eexists].
  apply list_elem_of_In, List.filter_In in Hin as [Hin Hd]. apply list_elem_of_In in Hin.
  apply list_elem_of_fmap in Hin as ([k v] & -> & Hkv). simpl in *. apply elem_of_map_to_list in Hkv.
  rewrite (Hk _ _ Hkv) in Hid. subst k. assert (v = u) as -> by congruence.
  unfold due, not_after in Hd. rewrite andb_true_iff, orb_true_iff, !andb_true_iff, !bool_decide_eq_true in Hd.
  destruct Hd as [Hst Hd]. split_and!; [done| |done].
  destruct Hd as [[? Ht]|[? Ht]]; [left|right]; (split; [done|]).
  - destruct (us_dueAt u); [|done]. apply Z.leb_le in Ht. eauto.
  - destruct (us_claimedAt u); [|done]. apply Z.leb_le in Ht. eauto.
Qed.

(** ** Witnesses *)

Definition leaver : User :=
  mkUser (js "u1") (js "lee") (Some (js "lee-nc")) family None false ACTIVE NONE None None None None None.
Definition boss : GuardActor := mkGuardActor (Some (js "o1")) (Some owner).
Definition boss_actor : ActivityActor := mkActor (js "user") (Some (js "o1")).
Definition env_down : Env := mkEnv None (Some (1, 0)) (Swept 2 0 0) (Swept 0 0 0) (Some 1) None true (Transferred None) (fun _ => false).
Definition env_up : Env := mkEnv (Some 2) (Some (1, 0)) (Swept 2 0 0) (Swept 0 0 0) (Some 1) (Some 0) true (Transferred None) (fun _ => false).
Definition office : World := mkWorld (<[js "u1" := leaver]> ∅) [].

Lemma outage_leaves_vpn_witness :
  let w' := (scheduleUserDeletion env_down leaver boss (Some (js "boss")) boss_actor retention true 0 office).1 in
  exists effs own row, w_trace w' = [] ++ effs /\ ~ vpn_revoked effs /\ ~ denylisted effs /\
    activities effs = own ++ [row] /\ own_rows own /\ p_what row = js "User disabled".
Proof.
  apply (outage_leaves_vpn env_down leaver boss (Some (js "boss")) boss_actor retention true 0 office _
           (Throw RevocationUnavailable)).
  - reflexivity.
  - discriminate.
  - intros u. unfold office. simpl. rewrite lookup_insert_eq. intros [= <-]. reflexivity.
  - vm_compute. reflexivity.
  - intros Heq. apply (f_equal (fun d => us_deletion <$> d !! js "u1")) in Heq. vm_compute in Heq. discriminate.
Defined.

Definition gone : User :=
  mkUser (js "u2") (js "gil") (Some (js "gil-nc")) family None false DEACTIVATED PENDING (Some 1000) None None None None.
Definition office2 : World := mkWorld (<[js "u2" := gone]> ∅) [].

Lemma nightly_removes_only_due_witness :
  us_status gone = DEACTIVATED /\
  ((us_deletion gone = PENDING /\ exists t, us_dueAt gone = Some t /\ t <= 1000) \/
   (us_deletion gone = PURGING /\ exists t, us_claimedAt gone = Some t /\ t <= 1000 - HANDOVER_STALE_MS)) /\
  nextcloud_let_go env_up gone.
Proof.
  apply (nightly_removes_only_due (fun _ => env_up) 1000 (fun _ => []) office2 (js "u2") gone).
  - intros id u. simpl. rewrite lookup_insert_Some, lookup_empty. intros [[<- <-]|[_ [=]]]. reflexivity.
  - reflexivity.
  - vm_compute. reflexivity.
Defined.
