(* ===== verification/PeopleMachine.v ===== *)
(** * PeopleMachine: any interleaving of the directory's mutations

    Requests begin (their first read and the rails on that snapshot), wait,
    and commit (their SERIALIZABLE transaction) in any order; other requests,
    the SCIM push, the nightly removal and crashed requests fall in between.
    SERIALIZABLE is what makes a commit one step. *)

From S2P Require Import Prelude JsNum Json DateTime AuditSigning AuditVerify AuditRecorder RoleGuard PeopleDirectory.

Local Open Scope Z_scope.

(** ** The machine *)

Inductive request :=
| QRole (actor : GuardActor) (id : jsstr) (requested : Role)
| QDisable (actor : GuardActor) (id : jsstr)
| QScimDeactivate (id : jsstr)
| QScimReactivate (id : jsstr)
| QScimRole (id : jsstr) (target : Role) (rule : ScimRule)
| QSchedule (actor : GuardActor) (id : jsstr) (by_ : option jsstr) (now : Z)
| QHandover (actor : GuardActor) (id : jsstr) (recipient : option jsstr) (by_ : option jsstr) (claimedAt : Z)
| QStale (id : jsstr) (now : Z).

(** What a request still has to write. *)
Inductive pending :=
| PRole (id : jsstr) (requested : Role)
| PDisable (id : jsstr)
| PScimDeactivate (id : jsstr)
| PReactivate (existing : User)
| PScimRole (id : jsstr) (target : Role) (rule : ScimRule)
| PSchedule (id : jsstr) (dueAt : Z) (by_ : option jsstr)
| PClaim (id : jsstr) (prior : DeletionStatus) (recipient : jsstr) (by_ : option jsstr) (claimedAt : Z)
| PRevoke (id : jsstr) (prior : DeletionStatus) (by_ : option jsstr) (claimedAt : Z)
| PStale (row : User).

Definition begin (q : request) (d : Directory) : option pending :=
  match q with
  | QRole actor id requested =>
      match prepareRoleChange actor id requested d with Ok (Some _) => Some (PRole id requested) | _ => None end
  | QDisable actor id =>
      row ← d !! id;
      match assertDisableAllowed actor (target_of row) with Ok _ => Some (PDisable id) | Throw _ => None end
  | QScimDeactivate id =>
      match prepareScimDeactivate id d with Ok (Some _) => Some (PScimDeactivate id) | _ => None end
  | QScimReactivate id =>
      match prepareReactivate id d with Ok (Some u) => Some (PReactivate u) | _ => None end
  | QScimRole id target rule =>
      match prepareScimRole id target rule d with Ok (Some _) => Some (PScimRole id target rule) | _ => None end
  | QSchedule actor id by_ now =>
      row ← d !! id;
      match prepareSchedule actor row with
      | Ok (Some _) => Some (PSchedule id (deletionDueAt now) by_)
      | _ => None
      end
  | QHandover actor id recipient by_ claimedAt =>
      row ← d !! id;
      match prepareHandover actor row recipient d with
      | Ok (prior, r, _, _) => Some (PClaim id prior (us_id r) by_ claimedAt)
      | Throw _ => None
      end
  | QStale id now => row ← d !! id; if stale now row then Some (PStale row) else None
  end.

(** The transaction of a pending request, and what it has left to do. *)
Definition commit (p : pending) (now : Z) : DB (option pending) :=
  match p with
  | PRole id requested => run! roleChangeTx id requested; hret None
  | PDisable id => run! disableTx id; hret None
  | PScimDeactivate id => run! scimDeactivateTx id; hret None
  | PReactivate u => run! reactivateTx u; hret None
  | PScimRole id target rule => run! scimRoleTx id target rule; hret None
  | PSchedule id dueAt by_ => run! scheduleTx id dueAt by_; hret None
  | PClaim id prior recipient by_ claimedAt =>
      run! handoverClaimTx id prior recipient claimedAt; hret (Some (PRevoke id prior by_ claimedAt))
  | PRevoke id prior by_ claimedAt => run! handoverRevokeTx id claimedAt now by_; hret None
  | PStale row => run! releaseStaleTx row; hret None
  end.

Inductive event :=
| EBegin (n : nat) (q : request)
| ECommit (n : nat) (now : Z)          (* the request's transaction commits or throws *)
| ERelease (n : nat)                   (* a hand-over that failed gives its claim back *)
| EDrop (n : nat)                      (* the serialization loser, or a crash *)
| EEnable (id : jsstr)
| ECancel (id : jsstr)
| EAccess (actor : GuardActor) (id : jsstr) (accessRoleId : option jsstr) (requested : Role)
| EAssign (actor : GuardActor) (roleId : jsstr) (startingPoint : Role) (userIds : list jsstr)
| ECreate (actorRole : option Role) (u : User)
| EPurgeClaim (id : jsstr) (now claimedAt : Z)
| ERemove (id : jsstr).

Record state := mkState { dir : Directory; pend : gmap nat pending }.

Definition committed {A} (m : DB A) (d : Directory) : Directory :=
  match m d with (d', Ok _) => d' | (_, Throw _) => d end.

Definition step (s : state) (ev : event) : state :=
  match ev with
  | EBegin n q =>
      match begin q (dir s) with Some p => mkState (dir s) (<[n := p]> (pend s)) | None => s end
  | ECommit n now =>
      match pend s !! n with
      | Some p => match commit p now (dir s) with
                  | (d, Ok (Some p')) => mkState d (<[n := p']> (pend s))
                  | (d, Ok None) => mkState d (delete n (pend s))
                  | (_, Throw _) => mkState (dir s) (delete n (pend s))
                  end
      | None => s
      end
  | ERelease n =>
      match pend s !! n with
      | Some (PRevoke id prior _ claimedAt) =>
          mkState (committed (releaseClaimTx id prior claimedAt) (dir s)) (delete n (pend s))
      | _ => s
      end
  | EDrop n => mkState (dir s) (delete n (pend s))
  | EEnable id => mkState (committed (user_updateMany id not_deleting (set_status ACTIVE)) (dir s)) (pend s)
  | ECancel id => mkState (committed (cancelTx id) (dir s)) (pend s)
  | EAccess actor id rid r => mkState (committed (personAccessTx actor id rid r) (dir s)) (pend s)
  | EAssign actor rid r ids => mkState (committed (assignRoleTx actor rid r ids) (dir s)) (pend s)
  | ECreate actorRole u =>
      match assertAssignableForCreate actorRole (us_role u) [], dir s !! us_id u with
      | Ok _, None => mkState (<[us_id u := u]> (dir s)) (pend s)
      | _, _ => s
      end
  | EPurgeClaim id now claimedAt => mkState (committed (claimPurgeTx id now claimedAt) (dir s)) (pend s)
  | ERemove id => mkState (committed (removeRowTx id) (dir s)) (pend s)
  end.

Definition run (s : state) (evs : list event) : state := foldl step s evs.

(** ** What one write may do to the directory *)

(** The row of [id] stops being an active operator only when another is left. *)
Definition leaves_operator (d : Directory) (id : jsstr) (u u' : User) : Prop :=
  operator u = true -> operator u' = true \/ exists id' v, id' <> id /\ d !! id' = Some v /\ operator v = true.

Section writes.
(** The highest rank among the people who act. *)
Context (K : Z).

Definition may_give (r : Role) : Prop := ASSIGNABLE r = true /\ ROLE_RANK r <= K.

Inductive write (d : Directory) : Directory -> Prop :=
| w_row id u u' :
    d !! id = Some u -> us_id u' = us_id u -> us_role u <> owner ->
    (us_role u' = us_role u \/ may_give (us_role u')) -> leaves_operator d id u u' ->
    write d (<[id := u']> d)
| w_enable id u : d !! id = Some u -> write d (<[id := set_status ACTIVE u]> d)
| w_create u : d !! us_id u = None -> may_give (us_role u) -> write d (<[us_id u := u]> d)
| w_remove id u : d !! id = Some u -> us_status u = DEACTIVATED -> us_deletion u = PURGING -> write d (delete id d).
End writes.

(** ** The rails, read back *)

Lemma refuse_if_ok v : refuse_if v = Ok tt <-> v = Ok tt.
Proof. destruct v as [[]|]; simpl; split; congruence. Qed.

Lemma assertNotSelf_ok a t : assertNotSelf a t = Ok tt <-> a <> Some t.
Proof. unfold assertNotSelf. case_bool_decide; split; congruence. Qed.

Lemma assertTargetNotOwner_ok r : assertTargetNotOwner r = Ok tt <-> r <> owner.
Proof. unfold assertTargetNotOwner. case_bool_decide; split; congruence. Qed.

Lemma assertRankCap_ok a r m :
  assertRankCap a r m = Ok tt <-> exists ar, a = Some ar /\ ROLE_RANK r <= ROLE_RANK ar.
Proof.
  unfold assertRankCap. destruct a as [ar|]; [|split; [done|by intros (? & ? & ?)]].
  destruct (Z.ltb_spec (ROLE_RANK ar) (ROLE_RANK r)); split; try done.
  - intros (? & [= <-] & ?). lia.
  - intros _. exists ar. split; [done|lia].
Qed.

Lemma assertRoleAssignable_ok r : assertRoleAssignable r = Ok tt <-> ASSIGNABLE r = true.
Proof. unfold assertRoleAssignable. destruct (ASSIGNABLE r); split; congruence. Qed.

Lemma rbind_unit_ok {E} (m k : result E unit) : (m ;;! k) = Ok tt <-> m = Ok tt /\ k = Ok tt.
Proof. destruct m as [[]|]; simpl; naive_solver. Qed.

Lemma role_change_ok actor t r m :
  assertRoleChangeAllowed actor t r m = Ok tt <->
  ga_id actor <> Some (gt_id t) /\ gt_role t <> owner /\
  (exists ar, ga_role actor = Some ar /\ ROLE_RANK r <= ROLE_RANK ar) /\ ASSIGNABLE r = true.
Proof.
  unfold assertRoleChangeAllowed.
  by rewrite !rbind_unit_ok, assertNotSelf_ok, assertTargetNotOwner_ok, assertRankCap_ok, assertRoleAssignable_ok.
Qed.

Lemma removal_ok actor t :
  assertRemovalAllowed actor t = Ok tt <-> ga_id actor <> Some (gt_id t) /\ gt_role t <> owner.
Proof. unfold assertRemovalAllowed. by rewrite rbind_unit_ok, assertNotSelf_ok, assertTargetNotOwner_ok. Qed.

Lemma create_ok a r m :
  assertAssignableForCreate a r m = Ok tt <->
  (exists ar, a = Some ar /\ ROLE_RANK r <= ROLE_RANK ar) /\ ASSIGNABLE r = true.
Proof. unfold assertAssignableForCreate. by rewrite rbind_unit_ok, assertRankCap_ok, assertRoleAssignable_ok. Qed.

Lemma unit_ok {E} (v : result E unit) u : v = Ok u -> v = Ok tt.
Proof. by destruct u. Qed.

Lemma assignable_not_owner r : ASSIGNABLE r = true -> r <> owner.
Proof. by intros H ->. Qed.

(** ** The in-transaction invariants *)

Lemma count_pos (p : User -> bool) (d : Directory) : count p d <> 0%nat -> exists id u, d !! id = Some u /\ p u = true.
Proof.
  unfold count. intros Hc. destruct (decide (filter (fun kv => p kv.2 = true) d = ∅)) as [He|He].
  - rewrite He, map_size_empty in Hc. done.
  - apply map_choose in He as (id & u & Hu). apply map_lookup_filter_Some in Hu as [??]. eauto.
Qed.

Lemma last_operator_ok (u : User) (d d' : Directory) (x : unit) :
  directory_wf d -> assertNotLastOperator u d = (d', Ok x) ->
  d' = d /\ (us_status u = ACTIVE -> exists id' v, id' <> us_id u /\ d !! id' = Some v /\ operator v = true).
Proof.
  unfold assertNotLastOperator. intros Hwf. case_bool_decide as Hs.
  { intros [= <- <-]. split; [done|congruence]. }
  unfold hbind, hget. simpl. destruct (Nat.eqb_spec (count (fun u0 => operator u0 && negb (bool_decide (us_id u0 = us_id u))) d) 0) as [|Hn];
    [done|]. intros [= <- <-]. split; [done|]. intros _.
  destruct (count_pos _ _ Hn) as (id & v & Hv & Ho). apply andb_prop in Ho as [Ho Hne].
  exists id, v. split_and!; [|done|done]. apply negb_true_iff, bool_decide_eq_false in Hne.
  intros ->. apply Hne. symmetry. by rewrite (Hwf _ _ Hv).
Qed.

Lemma last_owner_same (b : bool) (d d' : Directory) (x : unit) : assertNotLastOwner b d = (d', Ok x) -> d' = d.
Proof. unfold assertNotLastOwner, hbind, hget, hret, hthrow. intros H. by boom. Qed.

Lemma operator_spec (u : User) : operator u = true <-> ADMIN_TIER (us_role u) = true /\ us_status u = ACTIVE.
Proof. unfold operator. rewrite andb_true_iff, bool_decide_eq_true. done. Qed.

Definition another_operator (d : Directory) (id : jsstr) : Prop :=
  exists id' v, id' <> id /\ d !! id' = Some v /\ operator v = true.

Lemma role_invariants_ok (u : User) r (d d' : Directory) (x : unit) :
  directory_wf d -> assertRoleChangeInvariantsTx u r d = (d', Ok x) ->
  d' = d /\ (operator u = true -> ADMIN_TIER r = true \/ another_operator d (us_id u)).
Proof.
  intros Hwf. unfold assertRoleChangeInvariantsTx. rewrite hbind_ok. intros ([] & d1 & H1 & H2).
  apply last_owner_same in H1 as ->. rewrite operator_spec.
  destruct (ADMIN_TIER (us_role u)), (ADMIN_TIER r); simpl in H2.
  - injection H2 as <- _. auto.
  - destruct (last_operator_ok _ _ _ _ Hwf H2) as [-> Ho]. split; [done|]. intros [_ Ha]. right. by apply Ho.
  - injection H2 as <- _. auto.
  - injection H2 as <- _. split; [done|]. by intros [? _].
Qed.

Lemma disable_invariants_ok (u : User) (d d' : Directory) (x : unit) :
  directory_wf d -> assertDisableInvariantsTx u d = (d', Ok x) ->
  d' = d /\ (operator u = true -> another_operator d (us_id u)).
Proof.
  intros Hwf. unfold assertDisableInvariantsTx. rewrite operator_spec. destruct (ADMIN_TIER (us_role u)).
  - intros H. destruct (last_operator_ok _ _ _ _ Hwf H) as [-> Ho]. split; [done|]. intros [_ Ha]. by apply Ho.
  - intros [= <- _]. split; [done|]. by intros [? _].
Qed.

Lemma removal_invariants_ok (u : User) (d d' : Directory) (x : unit) :
  directory_wf d -> assertRemovalInvariantsTx u d = (d', Ok x) ->
  d' = d /\ (operator u = true -> another_operator d (us_id u)).
Proof.
  intros Hwf. unfold assertRemovalInvariantsTx. rewrite hbind_ok. intros ([] & d1 & H1 & H2).
  apply last_owner_same in H1 as ->. by apply (disable_invariants_ok u _ _ x).
Qed.

(** ** Each transaction is one write *)

Lemma user_update_ok id p f (d d' : Directory) (u' : User) :
  user_update id p f d = (d', Ok u') ->
  exists u, d !! id = Some u /\ p u = true /\ u' = f u /\ d' = <[id := f u]> d.
Proof.
  unfold user_update. destruct (d !! id) as [u|] eqn:Hu; [|done]. destruct (p u) eqn:Hp; [|done].
  intros [= <- <-]. eauto.
Qed.

Lemma user_updateMany_ok id p f (d d' : Directory) n :
  user_updateMany id p f d = (d', Ok n) ->
  d' = d \/ exists u, d !! id = Some u /\ p u = true /\ d' = <[id := f u]> d.
Proof.
  unfold user_updateMany. destruct (d !! id) as [u|] eqn:Hu; [|intros [= <- _]; auto].
  destruct (p u) eqn:Hp; intros [= <- _]; [right|by left]. eauto.
Qed.

Lemma read_ok id (d d' : Directory) o : readGuardTargetTx id d = (d', Ok o) -> d' = d /\ o = d !! id.
Proof. by intros [= <- <-]. Qed.

(** A person who is not an owner, as the pending request sees them now. *)
Definition not_owner (d : Directory) (id : jsstr) : Prop := forall u, d !! id = Some u -> us_role u <> owner.

(** Open the re-read that starts a guarded transaction. *)
Ltac tx_open H u Hu :=
  apply hbind_ok in H as (? & ? & [-> ->]%read_ok & H);
  match type of H with context [match ?d !! ?id with Some _ => _ | None => _ end] =>
    destruct (d !! id) as [u|] eqn:Hu; [|done]
  end.

(** The invariants passed, then a pinned update of that row. *)
Ltac tx_row H u Hu Hwf invariants :=
  let H1 := fresh "H1" in let H2 := fresh "H2" in
  apply hbind_ok in H as (? & ? & H1 & H2); rename H2 into H;
  apply invariants in H1 as [-> ?]; [|done];
  apply hbind_ok in H as (? & ? & H & [= <- _]); rewrite ?(Hwf _ _ Hu) in H;
  apply user_update_ok in H as (? & ? & ? & -> & ->); simplify_eq.

Section transactions.
Context (K : Z) (d d' : Directory) (Hwf : directory_wf d).

(** A write of one row by a transaction whose invariants let the operator go. *)
Lemma row_write id (u u' : User) :
  d !! id = Some u -> not_owner d id -> us_id u' = us_id u ->
  (us_role u' = us_role u \/ may_give K (us_role u')) ->
  (operator u = true -> operator u' = true \/ another_operator d (us_id u)) ->
  write K d (<[id := u']> d).
Proof using Hwf.
  intros Hu Hno Hid Hr Ho. apply (w_row K d id u); auto. intros Hop.
  rewrite (Hwf _ _ Hu) in Ho. by apply Ho.
Qed.

(** A pinned update of the row a transaction re-read. *)
Lemma pinned_update id (u u' : User) (p : User -> bool) (f : User -> User) :
  d !! id = Some u -> user_update id p f d = (d', Ok u') -> p u = true /\ u' = f u /\ d' = <[id := f u]> d.
Proof using Type.
  intros Hu (u2 & Hu2 & Hp & -> & ->)%user_update_ok. rewrite Hu in Hu2. injection Hu2 as <-. done.
Qed.

Lemma set_role_write id r (u : User) :
  d !! id = Some u -> not_owner d id -> may_give K r ->
  (operator u = true -> ADMIN_TIER r = true \/ another_operator d (us_id u)) ->
  write K d (<[id := set_role r u]> d).
Proof using Hwf.
  intros Hu Hno Hg Ho. apply (row_write _ u); auto. rewrite !operator_spec in *. simpl. naive_solver.
Qed.

Lemma role_tx id r (a : User) :
  roleChangeTx id r d = (d', Ok a) -> not_owner d id -> may_give K r -> write K d d'.
Proof using Hwf.
  intros H Hno Hg. unfold roleChangeTx in H. tx_open H u Hu.
  apply hbind_ok in H as (? & ? & [-> Ho]%role_invariants_ok & H); [|done].
  destruct (pinned_update _ _ _ _ _ Hu H) as (_ & _ & ->). by apply set_role_write.
Qed.

Lemma scim_role_tx id r rule (a : bool) :
  scimRoleTx id r rule d = (d', Ok a) -> not_owner d id -> may_give K r -> d' = d \/ write K d d'.
Proof using Hwf.
  intros H Hno Hg. unfold scimRoleTx in H. tx_open H u Hu.
  destruct (applies rule r (us_role u)); simpl in H; [|injection H as <- _; by left]. right.
  tx_row H u Hu Hwf role_invariants_ok. by apply set_role_write.
Qed.

Lemma disable_tx id (a : unit) : disableTx id d = (d', Ok a) -> not_owner d id -> write K d d'.
Proof using Hwf.
  intros H Hno. unfold disableTx in H. tx_open H u Hu.
  tx_row H u Hu Hwf disable_invariants_ok. apply (row_write _ u); auto.
Qed.

Lemma scim_deactivate_tx id (a : User) :
  scimDeactivateTx id d = (d', Ok a) -> not_owner d id -> write K d d'.
Proof using Hwf.
  intros H Hno. unfold scimDeactivateTx in H. tx_open H u Hu.
  apply hbind_ok in H as (? & ? & [-> Ho]%disable_invariants_ok & H); [|done].
  destruct (pinned_update _ _ _ _ _ Hu H) as (_ & _ & ->). apply (row_write _ u); auto.
Qed.

Lemma schedule_tx id due by_ (a : unit) :
  scheduleTx id due by_ d = (d', Ok a) -> not_owner d id -> write K d d'.
Proof using Hwf.
  intros H Hno. unfold scheduleTx in H. tx_open H u Hu.
  tx_row H u Hu Hwf removal_invariants_ok. apply (row_write _ u); auto.
Qed.

Lemma handover_claim_tx id prior rcp t (a : unit) :
  handoverClaimTx id prior rcp t d = (d', Ok a) -> not_owner d id -> write K d d'.
Proof using Hwf.
  intros H Hno. unfold handoverClaimTx in H. tx_open H u Hu.
  apply hbind_ok in H as (? & ? & [-> Ho]%removal_invariants_ok & H); [|done].
  rewrite (Hwf _ _ Hu) in H.
  destruct (user_update id _ _ d) as [d1 [u1|[]]] eqn:E; [|done..]. injection H as <- _.
  apply user_update_ok in E as (u2 & Hu2 & Hp & -> & ->). simplify_eq.
  apply (row_write _ u); auto.
Qed.

Lemma handover_revoke_tx id t now by_ (a : unit) :
  handoverRevokeTx id t now by_ d = (d', Ok a) -> not_owner d id -> write K d d'.
Proof using Hwf.
  intros H Hno. unfold handoverRevokeTx in H. tx_open H u Hu.
  tx_row H u Hu Hwf removal_invariants_ok. apply (row_write _ u); auto.
Qed.

(** An [updateMany] that leaves role and status alone, of rows no owner has. *)
Lemma keeping_updateMany id p f n :
  user_updateMany id p f d = (d', Ok n) ->
  (forall u, d !! id = Some u -> p u = true -> us_role u <> owner) ->
  (forall u, us_id (f u) = us_id u /\ us_role (f u) = us_role u /\ us_status (f u) = us_status u) ->
  rtc (write K) d d'.
Proof using Hwf.
  intros [->|(u & Hu & Hp & ->)]%user_updateMany_ok Hno Hf; [apply rtc_refl|apply rtc_once].
  destruct (Hf u) as (Hid & Hr & Hs). apply (row_write _ u); auto.
  - intros v Hv. simplify_eq. by apply Hno.
  - rewrite !operator_spec, Hr, Hs. auto.
Qed.
End transactions.

(** ** Transactions that write several rows *)

Lemma write_wf K (d d' : Directory) : directory_wf d -> write K d d' -> directory_wf d'.
Proof.
  intros Hwf Hw j v Hv. destruct Hw as [id u u' Hu Hid ? ? ?|id u Hu|u Hu ?|id u Hu ? ?].
  1-3: apply lookup_insert_Some in Hv as [[<- <-]|[_ Hv]]; [|by apply Hwf].
  - rewrite Hid. by apply Hwf.
  - simpl. by apply Hwf.
  - done.
  - apply lookup_delete_Some in Hv as [_ Hv]. by apply Hwf.
Qed.

Lemma lift_verdict_ok {S} (v : verdict) (s s' : S) x : lift_verdict v s = (s', Ok x) -> s' = s /\ v = Ok tt.
Proof. destruct v as [[]|]; simpl; [intros [= <- _]; done|done]. Qed.

Lemma each_verdict_ok {A} (f : A -> verdict) (l : list A) (d d' : Directory) x :
  each (fun t => lift_verdict (f t)) l d = (d', Ok x) -> d' = d /\ Forall (fun t => f t = Ok tt) l.
Proof.
  revert d. induction l as [|t l IH]; simpl; intros d; [intros [= <- _]; done|].
  rewrite hbind_ok. intros (? & ? & [-> Hv]%lift_verdict_ok & H). apply IH in H as [-> ?]. auto.
Qed.

(** The rails an actor of rank at most [K] passed for a target. *)
Definition rank_of (a : option Role) : Z := match a with Some r => ROLE_RANK r | None => -2 end.

Lemma role_change_gives K actor t r m :
  rank_of (ga_role actor) <= K -> assertRoleChangeAllowed actor t r m = Ok tt -> gt_role t <> owner /\ may_give K r.
Proof.
  intros HK (_ & Hno & (ar & Har & Hr) & Ha)%role_change_ok. rewrite Har in HK. simpl in HK.
  split; [done|]. split; [done|lia].
Qed.

Lemma set_access_write K rid r (d : Directory) (t : User) x (d1 : Directory) :
  directory_wf d -> d !! us_id t = Some t -> us_role t <> owner -> may_give K r ->
  (run! assertRoleChangeInvariantsTx t r; run! user_update (us_id t) any_row (set_access rid r); hret tt) d
    = (d1, Ok x) ->
  d1 = <[us_id t := set_access rid r t]> d /\ write K d d1.
Proof.
  intros Hwf Ht Hno Hg H. apply hbind_ok in H as (? & ? & [-> Ho]%role_invariants_ok & H); [|done].
  apply hbind_ok in H as (? & ? & H & [= <- _]).
  apply user_update_ok in H as (u2 & Hu2 & _ & -> & ->). rewrite Ht in Hu2. injection Hu2 as <-.
  split; [done|]. apply (row_write K d Hwf _ t); auto.
  - by intros u Hu; simplify_eq.
  - rewrite !operator_spec in *. simpl. naive_solver.
Qed.

Lemma person_access_tx K (d d' : Directory) actor id rid r (a : User) :
  directory_wf d -> rank_of (ga_role actor) <= K -> personAccessTx actor id rid r d = (d', Ok a) -> write K d d'.
Proof.
  intros Hwf HK H. unfold personAccessTx in H. tx_open H u Hu. pose proof (Hwf _ _ Hu) as Hid.
  apply hbind_ok in H as (? & ? & [-> Hv]%lift_verdict_ok & H).
  destruct (role_change_gives K _ _ _ _ HK Hv) as [Hno Hg].
  apply hbind_ok in H as ([] & d1 & H1 & H). apply hbind_ok in H as (u' & d2 & H2 & [= -> _]).
  apply (set_access_write K rid r d u tt); auto; [by rewrite Hid|].
  unfold hbind. rewrite H1. by rewrite H2.
Qed.

Lemma assign_loop K rid r (ts : list User) (d d' : Directory) x :
  directory_wf d -> may_give K r -> NoDup (us_id <$> ts) ->
  Forall (fun t => d !! us_id t = Some t /\ us_role t <> owner) ts ->
  each (fun t => run! assertRoleChangeInvariantsTx t r;
                 run! user_update (us_id t) any_row (set_access rid r); hret tt) ts d = (d', Ok x) ->
  rtc (write K) d d'.
Proof.
  intros Hwf Hg. revert d Hwf. induction ts as [|t ts IH]; csimpl; intros d Hwf Hnd Hts H.
  { injection H as <- _. apply rtc_refl. }
  apply NoDup_cons in Hnd as [Hni Hnd]. apply Forall_cons in Hts as [[Ht Hno] Hts].
  apply hbind_ok in H as (y & d1 & H1 & H2).
  destruct (set_access_write K rid r d t y d1) as [-> Hw]; [done..|].
  eapply rtc_l; [exact Hw|]. eapply IH; eauto using write_wf.
  eapply Forall_impl; [apply Forall_and; split; [exact Hts|apply Forall_forall; intros v Hv; exact Hv]|].
  intros v [[Hv ?] Hin]. split; [|done]. rewrite lookup_insert_ne; [done|].
  intros Heq. apply Hni. rewrite Heq. by apply list_elem_of_fmap_2.
Qed.

Lemma found_rows (d : Directory) (ids : list jsstr) (f : User -> bool) :
  directory_wf d -> NoDup ids ->
  let ts := List.filter f (omap (fun id => d !! id) ids) in
  NoDup (us_id <$> ts) /\ Forall (fun t => us_id t ∈ ids /\ d !! us_id t = Some t) ts.
Proof.
  intros Hwf. simpl. induction ids as [|id ids IH]; csimpl; intros Hnd; [by split; constructor|].
  apply NoDup_cons in Hnd as [Hni Hnd]. destruct (IH Hnd) as [IH1 IH2].
  assert (Forall (fun t => us_id t ∈ id :: ids /\ d !! us_id t = Some t)
            (List.filter f (omap (fun id => d !! id) ids))) as IH2'.
  { eapply Forall_impl; [exact IH2|]. intros t [??]. split; [by constructor|done]. }
  destruct (d !! id) as [t|] eqn:Ht; csimpl; [|done]. destruct (f t); csimpl; [|done].
  pose proof (Hwf _ _ Ht) as Hid. split.
  - constructor; [|done]. rewrite Hid. intros (t' & Heq & Hin)%list_elem_of_fmap.
    rewrite Forall_forall in IH2. destruct (IH2 _ Hin) as [? _]. by rewrite <- Heq in *.
  - constructor; [|done]. rewrite Hid. split; [by left|done].
Qed.

Lemma assign_role_tx K (d d' : Directory) actor rid r ids (a : list User) :
  directory_wf d -> rank_of (ga_role actor) <= K -> assignRoleTx actor rid r ids d = (d', Ok a) ->
  rtc (write K) d d'.
Proof.
  intros Hwf HK H. unfold assignRoleTx in H. apply hbind_ok in H as (? & ? & [= <- <-] & H). case_match; [done|].
  destruct (found_rows d (remove_dups ids) (assign_changes rid r) Hwf (NoDup_remove_dups _)) as [Hnd Hts].
  apply hbind_ok in H as (? & ? & [-> Hv]%each_verdict_ok & H).
  apply hbind_ok in H as (? & ? & H & [= <- _]).
  destruct (List.filter _ _) as [|t ts] eqn:Ets; [injection H as <- _; apply rtc_refl|]. rewrite <- Ets in *. clear Ets.
  assert (Hg : forall v, v ∈ List.filter (assign_changes rid r) (omap (fun id => d !! id) (remove_dups ids)) ->
            us_role v <> owner /\ may_give K r).
  { intros v Hin. rewrite Forall_forall in Hv. apply (role_change_gives K _ _ _ _ HK (Hv v Hin)). }
  destruct (List.filter _ _) as [|t0 ts0] eqn:Ets; [injection H as <- _; apply rtc_refl|].
  eapply assign_loop; [done| |exact Hnd| |exact H].
  - apply (Hg t0). by left.
  - apply Forall_forall. intros v Hin. rewrite Forall_forall in Hts.
    split; [by apply Hts|by apply Hg].
Qed.

(** ** The invariant *)

Definition target_id (p : pending) : jsstr :=
  match p with
  | PRole id _ | PDisable id | PScimDeactivate id | PScimRole id _ _ | PSchedule id _ _
  | PClaim id _ _ _ _ | PRevoke id _ _ _ => id
  | PReactivate u | PStale u => us_id u
  end.

(** What a request that passed its rails may still do. *)
Definition pending_ok (K : Z) (d : Directory) (p : pending) : Prop :=
  not_owner d (target_id p) /\
  match p with PRole _ r | PScimRole _ r _ => may_give K r | _ => True end.

(** Nobody is removing an owner. *)
Definition owners_settled (d : Directory) : Prop :=
  forall id u, d !! id = Some u -> us_role u = owner -> us_deletion u = NONE.

Record Inv (K : Z) (s : state) : Prop := {
  inv_wf : directory_wf (dir s);
  inv_settled : owners_settled (dir s);
  inv_pend : forall n p, pend s !! n = Some p -> pending_ok K (dir s) p
}.

(** The rank of the person behind an event; SCIM acts as an admin. *)
Definition actor_rank (ev : event) : Z :=
  match ev with
  | EBegin _ (QRole a _ _) | EAccess a _ _ _ | EAssign a _ _ _ => rank_of (ga_role a)
  | EBegin _ (QScimRole _ _ _) => rank_of (ga_role SCIM_ACTOR)
  | ECreate a _ => rank_of a
  | _ => -2
  end.

Lemma write_settled K (d d' : Directory) : owners_settled d -> write K d d' -> owners_settled d'.
Proof.
  intros Hs Hw j v Hv Ho. destruct Hw as [id u u' Hu Hid Hno Hr ?|id u Hu|u Hu [Ha _]|id u Hu ? ?].
  1-3: apply lookup_insert_Some in Hv as [[<- <-]|[_ Hv]]; [|by eapply Hs].
  - exfalso. destruct Hr as [Hr|[Ha _]]; [congruence|]. by apply assignable_not_owner in Ha.
  - by apply (Hs id u).
  - by apply assignable_not_owner in Ha.
  - apply lookup_delete_Some in Hv as [_ Hv]. by eapply Hs.
Qed.

Lemma write_not_owner K (d d' : Directory) id : write K d d' -> not_owner d id -> not_owner d' id.
Proof.
  intros Hw Hno v Hv. destruct Hw as [j u u' Hu Hid Hn Hr ?|j u Hu|u Hu [Ha _]|j u Hu ? ?].
  1-3: apply lookup_insert_Some in Hv as [[<- <-]|[_ Hv]]; [|by apply Hno].
  - destruct Hr as [->|[Ha _]]; [done|by apply assignable_not_owner].
  - by apply (Hno u).
  - by apply assignable_not_owner.
  - apply lookup_delete_Some in Hv as [_ Hv]. by apply Hno.
Qed.

Lemma writes_keep K (d d' : Directory) :
  rtc (write K) d d' -> directory_wf d -> owners_settled d ->
  directory_wf d' /\ owners_settled d' /\ (forall p, pending_ok K d p -> pending_ok K d' p).
Proof.
  induction 1 as [|d d1 d' Hw _ IH]; intros Hwf Hs; [done|].
  destruct IH as (? & ? & Hp); [by eapply write_wf|by eapply write_settled|]. split_and!; [done..|].
  intros p [Hno Hr]. apply Hp. split; [by eapply write_not_owner|done].
Qed.

Lemma enable_tx K (d d' : Directory) id p n :
  user_updateMany id p (set_status ACTIVE) d = (d', Ok n) -> rtc (write K) d d'.
Proof. intros [->|(u & Hu & _ & ->)]%user_updateMany_ok; [apply rtc_refl|]. by apply rtc_once, w_enable. Qed.

Lemma commit_writes K (d d' : Directory) p now o :
  directory_wf d -> pending_ok K d p -> commit p now d = (d', Ok o) ->
  rtc (write K) d d' /\ (forall p', o = Some p' -> target_id p' = target_id p /\ forall d0, not_owner d0 (target_id p') -> pending_ok K d0 p').
Proof.
  intros Hwf [Hno Hr] H.
  destruct p; simpl in *; apply hbind_ok in H as (a & d1 & H & [= <- <-]); (split; [|intros p' Hp; simplify_eq; try by repeat split]).
  - eapply rtc_once, role_tx; eauto.
  - eapply rtc_once, disable_tx; eauto.
  - eapply rtc_once, scim_deactivate_tx; eauto.
  - unfold reactivateTx in H. apply hbind_ok in H as (n & d2 & H & H2). apply (enable_tx K) in H. destruct (Nat.eqb n 0); simpl in H2; [done|]. by injection H2 as <- _.
  - destruct (scim_role_tx K d d1 Hwf _ _ _ _ H Hno Hr) as [->|?]; [apply rtc_refl|by apply rtc_once].
  - eapply rtc_once, schedule_tx; eauto.
  - eapply rtc_once, handover_claim_tx; eauto.
  - eapply rtc_once, handover_revoke_tx; eauto.
  - eapply (keeping_updateMany K); eauto.
Qed.

Lemma begin_ok K s q p n :
  Inv K s -> actor_rank (EBegin n q) <= K -> begin q (dir s) = Some p -> pending_ok K (dir s) p.
Proof.
  intros [Hwf Hs _] HK. destruct s as [d pd]. simpl in *.
  destruct q as [actor id r|actor id|id|id|id r rule|actor id by_ now|actor id rc by_ t|id now]; simpl.
  - unfold prepareRoleChange. destruct (refuse_if _); simpl; [|done]. destruct (d !! id) as [u|] eqn:Hu; [|done].
    case_bool_decide; [done|].
    destruct (assertRoleChangeAllowed _ _ _ _) as [[]|] eqn:Hv; simpl; [|done]. intros [= <-].
    destruct (role_change_gives K _ _ _ _ HK Hv) as [Hno Hg]. split; [|done]. by intros v ?; simplify_eq/=.
  - destruct (d !! id) as [u|] eqn:Hu; [|done]. simpl.
    destruct (assertDisableAllowed _ _) as [[]|] eqn:Hv; [|done]. intros [= <-].
    apply removal_ok in Hv as [_ Hno]. split; [|done]. by intros v ?; simplify_eq/=.
  - unfold prepareScimDeactivate. destruct (d !! id) as [u|] eqn:Hu; [|done].
    destruct (assertDisableAllowed _ _) as [[]|] eqn:Hv; simpl; [|done]. intros [= <-].
    apply removal_ok in Hv as [_ Hno]. split; [|done]. by intros v ?; simplify_eq/=.
  - unfold prepareReactivate. destruct (d !! id) as [u|] eqn:Hu; [|done]. case_bool_decide; [done|].
    destruct (isOperatorTier (us_role u)) eqn:Ho; [done|]. intros [= <-]. split; [|done]. simpl.
    rewrite (Hwf _ _ Hu). intros v ?. simplify_eq. by intros Hr; rewrite Hr in Ho.
  - unfold prepareScimRole. destruct (d !! id) as [u|] eqn:Hu; [|done]. destruct (applies rule r (us_role u)); simpl; [|done].
    destruct (assertRoleChangeAllowed _ _ _ _) as [[]|] eqn:Hv; simpl; [|done]. intros [= <-].
    destruct (role_change_gives K SCIM_ACTOR _ _ _ HK Hv) as [Hno Hg]. split; [|done]. by intros v ?; simplify_eq/=.
  - destruct (d !! id) as [u|] eqn:Hu; [|done]. simpl. unfold prepareSchedule. destruct (us_deletion u); [|done..].
    destruct (assertRemovalAllowed _ _) as [[]|] eqn:Hv; simpl; [|done]. intros [= <-].
    apply removal_ok in Hv as [_ Hno]. split; [|done]. by intros v ?; simplify_eq/=.
  - destruct (d !! id) as [u|] eqn:Hu; [|done]. simpl. intros H.
    destruct (prepareHandover _ _ _ _) as [[[[? ?] ?] ?]|] eqn:Hp; [|done]. injection H as <-.
    unfold prepareHandover in Hp. destruct (present rc); [|done].
    apply rbind_ok in Hp as (_ & _ & Hp). apply rbind_ok in Hp as ([] & Hv & _).
    apply refuse_if_ok, removal_ok in Hv as [_ Hno]. split; [|done]. by intros v ?; simplify_eq/=.
  - destruct (d !! id) as [u|] eqn:Hu; [|done]. simpl. destruct (stale now u) eqn:Hst; [|done]. intros [= <-].
    split; [|done]. simpl. rewrite (Hwf _ _ Hu). intros v ? Ho. simplify_eq.
    apply andb_prop in Hst as [Hd%bool_decide_eq_true _]. by rewrite (Hs _ _ Hu Ho) in Hd.
Qed.

Lemma committed_writes {A} K (m : DB A) (d : Directory) :
  (forall d' a, m d = (d', Ok a) -> rtc (write K) d d') -> rtc (write K) d (committed m d).
Proof. intros H. unfold committed. destruct (m d) as [d' [a|e]]; [by eapply H|apply rtc_refl]. Qed.

(** The writes are done; the requests that wait are those of [s], one of them
    possibly replaced by an admissible one or dropped. *)
Lemma inv_after K s d' pd :
  Inv K s -> rtc (write K) (dir s) d' ->
  (forall n p, pd !! n = Some p -> pend s !! n = Some p \/ pending_ok K d' p) -> Inv K (mkState d' pd).
Proof.
  intros [Hwf Hs Hp] Hw Hpd. destruct (writes_keep K _ _ Hw Hwf Hs) as (? & ? & Hk). split; [done..|].
  intros n p Hn. destruct (Hpd n p Hn) as [Ho|Ho]; [|done]. apply Hk. by eapply Hp.
Qed.

Lemma dropped_pending n (s : state) m p : delete n (pend s) !! m = Some p -> pend s !! m = Some p.
Proof. by intros [_ ?]%lookup_delete_Some. Qed.

Lemma settled_ne (d : Directory) id u : owners_settled d -> d !! id = Some u -> us_deletion u <> NONE -> us_role u <> owner.
Proof. intros Hs Hu Hd Ho. by apply Hd, (Hs id). Qed.

(** Every event is a sequence of admissible writes of the directory. *)
Lemma event_writes K s ev :
  Inv K s -> actor_rank ev <= K -> rtc (write K) (dir s) (dir (step s ev)).
Proof.
  intros [Hwf Hs Hp] HK. destruct ev as [n q|n now|n|n|id|id|a id rid r|a rid r ids|a u|id now t|id]; simpl.
  - case_match; apply rtc_refl.
  - destruct (pend s !! n) as [p|] eqn:Hn; [|apply rtc_refl].
    destruct (commit p now (dir s)) as [d' [o|e]] eqn:Hc; [|apply rtc_refl].
    destruct (commit_writes K _ _ _ _ _ Hwf (Hp _ _ Hn) Hc) as [? _]. by destruct o.
  - destruct (pend s !! n) as [p|] eqn:Hn; [|apply rtc_refl]. destruct p as [| | | | | | |id prior by_ t|];
      try apply rtc_refl. simpl. apply committed_writes. intros d' a H. eapply (keeping_updateMany K); eauto.
    intros u Hu _. by apply (Hp _ _ Hn).
  - apply rtc_refl.
  - apply committed_writes. intros d' x H. by apply (enable_tx K) in H.
  - apply committed_writes. intros d' x H. eapply (keeping_updateMany K); eauto.
    intros u Hu Hd%bool_decide_eq_true. eapply settled_ne; eauto. by rewrite Hd.
  - apply committed_writes. intros d' x H. by eapply rtc_once, person_access_tx.
  - apply committed_writes. intros d' x H. by eapply assign_role_tx.
  - destruct (assertAssignableForCreate _ _ _) as [[]|] eqn:Hv; [|apply rtc_refl].
    destruct (dir s !! us_id u) eqn:Hu; [apply rtc_refl|]. simpl. apply rtc_once, w_create; [done|].
    apply create_ok in Hv as [(ar & -> & Hr) Ha]. simpl in HK. split; [done|lia].
  - apply committed_writes. intros d' x H. eapply (keeping_updateMany K); eauto.
    intros u Hu Hd. eapply settled_ne; eauto. unfold due in Hd. intros Hz. rewrite Hz in Hd.
    by rewrite !andb_true_iff, orb_true_iff, !andb_true_iff in Hd; destruct Hd as [_ [[? _]|[? _]]].
  - apply committed_writes. intros d' x H. unfold removeRowTx in H.
    destruct (dir s !! id) as [u|] eqn:Hu; [|injection H as <- _; apply rtc_refl].
    destruct (purging u) eqn:Hpu; injection H as <- _; [|apply rtc_refl].
    apply andb_prop in Hpu as [?%bool_decide_eq_true ?%bool_decide_eq_true]. by eapply rtc_once, w_remove.
Qed.

Lemma event_inv K s ev : Inv K s -> actor_rank ev <= K -> Inv K (step s ev).
Proof.
  intros Hi HK. pose proof (event_writes K s ev Hi HK) as Hw.
  assert (Hkeep : forall d', rtc (write K) (dir s) d' -> Inv K (mkState d' (pend s)))
    by (intros; by apply (inv_after K s); auto).
  assert (Hdrop : forall n d', rtc (write K) (dir s) d' -> Inv K (mkState d' (delete n (pend s))))
    by (intros; apply (inv_after K s); auto; intros m p Hm; left; by eapply dropped_pending).
  destruct ev as [n q|n now|n|n| | | | |a u| |]; simpl in *; auto.
  - destruct (begin q (dir s)) as [p|] eqn:Hb; [|done]. apply (inv_after K s); [done..|].
    intros m p' [[<- <-]|[_ ?]]%lookup_insert_Some; [right|by left]. by eapply (begin_ok K s q p n).
  - destruct (pend s !! n) as [p|] eqn:Hn; [|done].
    destruct (commit p now (dir s)) as [d' [[p'|]|e]] eqn:Hc; auto.
    destruct Hi as [Hwf Hs Hp]. pose proof (Hp _ _ Hn) as Hpn.
    destruct (commit_writes K _ _ _ _ _ Hwf Hpn Hc) as [_ Hnext].
    destruct (Hnext p' eq_refl) as [Ht Hok]. apply (inv_after K s); [done..|].
    intros m p2 [[<- <-]|[_ ?]]%lookup_insert_Some; [right|by left]. apply Hok. rewrite Ht.
    destruct (writes_keep K _ _ Hw Hwf Hs) as (_ & _ & Hk). apply (Hk p Hpn).
  - destruct (pend s !! n) as [[]|]; simpl in *; auto.
  - destruct (assertAssignableForCreate _ _ _); [|done]. by destruct (dir s !! us_id u); auto.
Qed.

Lemma run_writes K s evs :
  Inv K s -> Forall (fun ev => actor_rank ev <= K) evs ->
  rtc (write K) (dir s) (dir (run s evs)) /\ Inv K (run s evs).
Proof.
  revert s. induction evs as [|ev evs IH]; simpl; intros s Hi Hevs; [split; [apply rtc_refl|done]|].
  apply Forall_cons in Hevs as [HK Hevs]. destruct (IH (step s ev)) as [??]; [by apply event_inv|done|].
  split; [|done]. etransitivity; [by apply event_writes|done].
Qed.

(** ** What every run preserves *)

Lemma actor_rank_max ev : actor_rank ev <= 3.
Proof.
  assert (forall o, rank_of o <= 3) as H by (by intros [[]|]; vm_compute).
  destruct ev as [n []| | | | | | | | | |]; simpl; try done; apply H.
Qed.

Definition start (d : Directory) : state := mkState d ∅.

Lemma start_inv K d : directory_wf d -> owners_settled d -> Inv K (start d).
Proof. intros ??. split; [done..|]. intros n p. simpl. by rewrite lookup_empty. Qed.

Lemma run_from K d evs :
  directory_wf d -> owners_settled d -> Forall (fun ev => actor_rank ev <= K) evs ->
  rtc (write K) d (dir (run (start d) evs)).
Proof. intros ?? He. by apply (run_writes K (start d) evs (start_inv K d ltac:(done) ltac:(done)) He). Qed.

Lemma any_run d evs : directory_wf d -> owners_settled d -> rtc (write 3) d (dir (run (start d) evs)).
Proof. intros ??. apply run_from; [done..|]. apply Forall_forall. intros ev _. apply actor_rank_max. Qed.

(** An owner's row: untouched, or switched back on. *)
Definition same_owner (u u' : User) : Prop := u' = u \/ u' = set_status ACTIVE u.

Lemma write_keeps_owner K (d d' : Directory) id u :
  owners_settled d -> write K d d' -> d !! id = Some u -> us_role u = owner ->
  exists u', d' !! id = Some u' /\ us_role u' = owner /\ same_owner u u'.
Proof.
  intros Hs Hw Hu Ho. destruct Hw as [j v v' Hv Hid Hno Hr ?|j v Hv|v Hv [Ha _]|j v Hv ? Hd].
  - assert (j <> id) by (intros ->; simplify_eq). rewrite lookup_insert_ne; [|done].
    exists u. split_and!; [done..|]. by left.
  - destruct (decide (j = id)) as [->|]; [|rewrite lookup_insert_ne by done; exists u; split_and!; [done..|by left]].
    simplify_eq. rewrite lookup_insert_eq. exists (set_status ACTIVE v). split_and!; [done..|]. by right.
  - assert (us_id v <> id) by (intros <-; simplify_eq). rewrite lookup_insert_ne; [|done].
    exists u. split_and!; [done..|]. by left.
  - assert (j <> id). { intros ->. rewrite Hv in Hu. injection Hu as ->. by rewrite (Hs _ _ Hv Ho) in Hd. }
    rewrite lookup_delete_ne; [|done]. exists u. split_and!; [done..|]. by left.
Qed.

Lemma same_owner_trans u v w : same_owner u v -> same_owner v w -> same_owner u w.
Proof. unfold same_owner. intros [->| ->] [->| ->]; auto. Qed.

Lemma writes_keep_owner K (d d' : Directory) id u :
  rtc (write K) d d' -> owners_settled d -> d !! id = Some u -> us_role u = owner ->
  exists u', d' !! id = Some u' /\ same_owner u u'.
Proof.
  intros Hw. revert u. induction Hw as [d|d d1 d' Hw _ IH]; intros u Hs Hu Ho; [exists u; split; [done|by left]|].
  destruct (write_keeps_owner K d d1 id u Hs Hw Hu Ho) as (u1 & Hu1 & Ho1 & Hr1).
  destruct (IH u1 (write_settled K _ _ Hs Hw) Hu1 Ho1) as (u' & Hu' & Hr'). eauto using same_owner_trans.
Qed.

Lemma writes_no_new_owner K (d d' : Directory) id : rtc (write K) d d' -> not_owner d id -> not_owner d' id.
Proof. induction 1; eauto using write_not_owner. Qed.

Definition an_operator (d : Directory) : Prop := exists id u, d !! id = Some u /\ operator u = true.

Lemma write_keeps_operator K (d d' : Directory) : write K d d' -> an_operator d -> an_operator d'.
Proof.
  intros Hw (j & v & Hv & Ho). destruct Hw as [id u u' Hu Hid ? ? Hl|id u Hu|u Hu ?|id u Hu Hs ?].
  - destruct (decide (id = j)) as [->|]; [|exists j, v; by rewrite lookup_insert_ne by done].
    simplify_eq. destruct (Hl Ho) as [Ho'|(j' & v' & ? & ? & ?)].
    + exists j, u'. by rewrite lookup_insert_eq.
    + exists j', v'. by rewrite lookup_insert_ne by done.
  - destruct (decide (id = j)) as [->|]; [|exists j, v; by rewrite lookup_insert_ne by done].
    simplify_eq. exists j, (set_status ACTIVE u). rewrite lookup_insert_eq, operator_spec. split; [done|].
    apply operator_spec in Ho as [? _]. done.
  - exists j, v. rewrite lookup_insert_ne; [done|]. intros <-. simplify_eq.
  - exists j, v. rewrite lookup_delete_ne; [done|]. intros ->. simplify_eq.
    apply operator_spec in Ho as [_ ?]. congruence.
Qed.

(** What a role may have become: what it was, or one an actor may give. *)
Lemma write_role_bound K (d d' : Directory) id u' :
  write K d d' -> d' !! id = Some u' ->
  (exists u, d !! id = Some u /\ us_role u = us_role u') \/ may_give K (us_role u').
Proof.
  intros Hw Hu'. destruct Hw as [j v v' Hv Hid Hno Hr ?|j v Hv|v Hv Hg|j v Hv ? Hd].
  - apply lookup_insert_Some in Hu' as [[<- <-]|[_ ?]]; [|eauto]. destruct Hr as [Hr|?]; [|auto]. left. eauto.
  - apply lookup_insert_Some in Hu' as [[<- <-]|[_ ?]]; eauto.
  - apply lookup_insert_Some in Hu' as [[<- <-]|[_ ?]]; eauto.
  - apply lookup_delete_Some in Hu' as [_ ?]; eauto.
Qed.

Lemma writes_role_bound K (d d' : Directory) id u' :
  rtc (write K) d d' -> d' !! id = Some u' ->
  (exists u, d !! id = Some u /\ us_role u = us_role u') \/ may_give K (us_role u').
Proof.
  induction 1 as [d|d d1 d' Hw _ IH]; intros Hu'; [eauto|].
  destruct (IH Hu') as [(u & Hu & Hr)|?]; [|auto]. rewrite <- Hr. by apply (write_role_bound K d d1 id).
Qed.

(** ** Handlers that keep a predicate of the state, whatever they answer *)

Section keeps.
Context {S E : Type} (P : S -> Prop).

Definition keeps {A} (m : handler S E A) : Prop := forall s, P s -> P (m s).1.

Lemma keeps_ret {A} (a : A) : keeps (hret a).
Proof. by intros s. Qed.
Lemma keeps_throw {A} e : keeps (hthrow e : handler S E A).
Proof. by intros s. Qed.
Lemma keeps_get : keeps hget.
Proof. by intros s. Qed.
Lemma keeps_bind {A B} (m : handler S E A) (f : A -> handler S E B) :
  keeps m -> (forall a, keeps (f a)) -> keeps (hbind m f).
Proof.
  intros Hm Hf s Hs. unfold hbind. specialize (Hm s Hs). destruct (m s) as [s' [a|e]]; [by apply Hf|done].
Qed.
End keeps.

Create HintDb keeps discriminated.
#[export] Hint Resolve keeps_ret keeps_throw keeps_get keeps_bind : keeps.

Section retention.
Context (id : jsstr) (dueAt : Z).

(** The person's row while their files are kept. *)
Definition held (u : User) : Prop :=
  us_deletion u = PENDING /\ us_dueAt u = Some dueAt /\ us_status u = DEACTIVATED.
Definition kept (d : Directory) : Prop := exists u, d !! id = Some u /\ held u.

(** A write that leaves a held row held. *)
Lemma kept_insert (d : Directory) j (u : User) (f : User -> User) :
  kept d -> d !! j = Some u -> (held u -> held (f u)) -> kept (<[j := f u]> d).
Proof.
  intros (v & Hv & Hh) Hu Hf. destruct (decide (j = id)) as [->|].
  - assert (v = u) as -> by congruence. exists (f u). rewrite lookup_insert_eq. auto.
  - exists v. by rewrite lookup_insert_ne.
Qed.

Lemma keeps_update j p f : (forall u, held u -> p u = true -> held (f u)) -> keeps kept (user_update j p f).
Proof.
  intros Hf d Hd. unfold user_update. destruct (d !! j) as [u|] eqn:Hu; [|done].
  destruct (p u) eqn:Hp; [|done]. apply kept_insert; auto.
Qed.

Lemma keeps_updateMany j p f :
  (forall u, held u -> p u = true -> held (f u)) -> keeps kept (user_updateMany j p f).
Proof.
  intros Hf d Hd. unfold user_updateMany. destruct (d !! j) as [u|] eqn:Hu; [|done].
  destruct (p u) eqn:Hp; [|done]. apply kept_insert; auto.
Qed.

Lemma keeps_read j : keeps kept (readGuardTargetTx j).
Proof. by intros d. Qed.

Lemma keeps_verdict v : keeps kept (lift_verdict v).
Proof. destruct v; by intros d Hd. Qed.

Lemma keeps_last_operator u : keeps kept (assertNotLastOperator u).
Proof. unfold assertNotLastOperator. intros d Hd. unfold hbind, hget, hret, hthrow. by boom. Qed.

Lemma keeps_last_owner b : keeps kept (assertNotLastOwner b).
Proof. unfold assertNotLastOwner. intros d Hd. unfold hbind, hget, hret, hthrow. by boom. Qed.

Lemma keeps_disable_invariants u : keeps kept (assertDisableInvariantsTx u).
Proof. unfold assertDisableInvariantsTx. case_match; auto using keeps_last_operator with keeps. Qed.

Lemma keeps_removal_invariants u : keeps kept (assertRemovalInvariantsTx u).
Proof.
  apply keeps_bind; [apply keeps_last_owner|]. intros _. apply keeps_disable_invariants.
Qed.

Lemma keeps_role_invariants u r : keeps kept (assertRoleChangeInvariantsTx u r).
Proof.
  apply keeps_bind; [apply keeps_last_owner|]. intros _. case_match; auto using keeps_last_operator with keeps.
Qed.
End retention.

#[export] Hint Resolve keeps_read keeps_verdict keeps_disable_invariants keeps_removal_invariants
  keeps_role_invariants : keeps.

(** Split a guarded transaction down to its update. *)
Ltac keep :=
  repeat first [solve [auto with keeps] | apply keeps_bind; [solve [auto with keeps]|intro] | case_match].

Lemma begin_claim q (d : Directory) j prior rc by_ t :
  begin q d = Some (PClaim j prior rc by_ t) -> exists a r b t', q = QHandover a j r b t'.
Proof.
  destruct q as [a id r|a id|id|id|id r rule|a id b now|a id r b t'|id now]; simpl.
  1,3,4,5: by destruct (_ : result _ _) as [[]|].
  all: destruct (d !! id) as [u|]; simpl; [|done].
  - by destruct (assertDisableAllowed _ _).
  - by destruct (prepareSchedule _ _) as [[]|].
  - destruct (prepareHandover _ _ _ _) as [[[[? ?] ?] ?]|]; [|done]. intros [= <- _ _ _ _]. eauto.
  - by destruct (stale now u).
Qed.

Section retention_run.
Context (id : jsstr) (dueAt : Z).
Local Abbreviation kept := (kept id dueAt).

Lemma held_not_deleting u : held dueAt u -> not_deleting u = false.
Proof. intros (Hd & _). unfold not_deleting. by rewrite Hd. Qed.

Lemma held_no_claim t u : held dueAt u -> holds_claim t u = false.
Proof. intros (Hd & _). unfold holds_claim. by rewrite Hd. Qed.

Definition no_claim_of (p : pending) : Prop := match p with PClaim j _ _ _ _ => j <> id | _ => True end.

Lemma kept_after_claim (d : Directory) j prior rc t :
  directory_wf d -> kept d -> j <> id -> kept (handoverClaimTx j prior rc t d).1.
Proof.
  intros Hwf Hd Hj. unfold handoverClaimTx, hbind. simpl. destruct (d !! j) as [f|] eqn:Hf; [|done].
  destruct (assertRemovalInvariantsTx f d) as [d1 [[]|e]] eqn:Hi; simpl.
  - apply removal_invariants_ok in Hi as [-> _]; [|done]. rewrite (Hwf _ _ Hf). unfold user_update. rewrite Hf.
    destruct (bool_decide _); [|done]. destruct Hd as (v & Hv & Hh). exists v. simpl. by rewrite lookup_insert_ne.
  - pose proof (keeps_removal_invariants id dueAt f d Hd) as H. by rewrite Hi in H.
Qed.

(** The updates of a held row that keep it held, or that its pins refuse. *)
Lemma held_role r u : held dueAt u -> held dueAt (set_role r u).
Proof. done. Qed.
Lemma held_access a r u : held dueAt u -> held dueAt (set_access a r u).
Proof. done. Qed.
Lemma held_off u : held dueAt u -> held dueAt (set_status DEACTIVATED u).
Proof. by intros (? & ? & _). Qed.

Lemma keeps_commit p now :
  match p with PClaim _ _ _ _ _ => True | _ => keeps kept (commit p now) end.
Proof.
  destruct p; simpl; try done; (apply keeps_bind; [|intros; apply keeps_ret]).
  - unfold roleChangeTx. keep. apply keeps_update. auto using held_role.
  - unfold disableTx. keep. apply keeps_bind; [|auto with keeps]. apply keeps_update. auto using held_off.
  - unfold scimDeactivateTx. keep. apply keeps_update. auto using held_off.
  - unfold reactivateTx. apply keeps_bind; [|intros; case_match; auto with keeps].
    apply keeps_updateMany. intros v Hv. rewrite (held_not_deleting v Hv), andb_false_r. done.
  - unfold scimRoleTx. keep. apply keeps_bind; [|auto with keeps]. apply keeps_update. auto using held_role.
  - unfold scheduleTx. keep. apply keeps_bind; [|auto with keeps]. apply keeps_update.
    intros v Hv. rewrite (held_not_deleting v Hv), andb_false_r. done.
  - unfold handoverRevokeTx. keep. apply keeps_bind; [|auto with keeps]. apply keeps_update.
    intros v Hv. rewrite (held_no_claim _ v Hv), andb_false_r. done.
  - unfold releaseStaleTx. apply keeps_updateMany. intros u Hu. by rewrite (held_no_claim _ u Hu).
Qed.

Lemma keeps_each {A} (f : A -> DB unit) l : (forall a, keeps kept (f a)) -> keeps kept (each f l).
Proof. intros Hf. induction l; simpl; auto with keeps. Qed.

Lemma kept_committed {A} (m : DB A) (d : Directory) : keeps kept m -> kept d -> kept (committed m d).
Proof. intros Hm Hd. unfold committed. specialize (Hm d Hd). by destruct (m d) as [d' [?|?]]. Qed.

(** An event that neither cancels the deletion, nor starts a hand-over of the
    person, nor claims them for the purge before the date. *)
Definition spares (ev : event) : Prop :=
  match ev with
  | EBegin _ (QHandover _ j _ _ _) | ECancel j => j <> id
  | EPurgeClaim j now _ => j = id -> now < dueAt
  | _ => True
  end.

Definition claims_elsewhere (s : state) : Prop := forall n p, pend s !! n = Some p -> no_claim_of p.

Lemma step_kept s ev :
  directory_wf (dir s) -> claims_elsewhere s -> spares ev -> kept (dir s) -> kept (dir (step s ev)).
Proof.
  intros Hwf Hc Hsp Hd. destruct ev as [n q|n now|n|n|j|j|a j rid r|a rid r ids|a u|j now t|j]; simpl in *.
  - by destruct (begin q (dir s)).
  - destruct (pend s !! n) as [p|] eqn:Hn; [|done]. pose proof (Hc _ _ Hn) as Hp.
    assert (kept (commit p now (dir s)).1) as Hk.
    { pose proof (keeps_commit p now) as H. destruct p; try by apply H. simpl. unfold hbind.
      pose proof (kept_after_claim _ _ prior recipient claimedAt Hwf Hd Hp) as H'.
      by destruct (handoverClaimTx _ _ _ _ _) as [d1 [?|?]]. }
    by destruct (commit p now (dir s)) as [d1 [[?|]|?]].
  - destruct (pend s !! n) as [[]|]; simpl; try done. apply kept_committed; [|done].
    apply keeps_updateMany. intros u Hu. by rewrite (held_no_claim _ u Hu).
  - done.
  - apply kept_committed; [|done]. apply keeps_updateMany. intros u Hu. by rewrite (held_not_deleting u Hu).
  - apply kept_committed; [|done]. intros d (v & Hv & Hh). unfold cancelTx, user_updateMany.
    destruct (d !! j); [|by exists v]. case_match; exists v; [simpl; by rewrite lookup_insert_ne|done].
  - apply kept_committed; [|done]. unfold personAccessTx. keep.
    apply keeps_bind; [|auto with keeps]. apply keeps_update. auto using held_access.
  - apply kept_committed; [|done]. unfold assignRoleTx. apply keeps_bind; [apply keeps_get|]. intros d.
    case_match; [auto with keeps|].
    apply keeps_bind; [apply keeps_each; auto with keeps|]. intros _.
    apply keeps_bind; [apply keeps_each; intros u; keep; apply keeps_bind; [|auto with keeps];
      apply keeps_update; auto using held_access|auto with keeps].
  - case_match; [|done]. destruct (dir s !! us_id u) eqn:Hu; [done|]. simpl.
    destruct Hd as (v & Hv & Hh). exists v. rewrite lookup_insert_ne; [done|]. intros Heq. congruence.
  - apply kept_committed; [|done]. intros d (v & Hv & Hh). unfold claimPurgeTx, user_updateMany.
    destruct (d !! j) as [u|] eqn:Hj; [|by exists v]. destruct (due now u) eqn:Hdue; [|by exists v].
    exists v. destruct (decide (j = id)) as [->|]; [exfalso|simpl; by rewrite lookup_insert_ne].
    simplify_eq. destruct Hh as (H1 & H2 & H3). unfold due in Hdue. rewrite H1, H2, H3 in Hdue. simpl in Hdue.
    rewrite orb_false_r in Hdue. apply Z.leb_le in Hdue. specialize (Hsp eq_refl). lia.
  - apply kept_committed; [|done]. intros d (v & Hv & Hh). unfold removeRowTx.
    destruct (d !! j) as [u|] eqn:Hj; [|by exists v]. destruct (purging u) eqn:Hpu; [|by exists v].
    exists v. split; [|done]. simpl. rewrite lookup_delete_ne; [done|]. intros ->. simplify_eq.
    apply andb_prop in Hpu as [_ Hpu%bool_decide_eq_true]. destruct Hh as (H1 & _). congruence.
Qed.

Lemma step_claims s ev : claims_elsewhere s -> spares ev -> claims_elsewhere (step s ev).
Proof.
  intros Hc Hsp.
  assert (Hdel : forall d n, claims_elsewhere (mkState d (delete n (pend s))))
    by (intros d n m p Hm; simpl in Hm; by eapply Hc, dropped_pending).
  destruct ev as [n q|n now|n|n| | | | |a u| |]; simpl in *; auto.
  - destruct (begin q (dir s)) as [p|] eqn:Hb; [|done].
    intros m p'. simpl. intros [[<- <-]|[_ ?]]%lookup_insert_Some; [|by eapply Hc].
    destruct p; try done. apply begin_claim in Hb as (? & ? & ? & ? & ->). done.
  - destruct (pend s !! n) as [p|] eqn:Hn; [|done].
    destruct (commit p now (dir s)) as [d' [[p'|]|e]] eqn:Hcm; auto.
    intros m p2. simpl. intros [[<- <-]|[_ ?]]%lookup_insert_Some; [|by eapply Hc].
    destruct p; simpl in Hcm; apply hbind_ok in Hcm as (? & ? & _ & [= _ <-]); done.
  - destruct (pend s !! n) as [[]|]; auto.
  - destruct (assertAssignableForCreate _ _ _); [|done]. by destruct (dir s !! us_id u).
Qed.
End retention_run.

(** ** Properties *)

(** C29. Nobody but the owner touches the owner. Whatever requests run, in any
    order and with any other commits between a request's first read and its
    transaction (role changes, disables, scheduled deletions, hand-overs, the
    SCIM push, bulk role assignment, the nightly removal), every owner row is
    at the end what it was at the start, or switched back on; and no row that
    was not an owner's has become one. *)
Theorem owner_untouchable (d : Directory) (evs : list event) :
  directory_wf d -> owners_settled d ->
  (forall id u, d !! id = Some u -> us_role u = owner ->
     exists u', dir (run (start d) evs) !! id = Some u' /\ same_owner u u') /\
  (forall id u', dir (run (start d) evs) !! id = Some u' -> us_role u' = owner ->
     exists u, d !! id = Some u /\ us_role u = owner).
Proof.
  intros Hwf Hs. pose proof (any_run d evs Hwf Hs) as Hw. split.
  - intros id u Hu Ho. by apply (writes_keep_owner 3 d _ id u).
  - intros id u' Hu' Ho. destruct (d !! id) as [u|] eqn:Hu.
    + exists u. split; [done|]. destruct (decide (us_role u = owner)) as [|Hn]; [done|exfalso].
      apply (writes_no_new_owner 3 d _ id Hw) in Hu'; [done|]. by intros v ?; simplify_eq.
    + exfalso. apply (writes_no_new_owner 3 d _ id Hw) in Hu'; [done|]. by intros v ?; simplify_eq.
Qed.

(** C30. Someone can always manage access. From a directory with at least one
    active owner or admin, no interleaving of demotions, disables, removals,
    hand-overs, SCIM pushes and nightly removals leaves it without one: two
    concurrent requests that each take one of the last two operators cannot
    both commit. *)
Theorem operator_remains (d : Directory) (evs : list event) :
  directory_wf d -> owners_settled d -> an_operator d -> an_operator (dir (run (start d) evs)).
Proof.
  intros Hwf Hs. pose proof (any_run d evs Hwf Hs) as Hw. induction Hw as [|d d1 d2 Hw _ IH]; [done|].
  intros Ho. apply IH; [by eapply write_wf|by eapply write_settled|by eapply write_keeps_operator].
Qed.

(** C31. No escalation. If every person who acts in a run has rank at most
    [K] (SCIM acts as an admin), then every role at the end is one the row had
    at the start, or an assignable role of rank at most [K]. *)
Theorem roles_bounded_by_actors (K : Z) (d : Directory) (evs : list event) id u' :
  directory_wf d -> owners_settled d -> Forall (fun ev => actor_rank ev <= K) evs ->
  dir (run (start d) evs) !! id = Some u' ->
  (exists u, d !! id = Some u /\ us_role u = us_role u') \/
  (us_role u' ∈ ASSIGNABLE_ROLES /\ ROLE_RANK (us_role u') <= K).
Proof.
  intros Hwf Hs He Hu'. destruct (writes_role_bound K d _ id u' (run_from K d evs Hwf Hs He) Hu') as [?|[Ha ?]].
  - by left.
  - right. split; [|done]. by apply bool_decide_eq_true in Ha.
Qed.

(** A scheduled deletion keeps the files until its date. Once a person is
    scheduled (PENDING, deactivated, due at [dueAt]), every run in which nobody
    cancels the deletion or hands the person over, and no nightly claim of
    them happens before [dueAt], leaves the row in place, still pending for
    that date and still deactivated. *)
Theorem kept_until_due (d : Directory) (evs : list event) id dueAt :
  directory_wf d -> owners_settled d -> kept id dueAt d -> Forall (spares id dueAt) evs ->
  kept id dueAt (dir (run (start d) evs)).
Proof.
  intros Hwf Hs Hk He. change d with (dir (start d)) in Hk.
  assert (Hc : claims_elsewhere id (start d)) by (intros n p; simpl; by rewrite lookup_empty).
  pose proof (start_inv 3 d Hwf Hs) as Hi. revert Hk Hc Hi He. generalize (start d). clear.
  induction evs as [|ev evs IH]; simpl; intros s Hk Hc Hi He; [done|].
  apply Forall_cons in He as [Hev He]. apply IH; auto.
  - apply step_kept; auto. apply Hi.
  - by apply (step_claims id dueAt).
  - apply event_inv; [done|apply actor_rank_max].
Qed.

(** ** Witnesses *)

Definition person (id : string) (r : Role) (s : DirectoryStatus) (ds : DeletionStatus) (due : option Z) : User :=
  mkUser (js id) (js id) None r None false s ds due None None None None.

Definition household : Directory :=
  <[js "a" := person "a" admin ACTIVE NONE None]>
  (<[js "b" := person "b" admin ACTIVE NONE None]>
  (<[js "o" := person "o" owner DEACTIVATED NONE None]>
  (<[js "l" := person "l" family DEACTIVATED PENDING (Some 5000)]> ∅))).

Lemma household_rows id u :
  household !! id = Some u ->
  u ∈ [person "a" admin ACTIVE NONE None; person "b" admin ACTIVE NONE None;
       person "o" owner DEACTIVATED NONE None; person "l" family DEACTIVATED PENDING (Some 5000)] /\ us_id u = id.
Proof.
  unfold household. rewrite !lookup_insert_Some, lookup_empty.
  intros [[<- <-]|[_ [[<- <-]|[_ [[<- <-]|[_ [[<- <-]|[_ [=]]]]]]]]]; split; try done; repeat constructor.
Qed.

Lemma household_wf : directory_wf household.
Proof. by intros id u [_ ?]%household_rows. Qed.

Lemma household_settled : owners_settled household.
Proof.
  intros id u [Hu _]%household_rows. rewrite !elem_of_cons, elem_of_nil in Hu.
  by destruct Hu as [->|[->|[->|[->|[]]]]].
Qed.

(** The two admins demote each other at the same time, and the owner is put
    up for removal. *)
Definition race : list event :=
  [EBegin 0 (QRole (mkGuardActor (Some (js "a")) (Some admin)) (js "b") family);
   EBegin 1 (QRole (mkGuardActor (Some (js "b")) (Some admin)) (js "a") family);
   EBegin 2 (QSchedule (mkGuardActor (Some (js "a")) (Some admin)) (js "o") None 0);
   ECommit 0 1; ECommit 1 2; ECommit 2 3; EPurgeClaim (js "l") 4999 4999; ERemove (js "l")].

Lemma owner_untouchable_witness :
  exists u', dir (run (start household) race) !! js "o" = Some u' /\
             same_owner (person "o" owner DEACTIVATED NONE None) u'.
Proof.
  apply (owner_untouchable household race household_wf household_settled); vm_compute; reflexivity.
Defined.

Lemma operator_remains_witness : an_operator (dir (run (start household) race)).
Proof.
  apply (operator_remains household race household_wf household_settled).
  exists (js "a"), (person "a" admin ACTIVE NONE None). split; vm_compute; reflexivity.
Defined.

Lemma roles_bounded_by_actors_witness :
  (exists u, household !! js "b" = Some u /\ us_role u = family) \/ (family ∈ ASSIGNABLE_ROLES /\ ROLE_RANK family <= 2).
Proof.
  apply (roles_bounded_by_actors 2 household race (js "b") (set_role family (person "b" admin ACTIVE NONE None))
           household_wf household_settled).
  - repeat constructor; vm_compute; discriminate.
  - vm_compute. reflexivity.
Defined.

Lemma kept_until_due_witness : kept (js "l") 5000 (dir (run (start household) race)).
Proof.
  apply (kept_until_due household race (js "l") 5000 household_wf household_settled).
  - exists (person "l" family DEACTIVATED PENDING (Some 5000)). split; [vm_compute; reflexivity|repeat split].
  - repeat constructor; simpl; try done.
Defined.
