(* ===== verification/BusinessTime.v ===== *)
(** * BusinessTime: working time between instants
      (apps/orchestrator/src/services/support/business-time.ts)

    Calendars as an administrator writes them (any JSON value), their checked
    form, the compiled weekly segments and the two operations.  An error is a
    [RangeError]; its text is not modelled, its cause is. *)

From Stdlib Require Import QArith Qround.
From S2P Require Import Prelude JsNum Json DateTime DateText ZonedTime.

Local Open Scope Z_scope.

(** ** Shapes *)

Record BusinessWindow := mkWindow { bw_day : Z; bw_start : jsstr; bw_end : jsstr }.

Record BusinessCalendar := mkCalendar {
  bc_timezone : jsstr; bc_windows : list BusinessWindow; bc_holidays : list jsstr
}.

(** A segment of one weekday, in minutes from that day's midnight; the end may run past 1440. *)
Abbreviation Segment := (Z * Z)%type.

Definition MAX_WINDOWS : nat := 100.
Definition MAX_HOLIDAYS : nat := Z.to_nat 2000.
Definition MAX_SCAN_DAYS : nat := Z.to_nat 3660.
Definition MINUTE_MS : Z := 60000.
Definition DAY_MS : Z := 86400000.
Definition DAY_CACHE_LIMIT : nat := Z.to_nat 4096.

Inductive RangeError :=
| NotAClock | NotACalendar | NotAZone | WindowsNotAList | TooManyWindows | HolidaysNotAList | TooManyHolidays
| WindowNotAnObject | BadDay | BadHoliday | NoWindows | EmptyWindow | InvalidInstantGiven | BadLength
| NoBusinessHours | NothingWithinScan | SpanTooLong | FromZone (e : ZonedError).

Definition zone_err {A} (r : result ZonedError A) : result RangeError A :=
  match r with Ok a => Ok a | Throw e => Throw (FromZone e) end.

(** ** Clock and calendar parsing *)

(** [CLOCK.exec(value)]: two digits, a colon, two digits. *)
Definition CLOCK (s : jsstr) : option (Z * Z) :=
  match s with
  | [a; b; c; d; e] => if forallb digitb [a; b; d; e] && N.eqb c 58 then Some (digits_val [a; b], digits_val [d; e]) else None
  | _ => None
  end.

Definition parseClock (value : jsval) (allow24 : bool) : result RangeError Z :=
  match value with
  | JStr s =>
      match CLOCK s with
      | None => Throw NotAClock
      | Some (hours, minutes) =>
          if minutes >? 59 then Throw NotAClock
          else if (hours =? 24) && (minutes =? 0) && allow24 then Ok 1440
          else if hours >? 23 then Throw NotAClock
          else Ok (hours * 60 + minutes)
      end
  | _ => Throw NotAClock
  end.

(** A property read on an object. *)
Definition prop (k : string) (o : entries) : jsval := default JUndef (alookup (js k) o).

Fixpoint rmap {E A B} (f : A -> result E B) (l : list A) : result E (list B) :=
  match l with [] => Ok [] | x :: r => let! y := f x in let! ys := rmap f r in Ok (y :: ys) end.

Definition as_str (v : jsval) : jsstr := match v with JStr s => s | _ => [] end.

Definition check_window (w : jsval) : result RangeError BusinessWindow :=
  match w with
  | JObj o =>
      match prop "day" o with
      | JNum n =>
          match num_int n with
          | Some d =>
              if (d <? 0) || (d >? 6) then Throw BadDay else
              let! _s := parseClock (prop "start" o) false in
              let! _e := parseClock (prop "end" o) true in
              Ok (mkWindow d (as_str (prop "start" o)) (as_str (prop "end" o)))
          | None => Throw BadDay
          end
      | _ => Throw BadDay
      end
  | _ => Throw WindowNotAnObject
  end.

Section business.
Context `{Intl}.

Definition check_holiday (h : jsval) : result RangeError jsstr :=
  match h with
  | JStr s => if isCalendarYmd s then Ok s else Throw BadHoliday
  | _ => Throw BadHoliday
  end.

Definition checkShape (input : jsval) : result RangeError BusinessCalendar :=
  match input with
  | JObj o =>
      match prop "timezone" o with
      | JStr timezone =>
          if negb (isValidIanaZone timezone) then Throw NotAZone else
          match prop "windows" o with
          | JArr windows =>
              if Nat.ltb MAX_WINDOWS (length windows) then Throw TooManyWindows else
              match prop "holidays" o with
              | JArr holidays =>
                  if Nat.ltb MAX_HOLIDAYS (length holidays) then Throw TooManyHolidays else
                  let! checked := rmap check_window windows in
                  let! hs := rmap check_holiday holidays in
                  Ok (mkCalendar timezone checked hs)
              | _ => Throw HolidaysNotAList
              end
          | _ => Throw WindowsNotAList
          end
      | _ => Throw NotAZone
      end
  | _ => Throw NotACalendar
  end.

(** A typed calendar as the value it is. *)
Definition window_value (w : BusinessWindow) : jsval :=
  JObj [(js "day", JNum (num_of_Z (bw_day w))); (js "start", JStr (bw_start w)); (js "end", JStr (bw_end w))].

Definition calendar_value (c : BusinessCalendar) : jsval :=
  JObj [(js "timezone", JStr (bc_timezone c)); (js "windows", JArr (window_value <$> bc_windows c));
        (js "holidays", JArr (JStr <$> bc_holidays c))].

(** Minutes of a clock that [checkShape] has accepted. *)
Definition clock_minutes (s : jsstr) (allow24 : bool) : Z :=
  match parseClock (JStr s) allow24 with Ok m => m | Throw _ => 0 end.

(** [a.day - b.day || parseClock(a.start) - parseClock(b.start) || ...] *)
Definition window_cmp (a b : BusinessWindow) : Z :=
  let d := bw_day a - bw_day b in
  let s := clock_minutes (bw_start a) false - clock_minutes (bw_start b) false in
  let e := clock_minutes (bw_end a) true - clock_minutes (bw_end b) true in
  if negb (d =? 0) then d else if negb (s =? 0) then s else e.

(** [[...new Set(l)]] *)
Definition set_of (l : list jsstr) : list jsstr := reverse (foldl (fun acc x => if decide (x ∈ acc) then acc else x :: acc) [] l).

Definition str_cmp (a b : jsstr) : Z := if str_ltb a b then -1 else if str_ltb b a then 1 else 0.

Definition validateCalendarForSave (input : jsval) : result RangeError BusinessCalendar :=
  let! cal := checkShape input in
  match bc_windows cal with
  | [] => Throw NoWindows
  | _ :: _ =>
      if existsb (fun w => clock_minutes (bw_start w) false =? clock_minutes (bw_end w) true) (bc_windows cal)
      then Throw EmptyWindow
      else let! zone := zone_err (canonicalZone (bc_timezone cal)) in
           Ok (mkCalendar zone (sort_by window_cmp (bc_windows cal)) (sort_by str_cmp (set_of (bc_holidays cal))))
  end.

(** ** Compilation *)

Record Interval := mkIv { iv_s : Z; iv_e : Z }.

Record Compiled := mkCompiled {
  cp_tz : jsstr; cp_byWeekday : list (list Segment); cp_holidays : list jsstr; cp_empty : bool
}.

(** The minutes of one window, from its own day's midnight; none when it has
    no length. *)
Definition window_segment (w : BusinessWindow) : option Segment :=
  let s := clock_minutes (bw_start w) false in
  let e0 := clock_minutes (bw_end w) true in
  if e0 =? s then None else Some (s, if e0 <? s then e0 + 1440 else e0).

Definition perDay (ws : list BusinessWindow) (day : Z) : list Segment :=
  omap (fun w => if bw_day w =? day then window_segment w else None) ws.

Definition segment_cmp (a b : Segment) : Z := let d := a.1 - b.1 in if negb (d =? 0) then d else a.2 - b.2.

(** One turn of the merging loop; the list is kept with its last element first. *)
Definition merge_step (merged : list Segment) (seg : Segment) : list Segment :=
  match merged with
  | (ls, le) :: r => if seg.1 <=? le then (ls, Z.max le seg.2) :: r else seg :: merged
  | [] => [seg]
  end.

Definition merge_segments (segs : list Segment) : list Segment :=
  reverse (foldl merge_step [] (sort_by segment_cmp segs)).

(** Index 0 is Sunday. *)
Definition merged_week (ws : list BusinessWindow) : list (list Segment) :=
  (fun day => merge_segments (perDay ws day)) <$> [0; 1; 2; 3; 4; 5; 6].

Definition no_segments (week : list (list Segment)) : bool :=
  forallb (fun segs => match segs with [] => true | _ => false end) week.

Definition compile (calendar : BusinessCalendar) : result RangeError Compiled :=
  let! cal := checkShape (calendar_value calendar) in
  let byWeekday := merged_week (bc_windows cal) in
  Ok (mkCompiled (bc_timezone cal) byWeekday (bc_holidays cal) (no_segments byWeekday)).

(** ** Calendar days *)

Definition dayNumberOf (ymd : jsstr) : result RangeError Z :=
  let! '(y, m, d) := zone_err (parseYmd ymd) in
  match setUTCFullYear_midnight y m d with
  | Some t => Ok ((t + DAY_MS / 2) / DAY_MS)
  | None => Throw (FromZone InvalidTimeValue)
  end.

Definition ymdOfDay (n : Z) : result RangeError jsstr :=
  match TimeClip (n * DAY_MS) with
  | Some t => Ok (take 10 (toISOString t))
  | None => Throw (FromZone InvalidTimeValue)
  end.

Definition weekdayOfDay (n : Z) : Z := Z.rem (Z.rem (n + 4) 7 + 7) 7.

Definition instantAt (c : Compiled) (n minute : Z) : result RangeError Z :=
  if 1440 <=? minute
  then let! ymd := ymdOfDay (n + 1) in zone_err (zonedDateMinuteToUtc ymd (minute - 1440) (cp_tz c))
  else let! ymd := ymdOfDay n in zone_err (zonedDateMinuteToUtc ymd minute (cp_tz c)).

(** The instants of the segments of day [n]; an end that does not follow its
    start is dropped. *)
Fixpoint segment_intervals (c : Compiled) (n : Z) (segs : list Segment) : result RangeError (list Interval) :=
  match segs with
  | [] => Ok []
  | (s, e) :: r =>
      let! from := instantAt c n s in
      let! to := instantAt c n e in
      let! out := segment_intervals c n r in
      Ok (if from <? to then mkIv from to :: out else out)
  end.

(** [intervalsOf] on a day that is not in the cache. *)
Definition intervalsOf (c : Compiled) (n : Z) : result RangeError (list Interval) :=
  let! ymd := ymdOfDay n in
  if decide (ymd ∈ cp_holidays c) then Ok []
  else let! out := segment_intervals c n (default [] (cp_byWeekday c !! Z.to_nat (weekdayOfDay n))) in
       Ok (sort_by (fun x y => iv_s x - iv_s y) out).

(** [intervalsOf] with the day cache: the answer is remembered, and the cache
    is emptied when it is full. *)
Definition intervalsOf_cached (c : Compiled) (cache : gmap Z (list Interval)) (n : Z)
    : gmap Z (list Interval) * result RangeError (list Interval) :=
  match cache !! n with
  | Some ivs => (cache, Ok ivs)
  | None =>
      match intervalsOf c n with
      | Ok out => (<[n := out]> (if Nat.leb DAY_CACHE_LIMIT (size cache) then ∅ else cache), Ok out)
      | Throw e => (cache, Throw e)
      end
  end.

(** ** Loops over the intervals *)

Section loop.
Context {St R : Type} (step : St -> Interval -> St + R).

(** One day's turns of a [for ... of] loop that may return early. *)
Fixpoint feed (st : St) (ivs : list Interval) : St + R :=
  match ivs with
  | [] => inl st
  | iv :: rest => match step st iv with inl st' => feed st' rest | inr r => inr r end
  end.

(** The days are produced one by one: a day after the return is never asked for. *)
Fixpoint scan_days (c : Compiled) (n : Z) (days : nat) (st : St) : result RangeError (St + R) :=
  match days with
  | O => Ok (inl st)
  | S k => let! ivs := intervalsOf c n in
           match feed st ivs with inl st' => scan_days c (n + 1) k st' | inr r => Ok (inr r) end
  end.

(** [for (const iv of intervalsFrom(c, fromMs))] *)
Definition for_intervalsFrom (c : Compiled) (fromMs : Z) (st : St) : result RangeError (St + R) :=
  let! parts := zone_err (localPartsOf (TimeClip fromMs) (cp_tz c)) in
  let! day := dayNumberOf (lp_ymd parts) in
  scan_days c (day - 1) (S MAX_SCAN_DAYS) st.
End loop.

(** ** The operations *)

Definition assertInstant (value : date) : result RangeError Z :=
  match value with Some ms => Ok ms | None => Throw InvalidInstantGiven end.

(** [Math.round] *)
Definition Math_round (q : Q) : Z := Qfloor (q + (1 # 2)).

Definition add_step (st : Z * Z) (iv : Interval) : Z * Z + Z :=
  let '(remaining, pos) := st in
  let lo := Z.max (iv_s iv) pos in
  if iv_e iv <=? lo then inl st else
  let available := iv_e iv - lo in
  if remaining <=? available then inr (lo + remaining) else inl (remaining - available, iv_e iv).

(** A length is a finite number or not ([None]). *)
Definition addBusinessMs (start : date) (ms : option Q) (calendar : option BusinessCalendar) : result RangeError date :=
  let! from := assertInstant start in
  match ms with
  | None => Throw BadLength
  | Some q =>
      if negb (Qle_bool 0 q) then Throw BadLength else
      let length := Math_round q in
      if length =? 0 then Ok (TimeClip from) else
      match calendar with
      | None => Ok (TimeClip (from + length))
      | Some cal =>
          let! c := compile cal in
          if cp_empty c then Throw NoBusinessHours else
          let! r := for_intervalsFrom add_step c from (length, from) in
          match r with inr t => Ok (TimeClip t) | inl _ => Throw NothingWithinScan end
      end
  end.

Definition between_step (to : Z) (st : Z * Z) (iv : Interval) : Z * Z + Z :=
  let '(total, pos) := st in
  if to <=? iv_s iv then inr total else
  let lo := Z.max (iv_s iv) pos in
  let hi := Z.min (iv_e iv) to in
  let total := if lo <? hi then total + (hi - lo) else total in
  let pos := if pos <? iv_e iv then iv_e iv else pos in
  if to <=? pos then inr total else inl (total, pos).

(** From an instant to a later one. *)
Definition between_ordered (from to : Z) (calendar : option BusinessCalendar) : result RangeError Z :=
  match calendar with
  | None => Ok (to - from)
  | Some cal =>
      let! c := compile cal in
      if cp_empty c then Ok 0 else
      let! r := for_intervalsFrom (between_step to) c from (0, from) in
      match r with inr total => Ok total | inl _ => Throw SpanTooLong end
  end.

(** The one recursive call swaps the instants. *)
Definition businessMsBetween (a b : date) (calendar : option BusinessCalendar) : result RangeError Z :=
  let! from := assertInstant a in
  let! to := assertInstant b in
  if from =? to then Ok 0
  else if to <? from then let! v := between_ordered to from calendar in Ok (- v)
  else between_ordered from to calendar.

Definition addBusinessMinutes (start : date) (minutes : option Q) (calendar : option BusinessCalendar) : result RangeError date :=
  match minutes with
  | None => Throw BadLength
  | Some q => if negb (Qle_bool 0 q) then Throw BadLength
              else addBusinessMs start (Some (q * inject_Z MINUTE_MS)%Q) calendar
  end.

Definition businessMinutesBetween (a b : date) (calendar : option BusinessCalendar) : result RangeError Q :=
  let! ms := businessMsBetween a b calendar in Ok (inject_Z ms / inject_Z MINUTE_MS)%Q.
End business.

(** ** Adding and measuring walk the same intervals *)

Section walk.
Context `{Intl}.

Lemma feed_app {St R} (step : St -> Interval -> St + R) st l k :
  feed step st (l ++ k) = match feed step st l with inl st' => feed step st' k | inr r => inr r end.
Proof. revert st. induction l as [|iv l IH]; intros st; simpl; [done|]. destruct (step st iv); [apply IH|done]. Qed.

(** Where adding stands, against measuring up to [to] from the same place:
    still walking, or done. *)
Definition walks_along (to total remaining pos : Z) (added : Z * Z + Z) (measured : Z * Z + Z) : Prop :=
  match added with
  | inl (remaining', pos') => 0 < remaining' /\ pos <= pos' /\
      (to <= pos' -> exists v, measured = inr v /\ v < total + remaining) /\
      (pos' < to -> exists total', measured = inl (total', pos') /\ total' + remaining' = total + remaining)
  | inr t => pos < t /\ (to = t -> measured = inr (total + remaining)) /\
      (to < t -> exists v, measured = inr v /\ v < total + remaining)
  end.

Definition iv_ok (iv : Interval) : Prop := iv_s iv < iv_e iv.

Lemma between_step_eq to total pos iv :
  between_step to (total, pos) iv =
    let total' := total + Z.max 0 (Z.min (iv_e iv) to - Z.max (iv_s iv) pos) in
    if to <=? iv_s iv then inr total
    else if to <=? Z.max pos (iv_e iv) then inr total' else inl (total', Z.max pos (iv_e iv)).
Proof.
  unfold between_step. cbv zeta. destruct (to <=? iv_s iv); [done|].
  replace (if pos <? iv_e iv then iv_e iv else pos) with (Z.max pos (iv_e iv)) by (case_match; b2p; lia).
  replace (if _ <? _ then _ else total) with (total + Z.max 0 (Z.min (iv_e iv) to - Z.max (iv_s iv) pos)); [done|].
  case_match; b2p; lia.
Qed.

Lemma add_between_step iv remaining pos total to : iv_ok iv -> 0 < remaining ->
  walks_along to total remaining pos (add_step (remaining, pos) iv) (between_step to (total, pos) iv).
Proof.
  unfold iv_ok. intros Hiv Hr. rewrite between_step_eq. unfold add_step, walks_along. cbv zeta.
  destruct (iv_e iv <=? Z.max (iv_s iv) pos) eqn:E1; b2p;
    [|destruct (remaining <=? iv_e iv - Z.max (iv_s iv) pos) eqn:E2; b2p];
    destruct (to <=? iv_s iv) eqn:E3, (to <=? Z.max pos (iv_e iv)) eqn:E4; b2p;
    split_and?; intros; try lia; try (eexists; split; [by repeat f_equal; lia|lia]); try (f_equal; lia).
Qed.

(** Adding only moves forward. *)
Definition moves_on (remaining pos : Z) (added : Z * Z + Z) : Prop :=
  match added with inl (r, p) => 0 < r /\ pos <= p | inr t => pos < t end.

Lemma moves_on_trans r p r' p' added : 0 < r' -> p <= p' -> moves_on r' p' added -> moves_on r p added.
Proof. destruct added as [[r2 p2]|t]; simpl; lia. Qed.

Lemma add_step_moves r p iv : iv_ok iv -> 0 < r -> moves_on r p (add_step (r, p) iv).
Proof. unfold iv_ok, add_step. intros. repeat case_match; b2p; simpl; lia. Qed.

Lemma add_feed_moves ivs : Forall iv_ok ivs -> forall r p, 0 < r -> moves_on r p (feed add_step (r, p) ivs).
Proof.
  induction 1 as [|iv ivs Hiv _ IH]; intros r p Hr; [simpl; lia|]. cbn [feed].
  pose proof (add_step_moves r p iv Hiv Hr) as Hm. destruct (add_step (r, p) iv) as [[r1 p1]|t]; [|done].
  destruct Hm as [Hr1 Hp1]. eapply moves_on_trans; eauto.
Qed.

Lemma walks_back to total remaining pos r1 p1 added v : to <= p1 -> pos <= p1 -> v < total + remaining ->
  moves_on r1 p1 added -> walks_along to total remaining pos added (inr v).
Proof. intros Hle Hp Hv Hm. destruct added as [[r2 p2]|t]; simpl in *; naive_solver lia. Qed.

Lemma walks_on to total remaining pos total' r1 p1 added measured : pos <= p1 -> total' + r1 = total + remaining ->
  walks_along to total' r1 p1 added measured -> walks_along to total remaining pos added measured.
Proof. intros Hp Ht. unfold walks_along. rewrite Ht. destruct added as [[r2 p2]|t]; naive_solver lia. Qed.

Lemma add_between_feed to ivs : Forall iv_ok ivs -> forall remaining pos total, 0 < remaining -> pos < to ->
  walks_along to total remaining pos (feed add_step (remaining, pos) ivs) (feed (between_step to) (total, pos) ivs).
Proof.
  induction 1 as [|iv ivs Hiv Hivs IH]; intros remaining pos total Hr Hpos; cbn [feed].
  { simpl. naive_solver lia. }
  pose proof (add_between_step iv remaining pos total to Hiv Hr) as Hs.
  destruct (add_step (remaining, pos) iv) as [[r1 p1]|t].
  - destruct Hs as (Hr1 & Hp1 & Hback & Hon). destruct (Z_le_gt_dec to p1) as [Hle|Hgt].
    + destruct (Hback Hle) as (v & -> & Hv). by eapply walks_back, add_feed_moves.
    + destruct (Hon ltac:(lia)) as (total' & -> & Htot). eapply walks_on; [done..|]. apply IH; lia.
  - destruct Hs as (Ht & Heq & Hlt). split; [done|]. split; [intros E; by rewrite (Heq E)|].
    intros E. destruct (Hlt E) as (v & -> & Hv). eauto.
Qed.

Lemma segment_intervals_ok c n segs out : segment_intervals c n segs = Ok out -> Forall iv_ok out.
Proof.
  revert out. induction segs as [|[s e] segs IH]; intros out; simpl; [by intros [= <-]|].
  rewrite rbind_ok. intros (from & _ & Hk). apply rbind_ok in Hk as (to & _ & Hk).
  apply rbind_ok in Hk as (r & Hr & [= <-]). case_match eqn:E; b2p; [constructor; [done|]|]; by apply IH.
Qed.

Lemma intervalsOf_ok c n ivs : intervalsOf c n = Ok ivs -> Forall iv_ok ivs.
Proof.
  unfold intervalsOf. rewrite rbind_ok. intros (ymd & _ & Hk). case_decide; [by simplify_eq|].
  apply rbind_ok in Hk as (out & Ho & [= <-]). rewrite sort_by_perm. by apply segment_intervals_ok in Ho.
Qed.

Lemma add_scan_moves c days : forall n r p added, 0 < r ->
  scan_days add_step c n days (r, p) = Ok added -> moves_on r p added.
Proof.
  induction days as [|k IH]; intros n r p added Hr; cbn [scan_days]; [intros [= <-]; simpl; lia|].
  rewrite rbind_ok. intros (ivs & Hivs & Hk).
  pose proof (add_feed_moves ivs (intervalsOf_ok _ _ _ Hivs) r p Hr) as Hm.
  destruct (feed add_step (r, p) ivs) as [[r1 p1]|t]; [|by injection Hk as <-].
  destruct Hm as [Hr1 Hp1]. eapply moves_on_trans; eauto.
Qed.

(** Measuring asks for no day that adding did not ask for. *)
Lemma add_between_scan c to days : forall n remaining pos total t, 0 < remaining -> pos < to <= t ->
  scan_days add_step c n days (remaining, pos) = Ok (inr t) ->
  exists measured, scan_days (between_step to) c n days (total, pos) = Ok measured /\
    walks_along to total remaining pos (inr t) measured.
Proof.
  induction days as [|k IH]; intros n remaining pos total t Hr Hto; cbn [scan_days]; [done|].
  rewrite rbind_ok. intros (ivs & Hivs & Hk). rewrite Hivs. cbn [rbind].
  pose proof (add_between_feed to ivs (intervalsOf_ok _ _ _ Hivs) remaining pos total Hr ltac:(lia)) as Hf.
  destruct (feed add_step (remaining, pos) ivs) as [[r1 p1]|t1].
  - destruct Hf as (Hr1 & Hp1 & Hback & Hon). destruct (Z_le_gt_dec to p1) as [Hle|Hgt].
    + destruct (Hback Hle) as (v & -> & Hv). eexists. split; [done|]. by eapply walks_back, add_scan_moves.
    + destruct (Hon ltac:(lia)) as (total' & -> & Htot).
      destruct (IH (n + 1) r1 p1 total' t Hr1 ltac:(lia) Hk) as (m & -> & Hm).
      eexists. split; [done|]. by eapply walks_on.
  - injection Hk as ->. destruct Hf as (Ht & Heq & Hlt). destruct (decide (to = t)) as [->|].
    + rewrite Heq by done. eexists. split; [done|]. simpl. naive_solver lia.
    + destruct (Hlt ltac:(lia)) as (v & -> & Hv). eexists. split; [done|]. simpl. naive_solver lia.
Qed.
End walk.

(** ** The two operations are inverse, and adding is earliest *)

Lemma Math_round_nonneg q : Qle_bool 0 q = true -> 0 <= Math_round q.
Proof.
  intros Hq%Qle_bool_imp_le. unfold Math_round. rewrite <- (Qfloor_Z 0). apply Qfloor_resp_le.
  change (inject_Z 0) with 0%Q. apply (Qle_trans _ (0 + 0)); [done|]. by apply Qplus_le_compat.
Qed.

Lemma TimeClip_id z t : TimeClip z = Some t -> z = t.
Proof. unfold TimeClip. case_match; naive_solver. Qed.

(** The walk of [addBusinessMs] over a calendar with hours, and what
    [between_ordered] finds on the way. *)
Lemma add_then_between `{Intl} cal c from length t to :
  compile cal = Ok c -> cp_empty c = false -> 0 < length -> from < to <= t ->
  for_intervalsFrom add_step c from (length, from) = Ok (inr t) ->
  exists v, between_ordered from to (Some cal) = Ok v /\ (to = t -> v = length) /\ (to < t -> v < length).
Proof.
  intros Hc He Hl Hto. unfold between_ordered. rewrite Hc. cbn [rbind]. rewrite He.
  unfold for_intervalsFrom. rewrite rbind_ok. intros (p & -> & Hk). cbn [rbind].
  apply rbind_ok in Hk as (d & -> & Hk). cbn [rbind].
  destruct (add_between_scan c to _ _ _ _ 0 _ Hl Hto Hk) as (m & -> & _ & Heq & Hlt). cbn [rbind].
  destruct (decide (to = t)) as [E|].
  - rewrite (Heq E). eexists. split; [done|]. lia.
  - destruct (Hlt ltac:(lia)) as (v & -> & Hv). eexists. split; [done|]. lia.
Qed.

(** C36: Adding business time and measuring it are exact inverses, and adding
    gives the earliest instant: when adding a length to [start] answers [t],
    then [t] is not before [start], the business time from [start] to [t] is
    that length (rounded to a millisecond), and up to any earlier instant it
    is less.  For every calendar, with any windows and holidays, in any zone
    the runtime knows, and for the null calendar; measuring never asks the
    runtime for a day that adding did not. *)
Theorem add_is_earliest `{Intl} start q cal t :
  addBusinessMs (Some start) (Some q) cal = Ok (Some t) ->
  start <= t /\ businessMsBetween (Some start) (Some t) cal = Ok (Math_round q) /\
  forall t', start <= t' < t ->
    exists v, businessMsBetween (Some start) (Some t') cal = Ok v /\ v < Math_round q.
Proof.
  unfold addBusinessMs, businessMsBetween. cbn [assertInstant rbind].
  destruct (Qle_bool 0 q) eqn:Hq; [|done]. cbn [negb]. pose proof (Math_round_nonneg q Hq) as H0.
  set (m := Math_round q) in *. destruct (m =? 0) eqn:E0; b2p.
  { intros [= ->%TimeClip_id]. rewrite Z.eqb_refl, E0. split_and!; [done..|lia]. }
  assert (Hs : start =? start = true) by apply Z.eqb_refl.
  destruct cal as [cal|].
  - rewrite rbind_ok. intros (c & Hc & Hk). destruct (cp_empty c) eqn:He; [done|].
    apply rbind_ok in Hk as ([st|t1] & Hscan & [= ->%TimeClip_id]).
    assert (Hst : start < t).
    { unfold for_intervalsFrom in Hscan. apply rbind_ok in Hscan as (p & _ & Hk).
      apply rbind_ok in Hk as (d & _ & Hk). by apply add_scan_moves in Hk; [|lia]. }
    split_and!; [lia| |].
    + rewrite (proj2 (Z.eqb_neq _ _)), (proj2 (Z.ltb_ge _ _)) by lia.
      destruct (add_then_between cal c start m t t Hc He ltac:(lia) ltac:(lia) Hscan) as (v & -> & Hv & _).
      by rewrite Hv.
    + intros t' Ht'. destruct (decide (start = t')) as [->|Hne].
      { rewrite Hs. eexists. split; [done|lia]. }
      rewrite (proj2 (Z.eqb_neq _ _)), (proj2 (Z.ltb_ge _ _)) by lia.
      destruct (add_then_between cal c start m t t' Hc He ltac:(lia) ltac:(lia) Hscan) as (v & -> & _ & Hv).
      eexists. split; [done|]. apply Hv. lia.
  - intros [= <-%TimeClip_id]. unfold between_ordered. split_and!; [lia| |].
    + rewrite (proj2 (Z.eqb_neq _ _)), (proj2 (Z.ltb_ge _ _)) by lia. f_equal. lia.
    + intros t' Ht'. destruct (start =? t'); [eexists; split; [done|lia]|].
      rewrite (proj2 (Z.ltb_ge _ _)) by lia. eexists. split; [done|lia].
Qed.

(** Office hours in New York, closed on Monday 9 March 2026. *)
Definition office_hours : BusinessCalendar :=
  mkCalendar ny_zone ((fun d => mkWindow d (js "09:00") (js "17:00")) <$> [1; 2; 3; 4; 5]) [js "2026-03-09"].

(** Ten working hours from Friday 6 March 2026, 00:00 UTC, across the change
    of clocks and the holiday: Tuesday, 11:00 local time. *)
Lemma add_is_earliest_witness :
  let start := 1772755200000 in let t := 1773154800000 in
  start <= t /\ @businessMsBetween (intl_of ny_off) (Some start) (Some t) (Some office_hours) = Ok (Math_round 36000000) /\
  forall t', start <= t' < t ->
    exists v, @businessMsBetween (intl_of ny_off) (Some start) (Some t') (Some office_hours) = Ok v /\ v < Math_round 36000000.
Proof.
  apply (@add_is_earliest (intl_of ny_off) 1772755200000 36000000 (Some office_hours) 1773154800000).
  vm_compute. reflexivity.
Defined.
