(* ===== verification/BusinessMeasure.v ===== *)
(** * BusinessMeasure: what the business-time operations measure

    The compiled segments of a calendar cover exactly the minutes of its
    windows, and the scan of [businessMsBetween] counts each open millisecond
    once: a reference definition of opening hours on the instant line, and
    the proof that the code computes its measure. *)

From S2P Require Import Prelude JsNum Json DateTime DateText ZonedTime BusinessTime.

Local Open Scope Z_scope.

(** ** Counting *)

(** [v] integers satisfy [P]. *)
Definition counts (P : Z -> Prop) (v : Z) : Prop :=
  exists l : list Z, NoDup l /\ (forall t, t ∈ l <-> P t) /\ Z.of_nat (length l) = v.

#[export] Instance counts_proper : Proper (pointwise_relation Z iff ==> eq ==> iff) counts.
Proof. intros P Q HPQ v ? <-. unfold counts. by setoid_rewrite HPQ. Qed.

Lemma counts_iff (P Q : Z -> Prop) v : (forall t, P t <-> Q t) -> counts P v -> counts Q v.
Proof. intros HPQ. by rewrite (counts_proper P Q HPQ v v eq_refl). Qed.

Lemma counts_none P : (forall t, ~ P t) -> counts P 0.
Proof. intros HP. exists []. split_and!; [constructor| |done]. intros t. split; [by intros ?%elem_of_nil|intros Ht; by destruct (HP t)]. Qed.

Lemma counts_range lo hi : counts (fun t => lo <= t < hi) (Z.max 0 (hi - lo)).
Proof.
  exists (seqZ lo (hi - lo)). split_and!; [apply NoDup_seqZ| |rewrite length_seqZ; lia].
  intros t. rewrite elem_of_seqZ. lia.
Qed.

Lemma counts_or P Q a b : (forall t, P t -> Q t -> False) -> counts P a -> counts Q b -> counts (fun t => P t \/ Q t) (a + b).
Proof.
  intros Hd (l & Hl & HP & <-) (k & Hk & HQ & <-). exists (l ++ k). split_and!.
  - apply NoDup_app. split_and!; [done| |done]. intros t ?%HP ?%HQ. eauto.
  - intros t. by rewrite elem_of_app, HP, HQ.
  - rewrite length_app. lia.
Qed.

(** The measure is determined by the set. *)
Lemma counts_unique P a b : counts P a -> counts P b -> a = b.
Proof.
  intros (l & Hl & HP & <-) (k & Hk & HQ & <-). f_equal. apply Permutation_length, NoDup_Permutation; [done..|].
  intros t. by rewrite HP, HQ.
Qed.

(** ** Merged segments *)

Definition seg_ok (g : Segment) : Prop := 0 <= g.1 < 1440 /\ g.1 < g.2 < 2880.
Definition in_segs (segs : list Segment) (m : Z) : Prop := exists g, g ∈ segs /\ g.1 <= m < g.2.
(** Apart, in order, with room between them. *)
Definition apart (segs : list Segment) : Prop := StronglySorted (fun a b : Segment => a.2 < b.1) segs.

Lemma in_segs_cons g segs m : in_segs (g :: segs) m <-> g.1 <= m < g.2 \/ in_segs segs m.
Proof. unfold in_segs. setoid_rewrite elem_of_cons. naive_solver. Qed.

Lemma in_segs_perm segs segs' m : segs ≡ₚ segs' -> in_segs segs m <-> in_segs segs' m.
Proof. intros Hp. unfold in_segs. by setoid_rewrite Hp. Qed.

(** The state of the merging loop: the last segment first. *)
Definition merged_ok (acc : list Segment) : Prop :=
  Forall seg_ok acc /\ StronglySorted (fun a b : Segment => b.2 < a.1) acc.

Lemma merge_step_ok acc g : merged_ok acc -> seg_ok g -> (forall a, head acc = Some a -> a.1 <= g.1) ->
  merged_ok (merge_step acc g) /\ (forall m, in_segs (merge_step acc g) m <-> g.1 <= m < g.2 \/ in_segs acc m) /\
  (forall a, head (merge_step acc g) = Some a -> a.1 <= g.1).
Proof.
  intros [Hok Hs] Hg Hh. destruct acc as [|[ls le] r]; simpl.
  { split; [split; [by apply Forall_singleton|repeat constructor]|].
    split; [intros m; by rewrite in_segs_cons|by intros ? [= <-]]. }
  specialize (Hh _ eq_refl). cbn [fst snd] in *. apply Forall_cons in Hok as [Hl Hr].
  apply StronglySorted_inv in Hs as [Hs Hall]. unfold seg_ok in *. cbn [fst snd] in *.
  destruct (g.1 <=? le) eqn:E; b2p.
  - split; [split; [apply Forall_cons; split; [unfold seg_ok; simpl; lia|done]|by constructor]|].
    split; [|intros ? [= <-]; simpl; lia].
    intros m. rewrite !in_segs_cons. cbn [fst snd]. split.
    + intros [Hm|?]; [|by auto]. destruct (Z_lt_le_dec m le); [right; left; lia|left; lia].
    + intros [Hm|[Hm|?]]; [left; lia|left; lia|by auto].
  - split; [split|split; [|intros ? [= <-]; lia]].
    + apply Forall_cons. split; [done|]. by apply Forall_cons.
    + constructor; [by constructor|]. apply Forall_cons. split; [done|].
      eapply Forall_impl; [exact Hall|]. simpl. lia.
    + intros m. by rewrite (in_segs_cons g).
Qed.

Lemma merge_fold_ok segs : StronglySorted (fun a b : Segment => a.1 <= b.1) segs -> Forall seg_ok segs ->
  forall acc, merged_ok acc -> (forall a g, head acc = Some a -> g ∈ segs -> a.1 <= g.1) ->
  merged_ok (foldl merge_step acc segs) /\
  forall m, in_segs (foldl merge_step acc segs) m <-> in_segs segs m \/ in_segs acc m.
Proof.
  induction 1 as [|g segs Hs IH Hall]; intros Hok acc Hacc Hh; simpl.
  { split; [done|]. intros m. unfold in_segs at 2. set_solver. }
  apply Forall_cons in Hok as [Hg Hok]. rewrite Forall_forall in Hall.
  destruct (merge_step_ok acc g Hacc Hg) as (Hacc' & Hin & Hh'); [intros a Ha; apply (Hh a g Ha); left|].
  destruct (IH Hok _ Hacc') as [H1 H2].
  { intros a x Ha Hx. transitivity g.1; [by apply Hh'|by apply Hall]. }
  split; [done|]. intros m. rewrite H2, Hin, in_segs_cons. tauto.
Qed.

Lemma StronglySorted_reverse {A} (R : relation A) l :
  StronglySorted (fun a b => R b a) l -> StronglySorted R (reverse l).
Proof.
  induction 1 as [|x l Hs IH Hx]; [constructor|]. rewrite reverse_cons.
  apply StronglySorted_app; split_and!; [|done|by repeat constructor].
  intros a b Ha ->%list_elem_of_singleton. rewrite elem_of_reverse in Ha. rewrite Forall_forall in Hx.
  by apply Hx.
Qed.

(** Sorting and merging keeps the minutes and leaves segments apart. *)
Lemma merge_segments_spec segs : Forall seg_ok segs ->
  Forall seg_ok (merge_segments segs) /\ apart (merge_segments segs) /\
  forall m, in_segs (merge_segments segs) m <-> in_segs segs m.
Proof.
  intros Hok. unfold merge_segments. set (k := sort_by segment_cmp segs).
  assert (Hp : k ≡ₚ segs) by apply sort_by_perm.
  assert (Hs : StronglySorted (fun a b : Segment => a.1 <= b.1) k).
  { apply sort_by_sorted; [intros ???; lia|..]; intros x y; unfold segment_cmp;
      destruct (negb (y.1 - x.1 =? 0)) eqn:E; try lia; apply negb_false_iff in E; b2p; lia. }
  destruct (merge_fold_ok k Hs ltac:(by rewrite Hp) []) as [[H1 H2] H3].
  { by repeat constructor. }
  { done. }
  split_and!.
  - by rewrite Forall_reverse.
  - by apply StronglySorted_reverse.
  - intros m. rewrite (in_segs_perm _ _ m (reverse_Permutation _)), H3, (in_segs_perm _ _ m Hp). unfold in_segs at 2. set_solver.
Qed.

(** ** Checked calendars *)

Lemma CLOCK_range s h m : CLOCK s = Some (h, m) -> 0 <= h <= 99 /\ 0 <= m <= 99.
Proof.
  unfold CLOCK. do 6 (destruct s as [|? s]; try done). destruct (forallb _ _ && _) eqn:E; [|done].
  apply andb_prop in E as [E _]. cbn [forallb] in E. unfold digitb in E. rewrite !andb_true_iff, !N.leb_le in E.
  intros [= <- <-]. cbn. lia.
Qed.

Lemma parseClock_range v b m : parseClock v b = Ok m -> 0 <= m <= 1440 /\ (m = 1440 -> b = true).
Proof.
  unfold parseClock. destruct v; try done. destruct (CLOCK s) as [[h mi]|] eqn:E; [|done].
  apply CLOCK_range in E. rewrite !Z.gtb_ltb. destruct (59 <? mi) eqn:E1; [done|].
  destruct ((h =? 24) && (mi =? 0) && b) eqn:E2; [by intros [= <-]; b2p|].
  destruct (23 <? h) eqn:E3; [done|]. intros [= <-]. b2p. lia.
Qed.

Lemma clock_minutes_range s b : 0 <= clock_minutes s b <= 1440 /\ (clock_minutes s b = 1440 -> b = true).
Proof. unfold clock_minutes. destruct (parseClock (JStr s) b) eqn:E; [by apply parseClock_range in E|lia]. Qed.

Lemma window_segment_ok w g : window_segment w = Some g -> seg_ok g.
Proof.
  unfold window_segment. pose proof (clock_minutes_range (bw_start w) false) as [Hs Hs'].
  pose proof (clock_minutes_range (bw_end w) true) as [He _].
  destruct (clock_minutes (bw_end w) true =? clock_minutes (bw_start w) false) eqn:E1; [done|].
  intros [= <-]. unfold seg_ok. cbn [fst snd]. b2p.
  assert (clock_minutes (bw_start w) false <> 1440) by (intros X; specialize (Hs' X); done).
  destruct (clock_minutes (bw_end w) true <? clock_minutes (bw_start w) false) eqn:E2; b2p; lia.
Qed.

(** The minutes of a window, from the midnight of the day it starts on: past
    1440 they are the next morning's. *)
Definition window_minute (w : BusinessWindow) (m : Z) : Prop :=
  let s := clock_minutes (bw_start w) false in
  let e := clock_minutes (bw_end w) true in
  if e <? s then s <= m < e + 1440 else s <= m < e.

Lemma perDay_minutes ws day m : in_segs (perDay ws day) m <-> exists w, w ∈ ws /\ bw_day w = day /\ window_minute w m.
Proof.
  unfold in_segs, perDay. split.
  - intros (g & (w & Hw & Hg)%list_elem_of_omap & Hm). exists w. destruct (bw_day w =? day) eqn:E; b2p; [|done].
    split_and!; [done..|]. unfold window_segment, window_minute in *. destruct (_ =? _); [done|].
    injection Hg as <-. cbn [fst snd] in Hm. by case_match.
  - intros (w & Hw & Hd & Hm). unfold window_minute in Hm. cbv zeta in Hm.
    eexists. split; [apply list_elem_of_omap; exists w; split; [done|]|].
    + rewrite (proj2 (Z.eqb_eq _ _) Hd). unfold window_segment.
      rewrite (proj2 (Z.eqb_neq _ _)); [done|]. destruct (_ <? _) eqn:E in Hm; b2p; lia.
    + cbn [fst snd]. by case_match.
Qed.

Lemma perDay_ok ws day : Forall seg_ok (perDay ws day).
Proof.
  apply Forall_forall. unfold perDay. intros g (w & _ & Hg)%list_elem_of_omap.
  destruct (bw_day w =? day); [|done]. by apply window_segment_ok in Hg.
Qed.

(** A typed calendar is checked as it is. *)
Lemma check_window_value w w' : check_window (window_value w) = Ok w' -> w' = w /\ 0 <= bw_day w <= 6.
Proof.
  unfold check_window, window_value.
  set (o := [(js "day", _); _; _]).
  change (prop "day" o) with (JNum (num_of_Z (bw_day w))).
  change (prop "start" o) with (JStr (bw_start w)). change (prop "end" o) with (JStr (bw_end w)).
  cbv beta iota. rewrite num_int_of_Z, Z.gtb_ltb. destruct ((bw_day w <? 0) || (6 <? bw_day w)) eqn:E; [done|].
  rewrite rbind_ok. intros (s & _ & Hk). apply rbind_ok in Hk as (e & _ & [= <-]).
  apply orb_false_iff in E as [??]. b2p. destruct w; simpl in *. split; [done|lia].
Qed.

Lemma rmap_elem {E A B} (f : A -> result E B) l k : rmap f l = Ok k -> Forall2 (fun x y => f x = Ok y) l k.
Proof.
  revert k. induction l as [|x l IH]; intros k; simpl; [by intros [= <-]|].
  rewrite rbind_ok. intros (y & Hy & Hk). apply rbind_ok in Hk as (ys & Hys & [= <-]). constructor; auto.
Qed.

Lemma checkShape_value `{Intl} cal cal' : checkShape (calendar_value cal) = Ok cal' ->
  cal' = cal /\ Forall (fun w => 0 <= bw_day w <= 6) (bc_windows cal).
Proof.
  unfold checkShape, calendar_value. set (o := [(js "timezone", _); _; _]).
  change (prop "timezone" o) with (JStr (bc_timezone cal)).
  change (prop "windows" o) with (JArr (window_value <$> bc_windows cal)).
  change (prop "holidays" o) with (JArr (JStr <$> bc_holidays cal)).
  cbv beta iota. destruct (negb _); [done|]. destruct (Nat.ltb _ _); [done|]. destruct (Nat.ltb _ _); [done|].
  rewrite rbind_ok. intros (ws & Hws%rmap_elem & Hk). apply rbind_ok in Hk as (hs & Hhs%rmap_elem & [= <-]).
  assert (Hw : ws = bc_windows cal /\ Forall (fun w => 0 <= bw_day w <= 6) (bc_windows cal)).
  { apply Forall2_fmap_l in Hws. clear Hhs o. induction Hws as [|w w' l k Hw _ [-> IH]]; [done|].
    apply check_window_value in Hw as [-> ?]. split; [done|]. by apply Forall_cons. }
  assert (Hh : hs = bc_holidays cal).
  { apply Forall2_fmap_l in Hhs. clear Hws Hw o. induction Hhs as [|h h' l k Hh _ ->]; [done|]. simpl in Hh.
    destruct (isCalendarYmd h); naive_solver. }
  destruct Hw as [-> Hw]. subst hs. by destruct cal.
Qed.

Lemma no_segments_nil week segs : no_segments week = true -> segs ∈ week -> segs = [].
Proof.
  unfold no_segments. intros He Hin. rewrite forallb_forall in He.
  specialize (He segs (proj1 (list_elem_of_In _ _) Hin)). by destruct segs.
Qed.

Lemma compile_eq `{Intl} cal c : compile cal = Ok c ->
  cp_tz c = bc_timezone cal /\ cp_holidays c = bc_holidays cal /\
  (forall day, 0 <= day < 7 -> cp_byWeekday c !! Z.to_nat day = Some (merge_segments (perDay (bc_windows cal) day))) /\
  (cp_empty c = true -> forall segs, segs ∈ cp_byWeekday c -> segs = []).
Proof.
  unfold compile. rewrite rbind_ok. intros (cal' & [-> _]%checkShape_value & [= <-]). cbn [cp_tz cp_holidays cp_byWeekday cp_empty].
  split_and!; [done..| |].
  - intros day Hd.
    assert (Hc : day = 0 \/ day = 1 \/ day = 2 \/ day = 3 \/ day = 4 \/ day = 5 \/ day = 6) by lia.
    by repeat destruct Hc as [->|Hc]; [..|subst day].
  - intros He segs. by apply no_segments_nil.
Qed.

(** ** The sweep over ordered intervals *)

Definition in_ivs (ivs : list Interval) (t : Z) : Prop := exists iv, iv ∈ ivs /\ iv_s iv <= t < iv_e iv.
Definition by_start (x y : Interval) : Prop := iv_s x <= iv_s y.

Lemma in_ivs_cons iv ivs t : in_ivs (iv :: ivs) t <-> iv_s iv <= t < iv_e iv \/ in_ivs ivs t.
Proof. unfold in_ivs. setoid_rewrite elem_of_cons. naive_solver. Qed.

(** Over intervals in order of their starts, the loop counts what lies open
    between its position and the target, each instant once. *)
Lemma sweep_counts to ivs : StronglySorted by_start ivs -> forall total pos v,
  feed (between_step to) (total, pos) ivs = inr v ->
  counts (fun t => pos <= t < to /\ in_ivs ivs t) (v - total).
Proof.
  induction 1 as [|iv ivs _ IH Hall]; intros total pos v; cbn [feed]; [done|]. rewrite between_step_eq.
  assert (Hlate : forall t, in_ivs ivs t -> iv_s iv <= t).
  { intros t (x & Hx & Ht). rewrite Forall_forall in Hall. specialize (Hall x Hx). unfold by_start in Hall. lia. }
  set (here := Z.max 0 (Z.min (iv_e iv) to - Z.max (iv_s iv) pos)).
  assert (Hhere : counts (fun t => Z.max (iv_s iv) pos <= t < Z.min (iv_e iv) to) here) by apply counts_range.
  cbv zeta. destruct (to <=? iv_s iv) eqn:E1; b2p; [|destruct (to <=? Z.max pos (iv_e iv)) eqn:E2; b2p].
  - intros [= <-]. rewrite Z.sub_diag. apply counts_none. intros t [Ht [?|?%Hlate]%in_ivs_cons]; lia.
  - intros [= <-]. replace (total + here - total) with here by lia. eapply counts_iff; [|exact Hhere].
    intros t. cbn beta. rewrite in_ivs_cons. specialize (Hlate t).
    split; [intros Ht; split; [lia|left; lia]|intros [Ht [?|Hin]]; [lia|specialize (Hlate Hin); lia]].
  - intros Hf%IH. replace (v - total) with (here + (v - (total + here))) by lia.
    eapply counts_iff; [|apply counts_or; [|exact Hhere|exact Hf]]; [|intros t; cbn beta; lia].
    intros t. cbn beta. rewrite in_ivs_cons. specialize (Hlate t).
    split.
    + intros [Ht|[Ht Hin]]; [split; [lia|left; lia]|split; [lia|by right]].
    + intros [Ht [?|Hin]]; [left; lia|]. specialize (Hlate Hin).
      destruct (Z_lt_le_dec t (Z.max pos (iv_e iv))); [left; lia|right; split; [lia|done]].
Qed.

(** ** Opening hours on the instant line *)

Definition segs_of (c : Compiled) (n : Z) : list Segment := default [] (cp_byWeekday c !! Z.to_nat (weekdayOfDay n)).

(** The instant a minute of the local day [n] is read as. *)
Definition minute_instant (off : Z -> Z) (n minute : Z) : Z := wall_instant off (n * MS_DAY + minute * MS_MINUTE).

(** Open: some local day that is no holiday has a segment under way. *)
Definition open_at (off : Z -> Z) (c : Compiled) (t : Z) : Prop :=
  exists n g, date_text n ∉ cp_holidays c /\ g ∈ segs_of c n /\
    minute_instant off n g.1 <= t < minute_instant off n g.2.

(** The intervals of a day, from the offsets. *)
Definition day_ivs (off : Z -> Z) (c : Compiled) (n : Z) : list Interval :=
  if decide (date_text n ∈ cp_holidays c) then [] else
  sort_by (fun x y => iv_s x - iv_s y)
    (filter iv_ok ((fun g : Segment => mkIv (minute_instant off n g.1) (minute_instant off n g.2)) <$> segs_of c n)).

Fixpoint days_ivs (off : Z -> Z) (c : Compiled) (n : Z) (k : nat) : list Interval :=
  match k with O => [] | S k => day_ivs off c n ++ days_ivs off c (n + 1) k end.

Lemma elem_of_day_ivs off c n iv : iv ∈ day_ivs off c n <-> date_text n ∉ cp_holidays c /\ iv_ok iv /\
  exists g, g ∈ segs_of c n /\ iv = mkIv (minute_instant off n g.1) (minute_instant off n g.2).
Proof.
  unfold day_ivs. case_decide as E; [set_solver|]. rewrite sort_by_perm, list_elem_of_filter, list_elem_of_fmap. naive_solver.
Qed.

Lemma elem_of_days_ivs off c k : forall n iv, iv ∈ days_ivs off c n k <->
  exists i, n <= i < n + Z.of_nat k /\ iv ∈ day_ivs off c i.
Proof.
  induction k as [|k IH]; intros n iv; cbn [days_ivs].
  { split; [by intros ?%elem_of_nil|]. intros (i & Hi & _). lia. }
  rewrite elem_of_app, IH. split.
  - intros [Hd|(i & Hi & Hd)]; [exists n|exists i]; (split; [lia|done]).
  - intros (i & Hi & Hd). destruct (decide (i = n)) as [->|]; [by left|]. right. exists i. split; [lia|done].
Qed.

Lemma day_ivs_sorted off c n : StronglySorted by_start (day_ivs off c n).
Proof.
  unfold day_ivs. case_decide; [constructor|]. apply sort_by_sorted; [intros ???; unfold by_start; lia|..];
    intros x y; unfold by_start; lia.
Qed.

(** ** The code on a zone that runs calmly *)

Section calm.
Context `{Intl} (cal : BusinessCalendar) (c : Compiled) (off : Z -> Z).
Hypothesis Hcal : compile cal = Ok c.
Hypothesis Hz : zone_runs (bc_timezone cal) off.
Hypothesis Hcalm : forall k, ok_day k -> calm_at off (k * MS_DAY).

Lemma weekdayOfDay_range n : 0 <= weekdayOfDay n < 7.
Proof. unfold weekdayOfDay. Z.to_euclidean_division_equations; lia. Qed.

Lemma segs_of_merged n : segs_of c n = merge_segments (perDay (bc_windows cal) (weekdayOfDay n)).
Proof.
  destruct (compile_eq cal c Hcal) as (_ & _ & Hw & _). unfold segs_of. by rewrite Hw by apply weekdayOfDay_range.
Qed.

Lemma segs_of_ok n : Forall seg_ok (segs_of c n).
Proof. rewrite segs_of_merged. apply merge_segments_spec, perDay_ok. Qed.

Lemma ymdOfDay_day n : ok_day n -> ymdOfDay n = Ok (date_text n).
Proof.
  intros Hn. unfold ymdOfDay. change DAY_MS with MS_DAY. rewrite ok_day_clip by done.
  rewrite iso_date_text; by rewrite Z.div_mul.
Qed.

Lemma instantAt_day n minute : ok_day n -> ok_day (n + 5) -> 0 <= minute < 2880 ->
  instantAt c n minute = Ok (minute_instant off n minute).
Proof.
  intros Hn Hn5 Hm. destruct (compile_eq cal c Hcal) as (Htz & _). unfold instantAt, minute_instant. rewrite Htz.
  destruct (1440 <=? minute) eqn:E; b2p; (rewrite ymdOfDay_day by (unfold ok_day in *; lia)); cbn [rbind];
    (rewrite (zonedDateMinuteToUtc_day _ off Hz) by (unfold ok_day in *; lia)); cbn [zone_err]; do 2 f_equal.
  unfold MS_DAY, MS_MINUTE. lia.
Qed.

Lemma segment_intervals_day n segs : ok_day n -> ok_day (n + 5) -> Forall seg_ok segs ->
  segment_intervals c n segs =
    Ok (filter iv_ok ((fun g : Segment => mkIv (minute_instant off n g.1) (minute_instant off n g.2)) <$> segs)).
Proof.
  intros Hn Hn5. induction 1 as [|[s e] segs Hg _ IH]; [done|]. unfold seg_ok in Hg. cbn [fst snd] in Hg.
  cbn [segment_intervals]. rewrite !instantAt_day by (done || lia). cbn [rbind]. rewrite IH. cbn [rbind].
  rewrite fmap_cons, filter_cons. cbn [fst snd]. f_equal.
  destruct (minute_instant off n s <? minute_instant off n e) eqn:E, (decide (iv_ok _)) as [Hi|Hi];
    unfold iv_ok in Hi; cbn [iv_s iv_e] in Hi; b2p; try done; lia.
Qed.

Lemma intervalsOf_day n : ok_day n -> ok_day (n + 5) -> intervalsOf c n = Ok (day_ivs off c n).
Proof.
  intros Hn Hn5. unfold intervalsOf, day_ivs. rewrite ymdOfDay_day by done. cbn [rbind]. case_decide; [done|].
  fold (segs_of c n). by rewrite segment_intervals_day by (done || apply segs_of_ok).
Qed.

Lemma scan_days_feed {St R} (step : St -> Interval -> St + R) k : forall n st, 0 <= n -> ok_day (n + Z.of_nat k + 5) ->
  scan_days step c n k st = Ok (feed step st (days_ivs off c n k)).
Proof.
  induction k as [|k IH]; intros n st H0 Hk; [done|]. cbn [scan_days days_ivs].
  rewrite intervalsOf_day by (unfold ok_day in *; lia). cbn [rbind]. rewrite feed_app.
  destruct (feed step st (day_ivs off c n)); [|done]. apply IH; [lia|]. unfold ok_day in *. lia.
Qed.

Lemma day_starts i j x y : ok_day (i + 1) -> i < j -> x ∈ day_ivs off c i -> y ∈ day_ivs off c j -> by_start x y.
Proof.
  intros Hi Hij Hx Hy. apply elem_of_day_ivs in Hx as (_ & _ & g & Hg & ->), Hy as (_ & _ & g' & Hg' & ->).
  pose proof (segs_of_ok i) as Hok. rewrite Forall_forall in Hok. apply Hok in Hg as [Hg _].
  pose proof (segs_of_ok j) as Hok'. rewrite Forall_forall in Hok'. apply Hok' in Hg' as [Hg' _].
  unfold by_start, minute_instant. cbn [iv_s]. apply (wall_instant_days _ off Hz _ _ (i + 1)); [|by apply Hcalm].
  unfold MS_DAY, MS_MINUTE. lia.
Qed.

Lemma days_ivs_sorted k : forall n, 0 <= n -> ok_day (n + Z.of_nat k) -> StronglySorted by_start (days_ivs off c n k).
Proof.
  induction k as [|k IH]; intros n H0 Hk; cbn [days_ivs]; [constructor|].
  apply StronglySorted_app_2; [|apply day_ivs_sorted|apply IH; [lia|unfold ok_day in *; lia]].
  intros x y Hx (j & Hj & Hy)%elem_of_days_ivs. apply (day_starts n j); [unfold ok_day in *; lia|lia|done..].
Qed.

(** No window of two days ago or earlier is still running. *)
Lemma ended_before i g a : g ∈ segs_of c i -> in_range a -> ok_day ((a + off a) / MS_DAY) ->
  i < (a + off a) / MS_DAY - 1 -> minute_instant off i g.2 <= a.
Proof.
  intros Hg Ha Hd Hi. pose proof (segs_of_ok i) as Hok. rewrite Forall_forall in Hok. apply Hok in Hg as [_ Hg].
  set (d := (a + off a) / MS_DAY) in *. assert (Hm : 0 < MS_DAY) by (unfold MS_DAY; lia).
  assert (HW : d * MS_DAY <= a + off a < (d + 1) * MS_DAY)
    by (unfold d; pose proof (Z_div_mod_eq_full (a + off a) MS_DAY); pose proof (Z.mod_pos_bound (a + off a) MS_DAY Hm); lia).
  transitivity (wall_instant off (a + off a)).
  - apply (wall_instant_days _ off Hz _ _ d); [|by apply Hcalm]. unfold MS_DAY, MS_MINUTE in *. nia.
  - destruct (Hcalm d Hd) as (T & o1 & o2 & Hch & _). pose proof (zr_bound _ _ Hz a) as Hb.
    rewrite (wall_instant_formula _ off Hz _ _ _ _ _ _ Hch) by lia. destruct Hch as [_ Hoff].
    rewrite (Hoff a) by lia.
    destruct (a <? T) eqn:E; b2p.
    + rewrite (proj2 (Z.ltb_lt (a + o1 - o1) T)) by lia. cbn [orb]. lia.
    + rewrite (proj2 (Z.ltb_ge (a + o2 - o2) T)) by lia.
      destruct (a + o2 - o1 <? T) eqn:E2; b2p; cbn [orb]; lia.
Qed.

Lemma dayNumberOf_day n : ok_day n -> dayNumberOf (date_text n) = Ok n.
Proof.
  intros Hn. unfold dayNumberOf. rewrite parseYmd_day by done. destruct (civil_of_day n) as [[y m] d] eqn:E.
  cbn [zone_err rbind]. pose proof (set_year_day n y m d 0) as Hs. rewrite !Z.add_0_r in Hs. rewrite (Hs Hn Hn E).
  f_equal. unfold DAY_MS, MS_DAY. Z.to_euclidean_division_equations; lia.
Qed.

Lemma days_ivs_app k m : forall n, days_ivs off c n (k + m) = days_ivs off c n k ++ days_ivs off c (n + Z.of_nat k) m.
Proof.
  induction k as [|k IH]; intros n; cbn [Nat.add days_ivs].
  - by rewrite Z.add_0_r.
  - rewrite IH, <- app_assoc. do 3 f_equal. lia.
Qed.

(** An instant between [a] and [b] is open exactly when the scanned days say so. *)
Lemma open_scanned a b k t : in_range a -> ok_day ((a + off a) / MS_DAY) -> a <= t < b ->
  b < ((a + off a) / MS_DAY + Z.of_nat k - 3) * MS_DAY ->
  in_ivs (days_ivs off c ((a + off a) / MS_DAY - 1) k) t <-> open_at off c t.
Proof.
  intros Ha Hd Ht Hb. set (d := (a + off a) / MS_DAY) in *. split.
  - intros (iv & (i & _ & Hi)%elem_of_days_ivs & Hiv). apply elem_of_day_ivs in Hi as (Hh & _ & g & Hg & ->).
    by exists i, g.
  - intros (n & g & Hh & Hg & Hin). exists (mkIv (minute_instant off n g.1) (minute_instant off n g.2)).
    split; [|exact Hin].
    apply elem_of_days_ivs. exists n. split; [split|].
    + apply Z.nlt_ge. intros Hlt. pose proof (ended_before n g a Hg Ha Hd Hlt). lia.
    + pose proof (segs_of_ok n) as Hok. rewrite Forall_forall in Hok. apply Hok in Hg as [Hg _].
      pose proof (wall_instant_near _ off Hz (n * MS_DAY + g.1 * MS_MINUTE)) as Hn.
      unfold minute_instant in Hin. unfold MS_DAY, MS_MINUTE in *. lia.
    + apply elem_of_day_ivs. split; [done|]. split; [unfold iv_ok; cbn [iv_s iv_e]; lia|]. by exists g.
Qed.

Lemma scan_measures a b v : 5 * MS_DAY <= a -> a < b -> b < (DAY_LIMIT - 4000) * MS_DAY ->
  for_intervalsFrom (between_step b) c a (0, a) = Ok (inr v) ->
  counts (fun t => a <= t < b /\ open_at off c t) v.
Proof.
  intros Ha Hab Hb. pose proof (zr_bound _ _ Hz a) as Hoff. set (d := (a + off a) / MS_DAY).
  assert (Hm : 0 < MS_DAY) by (unfold MS_DAY; lia).
  assert (HW : d * MS_DAY <= a + off a < (d + 1) * MS_DAY)
    by (unfold d; pose proof (Z_div_mod_eq_full (a + off a) MS_DAY); pose proof (Z.mod_pos_bound (a + off a) MS_DAY Hm); lia).
  assert (Hr : in_range a) by (unfold in_range, EARLY, LATE, DAY_LIMIT, MS_DAY in *; lia).
  assert (Hdb : 4 <= d /\ d * MS_DAY < b + MS_DAY) by (unfold MS_DAY in *; lia).
  assert (Hd : ok_day d) by (unfold ok_day, DAY_LIMIT, MS_DAY in *; lia).
  unfold for_intervalsFrom. destruct (compile_eq cal c Hcal) as (-> & _).
  destruct (localPartsOf_ymd _ off Hz a Hr Hd) as (p & -> & Hp). cbn [zone_err rbind]. rewrite Hp, dayNumberOf_day by done.
  cbn [rbind]. remember (S MAX_SCAN_DAYS) as k eqn:Ek. assert (Hk : Z.of_nat k = 3661) by (by rewrite Ek). clear Ek.
  rewrite (scan_days_feed _ k (d - 1)) by (unfold ok_day, DAY_LIMIT, MS_DAY in *; lia). intros [= Hf].
  set (m := Z.to_nat ((b - a) / MS_DAY + 10)).
  assert (Hm' : (b - a) / MS_DAY * MS_DAY <= b - a < ((b - a) / MS_DAY + 1) * MS_DAY)
    by (pose proof (Z_div_mod_eq_full (b - a) MS_DAY); pose proof (Z.mod_pos_bound (b - a) MS_DAY Hm); lia).
  assert (Hq : 0 <= (b - a) / MS_DAY) by (apply Z.div_pos; lia).
  assert (Hkm : Z.of_nat (k + m) = 3661 + ((b - a) / MS_DAY + 10)) by (unfold m; lia).
  assert (Hf' : feed (between_step b) (0, a) (days_ivs off c (d - 1) (k + m)) = inr v)
    by (rewrite days_ivs_app, feed_app, Hf; done).
  apply sweep_counts in Hf'; [|apply days_ivs_sorted; unfold ok_day, DAY_LIMIT, MS_DAY in *; lia].
  rewrite Z.sub_0_r in Hf'. eapply counts_iff; [|exact Hf'].
  intros t. cbn beta. split; intros [Ht Ho]; (split; [done|]); apply (open_scanned a b (k + m) t Hr Hd Ht) in Ho; try done;
    fold d; unfold MS_DAY in *; lia.
Qed.
End calm.

(** C37: Measuring business time measures the opening hours.  Take a calendar
    whose zone changes its clocks at most once a week or so, never so late in
    the evening that the skipped times, read at the old offset, reach the
    next date.  Then whenever [businessMsBetween] answers for two instants in
    order, its answer is the number of milliseconds from the first
    (inclusive) to the second (exclusive) that are open: in a merged segment
    of a local day that is no holiday, the segment's ends read by the
    converter (overnight windows, overlapping windows and changes of the
    clocks included, no millisecond counted twice). *)
Theorem between_measures `{Intl} cal c off a b v :
  compile cal = Ok c -> zone_runs (bc_timezone cal) off -> (forall k, ok_day k -> calm_at off (k * MS_DAY)) ->
  5 * MS_DAY <= a -> a <= b -> b < (DAY_LIMIT - 4000) * MS_DAY ->
  businessMsBetween (Some a) (Some b) (Some cal) = Ok v ->
  counts (fun t => a <= t < b /\ open_at off c t) v.
Proof.
  intros Hc Hz Hcalm Ha Hab Hb. unfold businessMsBetween. cbn [assertInstant rbind].
  destruct (a =? b) eqn:E; b2p; [intros [= <-]; apply counts_none; intros t [? _]; lia|].
  rewrite (proj2 (Z.ltb_ge _ _)) by lia. unfold between_ordered. rewrite Hc. cbn [rbind].
  destruct (cp_empty c) eqn:He.
  - intros [= <-]. apply counts_none. intros t (_ & n & g & _ & Hg & _).
    destruct (compile_eq cal c Hc) as (_ & _ & _ & Hnil). unfold segs_of in Hg.
    destruct (cp_byWeekday c !! _) as [segs|] eqn:El; cbn [default from_option] in Hg; [|by apply elem_of_nil in Hg].
    apply list_elem_of_lookup_2 in El. apply (Hnil He) in El. subst segs. by apply elem_of_nil in Hg.
  - rewrite rbind_ok. intros ([st|v'] & Hs & [= ->]). eapply (scan_measures cal c off); try done. lia.
Qed.

(** ** A calm zone, and a calendar in it *)

Lemma ny_calm k : ok_day k -> calm_at ny_off (k * MS_DAY).
Proof.
  intros _. set (x := k * MS_DAY). unfold calm_at.
  destruct (decide (x - 3 * MS_DAY < ny_change <= x + 3 * MS_DAY)) as [Hin|Hout].
  - exists ny_change, (-5 * MS_HOUR), (-4 * MS_HOUR). split; [by apply ny_one_change|]. intros _. by vm_compute.
  - exists x, (ny_off x), (ny_off x). split; [|unfold skip_within_day; lia].
    unfold one_change. split; [unfold MS_DAY; lia|]. intros t Ht. unfold ny_off. repeat case_match; b2p; try done; unfold MS_DAY in *; lia.
Qed.

Definition office_compiled : Compiled :=
  mkCompiled ny_zone [[]; [(540, 1020)]; [(540, 1020)]; [(540, 1020)]; [(540, 1020)]; [(540, 1020)]; []] [js "2026-03-09"] false.

(** From Friday 6 March 2026, 00:00 UTC, to Tuesday 10 March, 18:00 UTC:
    thirteen working hours. *)
Lemma between_measures_witness :
  counts (fun t => 1772755200000 <= t < 1773165600000 /\ open_at ny_off office_compiled t) 46800000.
Proof.
  apply (@between_measures (intl_of ny_off) office_hours office_compiled ny_off).
  - vm_compute. reflexivity.
  - apply ny_runs.
  - exact ny_calm.
  - vm_compute. done.
  - vm_compute. done.
  - vm_compute. done.
  - vm_compute. reflexivity.
Defined.

(** C39: A compiled calendar is well formed and says what the windows say.
    Whatever windows an accepted calendar lists (overlapping, adjacent,
    duplicate, overnight or of no length), every weekday gets segments that
    start on that day, have a length, end within the next day, lie apart in
    order, and cover exactly the minutes of that weekday's windows. *)
Theorem compile_covers_windows `{Intl} cal c day :
  compile cal = Ok c -> 0 <= day < 7 ->
  exists segs, cp_byWeekday c !! Z.to_nat day = Some segs /\ Forall seg_ok segs /\ apart segs /\
    forall m, in_segs segs m <-> exists w, w ∈ bc_windows cal /\ bw_day w = day /\ window_minute w m.
Proof.
  intros Hc Hd. destruct (compile_eq cal c Hc) as (_ & _ & Hw & _). eexists. split; [by apply Hw|].
  destruct (merge_segments_spec _ (perDay_ok (bc_windows cal) day)) as (H1 & H2 & H3).
  split_and!; [done..|]. intros m. by rewrite H3, perDay_minutes.
Qed.

(** Two overlapping windows, an overnight one and one of no length. *)
Definition busy_calendar : BusinessCalendar :=
  mkCalendar ny_zone [mkWindow 1 (js "12:00") (js "18:00"); mkWindow 1 (js "09:00") (js "13:00");
                      mkWindow 1 (js "22:00") (js "06:00"); mkWindow 1 (js "07:00") (js "07:00")] [].

Lemma compile_covers_windows_witness :
  exists segs, [[]; [(540, 1080); (1320, 1800)]; []; []; []; []; []] !! Z.to_nat 1 = Some segs /\
    Forall seg_ok segs /\ apart segs /\
    forall m, in_segs segs m <-> exists w, w ∈ bc_windows busy_calendar /\ bw_day w = 1 /\ window_minute w m.
Proof.
  apply (@compile_covers_windows (intl_of ny_off) busy_calendar
    (mkCompiled ny_zone [[]; [(540, 1080); (1320, 1800)]; []; []; []; []; []] [] false) 1).
  - vm_compute. reflexivity.
  - lia.
Defined.

(** ** Clocks put forward at 23:00 *)

(** America/Nuuk on 28 March 2026: 23:00 becomes midnight.  Saturday's window
    of 23:30 to 06:00 is then read from 00:30 on Sunday, after Sunday's own
    window has opened: the intervals of the two days come out of order. *)
Definition nuuk_change : Z := 1774746000000.
Definition nuuk_off (t : Z) : Z := if t <? nuuk_change then -2 * MS_HOUR else -1 * MS_HOUR.
Definition nuuk_hours : BusinessCalendar :=
  mkCalendar (js "America/Nuuk") [mkWindow 6 (js "23:30") (js "06:00"); mkWindow 0 (js "00:00") (js "08:00")] [].
Definition nuuk_compiled : Compiled :=
  mkCompiled (js "America/Nuuk") [[(0, 480)]; []; []; []; []; []; [(1410, 1800)]] [] false.

(** The eight hours after the change are all open, but the code counts seven
    and a half of them; up to twenty minutes after the change it counts none. *)
Lemma late_skip_undercounts :
  @compile (intl_of nuuk_off) nuuk_hours = Ok nuuk_compiled /\
  (forall t, nuuk_change <= t < nuuk_change + 8 * MS_HOUR -> open_at nuuk_off nuuk_compiled t) /\
  @businessMsBetween (intl_of nuuk_off) (Some nuuk_change) (Some (nuuk_change + 8 * MS_HOUR)) (Some nuuk_hours)
    = Ok (8 * MS_HOUR - 30 * MS_MINUTE) /\
  @businessMsBetween (intl_of nuuk_off) (Some nuuk_change) (Some (nuuk_change + 20 * MS_MINUTE)) (Some nuuk_hours) = Ok 0.
Proof.
  split_and!; [vm_compute; reflexivity| |vm_compute; reflexivity..].
  intros t Ht. exists (nuuk_change / MS_DAY), (0, 480). split_and!.
  - by apply not_elem_of_nil.
  - vm_compute. by apply list_elem_of_singleton.
  - replace (minute_instant _ _ _) with nuuk_change by (vm_compute; reflexivity). lia.
  - replace (minute_instant _ _ _) with (nuuk_change + 8 * MS_HOUR) by (vm_compute; reflexivity). lia.
Qed.

(** ** The day cache *)

(** The cache only holds answers, so remembering changes none of them. *)
Definition cache_ok `{Intl} (c : Compiled) (cache : gmap Z (list Interval)) : Prop :=
  forall n ivs, cache !! n = Some ivs -> intervalsOf c n = Ok ivs.

Lemma intervalsOf_cached_eq `{Intl} c cache n : cache_ok c cache ->
  (intervalsOf_cached c cache n).2 = intervalsOf c n /\ cache_ok c (intervalsOf_cached c cache n).1.
Proof.
  intros Hc. unfold intervalsOf_cached. destruct (cache !! n) as [ivs|] eqn:E; [split; [symmetry; by apply Hc|done]|].
  destruct (intervalsOf c n) as [out|e] eqn:Eo; [|done]. split; [done|]. intros m ivs Hm. cbn [fst] in Hm.
  apply lookup_insert_Some in Hm as [[<- <-]|[_ Hm]]; [done|].
  destruct (Nat.leb DAY_CACHE_LIMIT (size cache)); [by rewrite lookup_empty in Hm|by apply Hc].
Qed.
