(* ===== verification/Sla.v ===== *)
(** * Sla: promises of the support desk
      (apps/orchestrator/src/services/support/sla-engine.ts,
       sla-clock.service.ts, sla-schemas.ts and sla-runtime.ts)

    The pure SLA clock, the synchronisation of one ticket's clock inside its
    transaction, with its escalations and its recursive call, and the sweep
    that walks all tickets.  The rows are typed: JSON columns hold the records
    the code writes.  The eligibility check of an assignee is a parameter. *)

From Stdlib Require Import QArith.
From S2P Require Import Prelude JsNum Json DateTime ZonedTime BusinessTime.

Local Open Scope Z_scope.

(** ** Data *)

Inductive Priority := P_none | P_low | P_medium | P_high | P_urgent.
Inductive SlaMetric := M_firstResponse | M_nextResponse | M_resolution.
Inductive SlaStatus := S_NONE | S_ON_TRACK | S_AT_RISK | S_BREACHED | S_MET | S_PAUSED.
Inductive SlaClock := C_RUNNING | C_PAUSED | C_STOPPED.
Inductive SlaEvent := E_tick | E_create | E_priority | E_escalation_priority | E_state | E_reply | E_requester.

#[export] Instance Priority_eq_dec : EqDecision Priority.
Proof. solve_decision. Defined.
#[export] Instance SlaMetric_eq_dec : EqDecision SlaMetric.
Proof. solve_decision. Defined.
#[export] Instance SlaStatus_eq_dec : EqDecision SlaStatus.
Proof. solve_decision. Defined.
#[export] Instance SlaClock_eq_dec : EqDecision SlaClock.
Proof. solve_decision. Defined.
#[export] Instance SlaEvent_eq_dec : EqDecision SlaEvent.
Proof. solve_decision. Defined.

Record SlaTerms := mkTerms {
  st_priority : option Priority;
  st_firstResponseMins : option Z; st_nextResponseMins : option Z; st_resolutionMins : option Z;
  st_atRiskPercent : Z; st_calendar : option BusinessCalendar;
  (** An ISO text in the column; the instant it denotes here. *)
  st_nextResponseStartedAt : option Z; st_nextResponsePausedMs : Z;
  st_notified : list SlaStatus
}.

Record SlaClockInput := mkInput {
  in_createdAt : Z; in_now : Z; in_clock : SlaClock;
  in_firstRespondedAt : option Z; in_solvedAt : option Z;
  in_pausedMs : Z; in_pausedAt : option Z; in_terms : SlaTerms; in_previousStatus : SlaStatus
}.

Record SlaClockResult := mkResult {
  sr_firstResponseDueAt : option date; sr_nextResponseDueAt : option date; sr_resolutionDueAt : option date;
  sr_slaPausedMs : Z; sr_slaPausedAt : option Z; sr_slaStatus : SlaStatus;
  sr_metric : option SlaMetric; sr_remainingBusinessMs : option Z
}.

Inductive SlaError :=
| InvalidSlaClock | BusinessError (e : RangeError) | UnreadableTerms | UnreadablePolicy | AgentCheckFailed | OutOfFuel.

Definition business {A} (r : result RangeError A) : result SlaError A :=
  match r with Ok a => Ok a | Throw e => Throw (BusinessError e) end.

Definition ranks (s : SlaStatus) : Z :=
  match s with S_NONE => -1 | S_ON_TRACK => 0 | S_AT_RISK => 1 | S_BREACHED => 2 | _ => 0 end.

Definition MAX_SAFE_INTEGER : Z := 9007199254740991.

Section sla.
Context `{Intl}.

(** ** Reading stored terms *)

Definition minutes_ok (m : option Z) : bool :=
  match m with None => true | Some m => (1 <=? m) && (m <=? 525600) end.

Definition notifiable (s : SlaStatus) : bool := match s with S_AT_RISK | S_BREACHED => true | _ => false end.

Definition parseSlaTerms (t : SlaTerms) : result SlaError SlaTerms :=
  if minutes_ok (st_firstResponseMins t) && minutes_ok (st_nextResponseMins t) && minutes_ok (st_resolutionMins t) &&
     (1 <=? st_atRiskPercent t) && (st_atRiskPercent t <=? 99) &&
     (0 <=? st_nextResponsePausedMs t) && (st_nextResponsePausedMs t <=? MAX_SAFE_INTEGER) &&
     forallb notifiable (st_notified t) && Nat.leb (length (st_notified t)) 2
  then match st_calendar t with
       | None => Ok t
       | Some cal =>
           let! cal := business (validateCalendarForSave (calendar_value cal)) in
           Ok (mkTerms (st_priority t) (st_firstResponseMins t) (st_nextResponseMins t) (st_resolutionMins t)
                 (st_atRiskPercent t) (Some cal) (st_nextResponseStartedAt t) (st_nextResponsePausedMs t) (st_notified t))
       end
  else Throw UnreadableTerms.

(** ** The clock *)

(** A target of the loop: metric, start, minutes, paused time in its deadline,
    whether it still runs. *)
Record Target := mkTarget { tg_name : SlaMetric; tg_start : Z; tg_mins : Z; tg_paused : Z; tg_active : bool }.

(** The variables of the loop. *)
Record LoopState := mkLoop {
  ls_status : SlaStatus; ls_metric : option SlaMetric; ls_remaining : option Z; ls_dues : list (SlaMetric * date)
}.

Definition candidate_status (active : bool) (elapsed mins atRiskPercent : Z) : SlaStatus :=
  if mins * 60000 <=? elapsed then S_BREACHED
  else if active && (mins * 60000 * atRiskPercent <=? elapsed * 100) then S_AT_RISK else S_ON_TRACK.

Definition eval_target (input : SlaClockInput) (pausedMs at_ : Z) (st : LoopState) (tg : Target) : result SlaError LoopState :=
  let terms := in_terms input in
  if tg_mins tg =? 0 then Ok st else
  let completion := match tg_name tg with
                    | M_firstResponse => in_firstRespondedAt input
                    | M_resolution => in_solvedAt input
                    | M_nextResponse => None
                    end in
  if negb (tg_active tg) && bool_decide (completion = None) then Ok st else
  let! due := business (addBusinessMs (Some (tg_start tg)) (Some (inject_Z (tg_mins tg * 60000 + tg_paused tg))) (st_calendar terms)) in
  let checkpoint := default at_ completion in
  let credit := Z.max 0 (pausedMs - match tg_name tg with M_nextResponse => st_nextResponsePausedMs terms | _ => 0 end) in
  let! worked := business (businessMsBetween (Some (tg_start tg)) (Some checkpoint) (st_calendar terms)) in
  let elapsed := Z.max 0 (worked - credit) in
  let candidate := candidate_status (tg_active tg) elapsed (tg_mins tg) (st_atRiskPercent terms) in
  let '(status, metric) := if ranks (ls_status st) <? ranks candidate then (candidate, Some (tg_name tg))
                           else (ls_status st, ls_metric st) in
  if tg_active tg then
    let! worked_at := business (businessMsBetween (Some (tg_start tg)) (Some at_) (st_calendar terms)) in
    let left_ := Z.max 0 (tg_mins tg * 60000 - Z.max 0 (worked_at - credit)) in
    Ok (mkLoop status metric (Some match ls_remaining st with None => left_ | Some r => Z.min r left_ end)
               ((tg_name tg, due) :: ls_dues st))
  else Ok (mkLoop status metric (ls_remaining st) (ls_dues st)).

Fixpoint eval_targets (input : SlaClockInput) (pausedMs at_ : Z) (st : LoopState) (tgs : list Target) : result SlaError LoopState :=
  match tgs with
  | [] => Ok st
  | tg :: r => let! st := eval_target input pausedMs at_ st tg in eval_targets input pausedMs at_ st r
  end.

Definition due_of (m : SlaMetric) (dues : list (SlaMetric * date)) : option date :=
  e ← list_find (fun e => e.1 = m) dues; Some e.2.2.

(** What the loop is run on: paused time, pause start, the instant to judge
    at, and the paused time that deadlines carry. *)
Definition pause_state (input : SlaClockInput) : result SlaError (Z * option Z * Z * Z) :=
  let now := in_now input in
  let pauseEnd := match in_clock input with C_STOPPED => default now (in_solvedAt input) | _ => now end in
  let! accrued := match in_pausedAt input with
                  | Some p => let! v := business (businessMsBetween (Some p) (Some pauseEnd) (st_calendar (in_terms input))) in Ok (Z.max 0 v)
                  | None => Ok 0
                  end in
  let paused := bool_decide (in_clock input = C_PAUSED) in
  let pausedMs := in_pausedMs input + (if paused then 0 else accrued) in
  let pausedAt := if paused then Some (default now (in_pausedAt input)) else None in
  let at_ := match in_clock input with
             | C_PAUSED => default now (in_pausedAt input)
             | C_STOPPED => default now (in_solvedAt input)
             | C_RUNNING => now
             end in
  Ok (pausedMs, pausedAt, at_, pausedMs + (if paused then accrued else 0)).

Definition targets_of (input : SlaClockInput) (deadlinePaused : Z) : list Target :=
  let terms := in_terms input in
  [mkTarget M_firstResponse (in_createdAt input) (default 0 (st_firstResponseMins terms)) deadlinePaused
            (bool_decide (in_firstRespondedAt input = None));
   mkTarget M_nextResponse (default (in_createdAt input) (st_nextResponseStartedAt terms)) (default 0 (st_nextResponseMins terms))
            (Z.max 0 (deadlinePaused - st_nextResponsePausedMs terms)) (negb (bool_decide (st_nextResponseStartedAt terms = None)));
   mkTarget M_resolution (in_createdAt input) (default 0 (st_resolutionMins terms)) deadlinePaused
            (bool_decide (in_solvedAt input = None))].

Definition final_status (previous : SlaStatus) (clock : SlaClock) (status : SlaStatus) : SlaStatus :=
  if decide (previous = S_BREACHED) then S_BREACHED
  else if decide (status = S_BREACHED) then S_BREACHED
  else match clock with C_PAUSED => S_PAUSED | C_STOPPED => S_MET | C_RUNNING => status end.

(** Rows hold valid instants, so the guards on [createdAt] and [now] hold. *)
Definition evaluateSla (input : SlaClockInput) : result SlaError SlaClockResult :=
  if negb ((0 <=? in_pausedMs input) && (in_pausedMs input <=? MAX_SAFE_INTEGER)) then Throw InvalidSlaClock else
  let! '(pausedMs, pausedAt, at_, deadlinePaused) := pause_state input in
  let! st := eval_targets input pausedMs at_ (mkLoop S_ON_TRACK None None []) (targets_of input deadlinePaused) in
  Ok (mkResult (due_of M_firstResponse (ls_dues st)) (due_of M_nextResponse (ls_dues st)) (due_of M_resolution (ls_dues st))
        pausedMs pausedAt (final_status (in_previousStatus input) (in_clock input) (ls_status st))
        (ls_metric st) (ls_remaining st)).

End sla.

(** ** Policies *)

Inductive Action := RaisePriority | Reassign (userId : jsstr) | Notify (userIds : list jsstr).

Record Escalation := mkEscalation { es_on : SlaStatus; es_metric : option SlaMetric; es_actions : list Action }.

Record TargetMins := mkTargetMins { tm_first : option Z; tm_next : option Z; tm_resolution : option Z }.

Record PolicyRow := mkPolicy {
  pr_enabled : bool; pr_targets : Priority -> option TargetMins; pr_atRiskPercent : Z;
  pr_escalation : list Escalation; pr_calendar : option jsval
}.

Definition id_ok (s : jsstr) : bool := Nat.leb 1 (length s) && Nat.leb (length s) 64.

Definition action_ok (a : Action) : bool :=
  match a with
  | RaisePriority => true
  | Reassign u => id_ok u
  | Notify us => Nat.leb 1 (length us) && Nat.leb (length us) 50 && forallb id_ok us
  end.

Definition is_reassign (a : Action) : bool := match a with Reassign _ => true | _ => false end.

Definition escalation_ok (e : Escalation) : bool :=
  notifiable (es_on e) && Nat.leb 1 (length (es_actions e)) && Nat.leb (length (es_actions e)) 10 &&
  forallb action_ok (es_actions e) && Nat.leb (length (List.filter is_reassign (es_actions e))) 1.

Definition target_ok (t : TargetMins) : bool :=
  minutes_ok (tm_first t) && minutes_ok (tm_next t) && minutes_ok (tm_resolution t) &&
  negb (bool_decide (tm_first t = None) && bool_decide (tm_next t = None) && bool_decide (tm_resolution t = None)).

(** [policySchema.parse] of the row's columns. *)
Definition policySchema (p : PolicyRow) : bool :=
  forallb (fun pr => match pr_targets p pr with None => true | Some t => target_ok t end) [P_urgent; P_high; P_medium; P_low; P_none] &&
  (1 <=? pr_atRiskPercent p) && (pr_atRiskPercent p <=? 99) &&
  Nat.leb (length (pr_escalation p)) 20 && forallb escalation_ok (pr_escalation p).

Definition read_policy (row : option PolicyRow) : result SlaError (option PolicyRow) :=
  match row with
  | Some p => if pr_enabled p then if policySchema p then Ok (Some p) else Throw UnreadablePolicy else Ok None
  | None => Ok None
  end.

(** ** Rows *)

Record Ticket := mkTicket {
  tk_firstRespondedAt : option Z; tk_solvedAt : option Z;
  tk_slaPausedMs : Z; tk_slaPausedAt : option Z; tk_slaStatus : SlaStatus; tk_slaTargets : option SlaTerms;
  tk_firstResponseDueAt : option date; tk_nextResponseDueAt : option date; tk_resolutionDueAt : option date
}.

Record WorkItem := mkItem {
  wi_serviceDesk : bool; wi_archived : bool; wi_projectArchived : bool; wi_createdAt : Z; wi_priority : Priority;
  wi_clock : option SlaClock; wi_assignees : list jsstr; wi_ticket : option Ticket
}.

Inductive Activity :=
| ActSla (status : SlaStatus) (metric : option SlaMetric) (old : SlaStatus)
| ActPriority (old new : Priority)
| ActAssigned (userId : jsstr)
| ActOther.

(** One ticket's rows as its transaction sees them. *)
Record TicketTx := mkTx { tx_row : WorkItem; tx_activities : list Activity }.

Abbreviation clock_handler := (handler TicketTx SlaError).

Definition lift {A} (r : result SlaError A) : clock_handler A := fun s => (s, r).
Definition update_row (f : WorkItem -> WorkItem) : clock_handler unit :=
  fun s => (mkTx (f (tx_row s)) (tx_activities s), Ok tt).
Definition writeActivity (a : Activity) : clock_handler unit :=
  fun s => (mkTx (tx_row s) (tx_activities s ++ [a]), Ok tt).

Definition set_ticket (t : Ticket) (w : WorkItem) : WorkItem :=
  mkItem (wi_serviceDesk w) (wi_archived w) (wi_projectArchived w) (wi_createdAt w) (wi_priority w) (wi_clock w) (wi_assignees w) (Some t).
Definition set_priority (p : Priority) (w : WorkItem) : WorkItem :=
  mkItem (wi_serviceDesk w) (wi_archived w) (wi_projectArchived w) (wi_createdAt w) p (wi_clock w) (wi_assignees w) (wi_ticket w).
Definition set_assignees (l : list jsstr) (w : WorkItem) : WorkItem :=
  mkItem (wi_serviceDesk w) (wi_archived w) (wi_projectArchived w) (wi_createdAt w) (wi_priority w) (wi_clock w) l (wi_ticket w).

Definition set_notified (l : list SlaStatus) (t : SlaTerms) : SlaTerms :=
  mkTerms (st_priority t) (st_firstResponseMins t) (st_nextResponseMins t) (st_resolutionMins t) (st_atRiskPercent t)
    (st_calendar t) (st_nextResponseStartedAt t) (st_nextResponsePausedMs t) l.
Definition set_waiting (started : option Z) (paused : Z) (t : SlaTerms) : SlaTerms :=
  mkTerms (st_priority t) (st_firstResponseMins t) (st_nextResponseMins t) (st_resolutionMins t) (st_atRiskPercent t)
    (st_calendar t) started paused (st_notified t).

(** ** Synchronising one ticket *)

Section sync.
Context `{Intl}.

Definition only_breached (l : list SlaStatus) : list SlaStatus := filter (fun s => s = S_BREACHED) l.

(** New terms on creation and on a change of priority, else those there are. *)
Definition retarget (polRow policy : option PolicyRow) (event : SlaEvent) (priority : Priority) (terms : option SlaTerms)
    : result SlaError (option SlaTerms) :=
  if (bool_decide (event = E_create) && bool_decide (terms = None)) ||
     ((bool_decide (event = E_priority) || bool_decide (event = E_escalation_priority)) &&
      negb (bool_decide ((terms ≫= st_priority) = Some priority)))
  then
    match policy ≫= fun p => (fun t => (p, t)) <$> pr_targets p priority with
    | None => Ok None
    | Some (p, target) =>
        let! calendar := match terms with
                         | Some t => Ok (st_calendar t)
                         | None => match polRow ≫= pr_calendar with
                                   | Some v => let! c := business (validateCalendarForSave v) in Ok (Some c)
                                   | None => Ok None
                                   end
                         end in
        Ok (Some (mkTerms (Some priority) (tm_first target) (tm_next target) (tm_resolution target) (pr_atRiskPercent p)
                    calendar (terms ≫= st_nextResponseStartedAt) (default 0 (st_nextResponsePausedMs <$> terms))
                    (let told := default [] (st_notified <$> terms) in
                     if decide (event = E_escalation_priority) then told else only_breached told)))
    end
  else Ok terms.

(** [Prisma.DbNull] and no deadlines: the ticket has no promise. *)
Definition clear_terms (t : Ticket) : Ticket :=
  mkTicket (tk_firstRespondedAt t) (tk_solvedAt t) (tk_slaPausedMs t) (tk_slaPausedAt t) S_NONE None None None None.

Definition clock_input (row : WorkItem) (t : Ticket) (now : Z) (terms : SlaTerms) : SlaClockInput :=
  mkInput (wi_createdAt row) now (default C_RUNNING (wi_clock row)) (tk_firstRespondedAt t) (tk_solvedAt t)
    (tk_slaPausedMs t) (tk_slaPausedAt t) terms (tk_slaStatus t).

(** The terms as the event leaves them: a reply ends the wait, a requester's
    message starts one. *)
Definition event_terms (t : Ticket) (now : Z) (event : SlaEvent) (terms : SlaTerms) : result SlaError SlaTerms :=
  let terms := if decide (event = E_reply) then set_waiting None (st_nextResponsePausedMs terms) terms else terms in
  if bool_decide (event = E_requester) && negb (bool_decide (tk_firstRespondedAt t = None)) &&
     bool_decide (st_nextResponseStartedAt terms = None)
  then let! extra := match tk_slaPausedAt t with
                     | Some p => let! v := business (businessMsBetween (Some p) (Some now) (st_calendar terms)) in Ok (Z.max 0 v)
                     | None => Ok 0
                     end in
       Ok (set_waiting (Some now) (tk_slaPausedMs t + extra) terms)
  else Ok terms.

(** Status, metric and terms to store, and whether the status is news. *)
Definition settle (row : WorkItem) (t : Ticket) (now : Z) (event : SlaEvent) (terms : SlaTerms)
    : result SlaError (SlaClockResult * SlaStatus * option SlaMetric * SlaTerms * bool) :=
  let! beforeReply := if decide (event = E_reply)
                      then let! r := evaluateSla (clock_input row t now terms) in Ok (Some r) else Ok None in
  let! terms := event_terms t now event terms in
  let! result := evaluateSla (clock_input row t now terms) in
  let '(status, metric) := match beforeReply with
                           | Some b => if decide (sr_slaStatus b = S_BREACHED) then (S_BREACHED, sr_metric b)
                                       else (sr_slaStatus result, sr_metric result)
                           | None => (sr_slaStatus result, sr_metric result)
                           end in
  let terms := if bool_decide (event = E_reply) && bool_decide (status = S_ON_TRACK)
               then set_notified (only_breached (st_notified terms)) terms else terms in
  let transition := notifiable status && negb (bool_decide (status ∈ st_notified terms)) in
  Ok (result, status, metric, if transition then set_notified (st_notified terms ++ [status]) terms else terms, transition).

Definition settled_ticket (t : Ticket) (r : SlaClockResult) (status : SlaStatus) (terms : SlaTerms) : Ticket :=
  mkTicket (tk_firstRespondedAt t) (tk_solvedAt t) (sr_slaPausedMs r) (sr_slaPausedAt r) status (Some terms)
    (sr_firstResponseDueAt r) (sr_nextResponseDueAt r) (sr_resolutionDueAt r).

(** ** Escalation *)

(** [order[Math.min(order.indexOf(p) + 1, 4)]] *)
Definition next_priority (p : Priority) : Priority :=
  match p with P_none => P_low | P_low => P_medium | P_medium => P_high | P_high => P_urgent | P_urgent => P_urgent end.

Inductive AgentCheck := AgentOk | InvalidAssignee | AgentError.
Variable assertAgent : jsstr -> AgentCheck.

(** One action; [(raised, effectivePriority)] is the loop's state, [row] the
    row as it was read. *)
Definition run_action (row : WorkItem) (st : bool * Priority) (a : Action) : clock_handler (bool * Priority) :=
  match a with
  | RaisePriority =>
      let priority := next_priority st.2 in
      if decide (priority = st.2) then hret st else
      run! update_row (set_priority priority);
      run! writeActivity (ActPriority st.2 priority);
      hret (true, priority)
  | Reassign userId =>
      match assertAgent userId with
      | InvalidAssignee => hret st
      | AgentError => hthrow AgentCheckFailed
      | AgentOk =>
          if decide (userId ∈ wi_assignees row) then hret st else
          run! update_row (set_assignees [userId]);
          run! writeActivity (ActAssigned userId);
          hret st
      end
  | Notify _ => hret st
  end.

Fixpoint run_actions (row : WorkItem) (st : bool * Priority) (l : list Action) : clock_handler (bool * Priority) :=
  match l with [] => hret st | a :: r => do! st <- run_action row st a; run_actions row st r end.

Definition escalation_applies (status : SlaStatus) (metric : option SlaMetric) (e : Escalation) : bool :=
  bool_decide (es_on e = status) && (bool_decide (es_metric e = None) || bool_decide (es_metric e = metric)).

Fixpoint run_escalations (row : WorkItem) (status : SlaStatus) (metric : option SlaMetric) (st : bool * Priority)
    (l : list Escalation) : clock_handler (bool * Priority) :=
  match l with
  | [] => hret st
  | e :: r => if escalation_applies status metric e
              then do! st <- run_actions row st (es_actions e); run_escalations row status metric st r
              else run_escalations row status metric st r
  end.

(** ** The whole synchronisation *)

(** The body of [syncTicketSla]; [again] is its recursive call. *)
Definition sync_body (again : clock_handler unit) (polRow : option PolicyRow) (now : Z) (event : SlaEvent) : clock_handler unit :=
  do! s <- hget;
  let row := tx_row s in
  if negb (wi_serviceDesk row) || wi_archived row then hret tt else
  match wi_ticket row with
  | None => hret tt
  | Some ticket =>
      do! policy <- lift (read_policy polRow);
      do! stored <- lift (match tk_slaTargets ticket with
                          | None => Ok None
                          | Some t => let! t := parseSlaTerms t in Ok (Some t)
                          end);
      do! terms <- lift (retarget polRow policy event (wi_priority row) stored);
      match terms with
      | None => update_row (set_ticket (clear_terms ticket))
      | Some terms =>
          do! out <- lift (settle row ticket now event terms);
          let '(result, status, metric, terms, transition) := out in
          run! update_row (set_ticket (settled_ticket ticket result status terms));
          if negb transition then hret tt else
          run! writeActivity (ActSla status metric (tk_slaStatus ticket));
          do! st <- run_escalations row status metric (false, wi_priority row) (default [] (pr_escalation <$> policy));
          if st.1 then again else hret tt
      end
  end.

(** [fuel] bounds the calls inside one another. *)
Fixpoint sync (fuel : nat) (polRow : option PolicyRow) (now : Z) (event : SlaEvent) : clock_handler unit :=
  match fuel with
  | O => hthrow OutOfFuel
  | S fuel => sync_body (sync fuel polRow now E_escalation_priority) polRow now event
  end.

(** Five calls are enough: each one inside another finds a higher priority
    ([sync_terminates]). *)
Definition syncTicketSla := sync 5.
End sync.

(** ** What a handler leaves and how it fails *)

(** From [P], a normal answer leaves [Q]; an error satisfies [E]. *)
Definition outcome {S Er A} (P : S -> Prop) (m : handler S Er A) (Q : A -> S -> Prop) (E : Er -> Prop) : Prop :=
  forall s, P s -> match m s with (s', Ok a) => Q a s' | (_, Throw e) => E e end.

Lemma outcome_bind {S Er A B} (P : S -> Prop) (m : handler S Er A) (f : A -> handler S Er B) Q R E :
  outcome P m Q E -> (forall a, outcome (Q a) (f a) R E) -> outcome P (hbind m f) R E.
Proof.
  intros Hm Hf s Hs. specialize (Hm s Hs). unfold hbind. destruct (m s) as [s' [a|e]]; [|done]. by apply Hf.
Qed.

(** ** Escalation raises the priority and touches no clock *)

Definition rank (p : Priority) : nat :=
  match p with P_none => 0 | P_low => 1 | P_medium => 2 | P_high => 3 | P_urgent => 4 end.

Lemma rank_next p : next_priority p <> p -> (rank p < rank (next_priority p))%nat.
Proof. destruct p; simpl; intros; (lia || done). Qed.

Definition not_sla (a : Activity) : Prop := match a with ActSla _ _ _ => False | _ => True end.

(** The rows at [s'] against those at [s], as far as the clock cares. *)
Definition same_clock (s s' : TicketTx) : Prop :=
  wi_ticket (tx_row s') = wi_ticket (tx_row s) /\
  exists l, tx_activities s' = tx_activities s ++ l /\ Forall not_sla l.

Lemma same_clock_refl s : same_clock s s.
Proof. split; [done|]. exists []. by rewrite app_nil_r. Qed.

Lemma same_clock_trans s1 s2 s3 : same_clock s1 s2 -> same_clock s2 s3 -> same_clock s1 s3.
Proof.
  intros [H1 (l1 & E1 & F1)] [H2 (l2 & E2 & F2)]. split; [congruence|]. exists (l1 ++ l2).
  rewrite E2, E1, <- app_assoc. split; [done|]. by apply Forall_app.
Qed.

(** The escalation loop's state: nothing raised yet, or the row carries a
    higher priority than [p0]. *)
Definition raised_ok (p0 : Priority) (st : bool * Priority) (s : TicketTx) : Prop :=
  if st.1 then wi_priority (tx_row s) = st.2 /\ (rank p0 < rank st.2)%nat else st.2 = p0.

Section escalation.
Context (assertAgent : jsstr -> AgentCheck) (row : WorkItem) (p0 : Priority) (s0 : TicketTx).

Definition esc_inv (st : bool * Priority) (s : TicketTx) : Prop := same_clock s0 s /\ raised_ok p0 st s.

Lemma run_action_ok st a :
  outcome (esc_inv st) (run_action assertAgent row st a) esc_inv (fun e => e = AgentCheckFailed).
Proof.
  intros s [Hs Hr]. destruct a as [|u|us]; cbn [run_action].
  - destruct (decide (next_priority st.2 = st.2)) as [|Hne]; [by split|]. cbn. split.
    + eapply same_clock_trans; [exact Hs|]. split; [done|]. exists [ActPriority st.2 (next_priority st.2)].
      split; [done|]. by apply Forall_singleton.
    + unfold raised_ok in *. cbn. split; [done|]. pose proof (rank_next _ Hne).
      destruct st as [[] p]; cbn in *; [lia|by subst].
  - destruct (assertAgent u); [|by split|done]. destruct (decide (u ∈ wi_assignees row)); [by split|]. cbn. split.
    + eapply same_clock_trans; [exact Hs|]. split; [done|]. exists [ActAssigned u].
      split; [done|]. by apply Forall_singleton.
    + unfold raised_ok in *. by destruct st as [[] p].
  - by split.
Qed.

Lemma run_actions_ok l : forall st,
  outcome (esc_inv st) (run_actions assertAgent row st l) esc_inv (fun e => e = AgentCheckFailed).
Proof.
  induction l as [|a l IH]; intros st; cbn [run_actions]; [by intros s Hs|].
  eapply outcome_bind; [apply run_action_ok|]. intros st'. apply IH.
Qed.

Lemma run_escalations_ok status metric l : forall st,
  outcome (esc_inv st) (run_escalations assertAgent row status metric st l) esc_inv (fun e => e = AgentCheckFailed).
Proof.
  induction l as [|e l IH]; intros st; cbn [run_escalations]; [by intros s Hs|].
  destruct (escalation_applies status metric e); [|apply IH].
  eapply outcome_bind; [apply run_actions_ok|]. intros st'. apply IH.
Qed.
End escalation.

(** ** The recursion ends *)

(** No error of the pure parts is the one that stands for missing fuel. *)
Definition fuel_free {A} (r : result SlaError A) : Prop := r <> Throw OutOfFuel.

Lemma fuel_free_bind {A B} (r : result SlaError A) (f : A -> result SlaError B) :
  fuel_free r -> (forall a, fuel_free (f a)) -> fuel_free (rbind r f).
Proof. intros Hr Hf. destruct r as [a|e]; [apply Hf|]. unfold fuel_free in *. simpl. congruence. Qed.

Lemma fuel_free_business {A} (r : result RangeError A) : fuel_free (business r).
Proof. by destruct r. Qed.

Create HintDb fuel discriminated.
#[export] Hint Resolve fuel_free_bind fuel_free_business : fuel.

(** Through the binds, conditionals and matches of a fallible computation. *)
Ltac fuel_free_tac :=
  repeat first
    [ apply fuel_free_business
    | apply fuel_free_bind; [|intros ?]
    | match goal with |- fuel_free (match ?x with _ => _ end) => destruct x end
    | match goal with |- fuel_free (if ?x then _ else _) => destruct x end
    | progress cbv beta zeta
    | by unfold fuel_free ].

Section recursion.
Context `{Intl} (assertAgent : jsstr -> AgentCheck).

Lemma read_policy_fuel row : fuel_free (read_policy row).
Proof. unfold read_policy. fuel_free_tac. Qed.

Lemma parseSlaTerms_fuel t : fuel_free (parseSlaTerms t).
Proof. unfold parseSlaTerms. fuel_free_tac. Qed.

Lemma retarget_fuel polRow policy event p terms : fuel_free (retarget polRow policy event p terms).
Proof. unfold retarget. fuel_free_tac. Qed.

Lemma eval_target_fuel input pm at_ st tg : fuel_free (eval_target input pm at_ st tg).
Proof. unfold eval_target. fuel_free_tac. Qed.

Lemma eval_targets_fuel input pm at_ tgs : forall st, fuel_free (eval_targets input pm at_ st tgs).
Proof.
  induction tgs as [|tg tgs IH]; intros st; cbn [eval_targets]; [done|].
  apply fuel_free_bind; [apply eval_target_fuel|apply IH].
Qed.

Lemma evaluateSla_fuel input : fuel_free (evaluateSla input).
Proof.
  unfold evaluateSla. destruct (negb _); [done|]. apply fuel_free_bind; [unfold pause_state; fuel_free_tac|].
  intros [[[pm pa] at_] dp]. apply fuel_free_bind; [apply eval_targets_fuel|done].
Qed.

Lemma settle_fuel row t now event terms : fuel_free (settle row t now event terms).
Proof.
  unfold settle. apply fuel_free_bind; [destruct (decide _); [apply fuel_free_bind; [apply evaluateSla_fuel|]|]; done|].
  intros b. apply fuel_free_bind; [unfold event_terms; fuel_free_tac|]. intros terms'.
  apply fuel_free_bind; [apply evaluateSla_fuel|]. intros r. fuel_free_tac.
Qed.

(** A step of the body that cannot run out of fuel and leaves the rows. *)
Lemma lift_bind_cases {A B} (r : result SlaError A) (f : A -> clock_handler B) s (P : TicketTx * result SlaError B -> Prop) :
  fuel_free r -> (forall e, e <> OutOfFuel -> P (s, Throw e)) -> (forall a, r = Ok a -> P (f a s)) -> P (hbind (lift r) f s).
Proof.
  intros Hr He Ha. unfold hbind, lift. destruct r as [a|e]; [by apply Ha|]. apply He. intros ->. by apply Hr.
Qed.

Lemma hget_bind {St Er B} (f : St -> handler St Er B) s : hbind hget f s = f s s.
Proof. done. Qed.

Lemma update_bind {B} g (f : unit -> clock_handler B) s :
  hbind (update_row g) f s = f tt (mkTx (g (tx_row s)) (tx_activities s)).
Proof. done. Qed.

Lemma activity_bind {B} a (f : unit -> clock_handler B) s :
  hbind (writeActivity a) f s = f tt (mkTx (tx_row s) (tx_activities s ++ [a])).
Proof. done. Qed.

(** What [sync_body] does, up to its recursive call. *)
Inductive body_result (again : clock_handler unit) (now : Z) (event : SlaEvent) (polRow : option PolicyRow) (s : TicketTx)
    : TicketTx * result SlaError unit -> Prop :=
| body_throws s' e : e <> OutOfFuel -> body_result again now event polRow s (s', Throw e)
| body_skips : body_result again now event polRow s (s, Ok tt)
| body_clears tk : wi_ticket (tx_row s) = Some tk ->
    body_result again now event polRow s (mkTx (set_ticket (clear_terms tk) (tx_row s)) (tx_activities s), Ok tt)
| body_settles tk stored policy terms r status metric terms' (transition : bool) s' out :
    wi_ticket (tx_row s) = Some tk ->
    (stored = None /\ tk_slaTargets tk = None \/
     exists t0 t1, tk_slaTargets tk = Some t0 /\ parseSlaTerms t0 = Ok t1 /\ stored = Some t1) ->
    retarget polRow policy event (wi_priority (tx_row s)) stored = Ok (Some terms) ->
    settle (tx_row s) tk now event terms = Ok (r, status, metric, terms', transition) ->
    same_clock (mkTx (set_ticket (settled_ticket tk r status terms') (tx_row s))
                     (tx_activities s ++ (if transition then [ActSla status metric (tk_slaStatus tk)] else []))) s' ->
    out = (s', Ok tt) \/ (rank (wi_priority (tx_row s)) < rank (wi_priority (tx_row s')))%nat /\ out = again s' ->
    body_result again now event polRow s out.

Lemma sync_body_result again polRow now event s :
  body_result again now event polRow s (sync_body assertAgent again polRow now event s).
Proof.
  unfold sync_body. rewrite hget_bind. cbv beta zeta. set (row := tx_row s).
  destruct (negb (wi_serviceDesk row) || wi_archived row); [apply body_skips|].
  destruct (wi_ticket row) as [tk|] eqn:Etk; [|apply body_skips].
  apply lift_bind_cases; [apply read_policy_fuel|by apply body_throws|]. intros policy Hp.
  apply lift_bind_cases; [destruct (tk_slaTargets tk); [apply fuel_free_bind; [apply parseSlaTerms_fuel|]|]; done|by apply body_throws|].
  intros stored Hst.
  assert (Hst' : stored = None /\ tk_slaTargets tk = None \/
     exists t0 t1, tk_slaTargets tk = Some t0 /\ parseSlaTerms t0 = Ok t1 /\ stored = Some t1).
  { destruct (tk_slaTargets tk) as [t0|]; [|by injection Hst as <-; left].
    apply rbind_ok in Hst as (t1 & H1 & [= <-]). right. by exists t0, t1. }
  apply lift_bind_cases; [apply retarget_fuel|by apply body_throws|]. intros [terms|] Hre; [|by apply body_clears].
  apply lift_bind_cases; [apply settle_fuel|by apply body_throws|]. intros [[[[r status] metric] terms'] transition] Hse.
  rewrite update_bind. destruct transition; cbn [negb].
  - rewrite activity_bind. cbn [tx_row tx_activities]. set (s1 := mkTx (set_ticket _ _) _).
    assert (H0 : esc_inv (wi_priority row) s1 (false, wi_priority row) s1) by (split; [apply same_clock_refl|done]).
    pose proof (run_escalations_ok assertAgent row _ s1 status metric (default [] (pr_escalation <$> policy)) _ s1 H0) as Hesc.
    unfold hbind. destruct (run_escalations _ _ _ _ _ _ s1) as [s2 [[raised p]|e]]; [|subst e; by apply body_throws].
    destruct Hesc as [Hsame Hr]. unfold raised_ok in Hr. cbn [fst snd] in *.
    eapply body_settles; try done. destruct raised; [right|by left]. destruct Hr as [-> ?]. done.
  - eapply body_settles; try done; [|by left]. rewrite app_nil_r. apply same_clock_refl.
Qed.

(** A computation with a recursive call [k]: it ends by itself, or with that
    call on rows of a priority above [p]. *)
Definition tail_call (p : Priority) (F : clock_handler unit -> TicketTx * result SlaError unit) : Prop :=
  (exists out, out.2 <> Throw OutOfFuel /\ forall k, F k = out) \/
  (exists s', (rank p < rank (wi_priority (tx_row s')))%nat /\ forall k, F k = k s').

Lemma tail_call_end p s r : r <> Throw OutOfFuel -> tail_call p (fun _ => (s, r)).
Proof. left. by exists (s, r). Qed.

Lemma tail_call_lift {A} p (r : result SlaError A) (f : clock_handler unit -> A -> clock_handler unit) s :
  fuel_free r -> (forall a, tail_call p (fun k => f k a s)) -> tail_call p (fun k => hbind (lift r) (f k) s).
Proof.
  intros Hr Hf. unfold hbind, lift. destruct r as [a|e]; [apply Hf|]. apply tail_call_end.
  intros [= ->]. by apply Hr.
Qed.

Lemma tail_call_get p (f : clock_handler unit -> TicketTx -> clock_handler unit) s :
  tail_call p (fun k => f k s s) -> tail_call p (fun k => hbind hget (f k) s).
Proof. done. Qed.

Lemma sync_body_tail polRow now event s :
  tail_call (wi_priority (tx_row s)) (fun k => sync_body assertAgent k polRow now event s).
Proof.
  unfold sync_body. apply tail_call_get. cbv zeta. set (row := tx_row s).
  destruct (negb (wi_serviceDesk row) || wi_archived row); [by apply tail_call_end|].
  destruct (wi_ticket row) as [tk|]; [|by apply tail_call_end].
  apply tail_call_lift; [apply read_policy_fuel|]. intros policy.
  apply tail_call_lift; [destruct (tk_slaTargets tk); [apply fuel_free_bind; [apply parseSlaTerms_fuel|]|]; done|]. intros stored.
  apply tail_call_lift; [apply retarget_fuel|]. intros [terms|]; [|by apply tail_call_end].
  apply tail_call_lift; [apply settle_fuel|]. intros [[[[r status] metric] terms'] transition].
  destruct transition; [|by apply tail_call_end]. cbn [negb].
  set (s1 := mkTx (set_ticket (settled_ticket tk r status terms') row) (tx_activities s ++ [ActSla status metric (tk_slaStatus tk)])).
  assert (H0 : esc_inv (wi_priority row) s1 (false, wi_priority row) s1) by (split; [apply same_clock_refl|done]).
  pose proof (run_escalations_ok assertAgent row _ s1 status metric (default [] (pr_escalation <$> policy)) _ s1 H0) as Hesc.
  change (tail_call (wi_priority row) (fun k => hbind (run_escalations assertAgent row status metric
    (false, wi_priority row) (default [] (pr_escalation <$> policy))) (fun st : bool * Priority => if st.1 then k else hret tt) s1)).
  unfold hbind. destruct (run_escalations _ _ _ _ _ _ s1) as [s2 [[raised p]|e]]; [|subst e; by apply tail_call_end].
  destruct Hesc as [_ Hr]. unfold raised_ok in Hr. cbn [fst snd] in *.
  destruct raised; [|by apply tail_call_end]. destruct Hr as [Hp ?]. right. exists s2. by rewrite Hp.
Qed.

(** Enough fuel for the priorities above: no more of it changes anything. *)
Lemma sync_enough polRow now fuel : forall event s, (4 - rank (wi_priority (tx_row s)) < fuel)%nat ->
  (sync assertAgent fuel polRow now event s).2 <> Throw OutOfFuel /\
  forall fuel', (fuel <= fuel')%nat -> sync assertAgent fuel' polRow now event s = sync assertAgent fuel polRow now event s.
Proof.
  induction fuel as [|fuel IH]; intros event s Hf; [lia|]. cbn [sync].
  destruct (sync_body_tail polRow now event s) as [(out & Hout & Hall)|(s' & Hlt & Hall)].
  - rewrite Hall. split; [done|]. intros [|fuel'] Hle; [lia|]. cbn [sync]. by rewrite Hall.
  - rewrite Hall. assert (rank (wi_priority (tx_row s')) <= 4)%nat by (by destruct (wi_priority (tx_row s')); simpl; lia).
    destruct (IH E_escalation_priority s' ltac:(lia)) as [H1 H2]. split; [done|].
    intros [|fuel'] Hle; [lia|]. cbn [sync]. rewrite Hall. apply H2. lia.
Qed.
End recursion.

(** C14: The recursion of [syncTicketSla] ends.  An escalation that raised the
    priority makes the function call itself; each such call finds a strictly
    higher priority, so at most five calls are ever inside one another:
    whatever the policy, the escalation rules, the event and the rows, with
    room for five calls the synchronisation never runs out, and any more room
    gives the same rows and the same answer. *)
Theorem sync_terminates `{Intl} assertAgent polRow now event s :
  (syncTicketSla assertAgent polRow now event s).2 <> Throw OutOfFuel /\
  forall fuel, (5 <= fuel)%nat -> sync assertAgent fuel polRow now event s = syncTicketSla assertAgent polRow now event s.
Proof.
  unfold syncTicketSla. apply (sync_enough assertAgent polRow now 5). lia.
Qed.

(** ** A breach is announced once and stays *)

Definition is_breach (a : Activity) : bool := match a with ActSla S_BREACHED _ _ => true | _ => false end.
Definition breaches (s : TicketTx) : nat := length (filter is_breach (tx_activities s)).

(** 1 when the terms remember that their breach was announced. *)
Definition told_terms (t : SlaTerms) : nat := if decide (S_BREACHED ∈ st_notified t) then 1 else 0.
Definition terms_of (s : TicketTx) : option SlaTerms := wi_ticket (tx_row s) ≫= tk_slaTargets.
Definition status_of (s : TicketTx) : option SlaStatus := tk_slaStatus <$> wi_ticket (tx_row s).
Definition told (s : TicketTx) : nat := match terms_of s with Some t => told_terms t | None => 0 end.

Lemma told_le t : (told_terms t <= 1)%nat.
Proof. unfold told_terms. case_decide; lia. Qed.

Lemma told_mono t t' : (S_BREACHED ∈ st_notified t -> S_BREACHED ∈ st_notified t') -> (told_terms t <= told_terms t')%nat.
Proof. intros Hm. unfold told_terms. repeat case_decide; try lia. exfalso. auto. Qed.

Lemma breaches_app row acts l row' : breaches (mkTx row (acts ++ l)) = (breaches (mkTx row' acts) + length (filter is_breach l))%nat.
Proof. unfold breaches. cbn [tx_activities]. by rewrite filter_app, length_app. Qed.

Lemma same_clock_breaches s s' : same_clock s s' -> breaches s' = breaches s /\ terms_of s' = terms_of s /\ status_of s' = status_of s.
Proof.
  intros [Ht (l & El & Hl)]. unfold terms_of, status_of. rewrite Ht. split_and!; [|done..].
  unfold breaches. rewrite El, filter_app, length_app. replace (filter is_breach l) with (@nil Activity); [simpl; lia|].
  clear El. induction Hl as [|a l Ha _ IH]; [done|]. rewrite filter_cons, <- IH.
  destruct a as [st m o|?|?|]; [done|..]; by rewrite decide_False by (intros []).
Qed.

Section announce.
Context `{Intl} (assertAgent : jsstr -> AgentCheck).

Lemma only_breached_elem l : S_BREACHED ∈ l -> S_BREACHED ∈ only_breached l.
Proof. intros Hl. unfold only_breached. by apply list_elem_of_filter. Qed.

Lemma retarget_told polRow policy event p stored terms : retarget polRow policy event p stored = Ok (Some terms) ->
  (match stored with Some t => told_terms t | None => 0 end <= told_terms terms)%nat.
Proof.
  unfold retarget. destruct (_ || _); [|by intros [= ->]].
  destruct (policy ≫= _) as [[q target]|]; [|done]. rewrite rbind_ok. intros (cal & _ & [= <-]).
  destruct stored as [t|]; [|lia]. apply told_mono. cbn [st_notified default fmap option_fmap option_map from_option].
  intros Hb. case_decide; [done|by apply only_breached_elem].
Qed.

Lemma parseSlaTerms_told t t' : parseSlaTerms t = Ok t' -> st_notified t' = st_notified t.
Proof.
  unfold parseSlaTerms. destruct (_ && _); [|done]. destruct (st_calendar t); [|by intros [= ->]].
  rewrite rbind_ok. by intros (c & _ & [= <-]).
Qed.

Lemma event_terms_told t now event terms terms' : event_terms t now event terms = Ok terms' -> st_notified terms' = st_notified terms.
Proof.
  unfold event_terms. destruct (_ && _).
  - rewrite rbind_ok. intros (x & _ & [= <-]). cbn. by case_decide.
  - intros [= <-]. by case_decide.
Qed.

(** A breach in the row's status is a breach in the result. *)
Lemma evaluateSla_sticky input r : evaluateSla input = Ok r -> in_previousStatus input = S_BREACHED -> sr_slaStatus r = S_BREACHED.
Proof.
  unfold evaluateSla. destruct (negb _); [done|]. rewrite rbind_ok. intros ([[[pm pa] at_] dp] & _ & Hk).
  apply rbind_ok in Hk as (st & _ & [= <-]). intros ->. done.
Qed.

Lemma settle_spec row tk now event terms r status metric terms' transition :
  settle row tk now event terms = Ok (r, status, metric, terms', transition) ->
  (tk_slaStatus tk = S_BREACHED -> status = S_BREACHED) /\
  (length (filter is_breach (if transition then [ActSla status metric (tk_slaStatus tk)] else [])) + told_terms terms
     <= told_terms terms')%nat.
Proof.
  unfold settle. rewrite rbind_ok. intros (before & Hb & Hk). apply rbind_ok in Hk as (t1 & Ht1%event_terms_told & Hk).
  apply rbind_ok in Hk as (res & Hres & Hk).
  destruct (match before with Some b => _ | None => _ end) as [st m] eqn:Est.
  assert (Hst : tk_slaStatus tk = S_BREACHED -> st = S_BREACHED).
  { intros Htk. pose proof (evaluateSla_sticky _ _ Hres Htk) as Hr.
    destruct before as [b|]; [destruct (decide (sr_slaStatus b = S_BREACHED))|]; congruence. }
  set (t2 := if bool_decide (event = E_reply) && _ then _ else t1) in Hk.
  assert (Ht2 : (told_terms terms <= told_terms t2)%nat).
  { apply told_mono. rewrite <- Ht1. unfold t2. destruct (_ && _); [|done]. apply only_breached_elem. }
  injection Hk as <- <- <- <- <-. split; [done|].
  destruct (notifiable st && _) eqn:Etr; [|simpl; lia]. apply andb_prop in Etr as [_ Hno%negb_true_iff%bool_decide_eq_false].
  destruct (decide (st = S_BREACHED)) as [->|Hne].
  - assert (Hz : told_terms t2 = 0%nat) by (unfold told_terms; by rewrite decide_False).
    unfold told_terms at 2. rewrite decide_True by (cbn; set_solver). simpl. lia.
  - assert (Hz : filter is_breach [ActSla st m (tk_slaStatus tk)] = []) by (rewrite filter_cons; by destruct st).
    rewrite Hz. simpl. etransitivity; [exact Ht2|]. apply told_mono. cbn. set_solver.
Qed.

(** One synchronisation: what it announces is remembered, unless it drops the
    promise. *)
Lemma sync_announces fuel polRow now : forall event s s', is_Some (wi_ticket (tx_row s)) ->
  sync assertAgent fuel polRow now event s = (s', Ok tt) ->
  is_Some (wi_ticket (tx_row s')) /\
  match terms_of s' with
  | None => (breaches s' + told s <= breaches s + 1)%nat
  | Some t => (breaches s' + told s <= breaches s + told_terms t)%nat /\
              (status_of s = Some S_BREACHED -> status_of s' = Some S_BREACHED)
  end.
Proof.
  induction fuel as [|fuel IH]; intros event s s' Hsome; cbn [sync]; [done|]. intros E.
  pose proof (sync_body_result assertAgent (sync assertAgent fuel polRow now E_escalation_priority) polRow now event s) as Hb.
  rewrite E in Hb. clear E. remember (s', Ok tt) as out eqn:Eout. destruct Hb as [s1 e _| |tk Htk|tk stored policy terms r status metric terms' tr s1 out Htk Hst Hre Hse Hsame Hout];
    [by simplify_eq|..].
  - injection Eout as <-. split; [done|]. unfold told. destruct (terms_of s) as [t|]; [|lia]. split; [lia|done].
  - injection Eout as <-. split; [by eexists|]. unfold terms_of at 1. cbn. unfold breaches at 1. cbn. fold (breaches s).
    unfold told. destruct (terms_of s) as [t|]; [pose proof (told_le t)|]; lia.
  - apply settle_spec in Hse as [Hsticky Htold]. apply retarget_told in Hre.
    apply same_clock_breaches in Hsame as (Hbr & Hterms & Hstatus). rewrite (breaches_app _ _ _ (tx_row s)) in Hbr.
    replace (mkTx (tx_row s) (tx_activities s)) with s in Hbr by (by destruct s).
    assert (Hs : told s = match stored with Some t => told_terms t | None => 0%nat end).
    { unfold told, terms_of. rewrite Htk. cbn. destruct Hst as [[-> ->]|(t0 & t1 & -> & Hp & ->)]; [done|].
      unfold told_terms. by rewrite (parseSlaTerms_told _ _ Hp). }
    unfold terms_of in Hterms at 2. unfold status_of in Hstatus at 2. cbn in Hterms, Hstatus.
    assert (Hsome1 : is_Some (wi_ticket (tx_row s1))).
    { unfold terms_of in Hterms. destruct (wi_ticket (tx_row s1)); [by eexists|done]. }
    assert (Hfirst : (breaches s1 + told s <= breaches s + told_terms terms')%nat /\
                     (status_of s = Some S_BREACHED -> status_of s1 = Some S_BREACHED)).
    { split; [lia|]. rewrite Hstatus. unfold status_of. rewrite Htk. cbn. intros [= ?]. f_equal. auto. }
    destruct Hfirst as [Hb1 Hs1]. destruct Hout as [->|[_ Hagain]].
    + injection Eout as <-. split; [done|]. rewrite Hterms. split; [lia|done].
    + subst out. symmetry in Hagain. destruct (IH _ _ _ Hsome1 Hagain) as [Hsome' Hrest]. split; [done|].
      assert (Ht1 : told s1 = told_terms terms') by (unfold told; by rewrite Hterms).
      rewrite Ht1 in Hrest. pose proof (told_le terms').
      destruct (terms_of s'); [destruct Hrest; split; [lia|auto]|lia].
Qed.
End announce.

(** ** The life of a ticket's clock *)

(** What other writers do to the rows: anything but the clock's status and
    terms, and no announcement. *)
Definition desk_write (s s' : TicketTx) : Prop :=
  is_Some (wi_ticket (tx_row s')) /\ terms_of s' = terms_of s /\ status_of s' = status_of s /\
  exists l, tx_activities s' = tx_activities s ++ l /\ Forall not_sla l.

(** A synchronisation that leaves no promise drops one when there was one, or
    when it announced a breach on the way. *)
Definition drops (s s' : TicketTx) : nat :=
  match terms_of s', terms_of s with
  | None, Some _ => 1
  | None, None => if Nat.ltb (breaches s) (breaches s') then 1 else 0
  | Some _, _ => 0
  end.

(** Committed synchronisations, with any policy row, instant and event, and
    other writers, in any order; a synchronisation that throws is rolled
    back.  The index counts the dropped promises. *)
Inductive clock_run `{Intl} (assertAgent : jsstr -> AgentCheck) : nat -> TicketTx -> TicketTx -> Prop :=
| run_refl s : clock_run assertAgent 0 s s
| run_sync n s s1 s2 polRow now event :
    clock_run assertAgent n s s1 -> syncTicketSla assertAgent polRow now event s1 = (s2, Ok tt) ->
    clock_run assertAgent (n + drops s1 s2) s s2
| run_other n s s1 s2 : clock_run assertAgent n s s1 -> desk_write s1 s2 -> clock_run assertAgent n s s2.

Section life.
Context `{Intl} (assertAgent : jsstr -> AgentCheck).

Lemma desk_write_breaches s s' : desk_write s s' -> breaches s' = breaches s /\ told s' = told s.
Proof.
  intros (_ & Ht & _ & l & El & Hl). split; [|unfold told; by rewrite Ht].
  set (x := mkTx (tx_row s) (tx_activities s ++ l)).
  assert (Hx : same_clock s x) by (split; [done|]; by exists l).
  apply same_clock_breaches in Hx as [Hx _]. rewrite <- Hx. unfold breaches. by rewrite El.
Qed.

Lemma run_breaches n s s' : clock_run assertAgent n s s' -> is_Some (wi_ticket (tx_row s)) ->
  (breaches s <= told s)%nat -> is_Some (wi_ticket (tx_row s')) /\ (breaches s' <= n + told s')%nat.
Proof.
  induction 1 as [s|n s s1 s2 polRow now event _ IH Hsync|n s s1 s2 _ IH Hw]; intros Hs Hb; [done|..].
  - destruct (IH Hs Hb) as [Hs1 Hb1]. unfold syncTicketSla in Hsync.
    destruct (sync_announces _ _ _ _ _ _ _ Hs1 Hsync) as [Hs2 Hrest]. split; [done|].
    unfold drops. change (told s2) with (match terms_of s2 with Some t => told_terms t | None => 0%nat end).
    destruct (terms_of s2) as [t|]; [lia|]. unfold told in *.
    destruct (terms_of s1); [lia|]. destruct (Nat.ltb _ _) eqn:E; b2p; lia.
  - destruct (IH Hs Hb) as [Hs1 Hb1]. destruct (desk_write_breaches _ _ Hw) as [-> ->]. split; [by destruct Hw|done].
Qed.

Lemma run_sticky n s s' : clock_run assertAgent n s s' -> n = 0%nat -> is_Some (wi_ticket (tx_row s)) -> is_Some (terms_of s) ->
  is_Some (wi_ticket (tx_row s')) /\ is_Some (terms_of s') /\
  (status_of s = Some S_BREACHED -> status_of s' = Some S_BREACHED).
Proof.
  induction 1 as [s|n s s1 s2 polRow now event _ IH Hsync|n s s1 s2 _ IH Hw]; intros Hn Hs Ht; [done|..].
  - destruct (IH ltac:(lia) Hs Ht) as (Hs1 & Ht1 & Hst). unfold syncTicketSla in Hsync.
    destruct (sync_announces _ _ _ _ _ _ _ Hs1 Hsync) as [Hs2 Hrest]. split; [done|].
    assert (Hd : drops s1 s2 = 0%nat) by lia. unfold drops in Hd. destruct Ht1 as [t1 Ht1]. rewrite Ht1 in Hd.
    destruct (terms_of s2) as [t|]; [|done]. split; [by eexists|]. destruct Hrest. auto.
  - destruct (IH Hn Hs Ht) as (Hs1 & Ht1 & Hst). destruct Hw as (Hs2 & -> & -> & _). done.
Qed.
End life.

(** C2: A broken promise is announced once and stays broken.  Take any history
    of a ticket: synchronisations for any events and instants, under policies
    that change in any way, with their escalations, interleaved with any
    other writes to the ticket.  From a ticket without a promise, the number
    of breach announcements is at most one more than the number of promises
    dropped on the way (a retarget to a priority without a target, or under a
    disabled policy): one announcement when none is dropped, however many
    ticks, pauses, replies and reopenings there are.  And from any moment on,
    as long as the promise is not dropped, a ticket once BREACHED stays
    BREACHED. *)
Theorem breach_announced_once `{Intl} assertAgent n m s0 s s' :
  is_Some (wi_ticket (tx_row s0)) -> terms_of s0 = None -> breaches s0 = 0%nat ->
  clock_run assertAgent n s0 s -> clock_run assertAgent m s s' ->
  (breaches s <= n + 1)%nat /\
  (m = 0%nat -> is_Some (terms_of s) -> status_of s = Some S_BREACHED -> status_of s' = Some S_BREACHED).
Proof.
  intros Hs0 Ht0 Hb0 H1 H2. destruct (run_breaches _ _ _ _ H1 Hs0 ltac:(lia)) as [Hs Hb]. split.
  - unfold told in Hb. destruct (terms_of s) as [t|]; [pose proof (told_le t)|]; lia.
  - intros Hm Hts. by apply (run_sticky _ _ _ _ H2 Hm Hs Hts).
Qed.

Lemma run_keeps `{Intl} assertAgent n s s1 s2 polRow now event : clock_run assertAgent n s s1 ->
  syncTicketSla assertAgent polRow now event s1 = (s2, Ok tt) -> drops s1 s2 = 0%nat -> clock_run assertAgent n s s2.
Proof. intros Hr Hs Hd. rewrite <- (Nat.add_0_r n), <- Hd. by eapply run_sync. Qed.

(** A ticket of high priority opened at the epoch, an hour to answer. *)
Definition sample_ticket : Ticket := mkTicket None None 0 None S_NONE None None None None.
Definition sample_row : WorkItem := mkItem true false false 0 P_high (Some C_RUNNING) [] (Some sample_ticket).
Definition sample_tx : TicketTx := mkTx sample_row [].
Definition high_only (p : Priority) : option TargetMins :=
  match p with P_high => Some (mkTargetMins (Some 60) None None) | _ => None end.
Definition sample_policy : PolicyRow := mkPolicy true high_only 75 [] None.
Definition all_agents (u : jsstr) : AgentCheck := AgentOk.

Definition sample_step (pol : PolicyRow) (event : SlaEvent) (minute : Z) (s : TicketTx) : TicketTx :=
  (@syncTicketSla (intl_of ny_off) all_agents (Some pol) (minute * MS_MINUTE) event s).1.

(** Created, then looked at after 61 minutes and after two hours. *)
Lemma breach_announced_once_witness :
  let s := sample_step sample_policy E_tick 61 (sample_step sample_policy E_create 0 sample_tx) in
  let s' := sample_step sample_policy E_tick 120 s in
  status_of s = Some S_BREACHED /\ (breaches s <= 0 + 1)%nat /\
  (0%nat = 0%nat -> is_Some (terms_of s) -> status_of s = Some S_BREACHED -> status_of s' = Some S_BREACHED).
Proof.
  split; [vm_compute; reflexivity|].
  eapply (@breach_announced_once (intl_of ny_off) all_agents 0 0 sample_tx).
  - vm_compute. by eexists.
  - vm_compute. reflexivity.
  - vm_compute. reflexivity.
  - apply (@run_keeps (intl_of ny_off) all_agents 0 _ (sample_step sample_policy E_create 0 sample_tx) _
      (Some sample_policy) (61 * MS_MINUTE) E_tick); [|vm_compute; reflexivity..].
    apply (@run_keeps (intl_of ny_off) all_agents 0 _ sample_tx _ (Some sample_policy) (0 * MS_MINUTE) E_create);
      [apply run_refl|vm_compute; reflexivity..].
  - eapply (@run_keeps (intl_of ny_off) all_agents 0 _ _ _ (Some sample_policy) (120 * MS_MINUTE) E_tick);
      [apply run_refl|vm_compute; reflexivity..].
Defined.

(** An escalation that raises the priority to one without a target drops the
    promise with its breach: the ticket is BREACHED and NONE within one
    synchronisation, and a later change of priority announces the same
    breach again. *)
Definition raising_policy : PolicyRow :=
  mkPolicy true high_only 75 [mkEscalation S_BREACHED None [RaisePriority]] None.

Lemma escalation_erases_breach :
  let s := sample_step raising_policy E_tick 61 (sample_step raising_policy E_create 0 sample_tx) in
  let again := sample_step raising_policy E_priority 90 (mkTx (set_priority P_high (tx_row s)) (tx_activities s)) in
  wi_priority (tx_row s) = P_urgent /\ status_of s = Some S_NONE /\ terms_of s = None /\ breaches s = 1%nat /\
  breaches again = 2%nat.
Proof. vm_compute. split_and!; reflexivity. Qed.
