(* ===== verification/Relations.v ===== *)
(** * Relations: the links between work items
      (apps/orchestrator/src/services/pm/pm-relations.service.ts)

    One row per link, ordered canonically for the symmetric kinds; the bounded
    breadth-first search that keeps BLOCKS free of cycles; creation, deletion
    and listing, with the activity rows both ends are given.  [PmMachine] runs
    any number of requests, a creation in its two parts (the check of the ends,
    then the SERIALIZABLE transaction), beside the other writers of the table:
    the deletion of a work item, whose edges cascade (pm.service.ts,
    deleteWorkItem), and the links the support desk makes. *)

From S2P Require Import Prelude JsNum DateText.

Local Open Scope Z_scope.

(** ** Data *)

Inductive RelationKind := BLOCKS | RELATES | DUPLICATES.

#[export] Instance RelationKind_eq_dec : EqDecision RelationKind.
Proof. solve_decision. Defined.

Definition isSymmetricKind (kind : RelationKind) : bool :=
  match kind with RELATES | DUPLICATES => true | BLOCKS => false end.

Inductive RelationError :=
| WORK_ITEM_NOT_FOUND | RELATION_NOT_FOUND | RELATION_SELF | RELATION_EXISTS | RELATION_CYCLE | RELATION_SCAN_EXHAUSTED.

Definition RELATION_SCAN_MAX_DEPTH : nat := 32.
Definition RELATION_SCAN_MAX_NODES : Z := 500.
Definition RELATION_SCAN_MAX_EDGES_PER_LEVEL : Z := 1000.
Definition RELATIONS_PER_ITEM_LIMIT : nat := 200.

(** A work item, with the project it lives in. *)
Record PmItem := mkPmItem {
  pi_name : jsstr; pi_sequenceId : Z; pi_projectId : jsstr; pi_identifier : jsstr; pi_serviceDesk : bool
}.

Record RelationRow := mkRelation {
  rl_id : jsstr; rl_fromId : jsstr; rl_toId : jsstr; rl_kind : RelationKind;
  rl_createdById : option jsstr; rl_createdAt : Z
}.

(** A [relation_added] or [relation_removed] row; its value names the other end. *)
Record RelationActivity := mkRelationActivity {
  ra_workItemId : jsstr; ra_actorId : option jsstr; ra_added : bool; ra_kind : RelationKind; ra_otherId : jsstr
}.

Record PmDb := mkPmDb {
  db_items : gmap jsstr PmItem; db_relations : list RelationRow; db_activity : list RelationActivity
}.

Inductive Direction := D_blocks | D_blocked_by | D_symmetric.

Record ApiWorkItemRelation := mkApiRelation {
  ar_id : jsstr; ar_kind : RelationKind; ar_direction : Direction; ar_relatedId : jsstr; ar_relatedKey : jsstr;
  ar_relatedName : jsstr; ar_relatedProjectId : jsstr; ar_crossProject : bool;
  ar_createdById : option jsstr; ar_createdAt : Z
}.

(** [BOTH_ENDS_IN_PM] *)
Definition in_pm (items : gmap jsstr PmItem) (id : jsstr) : bool :=
  match items !! id with Some it => negb (pi_serviceDesk it) | None => false end.

Definition both_ends_in_pm (db : PmDb) (r : RelationRow) : bool :=
  in_pm (db_items db) (rl_fromId r) && in_pm (db_items db) (rl_toId r).

Definition canonicalise (kind : RelationKind) (fromId toId : jsstr) : jsstr * jsstr :=
  if isSymmetricKind kind && str_ltb toId fromId then (toId, fromId) else (fromId, toId).

(** The row as seen from [anchorId]; [from] and [to] are the included ends. *)
Definition mapRelation (r : RelationRow) (from to : PmItem) (anchorId : jsstr) : ApiWorkItemRelation :=
  let anchorIsFrom := bool_decide (rl_fromId r = anchorId) in
  let otherId := if anchorIsFrom then rl_toId r else rl_fromId r in
  let other := if anchorIsFrom then to else from in
  let anchorProjectId := if anchorIsFrom then pi_projectId from else pi_projectId to in
  mkApiRelation (rl_id r) (rl_kind r)
    (if isSymmetricKind (rl_kind r) then D_symmetric else if anchorIsFrom then D_blocks else D_blocked_by)
    otherId (pi_identifier other ++ js "-" ++ int_str (pi_sequenceId other))
    (pi_name other) (pi_projectId other) (negb (bool_decide (pi_projectId other = anchorProjectId)))
    (rl_createdById r) (rl_createdAt r).

(** ** The bounded walk *)

Section walk.
(** The order PostgreSQL returns rows in when none is asked for. *)
Context (order : PmDb -> list RelationRow -> list RelationRow).

(** The BLOCKS edges out of a frontier, one more than the level may have. *)
Definition level_edges (db : PmDb) (frontier : list jsstr) : list jsstr :=
  take (Z.to_nat (RELATION_SCAN_MAX_EDGES_PER_LEVEL + 1))
    (rl_toId <$> order db (filter (fun r => rl_kind r = BLOCKS /\ rl_fromId r ∈ frontier /\ both_ends_in_pm db r = true)
                             (db_relations db))).

Inductive LevelScan := Found | Level (visited next : list jsstr).

Fixpoint scan_level (targetId : jsstr) (edges visited next : list jsstr) : result RelationError LevelScan :=
  match edges with
  | [] => Ok (Level visited next)
  | toId :: rest =>
      if decide (toId = targetId) then Ok Found
      else if decide (toId ∈ visited) then scan_level targetId rest visited next
      else let visited := visited ++ [toId] in
           if RELATION_SCAN_MAX_NODES <? Z.of_nat (length visited) then Throw RELATION_SCAN_EXHAUSTED
           else scan_level targetId rest visited (next ++ [toId])
  end.

(** [depths]: the levels still allowed. *)
Fixpoint walk (depths : nat) (db : PmDb) (targetId : jsstr) (frontier visited : list jsstr) : result RelationError bool :=
  match frontier with
  | [] => Ok false
  | _ =>
      match depths with
      | O => Throw RELATION_SCAN_EXHAUSTED
      | S depths =>
          let edges := level_edges db frontier in
          if RELATION_SCAN_MAX_EDGES_PER_LEVEL <? Z.of_nat (length edges) then Throw RELATION_SCAN_EXHAUSTED else
          let! s := scan_level targetId edges visited [] in
          match s with
          | Found => Ok true
          | Level visited next => walk depths db targetId next visited
          end
      end
  end.

Definition blocksPathExists (db : PmDb) (startId targetId : jsstr) : result RelationError bool :=
  walk RELATION_SCAN_MAX_DEPTH db targetId [startId] [startId].

(** ** The operations *)

Abbreviation pm_handler := (handler PmDb RelationError).

Definition writeRelationActivity (actorId : option jsstr) (added : bool) (kind : RelationKind)
    (ends : list (jsstr * jsstr)) : pm_handler unit := fun db =>
  (mkPmDb (db_items db) (db_relations db)
     (db_activity db ++ ((fun e => mkRelationActivity e.1 actorId added kind e.2) <$> ends)), Ok tt).

Definition both_ends (r : RelationRow) : list (jsstr * jsstr) :=
  [(rl_fromId r, rl_toId r); (rl_toId r, rl_fromId r)].

(** [pmWorkItemRelation.create]: the primary key and the unique triple (P2002),
    then the two foreign keys (P2003). *)
Definition insert_relation (r : RelationRow) : pm_handler (PmItem * PmItem) := fun db =>
  if existsb (fun r' => bool_decide (rl_id r' = rl_id r) ||
                        bool_decide (rl_fromId r' = rl_fromId r /\ rl_toId r' = rl_toId r /\ rl_kind r' = rl_kind r))
       (db_relations db)
  then (db, Throw RELATION_EXISTS)
  else match db_items db !! rl_fromId r, db_items db !! rl_toId r with
       | Some from, Some to => (mkPmDb (db_items db) (db_relations db ++ [r]) (db_activity db), Ok (from, to))
       | _, _ => (db, Throw WORK_ITEM_NOT_FOUND)
       end.

(** The ends as the caller named them. *)
Record RelationInput := mkInput { in_actorId : option jsstr; in_fromId : jsstr; in_toId : jsstr; in_kind : RelationKind }.

(** Before the transaction: two different work items of PM. *)
Definition checkEnds (i : RelationInput) : pm_handler unit := fun db =>
  (db, if decide (in_fromId i = in_toId i) then Throw RELATION_SELF
       else if in_pm (db_items db) (in_fromId i) && in_pm (db_items db) (in_toId i) then Ok tt
       else Throw WORK_ITEM_NOT_FOUND).

Definition new_row (id : jsstr) (now : Z) (i : RelationInput) : RelationRow :=
  let c := canonicalise (in_kind i) (in_fromId i) (in_toId i) in
  mkRelation id c.1 c.2 (in_kind i) (in_actorId i) now.

Definition createRelationTx (id : jsstr) (now : Z) (i : RelationInput) : pm_handler ApiWorkItemRelation :=
  htransaction (
    let row := new_row id now i in
    do! db <- hget;
    run! (if isSymmetricKind (in_kind i) then hret tt else
          match blocksPathExists db (rl_toId row) (rl_fromId row) with
          | Ok true => hthrow RELATION_CYCLE
          | Ok false => hret tt
          | Throw e => hthrow e
          end);
    do! ends <- insert_relation row;
    run! writeRelationActivity (in_actorId i) true (in_kind i) (both_ends row);
    hret (mapRelation row ends.1 ends.2 (in_fromId i))).

Definition createRelation (id : jsstr) (now : Z) (i : RelationInput) : pm_handler ApiWorkItemRelation :=
  run! checkEnds i; createRelationTx id now i.

Definition find_relation (db : PmDb) (relationId : jsstr) : option RelationRow :=
  match filter (fun r => rl_id r = relationId /\ both_ends_in_pm db r = true) (db_relations db) with r :: _ => Some r | [] => None end.

Definition deleteRelationTx (actorId : option jsstr) (existing : RelationRow) : pm_handler unit :=
  htransaction (
    run! writeRelationActivity actorId false (rl_kind existing) (both_ends existing);
    fun db =>
      if bool_decide (Exists (fun r => rl_id r = rl_id existing) (db_relations db))
      then (mkPmDb (db_items db) (filter (fun r => rl_id r <> rl_id existing) (db_relations db)) (db_activity db), Ok tt)
      else (db, Throw RELATION_NOT_FOUND)).

Definition deleteRelation (actorId : option jsstr) (relationId : jsstr) : pm_handler unit :=
  do! db <- hget;
  match find_relation db relationId with
  | None => hthrow RELATION_NOT_FOUND
  | Some existing => deleteRelationTx actorId existing
  end.

(** [orderBy: [{ kind: "asc" }, { createdAt: "asc" }]]: the kinds in the order
    the database declares them. *)
Definition kind_rank (k : RelationKind) : Z := match k with BLOCKS => 0 | RELATES => 1 | DUPLICATES => 2 end.
Definition relation_cmp (a b : RelationRow) : Z :=
  let d := kind_rank (rl_kind a) - kind_rank (rl_kind b) in
  if negb (d =? 0) then d else rl_createdAt a - rl_createdAt b.

Definition listRelationsFor (workItemId : jsstr) (itemChecked : bool) : pm_handler (list ApiWorkItemRelation) := fun db =>
  (db,
   if negb itemChecked && negb (in_pm (db_items db) workItemId) then Throw WORK_ITEM_NOT_FOUND else
   Ok (omap (fun r => from ← db_items db !! rl_fromId r; to ← db_items db !! rl_toId r; Some (mapRelation r from to workItemId))
        (take RELATIONS_PER_ITEM_LIMIT (sort_by relation_cmp
           (order db (filter (fun r => (rl_fromId r = workItemId \/ rl_toId r = workItemId) /\ both_ends_in_pm db r = true)
                        (db_relations db))))))).

(** ** The other writers *)

Definition touches (id : jsstr) (r : RelationRow) : Prop := rl_fromId r = id \/ rl_toId r = id.
#[export] Instance touches_dec id r : Decision (touches id r).
Proof. unfold touches. apply _. Defined.

(** The relations' part of deleteWorkItem's transaction: a row on every
    surviving end, then the item goes, and its edges and its timeline with it
    (the schema's cascades). *)
Definition deleteWorkItem (actorId : option jsstr) (id : jsstr) (db : PmDb) : PmDb :=
  let relations := filter (touches id) (db_relations db) in
  mkPmDb (delete id (db_items db)) (filter (fun r => ~ touches id r) (db_relations db))
    (filter (fun a => ra_workItemId a <> id)
       (db_activity db ++ ((fun r => mkRelationActivity (if decide (rl_fromId r = id) then rl_toId r else rl_fromId r)
                                       actorId false (rl_kind r) id) <$> relations))).

(** The support desk's link of a ticket (escalation.service.ts,
    email-intake.service.ts): a RELATES row, the smaller id first, told on both ends. *)
Definition linkSupport (id : jsstr) (now : Z) (actorId : option jsstr) (a b : jsstr) : pm_handler unit :=
  htransaction (
    let row := if str_ltb a b then mkRelation id a b RELATES actorId now else mkRelation id b a RELATES actorId now in
    run! insert_relation row;
    writeRelationActivity actorId true RELATES (both_ends row)).

(** ** All of them together *)

Inductive Pending := P_create (i : RelationInput) | P_delete (actorId : option jsstr) (existing : RelationRow).

(** [pm_ever]: every item there has been; [pm_ids]: the relation identifiers
    drawn.  Identifiers are drawn once. *)
Record PmMachine := mkPmMachine {
  pm_db : PmDb; pm_pending : list Pending; pm_ever : gmap jsstr PmItem; pm_ids : list jsstr
}.

Inductive PmMove :=
| AddItem (id : jsstr) (it : PmItem)
| RemoveItem (actorId : option jsstr) (id : jsstr)
| SupportLinks (id : jsstr) (now : Z) (actorId : option jsstr) (a b : jsstr)
| AskCreate (i : RelationInput)
| AskDelete (actorId : option jsstr) (relationId : jsstr)
| Commit (task : nat) (id : jsstr) (now : Z)
| Conflict (task : nat).

(** A refused request leaves the machine as it is; a move that makes no sense
    (an identifier drawn twice, a request that is not there) is none. *)
Definition pm_move (mv : PmMove) (m : PmMachine) : option PmMachine :=
  let with_db db := mkPmMachine db (pm_pending m) (pm_ever m) (pm_ids m) in
  let ask p := mkPmMachine (pm_db m) (pm_pending m ++ [p]) (pm_ever m) (pm_ids m) in
  match mv with
  | AddItem id it =>
      match pm_ever m !! id with
      | Some _ => None
      | None => Some (mkPmMachine (mkPmDb (<[id := it]> (db_items (pm_db m))) (db_relations (pm_db m)) (db_activity (pm_db m)))
                        (pm_pending m) (<[id := it]> (pm_ever m)) (pm_ids m))
      end
  | RemoveItem actorId id => Some (with_db (deleteWorkItem actorId id (pm_db m)))
  | SupportLinks id now actorId a b =>
      if decide (a = b \/ id ∈ pm_ids m) then None
      else Some (mkPmMachine (linkSupport id now actorId a b (pm_db m)).1 (pm_pending m) (pm_ever m) (id :: pm_ids m))
  | AskCreate i =>
      Some (match (checkEnds i (pm_db m)).2 with Ok _ => ask (P_create i) | Throw _ => m end)
  | AskDelete actorId relationId =>
      Some (match find_relation (pm_db m) relationId with Some r => ask (P_delete actorId r) | None => m end)
  | Commit task id now =>
      match pm_pending m !! task with
      | None => None
      | Some (P_delete actorId r) =>
          Some (mkPmMachine (deleteRelationTx actorId r (pm_db m)).1 (delete task (pm_pending m)) (pm_ever m) (pm_ids m))
      | Some (P_create i) =>
          if decide (id ∈ pm_ids m) then None
          else Some (mkPmMachine (createRelationTx id now i (pm_db m)).1 (delete task (pm_pending m)) (pm_ever m) (id :: pm_ids m))
      end
  | Conflict task => Some (mkPmMachine (pm_db m) (delete task (pm_pending m)) (pm_ever m) (pm_ids m))
  end.

Fixpoint pm_moves (mvs : list PmMove) (m : PmMachine) : option PmMachine :=
  match mvs with [] => Some m | mv :: r => m' ← pm_move mv m; pm_moves r m' end.

Definition empty_pm : PmMachine := mkPmMachine (mkPmDb ∅ [] []) [] ∅ [].
End walk.

(** ** The walk decides reachability *)

Definition pm_blocks (db : PmDb) (x y : jsstr) : Prop :=
  exists r, r ∈ db_relations db /\ rl_kind r = BLOCKS /\ both_ends_in_pm db r = true /\ rl_fromId r = x /\ rl_toId r = y.

Definition blocks (db : PmDb) (x y : jsstr) : Prop :=
  exists r, r ∈ db_relations db /\ rl_kind r = BLOCKS /\ rl_fromId r = x /\ rl_toId r = y.

Section reach.
Context (order : PmDb -> list RelationRow -> list RelationRow) (Horder : forall db l, order db l ≡ₚ l).

Lemma level_edges_spec db frontier y : Z.of_nat (length (level_edges order db frontier)) <= RELATION_SCAN_MAX_EDGES_PER_LEVEL ->
  y ∈ level_edges order db frontier <-> exists x, x ∈ frontier /\ pm_blocks db x y.
Proof.
  unfold level_edges. set (n := Z.to_nat _). set (l := rl_toId <$> _). intros Hlen. rewrite take_ge.
  - subst l. rewrite list_elem_of_fmap. setoid_rewrite Horder. setoid_rewrite list_elem_of_filter. unfold pm_blocks.
    clear n Hlen. naive_solver.
  - destruct (decide (length l <= n)%nat) as [|Hn]; [done|]. rewrite length_take in Hlen.
    unfold RELATION_SCAN_MAX_EDGES_PER_LEVEL in *. lia.
Qed.

Lemma scan_level_found t edges : forall vis next, scan_level t edges vis next = Ok Found -> t ∈ edges.
Proof.
  induction edges as [|e rest IH]; intros vis next; cbn [scan_level]; [done|].
  case_decide as He; [by subst; left|]. case_decide; [by right; eapply IH|]. cbv zeta. case_match; [done|]. by right; eapply IH.
Qed.

Lemma scan_level_level t edges : forall vis next vis' next', scan_level t edges vis next = Ok (Level vis' next') ->
  t ∉ edges /\ (forall y, y ∈ vis' <-> y ∈ vis \/ y ∈ edges) /\ (forall y, y ∈ next' -> y ∈ next \/ y ∈ edges) /\
  (forall y, y ∈ vis' -> y ∈ vis \/ y ∈ next') /\ (forall y, y ∈ next -> y ∈ next').
Proof.
  induction edges as [|e rest IH]; intros vis next vis' next'; cbn [scan_level].
  - intros [= <- <-]. set_solver.
  - case_decide as He; [done|]. case_decide as Hv.
    + intros (H1 & H2 & H3 & H4 & H5)%IH. set_solver.
    + cbv zeta. case_match; [done|]. intros (H1 & H2 & H3 & H4 & H5)%IH.
      split_and!; [set_solver|set_solver|set_solver| |set_solver].
      intros y Hy. destruct (H4 y Hy) as [Hy'|]; [|by right]. set_solver.
Qed.

(** The visited items but the frontier have all their successors visited, and
    none of them is the target. *)
Definition walked (db : PmDb) (t : jsstr) (frontier vis : list jsstr) : Prop :=
  forall x, x ∈ vis -> x ∈ frontier \/ forall y, pm_blocks db x y -> y ∈ vis /\ y <> t.

Lemma walk_sound db t x0 n : forall frontier vis b,
  x0 ∈ vis -> walked db t frontier vis -> (forall x, x ∈ frontier -> x ∈ vis /\ rtc (pm_blocks db) x0 x) ->
  walk order n db t frontier vis = Ok b -> (b = true <-> tc (pm_blocks db) x0 t).
Proof.
  induction n as [|n IH]; intros frontier vis b H0 Hw Hf.
  all: destruct frontier as [|f0 fs] eqn:Ef; cbn [walk]; [|try done].
  1, 2: intros [= <-]; split; [done|]; intros Htc; exfalso;
    assert (Hcl : forall z y, tc (pm_blocks db) z y -> z ∈ vis -> y ∈ vis /\ y <> t)
      by (intros z y Hzy; induction Hzy as [z y Hzy|z z' y Hzy _ IHt]; intros Hz;
          (destruct (Hw z Hz) as [?|Hs]; [set_solver|]); [by apply Hs|apply IHt; by apply Hs]);
    by destruct (Hcl _ _ Htc H0).
  rewrite <- Ef in *. clear Ef f0 fs. case_match eqn:Elen; [done|]. apply Z.ltb_ge in Elen.
  pose proof (fun y => level_edges_spec db frontier y Elen) as Hed. set (edges := level_edges order db frontier) in *.
  intros (s & Hs & Hb)%rbind_ok. destruct s as [|vis' next'].
  - injection Hb as <-. split; [|done]. intros _. apply scan_level_found in Hs. apply Hed in Hs as (x & Hx & Hxt).
    destruct (Hf x Hx) as [_ Hr]. by eapply tc_rtc_l; [|apply tc_once].
  - apply scan_level_level in Hs as (H1 & H2 & H3 & H4 & _). eapply IH; [| | |exact Hb].
    + apply H2. by left.
    + intros x Hx. destruct (H4 x Hx) as [Hx'|]; [|by left]. right. intros y Hy.
      destruct (Hw x Hx') as [Hfx|Hs]; [|destruct (Hs y Hy); split; [by apply H2; left|done]].
      assert (Hey : y ∈ edges) by (apply Hed; by exists x). split; [by apply H2; right|]. by intros ->.
    + intros y Hy. destruct (H3 y Hy) as [?|Hey]; [set_solver|]. split; [by apply H2; right|].
      apply Hed in Hey as (x & Hx & Hxy). destruct (Hf x Hx) as [_ Hr]. by eapply rtc_r.
Qed.

Lemma blocksPathExists_exact db x t b :
  blocksPathExists order db x t = Ok b -> (b = true <-> tc (pm_blocks db) x t).
Proof.
  apply walk_sound; [by left|intros y; set_solver|]. intros y ->%list_elem_of_singleton. split; [by left|done].
Qed.
End reach.

(** ** Acyclic relations and one more edge *)

Definition acyclic {A} (R : relation A) : Prop := forall x, ~ tc R x x.

Lemma acyclic_mono {A} (R R' : relation A) : (forall x y, R' x y -> R x y) -> acyclic R -> acyclic R'.
Proof. intros Hsub Hac x Hx. apply (Hac x). by eapply tc_congruence with (f := id) in Hx. Qed.

(** A path through a relation with one edge more avoids that edge, or can be
    cut at its first and last use. *)
Lemma tc_one_more {A} (R R' : relation A) f t x y :
  (forall a b, R' a b -> R a b \/ (a = f /\ b = t)) -> tc R' x y -> tc R x y \/ (rtc R x f /\ rtc R t y).
Proof.
  intros HR. induction 1 as [x y Hxy|x z y Hxz _ IH]; apply HR in Hxy || apply HR in Hxz.
  - destruct Hxy as [|[-> ->]]; [left; by apply tc_once|by right].
  - destruct Hxz as [Hxz|[-> ->]], IH as [IH|[IH1 IH2]].
    + left. by eapply tc_l.
    + right. split; [by eapply rtc_l|done].
    + right. split; [done|by apply tc_rtc].
    + by right.
Qed.

Lemma acyclic_one_more {A} (R R' : relation A) f t :
  (forall a b, R' a b -> R a b \/ (a = f /\ b = t)) -> f <> t -> ~ tc R t f -> acyclic R -> acyclic R'.
Proof.
  intros HR Hft Htf Hac x Hx. destruct (tc_one_more R R' f t x x HR Hx) as [Hxx|[Hxf Htx]]; [by apply (Hac x)|].
  apply Htf. assert (Hr : rtc R t f) by (by etrans). apply rtc_tc in Hr as [<-|]; [done|done].
Qed.

(** ** Timelines *)

Definition sum_of {A} (f : A -> Z) (l : list A) : Z := foldr (fun a n => f a + n) 0 l.

Lemma sum_of_app {A} (f : A -> Z) l k : sum_of f (l ++ k) = sum_of f l + sum_of f k.
Proof. unfold sum_of. induction l as [|a l IH]; cbn; [done|]. rewrite IH. lia. Qed.

Lemma sum_of_perm {A} (f : A -> Z) l k : l ≡ₚ k -> sum_of f l = sum_of f k.
Proof. unfold sum_of. induction 1; cbn; lia. Qed.

Lemma sum_of_split {A} (P : A -> Prop) `{!forall a, Decision (P a)} (f : A -> Z) l :
  sum_of f l = sum_of f (filter P l) + sum_of f (filter (fun a => ~ P a) l).
Proof.
  induction l as [|a l IH]; [done|]. rewrite !filter_cons. unfold sum_of in *.
  destruct (decide (P a)), (decide (~ P a)); cbn; try done; lia.
Qed.

(** What a row of [x]'s timeline adds to its links of kind [k] with [y]. *)
Definition told (x y : jsstr) (k : RelationKind) (a : RelationActivity) : Z :=
  if decide (ra_workItemId a = x /\ ra_otherId a = y /\ ra_kind a = k) then if ra_added a then 1 else -1 else 0.

Definition joins (x y : jsstr) (k : RelationKind) (r : RelationRow) : Prop :=
  rl_kind r = k /\ ((rl_fromId r = x /\ rl_toId r = y) \/ (rl_fromId r = y /\ rl_toId r = x)).
#[export] Instance joins_dec x y k r : Decision (joins x y k r).
Proof. unfold joins. apply _. Defined.

Definition link (x y : jsstr) (k : RelationKind) (r : RelationRow) : Z := if decide (joins x y k r) then 1 else 0.

Definition timeline_balance (db : PmDb) (x y : jsstr) (k : RelationKind) : Z := sum_of (told x y k) (db_activity db).
Definition links (db : PmDb) (x y : jsstr) (k : RelationKind) : Z := sum_of (link x y k) (db_relations db).

(** ** The invariant *)

Definition triple_of (r : RelationRow) : jsstr * jsstr * RelationKind := (rl_fromId r, rl_toId r, rl_kind r).

Record row_ok (db : PmDb) (r : RelationRow) : Prop := {
  ro_from : is_Some (db_items db !! rl_fromId r);
  ro_to : is_Some (db_items db !! rl_toId r);
  ro_distinct : rl_fromId r <> rl_toId r;
  ro_pm : rl_kind r = BLOCKS -> both_ends_in_pm db r = true;
  ro_canonical : isSymmetricKind (rl_kind r) = true -> str_ltb (rl_fromId r) (rl_toId r) = true
}.

Record db_ok (ever : gmap jsstr PmItem) (ids : list jsstr) (db : PmDb) : Prop := {
  do_ever : db_items db ⊆ ever;
  do_rows : Forall (row_ok db) (db_relations db);
  do_ids : NoDup (rl_id <$> db_relations db) /\ Forall (fun r => rl_id r ∈ ids) (db_relations db);
  do_unique : NoDup (triple_of <$> db_relations db);
  do_acyclic : acyclic (blocks db);
  do_log : Forall (fun a => is_Some (ever !! ra_workItemId a)) (db_activity db);
  do_timeline : forall x y k, is_Some (db_items db !! x) -> timeline_balance db x y k = links db x y k
}.

Lemma row_ok_items db db' r : db_items db ⊆ db_items db' -> row_ok db r -> row_ok db' r.
Proof.
  intros Hsub [[a Ha] [b Hb] Hd Hp Hc]. pose proof (lookup_weaken _ _ _ _ Ha Hsub) as Ha'.
  pose proof (lookup_weaken _ _ _ _ Hb Hsub) as Hb'. split; [by eexists|by eexists|done| |done].
  intros Hk. specialize (Hp Hk). unfold both_ends_in_pm, in_pm in *. by rewrite Ha', Hb'; rewrite Ha, Hb in Hp.
Qed.

Lemma blocks_pm ever ids db x y : db_ok ever ids db -> blocks db x y -> pm_blocks db x y.
Proof.
  intros Hok (r & Hr & Hk & Hf & Ht). exists r. split_and!; try done.
  pose proof (do_rows _ _ _ Hok) as Hrows. rewrite Forall_forall in Hrows. by apply (ro_pm _ _ (Hrows r Hr)).
Qed.

(** *** A row is added *)

Lemma told_added (actor : option jsstr) r x y k : rl_fromId r <> rl_toId r ->
  sum_of (told x y k) ((fun e => mkRelationActivity e.1 actor true (rl_kind r) e.2) <$> both_ends r) = link x y k r.
Proof.
  intros Hd. unfold both_ends, link, told, joins. cbn. repeat case_decide; cbn; try lia; exfalso; naive_solver.
Qed.

Lemma told_removed (actor : option jsstr) r x y k : rl_fromId r <> rl_toId r ->
  sum_of (told x y k) ((fun e => mkRelationActivity e.1 actor false (rl_kind r) e.2) <$> both_ends r) = - link x y k r.
Proof.
  intros Hd. unfold both_ends, link, told, joins. cbn. repeat case_decide; cbn; try lia; exfalso; naive_solver.
Qed.

Lemma db_ok_add ever ids db r actor :
  db_ok ever ids db -> rl_id r ∉ ids -> row_ok db r -> triple_of r ∉ (triple_of <$> db_relations db) ->
  (rl_kind r = BLOCKS -> ~ tc (blocks db) (rl_toId r) (rl_fromId r)) ->
  db_ok ever (rl_id r :: ids)
    (mkPmDb (db_items db) (db_relations db ++ [r])
       (db_activity db ++ ((fun e => mkRelationActivity e.1 actor true (rl_kind r) e.2) <$> both_ends r))).
Proof.
  intros Hok Hid Hr Ht Hcyc. destruct Hok as [Hever Hrows [Hids Hin] Huniq Hac Hlog Htl]. split; cbn [db_items db_relations db_activity].
  - done.
  - apply Forall_app. split; [|by apply Forall_singleton; eapply row_ok_items; [|exact Hr]].
    eapply Forall_impl; [exact Hrows|]. intros r'. by apply row_ok_items.
  - rewrite fmap_app. split; [|apply Forall_app; split; [|by apply Forall_singleton; left]].
    + apply NoDup_app. split_and!; [done| |apply NoDup_singleton]. intros i Hi ->%list_elem_of_singleton.
      apply list_elem_of_fmap in Hi as (r' & Heq & Hr'). rewrite Forall_forall in Hin. rewrite Heq in Hid. by apply Hid, Hin.
    + eapply Forall_impl; [exact Hin|]. intros r' Hr'. by right.
  - rewrite fmap_app. apply NoDup_app. split_and!; [done| |apply NoDup_singleton]. by intros t Hi ->%list_elem_of_singleton.
  - destruct (decide (rl_kind r = BLOCKS)) as [Hk|Hk].
    + eapply (acyclic_one_more (blocks db) _ (rl_fromId r) (rl_toId r)); [|apply (ro_distinct _ _ Hr)|by apply Hcyc|done].
      intros a b (r' & [Hr'| ->%list_elem_of_singleton]%elem_of_app & Hk' & <- & <-); [left; by exists r'|by right].
    + eapply acyclic_mono; [|exact Hac]. intros a b (r' & [Hr'| ->%list_elem_of_singleton]%elem_of_app & Hk' & Hf & Hto); [|done].
      by exists r'.
  - apply Forall_app. split; [done|]. destruct (ro_from _ _ Hr) as [fi Hf], (ro_to _ _ Hr) as [ti Hto].
    repeat constructor; cbn; eexists; by eapply lookup_weaken.
  - intros x y k Hx. unfold timeline_balance, links. cbn [db_activity db_relations]. rewrite !sum_of_app, told_added by apply (ro_distinct _ _ Hr).
    pose proof (Htl x y k Hx) as He. unfold timeline_balance, links in He. rewrite He. cbn. lia.
Qed.

(** *** A row is removed *)

Lemma acyclic_sub db db' : db_relations db' ⊆ db_relations db -> acyclic (blocks db) -> acyclic (blocks db').
Proof. intros Hs. apply acyclic_mono. intros x y (r & Hr & ?). exists r. split; [by apply Hs|done]. Qed.

Lemma filter_id_single (l : list RelationRow) r : NoDup (rl_id <$> l) -> r ∈ l -> filter (fun r' => rl_id r' = rl_id r) l = [r].
Proof.
  intros Hnd Hin. induction l as [|a l IH]; [by apply elem_of_nil in Hin|]. csimpl in Hnd. apply NoDup_cons in Hnd as [Hna Hnd].
  rewrite filter_cons. apply elem_of_cons in Hin as [<-|Hin].
  - rewrite decide_True by done. f_equal. destruct (filter _ l) as [|b k] eqn:E; [done|exfalso].
    assert (Hb : b ∈ filter (fun r' => rl_id r' = rl_id r) l) by (rewrite E; left).
    apply list_elem_of_filter in Hb as [Hb Hbl]. apply Hna. rewrite <- Hb. by apply list_elem_of_fmap_2.
  - rewrite decide_False; [by apply IH|]. intros Ha. apply Hna. rewrite Ha. by apply list_elem_of_fmap_2.
Qed.

Lemma NoDup_fmap_filter {A B} (f : A -> B) (P : A -> Prop) `{!forall a, Decision (P a)} l : NoDup (f <$> l) -> NoDup (f <$> filter P l).
Proof.
  induction l as [|a l IH]; [done|]. csimpl. intros [Hna Hnd]%NoDup_cons. rewrite filter_cons. case_decide; [|by apply IH].
  csimpl. apply NoDup_cons. split; [|by apply IH]. intros (b & Heq & Hb)%list_elem_of_fmap. apply Hna.
  rewrite Heq. apply list_elem_of_filter in Hb as [_ Hb]. by apply list_elem_of_fmap_2.
Qed.

(** Rows go, and the items of a set [gone] with them; the timelines of the
    others are told. *)
Lemma db_ok_drop ever ids db items rows (told_rows : list RelationActivity) :
  db_ok ever ids db -> items ⊆ db_items db -> (exists (P : RelationRow -> Prop) (HP : forall r, Decision (P r)), rows = filter P (db_relations db)) ->
  Forall (row_ok (mkPmDb items rows [])) rows -> Forall (fun a => is_Some (ever !! ra_workItemId a)) told_rows ->
  (forall x y k, is_Some (items !! x) ->
     sum_of (link x y k) (db_relations db) + sum_of (told x y k) told_rows = sum_of (link x y k) rows) ->
  db_ok ever ids (mkPmDb items rows (db_activity db ++ told_rows)).
Proof.
  intros [Hever Hrows [Hids Hin] Huniq Hac Hlog Htl] Hitems (P & HP & ->) Hok Htold Hsum. split; cbn [db_items db_relations db_activity].
  - by etrans.
  - eapply Forall_impl; [exact Hok|]. intros r. by apply row_ok_items.
  - split; [by apply NoDup_fmap_filter|]. rewrite Forall_forall in Hin |- *. intros r [_ Hr]%list_elem_of_filter. by apply Hin.
  - by apply NoDup_fmap_filter.
  - eapply acyclic_sub; [|exact Hac]. cbn. intros r Hr. by apply list_elem_of_filter in Hr as [_ ?].
  - by apply Forall_app.
  - intros x y k Hx. unfold timeline_balance, links. cbn [db_activity db_relations]. rewrite sum_of_app, <- Hsum by done.
    destruct Hx as [xi Hx]. pose proof (Htl x y k (mk_is_Some _ _ (lookup_weaken _ _ _ _ Hx Hitems))) as He.
    unfold timeline_balance, links in He. rewrite He. done.
Qed.

Lemma row_of ever ids db r : db_ok ever ids db -> r ∈ db_relations db -> row_ok db r.
Proof. intros Hok. pose proof (do_rows _ _ _ Hok) as Hr. rewrite Forall_forall in Hr. apply Hr. Qed.

Lemma db_ok_delete ever ids db r actor :
  db_ok ever ids db -> r ∈ db_relations db ->
  db_ok ever ids (mkPmDb (db_items db) (filter (fun r' => rl_id r' <> rl_id r) (db_relations db))
    (db_activity db ++ ((fun e => mkRelationActivity e.1 actor false (rl_kind r) e.2) <$> both_ends r))).
Proof.
  intros Hok Hr. pose proof (row_of _ _ _ _ Hok Hr) as [[fi Hf] [ti Ht] Hd _ _].
  pose proof (do_ever _ _ _ Hok) as Hever. apply db_ok_drop; [done|done|by eexists _, _| | |].
  - apply Forall_forall. intros r' [_ Hr']%list_elem_of_filter. eapply row_ok_items; [|by eapply row_of]. done.
  - repeat constructor; cbn; eexists; by eapply lookup_weaken.
  - intros x y k Hx. rewrite told_removed by done. rewrite (sum_of_split (fun r' => rl_id r' = rl_id r) (link x y k) (db_relations db)).
    rewrite filter_id_single; [|apply (do_ids _ _ _ Hok)|done]. cbn. lia.
Qed.

(** *** An item goes, and its edges with it *)

Lemma told_cascade (actor : option jsstr) id x y k (l : list RelationRow) :
  x <> id -> Forall (fun r => touches id r /\ rl_fromId r <> rl_toId r) l ->
  sum_of (told x y k) ((fun r => mkRelationActivity (if decide (rl_fromId r = id) then rl_toId r else rl_fromId r)
                                   actor false (rl_kind r) id) <$> l) = - sum_of (link x y k) l.
Proof.
  intros Hx. induction 1 as [|r l [Ht Hd] _ IH]; [done|]. unfold sum_of in *. csimpl. rewrite IH.
  enough (told x y k (mkRelationActivity (if decide (rl_fromId r = id) then rl_toId r else rl_fromId r) actor false (rl_kind r) id)
          = - link x y k r) as -> by lia.
  unfold told, link, joins, touches in *. cbn. repeat case_decide; cbn; try done; exfalso; naive_solver.
Qed.

Lemma sum_of_zero {A} (f : A -> Z) l : Forall (fun a => f a = 0) l -> sum_of f l = 0.
Proof. unfold sum_of. induction 1 as [|a l Ha _ IH]; cbn; lia. Qed.

(** The timeline of an item that is gone counts for none of the others. *)
Lemma db_ok_cascade ever ids id items rows log : items !! id = None ->
  db_ok ever ids (mkPmDb items rows log) -> db_ok ever ids (mkPmDb items rows (filter (fun a => ra_workItemId a <> id) log)).
Proof.
  intros Hno [Hever Hrows Hids Huniq Hac Hlog Htl]. split; try done; cbn [db_items db_relations db_activity] in *.
  - eapply Forall_impl; [exact Hrows|]. intros r. by apply row_ok_items.
  - rewrite Forall_forall in Hlog |- *. intros a [_ Ha]%list_elem_of_filter. by apply Hlog.
  - intros x y k Hx. etrans; [|by apply Htl]. unfold timeline_balance. cbn [db_activity].
    rewrite (sum_of_split (fun a => ra_workItemId a <> id) (told x y k) log).
    enough (sum_of (told x y k) (filter (fun a => ~ ra_workItemId a <> id) log) = 0) by lia. apply sum_of_zero, Forall_forall.
    intros a [Ha _]%list_elem_of_filter. unfold told. rewrite decide_False; [done|]. intros [Hax _]. apply Ha. intros Heq.
    rewrite Hax in Heq. rewrite Heq in Hx. cbn in Hx. rewrite Hno in Hx. by destruct Hx.
Qed.

Lemma db_ok_remove_item ever ids db actor id : db_ok ever ids db -> db_ok ever ids (deleteWorkItem actor id db).
Proof.
  intros Hok. unfold deleteWorkItem. apply db_ok_cascade; [by apply lookup_delete_eq|]. apply db_ok_drop; [done|apply delete_subseteq|by eexists _, _| | |].
  - apply Forall_forall. intros r [Ht Hr]%list_elem_of_filter. destruct (row_of _ _ _ _ Hok Hr) as [Hf Hto Hd Hp Hc].
    assert (Hne : rl_fromId r <> id /\ rl_toId r <> id) by (unfold touches in Ht; tauto). destruct Hne as [Hnf Hnt].
    split; cbn; rewrite ?lookup_delete_ne by done; try done.
    intros Hk. specialize (Hp Hk). unfold both_ends_in_pm, in_pm in *. cbn. by rewrite !lookup_delete_ne.
  - apply Forall_fmap, Forall_forall. intros r [Ht Hr]%list_elem_of_filter.
    destruct (row_of _ _ _ _ Hok Hr) as [[fi Hf] [ti Hto] _ _ _]. cbn. pose proof (do_ever _ _ _ Hok) as Hever.
    case_decide; eexists; by eapply lookup_weaken.
  - intros x y k [xi [Hx _]%lookup_delete_Some]. rewrite told_cascade; [|done|].
    + rewrite (sum_of_split (touches id) (link x y k) (db_relations db)). lia.
    + apply Forall_forall. intros r [Ht Hr]%list_elem_of_filter. split; [done|]. apply (ro_distinct _ _ (row_of _ _ _ _ Hok Hr)).
Qed.

(** *** An item comes *)

Lemma db_ok_add_item ever ids db id it : ever !! id = None -> db_ok ever ids db ->
  db_ok (<[id := it]> ever) ids (mkPmDb (<[id := it]> (db_items db)) (db_relations db) (db_activity db)).
Proof.
  intros Hnew Hok. assert (Hni : db_items db !! id = None).
  { destruct (db_items db !! id) as [v|] eqn:E; [|done]. by rewrite (lookup_weaken _ _ _ _ E (do_ever _ _ _ Hok)) in Hnew. }
  pose proof Hok as [Hever Hrows Hids Huniq Hac Hlog Htl]. split; cbn [db_items db_relations db_activity]; try done.
  - by apply insert_mono.
  - eapply Forall_impl; [exact Hrows|]. intros r. apply row_ok_items. by apply insert_subseteq.
  - eapply Forall_impl; [exact Hlog|]. cbn. intros a [v Hv]. rewrite lookup_insert_is_Some.
    destruct (decide (id = ra_workItemId a)); [by left|right; by eauto].
  - intros x y k Hx. destruct (decide (x = id)) as [->|Hne]; [|rewrite lookup_insert_ne in Hx by done; by apply Htl].
    unfold timeline_balance, links. cbn [db_activity db_relations]. rewrite !sum_of_zero; [done| |].
    + apply Forall_forall. intros r Hr. unfold link. rewrite decide_False; [done|].
      destruct (row_of _ _ _ _ Hok Hr) as [[fi Hf] [ti Ht] _ _ _]. unfold joins. naive_solver.
    + eapply Forall_impl; [exact Hlog|]. cbn. intros a [v Hv]. unfold told. rewrite decide_False; [done|]. naive_solver.
Qed.

(** ** The machine *)

Lemma db_ok_ids ever ids ids' db : ids ⊆ ids' -> db_ok ever ids db -> db_ok ever ids' db.
Proof.
  intros Hsub [? ? [Hn Hin] ? ? ? ?]. split; try done. split; [done|]. eapply Forall_impl; [exact Hin|]. intros r. apply Hsub.
Qed.

Definition told_row (actor : option jsstr) (added : bool) (r : RelationRow) : list RelationActivity :=
  (fun e => mkRelationActivity e.1 actor added (rl_kind r) e.2) <$> both_ends r.

Lemma insert_relation_ok r db db' ends : insert_relation r db = (db', Ok ends) ->
  db' = mkPmDb (db_items db) (db_relations db ++ [r]) (db_activity db) /\
  triple_of r ∉ (triple_of <$> db_relations db) /\
  is_Some (db_items db !! rl_fromId r) /\ is_Some (db_items db !! rl_toId r).
Proof.
  unfold insert_relation. destruct (existsb _ _) eqn:Ex; [done|].
  destruct (db_items db !! rl_fromId r) as [a|] eqn:Ea; [|done]. destruct (db_items db !! rl_toId r) as [b|] eqn:Eb; [|done].
  intros [= <- _]. split_and!; [done| |by eexists|by eexists]. intros (r' & Heq & Hr')%list_elem_of_fmap.
  assert (Hx : existsb (fun r' => bool_decide (rl_id r' = rl_id r) ||
    bool_decide (rl_fromId r' = rl_fromId r /\ rl_toId r' = rl_toId r /\ rl_kind r' = rl_kind r)) (db_relations db) = true).
  { apply existsb_exists. exists r'. split; [by apply list_elem_of_In|]. unfold triple_of in Heq. simplify_eq.
    apply orb_true_iff. right. by apply bool_decide_eq_true. }
  by rewrite Hx in Ex.
Qed.

(** What a new row must be, given what was seen of its ends at some time. *)
Record new_row_ok (ever : gmap jsstr PmItem) (r : RelationRow) : Prop := {
  nr_distinct : rl_fromId r <> rl_toId r;
  nr_pm : rl_kind r = BLOCKS -> in_pm ever (rl_fromId r) = true /\ in_pm ever (rl_toId r) = true;
  nr_canonical : isSymmetricKind (rl_kind r) = true -> str_ltb (rl_fromId r) (rl_toId r) = true
}.

Lemma add_row_ok ever ids db r actor db' ends :
  db_ok ever ids db -> rl_id r ∉ ids -> new_row_ok ever r ->
  (rl_kind r = BLOCKS -> ~ tc (pm_blocks db) (rl_toId r) (rl_fromId r)) ->
  insert_relation r db = (db', Ok ends) ->
  db_ok ever (rl_id r :: ids) (mkPmDb (db_items db') (db_relations db') (db_activity db' ++ told_row actor true r)).
Proof.
  intros Hok Hid [Hd Hp Hc] Hcyc (-> & Ht & Hf & Hto)%insert_relation_ok. cbn [db_items db_relations db_activity].
  apply db_ok_add; try done.
  - split; try done. intros Hk. destruct (Hp Hk) as [Hpf Hpt]. destruct Hf as [fi Hf], Hto as [ti Hto].
    pose proof (do_ever _ _ _ Hok) as Hever. unfold both_ends_in_pm, in_pm in *.
    rewrite (lookup_weaken _ _ _ _ Hf Hever) in Hpf. rewrite (lookup_weaken _ _ _ _ Hto Hever) in Hpt.
    by rewrite Hf, Hto, Hpf, Hpt.
  - intros Hk Htc. apply (Hcyc Hk). clear - Htc Hok. induction Htc as [x y Hxy|x y z Hxy _ IH].
    + apply tc_once. by eapply blocks_pm.
    + eapply tc_l; [by eapply blocks_pm|done].
Qed.

Section machine.
Context (order : PmDb -> list RelationRow -> list RelationRow) (Horder : forall db l, order db l ≡ₚ l).

Lemma new_row_new ever id now i :
  in_fromId i <> in_toId i -> in_pm ever (in_fromId i) = true -> in_pm ever (in_toId i) = true -> new_row_ok ever (new_row id now i).
Proof.
  intros Hd Hf Ht. unfold new_row, canonicalise. destruct (isSymmetricKind (in_kind i)) eqn:Ek; cbn [andb].
  - destruct (str_ltb (in_toId i) (in_fromId i)) eqn:El; split; cbn; try done.
    intros _. destruct (str_ltb (in_fromId i) (in_toId i)) eqn:E2; [done|]. by destruct Hd; apply str_ltb_total.
  - split; cbn; try done. congruence.
Qed.

Lemma createRelationTx_ok ever ids db id now i :
  db_ok ever ids db -> id ∉ ids ->
  in_fromId i <> in_toId i -> in_pm ever (in_fromId i) = true -> in_pm ever (in_toId i) = true ->
  db_ok ever (id :: ids) (createRelationTx order id now i db).1.
Proof.
  intros Hok Hid Hd Hf Ht. assert (Hkeep : db_ok ever (id :: ids) db) by (eapply db_ok_ids; [|done]; set_solver).
  pose proof (new_row_new ever id now i Hd Hf Ht) as Hnew. unfold createRelationTx, htransaction, hbind, hget.
  set (row := new_row id now i) in *. assert (Hrid : rl_id row = id) by done. assert (Hkind : rl_kind row = in_kind i) by done.
  assert (Hadd : (rl_kind row = BLOCKS -> ~ tc (pm_blocks db) (rl_toId row) (rl_fromId row)) ->
    forall db' ends, insert_relation row db = (db', Ok ends) ->
    db_ok ever (id :: ids) (mkPmDb (db_items db') (db_relations db') (db_activity db' ++ told_row (in_actorId i) true row))).
  { intros Hcyc db' ends Hi. rewrite <- Hrid. by eapply add_row_ok; try rewrite Hrid. }
  clearbody row. destruct (isSymmetricKind (in_kind i)) eqn:Ek.
  - cbn. destruct (insert_relation row db) as [db' [ends|e]] eqn:Ei; [|done]. cbn. unfold told_row in Hadd. rewrite Hkind in Hadd.
    eapply Hadd; [|done]. intros Hk. rewrite Hk in Ek. done.
  - destruct (blocksPathExists order db (rl_toId row) (rl_fromId row)) as [[]|e] eqn:Eb; cbn; [done| |done].
    destruct (insert_relation row db) as [db' [ends|e]] eqn:Ei; [|done]. cbn. unfold told_row in Hadd. rewrite Hkind in Hadd.
    eapply Hadd; [|done]. intros _ Htc. apply (blocksPathExists_exact order Horder) in Eb. by apply Eb in Htc.
Qed.

Lemma linkSupport_ok ever ids db id now actor a b :
  db_ok ever ids db -> id ∉ ids -> a <> b -> db_ok ever (id :: ids) (linkSupport id now actor a b db).1.
Proof.
  intros Hok Hid Hab. assert (Hkeep : db_ok ever (id :: ids) db) by (eapply db_ok_ids; [|done]; set_solver).
  unfold linkSupport, htransaction, hbind. set (row := if str_ltb a b then _ else _).
  assert (Hrow : rl_id row = id /\ rl_kind row = RELATES /\ new_row_ok ever row).
  { subst row. destruct (str_ltb a b) eqn:E; (split_and!; [done..|split; cbn; try done]).
    intros _. destruct (str_ltb b a) eqn:E2; [done|]. by destruct Hab; apply str_ltb_total. }
  clearbody row. destruct Hrow as (Hrid & Hk & Hnew). destruct (insert_relation row db) as [db' [ends|e]] eqn:Ei; [|done].
  cbn. rewrite <- Hrid. eassert (Hadd : _) by (eapply (add_row_ok ever ids db row actor db' ends Hok); [by rewrite Hrid|done|by rewrite Hk|done]).
  unfold told_row in Hadd. by rewrite Hk in Hadd.
Qed.

Definition pending_ok (ever : gmap jsstr PmItem) (ids : list jsstr) (db : PmDb) (p : Pending) : Prop :=
  match p with
  | P_create i => in_fromId i <> in_toId i /\ in_pm ever (in_fromId i) = true /\ in_pm ever (in_toId i) = true
  | P_delete _ r => rl_id r ∈ ids /\ forall r', r' ∈ db_relations db -> rl_id r' = rl_id r -> r' = r
  end.

Lemma deleteRelationTx_ok ever ids db actor r :
  db_ok ever ids db -> pending_ok ever ids db (P_delete actor r) -> db_ok ever ids (deleteRelationTx actor r db).1.
Proof.
  intros Hok [_ Hsame]. unfold deleteRelationTx, htransaction, hbind, writeRelationActivity.
  case_bool_decide as Hex; cbn; [|done]. apply Exists_exists in Hex as (r' & Hr' & Hid). cbn in Hr'.
  pose proof (Hsame r' Hr' Hid) as ->. by apply (db_ok_delete ever ids db r actor).
Qed.

Record machine_ok (m : PmMachine) : Prop := {
  mo_db : db_ok (pm_ever m) (pm_ids m) (pm_db m);
  mo_pending : Forall (pending_ok (pm_ever m) (pm_ids m) (pm_db m)) (pm_pending m)
}.

Lemma in_pm_mono (ever ever' : gmap jsstr PmItem) x : ever ⊆ ever' -> in_pm ever x = true -> in_pm ever' x = true.
Proof.
  intros Hsub. unfold in_pm. destruct (ever !! x) as [it|] eqn:E; [|done]. by rewrite (lookup_weaken _ _ _ _ E Hsub).
Qed.

Lemma pending_step ever ever' ids ids' db db' p : ever ⊆ ever' -> ids ⊆ ids' ->
  (forall r, r ∈ db_relations db' -> r ∈ db_relations db \/ rl_id r ∉ ids) ->
  pending_ok ever ids db p -> pending_ok ever' ids' db' p.
Proof.
  intros Hev Hids Hrows. destruct p as [i|actor r]; cbn.
  - intros (Hd & Hf & Ht). split_and!; [done|by eapply in_pm_mono..].
  - intros [Hr Hsame]. split; [by apply Hids|]. intros r' Hr' Heq. destruct (Hrows r' Hr') as [|Hn]; [by apply Hsame|]. by rewrite Heq in Hn.
Qed.

Lemma insert_relation_rows r db r' : r' ∈ db_relations (insert_relation r db).1 -> r' ∈ db_relations db \/ rl_id r' = rl_id r.
Proof. unfold insert_relation. repeat case_match; cbn; try by left. intros [| ->%list_elem_of_singleton]%elem_of_app; [by left|by right]. Qed.

Lemma createRelationTx_rows id now i db r :
  r ∈ db_relations (createRelationTx order id now i db).1 -> r ∈ db_relations db \/ rl_id r = id.
Proof.
  unfold createRelationTx, htransaction, hbind, hget. pose proof (insert_relation_rows (new_row id now i) db r) as Hrow.
  destruct (if isSymmetricKind (in_kind i) then _ else _) as [db1 [[]|e]] eqn:E1; [|by left].
  assert (db1 = db) as ->. { destruct (isSymmetricKind (in_kind i)); [by injection E1|]. destruct (blocksPathExists _ _ _ _) as [[]|]; by injection E1. }
  destruct (insert_relation _ db) as [db2 [ends|e]]; [|by left]. exact Hrow.
Qed.

Lemma linkSupport_rows id now actor a b db r :
  r ∈ db_relations (linkSupport id now actor a b db).1 -> r ∈ db_relations db \/ rl_id r = id.
Proof.
  unfold linkSupport, htransaction, hbind. set (row := if str_ltb a b then _ else _).
  assert (Hid : rl_id row = id) by (subst row; by destruct (str_ltb a b)). pose proof (insert_relation_rows row db r) as Hrow.
  rewrite Hid in Hrow. destruct (insert_relation row db) as [db2 [ends|e]]; [|by left]. exact Hrow.
Qed.

Lemma deleteRelationTx_rows actor r0 db r : r ∈ db_relations (deleteRelationTx actor r0 db).1 -> r ∈ db_relations db.
Proof.
  unfold deleteRelationTx, htransaction, hbind, writeRelationActivity. case_bool_decide; cbn; [|done].
  by intros [_ ?]%list_elem_of_filter.
Qed.

Lemma find_relation_Some db relationId r : find_relation db relationId = Some r -> r ∈ db_relations db.
Proof.
  unfold find_relation. destruct (filter _ _) as [|r0 l] eqn:E; [done|]. intros [= ->].
  assert (Hr : r ∈ filter (fun r => rl_id r = relationId /\ both_ends_in_pm db r = true) (db_relations db)) by (rewrite E; left).
  by apply list_elem_of_filter in Hr as [_ ?].
Qed.

Lemma rows_by_id ever ids db r r' : db_ok ever ids db -> r ∈ db_relations db -> r' ∈ db_relations db -> rl_id r' = rl_id r -> r' = r.
Proof.
  intros Hok Hr Hr' Heq. destruct (do_ids _ _ _ Hok) as [Hnd _].
  assert (Hin : r' ∈ filter (fun r' => rl_id r' = rl_id r) (db_relations db)) by (by apply list_elem_of_filter).
  rewrite filter_id_single in Hin by done. by apply list_elem_of_singleton in Hin.
Qed.

Lemma pm_move_ok mv m m' : machine_ok m -> pm_move order mv m = Some m' -> machine_ok m'.
Proof.
  intros [Hdb Hp]. assert (Hids : Forall (fun r => rl_id r ∈ pm_ids m) (db_relations (pm_db m))) by apply (do_ids _ _ _ Hdb).
  destruct mv as [id it|actor id|id now actor a b|i|actor rid|task id now|task]; cbn [pm_move].
  - destruct (pm_ever m !! id) eqn:E; [done|]. intros [= <-]. split; cbn; [by apply db_ok_add_item|].
    eapply Forall_impl; [exact Hp|]. intros p. apply pending_step; [by apply insert_subseteq|done|by left].
  - intros [= <-]. split; cbn; [by apply db_ok_remove_item|]. eapply Forall_impl; [exact Hp|].
    intros p. apply pending_step; [done|done|]. cbn. intros r [_ Hr]%list_elem_of_filter. by left.
  - case_decide as Hn; [done|]. apply Decidable.not_or in Hn as [Hab Hid]. intros [= <-].
    split; cbn; [by apply linkSupport_ok|]. eapply Forall_impl; [exact Hp|].
    intros p. apply pending_step; [done|set_solver|]. intros r [|Heq]%linkSupport_rows; [by left|right; by rewrite Heq].
  - unfold checkEnds. cbn [snd]. intros [= <-]. case_decide as Hd; [done|]. destruct (in_pm _ (in_fromId i)) eqn:Ef; [|done].
    destruct (in_pm _ (in_toId i)) eqn:Et; [|done]. split; cbn; [done|]. apply Forall_app. split; [done|].
    apply Forall_singleton. cbn. pose proof (do_ever _ _ _ Hdb). split_and!; [done|by eapply in_pm_mono..].
  - intros [= <-]. destruct (find_relation (pm_db m) rid) as [r|] eqn:E; [|done]. apply find_relation_Some in E.
    split; cbn; [done|]. apply Forall_app. split; [done|]. apply Forall_singleton. cbn. split.
    + rewrite Forall_forall in Hids. by apply Hids.
    + intros r' Hr' Heq. by eapply rows_by_id.
  - destruct (pm_pending m !! task) as [[i|actor r]|] eqn:E; [| |done].
    + case_decide as Hid; [done|]. intros [= <-]. destruct (Forall_lookup_1 _ _ _ _ Hp E) as (Hd & Hf & Ht).
      split; cbn; [by apply createRelationTx_ok|]. apply Forall_delete. eapply Forall_impl; [exact Hp|].
      intros p. apply pending_step; [done|set_solver|]. intros r [|Heq]%createRelationTx_rows; [by left|right; by rewrite Heq].
    + intros [= <-]. pose proof (Forall_lookup_1 _ _ _ _ Hp E) as Hr.
      split; cbn; [by apply deleteRelationTx_ok|]. apply Forall_delete. eapply Forall_impl; [exact Hp|].
      intros p. apply pending_step; [done|done|]. intros r' Hr'%deleteRelationTx_rows. by left.
  - intros [= <-]. split; cbn; [done|]. by apply Forall_delete.
Qed.

Lemma pm_moves_ok mvs : forall m m', machine_ok m -> pm_moves order mvs m = Some m' -> machine_ok m'.
Proof.
  induction mvs as [|mv r IH]; intros m m' Hm; cbn [pm_moves]; [by intros [= <-]|].
  intros (m1 & H1 & Hr)%bind_Some. eapply IH; [|exact Hr]. by eapply pm_move_ok.
Qed.

Lemma empty_pm_ok : machine_ok empty_pm.
Proof.
  split; [|constructor]. split; [done|constructor|split; constructor|constructor| |constructor|done].
  intros x Hx. assert (Hno : forall y z, ~ blocks (pm_db empty_pm) y z) by (intros y z (r & Hr & _); by apply elem_of_nil in Hr).
  destruct Hx; by eapply Hno.
Qed.
End machine.

(** ** What the table promises *)

(** In any reachable table, a row is the only one that links its two ends with
    its kind, whichever end comes first. *)
Lemma link_unique ever ids db r r' x y k : db_ok ever ids db -> r ∈ db_relations db -> r' ∈ db_relations db ->
  joins x y k r -> joins x y k r' -> r = r'.
Proof.
  intros Hok Hr Hr' [Hk He] [Hk' He'].
  assert (Heq : triple_of r = triple_of r' -> r = r').
  { intros Ht. apply (list_elem_of_lookup_1 _ _) in Hr as [i Hi], Hr' as [j Hj].
    pose proof (do_unique _ _ _ Hok) as Hnd. rewrite NoDup_alt in Hnd.
    assert (i = j) as ->; [|congruence]. eapply Hnd; rewrite list_lookup_fmap; [by rewrite Hi|]. rewrite Hj, Ht. done. }
  destruct (row_of _ _ _ _ Hok Hr) as [_ _ _ _ Hc], (row_of _ _ _ _ Hok Hr') as [_ _ _ _ Hc'].
  destruct He as [[Hf Ht]|[Hf Ht]], He' as [[Hf' Ht']|[Hf' Ht']]; try (apply Heq; unfold triple_of; congruence).
  all: exfalso; destruct (isSymmetricKind k) eqn:Ek.
  all: try (rewrite Hk in Hc; rewrite Hk' in Hc'; specialize (Hc Ek); specialize (Hc' Ek);
    rewrite Hf, Ht in Hc; rewrite Hf', Ht' in Hc'; pose proof (str_ltb_trans _ _ _ Hc Hc') as Hxx; by rewrite str_ltb_irrefl in Hxx).
  all: assert (k = BLOCKS) as -> by (by destruct k); apply (do_acyclic _ _ _ Hok x).
  - eapply tc_l with y; [by exists r|apply tc_once; by exists r'].
  - eapply tc_l with y; [by exists r'|apply tc_once; by exists r].
Qed.

Lemma links_count ever ids db x y k : db_ok ever ids db ->
  links db x y k = if decide (Exists (joins x y k) (db_relations db)) then 1 else 0.
Proof.
  intros Hok. unfold links. rewrite (sum_of_split (joins x y k)).
  rewrite (sum_of_zero _ (filter (fun a => ~ joins x y k a) _)), Z.add_0_r.
  2: { apply Forall_forall. intros r [Hn _]%list_elem_of_filter. unfold link. by rewrite decide_False. }
  assert (Hnd : NoDup (filter (joins x y k) (db_relations db))).
  { apply NoDup_filter. eapply NoDup_fmap_1. apply (do_unique _ _ _ Hok). }
  destruct (filter (joins x y k) (db_relations db)) as [|r l] eqn:E.
  - rewrite decide_False; [done|]. intros (r & Hr & Hj)%Exists_exists.
    assert (Hin : r ∈ filter (joins x y k) (db_relations db)) by (by apply list_elem_of_filter). rewrite E in Hin. by apply elem_of_nil in Hin.
  - assert (Hin : forall a, a ∈ r :: l -> joins x y k a /\ a ∈ db_relations db).
    { intros a. rewrite <- E. apply list_elem_of_filter. }
    destruct (Hin r ltac:(left)) as [Hj Hr]. rewrite decide_True by (apply Exists_exists; by eexists).
    destruct l as [|r' l]; [unfold link; cbn; by rewrite decide_True|exfalso].
    destruct (Hin r' ltac:(right; left)) as [Hj' Hr']. apply NoDup_cons in Hnd as [Hnd _]. apply Hnd.
    rewrite (link_unique ever ids db r r' x y k) by done. left.
Qed.

(** C7: the BLOCKS links of all projects never form a cycle, and two work items
    are linked at most once per kind whichever of them is named first.  This
    holds after any interleaving of creations (the check of their ends and
    their transaction apart), deletions, deletions of work items, links of the
    support desk and serialization failures, in whatever order the database
    returns the edges of a level.  A walk that exceeds one of its bounds
    refuses the link. *)
Theorem blocks_stay_acyclic order mvs m : (forall db l, order db l ≡ₚ l) -> pm_moves order mvs empty_pm = Some m ->
  (forall x, ~ tc (blocks (pm_db m)) x x) /\
  forall r r' x y k, r ∈ db_relations (pm_db m) -> r' ∈ db_relations (pm_db m) -> joins x y k r -> joins x y k r' -> r = r'.
Proof.
  intros Horder Hm. destruct (pm_moves_ok order Horder mvs _ _ empty_pm_ok Hm) as [Hok _]. split; [apply (do_acyclic _ _ _ Hok)|].
  intros r r' x y k. by apply (link_unique (pm_ever m) (pm_ids m)).
Qed.

(** A work item's timeline explains its links: for every item there is,
    the rows that say a link was added outnumber the rows that say it was
    removed by one when the link is there, and by none when it is not.  This
    includes links that went because the item at the other end was deleted. *)
Theorem timelines_explain_links order mvs m x y k : (forall db l, order db l ≡ₚ l) -> pm_moves order mvs empty_pm = Some m ->
  is_Some (db_items (pm_db m) !! x) ->
  timeline_balance (pm_db m) x y k = if decide (Exists (joins x y k) (db_relations (pm_db m))) then 1 else 0.
Proof.
  intros Horder Hm Hx. destruct (pm_moves_ok order Horder mvs _ _ empty_pm_ok Hm) as [Hok _].
  rewrite (do_timeline _ _ _ Hok) by done. by apply (links_count (pm_ever m) (pm_ids m)).
Qed.

(** ** A small tracker *)

Definition pm_item (n : Z) : PmItem := mkPmItem (js "item") n (js "p1") (js "OPS") false.
Definition ask_blocks (a b : jsstr) : RelationInput := mkInput None a b BLOCKS.
Definition newest_first (_ : PmDb) (l : list RelationRow) : list RelationRow := reverse l.

Lemma newest_first_perm db l : newest_first db l ≡ₚ l.
Proof. apply reverse_Permutation. Qed.

(** Three requests that close a cycle pass their checks together; the last
    transaction finds the path and refuses. *)
Definition closing_links : list PmMove :=
  [AddItem (js "a") (pm_item 1); AddItem (js "b") (pm_item 2); AddItem (js "c") (pm_item 3);
   AskCreate (ask_blocks (js "a") (js "b")); AskCreate (ask_blocks (js "c") (js "a")); AskCreate (ask_blocks (js "b") (js "c"));
   Commit 0 (js "r1") 10; Commit 0 (js "r2") 20; Commit 0 (js "r3") 30].

Lemma blocks_stay_acyclic_witness :
  exists m, pm_moves newest_first closing_links empty_pm = Some m /\
    length (db_relations (pm_db m)) = 2%nat /\ ~ tc (blocks (pm_db m)) (js "a") (js "a").
Proof.
  destruct (pm_moves newest_first closing_links empty_pm) as [m|] eqn:E; [|vm_compute in E; discriminate E].
  exists m. split; [reflexivity|]. split.
  - vm_compute in E. injection E as <-. reflexivity.
  - exact (proj1 (blocks_stay_acyclic newest_first closing_links m newest_first_perm E) (js "a")).
Defined.

(** The item at the other end of [a]'s link is deleted. *)
Lemma timelines_explain_links_witness :
  exists m, pm_moves newest_first (closing_links ++ [RemoveItem None (js "b")]) empty_pm = Some m /\
    timeline_balance (pm_db m) (js "a") (js "b") BLOCKS = 0 /\ length (db_activity (pm_db m)) = 4%nat.
Proof.
  destruct (pm_moves newest_first (closing_links ++ [RemoveItem None (js "b")]) empty_pm) as [m|] eqn:E;
    [|vm_compute in E; discriminate E].
  exists m. split; [reflexivity|]. split.
  - rewrite (timelines_explain_links newest_first _ m (js "a") (js "b") BLOCKS newest_first_perm E);
      vm_compute in E; injection E as <-; [reflexivity|]. vm_compute. by eexists.
  - vm_compute in E. injection E as <-. reflexivity.
Defined.
