(* ===== verification/Outbox.v ===== *)
(** * Outbox: the consumers of the activity feed
      (apps/orchestrator/src/services/pm/pm-outbox.ts)

    Every change of the tracker writes its activity rows in its own
    transaction; consumers read them in the order of [(createdAt, id)], each
    with a cursor of its own.  A row is stamped when it is inserted and seen
    when its transaction commits, so a sweep reads only rows that have been
    still for the settle window.  The sweep of a consumer is a program
    ([Prog]); [ObMachine] runs it between the inserts, commits and rollbacks of
    any number of writers, the deletions of work items, failing commands, and
    crashes of the process. *)

From S2P Require Import Prelude Json Prog DateTime DateText.

Local Open Scope Z_scope.

(** ** Constants and data *)

Definition OUTBOX_FLAG_PREFIX : jsstr := js "pm-outbox:".
Definition DEFAULT_OUTBOX_SETTLE_MS : Z := 6000.
Definition DEFAULT_OUTBOX_BATCH : Z := 100.
Definition DEFAULT_OUTBOX_POISON_AFTER_MS : Z := 5 * 60000.
Definition MAX_BATCHES_PER_SWEEP : nat := 50.
Definition POISON_MIN_FAILURES : Z := 3.

(** Prisma's interactive-transaction timeout: a row commits at most this long
    after its stamp, or never. *)
Definition TRANSACTION_TIMEOUT_MS : Z := 5000.

Record OutboxRow := mkOutboxRow {
  or_id : jsstr; or_workItemId : option jsstr; or_deletedWorkItemId : option jsstr; or_verb : jsstr; or_createdAt : Z
}.

Record OutboxCursor := mkCursor { oc_createdAt : jsstr; oc_id : jsstr }.

Record OutboxConsumer := mkConsumer {
  cn_name : jsstr; cn_batchSize : option Z; cn_settleMs : option Z; cn_poisonAfterMs : option Z
}.

Definition settleMs (c : OutboxConsumer) : Z := default DEFAULT_OUTBOX_SETTLE_MS (cn_settleMs c).
Definition batchSize (c : OutboxConsumer) : Z := default DEFAULT_OUTBOX_BATCH (cn_batchSize c).
Definition poisonAfterMs (c : OutboxConsumer) : Z := default DEFAULT_OUTBOX_POISON_AFTER_MS (cn_poisonAfterMs c).

Inductive OutboxError := InvalidName | BadLimit | UnreadableCursor | DatabaseError | HandlerFailed.

(** [CONSUMER_NAME] *)
Definition name_char (c : N) : bool := ((97 <=? c) && (c <=? 122) || (48 <=? c) && (c <=? 57))%N.
Definition consumer_name (s : jsstr) : bool :=
  match s with
  | [] => false
  | c :: r => name_char c && forallb (fun c => name_char c || N.eqb c 45) r && (Nat.leb (length r) 63)
  end.

Definition outboxFlagKey (consumer : jsstr) : result OutboxError jsstr :=
  if consumer_name consumer then Ok (OUTBOX_FLAG_PREFIX ++ consumer) else Throw InvalidName.

Definition cursor_value (c : OutboxCursor) : jsval :=
  JObj [(js "createdAt", JStr (oc_createdAt c)); (js "id", JStr (oc_id c))].

(** [Date.parse] on the texts [toISOString] writes; of the others nothing is
    modelled. *)
Definition parseCursor (v : jsval) : option OutboxCursor :=
  match v with
  | JObj kvs =>
      match alookup (js "createdAt") kvs, alookup (js "id") kvs with
      | Some (JStr createdAt), Some (JStr id) => iso_parse createdAt ≫= fun _ => Some (mkCursor createdAt id)
      | _, _ => None
      end
  | _ => None
  end.

(** The rows a consumer may see. *)
Definition visible (consumer : jsstr) (r : OutboxRow) : bool :=
  bool_decide (is_Some (or_workItemId r)) ||
  (bool_decide (consumer = js "pm-live") && bool_decide (is_Some (or_deletedWorkItemId r))).

(** The order of rows and cursors. *)
Abbreviation okey := (Z * jsstr)%type.
Definition key_of (r : OutboxRow) : okey := (or_createdAt r, or_id r).
Definition klt (a b : okey) : bool := (a.1 <? b.1) || ((a.1 =? b.1) && str_ltb a.2 b.2).
Definition row_cmp (a b : OutboxRow) : Z := if klt (key_of a) (key_of b) then -1 else if klt (key_of b) (key_of a) then 1 else 0.

(** ** Commands *)

(** A database command answers [None] when it throws; [Handle] answers whether
    the handler returned. *)
Inductive ocommand : Set -> Set :=
| Clock : ocommand Z
| FindFlag : ocommand (option (option jsval))
| CreateFlag (v : jsval) : ocommand (option unit)
| UpsertFlag (v : jsval) : ocommand (option unit)
| FindRows (after : okey) (settledBefore : Z) (limit : Z) : ocommand (option (list OutboxRow))
| Handle (row : OutboxRow) : ocommand bool
(** The clock and the failure table of the process, in one go. *)
| NoteFailure (row : OutboxRow) : ocommand (Z * (Z * Z))
| LogDeadLetter (row : OutboxRow) (failure : Z * (Z * Z)) : ocommand unit
| Untrack (row : OutboxRow) : ocommand unit.

Abbreviation oprog A := (prog ocommand (result OutboxError A)).

(** ** The cursor and the read *)

Section consumer.
Context (consumer : OutboxConsumer).

Definition loadCursor (now : Z) : oprog OutboxCursor :=
  match outboxFlagKey (cn_name consumer) with
  | Throw e => Ret (Throw e)
  | Ok _ =>
      let fail := Ret (Throw DatabaseError) in
      let finish (row : option jsval) := Ret (match row ≫= parseCursor with Some c => Ok c | None => Throw UnreadableCursor end) in
      try_op FindFlag fail (fun row =>
      match row with
      | Some _ => finish row
      | None =>
          try_op (CreateFlag (cursor_value (mkCursor (toISOString now) []))) fail (fun _ =>
          try_op FindFlag fail finish)
      end)
  end.

(** [new Date(cursor.createdAt)]: the text was checked by [parseCursor]. *)
Definition after_of (c : OutboxCursor) : okey := (default 0 (iso_parse (oc_createdAt c)), oc_id c).

Definition readOutboxBatch (limit : Z) : oprog (list OutboxRow) :=
  if limit <? 1 then Ret (Throw BadLimit) else
  now <~ Clock;
  pbind (loadCursor now) (fun loaded =>
  match loaded with
  | Throw e => Ret (Throw e)
  | Ok cursor =>
      try_op (FindRows (after_of cursor) (now - settleMs consumer) limit) (Ret (Throw DatabaseError)) (fun rows => Ret (Ok rows))
  end).

Definition row_cursor (row : OutboxRow) : OutboxCursor := mkCursor (toISOString (or_createdAt row)) (or_id row).

Definition advanceOutboxCursor {A} (row : OutboxRow) (k : oprog A) : oprog A :=
  try_op (UpsertFlag (cursor_value (row_cursor row))) (Ret (Throw DatabaseError)) (fun _ => k).

(** ** The sweep *)

(** The bookkeeping of a failure at [at_], from what is tracked. *)
Definition next_failure (before : option (Z * Z)) (at_ : Z) : Z * Z :=
  (default at_ (fst <$> before), default 0 (snd <$> before) + 1).

Definition is_poison (failure : Z * (Z * Z)) : bool :=
  let '(at_, (firstAt, count)) := failure in (POISON_MIN_FAILURES <=? count) && (poisonAfterMs consumer <=? at_ - firstAt).

(** [tracked.delete(row.id)], then the cursor moves to the row. *)
Definition pass_row {A} (row : OutboxRow) (k : oprog A) : oprog A :=
  _u <~ Untrack row; advanceOutboxCursor row k.

(** The rows of one batch; the counts of handled and dead-lettered rows. *)
Fixpoint handle_rows (rows : list OutboxRow) (handled deadLettered : Z) : oprog (Z * Z) :=
  match rows with
  | [] => Ret (Ok (handled, deadLettered))
  | row :: rest =>
      ok <~ Handle row;
      if (ok : bool) then pass_row row (handle_rows rest (handled + 1) deadLettered) else
      failure <~ NoteFailure row;
      if is_poison failure
      then (_l <~ LogDeadLetter row failure; pass_row row (handle_rows rest handled (deadLettered + 1)))
      else Ret (Throw HandlerFailed)
  end.

Fixpoint sweep_batches (batches : nat) (handled deadLettered : Z) : oprog (Z * Z) :=
  match batches with
  | O => Ret (Ok (handled, deadLettered))
  | S batches =>
      pbind (readOutboxBatch (batchSize consumer)) (fun read =>
      match read with
      | Throw e => Ret (Throw e)
      | Ok rows =>
          pbind (handle_rows rows handled deadLettered) (fun done =>
          match done with
          | Throw e => Ret (Throw e)
          | Ok (handled, deadLettered) =>
              if Z.of_nat (length rows) <? batchSize consumer then Ret (Ok (handled, deadLettered))
              else sweep_batches batches handled deadLettered
          end)
      end)
  end.

Definition runOutboxSweep : oprog (Z * Z) := sweep_batches MAX_BATCHES_PER_SWEEP 0 0.

(** ** The database, the process and what happened *)

(** The end of a row: its handler returned, or it was dead-lettered. *)
Inductive Settled := Handled (row : OutboxRow) | Dead (row : OutboxRow) (failure : Z * (Z * Z)).
Definition settled_row (s : Settled) : OutboxRow := match s with Handled r => r | Dead r _ => r end.

(** What happened, for the statements: the rows committed and deleted, the
    consumer's first cursor, the settled rows and the failures, newest first. *)
Record ObHistory := mkObHistory {
  oh_now : Z; oh_rows : list OutboxRow; oh_gone : list jsstr; oh_start : option okey;
  oh_settled : list Settled; oh_failed : list (jsstr * Z)
}.

Record ObWorld := mkObWorld {
  ow_table : list OutboxRow; ow_open : list OutboxRow; ow_ids : list jsstr;
  ow_flag : option jsval; ow_tracked : gmap jsstr (Z * Z); ow_history : ObHistory
}.

Definition set_flag (v : option jsval) (w : ObWorld) : ObWorld :=
  mkObWorld (ow_table w) (ow_open w) (ow_ids w) v (ow_tracked w) (ow_history w).
Definition set_tracked (t : gmap jsstr (Z * Z)) (w : ObWorld) : ObWorld :=
  mkObWorld (ow_table w) (ow_open w) (ow_ids w) (ow_flag w) t (ow_history w).
Definition set_history (h : ObHistory) (w : ObWorld) : ObWorld :=
  mkObWorld (ow_table w) (ow_open w) (ow_ids w) (ow_flag w) (ow_tracked w) h.
Definition set_table (t : list OutboxRow) (w : ObWorld) : ObWorld :=
  mkObWorld t (ow_open w) (ow_ids w) (ow_flag w) (ow_tracked w) (ow_history w).

Definition add_settled (s : Settled) (h : ObHistory) : ObHistory :=
  mkObHistory (oh_now h) (oh_rows h) (oh_gone h) (oh_start h) (s :: oh_settled h) (oh_failed h).
Definition add_failed (f : jsstr * Z) (h : ObHistory) : ObHistory :=
  mkObHistory (oh_now h) (oh_rows h) (oh_gone h) (oh_start h) (oh_settled h) (f :: oh_failed h).
Definition set_start (k : okey) (h : ObHistory) : ObHistory :=
  mkObHistory (oh_now h) (oh_rows h) (oh_gone h) (Some k) (oh_settled h) (oh_failed h).
Definition set_oh_now (t : Z) (h : ObHistory) : ObHistory :=
  mkObHistory t (oh_rows h) (oh_gone h) (oh_start h) (oh_settled h) (oh_failed h).
Definition add_row (r : OutboxRow) (h : ObHistory) : ObHistory :=
  mkObHistory (oh_now h) (r :: oh_rows h) (oh_gone h) (oh_start h) (oh_settled h) (oh_failed h).
Definition add_gone (ids : list jsstr) (h : ObHistory) : ObHistory :=
  mkObHistory (oh_now h) (oh_rows h) (ids ++ oh_gone h) (oh_start h) (oh_settled h) (oh_failed h).

Definition find_rows (after : okey) (settledBefore limit : Z) (table : list OutboxRow) : list OutboxRow :=
  take (Z.to_nat limit) (sort_by row_cmp
    (filter (fun r => visible (cn_name consumer) r && klt after (key_of r) && (or_createdAt r <=? settledBefore) = true) table)).

(** [returns]: whether the handler returns, when it is called. *)
Definition exec (returns : bool) {X : Set} (c : ocommand X) (w : ObWorld) : ObWorld * X :=
  let h := ow_history w in
  match c in ocommand X return ObWorld * X with
  | Clock => (w, oh_now h)
  | FindFlag => (w, Some (ow_flag w))
  | CreateFlag v =>
      (match ow_flag w with
       | Some _ => w
       | None => set_history (match parseCursor v with Some c => set_start (after_of c) h | None => h end) (set_flag (Some v) w)
       end, Some tt)
  | UpsertFlag v => (set_flag (Some v) w, Some tt)
  | FindRows after settledBefore limit => (w, Some (find_rows after settledBefore limit (ow_table w)))
  | Handle row => (if returns then set_history (add_settled (Handled row) h) w else w, returns)
  | NoteFailure row =>
      let next := next_failure (ow_tracked w !! or_id row) (oh_now h) in
      (set_history (add_failed (or_id row, oh_now h) h) (set_tracked (<[or_id row := next]> (ow_tracked w)) w), (oh_now h, next))
  | LogDeadLetter row failure => (set_history (add_settled (Dead row failure) h) w, tt)
  | Untrack row => (set_tracked (delete (or_id row) (ow_tracked w)) w, tt)
  end.

(** The answer of a command whose call throws; [None] for what cannot.  A
    handler that did its work and whose answer is lost is one that threw. *)
Definition thrown {X : Set} (c : ocommand X) : option X :=
  match c in ocommand X return option X with
  | FindFlag => Some None | CreateFlag _ => Some None | UpsertFlag _ => Some None | FindRows _ _ _ => Some None
  | Clock | Handle _ | NoteFailure _ | LogDeadLetter _ _ | Untrack _ => None
  end.

Definition exec_faulty (f : Fault) (returns : bool) {X : Set} (c : ocommand X) (w : ObWorld) : option (ObWorld * X) :=
  match f with
  | Works => Some (exec returns c w)
  | LostRequest => match thrown c with Some x => Some (w, x) | None => None end
  | LostReply => match thrown c with Some x => Some ((exec returns c w).1, x) | None => None end
  end.

(** ** Writers, sweeps and crashes *)

(** At most one sweep of the consumer runs: the cron runtime takes its
    advisory lock. *)
Record ObMachine := mkObMachine { om_world : ObWorld; om_sweep : option (oprog (Z * Z)); om_answers : list (result OutboxError (Z * Z)) }.

Inductive ObMove :=
| Insert (id : jsstr) (workItemId deletedWorkItemId : option jsstr) (verb : jsstr)
| CommitRow (i : nat)
| Rollback (i : nat)
| DeleteItem (workItemId : jsstr)
| Tick (ms : Z)
| StartSweep
| StepSweep (f : Fault) (returns : bool)
| Crash.

Definition ob_move (mv : ObMove) (m : ObMachine) : option ObMachine :=
  let w := om_world m in
  let h := ow_history w in
  let with_world w := Some (mkObMachine w (om_sweep m) (om_answers m)) in
  match mv with
  | Insert id wi dwi verb =>
      if decide (id ∈ ow_ids w) then None else
      with_world (mkObWorld (ow_table w) (ow_open w ++ [mkOutboxRow id wi dwi verb (oh_now h)]) (id :: ow_ids w)
                    (ow_flag w) (ow_tracked w) h)
  | CommitRow i =>
      match ow_open w !! i with
      | None => None
      | Some r =>
          if oh_now h <=? or_createdAt r + TRANSACTION_TIMEOUT_MS then
            with_world (mkObWorld (r :: ow_table w) (delete i (ow_open w)) (ow_ids w) (ow_flag w) (ow_tracked w) (add_row r h))
          else None
      end
  | Rollback i => with_world (mkObWorld (ow_table w) (delete i (ow_open w)) (ow_ids w) (ow_flag w) (ow_tracked w) h)
  | DeleteItem wi =>
      with_world (set_history (add_gone (or_id <$> filter (fun r => or_workItemId r = Some wi) (ow_table w)) h)
                    (set_table (filter (fun r => or_workItemId r <> Some wi) (ow_table w)) w))
  | Tick ms => if (0 <=? ms) && bool_decide (ok_time (oh_now h + ms)) then with_world (set_history (set_oh_now (oh_now h + ms) h) w) else None
  | StartSweep =>
      match om_sweep m with
      | Some _ => None
      | None => Some (mkObMachine w (Some runOutboxSweep) (om_answers m))
      end
  | StepSweep f returns =>
      match om_sweep m with
      | None => None
      | Some p =>
          match p return option ObMachine with
          | Ret a => Some (mkObMachine w None (a :: om_answers m))
          | Op c k =>
              match exec_faulty f returns c w with
              | Some (w', x) => Some (mkObMachine w' (Some (k x)) (om_answers m))
              | None => None
              end
          end
      end
  | Crash => Some (mkObMachine (set_tracked ∅ w) None (om_answers m))
  end.

Fixpoint ob_moves (mvs : list ObMove) (m : ObMachine) : option ObMachine :=
  match mvs with
  | [] => Some m
  | mv :: r => match ob_move mv m with Some m' => ob_moves r m' | None => None end
  end.

Definition empty_outbox : ObMachine := mkObMachine (mkObWorld [] [] [] None ∅ (mkObHistory 0 [] [] None [] [])) None [].
End consumer.

(** ** The order of rows *)

Definition kle (a b : okey) : bool := negb (klt b a).

Lemma klt_spec a b : klt a b = true <-> a.1 < b.1 \/ (a.1 = b.1 /\ str_ltb a.2 b.2 = true).
Proof. unfold klt. rewrite orb_true_iff, andb_true_iff, Z.ltb_lt, Z.eqb_eq. done. Qed.

Lemma klt_irrefl a : klt a a = false.
Proof. apply not_true_iff_false. rewrite klt_spec. intros [|[_ H]]; [lia|]. by rewrite str_ltb_irrefl in H. Qed.

Lemma klt_trans a b c : klt a b = true -> klt b c = true -> klt a c = true.
Proof.
  rewrite !klt_spec. intros [Hab|[Hab Hs]] [Hbc|[Hbc Hs']]; [left; lia..|]. right. split; [lia|]. by eapply str_ltb_trans.
Qed.

Lemma klt_total a b : klt a b = false -> klt b a = false -> a = b.
Proof.
  rewrite <- !not_true_iff_false, !klt_spec. intros H1 H2. destruct a as [x s], b as [y t]. cbn in *.
  assert (x = y) as -> by lia. f_equal. apply str_ltb_total; apply not_true_iff_false; naive_solver.
Qed.

Lemma kle_iff a b : kle a b = true <-> klt b a = false.
Proof. unfold kle. by rewrite negb_true_iff. Qed.

Lemma kle_lt_trans a b c : kle a b = true -> klt b c = true -> klt a c = true.
Proof.
  rewrite kle_iff. intros Hba Hbc. destruct (klt a c) eqn:E; [done|]. destruct (klt a b) eqn:Hab.
  - by rewrite (klt_trans _ _ _ Hab Hbc) in E.
  - by rewrite (klt_total _ _ Hab Hba), Hbc in E.
Qed.

Lemma kle_trans a b c : kle a b = true -> kle b c = true -> kle a c = true.
Proof.
  intros Hab Hbc. apply kle_iff, not_true_iff_false. intros Hca. pose proof (kle_lt_trans _ _ _ Hbc Hca) as Hba.
  apply kle_iff in Hab. congruence.
Qed.

Lemma kle_lt_or a b : kle a b = true -> klt a b = true \/ a = b.
Proof. intros Hba%kle_iff. destruct (klt a b) eqn:E; [by left|right; by apply klt_total]. Qed.

Lemma kle_fst a b : kle a b = true -> a.1 <= b.1.
Proof. rewrite kle_iff, <- not_true_iff_false, klt_spec. lia. Qed.

#[local] Instance row_le_trans : Transitive (fun a b => kle (key_of a) (key_of b) = true).
Proof. intros a b c. apply kle_trans. Qed.

Lemma find_rows_sorted name_c after sb limit table :
  StronglySorted (fun a b => kle (key_of a) (key_of b) = true) (find_rows name_c after sb limit table).
Proof.
  unfold find_rows. set (l := filter _ table).
  assert (Hs : StronglySorted (fun a b => kle (key_of a) (key_of b) = true) (sort_by row_cmp l)).
  { apply sort_by_sorted; [apply _| |]; intros a b; unfold row_cmp, kle.
    all: destruct (klt (key_of a) (key_of b)) eqn:E1, (klt (key_of b) (key_of a)) eqn:E2; try done; try lia.
    all: pose proof (klt_trans _ _ _ E1 E2) as Hx; by rewrite klt_irrefl in Hx. }
  rewrite <- (take_drop (Z.to_nat limit) (sort_by row_cmp l)) in Hs. by apply StronglySorted_app_1_l in Hs.
Qed.

Lemma find_rows_in consumer after sb limit table r :
  r ∈ find_rows consumer after sb limit table ->
  r ∈ table /\ visible (cn_name consumer) r = true /\ klt after (key_of r) = true /\ or_createdAt r <= sb.
Proof.
  unfold find_rows. intros Hin. apply (subseteq_take _ _) in Hin. rewrite sort_by_perm in Hin.
  apply list_elem_of_filter in Hin as [Hf Hin]. by apply andb_prop in Hf as [[? ?]%andb_prop ?%Z.leb_le].
Qed.

(** A row that waits is read, or comes after all that is. *)
Lemma find_rows_all consumer after sb limit table r :
  r ∈ table -> visible (cn_name consumer) r = true -> klt after (key_of r) = true ->
  let rows := find_rows consumer after sb limit table in
  r ∈ rows \/ forall r', r' ∈ rows -> kle (key_of r') (key_of r) = true.
Proof.
  intros Hin Hv Hk rows. destruct (decide (or_createdAt r <= sb)) as [Hle|Hgt]; cycle 1.
  { right. intros r' (_ & _ & _ & ?)%find_rows_in. apply kle_iff, not_true_iff_false. rewrite klt_spec. cbn. lia. }
  pose proof (find_rows_sorted consumer after sb (Z.of_nat (length table)) table) as Hs. subst rows. unfold find_rows in *.
  set (l := filter _ table) in *. assert (Hl : r ∈ sort_by row_cmp l).
  { rewrite sort_by_perm. apply list_elem_of_filter. split; [|done]. by rewrite Hv, Hk, (proj2 (Z.leb_le _ _) Hle). }
  rewrite Nat2Z.id, take_ge in Hs by (rewrite sort_by_perm; apply length_filter).
  rewrite <- (take_drop (Z.to_nat limit) (sort_by row_cmp l)) in Hl. apply elem_of_app in Hl as [?|Hl]; [by left|right].
  intros r' Hr'. rewrite <- (take_drop (Z.to_nat limit) (sort_by row_cmp l)) in Hs.
  apply StronglySorted_app in Hs as (Hx & _ & _). by apply (Hx r' r).
Qed.

(** ** What a sweep knows and must respect *)

Section delivery.
Context (consumer : OutboxConsumer).

Definition seen (h : ObHistory) (r : OutboxRow) : Prop := r ∈ oh_rows h /\ visible (cn_name consumer) r = true.

Definition settled_in (l : list Settled) (r : OutboxRow) : Prop := exists s, s ∈ l /\ or_id (settled_row s) = or_id r.

(** Nothing is owed for the row, given what was settled: it is not after the
    first cursor, it is among them, or it is gone from the table. *)
Definition ended_in (h : ObHistory) (l : list Settled) (r : OutboxRow) : Prop :=
  (exists s, oh_start h = Some s /\ kle (key_of r) s = true) \/ settled_in l r \/ or_id r ∈ oh_gone h.

Abbreviation ended h := (ended_in h (oh_settled h)).

(** No row before [c] can still come. *)
Definition still (h : ObHistory) (c : okey) : Prop :=
  (exists s, oh_start h = Some s /\ kle c s = true) \/ c.1 + TRANSACTION_TIMEOUT_MS < oh_now h.

(** A position the cursor may take. *)
Definition covered (h : ObHistory) (c : okey) : Prop :=
  still h c /\ forall r, seen h r -> kle (key_of r) c = true -> ended h r.

(** A row whose turn it is, after what was settled. *)
Definition turn_in (h : ObHistory) (l : list Settled) (r : OutboxRow) : Prop :=
  or_createdAt r + TRANSACTION_TIMEOUT_MS < oh_now h /\
  forall r', seen h r' -> klt (key_of r') (key_of r) = true -> ended_in h l r'.

Abbreviation its_turn h := (turn_in h (oh_settled h)).

Definition failures_of (h : ObHistory) (id : jsstr) : Z := Z.of_nat (length (filter (fun f => f.1 = id) (oh_failed h))).

(** A dead letter: its handler failed three times and more, over the window. *)
Definition justified (h : ObHistory) (s : Settled) : Prop :=
  match s with
  | Handled _ => True
  | Dead r (at_, (firstAt, count)) =>
      POISON_MIN_FAILURES <= count <= failures_of h (or_id r) /\ (or_id r, firstAt) ∈ oh_failed h /\
      poisonAfterMs consumer <= at_ - firstAt /\ at_ <= oh_now h
  end.

Definition ob_le (h h' : ObHistory) : Prop :=
  oh_now h <= oh_now h' /\ (forall s, oh_start h = Some s -> oh_start h' = Some s) /\
  (oh_rows h ⊆ oh_rows h' /\ forall r, r ∈ oh_rows h' -> r ∈ oh_rows h \/ oh_now h - TRANSACTION_TIMEOUT_MS <= or_createdAt r) /\
  oh_gone h ⊆ oh_gone h' /\ (exists l, oh_settled h' = l ++ oh_settled h) /\ (exists l, oh_failed h' = l ++ oh_failed h).

#[export] Instance ob_le_preorder : PreOrder ob_le.
Proof.
  split.
  - intros h. split_and!; try done; [by left|by exists []..].
  - intros a b c (N1 & S1 & [R1 T1] & G1 & [l1 E1] & [k1 F1]) (N2 & S2 & [R2 T2] & G2 & [l2 E2] & [k2 F2]).
    split_and!; [lia|auto|by etrans| |by etrans| |].
    + intros r [Hr|?]%T2; [by apply T1|right; lia].
    + exists (l2 ++ l1). by rewrite E2, E1, app_assoc.
    + exists (k2 ++ k1). by rewrite F2, F1, app_assoc.
Qed.

Lemma settled_in_mono l l' r : settled_in l r -> settled_in (l' ++ l) r.
Proof. intros (s & Hs & ?). exists s. split; [apply elem_of_app; by right|done]. Qed.

Lemma ended_in_mono h h' l l' r : ob_le h h' -> ended_in h l r -> ended_in h' (l' ++ l) r.
Proof.
  intros (_ & S & _ & G & _) [(s & Hs & ?)|[?|?]]; [left; exists s; auto|right; left|right; right; by apply G].
  by apply settled_in_mono.
Qed.

Lemma ended_mono h h' r : ob_le h h' -> ended h r -> ended h' r.
Proof. intros Hle. pose proof Hle as (_ & _ & _ & _ & [l ->] & _). by apply ended_in_mono. Qed.

Lemma still_mono h h' c : ob_le h h' -> still h c -> still h' c.
Proof. intros (N & S & _) [(s & Hs & ?)|?]; [left; exists s; auto|right; lia]. Qed.

(** A row that comes later comes after every position that is still. *)
Lemma late_row h h' c r : ob_le h h' -> still h c -> r ∈ oh_rows h' -> r ∈ oh_rows h \/
  (exists s, oh_start h' = Some s /\ kle c s = true) \/ klt c (key_of r) = true.
Proof.
  intros (N & S & [_ T] & _) Hst Hr. destruct (T r Hr) as [|Hl]; [by left|right].
  destruct Hst as [(s & Hs & ?)|?]; [left; exists s; auto|right]. apply klt_spec. left. cbn. lia.
Qed.

Lemma covered_mono h h' c : ob_le h h' -> covered h c -> covered h' c.
Proof.
  intros Hle [Hst Hc]. split; [by eapply still_mono|]. intros r [Hr Hv] Hk.
  destruct (late_row h h' c r Hle Hst Hr) as [Hr'|[(s & Hs & Hcs)|Hlt]].
  - eapply ended_mono; [done|]. by apply Hc.
  - left. exists s. split; [done|]. by eapply kle_trans.
  - apply kle_iff in Hk. congruence.
Qed.

Lemma turn_in_mono h h' l l' r : ob_le h h' -> turn_in h l r -> turn_in h' (l' ++ l) r.
Proof.
  intros Hle [Ht Hc]. assert (Hst : still h (key_of r)) by by right. pose proof Hle as (N & _). split; [lia|].
  intros r' [Hr' Hv] Hk. destruct (late_row h h' _ r' Hle Hst Hr') as [?|[(s & Hs & Hcs)|Hlt]].
  - eapply ended_in_mono; [done|]. by apply Hc.
  - left. exists s. split; [done|]. eapply kle_trans; [|done]. apply kle_iff, not_true_iff_false. intros Hx.
    pose proof (klt_trans _ _ _ Hk Hx) as Hxx. by rewrite klt_irrefl in Hxx.
  - pose proof (klt_trans _ _ _ Hk Hlt) as Hxx. by rewrite klt_irrefl in Hxx.
Qed.

Lemma its_turn_mono h h' r : ob_le h h' -> its_turn h r -> its_turn h' r.
Proof. intros Hle. pose proof Hle as (_ & _ & _ & _ & [l ->] & _). by apply turn_in_mono. Qed.

Lemma failures_mono h h' id : ob_le h h' -> failures_of h id <= failures_of h' id.
Proof. intros (_ & _ & _ & _ & _ & [l F]). unfold failures_of. rewrite F, filter_app, length_app. lia. Qed.

Lemma justified_mono h h' s : ob_le h h' -> justified h s -> justified h' s.
Proof.
  intros Hle. destruct s as [|r (at_ & firstAt & count)]; [done|]. cbn. intros (H1 & H2 & H3 & H4).
  pose proof (failures_mono h h' (or_id r) Hle). destruct Hle as (N & _ & _ & _ & _ & [l F]).
  split_and!; [lia|lia|rewrite F; apply elem_of_app; by right|done|lia].
Qed.

(** A cursor's stored value. *)
Definition stored_cursor (v : jsval) (k : okey) : Prop :=
  v = cursor_value (mkCursor (toISOString k.1) k.2) /\ ok_time k.1.

Definition outbox_needs {X : Set} (h : ObHistory) (c : ocommand X) : Prop :=
  match c with
  | CreateFlag v => exists t, stored_cursor v (t, [])
  | UpsertFlag v => exists k, stored_cursor v k /\ covered h k
  | Handle r => its_turn h r
  | LogDeadLetter r f => its_turn h r /\ justified h (Dead r f)
  | _ => True
  end.

Definition outbox_tells {X : Set} (h : ObHistory) (c : ocommand X) : X -> Prop :=
  match c in ocommand X return X -> Prop with
  | Clock => fun t => t <= oh_now h /\ ok_time t
  | FindFlag => fun x => forall v, x = Some (Some v) -> exists k, stored_cursor v k /\ covered h k
  | FindRows after settledBefore _ => fun x => forall rows, x = Some rows ->
      StronglySorted (fun a b => kle (key_of a) (key_of b) = true) rows /\
      (forall r, r ∈ rows -> kle after (key_of r) = true /\ or_createdAt r <= settledBefore /\ ok_time (or_createdAt r)) /\
      forall r, seen h r -> klt after (key_of r) = true ->
        r ∈ rows \/ or_id r ∈ oh_gone h \/ forall r', r' ∈ rows -> kle (key_of r') (key_of r) = true
  | Handle r => fun x => x = true -> settled_in (oh_settled h) r
  | LogDeadLetter r _ => fun _ => settled_in (oh_settled h) r
  | NoteFailure r => fun x =>
      x.2.2 <= failures_of h (or_id r) /\ (or_id r, x.2.1) ∈ oh_failed h /\ x.1 <= oh_now h
  | _ => fun _ => True
  end.

Lemma outbox_needs_mono {X : Set} h h' (c : ocommand X) : ob_le h h' -> outbox_needs h c -> outbox_needs h' c.
Proof.
  intros Hle. destruct c; cbn; try done.
  - intros (k & ? & ?). exists k. split; [done|]. by eapply covered_mono.
  - by apply its_turn_mono.
  - intros [? ?]. split; [by eapply its_turn_mono|by eapply (justified_mono _ _ (Dead row failure))].
Qed.

#[local] Instance outbox_protocol : Protocol ocommand := {|
  history := ObHistory; hist_le := ob_le; hist_le_preorder := ob_le_preorder;
  needs := @outbox_needs; tells := @outbox_tells; needs_mono := @outbox_needs_mono
|}.

(** *** The sweep respects it *)

(** [rows] are what is left of a batch, and what is after [c] comes with them
    or later. *)
Definition batch_left (h : ObHistory) (c : okey) (rows : list OutboxRow) : Prop :=
  StronglySorted (fun a b => kle (key_of a) (key_of b) = true) rows /\
  (forall r, r ∈ rows ->
    kle c (key_of r) = true /\ or_createdAt r + TRANSACTION_TIMEOUT_MS < oh_now h /\ ok_time (or_createdAt r)) /\
  forall r, seen h r -> klt c (key_of r) = true ->
    r ∈ rows \/ or_id r ∈ oh_gone h \/ forall r', r' ∈ rows -> kle (key_of r') (key_of r) = true.

Lemma batch_left_mono h h' c rows : ob_le h h' -> batch_left h c rows -> batch_left h' c rows.
Proof.
  intros (N & _ & [_ T] & G & _) (Hs & Ho & Hr). split_and!; [done| |].
  - intros r Hin. destruct (Ho r Hin) as (? & ? & ?). split_and!; [done|lia|done].
  - intros r [Hin Hv] Hk. destruct (T r Hin) as [Hin'|Hl].
    + destruct (Hr r (conj Hin' Hv) Hk) as [|[|]]; [by left|right; left; by apply G|by right; right].
    + right; right. intros r' Hr'. destruct (Ho r' Hr') as (_ & ? & _). apply kle_iff, not_true_iff_false. rewrite klt_spec. cbn. lia.
Qed.

(** The next row's turn has come; once it is settled, the cursor may move to it. *)
Lemma batch_turn h c r rows : covered h c -> batch_left h c (r :: rows) -> its_turn h r.
Proof.
  intros [_ Hc] (Hs & Ho & Hr). split; [by destruct (Ho r ltac:(left)) as (_ & ? & _)|].
  intros r' Hr' Hk.
  destruct (klt c (key_of r')) eqn:E; [|by apply Hc; [|apply kle_iff]].
  apply StronglySorted_inv in Hs as [_ Hs]. rewrite Forall_forall in Hs.
  destruct (Hr r' Hr' E) as [[->|Hin]%elem_of_cons|[Hg|Hall]].
  - by rewrite klt_irrefl in Hk.
  - pose proof (kle_lt_trans _ _ _ (Hs r' Hin) Hk) as Hx. by rewrite klt_irrefl in Hx.
  - by right; right.
  - specialize (Hall r ltac:(left)). apply kle_iff in Hall. congruence.
Qed.

Lemma batch_next h c r rows : covered h c -> batch_left h c (r :: rows) -> settled_in (oh_settled h) r ->
  covered h (key_of r) /\ batch_left h (key_of r) rows.
Proof.
  intros Hc Hb Hd. pose proof (batch_turn h c r rows Hc Hb) as [Hold Hturn]. destruct Hb as (Hs & Ho & Hr).
  assert (Hsame : forall r', key_of r' = key_of r -> ended h r').
  { intros r' Heq. right; left. destruct Hd as (s & Hin & Hid). exists s. split; [done|]. rewrite Hid. unfold key_of in Heq. congruence. }
  split.
  - split; [by right|]. intros r' Hr' Hk. destruct (kle_lt_or _ _ Hk) as [Hlt|Heq]; [by apply Hturn|by apply Hsame].
  - destruct (Ho r ltac:(left)) as (Hcr & _). apply StronglySorted_inv in Hs as [Hs Hall]. rewrite Forall_forall in Hall.
    split_and!; [done| |].
    { intros r' Hr'. destruct (Ho r' ltac:(by right)) as (_ & ? & ?). split_and!; [by apply Hall|done..]. }
    intros r' Hr' Hk. destruct (Hr r' Hr' (kle_lt_trans _ _ _ Hcr Hk)) as [[->|Hin]%elem_of_cons|[Hg|Ha]].
    + by rewrite klt_irrefl in Hk.
    + by left.
    + by right; left.
    + right; right. intros r'' Hr''. apply Ha. by right.
Qed.

Hypothesis Hsettle : TRANSACTION_TIMEOUT_MS < settleMs consumer.

Definition anything {A} (_ : ObHistory) (_ : A) : Prop := True.

Lemma handle_rows_safe rows : forall h c handled dead, covered h c -> batch_left h c rows ->
  safe anything h (handle_rows consumer rows handled dead).
Proof.
  induction rows as [|r rows IH]; intros h c handled dead Hc Hb; [done|]. cbn [handle_rows].
  assert (Hnext : forall h' n d, ob_le h h' -> settled_in (oh_settled h') r -> safe anything h' (pass_row r (handle_rows consumer rows n d))).
  { intros h' n d Hle Hd. apply safe_op; [done|]. intros h2 [] Hle2 _.
    assert (L2 : ob_le h h2) by by etrans.
    assert (Hd2 : settled_in (oh_settled h2) r) by (destruct Hle2 as (_ & _ & _ & _ & [l E] & _); rewrite E; by apply settled_in_mono).
    destruct (batch_next h2 c r rows) as [Hc2 Hb2]; [by eapply covered_mono|by eapply batch_left_mono|done|].
    apply safe_try; [|done|].
    - exists (key_of r). split; [split; [done|]|done]. cbn. destruct Hb as (_ & Ho & _). by destruct (Ho r ltac:(left)) as (_ & _ & ?).
    - intros h3 _u Hle3 _. apply IH with (key_of r); [by eapply covered_mono|by eapply batch_left_mono]. }
  pose proof (batch_turn h c r rows Hc Hb) as Hturn. apply safe_op; [done|]. intros h1 [] Hle1 Ht1; [by apply Hnext; [|apply Ht1]|].
  apply safe_op; [done|]. intros h2 [at_ [firstAt count]] Hle2 (Hn & Hf & Hnow). cbn [fst snd] in *.
  assert (L2 : ob_le h h2) by by etrans. destruct (is_poison consumer (at_, (firstAt, count))) eqn:Ep; [|done].
  unfold is_poison in Ep. apply andb_prop in Ep as [E1%Z.leb_le E2%Z.leb_le].
  apply safe_op; [split; [by eapply its_turn_mono|by split_and!]|]. intros h3 [] Hle3 Hd. apply Hnext; [by etrans|done].
Qed.

Lemma stored_parse v k : stored_cursor v k -> exists c, parseCursor v = Some c /\ after_of c = k.
Proof.
  intros [-> Ht]. exists (mkCursor (toISOString k.1) k.2). unfold parseCursor, cursor_value, after_of. cbn [oc_createdAt oc_id].
  assert (E1 : alookup (js "createdAt") [(js "createdAt", JStr (toISOString k.1)); (js "id", JStr k.2)] = Some (JStr (toISOString k.1))) by reflexivity.
  assert (E2 : alookup (js "id") [(js "createdAt", JStr (toISOString k.1)); (js "id", JStr k.2)] = Some (JStr k.2)) by reflexivity.
  rewrite E1, E2, iso_parse_text by done. split; [done|]. by destruct k.
Qed.

Definition loaded_ok (h : ObHistory) (r : result OutboxError OutboxCursor) : Prop :=
  match r with Ok c => covered h (after_of c) | Throw _ => True end.

Lemma loadCursor_safe h now : ok_time now -> safe loaded_ok h (loadCursor consumer now).
Proof.
  intros Hnow. unfold loadCursor. case_match; [|done].
  assert (Hfin : forall h' v, (forall w, v = Some w -> exists k, stored_cursor w k /\ covered h' k) ->
    loaded_ok h' (match v ≫= parseCursor with Some c => Ok c | None => Throw UnreadableCursor end)).
  { intros h' [v|] Hv; [|done]. cbn. destruct (Hv v eq_refl) as (k & Hk & Hc). destruct (stored_parse v k Hk) as (c & -> & Ha).
    cbn. by rewrite Ha. }
  apply safe_try; [done..|]. intros h1 [v|] _ Ht.
  - apply Hfin. intros w [= <-]. by apply Ht.
  - apply safe_try; [exists now; by split|done|]. intros h2 _u _ _. apply safe_try; [done..|].
    intros h3 v _ Ht3. apply Hfin. intros w ->. by apply Ht3.
Qed.

Definition read_ok (h : ObHistory) (r : result OutboxError (list OutboxRow)) : Prop :=
  match r with Ok rows => exists c, covered h c /\ batch_left h c rows | Throw _ => True end.

Lemma readOutboxBatch_safe h limit : safe read_ok h (readOutboxBatch consumer limit).
Proof.
  unfold readOutboxBatch. case_match; [done|]. apply safe_op; [done|]. intros h1 now _ [Hn Hok].
  eapply safe_bind; [by apply loadCursor_safe|]. intros h2 [c|e] Hle Hc; [|done]. apply safe_try; [done..|].
  intros h3 rows Hle3 Ht. destruct (Ht rows eq_refl) as (Hs & Ho & Hr). exists (after_of c).
  split; [by eapply covered_mono|]. split_and!; [done| |done]. intros r Hin. destruct (Ho r Hin) as (? & ? & ?).
  destruct Hle as (N1 & _), Hle3 as (N2 & _). split_and!; [done|lia|done].
Qed.

Lemma sweep_batches_safe n : forall h handled dead, safe anything h (sweep_batches consumer n handled dead).
Proof.
  induction n as [|n IH]; intros h handled dead; [done|]. cbn [sweep_batches].
  eapply safe_bind; [apply readOutboxBatch_safe|]. intros h1 [rows|e] _ Hr; [|done]. destruct Hr as (c & Hc & Hb).
  eapply safe_bind; [by eapply handle_rows_safe|]. intros h2 [[hd dd]|e] _ _; [|done]. case_match; [done|apply IH].
Qed.

(** ** The world keeps it *)

(** Everything was settled in its turn. *)
Fixpoint in_order (h : ObHistory) (l : list Settled) : Prop :=
  match l with [] => True | e :: l => turn_in h l (settled_row e) /\ in_order h l end.

Definition log_ok (h : ObHistory) : Prop :=
  ok_time (oh_now h) /\ in_order h (oh_settled h) /\ forall e, e ∈ oh_settled h -> justified h e.

Definition tracked_ok (t : gmap jsstr (Z * Z)) (h : ObHistory) : Prop :=
  forall id first count, t !! id = Some (first, count) -> count <= failures_of h id /\ (id, first) ∈ oh_failed h.

Definition rows_ok (w : ObWorld) : Prop :=
  let h := ow_history w in
  ow_table w ⊆ oh_rows h /\
  (forall r, r ∈ oh_rows h -> (r ∈ ow_table w \/ or_id r ∈ oh_gone h) /\ ok_time (or_createdAt r)) /\
  (forall r, r ∈ ow_open w -> or_createdAt r <= oh_now h /\ ok_time (or_createdAt r)).

Definition flag_ok (f : option jsval) (h : ObHistory) : Prop :=
  match f with None => oh_start h = None | Some v => exists k, stored_cursor v k /\ covered h k end.

Definition world_ok (w : ObWorld) : Prop :=
  log_ok (ow_history w) /\ rows_ok w /\ flag_ok (ow_flag w) (ow_history w) /\ tracked_ok (ow_tracked w) (ow_history w).

Lemma in_order_mono h h' l : ob_le h h' -> in_order h l -> in_order h' l.
Proof. intros Hle. induction l as [|e l IH]; [done|]. intros [? ?]. split; [by apply (turn_in_mono h h' l [])|by apply IH]. Qed.

(** A step of the history that settles nothing. *)
Lemma log_mono h h' : ob_le h h' -> oh_settled h' = oh_settled h -> ok_time (oh_now h') -> log_ok h -> log_ok h'.
Proof.
  intros Hle He Hn (_ & Ho & Hj). split_and!; [done|rewrite He; by eapply in_order_mono|].
  rewrite He. intros e Hin. by eapply justified_mono; [|apply Hj].
Qed.

Lemma flag_mono f h h' : ob_le h h' -> (f = None -> oh_start h' = None) -> flag_ok f h -> flag_ok f h'.
Proof. intros Hle Hn. destruct f; cbn; [|auto]. intros (k & ? & ?). exists k. split; [done|by eapply covered_mono]. Qed.

Lemma tracked_mono t t' h h' : ob_le h h' -> t' ⊆ t -> tracked_ok t h -> tracked_ok t' h'.
Proof.
  intros Hle Ht Hok id f c Hl. destruct (Hok id f c) as [? ?]; [by eapply lookup_weaken|].
  pose proof (failures_mono h h' id Hle). destruct Hle as (_ & _ & _ & _ & _ & [l ->]). split; [lia|apply elem_of_app; by right].
Qed.

Lemma settle_ok h e : its_turn h (settled_row e) -> justified h e -> log_ok h ->
  ob_le h (add_settled e h) /\ log_ok (add_settled e h).
Proof.
  intros Ht Hj (Hn & Ho & Hjs). assert (Hle : ob_le h (add_settled e h)).
  { split_and!; cbn; try done; [by left|by exists [e]|by exists []]. }
  split; [done|]. split_and!; [done| |].
  - split; [by apply (turn_in_mono h _ (oh_settled h) [])|by eapply in_order_mono].
  - intros e' [->|Hin]%elem_of_cons; (eapply justified_mono; [done|]); [done|by apply Hjs].
Qed.

Lemma settle_world w e : its_turn (ow_history w) (settled_row e) -> justified (ow_history w) e -> world_ok w ->
  let h' := add_settled e (ow_history w) in world_ok (set_history h' w) /\ ob_le (ow_history w) h'.
Proof.
  intros Ht Hj (Hl & Hr & Hf & Htr) h'. destruct (settle_ok _ e Ht Hj Hl) as [Hle Hl']. split; [|done]. split_and!; [done|apply Hr| |].
  - by eapply flag_mono; [| |apply Hf]; [|intros E; cbn; unfold flag_ok in Hf; cbn in E; rewrite E in Hf].
  - by eapply tracked_mono; [| |apply Htr].
Qed.

(** The clause the mono lemmas ask of an unchanged start. *)
Lemma start_kept f h h' : flag_ok f h -> oh_start h' = oh_start h -> f = None -> oh_start h' = None.
Proof. intros Hf -> ->. apply Hf. Qed.

Lemma create_flag_ok w v t : ow_flag w = None -> stored_cursor v (t, []) -> world_ok w ->
  let w' := set_history (match parseCursor v with Some c => set_start (after_of c) (ow_history w) | None => ow_history w end)
              (set_flag (Some v) w) in
  world_ok w' /\ ob_le (ow_history w) (ow_history w').
Proof.
  intros Hno Hst (Hl & Hr & Hf & Htr). destruct (stored_parse v (t, []) Hst) as (c & -> & ->). cbn. unfold flag_ok in Hf. rewrite Hno in Hf.
  assert (Hle : ob_le (ow_history w) (set_start (t, []) (ow_history w))).
  { split_and!; cbn; try done; [by rewrite Hf|by left|by exists []..]. }
  split; [|done]. split_and!; [|done| |].
  - by eapply log_mono; [done|done|apply Hl|apply Hl].
  - exists (t, []). assert (Hk : kle (t, []) (t, []) = true) by (by apply kle_iff, klt_irrefl).
    split; [done|]. split; [left; by exists (t, [])|]. intros r _ Hr'. left. by exists (t, []).
  - by eapply tracked_mono; [| |apply Htr].
Qed.

Lemma failure_ok w r : world_ok w ->
  let h' := add_failed (or_id r, oh_now (ow_history w)) (ow_history w) in
  let next := next_failure (ow_tracked w !! or_id r) (oh_now (ow_history w)) in
  world_ok (set_history h' (set_tracked (<[or_id r := next]> (ow_tracked w)) w)) /\ ob_le (ow_history w) h' /\
  next.2 <= failures_of h' (or_id r) /\ (or_id r, next.1) ∈ oh_failed h'.
Proof.
  intros (Hl & Hr & Hf & Htr) h' next. set (h := ow_history w) in *.
  assert (Hle : ob_le h h').
  { split_and!; cbn; try done; [by left|by exists []|by exists [(or_id r, oh_now h)]]. }
  assert (Hcount : failures_of h' (or_id r) = failures_of h (or_id r) + 1).
  { unfold failures_of, h', add_failed. cbn [oh_failed]. rewrite filter_cons_True by done. cbn [length]. lia. }
  assert (Hnext : next.2 <= failures_of h' (or_id r) /\ (or_id r, next.1) ∈ oh_failed h').
  { rewrite Hcount. subst next. unfold next_failure. destruct (ow_tracked w !! or_id r) as [[f c]|] eqn:E; cbn -[failures_of].
    - destruct (Htr _ _ _ E). split; [lia|by right].
    - split; [unfold failures_of; lia|left]. }
  split_and!; [|done|apply Hnext|apply Hnext]. split_and!; [|apply Hr| |].
  - by eapply log_mono; [done|done|apply Hl|apply Hl].
  - eapply flag_mono; [done|by apply (start_kept _ h)|done].
  - intros id f c. cbn [ow_tracked ow_history set_history set_tracked]. intros [[<- Hn]|[Hne Hl']]%lookup_insert_Some; [by rewrite Hn in Hnext|].
    by eapply (tracked_mono (ow_tracked w)); [| |apply Htr|].
Qed.

Lemma ob_exec_ok returns {X : Set} (c : ocommand X) w : world_ok w -> outbox_needs (ow_history w) c ->
  world_ok (exec consumer returns c w).1 /\ ob_le (ow_history w) (ow_history (exec consumer returns c w).1) /\
  outbox_tells (ow_history (exec consumer returns c w).1) c (exec consumer returns c w).2.
Proof.
  intros Hw Hn. pose proof Hw as (Hl & Hr & Hf & Htr). destruct c; cbn [exec outbox_needs outbox_tells fst snd] in *.
  - split_and!; [done|done|lia|apply Hl].
  - split_and!; [done|done|]. intros v [= Hv]. unfold flag_ok in Hf. by rewrite Hv in Hf.
  - destruct Hn as [t Ht]. destruct (ow_flag w) eqn:E; [by split_and!|]. by destruct (create_flag_ok w v t).
  - destruct Hn as (k & Hk & Hc). split_and!; [split_and!|done..]; try done. by exists k.
  - split_and!; [done|done|]. intros rows [= <-]. split_and!; [apply find_rows_sorted| |].
    + intros r (Hin & _ & Hk & ?)%find_rows_in. destruct Hr as (Htab & Hrows & _). split_and!; [|done|by apply Hrows, Htab].
      apply kle_iff, not_true_iff_false. intros Hx. pose proof (klt_trans _ _ _ Hk Hx) as Hxx. by rewrite klt_irrefl in Hxx.
    + intros r [Hin Hv] Hk. destruct Hr as (_ & Hrows & _). destruct (Hrows r Hin) as [[Htab|?] _]; [|by right; left].
      destruct (find_rows_all consumer after settledBefore limit _ r Htab Hv Hk); [by left|by right; right].
  - destruct returns; [|done]. destruct (settle_world w (Handled row)) as [? ?]; [done..|]. split_and!; [done..|].
    intros _. exists (Handled row). split; [left|done].
  - destruct (failure_ok w row Hw) as (? & ? & ? & ?). split_and!; try done.
  - destruct (settle_world w (Dead row failure)) as [? ?]; [apply Hn|apply Hn|done|]. split_and!; [done..|].
    exists (Dead row failure). split; [left|done].
  - split_and!; [split_and!|done..]; try done. by eapply (tracked_mono (ow_tracked w)); [|apply delete_subseteq|].
Qed.

Lemma ob_exec_faulty_ok f returns {X : Set} (c : ocommand X) w w' x : world_ok w -> outbox_needs (ow_history w) c ->
  exec_faulty consumer f returns c w = Some (w', x) ->
  world_ok w' /\ ob_le (ow_history w) (ow_history w') /\ outbox_tells (ow_history w') c x.
Proof.
  intros Hw Hn. pose proof (ob_exec_ok returns c w Hw Hn) as He. unfold exec_faulty.
  assert (Hthrown : forall h y, thrown c = Some y -> outbox_tells h c y) by (intros h y; destruct c; cbn; naive_solver).
  destruct f.
  - intros [= Hx]. by rewrite Hx in He.
  - destruct (thrown c) eqn:Et; [|done]. intros [= <- <-]. split_and!; [done|done|by apply Hthrown].
  - destruct (thrown c) eqn:Et; [|done]. intros [= <- <-]. split_and!; [apply He|apply He|by apply Hthrown].
Qed.

(** ** The machine *)

Definition machine_ok (m : ObMachine) : Prop :=
  world_ok (om_world m) /\
  match om_sweep m with Some p => safe anything (ow_history (om_world m)) p | None => True end.

(** A move of the rest of the world. *)
Lemma world_move w w' sweep answers : machine_ok (mkObMachine w sweep answers) ->
  ob_le (ow_history w) (ow_history w') -> oh_settled (ow_history w') = oh_settled (ow_history w) ->
  oh_start (ow_history w') = oh_start (ow_history w) -> ok_time (oh_now (ow_history w')) ->
  ow_flag w' = ow_flag w -> ow_tracked w' = ow_tracked w -> rows_ok w' ->
  machine_ok (mkObMachine w' sweep answers).
Proof.
  intros [(Hl & _ & Hf & Ht) Hp] Hle Hs Hst Hn Ef Et Hr. cbn [om_world om_sweep] in *. split; [split_and!; [|done| |]|]; cbn [om_world om_sweep].
  - by eapply log_mono.
  - rewrite Ef. eapply flag_mono; [done|by apply (start_kept _ (ow_history w))|done].
  - rewrite Et. by eapply tracked_mono.
  - destruct sweep; [|done]. by eapply safe_mono.
Qed.

Lemma ob_move_ok mv m m' : machine_ok m -> ob_move consumer mv m = Some m' -> machine_ok m'.
Proof.
  intros Hm. pose proof Hm as [(Hl & (Ht & Hrows & Hopen) & Hf & Htr) Hp]. pose proof (proj1 Hl) as Hnow.
  destruct m as [w sweep answers]. cbn [om_world om_sweep] in *.
  destruct mv as [id wi dwi verb|i|i|wi|ms| |f returns|]; cbn [ob_move om_world om_sweep om_answers]; intros Hmv.
  - case_decide; [done|]. injection Hmv as <-. eapply world_move; [done|done|done|done|done|done|done|].
    split_and!; [done|done|]. cbn [ow_open ow_history]. intros r [Hr| ->%list_elem_of_singleton]%elem_of_app; [by apply Hopen|done].
  - destruct (ow_open w !! i) as [r|] eqn:Hi; [|done]. destruct (Z.leb_spec (oh_now (ow_history w)) (or_createdAt r + TRANSACTION_TIMEOUT_MS)); [|done].
    injection Hmv as <-. pose proof (list_elem_of_lookup_2 _ _ _ Hi) as Hin. eapply world_move; [done| |done|done|done|done|done|].
    + split_and!; cbn; [done|done|set_solver| |done|by exists []|by exists []]. intros r' [->|?]%elem_of_cons; [right; lia|by left].
    + split_and!; cbn; [set_solver| |].
      * intros r' [-> |Hr']%elem_of_cons; [split; [left; left|by apply Hopen]|]. destruct (Hrows r' Hr') as [[?|?] ?]; [|by split; [right|]].
        split; [left; by right|done].
      * intros r' Hr'. apply Hopen. by eapply list_elem_of_delete_inv.
  - injection Hmv as <-. eapply world_move; [done|done|done|done|done|done|done|].
    split_and!; [done|done|]. cbn. intros r' Hr'. apply Hopen. by eapply list_elem_of_delete_inv.
  - injection Hmv as <-. eapply world_move; [done| |done|done|done|done|done|].
    + split_and!; cbn; try done; [by left|set_solver|by exists []..].
    + split_and!; cbn; [intros r [_ ?]%list_elem_of_filter; by apply Ht| |done]. intros r Hr. destruct (Hrows r Hr) as [[Hin|Hg] ?]; split; try done.
      * destruct (decide (or_workItemId r = Some wi)); [right; apply elem_of_app; left|left; by apply list_elem_of_filter].
        apply list_elem_of_fmap_2. by apply list_elem_of_filter.
      * right. apply elem_of_app. by right.
  - destruct (Z.leb_spec 0 ms); [|done]. case_bool_decide; [|done]. injection Hmv as <-. eapply world_move; [done| |done|done|done|done|done|].
    + split_and!; cbn; try done; [lia|by left|by exists []..].
    + split_and!; cbn; [done|done|]. intros r Hr. destruct (Hopen r Hr). split; [lia|done].
  - destruct sweep; [done|]. injection Hmv as <-. split; [apply Hm|]. cbn [om_sweep om_world]. apply sweep_batches_safe.
  - destruct sweep as [[a|X c k]|]; [by injection Hmv as <-; split; [apply Hm|]| |done].
    destruct (exec_faulty consumer f returns c w) as [[w' x]|] eqn:He; [|done]. injection Hmv as <-.
    destruct Hp as [Hn Hk]. destruct (ob_exec_faulty_ok f returns c w w' x (proj1 Hm) Hn He) as (Hw' & Hle & Htells).
    split; [done|]. by apply Hk.
  - injection Hmv as <-. split; [|done]. split_and!; [done|done|done|]. intros id f c Hx. cbn in Hx. by rewrite lookup_empty in Hx.
Qed.

Lemma ob_moves_ok mvs : forall m m', machine_ok m -> ob_moves consumer mvs m = Some m' -> machine_ok m'.
Proof.
  induction mvs as [|mv mvs IH]; intros m m' Hm; [by intros [= <-]|]. cbn [ob_moves].
  destruct (ob_move consumer mv m) as [m1|] eqn:E; [|done]. apply IH. by eapply ob_move_ok.
Qed.

Lemma empty_ok : machine_ok empty_outbox.
Proof.
  assert (ok_time 0) by (by apply (bool_decide_unpack (ok_time 0))).
  split; [|done]. split; [|split; [|split]]; [split; [done|split; [done|]]|split; [done|split]|done|].
  all: intros ? Hx; try by apply elem_of_nil in Hx. intros ? Hl. cbn in Hl. by rewrite lookup_empty in Hl.
Qed.
End delivery.

(** ** Ids are never used twice *)

Section ids.
Context (consumer : OutboxConsumer).

Lemma filter_split {A} (P : A -> Prop) `{!forall x, Decision (P x)} l : filter P l ++ filter (fun x => ~ P x) l ≡ₚ l.
Proof.
  induction l as [|x l IH]; [done|]. rewrite !filter_cons. destruct (decide (P x)); case_decide; try done; cbn.
  - by rewrite IH.
  - by rewrite <- Permutation_middle, IH.
Qed.

Definition live_ids (w : ObWorld) : list jsstr := (or_id <$> ow_table w ++ ow_open w) ++ oh_gone (ow_history w).
Definition ids_ok (w : ObWorld) : Prop := NoDup (live_ids w) /\ live_ids w ⊆ ow_ids w.

Lemma ids_sub w w' : ids_ok w -> live_ids w' ⊆+ live_ids w -> ow_ids w' = ow_ids w -> ids_ok w'.
Proof.
  intros [Hn Hs] Hsub Hi. destruct (submseteq_Permutation _ _ Hsub) as [k Hk]. split; [by rewrite Hk in Hn; apply NoDup_app in Hn as []|]. rewrite Hi.
  etrans; [|done]. intros x Hx. by eapply elem_of_submseteq.
Qed.

Lemma exec_ids returns {X : Set} (c : ocommand X) w :
  live_ids (exec consumer returns c w).1 = live_ids w /\ ow_ids (exec consumer returns c w).1 = ow_ids w.
Proof. destruct c; cbn; try done; [destruct (ow_flag w); [done|by destruct (parseCursor v)]|by destruct returns]. Qed.

Lemma exec_faulty_ids f returns {X : Set} (c : ocommand X) w w' x :
  exec_faulty consumer f returns c w = Some (w', x) -> live_ids w' = live_ids w /\ ow_ids w' = ow_ids w.
Proof.
  pose proof (exec_ids returns c w) as He. unfold exec_faulty. destruct f.
  - intros [= Hx]. by rewrite Hx in He.
  - destruct (thrown c); [|done]. by intros [= <- _].
  - destruct (thrown c); [|done]. by intros [= <- _].
Qed.

Lemma ob_move_ids mv m m' : ids_ok (om_world m) -> ob_move consumer mv m = Some m' -> ids_ok (om_world m').
Proof.
  destruct m as [w sweep answers]. destruct mv as [id wi dwi verb|i|i|wi|ms| |f returns|];
    cbn [ob_move om_world om_sweep om_answers]; intros Hw Hmv.
  - case_decide as Hid; [done|]. injection Hmv as <-. destruct Hw as [Hn Hs].
    assert (Hp : live_ids (mkObWorld (ow_table w) (ow_open w ++ [mkOutboxRow id wi dwi verb (oh_now (ow_history w))]) (id :: ow_ids w)
                    (ow_flag w) (ow_tracked w) (ow_history w)) ≡ₚ id :: live_ids w).
    { unfold live_ids. cbn. rewrite !fmap_app. cbn. solve_Permutation. }
    split; cbn [om_world].
    + rewrite Hp. constructor; [|done]. intros Hin. by apply Hid, Hs.
    + rewrite Hp. cbn. set_solver.
  - destruct (ow_open w !! i) as [r|] eqn:Hi; [|done]. case_match; [|done]. injection Hmv as <-. eapply ids_sub; [done| |done].
    unfold live_ids. cbn. rewrite !fmap_app. cbn.
    pose proof (fmap_Permutation or_id _ _ (delete_Permutation _ _ _ Hi)) as ->. cbn. apply Permutation_submseteq. solve_Permutation.
  - injection Hmv as <-. eapply ids_sub; [done| |done]. unfold live_ids. cbn.
    apply submseteq_app; [|done]. apply fmap_submseteq, submseteq_app; [done|apply submseteq_delete].
  - injection Hmv as <-. eapply ids_sub; [done| |done]. unfold live_ids. cbn. apply Permutation_submseteq.
    rewrite !fmap_app.
    rewrite <- (filter_split (fun r => or_workItemId r = Some wi) (ow_table w)) at 3. rewrite fmap_app. solve_Permutation.
  - case_match; [|done]. by injection Hmv as <-.
  - destruct sweep; [done|]. by injection Hmv as <-.
  - destruct sweep as [[a|X c k]|]; [by injection Hmv as <-| |done].
    destruct (exec_faulty consumer f returns c w) as [[w' x]|] eqn:He; [|done]. injection Hmv as <-.
    apply exec_faulty_ids in He as [El Ei]. eapply ids_sub; [done|cbn [om_world]; by rewrite El|done].
  - by injection Hmv as <-.
Qed.

Lemma ob_moves_ids mvs : forall m m', ids_ok (om_world m) -> ob_moves consumer mvs m = Some m' -> ids_ok (om_world m').
Proof.
  induction mvs as [|mv mvs IH]; intros m m' Hm; [by intros [= <-]|]. cbn [ob_moves].
  destruct (ob_move consumer mv m) as [m1|] eqn:E; [|done]. apply IH. by eapply ob_move_ids.
Qed.

Lemma not_gone w r : ids_ok w -> r ∈ ow_table w -> or_id r ∉ oh_gone (ow_history w).
Proof.
  intros [Hn _] Hr Hg. apply NoDup_app in Hn as (_ & Hx & _). apply (Hx (or_id r)); [|done].
  apply list_elem_of_fmap_2, elem_of_app. by left.
Qed.

Lemma in_order_split h newer e older : in_order consumer h (newer ++ e :: older) -> turn_in consumer h older (settled_row e).
Proof. induction newer as [|x newer IH]; cbn; [by intros []|]. intros [_ ?]. by apply IH. Qed.

End ids.

(** ** The theorems *)

(** C21: no event of the activity feed is lost or overtaken.  Whatever the
    order in which any number of writers insert, commit and roll back, whatever
    work items are deleted, whichever commands of the sweep fail before or
    after their effect, and whenever the process dies: as long as the settle
    window is longer than a transaction may live, the stored cursor can be read
    back; a row of the table the consumer may see, after the cursor it started
    with and not after the stored one, was settled, that is, its handler
    returned or it was dead-lettered; a row is settled only when all those
    before it are; and a dead letter's handler had failed at least three times,
    the first time a whole poison window earlier. *)
Theorem no_event_missed consumer mvs m :
  TRANSACTION_TIMEOUT_MS < settleMs consumer -> ob_moves consumer mvs empty_outbox = Some m ->
  let w := om_world m in let h := ow_history w in
  let before_start r := exists s, oh_start h = Some s /\ kle (key_of r) s = true in
  (forall v, ow_flag w = Some v -> exists c, parseCursor v = Some c /\
     forall r, r ∈ ow_table w -> visible (cn_name consumer) r = true -> kle (key_of r) (after_of c) = true ->
       before_start r \/ settled_in (oh_settled h) r) /\
  (forall newer e older r, oh_settled h = newer ++ e :: older ->
     r ∈ ow_table w -> visible (cn_name consumer) r = true -> klt (key_of r) (key_of (settled_row e)) = true ->
     before_start r \/ settled_in older r) /\
  (forall e, e ∈ oh_settled h -> justified consumer h e).
Proof.
  intros Hs Hm w h before_start. destruct (ob_moves_ok consumer Hs _ _ _ (empty_ok consumer) Hm) as [((_ & Ho & Hj) & (Ht & _) & Hf & _) _].
  assert (Hids : ids_ok w) by (apply (ob_moves_ids consumer mvs) with empty_outbox; [split; [constructor|done]|done]).
  split_and!; [| |done].
  - intros v Hv. unfold flag_ok in Hf. subst w. rewrite Hv in Hf. destruct Hf as (k & Hk & [_ Hc]).
    destruct (stored_parse v k Hk) as (c & Hp & Ha). exists c. split; [done|]. intros r Hr Hvis Hle. rewrite Ha in Hle.
    destruct (Hc r (conj (Ht r Hr) Hvis) Hle) as [?|[?|Hg]]; [by left|by right|by destruct (not_gone _ _ Hids Hr)].
  - intros newer e older r He Hr Hvis Hlt. subst h w. rewrite He in Ho. apply in_order_split in Ho as [_ Ho].
    destruct (Ho r (conj (Ht r Hr) Hvis) Hlt) as [?|[?|Hg]]; [by left|by right|by destruct (not_gone _ _ Hids Hr)].
Qed.

(** The row [r1] is stamped first and commits last; its handler fails until it
    is dead-lettered; the process dies once, and an answer is lost. *)
Definition sla_consumer : OutboxConsumer := mkConsumer (js "support-sla") None None (Some 4000).
Definition steps (n : nat) (returns : bool) : list ObMove := repeat (StepSweep Works returns) n.
Definition outbox_schedule : list ObMove :=
  StartSweep :: steps 6 true ++
  [Tick 1000; Insert (js "r1") (Some (js "w")) None (js "created"); Tick 500; Insert (js "r2") (Some (js "w")) None (js "updated");
   CommitRow 1; Tick 3000; CommitRow 0; Tick 6000; StartSweep] ++ steps 5 false ++ [Crash; StartSweep] ++ steps 6 false ++
  [StartSweep] ++ steps 6 false ++ [Tick 4000; StartSweep] ++ steps 8 false ++ steps 2 true ++ [StepSweep LostReply true].

Lemma no_event_missed_witness :
  match ob_moves sla_consumer outbox_schedule empty_outbox with
  | Some m =>
      let h := ow_history (om_world m) in
      map (fun e => (or_id (settled_row e), match e with Handled _ => true | Dead _ _ => false end)) (oh_settled h) =
        [(js "r2", true); (js "r1", false)] /\
      failures_of h (js "r1") = 4 /\
      (forall e, e ∈ oh_settled h -> justified sla_consumer h e) /\
      forall v, ow_flag (om_world m) = Some v -> exists c, parseCursor v = Some c /\
        forall r, r ∈ ow_table (om_world m) -> visible (cn_name sla_consumer) r = true -> kle (key_of r) (after_of c) = true ->
          (exists s, oh_start h = Some s /\ kle (key_of r) s = true) \/ settled_in (oh_settled h) r
  | None => False
  end.
Proof.
  destruct (ob_moves sla_consumer outbox_schedule empty_outbox) as [m|] eqn:E; [|by vm_compute in E].
  pose proof (no_event_missed sla_consumer outbox_schedule m ltac:(by vm_compute) E) as (Hc & _ & Hj). cbv zeta in *.
  split; [|split; [|split; [exact Hj|exact Hc]]].
  - assert (Hx : (map (fun e => (or_id (settled_row e), match e with Handled _ => true | Dead _ _ => false end)) ∘ oh_settled ∘ ow_history ∘ om_world)
      <$> ob_moves sla_consumer outbox_schedule empty_outbox = Some [(js "r2", true); (js "r1", false)]) by (vm_compute; reflexivity).
    rewrite E in Hx. by injection Hx.
  - assert (Hx : (fun m => failures_of (ow_history (om_world m)) (js "r1")) <$> ob_moves sla_consumer outbox_schedule empty_outbox = Some 4)
      by (vm_compute; reflexivity).
    rewrite E in Hx. by injection Hx.
Defined.

(** ** A sweep nothing disturbs *)

Section undisturbed.
Context (consumer : OutboxConsumer).

(** Every command works, and the handler returns. *)
Fixpoint run {A} (p : prog ocommand A) (w : ObWorld) : ObWorld * A :=
  match p with
  | Ret a => (w, a)
  | Op c k => run (k (exec consumer true c w).2) (exec consumer true c w).1
  end.

(** The rows that wait, oldest first. *)
Definition due (after : okey) (settledBefore : Z) (table : list OutboxRow) : list OutboxRow :=
  sort_by row_cmp (filter (fun r => visible (cn_name consumer) r && klt after (key_of r) && (or_createdAt r <=? settledBefore) = true) table).

Definition deliver (w : ObWorld) (r : OutboxRow) : ObWorld :=
  set_flag (Some (cursor_value (row_cursor r)))
    (set_tracked (delete (or_id r) (ow_tracked w)) (set_history (add_settled (Handled r) (ow_history w)) w)).

Lemma run_bind {A B} (p : prog ocommand A) (f : A -> prog ocommand B) w :
  run (pbind p f) w = run (f (run p w).2) (run p w).1.
Proof. revert w. induction p as [|X c k IH]; intros w; [done|]. cbn. apply IH. Qed.

Lemma run_rows rows : forall w handled dead,
  run (handle_rows consumer rows handled dead) w =
  (fold_left deliver rows w, Ok (handled + Z.of_nat (length rows), dead)).
Proof.
  induction rows as [|r rows IH]; intros w handled dead; [cbn; by rewrite Z.add_0_r|].
  cbn [handle_rows run exec fst snd pass_row advanceOutboxCursor try_op]. rewrite IH. cbn [fold_left length].
  do 3 f_equal; lia.
Qed.

Lemma fold_deliver rows w :
  ow_table (fold_left deliver rows w) = ow_table w /\
  oh_now (ow_history (fold_left deliver rows w)) = oh_now (ow_history w) /\
  oh_settled (ow_history (fold_left deliver rows w)) = rev (Handled <$> rows) ++ oh_settled (ow_history w) /\
  ow_flag (fold_left deliver rows w) =
    match last rows with Some r => Some (cursor_value (row_cursor r)) | None => ow_flag w end.
Proof.
  revert w. induction rows as [|r rows IH]; intros w; [done|]. cbn [fold_left]. destruct (IH (deliver w r)) as (-> & -> & -> & ->).
  split_and!; try done; [cbn; by rewrite <- app_assoc|]. rewrite last_cons. by destruct (last rows).
Qed.

Lemma run_read limit w v c : 1 <= limit -> consumer_name (cn_name consumer) = true ->
  ow_flag w = Some v -> parseCursor v = Some c ->
  run (readOutboxBatch consumer limit) w =
  (w, Ok (take (Z.to_nat limit) (due (after_of c) (oh_now (ow_history w) - settleMs consumer) (ow_table w)))).
Proof.
  intros Hl Hn Hv Hp. unfold readOutboxBatch. destruct (Z.ltb_spec limit 1); [lia|]. cbn [run exec fst snd].
  rewrite run_bind. unfold loadCursor, outboxFlagKey. rewrite Hn. cbn [run try_op exec fst snd]. rewrite Hv. cbn [run fst snd option_bind mbind].
  by rewrite Hp.
Qed.

(** *** The rows that wait after one of them *)

Definition row_lt (a b : OutboxRow) : Prop := klt (key_of a) (key_of b) = true.

#[local] Instance row_lt_order : StrictOrder row_lt.
Proof. split; [intros a Ha; unfold row_lt in Ha; by rewrite klt_irrefl in Ha|intros a b c; apply klt_trans]. Qed.

Lemma due_in after sb table r : r ∈ due after sb table <->
  r ∈ table /\ visible (cn_name consumer) r = true /\ klt after (key_of r) = true /\ or_createdAt r <= sb.
Proof.
  unfold due. rewrite sort_by_perm, list_elem_of_filter, !andb_true_iff, Z.leb_le. tauto.
Qed.

Lemma due_NoDup after sb table : NoDup (or_id <$> table) -> NoDup (or_id <$> due after sb table).
Proof.
  intros Hn. unfold due. rewrite (fmap_Permutation or_id _ _ (sort_by_perm _ _)).
  apply (sublist_NoDup _ (or_id <$> table)); [done|]. apply fmap_sublist, sublist_filter.
Qed.

Lemma due_sorted after sb table : NoDup (or_id <$> table) -> StronglySorted row_lt (due after sb table).
Proof.
  intros Hn. pose proof (due_NoDup after sb table Hn) as Hd.
  pose proof (find_rows_sorted consumer after sb (Z.of_nat (length (due after sb table))) table) as Hs.
  unfold find_rows in Hs. fold (due after sb table) in Hs. rewrite Nat2Z.id, take_ge in Hs by done.
  induction Hs as [|r l Hs IH Hall]; [constructor|]. apply NoDup_cons in Hd as [Hr Hd]. constructor; [by apply IH|].
  rewrite Forall_forall in Hall |- *. intros x Hx. destruct (kle_lt_or _ _ (Hall x Hx)) as [|He]; [done|].
  destruct Hr. assert (or_id r = or_id x) as -> by (unfold key_of in He; congruence). by apply list_elem_of_fmap_2.
Qed.

Lemma due_after after sb table l1 r l2 : NoDup (or_id <$> table) -> due after sb table = l1 ++ r :: l2 ->
  due (key_of r) sb table = l2.
Proof.
  intros Hn He. pose proof (due_sorted after sb table Hn) as Hs. rewrite He in Hs.
  apply StronglySorted_app in Hs as (H12 & _ & Hs). apply StronglySorted_inv in Hs as [Hs2 Hr]. rewrite Forall_forall in Hr.
  pose proof (NoDup_fmap_1 _ _ (due_NoDup after sb table Hn)) as Hd. rewrite He in Hd.
  apply (sorted_perm_unique row_lt); [by apply due_sorted|done|].
  apply NoDup_Permutation; [by eapply NoDup_fmap_1, due_NoDup|by apply NoDup_app in Hd as (_ & _ & [_ ?]%NoDup_cons)|].
  assert (Hin : forall x, x ∈ due after sb table <-> x ∈ l1 \/ x = r \/ x ∈ l2) by (intros x; rewrite He; set_solver).
  intros x. rewrite due_in. split.
  - intros (Ht & Hv & Hk & Hc). assert (Hx : x ∈ due after sb table).
    { apply due_in. split_and!; try done. assert (Hra : r ∈ due after sb table) by (apply Hin; by right; left).
      apply due_in in Hra as (_ & _ & Hra & _). by eapply klt_trans. }
    apply Hin in Hx as [Hx|[->|Hx]]; [|by rewrite klt_irrefl in Hk|done].
    pose proof (klt_trans _ _ _ Hk (H12 x r Hx ltac:(left))) as Hxx. by rewrite klt_irrefl in Hxx.
  - intros Hx. assert (Hd' : x ∈ due after sb table) by (apply Hin; by right; right). apply due_in in Hd' as (? & ? & _ & ?).
    split_and!; try done. by apply Hr.
Qed.

Lemma run_batches n : forall w v c handled dead,
  1 <= batchSize consumer -> consumer_name (cn_name consumer) = true ->
  NoDup (or_id <$> ow_table w) -> (forall r, r ∈ ow_table w -> ok_time (or_createdAt r)) ->
  ow_flag w = Some v -> parseCursor v = Some c ->
  let rows := take (n * Z.to_nat (batchSize consumer)) (due (after_of c) (oh_now (ow_history w) - settleMs consumer) (ow_table w)) in
  run (sweep_batches consumer n handled dead) w = (fold_left deliver rows w, Ok (handled + Z.of_nat (length rows), dead)).
Proof.
  induction n as [|n IH]; intros w v c handled dead Hb Hn Hids Htime Hv Hp rows; [cbn; by rewrite Z.add_0_r|].
  cbn [sweep_batches]. rewrite run_bind, (run_read _ w v c) by done. cbn [fst snd]. set (B := Z.to_nat (batchSize consumer)) in *.
  set (D := due _ _ _) in *. rewrite run_bind, run_rows. cbn [fst snd].
  assert (Hsplit : rows = take B D ++ take (n * B) (drop B D)).
  { subst rows. cbn [Nat.mul]. symmetry. apply take_take_drop. }
  destruct (Z.ltb_spec (Z.of_nat (length (take B D))) (batchSize consumer)) as [Hlt|Hge]; cbn [run].
  - rewrite length_take in Hlt. assert (Hdrop : drop B D = []) by (apply drop_ge; lia). by rewrite Hsplit, Hdrop, take_nil, app_nil_r.
  - rewrite length_take in Hge. destruct (last (take B D)) as [r|] eqn:Hlast; cycle 1.
    { apply last_None in Hlast. apply (f_equal length) in Hlast. rewrite length_take in Hlast. cbn in Hlast. lia. }
    destruct (fold_deliver (take B D) w) as (Et & En & _ & Ef). rewrite Hlast in Ef.
    pose proof Hlast as Hl. apply last_Some in Hl as [l1 Hl].
    assert (HD : D = l1 ++ r :: drop B D) by (rewrite <- (take_drop B D) at 1; rewrite Hl, <- app_assoc; done).
    assert (Hr : r ∈ D) by (rewrite HD; set_solver).
    destruct (stored_parse (cursor_value (row_cursor r)) (key_of r)) as (c' & Hp' & Ha).
    { split; [done|]. apply Htime. by apply due_in in Hr as []. }
    rewrite (IH _ _ c') by (rewrite ?Et; done). rewrite Et, En, Ha, (due_after _ _ _ _ _ _ Hids HD). cbv zeta.
    rewrite Hsplit, fold_left_app, length_app. do 3 f_equal; lia.
Qed.
End undisturbed.

(** C9: when nothing fails, a sweep is one ordered delivery.  It terminates, and
    if the handler returns and no command fails it answers the number of rows
    it handled; the rows, read in batches each from the cursor the one before
    left, are exactly the first [50 * batchSize] of those that wait, that is,
    of all the rows the consumer may see, after its cursor, and still for the
    settle window, each once and in the strict order of time and id; and the
    cursor ends at the last of them. *)
Theorem sweep_delivers consumer w v c :
  1 <= batchSize consumer -> consumer_name (cn_name consumer) = true ->
  NoDup (or_id <$> ow_table w) -> (forall r, r ∈ ow_table w -> ok_time (or_createdAt r)) ->
  ow_flag w = Some v -> parseCursor v = Some c ->
  let settledBefore := oh_now (ow_history w) - settleMs consumer in
  let waiting := due consumer (after_of c) settledBefore (ow_table w) in
  let rows := take (MAX_BATCHES_PER_SWEEP * Z.to_nat (batchSize consumer)) waiting in
  let '(w', answer) := run consumer (runOutboxSweep consumer) w in
  (forall r, r ∈ waiting <-> r ∈ ow_table w /\ visible (cn_name consumer) r = true /\ klt (after_of c) (key_of r) = true /\
                            or_createdAt r <= settledBefore) /\
  StronglySorted row_lt waiting /\
  answer = Ok (Z.of_nat (length rows), 0) /\
  oh_settled (ow_history w') = rev (Handled <$> rows) ++ oh_settled (ow_history w) /\
  ow_flag w' = match last rows with Some r => Some (cursor_value (row_cursor r)) | None => Some v end /\
  ow_table w' = ow_table w.
Proof.
  intros Hb Hn Hids Htime Hv Hp settledBefore waiting rows. unfold runOutboxSweep.
  rewrite (run_batches consumer _ w v c) by done. fold settledBefore. fold waiting. fold rows.
  destruct (fold_deliver rows w) as (Et & _ & Es & Ef). rewrite Hv in Ef.
  split_and!; [apply due_in|by apply due_sorted|done..].
Qed.

Definition feed_row (n : N) (t : Z) : OutboxRow := mkOutboxRow [n] (Some (js "w")) None (js "updated") t.
Definition feed : ObWorld :=
  mkObWorld [feed_row 3 700; feed_row 1 500; feed_row 2 500; feed_row 5 9000; feed_row 4 800; feed_row 0 100] [] []
    (Some (cursor_value (mkCursor (toISOString 100) [0%N]))) ∅ (mkObHistory 10000 [] [] None [] []).
Definition small_batches : OutboxConsumer := mkConsumer (js "pm-live") (Some 2) None None.

Lemma sweep_delivers_witness :
  let '(w', answer) := run small_batches (runOutboxSweep small_batches) feed in
  answer = Ok (4, 0) /\ map (fun e => or_id (settled_row e)) (oh_settled (ow_history w')) = [[4]; [3]; [2]; [1]]%N /\
  ow_flag w' = Some (cursor_value (row_cursor (feed_row 4 800))).
Proof.
  assert (Hc : parseCursor (cursor_value (mkCursor (toISOString 100) [0%N])) = Some (mkCursor (toISOString 100) [0%N])) by (by vm_compute).
  assert (Hids : NoDup (or_id <$> ow_table feed)) by (apply (bool_decide_unpack _); by vm_compute).
  assert (Htime : Forall (fun r => ok_time (or_createdAt r)) (ow_table feed)) by (apply (bool_decide_unpack _); by vm_compute).
  rewrite Forall_forall in Htime.
  pose proof (sweep_delivers small_batches feed _ _ ltac:(by vm_compute) ltac:(by vm_compute) Hids Htime eq_refl Hc) as H.
  cbv zeta in H. destruct (run small_batches (runOutboxSweep small_batches) feed) as [w' answer].
  destruct H as (_ & _ & -> & -> & -> & _). split; [by vm_compute|]. split; by vm_compute.
Defined.
