(* ===== verification/NetAddress.v ===== *)
(** * NetAddress: the texts of IP addresses, and lists of blocked ranges

    What lib/outbound-url-guard.ts uses of node:net: [isIP] with the address a
    text denotes, and [BlockList], whose rules compare 16 bytes, an IPv4 address
    standing for its IPv4-mapped form on both sides. *)

From S2P Require Import Prelude JsNum DateTime DateText.

Local Open Scope Z_scope.

(** ** Cutting strings *)

(** [s.split(c)] for one code unit. *)
Fixpoint split_on (c : N) (s : jsstr) : list jsstr :=
  match s with
  | [] => [[]]
  | u :: r =>
      if N.eqb u c then [] :: split_on c r
      else match split_on c r with p :: ps => (u :: p) :: ps | [] => [[u]] end
  end.

(** [s.split(c)[0] ?? ""] *)
Definition before_first (c : N) (s : jsstr) : jsstr := default [] (head (split_on c s)).

(** [s.endsWith(p)] *)
Definition endsWith (p s : jsstr) : bool := startsWith (reverse p) (reverse s).

(** ** Addresses *)

Inductive ipaddr := V4 (n : Z) | V6 (n : Z).

#[export] Instance ipaddr_eq_dec : EqDecision ipaddr.
Proof. solve_decision. Defined.

(** The 128 bits [BlockList] compares. *)
Definition MAPPED : Z := 0xffff * 2 ^ 32.
Definition bits128 (a : ipaddr) : Z := match a with V4 n => MAPPED + n | V6 n => n end.

(** A decimal octet, without a leading zero. *)
Definition octet (p : jsstr) : option Z :=
  if negb (Nat.eqb (length p) 0) && Nat.leb (length p) 3 && forallb digitb p &&
     (Nat.eqb (length p) 1 || negb (bool_decide (head p = Some 48%N))) && (digits_val p <=? 255)
  then Some (digits_val p) else None.

Definition parse_v4 (s : jsstr) : option Z :=
  match split_on 46 s with
  | [a; b; c; d] =>
      a ← octet a; b ← octet b; c ← octet c; d ← octet d;
      Some (((a * 256 + b) * 256 + c) * 256 + d)
  | _ => None
  end.

Definition hex_digit (c : N) : option Z :=
  if digitb c then Some (Z.of_N c - 48)
  else if ((97 <=? c) && (c <=? 102))%N then Some (Z.of_N c - 87)
  else if ((65 <=? c) && (c <=? 70))%N then Some (Z.of_N c - 55)
  else None.

(** One to four hexadecimal digits. *)
Definition hextet (p : jsstr) : option Z :=
  if negb (Nat.eqb (length p) 0) && Nat.leb (length p) 4
  then ds ← mapM hex_digit p; Some (foldl (fun acc d => 16 * acc + d) 0 ds)
  else None.

(** The groups between single colons; the last may be an IPv4 address, two
    groups.  The empty text has none. *)
Fixpoint groups (ps : list jsstr) (v4_last : bool) : option (list Z) :=
  match ps with
  | [] => Some []
  | [p] =>
      match hextet p with
      | Some w => Some [w]
      | None => if v4_last then n ← parse_v4 p; Some [n / 65536; n mod 65536] else None
      end
  | p :: ps => w ← hextet p; ws ← groups ps v4_last; Some (w :: ws)
  end.

Definition side (s : jsstr) (v4_last : bool) : option (list Z) :=
  match s with [] => Some [] | _ => groups (split_on 58 s) v4_last end.

(** The two sides of the first "::". *)
Fixpoint cut_double_colon (s : jsstr) : option (jsstr * jsstr) :=
  match s with
  | a :: (b :: r) as t =>
      if N.eqb a 58 && N.eqb b 58 then Some ([], r)
      else '(l, r) ← cut_double_colon t; Some (a :: l, r)
  | _ => None
  end.

Definition words_val (ws : list Z) : Z := foldl (fun acc w => 65536 * acc + w) 0 ws.

(** Eight groups, or at most seven with "::" for the missing ones. *)
Definition parse_v6_bare (s : jsstr) : option Z :=
  match cut_double_colon s with
  | Some (l, r) =>
      ls ← side l false; rs ← side r true;
      if Nat.leb (length ls + length rs) 7
      then Some (words_val (ls ++ replicate (8 - (length ls + length rs)) 0 ++ rs)) else None
  | None => ws ← side s true; if Nat.eqb (length ws) 8 then Some (words_val ws) else None
  end.

(** The zone after "%": letters, digits, hyphens, dots and colons. *)
Definition zone_char (c : N) : bool :=
  digitb c || ((97 <=? c) && (c <=? 122))%N || ((65 <=? c) && (c <=? 90))%N || bool_decide (c ∈ [45; 46; 58]%N).

Definition parse_v6 (s : jsstr) : option Z :=
  match split_on 37 s with
  | [a] => parse_v6_bare a
  | [a; z] => if negb (Nat.eqb (length z) 0) && forallb zone_char z then parse_v6_bare a else None
  | _ => None
  end.

(** The address a text denotes; [isIP] answers 4, 6, or 0 for none. *)
Definition parse_ip (s : jsstr) : option ipaddr :=
  match parse_v4 s with
  | Some n => Some (V4 n)
  | None => V6 <$> parse_v6 s
  end.

Definition isIP (s : jsstr) : Z := match parse_ip s with Some (V4 _) => 4 | Some (V6 _) => 6 | None => 0 end.

(** ** BlockList *)

(** A rule: the addresses that share their first [ru_prefix] of 128 bits with
    [ru_net]. *)
Record rule := mkRule { ru_net : Z; ru_prefix : Z }.

Definition covers (r : rule) (a : ipaddr) : bool :=
  Z.shiftr (bits128 a) (128 - ru_prefix r) =? Z.shiftr (ru_net r) (128 - ru_prefix r).

Definition addAddress (a : ipaddr) : rule := mkRule (bits128 a) 128.

(** [addSubnet]; [None] where it throws, the prefix being out of range. *)
Definition addSubnet (a : ipaddr) (prefix : Z) : option rule :=
  match a with
  | V4 _ => if (0 <=? prefix) && (prefix <=? 32) then Some (mkRule (bits128 a) (prefix + 96)) else None
  | V6 _ => if (0 <=? prefix) && (prefix <=? 128) then Some (mkRule (bits128 a) prefix) else None
  end.

Definition check (l : list rule) (a : ipaddr) : bool := existsb (fun r => covers r a) l.

(** The rules of a table written in the source. *)
Definition subnets (l : list (string * Z)) : list rule :=
  omap (fun e => a ← parse_ip (js e.1); addSubnet a e.2) l.
Definition hosts (l : list string) : list rule := omap (fun s => addAddress <$> parse_ip (js s)) l.

(** ** Ranges *)

(** The first and last address of a rule. *)
Definition first_of (r : rule) : Z := ru_net r / 2 ^ (128 - ru_prefix r) * 2 ^ (128 - ru_prefix r).
Definition last_of (r : rule) : Z := first_of r + 2 ^ (128 - ru_prefix r) - 1.

Lemma covers_range r a : ru_prefix r <= 128 -> covers r a = true <-> first_of r <= bits128 a <= last_of r.
Proof.
  intros Hp. unfold covers, last_of, first_of. rewrite !Z.shiftr_div_pow2, Z.eqb_eq by lia.
  set (k := 2 ^ (128 - ru_prefix r)). assert (0 < k) by (apply Z.pow_pos_nonneg; lia).
  pose proof (Z.div_mod (bits128 a) k). pose proof (Z.mod_pos_bound (bits128 a) k). split; [intros <-; lia|].
  intros ?. symmetry. apply (Z.div_unique _ _ _ (bits128 a - ru_net r / k * k)); [left; lia|lia].
Qed.

Lemma check_ranges l a : Forall (fun r => ru_prefix r <= 128) l ->
  check l a = true <-> Exists (fun r => first_of r <= bits128 a <= last_of r) l.
Proof.
  intros Hl. unfold check. induction Hl as [|r l Hr _ IH]; [by rewrite Exists_nil|].
  cbn [existsb]. by rewrite orb_true_iff, Exists_cons, IH, covers_range.
Qed.

Lemma check_app l l' a : check (l ++ l') a = check l a || check l' a.
Proof. unfold check. apply existsb_app. Qed.

(** ** What a text can denote *)

Lemma octet_range p v : octet p = Some v -> 0 <= v <= 255.
Proof.
  unfold octet. case_match eqn:E; [|done]. intros [= <-]. b2p. split; [|done].
  assert (Hd : forallb digitb p = true) by done. clear -Hd. unfold digits_val.
  enough (forall acc, 0 <= acc -> 0 <= foldl (fun acc c => 10 * acc + (Z.of_N c - 48)) acc p) by auto with lia.
  induction p as [|c p IH]; intros acc Hacc; [done|]. cbn in Hd |- *. apply andb_prop in Hd as [Hc Hd].
  apply IH; [done|]. unfold digitb in Hc. rewrite andb_true_iff, !N.leb_le in Hc. lia.
Qed.

Lemma parse_v4_range s n : parse_v4 s = Some n -> 0 <= n < 2 ^ 32.
Proof.
  unfold parse_v4. destruct (split_on 46 s) as [|a [|b [|c [|d [|]]]]]; try done.
  destruct (octet a) as [va|] eqn:Ea; [|done]. destruct (octet b) as [vb|] eqn:Eb; [|done].
  destruct (octet c) as [vc|] eqn:Ec; [|done]. destruct (octet d) as [vd|] eqn:Ed; [|done]. intros [= <-].
  pose proof (octet_range _ _ Ea). pose proof (octet_range _ _ Eb). pose proof (octet_range _ _ Ec). pose proof (octet_range _ _ Ed). lia.
Qed.

Lemma hex_digit_range c d : hex_digit c = Some d -> 0 <= d <= 15.
Proof. unfold hex_digit, digitb. repeat case_match; intros [= <-]; rewrite ?andb_true_iff, ?N.leb_le in *; lia. Qed.

Lemma hextet_range p w : hextet p = Some w -> 0 <= w < 65536.
Proof.
  unfold hextet. case_match eqn:E; [|done]. apply andb_prop in E as [_ Hlen%Nat.leb_le].
  destruct (mapM hex_digit p) as [ds|] eqn:Hds; [|done]. intros [= <-].
  apply mapM_Some in Hds. rewrite (Forall2_length _ _ _ Hds) in Hlen.
  assert (Hr : Forall (fun d => 0 <= d <= 15) ds) by (eapply Forall2_Forall_r; [exact Hds|]; apply Forall_forall; intros c _ d; apply hex_digit_range).
  destruct ds as [|a [|b [|c [|d [|]]]]]; cbn in Hlen |- *; rewrite ?Forall_cons in Hr; lia.
Qed.

Definition word (w : Z) : Prop := 0 <= w < 65536.

Lemma groups_words ps v4_last ws : groups ps v4_last = Some ws -> Forall word ws.
Proof.
  revert ws. induction ps as [|p ps IH]; intros ws; [by intros [= <-]|]. cbn [groups]. destruct ps as [|q ps].
  - destruct (hextet p) eqn:E; [intros [= <-]; constructor; [by eapply hextet_range|done]|].
    destruct v4_last; [|done]. destruct (parse_v4 p) as [n|] eqn:E'; [|done]. intros [= <-].
    apply parse_v4_range in E'. rewrite !Forall_cons. unfold word.
    pose proof (Z.div_mod n 65536). pose proof (Z.mod_pos_bound n 65536). split_and!; [lia..|done].
  - destruct (hextet p) eqn:E; [|done]. destruct (groups (q :: ps) v4_last) as [r|] eqn:Er; [|done].
    intros [= <-]. constructor; [by eapply hextet_range|by apply IH].
Qed.

Lemma side_words s v4_last ws : side s v4_last = Some ws -> Forall word ws.
Proof. destruct s; [by intros [= <-]|apply groups_words]. Qed.

Lemma words_val_range ws : Forall word ws -> 0 <= words_val ws < 65536 ^ Z.of_nat (length ws).
Proof.
  intros Hw. unfold words_val. induction ws as [|w ws IH] using rev_ind; [cbn; lia|].
  apply Forall_app in Hw as [Hws [Hw _]%Forall_cons]. specialize (IH Hws).
  rewrite foldl_snoc, length_app, Nat.add_1_r, Nat2Z.inj_succ, Z.pow_succ_r by lia. unfold word in Hw. lia.
Qed.

Lemma parse_v6_bare_range s n : parse_v6_bare s = Some n -> 0 <= n < 2 ^ 128.
Proof.
  assert (H8 : 65536 ^ Z.of_nat 8 = 2 ^ 128) by reflexivity.
  unfold parse_v6_bare. destruct (cut_double_colon s) as [[l r]|].
  - destruct (side l false) as [ls|] eqn:El; [|done]. destruct (side r true) as [rs|] eqn:Er; [|done]. cbn [mbind option_bind].
    case_match eqn:E; [|done]. apply Nat.leb_le in E. intros [= <-].
    rewrite <- H8. replace 8%nat with (length (ls ++ replicate (8 - (length ls + length rs)) 0 ++ rs)) at 3
      by (rewrite !length_app, length_replicate; lia).
    apply words_val_range, Forall_app_2; [by eapply side_words|]. apply Forall_app_2; [|by eapply side_words].
    apply Forall_replicate. unfold word. lia.
  - destruct (side s true) as [ws|] eqn:Es; [|done]. cbn [mbind option_bind]. case_match eqn:E; [|done]. apply Nat.eqb_eq in E. intros [= <-].
    rewrite <- H8, <- E. by eapply words_val_range, side_words.
Qed.

Definition ip_range (a : ipaddr) : Prop := match a with V4 n => 0 <= n < 2 ^ 32 | V6 n => 0 <= n < 2 ^ 128 end.

Lemma parse_ip_range s a : parse_ip s = Some a -> ip_range a.
Proof.
  unfold parse_ip. destruct (parse_v4 s) as [n|] eqn:E; [intros [= <-]; by eapply parse_v4_range|].
  destruct (parse_v6 s) as [n|] eqn:E'; [|done]. intros [= <-]. cbn. unfold parse_v6 in E'.
  destruct (split_on 37 s) as [|x [|z [|]]]; try done; [by eapply parse_v6_bare_range|]. case_match; [|done]. by eapply parse_v6_bare_range.
Qed.

(** ** An IPv4 address has one text *)

Definition join_with (c : N) (ps : list jsstr) : jsstr :=
  match ps with [] => [] | p :: ps => p ++ concat ((fun q => c :: q) <$> ps) end.

Lemma split_on_not_nil c s : split_on c s <> [].
Proof. destruct s as [|u s]; cbn; [done|]. case_match; [done|]. by case_match. Qed.

Lemma join_split c s : join_with c (split_on c s) = s.
Proof.
  induction s as [|u s IH]; [done|]. cbn [split_on]. pose proof (split_on_not_nil c s) as Hn.
  destruct (split_on c s) as [|p ps]; [done|]. cbn in IH. destruct (N.eqb_spec u c) as [->|]; cbn; by rewrite IH.
Qed.

Lemma split_on_piece c p : c ∉ p -> split_on c p = [p].
Proof.
  induction p as [|u p IH]; intros Hc; [done|]. apply not_elem_of_cons in Hc as [Hu Hc]. cbn [split_on].
  destruct (N.eqb_spec u c); [congruence|]. by rewrite IH.
Qed.

Lemma split_on_app c p s : c ∉ p -> split_on c (p ++ c :: s) = p :: split_on c s.
Proof.
  induction p as [|u p IH]; intros Hc; cbn [app split_on]; [by rewrite N.eqb_refl|]. apply not_elem_of_cons in Hc as [Hu Hc].
  destruct (N.eqb_spec u c); [congruence|]. by rewrite IH.
Qed.

Definition oct_text (v : Z) : jsstr := dec_str (Z.to_N v).

Definition octet_texts : bool := forallb (fun v => bool_decide (octet (oct_text v) = Some v)) (seqZ 0 256).
Definition octet_pads : bool :=
  forallb (fun v => forallb (fun w => bool_decide (octet (pad w v) = Some v -> pad w v = oct_text v)) [1; 2; 3]%nat) (seqZ 0 256).

Lemma octet_iff p v : octet p = Some v <-> 0 <= v <= 255 /\ p = oct_text v.
Proof.
  split.
  - intros Ho. pose proof (octet_range _ _ Ho) as Hv. split; [done|].
    assert (Hp : octet_pads = true) by (by vm_compute). unfold octet_pads in Hp. rewrite forallb_forall in Hp.
    specialize (Hp v). rewrite forallb_forall in Hp.
    pose proof Ho as Ho'. unfold octet in Ho'. case_match eqn:E; [|done]. injection Ho' as Hd. b2p.
    assert (Hpad : pad (length p) v = p) by (rewrite <- Hd; by apply digits_pad).
    assert (Hlen : In (length p) [1; 2; 3]%nat).
    { destruct p as [|a [|b [|c [|]]]]; cbn in *; try done; tauto. }
    specialize (Hp ltac:(apply list_elem_of_In, elem_of_seqZ; lia) (length p) Hlen). apply bool_decide_eq_true in Hp.
    rewrite Hpad in Hp. by apply Hp.
  - intros [Hv ->]. assert (Ht : octet_texts = true) by (by vm_compute). unfold octet_texts in Ht. rewrite forallb_forall in Ht.
    specialize (Ht v ltac:(apply list_elem_of_In, elem_of_seqZ; lia)). by apply bool_decide_eq_true in Ht.
Qed.

(** The dotted quad of an address. *)
Definition v4_text (n : Z) : jsstr :=
  join_with 46 (oct_text <$> [n / 16777216; n / 65536 mod 256; n / 256 mod 256; n mod 256]).

Lemma oct_text_dot v : 46%N ∉ oct_text v.
Proof. apply (digit_not_in 46%N); [apply dec_str_digits|unfold is_digit; lia]. Qed.

Lemma parse_v4_iff s n : parse_v4 s = Some n <-> 0 <= n < 2 ^ 32 /\ s = v4_text n.
Proof.
  split.
  - intros Hp. pose proof (parse_v4_range _ _ Hp) as Hn. split; [done|]. unfold parse_v4 in Hp.
    pose proof (join_split 46 s) as Hs. destruct (split_on 46 s) as [|a [|b [|c [|d [|]]]]]; try done.
    destruct (octet a) as [va|] eqn:Ea; [|done]. destruct (octet b) as [vb|] eqn:Eb; [|done].
    destruct (octet c) as [vc|] eqn:Ec; [|done]. destruct (octet d) as [vd|] eqn:Ed; [|done]. injection Hp as <-.
    apply octet_iff in Ea as [? ->], Eb as [? ->], Ec as [? ->], Ed as [? ->]. rewrite <- Hs. unfold v4_text. do 2 f_equal.
    assert (E3 : (((va * 256 + vb) * 256 + vc) * 256 + vd) / 256 = (va * 256 + vb) * 256 + vc) by (symmetry; apply (Z.div_unique _ _ _ vd); lia).
    assert (E2 : (((va * 256 + vb) * 256 + vc) * 256 + vd) / 65536 = va * 256 + vb) by (symmetry; apply (Z.div_unique _ _ _ (vc * 256 + vd)); lia).
    assert (E1 : (((va * 256 + vb) * 256 + vc) * 256 + vd) / 16777216 = va) by (symmetry; apply (Z.div_unique _ _ _ (vb * 65536 + vc * 256 + vd)); lia).
    assert (Hm : forall q v, 0 <= v <= 255 -> (q * 256 + v) mod 256 = v) by (intros q v ?; symmetry; apply (Z.mod_unique _ _ q); lia).
    by rewrite E1, E2, E3, !Hm by done.
  - intros [Hn ->]. unfold parse_v4, v4_text. cbn [join_with fmap list_fmap concat app].
    rewrite !split_on_app, app_nil_r, split_on_piece by apply oct_text_dot.
    assert (Ho : forall v, 0 <= v < 256 -> octet (oct_text v) = Some v) by (intros v ?; apply octet_iff; split; [lia|done]).
    rewrite !Ho by first [apply Z.mod_pos_bound; lia | split; [apply Z.div_pos; lia | apply Z.div_lt_upper_bound; lia]].
    cbn [mbind option_bind]. f_equal.
    pose proof (Z.div_mod n 256). pose proof (Z.div_mod (n / 256) 256). pose proof (Z.div_mod (n / 256 / 256) 256).
    rewrite !Z.div_div in * by lia. change (256 * 256) with 65536 in *. change (65536 * 256) with 16777216 in *. lia.
Qed.

(** ** The letter case of an address *)

Definition lc (c : N) : N := if ((65 <=? c) && (c <=? 90))%N then (c + 32)%N else c.

(** What an address is written with: nothing white, no bracket. *)
Definition addr_char (c : N) : Prop := (33 <= c < 128)%N /\ c <> 91%N /\ c <> 93%N.

Lemma lc_cases c : (lc c = c /\ ~ (65 <= c <= 90)%N) \/ (lc c = (c + 32)%N /\ (65 <= c <= 90)%N).
Proof. unfold lc. destruct (N.leb_spec 65 c), (N.leb_spec c 90); cbn; [right|left..]; split; try done; lia. Qed.

Lemma toLowerCase_lc s : Forall addr_char s -> toLowerCase s = lc <$> s.
Proof.
  unfold toLowerCase. induction 1 as [|c s [Hc _] _ IH]; [done|]. cbn [flat_map fmap list_fmap]. rewrite IH. unfold lower_unit, lc.
  case_match; [done|]. rewrite !(proj2 (N.eqb_neq _ _)) by lia. done.
Qed.

Lemma lc_addr_char c : addr_char c -> addr_char (lc c).
Proof. unfold addr_char. destruct (lc_cases c) as [[-> ?]|[-> ?]]; lia. Qed.

Ltac by_case := unfold digitb, hex_digit, zone_char, digitb; repeat match goal with
  | |- context [(?a <=? ?b)%N] => destruct (N.leb_spec a b); try lia end; cbn.

Lemma digitb_lc c : digitb (lc c) = digitb c.
Proof. destruct (lc_cases c) as [[-> _]|[-> ?]]; [done|]. by_case; done || lia. Qed.

Lemma hex_digit_lc c : hex_digit (lc c) = hex_digit c.
Proof. destruct (lc_cases c) as [[-> _]|[-> ?]]; [done|]. by_case; try done; try lia. f_equal. lia. Qed.

Lemma zone_char_lc c : zone_char (lc c) = zone_char c.
Proof. destruct (lc_cases c) as [[-> _]|[-> ?]]; [done|]. by_case; done || lia. Qed.

Lemma lc_sep c x : c ∈ [46; 37; 58]%N -> N.eqb (lc x) c = N.eqb x c.
Proof. rewrite !elem_of_cons, elem_of_nil. intros Hc. destruct (lc_cases x) as [[-> _]|[-> ?]]; [done|]. rewrite !(proj2 (N.eqb_neq _ _)); lia. Qed.

Lemma split_on_lc c s : c ∈ [46; 37; 58]%N -> split_on c (lc <$> s) = (fun p : jsstr => lc <$> p) <$> split_on c s.
Proof.
  intros Hc. induction s as [|x s IH]; [done|]. cbn [split_on fmap list_fmap]. rewrite lc_sep by done. case_match; cbn; rewrite IH; [done|].
  by destruct (split_on c s).
Qed.

Lemma forallb_fmap {A B} (f : A -> B) p l : forallb p (f <$> l) = forallb (fun x => p (f x)) l.
Proof. induction l as [|x l IH]; cbn; [done|]. by rewrite IH. Qed.

Lemma lc_digits s : forallb digitb s = true -> lc <$> s = s.
Proof.
  induction s as [|c s IH]; cbn; [done|]. intros [Hc Hs]%andb_prop. rewrite IH by done. f_equal.
  destruct (lc_cases c) as [[-> _]|[_ H]]; [done|]. exfalso. revert Hc. by_case; done || lia.
Qed.

Lemma octet_lc p : octet (lc <$> p) = octet p.
Proof.
  destruct (forallb digitb p) eqn:E; [by rewrite lc_digits|]. unfold octet. rewrite forallb_fmap.
  assert (E' : forallb (fun x => digitb (lc x)) p = false) by (rewrite <- E; clear; induction p as [|c p IH]; cbn; rewrite ?digitb_lc, ?IH; done).
  by rewrite E, E', !andb_false_r.
Qed.

Lemma parse_v4_lc s : parse_v4 (lc <$> s) = parse_v4 s.
Proof.
  unfold parse_v4. rewrite split_on_lc by (by left). destruct (split_on 46 s) as [|a [|b [|c [|d [|]]]]]; cbn; try done. by rewrite !octet_lc.
Qed.

Lemma hextet_lc p : hextet (lc <$> p) = hextet p.
Proof.
  unfold hextet. rewrite length_fmap. case_match; [|done]. assert (Hm : mapM hex_digit (lc <$> p) = mapM hex_digit p); [|by rewrite Hm].
  clear. induction p as [|c p IH]; cbn; [done|]. by rewrite hex_digit_lc, IH.
Qed.

Lemma groups_lc ps b : groups ((fun p : jsstr => lc <$> p) <$> ps) b = groups ps b.
Proof.
  induction ps as [|p ps IH]; [done|]. destruct ps as [|q ps]; [cbn; by rewrite hextet_lc, parse_v4_lc|].
  change (groups ((fun p : jsstr => lc <$> p) <$> p :: q :: ps) b) with
    (w ← hextet (lc <$> p); ws ← groups ((fun p : jsstr => lc <$> p) <$> q :: ps) b; Some (w :: ws)). by rewrite IH, hextet_lc.
Qed.

Lemma side_lc s b : side (lc <$> s) b = side s b.
Proof. destruct s as [|c s]; [done|]. unfold side. cbn [fmap list_fmap]. change (lc c :: (lc <$> s)) with (lc <$> (c :: s)). rewrite split_on_lc, groups_lc; [done|]. by right; right; left. Qed.

Lemma cut_lc (s : jsstr) : cut_double_colon (lc <$> s) = prod_map (fun l : jsstr => lc <$> l : jsstr) (fun l : jsstr => lc <$> l : jsstr) <$> cut_double_colon s.
Proof.
  induction s as [|a s IH]; [done|]. destruct s as [|b s]; [done|].
  change (cut_double_colon (lc <$> a :: b :: s)) with
    (if N.eqb (lc a) 58 && N.eqb (lc b) 58 then Some ([], lc <$> s) else '(l, r) ← cut_double_colon (lc <$> b :: s); Some (lc a :: l, r)).
  change (cut_double_colon (a :: b :: s)) with
    (if N.eqb a 58 && N.eqb b 58 then Some ([], s) else '(l, r) ← cut_double_colon (b :: s); Some (a :: l, r)).
  rewrite !lc_sep by (by right; right; left). case_match; [done|]. rewrite IH. by destruct (cut_double_colon (b :: s)) as [[l r]|].
Qed.

Lemma parse_v6_bare_lc s : parse_v6_bare (lc <$> s) = parse_v6_bare s.
Proof. unfold parse_v6_bare. rewrite cut_lc. destruct (cut_double_colon s) as [[l r]|]; cbn; by rewrite ?side_lc. Qed.

Lemma parse_v6_lc s : parse_v6 (lc <$> s) = parse_v6 s.
Proof.
  unfold parse_v6. rewrite split_on_lc by (by right; left). destruct (split_on 37 s) as [|a [|z [|]]]; cbn; try done; rewrite ?parse_v6_bare_lc; [done|].
  rewrite length_fmap, forallb_fmap. assert (Hz : forallb (fun x => zone_char (lc x)) z = forallb zone_char z); [|by rewrite Hz].
  clear. induction z as [|c z IH]; cbn; rewrite ?zone_char_lc, ?IH; done.
Qed.

Lemma parse_ip_lc s : parse_ip (lc <$> s) = parse_ip s.
Proof. unfold parse_ip. by rewrite parse_v4_lc, parse_v6_lc. Qed.

(** ** The characters of an address *)

Lemma split_on_chars (P : N -> Prop) c s : P c -> Forall (Forall P) (split_on c s) -> Forall P s.
Proof.
  intros Hc. induction s as [|x s IH]; [done|]. cbn. destruct (N.eqb_spec x c) as [->|Hx].
  - intros [_ H]%Forall_cons. constructor; auto.
  - destruct (split_on c s) as [|p ps] eqn:E; [by apply split_on_not_nil in E|]. intros [[Hp Hps]%Forall_cons H]%Forall_cons.
    constructor; [done|]. apply IH. by constructor.
Qed.

Lemma digits_addr p : forallb digitb p = true -> Forall addr_char p.
Proof. intros H. apply Forall_forall. intros c Hc. rewrite forallb_forall in H. apply list_elem_of_In, H in Hc. revert Hc. unfold addr_char. by_case; done || lia. Qed.

Lemma octet_addr p v : octet p = Some v -> Forall addr_char p.
Proof. unfold octet. case_match eqn:E; [|done]. intros _. rewrite !andb_true_iff in E. apply digits_addr. tauto. Qed.

Lemma parse_v4_addr s n : parse_v4 s = Some n -> Forall addr_char s.
Proof.
  unfold parse_v4. intros H. apply (split_on_chars _ 46); [unfold addr_char; lia|]. destruct (split_on 46 s) as [|a [|b [|c [|d [|]]]]]; try done.
  apply bind_Some in H as (? & ?%octet_addr & H). apply bind_Some in H as (? & ?%octet_addr & H). apply bind_Some in H as (? & ?%octet_addr & H).
  apply bind_Some in H as (? & ?%octet_addr & _). by repeat constructor.
Qed.

Lemma hextet_addr p w : hextet p = Some w -> Forall addr_char p.
Proof.
  unfold hextet. case_match; [|done]. intros (ds & Hm & _)%bind_Some. apply mapM_Some in Hm. clear -Hm. induction Hm as [|c d p ds Hc _ IH]; [done|]. constructor; [|done].
  revert Hc. unfold addr_char. by_case; done || lia.
Qed.

Lemma groups_addr ps b ws : groups ps b = Some ws -> Forall (Forall addr_char) ps.
Proof.
  revert ws. induction ps as [|p ps IH]; intros ws; [constructor|]. destruct ps as [|q ps]; cbn [groups].
  - destruct (hextet p) eqn:E; [intros _; repeat constructor; by eapply hextet_addr|]. destruct b; [|done].
    intros (n & Hn & _)%bind_Some. repeat constructor. by eapply parse_v4_addr.
  - intros (w & Hw%hextet_addr & H)%bind_Some. apply bind_Some in H as (ws' & Hg & _). constructor; [done|by eapply IH].
Qed.

Lemma side_addr s b ws : side s b = Some ws -> Forall addr_char s.
Proof.
  destruct s as [|c s]; [done|]. unfold side. intros H%groups_addr. apply (split_on_chars _ 58); [unfold addr_char; lia|done].
Qed.

Lemma cut_spec s l r : cut_double_colon s = Some (l, r) -> s = l ++ [58; 58]%N ++ r.
Proof.
  revert l. induction s as [|a s IH]; intros l; [done|]. destruct s as [|b s]; [done|].
  change (cut_double_colon (a :: b :: s)) with
    (if N.eqb a 58 && N.eqb b 58 then Some ([], s) else '(l, r) ← cut_double_colon (b :: s); Some (a :: l, r)).
  case_match eqn:E; [apply andb_prop in E as [->%N.eqb_eq ->%N.eqb_eq]; by intros [= <- <-]|].
  intros ([l' r'] & H & [= <- <-])%bind_Some. by rewrite (IH _ H).
Qed.

Lemma parse_v6_bare_addr s n : parse_v6_bare s = Some n -> Forall addr_char s.
Proof.
  unfold parse_v6_bare. destruct (cut_double_colon s) as [[l r]|] eqn:E.
  - apply cut_spec in E as ->. intros (ls & Hl%side_addr & H)%bind_Some. apply bind_Some in H as (rs & Hr%side_addr & _).
    apply Forall_app. split; [done|]. repeat (constructor; [unfold addr_char; lia|]). done.
  - by intros (ws & Hs%side_addr & _)%bind_Some.
Qed.

Lemma parse_ip_addr s a : parse_ip s = Some a -> Forall addr_char s.
Proof.
  unfold parse_ip. destruct (parse_v4 s) eqn:E; [intros _; by eapply parse_v4_addr|]. intros (n & H & _)%fmap_Some. clear E.
  apply (split_on_chars _ 37); [unfold addr_char; lia|]. unfold parse_v6 in H. destruct (split_on 37 s) as [|x [|z [|]]]; try done.
  - repeat constructor. by eapply parse_v6_bare_addr.
  - case_match eqn:E; [|done]. apply andb_prop in E as [_ Hz]. constructor; [by eapply parse_v6_bare_addr|]. constructor; [|done].
    apply Forall_forall. intros c Hc. rewrite forallb_forall in Hz. apply list_elem_of_In, Hz in Hc. revert Hc. unfold zone_char, addr_char.
    rewrite !orb_true_iff, bool_decide_eq_true, !elem_of_cons, elem_of_nil. unfold digitb. rewrite !andb_true_iff, !N.leb_le. lia.
Qed.

(** ** Brackets, white space and case leave an address what it is *)

Lemma addr_char_not_space c : addr_char c -> is_space c = false.
Proof.
  unfold addr_char, is_space. intros Hc. rewrite bool_decide_eq_false_2 by (rewrite !elem_of_cons, elem_of_nil; lia).
  apply andb_false_iff. left. apply N.leb_gt. lia.
Qed.

Lemma endsWith_iff p s : endsWith p s = true <-> exists t, s = t ++ p.
Proof.
  unfold endsWith. rewrite startsWith_iff. split; intros [t Ht].
  - exists (reverse t). by rewrite <- (reverse_involutive s), Ht, reverse_app, reverse_involutive.
  - exists (reverse t). by rewrite Ht, reverse_app.
Qed.
