(* ===== verification/OutboundGuard.v ===== *)
(** * OutboundGuard: the gate of user-supplied URLs
      (apps/orchestrator/src/lib/outbound-url-guard.ts, services/caldav.client.ts)

    Which destinations the orchestrator may dial: the address table, the names
    that mean "inside", the gate of the calendar paths, which resolves a name
    and refuses it if any answer is inside, and the LAN-aware gate of the
    webhooks, which pins the vetted addresses.  The calendar client's fetch
    follows redirects by hand through the gate.  Looking up a name, reading the
    box's own networks and fetching are commands ([Prog]), so that nothing is
    assumed of what a resolver or a server answers; the URL parser is the class
    [UrlApi]. *)

From S2P Require Import Prelude JsNum DateTime DateText Prog NetAddress.

Local Open Scope Z_scope.

(** ** URLs and refusals *)

Record URL := mkURL {
  url_protocol : jsstr; url_username : jsstr; url_password : jsstr; url_hostname : jsstr; url_origin : jsstr; url_href : jsstr
}.

(** [new URL(text)] and [new URL(text, base)]; [None] where they throw. *)
Class UrlApi := { new_URL : jsstr -> option URL; new_URL_from : jsstr -> URL -> option URL }.

Inductive OutboundUrlRejection := R_malformed | R_scheme | R_userinfo | R_private_host | R_unresolvable | R_redirect.

(** [OutboundUrlBlockedError], or what something else threw. *)
Inductive GuardError := Blocked (reason : OutboundUrlRejection) (detail : jsstr) | Other.

(** ** The tables *)

Definition BLOCKED_RANGES : list rule :=
  subnets [("0.0.0.0", 8); ("10.0.0.0", 8); ("100.64.0.0", 10); ("127.0.0.0", 8); ("169.254.0.0", 16); ("172.16.0.0", 12);
           ("192.0.0.0", 24); ("192.168.0.0", 16); ("198.18.0.0", 15); ("224.0.0.0", 4); ("240.0.0.0", 4)]%string ++
  hosts ["::"; "::1"]%string ++
  subnets [("fc00::", 7); ("fe80::", 10); ("ff00::", 8); ("2002::", 16); ("64:ff9b::", 96)]%string.

Definition LAN_RANGES : list rule :=
  subnets [("10.0.0.0", 8); ("172.16.0.0", 12); ("192.168.0.0", 16); ("fc00::", 7)]%string.

Definition METADATA_ADDRESSES : list rule := hosts ["169.254.169.254"; "169.254.170.2"; "fd00:ec2::254"]%string.

Definition BLOCKED_HOST_SUFFIXES : list jsstr := js <$> [".local"; ".localhost"; ".internal"; ".home.arpa"]%string.
Definition BLOCKED_HOST_EXACT : list jsstr := js <$> ["localhost"; ""]%string.
Definition LAN_AWARE_BLOCKED_SUFFIXES : list jsstr := js <$> [".localhost"; ".internal"]%string.

(** ** Addresses and names *)

Definition stripBrackets (host : jsstr) : jsstr :=
  if startsWith [91%N] host && endsWith [93%N] host then reverse (tail (reverse (tail host))) else host.

Definition isBlockedAddress (addr : jsstr) : bool :=
  match parse_ip (stripBrackets (trim addr)) with None => true | Some a => check BLOCKED_RANGES a end.

Definition isBlockedHostname (host : jsstr) : bool :=
  let h := stripBrackets (toLowerCase (trim host)) in
  if bool_decide (h ∈ BLOCKED_HOST_EXACT) then true
  else if existsb (fun suffix => endsWith suffix h) BLOCKED_HOST_SUFFIXES then true
  else if isIP h =? 0 then false else isBlockedAddress h.

(** ** The structural gate *)

Section guard.
Context `{UrlApi}.

Definition assertOutboundUrlAllowed (raw : jsstr) (allowPrivateHost : bool) : result GuardError URL :=
  match new_URL (trim raw) with
  | None => Throw (Blocked R_malformed (js "not a parseable URL"))
  | Some url =>
      if negb (bool_decide (url_protocol url = js "http:")) && negb (bool_decide (url_protocol url = js "https:"))
      then Throw (Blocked R_scheme (url_protocol url ++ js "// is not http(s)"))
      else if negb (bool_decide (url_username url = [])) || negb (bool_decide (url_password url = []))
      then Throw (Blocked R_userinfo (js "credentials in the URL authority"))
      else if negb allowPrivateHost && isBlockedHostname (url_hostname url)
      then Throw (Blocked R_private_host (stripBrackets (url_hostname url)))
      else Ok url
  end.

(** ** The box's own networks *)

Record LocalNetworkFacts := mkFacts { lf_addresses : list jsstr; lf_cidrs : list jsstr }.

(** [Number(text)] where it is an integer, of [undefined], of white space and of
    signed decimal digits; the other notations of a number are read as none. *)
Definition number_of (text : option jsstr) : option Z :=
  match text with
  | None => None
  | Some t =>
      let digits s := if forallb digitb s && negb (Nat.eqb (length s) 0) then Some (digits_val s) else None in
      match trim t with
      | [] => Some 0
      | 45%N :: s => Z.opp <$> digits s
      | 43%N :: s => digits s
      | s => digits s
      end
  end.

(** The rule of a network; [Throw] where [addSubnet] does. *)
Definition cidr_rule (cidr : jsstr) : result GuardError (list rule) :=
  let parts := split_on 47 cidr in
  match parse_ip (before_first 37 (default [] (parts !! 0%nat))), number_of (parts !! 1%nat) with
  | Some a, Some bits => match addSubnet a bits with Some r => Ok [r] | None => Throw Other end
  | _, _ => Ok []
  end.

Fixpoint cidr_rules (cidrs : list jsstr) : result GuardError (list rule) :=
  match cidrs with
  | [] => Ok []
  | c :: cs => let! r := cidr_rule c in let! rs := cidr_rules cs in Ok (r ++ rs)
  end.

Definition localBlockList (local : LocalNetworkFacts) : result GuardError (list rule) :=
  let! nets := cidr_rules (lf_cidrs local) in
  Ok (omap (fun address => addAddress <$> parse_ip (before_first 37 address)) (lf_addresses local) ++ nets).

(** ** What an address means for egress *)

Inductive OutboundScope := LAN | PUBLIC.
Inductive AddressRefusalRule := unparseable | metadata | reserved | own_network.
Inductive AddressVerdict := Scope (s : OutboundScope) | Refused (r : AddressRefusalRule).

Definition classifyDestinationAddress (addr : jsstr) (local : LocalNetworkFacts) : result GuardError AddressVerdict :=
  match parse_ip (trim (before_first 37 (stripBrackets (trim addr)))) with
  | None => Ok (Refused unparseable)
  | Some a =>
      if check METADATA_ADDRESSES a then Ok (Refused metadata) else
      let isLan := check LAN_RANGES a in
      if check BLOCKED_RANGES a && negb isLan then Ok (Refused reserved) else
      let! own := localBlockList local in
      if check own a then Ok (Refused own_network) else Ok (Scope (if isLan then LAN else PUBLIC))
  end.

Definition rule_text (r : AddressRefusalRule) : jsstr :=
  match r with unparseable => js "unparseable" | metadata => js "metadata" | reserved => js "reserved" | own_network => js "own_network" end.

Definition refusedAddress (address : jsstr) (r : AddressRefusalRule) : GuardError :=
  Blocked R_private_host (address ++ js " (" ++ rule_text r ++ js ")").

Definition parseLanAwareUrl (raw : jsstr) : result GuardError (URL * jsstr) :=
  let! url := assertOutboundUrlAllowed raw true in
  let host := toLowerCase (stripBrackets (url_hostname url)) in
  if bool_decide (host = []) || bool_decide (host = js "localhost") || existsb (fun suffix => endsWith suffix host) LAN_AWARE_BLOCKED_SUFFIXES
  then Throw (Blocked R_private_host host) else Ok (url, host).

Definition assertLanOrPublicUrl (raw : jsstr) (local : LocalNetworkFacts) : result GuardError URL :=
  let! u := parseLanAwareUrl raw in
  let '(url, host) := u in
  if isIP host =? 0 then Ok url else
  let! verdict := classifyDestinationAddress host local in
  match verdict with Refused r => Throw (refusedAddress host r) | Scope _ => Ok url end.

(** ** Commands *)

Record Response := mkResponse { rs_status : Z; rs_location : option jsstr }.

(** [None] is a call that throws. *)
Inductive ncommand : Set -> Set :=
| Lookup (host : jsstr) : ncommand (option (list jsstr))
| LocalFacts : ncommand (option LocalNetworkFacts)
| Fetch (url : URL) (headers : list (jsstr * jsstr)) : ncommand (option Response).

Abbreviation nprog A := (prog ncommand (result GuardError A)).

(** The first address of the answers that is inside. *)
Definition first_blocked (addresses : list jsstr) : option jsstr := List.find isBlockedAddress addresses.

Definition assertOutboundDestinationAllowed (raw : jsstr) (allowPrivateHost : bool) : nprog URL :=
  match assertOutboundUrlAllowed raw allowPrivateHost with
  | Throw e => Ret (Throw e)
  | Ok url =>
      if allowPrivateHost then Ret (Ok url) else
      let host := stripBrackets (url_hostname url) in
      if negb (isIP host =? 0) then Ret (Ok url) else
      try_op (Lookup host) (Ret (Throw (Blocked R_unresolvable host))) (fun addresses =>
      match addresses with
      | [] => Ret (Throw (Blocked R_unresolvable host))
      | _ => match first_blocked addresses with
             | Some address => Ret (Throw (Blocked R_private_host address))
             | None => Ret (Ok url)
             end
      end)
  end.

(** ** The pinned destination *)

Record PinnedAddress := mkPinned { pa_address : jsstr; pa_family : Z }.
Record PinnedDestination := mkDestination {
  pd_url : URL; pd_hostname : jsstr; pd_addresses : list PinnedAddress; pd_scope : OutboundScope
}.

Definition pinned (address : jsstr) : PinnedAddress :=
  let bare := stripBrackets (trim address) in mkPinned bare (if isIP bare =? 6 then 6 else 4).

(** The loop over the answers, from the scope and the addresses so far. *)
Fixpoint vet_answers (local : LocalNetworkFacts) (answers : list jsstr) (scope : OutboundScope) (addresses : list PinnedAddress) :
    result GuardError (OutboundScope * list PinnedAddress) :=
  match answers with
  | [] => Ok (scope, addresses)
  | address :: rest =>
      let! verdict := classifyDestinationAddress address local in
      match verdict with
      | Refused r => Throw (refusedAddress address r)
      | Scope s => vet_answers local rest (match s with PUBLIC => PUBLIC | LAN => scope end) (addresses ++ [pinned address])
      end
  end.

Definition pin (url : URL) (host : jsstr) (local : LocalNetworkFacts) (answers : list jsstr) : result GuardError PinnedDestination :=
  let! v := vet_answers local answers LAN [] in
  Ok (mkDestination url host v.2 v.1).

Definition resolvePinnedDestination (raw : jsstr) : nprog PinnedDestination :=
  match parseLanAwareUrl raw with
  | Throw e => Ret (Throw e)
  | Ok (url, host) =>
      try_op LocalFacts (Ret (Throw Other)) (fun local =>
      if negb (isIP host =? 0) then Ret (pin url host local [host]) else
      try_op (Lookup host) (Ret (Throw (Blocked R_unresolvable host))) (fun answers =>
      match answers with
      | [] => Ret (Throw (Blocked R_unresolvable host))
      | _ => Ret (pin url host local answers)
      end))
  end.

(** ** The calendar client's fetch *)

Definition MAX_REDIRECT_HOPS : nat := 3.
Definition REDIRECT_STATUSES : list Z := [301; 302; 303; 307; 308].

Definition authorization (header : jsstr * jsstr) : bool := bool_decide (toLowerCase header.1 = js "authorization").

(** From the fetch of [target] on; [hops]: the redirects still followed. *)
Fixpoint follow (hops : nat) (vettedOrigin : jsstr) (allowPrivateHost : bool) (target : URL) (headers : list (jsstr * jsstr)) :
    nprog Response :=
  try_op (Fetch target headers) (Ret (Throw Other)) (fun resp =>
  match rs_location resp with
  | None | Some [] => Ret (Ok resp)
  | Some location =>
      if negb (bool_decide (rs_status resp ∈ REDIRECT_STATUSES)) then Ret (Ok resp) else
      match hops with
      | O => Ret (Throw (Blocked R_redirect (js "more than 3 hops")))
      | S hops =>
          match new_URL_from location target with
          | None => Ret (Throw (Blocked R_redirect (js "unparseable Location header")))
          | Some next =>
              pbind (assertOutboundDestinationAllowed (url_href next) allowPrivateHost) (fun vetted =>
              match vetted with
              | Throw e => Ret (Throw e)
              | Ok target =>
                  follow hops vettedOrigin allowPrivateHost target
                    (if bool_decide (url_origin target = vettedOrigin) then headers
                     else filter (fun h => authorization h = false) headers)
              end)
          end
      end
  end).

Definition fetchWithTimeout (url : jsstr) (allowPrivateHost : bool) (headers : list (jsstr * jsstr)) : nprog Response :=
  pbind (assertOutboundDestinationAllowed url allowPrivateHost) (fun vetted =>
  match vetted with
  | Throw e => Ret (Throw e)
  | Ok target => follow MAX_REDIRECT_HOPS (url_origin target) allowPrivateHost target headers
  end).
End guard.

(** ** The address space inside the boundary, as ranges *)

Definition quad (a b c d : Z) : Z := ((a * 256 + b) * 256 + c) * 256 + d.

Definition INSIDE_V4 : list (Z * Z) :=
  [(quad 0 0 0 0, quad 0 255 255 255); (quad 10 0 0 0, quad 10 255 255 255); (quad 100 64 0 0, quad 100 127 255 255);
   (quad 127 0 0 0, quad 127 255 255 255); (quad 169 254 0 0, quad 169 254 255 255); (quad 172 16 0 0, quad 172 31 255 255);
   (quad 192 0 0 0, quad 192 0 0 255); (quad 192 168 0 0, quad 192 168 255 255); (quad 198 18 0 0, quad 198 19 255 255);
   (quad 224 0 0 0, quad 239 255 255 255); (quad 240 0 0 0, quad 255 255 255 255)].

Definition INSIDE_V6 : list (Z * Z) :=
  [(0, 0); (1, 1); (0xfc00 * 2 ^ 112, 0xfe00 * 2 ^ 112 - 1); (0xfe80 * 2 ^ 112, 0xfec0 * 2 ^ 112 - 1); (0xff00 * 2 ^ 112, 2 ^ 128 - 1);
   (0x2002 * 2 ^ 112, 0x2003 * 2 ^ 112 - 1); (0x64ff9b * 2 ^ 96, 0x64ff9b * 2 ^ 96 + 2 ^ 32 - 1)].

Definition LAN_V4 : list (Z * Z) :=
  [(quad 10 0 0 0, quad 10 255 255 255); (quad 172 16 0 0, quad 172 31 255 255); (quad 192 168 0 0, quad 192 168 255 255)].
Definition LAN_V6 : list (Z * Z) := [(0xfc00 * 2 ^ 112, 0xfe00 * 2 ^ 112 - 1)].

Definition within (l : list (Z * Z)) (n : Z) : Prop := Exists (fun r => r.1 <= n <= r.2) l.

(** An IPv6 address that maps an IPv4 one is where that one is. *)
Definition within_both (l4 l6 : list (Z * Z)) (a : ipaddr) : Prop :=
  match a with
  | V4 n => within l4 n
  | V6 n => within l6 n \/ (MAPPED <= n < MAPPED + 2 ^ 32 /\ within l4 (n - MAPPED))
  end.

Definition inside : ipaddr -> Prop := within_both INSIDE_V4 INSIDE_V6.
Definition on_lan : ipaddr -> Prop := within_both LAN_V4 LAN_V6.

Definition spans (l : list rule) : list (Z * Z) := (fun r => (first_of r, last_of r)) <$> l.

Lemma check_spans l a : forallb (fun r => ru_prefix r <=? 128) l = true ->
  check l a = true <-> within (spans l) (bits128 a).
Proof.
  intros Hl. rewrite check_ranges.
  - unfold within, spans. by rewrite Exists_fmap.
  - apply Forall_forall. intros r Hr. rewrite forallb_forall in Hl. apply Z.leb_le, Hl. by apply list_elem_of_In.
Qed.

Definition shifted (l : list (Z * Z)) : list (Z * Z) := (fun r => (r.1 + MAPPED, r.2 + MAPPED)) <$> l.

(** IPv4 ranges, and IPv6 ranges without mapped addresses. *)
Definition apart (l4 l6 : list (Z * Z)) : bool :=
  forallb (fun r => (0 <=? r.1) && (r.2 <? 2 ^ 32)) l4 && forallb (fun r => (r.2 <? MAPPED) || (MAPPED + 2 ^ 32 <=? r.1)) l6.

Lemma within_shifted l n : within (shifted l) n <-> within l (n - MAPPED).
Proof. unfold within, shifted. rewrite Exists_fmap, !Exists_exists. cbn. split; intros (r & ? & ?); exists r; (split; [done|lia]). Qed.

Lemma within_split l4 l6 a : apart l4 l6 = true -> ip_range a -> within (shifted l4 ++ l6) (bits128 a) <-> within_both l4 l6 a.
Proof.
  intros Hap Ha. apply andb_prop in Hap as [H4 H6]. rewrite forallb_forall in H4, H6.
  unfold within at 1. rewrite Exists_app. fold (within (shifted l4) (bits128 a)) (within l6 (bits128 a)). rewrite within_shifted.
  destruct a as [n|n]; cbn [bits128 within_both ip_range] in *.
  - rewrite Z.add_simpl_l. split; [|by left]. intros [?|Hw]; [done|]. unfold within in Hw. apply Exists_exists in Hw as (r & Hr & Hw).
    apply list_elem_of_In, H6, orb_prop in Hr as [?%Z.ltb_lt|?%Z.leb_le]; lia.
  - split; [intros [Hw|?]; [right|by left]|intros [?|[_ ?]]; [by right|by left]]. split; [|done].
    unfold within in Hw. apply Exists_exists in Hw as (r & Hr & Hw).
    apply list_elem_of_In, H4, andb_prop in Hr as [?%Z.leb_le ?%Z.ltb_lt]. lia.
Qed.

Lemma blocked_inside a : ip_range a -> check BLOCKED_RANGES a = true <-> inside a.
Proof.
  intros Ha. rewrite check_spans by (by vm_compute).
  assert (Hs : spans BLOCKED_RANGES = shifted INSIDE_V4 ++ INSIDE_V6) by (by vm_compute). rewrite Hs.
  assert (Hap : apart INSIDE_V4 INSIDE_V6 = true) by (by vm_compute). exact (within_split INSIDE_V4 INSIDE_V6 a Hap Ha).
Qed.

Lemma lan_ranges a : ip_range a -> check LAN_RANGES a = true <-> on_lan a.
Proof.
  intros Ha. rewrite check_spans by (by vm_compute).
  assert (Hs : spans LAN_RANGES = shifted LAN_V4 ++ LAN_V6) by (by vm_compute). rewrite Hs.
  assert (Hap : apart LAN_V4 LAN_V6 = true) by (by vm_compute). exact (within_split LAN_V4 LAN_V6 a Hap Ha).
Qed.

(** ** What a vetted address is *)

(** The rules of the box's own addresses and networks. *)
Definition own_rule (local : LocalNetworkFacts) (r : rule) : Prop :=
  (exists address b, address ∈ lf_addresses local /\ parse_ip (before_first 37 address) = Some b /\ r = addAddress b) \/
  (exists cidr rs, cidr ∈ lf_cidrs local /\ cidr_rule cidr = Ok rs /\ r ∈ rs).

Definition own (local : LocalNetworkFacts) (a : ipaddr) : Prop := exists r, own_rule local r /\ covers r a = true.

(** The instance-metadata endpoints. *)
Definition METADATA : list Z := [MAPPED + quad 169 254 169 254; MAPPED + quad 169 254 170 2; 0xfd000ec2 * 2 ^ 96 + 0x254].

(** Where a vetted address is: neither the box nor an endpoint of instance
    metadata; on a LAN, or outside every range above. *)
Definition routable (local : LocalNetworkFacts) (a : ipaddr) (s : OutboundScope) : Prop :=
  ~ own local a /\ bits128 a ∉ METADATA /\ match s with LAN => on_lan a | PUBLIC => ~ inside a end.

Definition address_of (addr : jsstr) : option ipaddr := parse_ip (trim (before_first 37 (stripBrackets (trim addr)))).

Lemma cidr_rules_spec cidrs : match cidr_rules cidrs with
  | Ok rs => forall r, r ∈ rs <-> exists cidr ps, cidr ∈ cidrs /\ cidr_rule cidr = Ok ps /\ r ∈ ps
  | Throw _ => exists cidr e, cidr ∈ cidrs /\ cidr_rule cidr = Throw e
  end.
Proof.
  induction cidrs as [|c cs IH]; cbn [cidr_rules].
  - intros r. split; [by intros ?%elem_of_nil|]. by intros (? & ? & ?%elem_of_nil & _).
  - destruct (cidr_rule c) as [ps|e] eqn:Ec; cbn [rbind]; [|exists c, e; split; [left|done]].
    destruct (cidr_rules cs) as [rs|e]; cbn [rbind].
    + intros r. rewrite elem_of_app, IH. split.
      * intros [Hr|(c' & qs & Hc & Hq & Hr)]; [exists c, ps; split_and!; [left|done..]|exists c', qs; split_and!; [by right|done..]].
      * intros (c' & qs & [->|Hc]%elem_of_cons & Hq & Hr); [left; congruence|right; by exists c', qs].
    + destruct IH as (c' & e' & Hc & He). exists c', e'. split; [by right|done].
Qed.

Lemma localBlockList_spec local rs a : localBlockList local = Ok rs -> check rs a = true <-> own local a.
Proof.
  unfold localBlockList. pose proof (cidr_rules_spec (lf_cidrs local)) as Hc. destruct (cidr_rules (lf_cidrs local)) as [ns|]; [|done].
  intros [= <-]. unfold check. rewrite existsb_exists. unfold own, own_rule. split.
  - intros (r & Hr & Hcov). exists r. split; [|done]. apply list_elem_of_In, elem_of_app in Hr as [Hr|Hr]; [left|right; by apply Hc].
    apply list_elem_of_omap in Hr as (t & Ht & Hp). destruct (parse_ip (before_first 37 t)) as [b|] eqn:E; [|done].
    injection Hp as <-. by exists t, b.
  - intros (r & [(t & b & Ht & Hp & ->)|Hr] & Hcov).
    + exists (addAddress b). split; [|done]. apply list_elem_of_In, elem_of_app. left. apply list_elem_of_omap. exists t. by rewrite Hp.
    + exists r. split; [|done]. apply list_elem_of_In, elem_of_app. right. by apply Hc.
Qed.

Lemma metadata_spec a : ip_range a -> check METADATA_ADDRESSES a = true <-> bits128 a ∈ METADATA.
Proof.
  intros Ha. rewrite check_spans by (by vm_compute).
  let l := eval vm_compute in (spans METADATA_ADDRESSES) in change (spans METADATA_ADDRESSES) with l.
  unfold METADATA, quad, MAPPED. unfold within. rewrite !elem_of_cons, elem_of_nil, ?Exists_cons, ?Exists_nil. cbn [fst snd]. lia.
Qed.

Lemma within_mono l l' n : l ⊆ l' -> within l n -> within l' n.
Proof. unfold within. rewrite !Exists_exists. intros Hl (r & Hr & ?). exists r. split; [by apply Hl|done]. Qed.

Lemma lan_inside a : on_lan a -> inside a.
Proof.
  assert (H4 : LAN_V4 ⊆ INSIDE_V4) by (apply (bool_decide_unpack _); by vm_compute).
  assert (H6 : LAN_V6 ⊆ INSIDE_V6) by (apply (bool_decide_unpack _); by vm_compute).
  destruct a as [n|n]; cbn; [by apply within_mono|]. intros [?|[? ?]]; [left|right; split; [done|]]; by eapply within_mono.
Qed.

#[local] Opaque check BLOCKED_RANGES LAN_RANGES METADATA_ADDRESSES METADATA own inside on_lan.

(** The verdict, on every branch. *)
Lemma classify_spec addr local v : classifyDestinationAddress addr local = Ok v <->
  match address_of addr with
  | None => v = Refused unparseable
  | Some a =>
      (bits128 a ∈ METADATA /\ v = Refused metadata) \/
      (bits128 a ∉ METADATA /\ inside a /\ ~ on_lan a /\ v = Refused reserved) \/
      (bits128 a ∉ METADATA /\ (inside a -> on_lan a) /\ is_ok (localBlockList local) = true /\
       ((own local a /\ v = Refused own_network) \/ (exists s, routable local a s /\ v = Scope s)))
  end.
Proof.
  unfold classifyDestinationAddress, address_of. destruct (parse_ip _) as [a|] eqn:Ea; [|naive_solver].
  pose proof (parse_ip_range _ _ Ea) as Hr. pose proof (metadata_spec a Hr) as Hm. pose proof (blocked_inside a Hr) as Hb.
  pose proof (lan_ranges a Hr) as Hl. pose proof (fun rs => localBlockList_spec local rs a) as Ho. unfold routable.
  pose proof (lan_inside a) as Hsub.
  destruct (check METADATA_ADDRESSES a).
  { assert (bits128 a ∈ METADATA) by by apply Hm. split; [intros [= <-]; by left|]. intros [[_ ->]|[[]|[]]]; done. }
  assert (bits128 a ∉ METADATA) by by intros ?%Hm.
  destruct (check BLOCKED_RANGES a && negb (check LAN_RANGES a)) eqn:Ei.
  { apply andb_prop in Ei as [Hi%Hb Hnl%negb_true_iff]. assert (~ on_lan a) by (intros ?%Hl; congruence).
    split; [intros [= <-]; right; left; by split_and!|]. intros [[]|[(_ & _ & _ & ->)|(_ & Hx & _)]]; [done..|]. by apply Hx in Hi. }
  assert (Hsub' : inside a -> on_lan a).
  { intros Hi%Hb. apply Hl. rewrite Hi in Ei. by apply negb_false_iff in Ei. }
  destruct (localBlockList local) as [rs|e]; cbn [rbind is_ok]; cycle 1.
  { split; [done|]. intros [[]|[(_ & Hi & Hn & _)|(_ & _ & Hx & _)]]; [done| |done]. by apply Hsub' in Hi. }
  specialize (Ho rs eq_refl). destruct (check rs a).
  { assert (own local a) by by apply Ho. split; [intros [= <-]; right; right; split_and!; try done; by left|].
    intros [[]|[(_ & Hi & Hn & _)|(_ & _ & _ & [[_ ->]|(s & (Hno & _) & _)])]]; try done. by apply Hsub' in Hi. }
  assert (Hno : ~ own local a) by (intros ?%Ho; done).
  split.
  - intros [= <-]. right; right. split_and!; try done. right. eexists. split; [|done]. split_and!; try done.
    destruct (check LAN_RANGES a); [by apply Hl|]. intros Hi%Hsub'%Hl. done.
  - intros [[]|[(_ & Hi & Hn & _)|(_ & _ & _ & [[]|(s & (_ & _ & Hs) & ->)])]]; try done; [by apply Hsub' in Hi|].
    do 2 f_equal. destruct (check LAN_RANGES a), s; try done; [destruct Hs; by apply Hsub, Hl|by apply Hl in Hs].
Qed.

#[local] Transparent check BLOCKED_RANGES LAN_RANGES METADATA_ADDRESSES METADATA own inside on_lan.

(** ** The gates *)

Section gates.
Context `{UrlApi}.

(** What a URL must be whatever the destination. *)
Definition plain_http (url : URL) : Prop :=
  (url_protocol url = js "http:" \/ url_protocol url = js "https:") /\ url_username url = [] /\ url_password url = [].

Lemma assertOutboundUrlAllowed_ok raw allow url : assertOutboundUrlAllowed raw allow = Ok url <->
  new_URL (trim raw) = Some url /\ plain_http url /\ (allow = false -> isBlockedHostname (url_hostname url) = false).
Proof.
  unfold assertOutboundUrlAllowed, plain_http. destruct (new_URL (trim raw)) as [u|]; [|naive_solver].
  case_bool_decide; case_bool_decide; cbn [negb andb].
  all: try (case_bool_decide; case_bool_decide; cbn [negb orb]; try (destruct allow, (isBlockedHostname (url_hostname u)) eqn:E; cbn)).
  all: split; [intros [= <-]|intros ([= <-] & ([?|?] & ? & ?) & Hb)]; try done; try (split_and!; naive_solver).
  all: try specialize (Hb eq_refl); congruence.
Qed.

Lemma parseLanAwareUrl_ok raw url host : parseLanAwareUrl raw = Ok (url, host) ->
  new_URL (trim raw) = Some url /\ plain_http url /\ host = toLowerCase (stripBrackets (url_hostname url)) /\
  host <> [] /\ host <> js "localhost" /\ Forall (fun suffix => endsWith suffix host = false) LAN_AWARE_BLOCKED_SUFFIXES.
Proof.
  unfold parseLanAwareUrl. destruct (assertOutboundUrlAllowed raw true) as [u|] eqn:E; [|done]. cbn [rbind].
  apply assertOutboundUrlAllowed_ok in E as (Hu & Hp & _). case_match eqn:Eb; [done|]. intros [= <- <-].
  apply orb_false_iff in Eb as [[Hne Hnl]%orb_false_iff Hs]. rewrite bool_decide_eq_false in Hne, Hnl.
  split_and!; try done. apply Forall_forall. intros x Hx. apply not_true_iff_false. intros He.
  apply not_true_iff_false in Hs. apply Hs. apply existsb_exists. exists x. split; [by apply list_elem_of_In|done].
Qed.

(** *** The pinned destination *)

Lemma vet_answers_ok local answers : forall scope acc s l, vet_answers local answers scope acc = Ok (s, l) <->
  l = acc ++ (pinned <$> answers) /\
  (forall address, address ∈ answers -> exists t, classifyDestinationAddress address local = Ok (Scope t)) /\
  (s = PUBLIC <-> scope = PUBLIC \/ exists address, address ∈ answers /\ classifyDestinationAddress address local = Ok (Scope PUBLIC)).
Proof.
  induction answers as [|x answers IH]; intros scope acc s l; cbn [vet_answers].
  - rewrite app_nil_r. split.
    + intros [= <- <-]. split_and!; [done|by intros ? ?%elem_of_nil|]. split; [by left|]. by intros [?|(? & ?%elem_of_nil & _)].
    + intros (-> & _ & Hs). do 2 f_equal. destruct scope, s; try done; [destruct Hs as [Hs _]; destruct (Hs eq_refl) as [?|(? & ?%elem_of_nil & _)]; done|].
      assert (LAN = PUBLIC) by (apply Hs; by left). done.
  - destruct (classifyDestinationAddress x local) as [[t|r]|e] eqn:Ex; cbn [rbind].
    + rewrite IH. cbn [fmap list_fmap]. rewrite <- app_assoc. cbn [app]. split; intros (-> & Hall & Hs).
      * split_and!; [done|intros y [->|Hy]%elem_of_cons; [by exists t|by apply Hall]|]. rewrite Hs. split.
        -- destruct t; [|by intros _; right; exists x; split; [left|]]. intros [?|(y & ? & ?)]; [by left|right; exists y; split; [by right|done]].
        -- intros [->|(y & [->|Hy]%elem_of_cons & Hp)]; [left; by destruct t|left; rewrite Ex in Hp; by injection Hp as ->|right; by exists y].
      * split_and!; [done|intros y Hy; apply Hall; by right|]. rewrite Hs. split.
        -- intros [->|(y & [->|Hy]%elem_of_cons & Hp)]; [left; by destruct t|left; rewrite Ex in Hp; by injection Hp as ->|right; by exists y].
        -- destruct t; [|by intros _; right; exists x; split; [left|]]. intros [?|(y & ? & ?)]; [by left|right; exists y; split; [by right|done]].
    + split; [done|]. intros (_ & Hall & _). destruct (Hall x ltac:(left)) as [t Ht]. congruence.
    + split; [done|]. intros (_ & Hall & _). destruct (Hall x ltac:(left)) as [t Ht]. congruence.
Qed.

Lemma pin_ok url host local answers d : pin url host local answers = Ok d <->
  pd_url d = url /\ pd_hostname d = host /\ pd_addresses d = pinned <$> answers /\
  (forall address, address ∈ answers -> exists t, classifyDestinationAddress address local = Ok (Scope t)) /\
  (pd_scope d = PUBLIC <-> exists address, address ∈ answers /\ classifyDestinationAddress address local = Ok (Scope PUBLIC)).
Proof.
  unfold pin. destruct d as [u h l s]; cbn [pd_url pd_hostname pd_addresses pd_scope].
  destruct (vet_answers local answers LAN []) as [[s' l']|e] eqn:E; cbn [rbind fst snd].
  - pose proof E as E'. apply vet_answers_ok in E' as (-> & Hall & Hs). cbn [app] in *. split.
    + intros [= <- <- <- <-]. split_and!; try done. rewrite Hs. naive_solver.
    + intros (-> & -> & -> & _ & Hs'). assert (Hss : s' = PUBLIC <-> s = PUBLIC) by (rewrite Hs', Hs; naive_solver).
      do 2 f_equal. destruct Hss as [H1 H2]. destruct s, s'; try done; [by specialize (H1 eq_refl)|by specialize (H2 eq_refl)].
  - split; [done|]. intros (_ & _ & -> & Hall & Hs). enough (vet_answers local answers LAN [] = Ok (s, pinned <$> answers)) by congruence.
    apply vet_answers_ok. split_and!; try done. rewrite Hs. naive_solver.
Qed.
End gates.

(** ** Hosts that are addresses *)

Lemma strip_bracketed m : stripBrackets (91%N :: m ++ [93%N]) = m.
Proof.
  assert (E : reverse (91%N :: m ++ [93%N]) = 93%N :: reverse m ++ [91%N]) by by rewrite reverse_cons, reverse_app.
  unfold stripBrackets, endsWith. rewrite E. change (reverse [93%N]) with [93%N]. cbn [startsWith tail]. rewrite !N.eqb_refl. cbn [andb].
  rewrite reverse_app. change (reverse [93%N]) with [93%N]. cbn [app tail]. apply reverse_involutive.
Qed.

Lemma strip_plain c s : c <> 91%N -> stripBrackets (c :: s) = c :: s.
Proof. intros Hc. unfold stripBrackets. cbn [startsWith]. by rewrite (proj2 (N.eqb_neq _ _)). Qed.

Lemma strip_cases s : (exists m, s = 91%N :: m ++ [93%N]) \/ stripBrackets s = s.
Proof.
  unfold stripBrackets, endsWith. case_match eqn:E; [left|by right]. apply andb_prop in E as [[t ->]%startsWith_iff [r Hr]%startsWith_iff].
  change (reverse [93%N]) with [93%N] in Hr. cbn [app] in *. apply (f_equal reverse) in Hr. rewrite reverse_involutive, reverse_cons in Hr.
  destruct (reverse r) as [|c m]; cbn in Hr; [discriminate Hr|]. injection Hr as <- Ht. by exists m; rewrite Ht.
Qed.

Lemma no_spaces s : Forall addr_char s -> Forall (fun c => is_space c = false) s.
Proof. intros H. eapply Forall_impl; [exact H|]. apply addr_char_not_space. Qed.

(** An address that stands as the host of a URL is the same address in the
    lower-case name the rules are applied to. *)
Lemma literal_host s a : parse_ip (stripBrackets s) = Some a -> parse_ip (stripBrackets (toLowerCase (trim s))) = Some a.
Proof.
  intros Ha. pose proof (parse_ip_addr _ _ Ha) as Hc. destruct (strip_cases s) as [[m ->]|Hs].
  - rewrite strip_bracketed in *. rewrite trim_id by (constructor; [done|]; apply Forall_app; split; [by apply no_spaces|by constructor]).
    unfold toLowerCase. cbn [flat_map]. rewrite flat_map_app. fold (toLowerCase m). rewrite toLowerCase_lc by done.
    change (lower_unit 91 ++ (lc <$> m) ++ flat_map lower_unit [93%N]) with (91%N :: (lc <$> m) ++ [93%N]). by rewrite strip_bracketed, parse_ip_lc.
  - rewrite Hs in *. rewrite trim_id by by apply no_spaces. rewrite toLowerCase_lc by done. destruct s as [|c s]; [done|].
    apply Forall_cons in Hc as [Hc _]. cbn [fmap list_fmap]. rewrite strip_plain by apply (lc_addr_char c Hc).
    change (lc c :: (lc <$> s)) with (lc <$> (c :: s)). by rewrite parse_ip_lc.
Qed.

(** What the address table lets through denotes an address outside it. *)
Definition outside (text : jsstr) : Prop := exists a, parse_ip (stripBrackets (trim text)) = Some a /\ ~ inside a.

Lemma outside_iff text : isBlockedAddress text = false <-> outside text.
Proof.
  unfold isBlockedAddress, outside. destruct (parse_ip _) as [a|] eqn:E; [|naive_solver].
  rewrite <- not_true_iff_false, (blocked_inside a (parse_ip_range _ _ E)). naive_solver.
Qed.

Lemma outside_literal host a : parse_ip host = Some a -> outside host -> ~ inside a.
Proof.
  intros Ha (b & Hb & Hi). pose proof (parse_ip_addr _ _ Ha) as Hc. rewrite trim_id in Hb by by apply no_spaces.
  destruct host as [|c s]; [done|]. apply Forall_cons in Hc as [(_ & Hc & _) _]. rewrite strip_plain in Hb by done. congruence.
Qed.

(** The names that mean inside. *)
Definition inside_name (name : jsstr) : Prop :=
  name = [] \/ name = js "localhost" \/
  exists label suffix, suffix ∈ js <$> [".local"; ".localhost"; ".internal"; ".home.arpa"]%string /\ name = label ++ suffix.

Lemma hostname_passes host : isBlockedHostname host = false ->
  ~ inside_name (stripBrackets (toLowerCase (trim host))) /\ forall a, parse_ip (stripBrackets host) = Some a -> ~ inside a.
Proof.
  unfold isBlockedHostname. set (h := stripBrackets (toLowerCase (trim host))). case_bool_decide as He; [done|]. case_match eqn:Es; [done|]. intros Hip. split.
  - intros [->|[->|(label & suffix & Hs & Hh)]]; [apply He; right; left|apply He; left|].
    apply not_true_iff_false in Es. apply Es. apply existsb_exists. exists suffix. split; [by apply list_elem_of_In|]. apply endsWith_iff. by exists label.
  - intros a Ha%literal_host. fold h in Ha. apply (outside_literal h a Ha). apply outside_iff. unfold isIP in Hip. rewrite Ha in Hip. by destruct a.
Qed.

(** ** The calendar fetch *)

Section calendar.
Context `{UrlApi}.
Context (allowPrivateHost : bool) (typed_origin : jsstr).

(** What the gate has seen of a URL, on answers in [h]: unless private hosts are
    allowed it names nothing inside, and is an address outside, or a name that
    was looked up and whose answers, at least one, were all outside. *)
Definition vetted (h : list (event ncommand)) (url : URL) : Prop :=
  plain_http url /\
  (allowPrivateHost = false ->
     ~ inside_name (stripBrackets (toLowerCase (trim (url_hostname url)))) /\
     let host := stripBrackets (url_hostname url) in
     match parse_ip host with
     | Some a => ~ inside a
     | None => exists answers, Ev (Lookup host) (Some answers) ∈ h /\ answers <> [] /\ forall text, text ∈ answers -> outside text
     end).

Definition fetch_needs {X : Set} (h : list (event ncommand)) (c : ncommand X) : Prop :=
  match c with
  | Fetch url headers => vetted h url /\ (forall hd, hd ∈ headers -> authorization hd = true -> url_origin url = typed_origin)
  | _ => True
  end.

Lemma vetted_mono h h' url : h ⊆ h' -> vetted h url -> vetted h' url.
Proof.
  intros Hsub [Hp Hb]. split; [done|]. intros Ha. destruct (Hb Ha) as [Hh Hv]. split; [done|]. cbv zeta in *. destruct (parse_ip _); [done|].
  destruct Hv as (answers & Hin & ? & ?). exists answers. split_and!; [by apply Hsub|done..].
Qed.

#[local] Program Instance fetch_protocol : Protocol ncommand := {|
  history := list (event ncommand); hist_le := subseteq; needs := @fetch_needs; tells := fun X h c x => Ev c x ∈ h
|}.
Next Obligation. intros X h h' c Hle. destruct c; cbn; try done. intros [Hv Ho]. split; [by eapply vetted_mono|done]. Qed.

Definition gate_ok (raw : jsstr) (h : list (event ncommand)) (r : result GuardError URL) : Prop :=
  match r with Ok url => new_URL (trim raw) = Some url /\ vetted h url | Throw _ => True end.

Lemma first_blocked_none addresses : first_blocked addresses = None -> forall a, a ∈ addresses -> outside a.
Proof. intros Hn a Ha. apply outside_iff. by apply (List.find_none _ _ Hn), list_elem_of_In. Qed.

Lemma gate_safe raw h : safe (gate_ok raw) h (assertOutboundDestinationAllowed raw allowPrivateHost).
Proof.
  unfold assertOutboundDestinationAllowed. destruct (assertOutboundUrlAllowed raw allowPrivateHost) as [url|e] eqn:E; [|done].
  apply assertOutboundUrlAllowed_ok in E as (Hu & Hp & Hb).
  destruct allowPrivateHost eqn:Ea; [cbn; split; [done|]; split; [done|intros Hx; congruence]|].
  destruct (hostname_passes _ (Hb eq_refl)) as [Hname Hlit]. unfold isIP. destruct (parse_ip (stripBrackets (url_hostname url))) as [a|] eqn:Eip.
  { assert (Hz : (match a with V4 _ => 4 | V6 _ => 6 end =? 0) = false) by by destruct a. rewrite Hz. cbn. split; [done|]. split; [done|]. intros _.
    split; [done|]. cbv zeta. rewrite Eip. by apply Hlit. }
  apply safe_try; [done..|]. intros h' answers Hle Ht. destruct answers as [|a answers]; [done|].
  destruct (first_blocked (a :: answers)) eqn:Ef; [done|]. cbn [gate_ok safe]. split; [done|]. split; [done|]. intros _. split; [done|]. cbv zeta.
  rewrite Eip. exists (a :: answers). split_and!; [done..|]. by apply first_blocked_none.
Qed.

Definition any {A} (_ : list (event ncommand)) (_ : A) : Prop := True.

Lemma follow_safe hops : forall h target headers, vetted h target ->
  (forall hd, hd ∈ headers -> authorization hd = true -> url_origin target = typed_origin) ->
  safe any h (follow hops typed_origin allowPrivateHost target headers).
Proof.
  induction hops as [|hops IH]; intros h target headers Hv Ho; cbn [follow]; (apply safe_try; [by split|done|]); intros h1 resp Hle _.
  - destruct (rs_location resp) as [[|]|]; [done| |done]. by case_match.
  - destruct (rs_location resp) as [[|u location]|]; [done| |done]. case_match; [done|].
    destruct (new_URL_from (u :: location) target) as [next|]; [|done].
    eapply safe_bind; [apply gate_safe|]. intros h2 [url|e] Hle2 Hg; [|done]. destruct Hg as [_ Hg]. apply IH; [done|].
    destruct (decide (url_origin url = typed_origin)) as [Hor|Hor]; [by rewrite bool_decide_true|rewrite bool_decide_false by done]. intros hd [Hf _]%list_elem_of_filter Ht. congruence.
Qed.

Lemma fetch_runs url headers typed tr r : new_URL (trim url) = Some typed -> url_origin typed = typed_origin ->
  runs (fetchWithTimeout url allowPrivateHost headers) tr r ->
  forall pre target hds resp post, tr = pre ++ Ev (Fetch target hds) resp :: post ->
    vetted pre target /\ forall hd, hd ∈ hds -> authorization hd = true -> url_origin target = typed_origin.
Proof.
  intros Htyped Ho Hruns pre target hds resp post Htr.
  assert (Hsafe : safe any [] (fetchWithTimeout url allowPrivateHost headers)).
  { unfold fetchWithTimeout. eapply safe_bind; [apply gate_safe|]. intros h [u|e] _ Hg; [|done]. destruct Hg as [Hu Hv].
    assert (u = typed) as -> by congruence. rewrite Ho. by apply follow_safe. }
  assert (Hobs : forall t (X : Set) (c : ncommand X) x, hist_le t (t ++ [Ev c x]) /\ tells (t ++ [Ev c x]) c x).
  { intros t X c x. split; [apply list_subseteq_app_l; done|]. cbn. apply elem_of_app. right. left. }
  destruct (@safe_runs ncommand fetch_protocol _ (fun t => t) any Hobs _ _ _ Hruns [] Hsafe) as [Hn _]. exact (Hn pre _ post Htr).
Qed.
End calendar.

(** The fetches of a run. *)
Definition fetched (tr : list (event ncommand)) : list URL :=
  omap (fun e => match e with Ev c _ => match c with Fetch url _ => Some url | _ => None end end) tr.

Lemma fetched_app tr tr' : fetched (tr ++ tr') = fetched tr ++ fetched tr'.
Proof. apply omap_app. Qed.

Section counts.
Context `{UrlApi}.

Lemma gate_fetches raw allow tr r : runs (assertOutboundDestinationAllowed raw allow) tr r -> fetched tr = [].
Proof.
  unfold assertOutboundDestinationAllowed. case_match; [|by intros [-> _]]. case_match; [by intros [-> _]|]. case_match; [by intros [-> _]|].
  intros (x & tr' & -> & Hr). destruct x as [[|? ?]|]; [by destruct Hr as [-> _]| |by destruct Hr as [-> _]].
  case_match; by destruct Hr as [-> _].
Qed.

Lemma follow_fetches hops o allow : forall target headers tr r,
  runs (follow hops o allow target headers) tr r -> (length (fetched tr) <= S hops)%nat.
Proof.
  assert (Hcons : forall (c : ncommand (option Response)) x tr' n, (length (fetched tr') <= n)%nat -> (length (fetched (Ev c x :: tr')) <= S n)%nat).
  { intros c x tr' n Hn. change (Ev c x :: tr') with ([Ev c x] ++ tr'). rewrite fetched_app, length_app.
    enough (length (fetched [Ev c x]) <= 1)%nat by lia. unfold fetched. cbn. case_match; cbn; lia. }
  induction hops as [|hops IH]; intros target headers tr r; cbn [follow]; intros (x & tr' & -> & Hr); apply Hcons;
    (destruct x as [resp|]; [|(destruct Hr as [-> _]; cbn; lia)]); (destruct (rs_location resp) as [[|u location]|]; [(destruct Hr as [-> _]; cbn; lia)| |(destruct Hr as [-> _]; cbn; lia)]).
  - case_match; (destruct Hr as [-> _]; cbn; lia).
  - case_match; [destruct Hr as [-> _]; cbn; lia|]. destruct (new_URL_from (u :: location) target) as [next|]; [|destruct Hr as [-> _]; cbn; lia].
    apply runs_bind in Hr as (tr1 & tr2 & v & -> & Hg & Hf). rewrite fetched_app, (gate_fetches _ _ _ _ Hg). cbn [app].
    destruct v as [url|e]; [by apply IH in Hf|destruct Hf as [-> _]; cbn; lia].
Qed.
End counts.

(** ** The theorems *)

(** C4: the address table is exact.  A text is let through only if it denotes
    an address, and one outside every range that is inside the boundary: a
    dotted quad, in its one canonical spelling, outside loopback, private,
    carrier, link-local, protocol, benchmarking, multicast and reserved space;
    or an IPv6 text outside unspecified, loopback, unique-local, link-local,
    multicast, 6to4 and NAT64 space that does not map such a quad. *)
Theorem blocked_address_exact s :
  let bare := stripBrackets (trim s) in
  isBlockedAddress s = false <->
  (exists n, 0 <= n < 2 ^ 32 /\ bare = v4_text n /\ ~ within INSIDE_V4 n) \/
  (exists n, parse_ip bare = Some (V6 n) /\ 0 <= n < 2 ^ 128 /\ ~ within INSIDE_V6 n /\
             (MAPPED <= n < MAPPED + 2 ^ 32 -> ~ within INSIDE_V4 (n - MAPPED))).
Proof.
  intros bare. unfold isBlockedAddress. fold bare. destruct (parse_ip bare) as [a|] eqn:E; cycle 1.
  { split; [done|]. intros [(n & Hn & Hb & _)|(n & [=] & _)]. unfold parse_ip in E.
    by rewrite (proj2 (parse_v4_iff bare n) (conj Hn Hb)) in E. }
  pose proof (parse_ip_range _ _ E) as Hr. rewrite <- not_true_iff_false, (blocked_inside a Hr). split.
  - intros Hi. destruct a as [n|n]; [left|right]; exists n.
    + unfold parse_ip in E. destruct (parse_v4 bare) as [m|] eqn:Ev; [|destruct (parse_v6 bare); discriminate E]. injection E as ->.
      apply parse_v4_iff in Ev as [? ?]. split; [done|split; [done|]]. intros Hw. exact (Hi Hw).
    + split; [done|split; [exact Hr|split]]; [intros Hw; apply Hi; by left|intros Hm Hw; apply Hi; by right].
  - intros [(n & Hn & Hb & Hw)|(n & He & _ & H6 & H4)] Hi.
    + unfold parse_ip in E. rewrite (proj2 (parse_v4_iff bare n) (conj Hn Hb)) in E. injection E as <-. by apply Hw.
    + injection He as ->. destruct Hi as [?|[? ?]]; [done|by apply H4].
Qed.

(** C33: the calendar client dials only what its gate vetted.  Whatever the
    resolver and the servers answer, at every hop of a fetch the URL that is
    dialled is http or https without credentials; unless the owner allowed
    private hosts, its name is none of those that mean inside, and it is an
    address outside every inside range, or a name that was looked up before and
    whose answers, at least one, all denoted addresses outside them; a credential
    header goes to no origin but the one that was typed; and no run dials more
    than four times.  It is the answers of the gate's own lookup that are vetted:
    the fetch then resolves the name once more, and nothing here says what it is
    told, so a resolver that changes its answer in between is not stopped (the
    residual risk the module states, which only the pinned gate closes). *)
Theorem calendar_dials_only_vetted `{UrlApi} url allowPrivateHost headers tr r typed :
  new_URL (trim url) = Some typed -> runs (fetchWithTimeout url allowPrivateHost headers) tr r ->
  (forall pre target hds resp post, tr = pre ++ Ev (Fetch target hds) resp :: post ->
     vetted allowPrivateHost pre target /\
     forall hd, hd ∈ hds -> authorization hd = true -> url_origin target = url_origin typed) /\
  (length (fetched tr) <= 4)%nat.
Proof.
  intros Htyped Hruns. split.
  - by eapply fetch_runs.
  - unfold fetchWithTimeout in Hruns. apply runs_bind in Hruns as (tr1 & tr2 & v & -> & Hg & Hf).
    rewrite fetched_app, (gate_fetches _ _ _ _ Hg). destruct v; [by apply follow_fetches in Hf|destruct Hf as [-> _]; cbn; lia].
Qed.

(** What a destination is after the run [tr] of the send-time gate: its URL is
    http or https without credentials and does not name the box; its addresses
    are exactly the answers of the one lookup the gate made (or the literal), at
    least one, in order, so that nothing resolves the name a second time; every
    one of them denotes an address that is not the box's own, in none of its
    networks and no metadata endpoint, and that is on a LAN or outside every
    blocked range; and the destination counts as LAN only if all of them are. *)
Definition destination_vetted (tr : list (event ncommand)) (d : PinnedDestination) : Prop :=
  plain_http (pd_url d) /\ pd_hostname d <> js "localhost" /\
  exists local answers,
    (tr = [Ev LocalFacts (Some local)] /\ isIP (pd_hostname d) <> 0 /\ answers = [pd_hostname d] \/
     tr = [Ev LocalFacts (Some local); Ev (Lookup (pd_hostname d)) (Some answers)]) /\
    answers <> [] /\ pd_addresses d = pinned <$> answers /\
    (forall address, address ∈ answers -> exists a s, address_of address = Some a /\ routable local a s /\ (pd_scope d = LAN -> s = LAN)) /\
    (pd_scope d = PUBLIC -> exists address a, address ∈ answers /\ address_of address = Some a /\ routable local a PUBLIC).

Lemma pinned_destination_vetted `{UrlApi} raw tr d :
  runs (resolvePinnedDestination raw) tr (Ok d) -> destination_vetted tr d.
Proof.
  assert (Hclass : forall address local s, classifyDestinationAddress address local = Ok (Scope s) ->
    exists a, address_of address = Some a /\ routable local a s).
  { intros address local s Hc. apply classify_spec in Hc. destruct (address_of address) as [a|]; [|done]. exists a. split; [done|].
    destruct Hc as [[]|[(_ & _ & _ & ?)|(_ & _ & _ & [[]|(t & Ht & [= ->])])]]; done. }
  unfold resolvePinnedDestination, destination_vetted. destruct (parseLanAwareUrl raw) as [[url host]|e] eqn:Ep; [|by intros [_ [=]]].
  apply parseLanAwareUrl_ok in Ep as (_ & Hplain & _ & _ & Hnl & _).
  intros (lf & tr1 & -> & Hr). destruct lf as [local|]; [|by destruct Hr as [_ [=]]].
  assert (Hpin : forall answers, pin url host local answers = Ok d -> plain_http (pd_url d) /\ pd_hostname d = host /\ pd_addresses d = pinned <$> answers /\
    (forall address, address ∈ answers -> exists a s, address_of address = Some a /\ routable local a s /\ (pd_scope d = LAN -> s = LAN)) /\
    (pd_scope d = PUBLIC -> exists address a, address ∈ answers /\ address_of address = Some a /\ routable local a PUBLIC)).
  { intros answers (-> & -> & -> & Hall & Hpub)%pin_ok. split_and!; try done.
    - intros address Ha. destruct (Hall _ Ha) as [s Hs]. destruct (Hclass _ _ _ Hs) as (a & ? & ?). exists a, s. split_and!; try done.
      intros Hl. destruct s; [done|]. rewrite (proj2 Hpub (ex_intro _ address (conj Ha Hs))) in Hl. done.
    - intros (address & Ha & Hs)%Hpub. destruct (Hclass _ _ _ Hs) as (a & ? & ?). by exists address, a. }
  case_match eqn:Eip.
  - destruct Hr as [-> Hd]. destruct (Hpin _ (eq_sym Hd)) as (? & -> & ? & ? & ?). split_and!; [done..|]. exists local, [host].
    split_and!; try done. left. split_and!; try done. by apply negb_true_iff, Z.eqb_neq in Eip.
  - destruct Hr as (la & tr2 & -> & Hr). destruct la as [[|x answers]|]; [by destruct Hr as [_ [=]]| |by destruct Hr as [_ [=]]].
    destruct Hr as [-> Hd]. destruct (Hpin _ (eq_sym Hd)) as (? & -> & ? & ? & ?). split_and!; [done..|]. exists local, (x :: answers).
    split_and!; try done. by right.
Qed.

(** ** Small worlds *)

Definition plain_url (host path : string) : URL :=
  mkURL (js "http:") [] [] (js host) (js ("http://" ++ host)) (js ("http://" ++ host ++ path)).
Definition toy_urls : list URL :=
  [plain_url "cal.example" "/a"; plain_url "cdn.example" "/b"; plain_url "10.0.0.1" "/"; plain_url "nas.local" "/hook"].
Definition toy_find (s : jsstr) : option URL :=
  List.find (fun u => startsWith s (url_href u) && Nat.eqb (length s) (length (url_href u))) toy_urls.
#[local] Instance toy_UrlApi : UrlApi := {|
  new_URL := toy_find;
  new_URL_from := fun s _ => toy_find s
|}.

Lemma blocked_address_exact_witness :
  isBlockedAddress (js " 8.8.8.8 ") = false /\ isBlockedAddress (js "[::ffff:169.254.169.254]") = true /\
  ((exists n, 0 <= n < 2 ^ 32 /\ js "8.8.8.8" = v4_text n /\ ~ within INSIDE_V4 n) \/
   (exists n, parse_ip (js "8.8.8.8") = Some (V6 n) /\ 0 <= n < 2 ^ 128 /\ ~ within INSIDE_V6 n /\
             (MAPPED <= n < MAPPED + 2 ^ 32 -> ~ within INSIDE_V4 (n - MAPPED)))).
Proof. split; [by vm_compute|]. split; [by vm_compute|]. apply (blocked_address_exact (js "8.8.8.8")). by vm_compute. Defined.

(** A run from a list of answers. *)
Inductive answer := A_lookup (x : option (list jsstr)) | A_local (x : option LocalNetworkFacts) | A_fetch (x : option Response).

Definition answer_for {X : Set} (c : ncommand X) : answer -> option X :=
  match c in ncommand X return answer -> option X with
  | Lookup _ => fun a => match a with A_lookup x => Some x | _ => None end
  | LocalFacts => fun a => match a with A_local x => Some x | _ => None end
  | Fetch _ _ => fun a => match a with A_fetch x => Some x | _ => None end
  end.

Fixpoint replay {A} (p : prog ncommand A) (l : list answer) : option (list (event ncommand) * A) :=
  match p, l with
  | Ret a, [] => Some ([], a)
  | Op c k, x :: l =>
      match answer_for c x with
      | Some x => match replay (k x) l with Some (tr, a) => Some (Ev c x :: tr, a) | None => None end
      | None => None
      end
  | _, _ => None
  end.

Lemma replay_runs {A} (p : prog ncommand A) l tr a : replay p l = Some (tr, a) -> runs p tr a.
Proof.
  revert l tr. induction p as [b|X c k IH]; intros [|x l] tr; cbn; try done; [by intros [= <- <-]|].
  destruct (answer_for c x) as [y|]; [|done]. destruct (replay (k y) l) as [[tr' b]|] eqn:E; [|done].
  intros [= <- <-]. exists y, tr'. split; [done|]. by eapply IH.
Qed.

(** The feed moves to another host: that host is looked up and vetted, and is
    not sent the password. *)
Definition password : list (jsstr * jsstr) := [(js "Accept", js "text/calendar"); (js "Authorization", js "Basic x")].
Definition redirected : list (event ncommand) :=
  [Ev (Lookup (js "cal.example")) (Some [js "93.184.216.34"]);
   Ev (Fetch (plain_url "cal.example" "/a") password) (Some (mkResponse 302 (Some (js "http://cdn.example/b"))));
   Ev (Lookup (js "cdn.example")) (Some [js "93.184.216.35"; js "2606:4700:4700::1111"]);
   Ev (Fetch (plain_url "cdn.example" "/b") [(js "Accept", js "text/calendar")]) (Some (mkResponse 200 None))].

Lemma redirected_runs : runs (fetchWithTimeout (js "http://cal.example/a") false password) redirected (Ok (mkResponse 200 None)).
Proof.
  apply (replay_runs _ [A_lookup (Some [js "93.184.216.34"]); A_fetch (Some (mkResponse 302 (Some (js "http://cdn.example/b"))));
    A_lookup (Some [js "93.184.216.35"; js "2606:4700:4700::1111"]); A_fetch (Some (mkResponse 200 None))]).
  by vm_compute.
Defined.

Lemma calendar_dials_only_vetted_witness :
  runs (fetchWithTimeout (js "http://cal.example/a") false password) redirected (Ok (mkResponse 200 None)) /\
  (length (fetched redirected) <= 4)%nat /\
  vetted false (take 3 redirected) (plain_url "cdn.example" "/b").
Proof.
  pose proof (calendar_dials_only_vetted (js "http://cal.example/a") false password redirected (Ok (mkResponse 200 None)) (plain_url "cal.example" "/a")
    ltac:(by vm_compute) redirected_runs) as [Hv Hn].
  split; [exact redirected_runs|]. split; [exact Hn|].
  exact (proj1 (Hv (take 3 redirected) _ _ _ [] eq_refl)).
Defined.

(** A device of the LAN with an IPv4 and an IPv6 address; the box is 192.168.1.2. *)
Definition box_facts : LocalNetworkFacts := mkFacts [js "192.168.1.2"; js "172.18.0.5"] [js "172.18.0.5/16"; js "fe80::1%eth0/64"].
Definition nas_answers : list jsstr := [js "192.168.1.7"; js "fd12::7"].
Definition nas : PinnedDestination :=
  mkDestination (plain_url "nas.local" "/hook") (js "nas.local") [mkPinned (js "192.168.1.7") 4; mkPinned (js "fd12::7") 6] LAN.

Definition nas_lookup : list (event ncommand) := [Ev LocalFacts (Some box_facts); Ev (Lookup (js "nas.local")) (Some nas_answers)].

Lemma nas_runs : runs (resolvePinnedDestination (js "http://nas.local/hook")) nas_lookup (Ok nas).
Proof. apply (replay_runs _ [A_local (Some box_facts); A_lookup (Some nas_answers)]). by vm_compute. Qed.

(** ** A dot at the end of a name

    A name that ends in a dot is the same name, fully qualified.  The rules on
    names do not know it: the structural gate, which is all a source passes when
    it is saved, accepts [localhost.] and [printer.local.]; what such a name
    resolves to is still vetted when it is dialled. *)
Lemma trailing_dot_passes :
  isBlockedHostname (js "localhost") = true /\ isBlockedHostname (js "localhost.") = false /\
  isBlockedHostname (js "metadata.internal.") = false.
Proof. by vm_compute. Qed.
