(* ===== verification/Webhooks.v ===== *)
(** * Webhooks: telling other systems what changed, one attempt
      (apps/orchestrator/src/services/pm/webhook-delivery.service.ts, webhook-events.ts,
      webhook-signature.ts)

    An attempt at a delivery is a program ([Prog]): the checks, the SSRF guard of
    [OutboundGuard], the egress switch, the signature, the dial, and the outcome
    it writes.  [WebhookQueue] is the table it writes to.  Rendering a payload
    for a chat app and opening a sealed column are parameters. *)

From S2P Require Import Prelude JsNum Json Prog DateTime DateText NetAddress OutboundGuard.

Local Open Scope Z_scope.

(** ** Constants *)

Definition RETRY_DELAYS_MS : list Z := [60000; 5 * 60000; 30 * 60000; 2 * 3600000; 6 * 3600000; 12 * 3600000; 24 * 3600000].
Definition MAX_ATTEMPTS : Z := Z.of_nat (length RETRY_DELAYS_MS) + 1.
Definition DISABLE_AFTER_FAILURES : Z := 20.
Definition DELIVERY_EXPIRY_MS : Z := 48 * 3600000.
Definition DELIVERY_LEASE_MS : Z := 5 * 60000.
Definition BLOCKED_RECHECK_MS : Z := 60000.
Definition DELIVERY_BATCH : nat := 20.
Definition DELIVERY_RETENTION_MS : Z := 30 * 24 * 3600000.
Definition PM_WEBHOOK_LIMIT : nat := 50.

Definition E_EGRESS_BLOCKED : jsstr := js "Blocked by egress setting".
Definition E_DESTINATION_NOT_ALLOWED : jsstr := js "Destination not allowed".
Definition E_UNRESOLVABLE : jsstr := js "Could not find that host".
Definition E_UNREACHABLE : jsstr := js "Host unreachable".
Definition E_CONNECTION_REFUSED : jsstr := js "Connection refused".
Definition E_CONNECTION_RESET : jsstr := js "Connection reset".
Definition E_TIMED_OUT : jsstr := js "Timed out".
Definition E_TLS : jsstr := js "TLS certificate not trusted".
Definition E_COULD_NOT_CONNECT : jsstr := js "Could not connect".
Definition E_SECRET_UNREADABLE : jsstr := js "Signing secret could not be read".
Definition E_EXPIRED : jsstr := js "Expired before it could be delivered".
Definition E_WEBHOOK_OFF : jsstr := js "Webhook was turned off".

(** ** Data *)

Inductive HookStatus := ACTIVE | PAUSED | DISABLED_FAILING.
Inductive DeliveryStatus := PENDING | DELIVERED | FAILED | GIVEN_UP.

#[export] Instance HookStatus_eq_dec : EqDecision HookStatus.
Proof. solve_decision. Defined.
#[export] Instance DeliveryStatus_eq_dec : EqDecision DeliveryStatus.
Proof. solve_decision. Defined.

Record Hook := mkHook {
  hk_workspaceId : jsstr; hk_projectId : option jsstr; hk_name : jsstr; hk_urlEnc : jsstr; hk_format : jsstr; hk_secretEnc : jsstr;
  hk_events : list jsstr; hk_enabled : bool; hk_status : HookStatus; hk_failures : Z
}.

Record Delivery := mkDelivery {
  dv_webhookId : jsstr; dv_event : jsstr; dv_sourceKey : option jsstr; dv_payload : jsval; dv_status : DeliveryStatus;
  dv_attempts : Z; dv_nextAttemptAt : Z; dv_lastStatusCode : option Z; dv_lastError : option jsstr; dv_createdAt : Z;
  dv_deliveredAt : option Z
}.

(** [OWED] *)
Definition owed (r : Delivery) : bool := bool_decide (dv_status r = PENDING \/ dv_status r = FAILED).

(** The columns an outcome writes. *)
Record Write := mkWrite {
  wr_status : option DeliveryStatus; wr_attempts : option Z; wr_lastStatusCode : option (option Z);
  wr_lastError : option (option jsstr); wr_deliveredAt : option Z; wr_nextAttemptAt : Z
}.

Definition apply_write (w : Write) (r : Delivery) : Delivery :=
  mkDelivery (dv_webhookId r) (dv_event r) (dv_sourceKey r) (dv_payload r) (default (dv_status r) (wr_status w))
    (default (dv_attempts r) (wr_attempts w)) (wr_nextAttemptAt w) (default (dv_lastStatusCode r) (wr_lastStatusCode w))
    (default (dv_lastError r) (wr_lastError w)) (dv_createdAt r)
    (match wr_deliveredAt w with Some t => Some t | None => dv_deliveredAt r end).

(** ** Failures *)

(** What a failed call threw: the guard's refusal, or an error with a name and
    a code. *)
Inductive JsErr := Refusal (e : GuardError) | Failure (name code : jsstr).

(** [s.includes(p)], which the unanchored patterns are. *)
Fixpoint includes (p s : jsstr) : bool :=
  startsWith p s || match s with [] => false | _ :: r => includes p r end.

Definition describeFailure (err : JsErr) : jsstr :=
  match err with
  | Refusal (Blocked R_unresolvable _) => E_UNRESOLVABLE
  | Refusal (Blocked _ _) => E_DESTINATION_NOT_ALLOWED
  | Refusal Other => E_COULD_NOT_CONNECT
  | Failure name code =>
      let one_of l := existsb (fun p => includes (js p) code) l in
      if bool_decide (name = js "TimeoutError") || bool_decide (name = js "AbortError") || one_of ["TIMEOUT"; "TIMEDOUT"]%string
      then E_TIMED_OUT
      else if bool_decide (code = js "ECONNREFUSED") then E_CONNECTION_REFUSED
      else if bool_decide (code = js "ECONNRESET") || bool_decide (code = js "UND_ERR_SOCKET") then E_CONNECTION_RESET
      else if one_of ["CERT"; "TLS"; "SSL"; "SELF_SIGNED"; "ALTNAME"; "UNABLE_TO_VERIFY"]%string then E_TLS
      else if bool_decide (code = js "ENOTFOUND") || bool_decide (code = js "EAI_AGAIN") then E_UNRESOLVABLE
      else if bool_decide (code = js "EHOSTUNREACH") || bool_decide (code = js "ENETUNREACH") then E_UNREACHABLE
      else E_COULD_NOT_CONNECT
  end.

(** ** Events *)

Definition WORK_ITEM_EVENTS : list jsstr :=
  js <$> ["work_item.created"; "work_item.updated"; "work_item.state_changed"; "work_item.assigned"; "work_item.commented";
          "work_item.archived"]%string.
Definition WEBHOOK_TEST_EVENT : jsstr := js "webhook.test".
Definition isSubscribableEvent (name : jsstr) : bool := bool_decide (name ∈ WORK_ITEM_EVENTS).

(** [VERB_EVENT]: the verbs with an event of their own, those of
    [work_item.updated], and the one with none. *)
Definition OWN_VERBS : list jsstr := js <$> ["created"; "state_changed"; "assigned"; "commented"; "archived"]%string.
Definition UPDATED_VERBS : list jsstr :=
  js <$> ["updated"; "unassigned"; "priority_changed"; "due_date_changed"; "start_date_changed"; "type_changed"; "estimate_changed";
          "property_changed"; "title_changed"; "description_changed"; "label_added"; "label_removed"; "restored"; "cycle_added";
          "cycle_removed"; "parent_removed"; "module_added"; "module_removed"; "relation_added"; "relation_removed"; "sla_at_risk";
          "sla_breached"; "macro_applied"; "comment_edited"; "comment_deleted"; "watcher_added"; "watcher_removed"; "mentioned";
          "attachment_added"; "attachment_removed"; "external_link_added"; "time_logged"; "time_log_updated"; "time_log_removed"]%string.
Definition eventForVerb (verb : jsstr) : option jsstr :=
  if bool_decide (verb ∈ OWN_VERBS) then Some (js "work_item." ++ verb)
  else if bool_decide (verb ∈ UPDATED_VERBS) then Some (js "work_item.updated")
  else None.

Definition vetEvents (events : list jsstr) : option (list jsstr) :=
  let unique := reverse (remove_dups (reverse events)) in
  if bool_decide (unique = []) || negb (forallb isSubscribableEvent unique) then None else Some unique.

(** ** Commands *)

(** A database command answers [None] when it throws. *)
Inductive wcommand : Set -> Type :=
| Now : wcommand Z
| Net {X : Set} (c : ncommand X) : wcommand X
| Gate : wcommand (option bool)
| Send (dest : PinnedDestination) (headers : list (jsstr * jsstr)) (body : jsstr) : wcommand (result JsErr Z)
| Settle (id : jsstr) (w : Write) : wcommand (option unit)
| CountFailure (webhookId : jsstr) : wcommand (option unit)
| TurnOff (webhookId : jsstr) : wcommand (option Z)
| ForgiveFailures (webhookId : jsstr) : wcommand (option unit)
| NotifyAdmins (title body : jsstr) : wcommand unit.

Inductive DeliveryOutcome := O_delivered | O_retry | O_gave_up | O_blocked | O_expired | O_webhook_off.

(** An attempt; [None] when it throws. *)
Abbreviation wprog := (prog wcommand (option DeliveryOutcome)).

Section webhooks.
Context `{UrlApi}.
(** The sealed columns (column-crypto.service.ts), the chat-app renderings
    (webhook-formats.ts) and HMAC-SHA-256 in hexadecimal. *)
Context (openWebhookUrl openWebhookSecret : jsstr -> jsstr -> result JsErr jsstr).
Context (renderWebhookBody : jsstr -> jsval -> jsstr) (hmac_hex : jsstr -> jsstr -> jsstr).

Definition signWebhookBody (secret body : jsstr) (timestampSeconds : Z) : jsstr :=
  js "t=" ++ int_str timestampSeconds ++ js ",v1=" ++ hmac_hex secret (int_str timestampSeconds ++ js "." ++ body).

(** ** One attempt *)

Section attempt.
Context (id : jsstr) (delivery : Delivery) (hook : Hook) (test : bool).

Definition settle (w : Write) (k : wprog) : wprog := try_op (Settle id w) (Ret None) (fun _ => k).

Definition giveUp (now : Z) (lastError : jsstr) (outcome : DeliveryOutcome) : wprog :=
  settle (mkWrite (Some GIVEN_UP) None None (Some (Some lastError)) None now) (Ret (Some outcome)).

Definition short_name (name : jsstr) : jsstr := if (Nat.ltb 60 (length name)) then take 59 name ++ [8230%N] else name.

Definition recordWebhookFailure (k : wprog) : wprog :=
  try_op (CountFailure (dv_webhookId delivery)) (Ret None) (fun _ =>
  try_op (TurnOff (dv_webhookId delivery)) (Ret None) (fun off =>
  if negb (off =? 1) then k else
  _n <~ NotifyAdmins (js "Work notifications turned off: " ++ short_name (hk_name hook))
          (js "Droplet could not deliver to this destination 20 times in a row, so it stopped sending. Check the address, then turn it back on under Settings, Integrations, Work notifications.");
  k)).

Definition fail (now : Z) (lastError : jsstr) (statusCode : option Z) : wprog :=
  let attempts := dv_attempts delivery + 1 in
  let exhausted := test || (MAX_ATTEMPTS <=? attempts) in
  settle (mkWrite (Some (if exhausted then GIVEN_UP else FAILED)) (Some attempts) (Some statusCode) (Some (Some lastError)) None
            (if exhausted then now else now + default 0 (RETRY_DELAYS_MS !! Z.to_nat (attempts - 1))))
    (let out := Ret (Some (if exhausted then O_gave_up else O_retry)) in
     if test then out else recordWebhookFailure out).

Definition blocked (now : Z) : wprog :=
  settle (if test then mkWrite (Some GIVEN_UP) None None (Some (Some E_EGRESS_BLOCKED)) None now
          else mkWrite None None None (Some (Some E_EGRESS_BLOCKED)) None (now + BLOCKED_RECHECK_MS))
    (Ret (Some O_blocked)).

Definition headers_of (now : Z) (secret body : jsstr) : list (jsstr * jsstr) :=
  [(js "content-type", js "application/json"); (js "user-agent", js "Droplet-Webhooks/1");
   (js "x-droplet-event", dv_event delivery); (js "x-droplet-delivery", id);
   (js "x-droplet-signature", signWebhookBody secret body (now / 1000))].

(** From the signature on. *)
Definition dial (now : Z) (dest : PinnedDestination) : wprog :=
  match openWebhookSecret (dv_webhookId delivery) (hk_secretEnc hook) with
  | Throw _ => fail now E_SECRET_UNREADABLE None
  | Ok secret =>
      let body := renderWebhookBody (hk_format hook) (dv_payload delivery) in
      sent <~ Send dest (headers_of now secret body) body;
      match sent with
      | Throw err => fail now (describeFailure err) None
      | Ok status =>
          if (status <? 200) || (300 <=? status) then fail now (js "HTTP " ++ int_str status) (Some status) else
          settle (mkWrite (Some DELIVERED) (Some (dv_attempts delivery + 1)) (Some (Some status)) (Some None) (Some now) now)
            (if test then Ret (Some O_delivered)
             else try_op (ForgiveFailures (dv_webhookId delivery)) (Ret None) (fun _ => Ret (Some O_delivered)))
      end
  end.

Definition gated (now : Z) (dest : PinnedDestination) : wprog :=
  match pd_scope dest with
  | LAN => dial now dest
  | PUBLIC => try_op Gate (Ret None) (fun on => if (on : bool) then dial now dest else blocked now)
  end.

Definition attemptDelivery : wprog :=
  now <~ Now;
  if negb test && (DELIVERY_EXPIRY_MS <? now - dv_createdAt delivery) then giveUp now E_EXPIRED O_expired
  else if negb test && negb (bool_decide (hk_status hook = ACTIVE)) then giveUp now E_WEBHOOK_OFF O_webhook_off
  else match openWebhookUrl (dv_webhookId delivery) (hk_urlEnc hook) with
       | Throw err => fail now (describeFailure err) None
       | Ok url =>
           pbind (plift (fun X c => Net c) (resolvePinnedDestination url)) (fun resolved =>
           match resolved with
           | Throw e => fail now (describeFailure (Refusal e)) None
           | Ok dest => gated now dest
           end)
       end.
End attempt.
End webhooks.

(** ** What an attempt does *)

(** The events of the guard, as events of the attempt. *)
Definition net_events (tr : list (event ncommand)) : list (event wcommand) :=
  (fun e => match e with Ev c x => Ev (Net c) x end) <$> tr.


Definition sent_of (e : event wcommand) : option (PinnedDestination * list (jsstr * jsstr) * jsstr) :=
  match e with Ev c _ => match c with Send dest headers body => Some (dest, headers, body) | _ => None end end.

Definition is_send (e : event wcommand) : bool := bool_decide (is_Some (sent_of e)).

Lemma runs_lift {A} (p : prog ncommand A) tr a :
  runs (plift (fun X c => Net c) p) tr a -> exists tr', tr = net_events tr' /\ runs p tr' a.
Proof.
  revert tr. induction p as [b|X c k IH]; intros tr; cbn.
  - intros [-> ->]. by exists [].
  - intros (x & tr1 & -> & (tr' & -> & Hr)%IH). exists (Ev c x :: tr'). split; [done|]. by exists x, tr'.
Qed.

Lemma net_events_no_send tr e : e ∈ net_events tr -> is_send e = false.
Proof. intros ([X c x] & -> & _)%list_elem_of_fmap. done. Qed.

Section attempt_runs.
Context `{UrlApi}.
Context (openWebhookUrl openWebhookSecret : jsstr -> jsstr -> result JsErr jsstr).
Context (renderWebhookBody : jsstr -> jsval -> jsstr) (hmac_hex : jsstr -> jsstr -> jsstr).
Context (id : jsstr) (delivery : Delivery) (hook : Hook) (test : bool).

(** A run, and a program, without a dial. *)
Definition quiet (tr : list (event wcommand)) : Prop := forall e, e ∈ tr -> is_send e = false.

Fixpoint silent {A} (p : prog wcommand A) : Prop :=
  match p with Ret _ => True | @Op _ _ X c k => (forall x : X, is_send (Ev c x) = false) /\ forall x, silent (k x) end.

Lemma quiet_cons e tr : is_send e = false -> quiet tr -> quiet (e :: tr).
Proof. intros He Ht e' [->|Hin]%elem_of_cons; [done|by apply Ht]. Qed.

Lemma silent_quiet {A} (p : prog wcommand A) tr o : silent p -> runs p tr o -> quiet tr.
Proof.
  revert tr. induction p as [a|X c k IH]; intros tr Hp; [by intros [-> _] e He%elem_of_nil|].
  destruct Hp as [Hc Hk]. intros (x & tr' & -> & Hr). apply quiet_cons; [apply Hc|by eapply IH].
Qed.

Lemma silent_try {X : Set} (c : wcommand (option X)) (k : X -> wprog) :
  (forall x, is_send (Ev c x) = false) -> (forall x, silent (k x)) -> silent (try_op c (Ret None) k).
Proof. intros Hc Hk. split; [done|]. intros [x|]; [apply Hk|done]. Qed.

Lemma fail_silent now e code : silent (fail id delivery hook test now e code).
Proof.
  apply silent_try; [done|]. intros _. cbv zeta. destruct test; [done|]. unfold recordWebhookFailure.
  apply silent_try; [done|]. intros _. apply silent_try; [done|]. intros n. by case_match.
Qed.

(** What the egress switch is asked before a dial. *)
Definition switch_events (dest : PinnedDestination) : list (event wcommand) :=
  match pd_scope dest with PUBLIC => [Ev Gate (Some true)] | LAN => [] end.

(** A dial: before it nothing is sent, after it nothing is sent again. *)
Definition dialled (tr : list (event wcommand)) (now : Z) (dest : PinnedDestination) : Prop :=
  quiet tr \/ exists secret r post,
    openWebhookSecret (dv_webhookId delivery) (hk_secretEnc hook) = Ok secret /\ quiet post /\
    let body := renderWebhookBody (hk_format hook) (dv_payload delivery) in
    tr = Ev (Send dest (headers_of hmac_hex id delivery now secret body) body) r :: post.

Lemma dial_runs now dest tr o :
  runs (dial openWebhookSecret renderWebhookBody hmac_hex id delivery hook test now dest) tr o -> dialled tr now dest.
Proof.
  unfold dial, dialled. destruct (openWebhookSecret _ _) as [a|e] eqn:Es; [|intros Hr; left; by eapply silent_quiet, Hr; apply fail_silent].
  intros (r & post & -> & Hr). right. exists a, r, post. split; [done|]. split; [|done]. eapply silent_quiet, Hr.
  destruct r as [status|err]; [|apply fail_silent]. case_match; [apply fail_silent|]. apply silent_try; [done|]. intros _.
  destruct test; [done|]. by apply silent_try.
Qed.

Lemma gated_runs now dest tr o :
  runs (gated openWebhookSecret renderWebhookBody hmac_hex id delivery hook test now dest) tr o ->
  quiet tr \/ exists tr', tr = switch_events dest ++ tr' /\ dialled tr' now dest.
Proof.
  unfold gated, switch_events. destruct (pd_scope dest).
  - intros Hr%dial_runs. right. by exists tr.
  - intros (on & tr' & -> & Hr). destruct on as [[]|].
    + right. exists tr'. split; [done|by apply dial_runs in Hr].
    + left. apply quiet_cons; [done|]. eapply silent_quiet, Hr. by apply silent_try.
    + left. apply quiet_cons; [done|]. by eapply silent_quiet, Hr.
Qed.

(** A dial at the end of [pre] is lawful: the attempt read the clock, vetted the
    destination just now, asked the switch if it leaves the LAN, and did nothing
    else; unless it is a test, the webhook was on and the event fresh; and the
    bytes sent are the payload's, under a signature of those very bytes. *)
Definition lawful_dial (pre : list (event wcommand)) (dest : PinnedDestination) (headers : list (jsstr * jsstr)) (body : jsstr) : Prop :=
  exists now url secret net,
    openWebhookUrl (dv_webhookId delivery) (hk_urlEnc hook) = Ok url /\
    openWebhookSecret (dv_webhookId delivery) (hk_secretEnc hook) = Ok secret /\
    pre = Ev Now now :: net_events net ++ switch_events dest /\
    runs (resolvePinnedDestination url) net (Ok dest) /\ destination_vetted net dest /\
    (test = false -> hk_status hook = ACTIVE /\ now - dv_createdAt delivery <= 48 * 60 * 60 * 1000) /\
    body = renderWebhookBody (hk_format hook) (dv_payload delivery) /\
    (js "x-droplet-signature", js "t=" ++ int_str (now / 1000) ++ js ",v1=" ++ hmac_hex secret (int_str (now / 1000) ++ js "." ++ body)) ∈ headers.

Lemma quiet_app tr tr' : quiet tr -> quiet tr' -> quiet (tr ++ tr').
Proof. intros H1 H2 e [?|?]%elem_of_app; [by apply H1|by apply H2]. Qed.

Lemma quiet_net net : quiet (net_events net).
Proof. intros e. apply net_events_no_send. Qed.

Lemma switch_quiet dest : quiet (switch_events dest).
Proof. unfold switch_events. case_match; intros e He; [by apply elem_of_nil in He|by apply list_elem_of_singleton in He as ->]. Qed.

(** The runs of an attempt. *)
Lemma attempt_shape tr o :
  runs (attemptDelivery openWebhookUrl openWebhookSecret renderWebhookBody hmac_hex id delivery hook test) tr o ->
  quiet tr \/ exists now url secret net dest r post,
    let body := renderWebhookBody (hk_format hook) (dv_payload delivery) in
    tr = (Ev Now now :: net_events net ++ switch_events dest) ++ Ev (Send dest (headers_of hmac_hex id delivery now secret body) body) r :: post /\
    openWebhookUrl (dv_webhookId delivery) (hk_urlEnc hook) = Ok url /\
    openWebhookSecret (dv_webhookId delivery) (hk_secretEnc hook) = Ok secret /\
    runs (resolvePinnedDestination url) net (Ok dest) /\
    (test = false -> hk_status hook = ACTIVE /\ now - dv_createdAt delivery <= DELIVERY_EXPIRY_MS) /\ quiet post.
Proof.
  intros (now & tr1 & -> & Hr). destruct (negb test && _) eqn:Eold.
  { left. apply quiet_cons; [done|]. eapply silent_quiet, Hr. by apply silent_try. }
  destruct (negb test && negb _) eqn:Eoff.
  { left. apply quiet_cons; [done|]. eapply silent_quiet, Hr. by apply silent_try. }
  destruct (openWebhookUrl _ _) as [url|err] eqn:Eu.
  2: { left. apply quiet_cons; [done|]. eapply silent_quiet, Hr. apply fail_silent. }
  apply runs_bind in Hr as (trn & trd & res & -> & (net & -> & Hnet)%runs_lift & Hr). destruct res as [dest|e].
  2: { left. apply quiet_cons; [done|]. apply quiet_app; [apply quiet_net|]. eapply silent_quiet, Hr. apply fail_silent. }
  apply gated_runs in Hr as [Hq|(tr2 & -> & [Hq|(secret & r & post & Es & Hq & ->)])].
  1,2: left; apply quiet_cons; [done|]; apply quiet_app; [apply quiet_net|]; [done || (apply quiet_app; [apply switch_quiet|done])].
  right. exists now, url, secret, net, dest, r, post. split_and!; try done.
  - cbn. by rewrite <- app_assoc.
  - intros ->. cbn in Eold, Eoff. apply negb_false_iff, bool_decide_eq_true in Eoff. split; [done|lia].
Qed.

(** The first dial of a run that begins quietly. *)
Lemma quiet_split a b pre (e : event wcommand) c post :
  quiet a -> quiet c -> is_send e = true -> a ++ b :: c = pre ++ e :: post -> pre = a /\ e = b /\ post = c.
Proof.
  revert pre. induction a as [|x a IH]; intros pre Ha Hc He Heq; destruct pre as [|y pre]; cbn in Heq; injection Heq as -> Heq.
  - by subst.
  - exfalso. rewrite (Hc e) in He; [done|]. rewrite Heq. apply elem_of_app. right. by left.
  - rewrite (Ha e) in He; [done|]. by left.
  - apply IH in Heq as (-> & -> & ->); [done| |done..]. intros e' ?. apply Ha. by right.
Qed.
End attempt_runs.

(** C23: whatever the outside answers, an attempt sends at most once, and only
    to a destination vetted just before.  In every run of an attempt, what
    precedes a dial is the clock, the send-time gate on the webhook's opened
    URL, which answered with the very destination dialled, all of its addresses
    vetted, and, unless that is wholly on the LAN, the egress switch, which said
    yes; unless it is a test the webhook was active and the event at most 48
    hours old; the request carries the signature, under the webhook's opened
    secret, of the exact body sent; and nothing is dialled after. *)
Theorem attempt_dials_vetted `{UrlApi} openUrl openSecret render hmac id delivery hook test tr o pre dest headers body r post :
  runs (attemptDelivery openUrl openSecret render hmac id delivery hook test) tr o ->
  tr = pre ++ Ev (Send dest headers body) r :: post ->
  lawful_dial openUrl openSecret render hmac delivery hook test pre dest headers body /\
  forall e, e ∈ post -> is_send e = false.
Proof.
  intros Hr Htr.
  assert (Hnot : forall tr', quiet tr' -> tr = tr' -> False).
  { intros tr' Hq ->. specialize (Hq (Ev (Send dest headers body) r)). rewrite Htr in Hq. discriminate Hq. apply elem_of_app. right. by left. }
  apply attempt_shape in Hr as [Hq|(now & url & secret & net & dest' & r' & post' & -> & Eu & Es & Hnet & Hfresh & Hq)]; [by destruct (Hnot tr)|].
  apply quiet_split in Htr as (-> & Hev & ->); [|by apply quiet_cons; [|apply quiet_app; [apply quiet_net|apply switch_quiet]]|done..].
  apply (f_equal sent_of) in Hev. injection Hev as -> -> ->. split; [|done]. exists now, url, secret, net. split_and!; try done.
  - by eapply pinned_destination_vetted.
  - by do 4 right; left.
Qed.

(** ** A run: one event, refused by a box of the LAN *)

#[local] Existing Instance toy_UrlApi.

Definition toy_open (_ _ : jsstr) : result JsErr jsstr := Ok (js "http://nas.local/hook").
Definition toy_secret (_ _ : jsstr) : result JsErr jsstr := Ok (js "whsec").
Definition toy_render (_ : jsstr) (_ : jsval) : jsstr := js "{}".
Definition toy_hmac (k b : jsstr) : jsstr := k ++ b.
Definition nas_delivery : Delivery := 
  mkDelivery (js "h1") (js "work_item.created") (Some (js "activity:a1")) JNull PENDING 0 0 None None 0 None.
Definition nas_webhook : Hook := mkHook (js "home") None (js "NAS") (js "sealed") (js "generic") (js "sealed") [js "work_item.created"] true ACTIVE 0.
Definition nas_headers : list (jsstr * jsstr) := headers_of toy_hmac (js "d1") nas_delivery 60000 (js "whsec") (js "{}").
Definition nas_run : list (event wcommand) :=
  Ev Now 60000 :: net_events nas_lookup ++ [Ev (Send nas nas_headers (js "{}")) (Ok 500);
    Ev (Settle (js "d1") (mkWrite (Some FAILED) (Some 1) (Some (Some 500)) (Some (Some (js "HTTP 500"))) None 120000)) None].

Lemma lift_runs {A} (p : prog ncommand A) tr a : runs p tr a -> runs (plift (fun X c => Net c) p) (net_events tr) a.
Proof. revert tr. induction p as [b|X c k IH]; cbn; [by intros tr [-> ->]|]. intros tr (x & tr' & -> & Hr). exists x, (net_events tr'). split; [done|by apply IH]. Qed.

Lemma attempt_dials_vetted_witness :
  runs (attemptDelivery toy_open toy_secret toy_render toy_hmac (js "d1") nas_delivery nas_webhook false) nas_run None /\
  lawful_dial toy_open toy_secret toy_render toy_hmac nas_delivery nas_webhook false (take 3 nas_run) nas nas_headers (js "{}").
Proof.
  assert (Hfresh : negb false && (DELIVERY_EXPIRY_MS <? 60000 - dv_createdAt nas_delivery) = false) by by vm_compute.
  assert (Hon : negb false && negb (bool_decide (hk_status nas_webhook = ACTIVE)) = false) by by vm_compute.
  assert (Hr : runs (attemptDelivery toy_open toy_secret toy_render toy_hmac (js "d1") nas_delivery nas_webhook false) nas_run None).
  { exists 60000, (tail nas_run). split; [reflexivity|]. rewrite Hfresh, Hon. apply runs_bind.
    exists (net_events nas_lookup), (drop 3 nas_run), (Ok nas). split; [reflexivity|]. split; [by apply lift_runs, nas_runs|].
    eexists _, _. split; [reflexivity|]. eexists _, _. split; [reflexivity|]. by split. }
  split; [exact Hr|].
  exact (proj1 (attempt_dials_vetted toy_open toy_secret toy_render toy_hmac (js "d1") nas_delivery nas_webhook false nas_run None
    (take 3 nas_run) nas nas_headers (js "{}") (Ok 500) (drop 4 nas_run) Hr eq_refl)).
Defined.
