(* ===== verification/WebhookQueue.v ===== *)
(** * WebhookQueue: the deliveries, from the event to the outcome
      (apps/orchestrator/src/services/pm/webhook-delivery.service.ts, webhook-fanout.ts,
      pm-webhook.service.ts)

    The table of deliveries is the queue: fan-out writes rows, the worker claims
    and leases what is due, and each attempt of [Webhooks] settles its row.
    [WhMachine] runs any number of attempts, of several workers and of the "send
    test" button, beside the fan-out, the management operations, failing commands
    and crashes. *)

From S2P Require Import Prelude JsNum Json Prog DateTime DateText NetAddress OutboundGuard Webhooks.

Local Open Scope Z_scope.

(** ** The tables *)

(** [ww_ids] are the identifiers drawn so far. *)
Record WhWorld := mkWhWorld {
  ww_now : Z; ww_hooks : gmap jsstr Hook; ww_deliveries : gmap jsstr Delivery; ww_ids : list jsstr
}.

Definition set_hooks (h : gmap jsstr Hook) (w : WhWorld) : WhWorld := mkWhWorld (ww_now w) h (ww_deliveries w) (ww_ids w).
Definition set_deliveries (d : gmap jsstr Delivery) (w : WhWorld) : WhWorld := mkWhWorld (ww_now w) (ww_hooks w) d (ww_ids w).
Definition draw (ids : list jsstr) (w : WhWorld) : WhWorld := mkWhWorld (ww_now w) (ww_hooks w) (ww_deliveries w) (ids ++ ww_ids w).

Definition set_failures (n : Z) (h : Hook) : Hook :=
  mkHook (hk_workspaceId h) (hk_projectId h) (hk_name h) (hk_urlEnc h) (hk_format h) (hk_secretEnc h) (hk_events h) (hk_enabled h) (hk_status h) n.
Definition set_status (enabled : bool) (s : HookStatus) (h : Hook) : Hook :=
  mkHook (hk_workspaceId h) (hk_projectId h) (hk_name h) (hk_urlEnc h) (hk_format h) (hk_secretEnc h) (hk_events h) enabled s (hk_failures h).
Definition set_next (t : Z) (r : Delivery) : Delivery := apply_write (mkWrite None None None None None t) r.

(** The statements of an attempt. *)
Definition settle_row (id : jsstr) (wr : Write) (w : WhWorld) : WhWorld :=
  set_deliveries (alter (fun r => if owed r then apply_write wr r else r) id (ww_deliveries w)) w.

Definition count_failure (webhookId : jsstr) (w : WhWorld) : WhWorld :=
  set_hooks (alter (fun h => set_failures (hk_failures h + 1) h) webhookId (ww_hooks w)) w.

Definition failing (h : Hook) : bool := bool_decide (hk_status h = ACTIVE) && (DISABLE_AFTER_FAILURES <=? hk_failures h).

Definition turn_off (webhookId : jsstr) (w : WhWorld) : WhWorld * Z :=
  match ww_hooks w !! webhookId with
  | Some h =>
      if failing h
      then (set_hooks (<[webhookId := set_status false DISABLED_FAILING h]> (ww_hooks w)) w, 1)
      else (w, 0)
  | None => (w, 0)
  end.

Definition forgive (webhookId : jsstr) (w : WhWorld) : WhWorld :=
  set_hooks (alter (fun h => if 0 <? hk_failures h then set_failures 0 h else h) webhookId (ww_hooks w)) w.

(** What the scheduler lets a command answer: that it works, fails before or
    after its effect, or what the outside world says. *)
Inductive input :=
| I_db (f : Fault) | I_net (a : answer) | I_gate (on : option bool) | I_sent (r : result JsErr Z).

Definition exec {X : Set} (inp : input) (c : wcommand X) (w : WhWorld) : option (WhWorld * X) :=
  match c in wcommand X return option (WhWorld * X) with
  | Now => Some (w, ww_now w)
  | Net c => match inp with I_net a => match answer_for c a with Some x => Some (w, x) | None => None end | _ => None end
  | Gate => match inp with I_gate on => Some (w, on) | _ => None end
  | Send _ _ _ => match inp with I_sent r => Some (w, r) | _ => None end
  | Settle id wr => match inp with I_db f => Some (faulty f w (settle_row id wr w) tt) | _ => None end
  | CountFailure h => match inp with I_db f => Some (faulty f w (count_failure h w) tt) | _ => None end
  | TurnOff h => match inp with I_db f => Some (faulty f w (turn_off h w).1 (turn_off h w).2) | _ => None end
  | ForgiveFailures h => match inp with I_db f => Some (faulty f w (forgive h w) tt) | _ => None end
  | NotifyAdmins _ _ => Some (w, tt)
  end.

(** ** The queue *)

Definition is_due (now : Z) (r : Delivery) : bool := owed r && (dv_nextAttemptAt r <=? now).

(** [claimDueDeliveries] takes [ids]: due rows, as many as there are up to the
    limit, and none of the others is due earlier. *)
Definition claim_ok (ids : list jsstr) (limit : nat) (w : WhWorld) : bool :=
  let due := filter (fun e => is_due (ww_now w) e.2 = true) (map_to_list (ww_deliveries w)) in
  bool_decide (NoDup ids) && forallb (fun id => bool_decide (id ∈ due.*1)) ids &&
  Nat.eqb (length ids) (Nat.min limit (length due)) &&
  forallb (fun e => bool_decide (e.1 ∈ ids) ||
             forallb (fun id => match ww_deliveries w !! id with Some r => dv_nextAttemptAt r <=? dv_nextAttemptAt e.2 | None => true end) ids) due.

Definition lease (ids : list jsstr) (w : WhWorld) : WhWorld :=
  set_deliveries (foldr (fun id m => alter (set_next (ww_now w + DELIVERY_LEASE_MS)) id m) (ww_deliveries w) ids) w.

Section operations.
Context `{UrlApi}.
Context (openWebhookUrl openWebhookSecret : jsstr -> jsstr -> result JsErr jsstr).
Context (renderWebhookBody : jsstr -> jsval -> jsstr) (hmac_hex : jsstr -> jsstr -> jsstr).
(** The projects of kind PROJECT, with their workspace. *)
Context (projects : jsstr -> option jsstr).

(** The attempts of the claimed rows, with their webhooks. *)
Definition attempt_of (test : bool) (w : WhWorld) (id : jsstr) : option wprog :=
  match ww_deliveries w !! id with
  | Some r =>
      match ww_hooks w !! dv_webhookId r with
      | Some h => Some (attemptDelivery openWebhookUrl openWebhookSecret renderWebhookBody hmac_hex id r h test)
      | None => None
      end
  | None => None
  end.

Definition new_delivery (webhookId event : jsstr) (sourceKey : option jsstr) (payload : jsval) (next now : Z) : Delivery :=
  mkDelivery webhookId event sourceKey payload PENDING 0 next None None now None.

(** *** Fan-out *)

Definition subscribedTo (event : jsstr) (w : WhWorld) : list (jsstr * Hook) :=
  filter (fun e => hk_enabled e.2 = true /\ event ∈ hk_events e.2) (map_to_list (ww_hooks w)).

Definition inScope (workspaceId : jsstr) (projectId : option jsstr) (h : Hook) : bool :=
  bool_decide (hk_workspaceId h = workspaceId) && (bool_decide (hk_projectId h = None) || bool_decide (hk_projectId h = projectId)).

(** The unique index on [(webhookId, sourceKey)]; [NULL]s are distinct. *)
Definition taken (webhookId : jsstr) (sourceKey : option jsstr) (w : WhWorld) : bool :=
  match sourceKey with
  | None => false
  | Some _ => existsb (fun e => bool_decide (dv_webhookId e.2 = webhookId /\ dv_sourceKey e.2 = sourceKey)) (map_to_list (ww_deliveries w))
  end.

(** [createMany] with [skipDuplicates], the identifiers drawn by the database. *)
Fixpoint createDeliveries (targets : list (jsstr * jsstr)) (event : jsstr) (payload : jsval) (sourceKey : option jsstr) (w : WhWorld) : WhWorld :=
  match targets with
  | [] => w
  | (webhookId, id) :: rest =>
      let w' := if taken webhookId sourceKey w then w
                else set_deliveries (<[id := new_delivery webhookId event sourceKey payload (ww_now w) (ww_now w)]> (ww_deliveries w)) w in
      createDeliveries rest event payload sourceKey w'
  end.

Definition enqueueWebhookDeliveries (workspaceId : jsstr) (projectId : option jsstr) (event : jsstr) (payload : jsval) (sourceKey : jsstr)
    (ids : list jsstr) (w : WhWorld) : WhWorld :=
  let matched := filter (fun e => inScope workspaceId projectId e.2 = true) (subscribedTo event w) in
  createDeliveries (zip matched.*1 ids) event payload (Some sourceKey) w.

(** One activity row, of a work item of [projectId]; [None] when it has none. *)
Definition fanOutActivity (rowId verb : jsstr) (workItemId : option jsstr) (projectId : jsstr) (payload : jsval) (ids : list jsstr) (w : WhWorld) : WhWorld :=
  match workItemId, eventForVerb verb, projects projectId with
  | Some _, Some event, Some workspaceId =>
      let matched := filter (fun e => inScope workspaceId (Some projectId) e.2 = true) (subscribedTo event w) in
      createDeliveries (zip matched.*1 ids) event payload (Some (js "activity:" ++ rowId)) w
  | _, _, _ => w
  end.

(** *** Management *)

Inductive WebhookError := NOT_FOUND | DELIVERY_NOT_FOUND | PROJECT_NOT_FOUND | BLOCKED_DESTINATION | INVALID_EVENTS | LIMIT_REACHED | GuardThrew.

Definition vetUrl (raw : jsstr) (local : LocalNetworkFacts) : result WebhookError jsstr :=
  match assertLanOrPublicUrl raw local with
  | Ok url => Ok (url_href url)
  | Throw (Blocked _ _) => Throw BLOCKED_DESTINATION
  | Throw Other => Throw GuardThrew
  end.

Definition vetted_events (events : list jsstr) : result WebhookError (list jsstr) :=
  match vetEvents events with Some l => Ok l | None => Throw INVALID_EVENTS end.

Definition in_projects (h : Hook) : bool :=
  match hk_projectId h with None => true | Some p => bool_decide (is_Some (projects p)) end.

Definition mustFind (id : jsstr) (w : WhWorld) : result WebhookError Hook :=
  match ww_hooks w !! id with Some h => if in_projects h then Ok h else Throw NOT_FOUND | None => Throw NOT_FOUND end.

Definition workspaceForProject (projectId : jsstr) : result WebhookError jsstr :=
  match projects projectId with Some ws => Ok ws | None => Throw PROJECT_NOT_FOUND end.

Record WebhookInput := mkWebhookInput {
  wi_name : jsstr; wi_url : jsstr; wi_format : jsstr; wi_events : list jsstr; wi_projectId : option jsstr
}.

(** [seal_url] and [seal_secret] seal for the row's identifier. *)
Definition createWebhook (id home : jsstr) (local : LocalNetworkFacts) (seal_url : jsstr -> jsstr) (secretEnc : jsstr) (i : WebhookInput)
    (w : WhWorld) : WhWorld * result WebhookError Hook :=
  match
    (let! url := vetUrl (wi_url i) local in
     let! events := vetted_events (wi_events i) in
     let! workspaceId := match wi_projectId i with Some (_ :: _ as p) => workspaceForProject p | _ => Ok home end in
     if Nat.leb PM_WEBHOOK_LIMIT
          (length (filter (fun e => hk_workspaceId e.2 = workspaceId /\ in_projects e.2 = true) (map_to_list (ww_hooks w))))
     then Throw LIMIT_REACHED
     else Ok (mkHook workspaceId (wi_projectId i) (wi_name i) (seal_url url) (wi_format i) secretEnc events true ACTIVE 0))
  with
  | Ok h => (set_hooks (<[id := h]> (ww_hooks w)) w, Ok h)
  | Throw e => (w, Throw e)
  end.

Record WebhookPatch := mkWebhookPatch {
  wp_name : option jsstr; wp_url : option jsstr; wp_format : option jsstr; wp_events : option (list jsstr);
  wp_projectId : option (option jsstr); wp_enabled : option bool
}.

Definition rescope (existing : Hook) (p : option (option jsstr)) : result WebhookError (option jsstr) :=
  match p with
  | None => Ok (hk_projectId existing)
  | Some None => Ok None
  | Some (Some projectId) =>
      let! workspaceId := workspaceForProject projectId in
      if bool_decide (workspaceId = hk_workspaceId existing) then Ok (Some projectId) else Throw PROJECT_NOT_FOUND
  end.

(** The row as read; the update writes only the columns of the patch, on the row
    as it is then. *)
Definition updateWebhook (id : jsstr) (local : LocalNetworkFacts) (seal_url : jsstr -> jsstr) (p : WebhookPatch) (w : WhWorld) :
    WhWorld * result WebhookError Hook :=
  match
    (let! existing := mustFind id w in
     let! urlEnc := match wp_url p with Some raw => let! url := vetUrl raw local in Ok (seal_url url) | None => Ok (hk_urlEnc existing) end in
     let! events := match wp_events p with Some l => vetted_events l | None => Ok (hk_events existing) end in
     let! projectId := rescope existing (wp_projectId p) in
     let '(enabled, status, failures) :=
       match wp_enabled p with
       | Some true => (true, ACTIVE, 0)
       | Some false => (false, PAUSED, hk_failures existing)
       | None => (hk_enabled existing, hk_status existing, hk_failures existing)
       end in
     Ok (mkHook (hk_workspaceId existing) projectId (default (hk_name existing) (wp_name p)) urlEnc
           (default (hk_format existing) (wp_format p)) (hk_secretEnc existing) events enabled status failures))
  with
  | Ok h => (set_hooks (<[id := h]> (ww_hooks w)) w, Ok h)
  | Throw e => (w, Throw e)
  end.

(** The deliveries go with their webhook. *)
Definition deleteWebhook (id : jsstr) (w : WhWorld) : WhWorld * result WebhookError Hook :=
  match mustFind id w with
  | Ok h => (set_deliveries (filter (fun e => dv_webhookId e.2 <> id) (ww_deliveries w)) (set_hooks (delete id (ww_hooks w)) w), Ok h)
  | Throw e => (w, Throw e)
  end.

Definition rotateWebhookSecret (id secretEnc : jsstr) (w : WhWorld) : WhWorld * result WebhookError Hook :=
  match mustFind id w with
  | Ok h =>
      let h' := mkHook (hk_workspaceId h) (hk_projectId h) (hk_name h) (hk_urlEnc h) (hk_format h) secretEnc (hk_events h) (hk_enabled h)
                  (hk_status h) (hk_failures h) in
      (set_hooks (<[id := h']> (ww_hooks w)) w, Ok h')
  | Throw e => (w, Throw e)
  end.

(** The row of a test, born leased. *)
Definition sendTestDelivery (id newId : jsstr) (payload : jsval) (w : WhWorld) : WhWorld * result WebhookError wprog :=
  match mustFind id w with
  | Ok h =>
      let w' := set_deliveries (<[newId := new_delivery id WEBHOOK_TEST_EVENT None payload (ww_now w + DELIVERY_LEASE_MS) (ww_now w)]> (ww_deliveries w)) w in
      (w', match attempt_of true w' newId with Some p => Ok p | None => Throw NOT_FOUND end)
  | Throw e => (w, Throw e)
  end.

Definition redeliver (webhookId deliveryId newId : jsstr) (w : WhWorld) : WhWorld * result WebhookError unit :=
  match mustFind webhookId w with
  | Ok _ =>
      match ww_deliveries w !! deliveryId with
      | Some r =>
          if bool_decide (dv_webhookId r = webhookId)
          then (set_deliveries (<[newId := new_delivery webhookId (dv_event r) None (dv_payload r) (ww_now w) (ww_now w)]> (ww_deliveries w)) w, Ok tt)
          else (w, Throw DELIVERY_NOT_FOUND)
      | None => (w, Throw DELIVERY_NOT_FOUND)
      end
  | Throw e => (w, Throw e)
  end.

Definition pruneWebhookDeliveries (w : WhWorld) : WhWorld :=
  set_deliveries (filter (fun e => owed e.2 = true \/ ww_now w - DELIVERY_RETENTION_MS <= dv_createdAt e.2) (ww_deliveries w)) w.

(** ** All of them together

    An attempt is interleaved with everything else command by command, and asks
    for the switch itself, where the attempts of one sweep share one answer; the
    other operations are one step each.  [W_Enqueue] is an event that is not an
    activity row. *)

Record WhMachine := mkWhMachine { wm_world : WhWorld; wm_tasks : list wprog }.

Inductive WhMove :=
| W_Tick (ms : Z)
| W_Claim (ids : list jsstr)
| W_Step (task : nat) (inp : input)
| W_Die (task : nat)
| W_FanOut (rowId verb : jsstr) (workItemId : option jsstr) (projectId : jsstr) (payload : jsval) (ids : list jsstr)
| W_Enqueue (workspaceId : jsstr) (projectId : option jsstr) (event : jsstr) (payload : jsval) (sourceKey : jsstr) (ids : list jsstr)
| W_Create (id home : jsstr) (local : LocalNetworkFacts) (seal_url : jsstr -> jsstr) (secretEnc : jsstr) (i : WebhookInput)
| W_Update (id : jsstr) (local : LocalNetworkFacts) (seal_url : jsstr -> jsstr) (p : WebhookPatch)
| W_Delete (id : jsstr)
| W_Rotate (id secretEnc : jsstr)
| W_Test (id newId : jsstr) (payload : jsval)
| W_Redeliver (webhookId deliveryId newId : jsstr)
| W_Prune.

(** Identifiers are drawn once. *)
Definition drawing (ids : list jsstr) (w : WhWorld) : option WhWorld :=
  if bool_decide (NoDup ids) && forallb (fun id => negb (bool_decide (id ∈ ww_ids w))) ids then Some (draw ids w) else None.

(** An identifier for each webhook there may be. *)
Definition enough (ids : list jsstr) (w : WhWorld) : bool := Nat.leb (size (ww_hooks w)) (length ids).

Definition step_task (inp : input) (p : wprog) (w : WhWorld) : option (WhWorld * option wprog) :=
  match p with
  | Ret _ => Some (w, None)
  | Op c k => match exec inp c w with Some (w', x) => Some (w', Some (k x)) | None => None end
  end.

Definition wh_move (mv : WhMove) (m : WhMachine) : option WhMachine :=
  let w := wm_world m in
  let tasks := wm_tasks m in
  let answered {A} (r : WhWorld * result WebhookError A) := Some (mkWhMachine r.1 tasks) in
  match mv with
  | W_Tick ms => if 0 <=? ms then Some (mkWhMachine (mkWhWorld (ww_now w + ms) (ww_hooks w) (ww_deliveries w) (ww_ids w)) tasks) else None
  | W_Claim ids =>
      if claim_ok ids DELIVERY_BATCH w
      then let w' := lease ids w in Some (mkWhMachine w' (tasks ++ omap (attempt_of false w') ids)) else None
  | W_Step i inp =>
      match tasks !! i with
      | None => None
      | Some p =>
          match step_task inp p w with
          | Some (w', Some p') => Some (mkWhMachine w' (<[i := p']> tasks))
          | Some (w', None) => Some (mkWhMachine w' (delete i tasks))
          | None => None
          end
      end
  | W_Die i => Some (mkWhMachine w (delete i tasks))
  | W_FanOut rowId verb wi projectId payload ids =>
      if negb (enough ids w) then None else
      match drawing ids w with Some w => Some (mkWhMachine (fanOutActivity rowId verb wi projectId payload ids w) tasks) | None => None end
  | W_Enqueue ws projectId event payload key ids =>
      if negb (enough ids w) then None else
      match drawing ids w with
      | Some w => Some (mkWhMachine (enqueueWebhookDeliveries ws projectId event payload key ids w) tasks) | None => None
      end
  | W_Create id home local seal secretEnc i =>
      match drawing [id] w with Some w => answered (createWebhook id home local seal secretEnc i w) | None => None end
  | W_Update id local seal p => answered (updateWebhook id local seal p w)
  | W_Delete id => answered (deleteWebhook id w)
  | W_Rotate id secretEnc => answered (rotateWebhookSecret id secretEnc w)
  | W_Test id newId payload =>
      match drawing [newId] w with
      | Some w => let r := sendTestDelivery id newId payload w in
                  Some (mkWhMachine r.1 (match r.2 with Ok p => tasks ++ [p] | Throw _ => tasks end))
      | None => None
      end
  | W_Redeliver webhookId deliveryId newId =>
      match drawing [newId] w with Some w => answered (redeliver webhookId deliveryId newId w) | None => None end
  | W_Prune => Some (mkWhMachine (pruneWebhookDeliveries w) tasks)
  end.

Fixpoint wh_moves (mvs : list WhMove) (m : WhMachine) : option WhMachine :=
  match mvs with [] => Some m | mv :: r => match wh_move mv m with Some m' => wh_moves r m' | None => None end end.

Definition empty_webhooks : WhMachine := mkWhMachine (mkWhWorld 0 ∅ ∅ []) [].
End operations.

(** ** What the tables keep *)

(** A row of the queue. *)
Definition row_ok (r : Delivery) : Prop :=
  match dv_status r with
  | PENDING => dv_attempts r = 0 /\ dv_deliveredAt r = None
  | FAILED => 1 <= dv_attempts r < MAX_ATTEMPTS /\ dv_deliveredAt r = None
  | DELIVERED => 1 <= dv_attempts r <= MAX_ATTEMPTS /\ is_Some (dv_deliveredAt r)
  | GIVEN_UP => 0 <= dv_attempts r <= MAX_ATTEMPTS /\ dv_deliveredAt r = None
  end.

(** An outcome that may be written to any row that is owed one. *)
Definition write_ok (wr : Write) : Prop := forall r, owed r = true -> row_ok r -> row_ok (apply_write wr r).

(** What a command of an attempt needs, whatever happened. *)
Definition settle_needs {X : Set} (_ : unit) (c : wcommand X) : Prop :=
  match c with Settle _ wr => write_ok wr | _ => True end.

#[local] Instance settling : Protocol wcommand.
Proof. refine {| history := unit; hist_le := fun _ _ => True; needs := @settle_needs; tells := fun _ _ _ _ => True |}; by repeat split. Defined.

Definition honest (p : wprog) : Prop := safe (fun _ _ => True) (tt : history) p.

Lemma owed_cases r : owed r = true -> row_ok r ->
  0 <= dv_attempts r < MAX_ATTEMPTS /\ dv_deliveredAt r = None.
Proof. unfold owed, row_ok. intros [Hs|Hs]%bool_decide_eq_true; rewrite Hs; unfold MAX_ATTEMPTS; cbn; lia || (intros [? ?]; split; [lia|done]). Qed.

Lemma write_give_up e t : write_ok (mkWrite (Some GIVEN_UP) None None e None t).
Proof. intros r Ho Hr. destruct (owed_cases _ Ho Hr). unfold row_ok. cbn. split; [lia|done]. Qed.

Lemma write_wait e t : write_ok (mkWrite None None None e None t).
Proof. by intros r Ho Hr. Qed.

Lemma write_failed (exhausted : bool) n c e t :
  0 <= n < MAX_ATTEMPTS -> (n + 1 = MAX_ATTEMPTS -> exhausted = true) ->
  write_ok (mkWrite (Some (if exhausted then GIVEN_UP else FAILED)) (Some (n + 1)) c e None t).
Proof.
  intros Hn Hx r Ho Hr. destruct (owed_cases _ Ho Hr). unfold row_ok. destruct exhausted; cbn; (split; [|done]); [lia|].
  split; [lia|]. destruct (Z.eq_dec (n + 1) MAX_ATTEMPTS); [by discriminate Hx|lia].
Qed.

Lemma write_delivered n c e now t : 0 <= n < MAX_ATTEMPTS -> write_ok (mkWrite (Some DELIVERED) (Some (n + 1)) c e (Some now) t).
Proof. intros Hn r Ho Hr. unfold row_ok. cbn. split; [lia|done]. Qed.

Section honest.
Context `{UrlApi}.
Context (openWebhookUrl openWebhookSecret : jsstr -> jsstr -> result JsErr jsstr).
Context (renderWebhookBody : jsstr -> jsval -> jsstr) (hmac_hex : jsstr -> jsstr -> jsstr).
Context (id : jsstr) (delivery : Delivery) (hook : Hook) (test : bool).
Context (Hfresh : 0 <= dv_attempts delivery < MAX_ATTEMPTS).

Lemma honest_settle wr k : write_ok wr -> honest k -> honest (settle id wr k).
Proof. intros Hw Hk. apply safe_try; [done..|]. intros [] ? _ _. exact Hk. Qed.

Lemma honest_op {X : Set} (c : wcommand X) k : needs (tt : history) c -> (forall x, honest (k x)) -> honest (Op c k).
Proof. intros Hc Hk. split; [done|]. intros [] x _ _. apply Hk. Qed.

Lemma honest_try {X : Set} (c : wcommand (option X)) k : needs (tt : history) c -> (forall x, honest (k x)) -> honest (try_op c (Ret None) k).
Proof. intros Hc Hk. apply honest_op; [done|]. by intros [x|]. Qed.

Lemma fail_honest now e code : honest (fail id delivery hook test now e code).
Proof.
  apply honest_settle.
  - apply write_failed; [done|]. intros Hx. apply orb_true_intro. right. lia.
  - cbv zeta. destruct test; [done|]. apply honest_try; [done|]. intros _. apply honest_try; [done|]. intros n. case_match; [done|].
    by apply honest_op.
Qed.

Lemma blocked_honest now : honest (blocked id test now).
Proof. apply honest_settle; [|done]. destruct test; [apply write_give_up|apply write_wait]. Qed.

Lemma dial_honest now dest : honest (dial openWebhookSecret renderWebhookBody hmac_hex id delivery hook test now dest).
Proof.
  unfold dial. case_match; [|apply fail_honest]. apply honest_op; [done|]. intros [status|err]; [|apply fail_honest].
  case_match; [apply fail_honest|]. apply honest_settle; [by apply write_delivered|]. destruct test; [done|]. by apply honest_try.
Qed.

Lemma honest_bind_net {A} (p : prog ncommand A) k : (forall a, honest (k a)) -> honest (pbind (plift (fun X c => Net c) p) k).
Proof. intros Hk. induction p as [a|X c f IH]; [apply Hk|]. by apply honest_op. Qed.

Lemma attempt_honest : honest (attemptDelivery openWebhookUrl openWebhookSecret renderWebhookBody hmac_hex id delivery hook test).
Proof.
  apply honest_op; [done|]. intros now. case_match; [by apply honest_settle; [apply write_give_up|]|].
  case_match; [by apply honest_settle; [apply write_give_up|]|]. case_match; [|apply fail_honest]. apply honest_bind_net.
  intros [dest|e]; [|apply fail_honest]. unfold gated. case_match; [apply dial_honest|]. apply honest_try; [done|].
  intros []; [apply dial_honest|apply blocked_honest].
Qed.
End honest.

(** *** The tables *)

Definition hook_ok (h : Hook) : Prop :=
  (hk_enabled h = true <-> hk_status h = ACTIVE) /\ 0 <= hk_failures h /\
  hk_events h <> [] /\ NoDup (hk_events h) /\ (forall e, e ∈ hk_events h -> e ∈ WORK_ITEM_EVENTS).

(** A row that is not owed an attempt has its key, its webhook, its payload and
    its outcome for good. *)
Definition same_event (r r' : Delivery) : Prop :=
  dv_webhookId r' = dv_webhookId r /\ dv_event r' = dv_event r /\ dv_sourceKey r' = dv_sourceKey r /\
  dv_payload r' = dv_payload r /\ dv_createdAt r' = dv_createdAt r.

Definition evolves (o o' : option Delivery) : Prop :=
  match o, o' with
  | _, None => True
  | None, Some _ => False
  | Some r, Some r' => same_event r r' /\ (owed r = false -> r' = r)
  end.

#[local] Instance evolves_preorder : PreOrder evolves.
Proof.
  split.
  - intros [r|]; [|done]. by repeat split.
  - intros [r|] [r'|] [r2|]; cbn; try done. intros [(? & ? & ? & ? & ?) Hf] [(? & ? & ? & ? & ?) Hg].
    split; [split_and!; congruence|]. intros Ho. specialize (Hf Ho). subst r'. by apply Hg.
Qed.

Record tables_ok (w : WhWorld) : Prop := {
  rows_ok : forall id r, ww_deliveries w !! id = Some r -> row_ok r /\ id ∈ ww_ids w /\ is_Some (ww_hooks w !! dv_webhookId r);
  once_ok : forall i j r s k, ww_deliveries w !! i = Some r -> ww_deliveries w !! j = Some s -> dv_webhookId r = dv_webhookId s ->
    dv_sourceKey r = Some k -> dv_sourceKey s = Some k -> i = j;
  hooks_ok : forall id h, ww_hooks w !! id = Some h -> hook_ok h
}.

Definition grows (w w' : WhWorld) : Prop :=
  ww_ids w ⊆ ww_ids w' /\ forall id, id ∈ ww_ids w -> evolves (ww_deliveries w !! id) (ww_deliveries w' !! id).

#[local] Instance grows_preorder : PreOrder grows.
Proof.
  split; [by split|]. intros w1 w2 w3 [H1 E1] [H2 E2]. split; [set_solver|]. intros id Hid. etrans; [by apply E1|apply E2, H1, Hid].
Qed.

(** A step from good tables to good tables. *)
Definition good_step (w w' : WhWorld) : Prop := tables_ok w -> tables_ok w' /\ grows w w'.

#[local] Instance good_step_preorder : PreOrder good_step.
Proof. split; [by intros w|]. intros w1 w2 w3 H12 H23 H. destruct (H12 H) as [H2 ?]. destruct (H23 H2). split; [done|]. by etrans. Qed.

(** A row is rewritten in place. *)
Lemma amend_step f id w :
  (forall r, ww_deliveries w !! id = Some r -> row_ok r -> row_ok (f r) /\ same_event r (f r) /\ (owed r = false -> f r = r)) ->
  good_step w (set_deliveries (alter f id (ww_deliveries w)) w).
Proof.
  intros Hf [Hr Ho Hh].
  assert (Hget : forall i r', alter f id (ww_deliveries w) !! i = Some r' -> exists r, ww_deliveries w !! i = Some r /\ row_ok r' /\ same_event r r').
  { intros i r' [[<- (r & Hr1 & ->)]|[? Hi]]%lookup_alter_Some; [|exists r'; split_and!; [done|by eapply Hr|by repeat split]].
    exists r. split; [done|]. by destruct (Hf r Hr1 (proj1 (Hr _ _ Hr1))) as (? & ? & _). }
  split; [split; cbn|].
  - intros i r' (r & Hi & Hok & -> & _)%Hget. destruct (Hr _ _ Hi) as (_ & ? & ?). done.
  - intros i j r' s' k (r & Hi & _ & Hw & _ & Hk & _)%Hget (s & Hj & _ & Hw' & _ & Hk' & _)%Hget He ? ?. apply (Ho i j r s k); [done|done|congruence..].
  - done.
  - split; [done|]. intros i _. cbn. destruct (decide (id = i)) as [<-|Hne]; [|by rewrite lookup_alter_ne].
    rewrite lookup_alter_eq. destruct (ww_deliveries w !! id) as [r|] eqn:E; [|done]. cbn.
    by destruct (Hf r eq_refl (proj1 (Hr _ _ E))) as (_ & ? & ?).
Qed.

(** Rows are dropped. *)
Lemma drop_step (P : jsstr * Delivery -> Prop) `{!forall e, Decision (P e)} (h : gmap jsstr Hook) w :
  (forall id r, ww_deliveries w !! id = Some r -> P (id, r) -> is_Some (h !! dv_webhookId r)) ->
  (forall id hk, h !! id = Some hk -> hook_ok hk) ->
  good_step w (set_deliveries (filter P (ww_deliveries w)) (set_hooks h w)).
Proof.
  intros Hkeep Hhk [Hr Ho Hh]. split; [split; cbn|].
  - intros i r [Hi HP]%map_lookup_filter_Some. destruct (Hr _ _ Hi) as (? & ? & _). split_and!; [done..|]. by eapply Hkeep.
  - intros i j r s k [Hi _]%map_lookup_filter_Some [Hj _]%map_lookup_filter_Some. by apply (Ho i j r s k).
  - done.
  - split; [done|]. intros i _. cbn. destruct (filter P (ww_deliveries w) !! i) as [r|] eqn:E; [|by destruct (ww_deliveries w !! i)].
    apply map_lookup_filter_Some in E as [-> _]. reflexivity.
Qed.

(** Webhooks are written, none is dropped. *)
Lemma hooks_step (h : gmap jsstr Hook) w :
  (forall id, is_Some (ww_hooks w !! id) -> is_Some (h !! id)) ->
  (forall id hk, (forall id' hk', ww_hooks w !! id' = Some hk' -> hook_ok hk') -> h !! id = Some hk -> hook_ok hk) ->
  good_step w (set_hooks h w).
Proof.
  intros Hdom Hhk [Hr Ho Hh]. split; [split; cbn|split; [done|]; by intros i _].
  - intros i r Hi. destruct (Hr _ _ Hi) as (? & ? & ?). auto.
  - done.
  - intros i hk. by apply Hhk.
Qed.

Lemma hook_write_step id h h' w :
  ww_hooks w !! id = Some h -> (hook_ok h -> hook_ok h') -> good_step w (set_hooks (<[id := h']> (ww_hooks w)) w).
Proof.
  intros Hid Hok. apply hooks_step.
  - intros i Hi. destruct (decide (id = i)) as [<-|?]; [by rewrite lookup_insert_eq|by rewrite lookup_insert_ne].
  - intros i hk Hall [[<- <-]|[? Hi]]%lookup_insert_Some; [by eapply Hok, Hall|by eapply Hall].
Qed.

Lemma hook_alter_step f id w : (forall h, hook_ok h -> hook_ok (f h)) -> good_step w (set_hooks (alter f id (ww_hooks w)) w).
Proof.
  intros Hf. apply hooks_step.
  - intros i Hi. destruct (decide (id = i)) as [<-|?]; [rewrite lookup_alter_eq; by apply fmap_is_Some|by rewrite lookup_alter_ne].
  - intros i hk Hall [[<- (h & Hh & ->)]|[? Hi]]%lookup_alter_Some; [by eapply Hf, Hall|by eapply Hall].
Qed.

(** *** New rows

    [fresh w0 ids w]: the tables [w], reached from [w0], with the identifiers
    [ids] drawn since and not used yet. *)
Definition fresh (w0 : WhWorld) (ids : list jsstr) (w : WhWorld) : Prop :=
  tables_ok w /\ grows w0 w /\ NoDup ids /\ forall id, id ∈ ids -> ww_deliveries w !! id = None /\ id ∈ ww_ids w /\ id ∉ ww_ids w0.

Lemma drawing_fresh ids w w' : tables_ok w -> drawing ids w = Some w' -> fresh w ids w' /\ ww_hooks w' = ww_hooks w /\ ww_now w' = ww_now w.
Proof.
  unfold drawing. intros [Hr Ho Hh]. case_match eqn:E; [|done]. intros [= <-].
  apply andb_true_iff in E as [Hnd%bool_decide_eq_true Hn]. split; [|done]. split; [split|split; [split|split]]; cbn; try done.
  - intros i r Hi. destruct (Hr _ _ Hi) as (? & ? & ?). split_and!; [done| |done]. set_solver.
  - set_solver.
  - intros id Hid. rewrite forallb_forall in Hn. pose proof (Hn _ (proj1 (list_elem_of_In _ _) Hid)) as Hnew%negb_true_iff%bool_decide_eq_false.
    split_and!; [|apply elem_of_app; by left|done].
    destruct (ww_deliveries w !! id) eqn:E; [|done]. by apply Hr in E as (_ & ? & _).
Qed.

Lemma fresh_done w0 ids w : fresh w0 ids w -> tables_ok w /\ grows w0 w.
Proof. by intros (? & ? & _). Qed.

Lemma fresh_skip w0 id ids w : fresh w0 (id :: ids) w -> fresh w0 ids w.
Proof. intros (? & ? & [_ ?]%NoDup_cons & Hf). split_and!; try done. intros i ?. apply Hf. by right. Qed.

Lemma taken_false wh key w : taken wh key w = false -> forall id r k, ww_deliveries w !! id = Some r -> dv_webhookId r = wh ->
  dv_sourceKey r = Some k -> key = Some k -> False.
Proof.
  intros Ht id r k Hi Hw Hk ->. cbn in Ht. apply not_true_iff_false in Ht. apply Ht, existsb_exists. exists (id, r).
  split; [|by apply bool_decide_eq_true]. by apply list_elem_of_In, elem_of_map_to_list.
Qed.

Lemma fresh_insert w0 id ids w wh event key payload next now :
  fresh w0 (id :: ids) w -> is_Some (ww_hooks w !! wh) -> taken wh key w = false ->
  fresh w0 ids (set_deliveries (<[id := new_delivery wh event key payload next now]> (ww_deliveries w)) w).
Proof.
  intros (Ht & [Hi He] & [Hnin Hnd]%NoDup_cons & Hf) Hwh Htk. pose proof (taken_false _ _ _ Htk) as Hfree.
  destruct (Hf id ltac:(by left)) as (Hno & Hin & Hnew). split; [|split; [|split]]; [|split|done|].
  - destruct Ht as [Hr Ho Hh]. split; cbn; [|intros i j r s k|done].
    + intros i r [[<- <-]|[? Hl]]%lookup_insert_Some; [by split_and!|by apply Hr].
    + intros [[<- <-]|[? Hl]]%lookup_insert_Some [[<- <-]|[? Hl']]%lookup_insert_Some ? ? ?; [done| | |by eapply Ho]; exfalso.
      * by eapply (Hfree j s k).
      * by eapply (Hfree i r k).
  - done.
  - intros i Hi0. cbn. rewrite lookup_insert_ne; [by apply He|]. by intros ->.
  - intros i Hii. destruct (Hf i ltac:(by right)) as (? & ? & ?). cbn. rewrite lookup_insert_ne; [done|]. by intros ->.
Qed.

Lemma createDeliveries_fresh w0 targets event payload key w :
  fresh w0 targets.*2 w -> (forall wh, wh ∈ targets.*1 -> is_Some (ww_hooks w !! wh)) ->
  fresh w0 [] (createDeliveries targets event payload key w).
Proof.
  revert w. induction targets as [|[wh id] rest IH]; intros w Hf Hwh; [done|]. cbn. apply IH.
  - case_match; [by eapply fresh_skip|]. apply fresh_insert; [done|apply Hwh; by left|done].
  - intros x Hx. case_match; apply Hwh; by right.
Qed.

(** *** The operations keep them *)

Lemma good_step_refl w : good_step w w.
Proof. reflexivity. Qed.
#[local] Hint Resolve good_step_refl : core.

Lemma faulty_step {X : Set} f w w1 (x : X) w' r : good_step w w1 -> faulty f w w1 x = (w', r) -> good_step w w'.
Proof. intros Hg He. by destruct f; injection He as <- _. Qed.

Lemma settle_step id wr w : write_ok wr -> good_step w (settle_row id wr w).
Proof. intros Hw. apply amend_step. intros r _ Hok. destruct (owed r) eqn:Eo; (split; [|split; [by repeat split|done]]); [by apply Hw|done]. Qed.

Lemma set_failures_ok n h : 0 <= n -> hook_ok h -> hook_ok (set_failures n h).
Proof. intros Hn (He & _ & Hev). split; [exact He|by split]. Qed.

Lemma turn_off_step id w : good_step w (turn_off id w).1.
Proof. unfold turn_off. repeat case_match; try done. eapply hook_write_step; [done|]. intros (_ & ? & ?). split; [by split|done]. Qed.

Lemma exec_step {X : Set} inp (c : wcommand X) w w' x : needs (tt : history) c -> exec inp c w = Some (w', x) -> good_step w w'.
Proof.
  intros Hn. destruct c; cbn -[faulty]; intros He; repeat case_match; simplify_eq/=; try done; (eapply faulty_step; [|exact He]).
  - by apply settle_step.
  - apply hook_alter_step. intros h Hh. apply set_failures_ok; [|done]. destruct Hh as (_ & ? & _). lia.
  - apply turn_off_step.
  - apply hook_alter_step. intros h Hh. case_match; [by apply set_failures_ok|done].
Qed.

(** The rows of a claim are all owed. *)
Definition all_owed (ids : list jsstr) (w : WhWorld) : Prop := forall id r, id ∈ ids -> ww_deliveries w !! id = Some r -> owed r = true.

Lemma alter_owed (t : Z) (i : jsstr) (M : gmap jsstr Delivery) (id : jsstr) (r' : Delivery) :
  alter (set_next t) i M !! id = Some r' -> exists r, M !! id = Some r /\ owed r' = owed r.
Proof. intros [[_ (r & Hr & ->)]|[_ Hi]]%lookup_alter_Some; eauto. Qed.

Lemma lease_owed ids w : all_owed ids w -> all_owed ids (lease ids w) /\ good_step w (lease ids w).
Proof.
  intros Ho. unfold lease. set (t := ww_now w + _). set (M ids := foldr (fun id m => alter (set_next t) id m) (ww_deliveries w) ids).
  assert (Hrow : forall l id r', M l !! id = Some r' -> exists r, ww_deliveries w !! id = Some r /\ owed r' = owed r).
  { induction l as [|i l IH]; cbn; [eauto|]. intros id r' (r & Hr & ->)%alter_owed. eauto. }
  split; [intros id r' Hid (r & Hr & ->)%Hrow; by eapply Ho|]. fold (M ids).
  assert (Hsub : forall l, l ⊆ ids -> good_step w (set_deliveries (M l) w)); [|by apply Hsub].
  induction l as [|i l IH]; intros Hl; [by destruct w|]. etrans; [apply IH; set_solver|].
  apply (amend_step (set_next t) i (set_deliveries (M l) w)). intros r Hr Hok. split_and!; [by unfold row_ok in *; destruct (dv_status r) eqn:E; cbn; rewrite E|by repeat split|].
  intros Hno. apply Hrow in Hr as (r0 & Hr0 & He). rewrite (Ho i r0) in He; [congruence|set_solver|done].
Qed.

Lemma claim_owed ids limit w : claim_ok ids limit w = true -> all_owed ids w.
Proof.
  unfold claim_ok. rewrite !andb_true_iff. intros (((_ & Hd) & _) & _) id r Hid Hr. rewrite forallb_forall in Hd.
  apply list_elem_of_In, Hd, bool_decide_eq_true, list_elem_of_fmap in Hid as ([i r'] & -> & [Hdue Hi]%list_elem_of_filter).
  apply elem_of_map_to_list in Hi. cbn in *. replace r' with r in * by congruence. unfold is_due in Hdue. by apply andb_true_iff in Hdue as [? _].
Qed.

Section kept.
Context `{UrlApi}.
Context (openWebhookUrl openWebhookSecret : jsstr -> jsstr -> result JsErr jsstr).
Context (renderWebhookBody : jsstr -> jsval -> jsstr) (hmac_hex : jsstr -> jsstr -> jsstr).
Context (projects : jsstr -> option jsstr).

Abbreviation the_attempt := (attempt_of openWebhookUrl openWebhookSecret renderWebhookBody hmac_hex).

Lemma attempt_of_honest test w id p : tables_ok w -> all_owed [id] w -> the_attempt test w id = Some p -> honest p.
Proof.
  intros [Hr _ _] Ho. unfold attempt_of. do 2 (case_match; [|done]). intros [= <-]. apply attempt_honest.
  eapply owed_cases; [eapply Ho; [by left|done]|by eapply Hr].
Qed.

Lemma vetEvents_ok l l' : vetEvents l = Some l' -> l' <> [] /\ NoDup l' /\ forall e, e ∈ l' -> e ∈ WORK_ITEM_EVENTS.
Proof.
  unfold vetEvents. case_match eqn:E; [done|]. intros [= <-]. apply orb_false_iff in E as [E1%bool_decide_eq_false E2%negb_false_iff].
  split_and!; [done|rewrite reverse_Permutation; apply NoDup_remove_dups|]. intros e He. rewrite forallb_forall in E2.
  by apply list_elem_of_In, E2, bool_decide_eq_true in He.
Qed.

Lemma matched_hooks ws projectId event w id :
  id ∈ (filter (fun e => inScope ws projectId e.2 = true) (subscribedTo event w)).*1 -> is_Some (ww_hooks w !! id).
Proof.
  intros ([i h] & -> & [_ Hs]%list_elem_of_filter)%list_elem_of_fmap. apply list_elem_of_filter in Hs as [_ Hs].
  apply elem_of_map_to_list in Hs. eauto.
Qed.

Lemma zip_snd {A B} (l : list A) (k : list B) : (zip l k).*2 `sublist_of` k.
Proof. revert k. induction l as [|x l IH]; intros [|y k]; cbn; try apply sublist_nil_l. by constructor. Qed.

Lemma zip_fst {A B} (l : list A) (k : list B) x : x ∈ (zip l k).*1 -> x ∈ l.
Proof. intros ([a b] & -> & Hi)%list_elem_of_fmap. by apply elem_of_zip_l in Hi. Qed.

Lemma fresh_sub w0 ids l w : l `sublist_of` ids -> fresh w0 ids w -> fresh w0 l w.
Proof.
  intros Hs (? & ? & ? & Hf). split_and!; try done; [by eapply sublist_NoDup|]. intros id Hid. apply Hf.
  by eapply elem_of_submseteq, sublist_submseteq.
Qed.

(** The deliveries of an event, under the identifiers drawn for them. *)
Lemma deliver_fresh w0 ws projectId event payload key ids w :
  fresh w0 ids w ->
  let matched := filter (fun e => inScope ws projectId e.2 = true) (subscribedTo event w) in
  fresh w0 [] (createDeliveries (zip matched.*1 ids) event payload key w).
Proof.
  intros Hf matched. apply createDeliveries_fresh; [by eapply fresh_sub, Hf; apply zip_snd|].
  intros wh Hwh%zip_fst. by eapply matched_hooks.
Qed.

Lemma fanOutActivity_fresh w0 rowId verb wi projectId payload ids w :
  fresh w0 ids w -> fresh w0 [] (fanOutActivity projects rowId verb wi projectId payload ids w).
Proof.
  intros Hf. unfold fanOutActivity. repeat case_match; try (by eapply fresh_sub, Hf; apply sublist_nil_l). by apply deliver_fresh.
Qed.

Lemma mustFind_ok id w h : mustFind projects id w = Ok h -> ww_hooks w !! id = Some h.
Proof. unfold mustFind. repeat case_match; try done. by intros [= <-]. Qed.

Lemma vetted_events_ok l l' : vetted_events l = Ok l' -> l' <> [] /\ NoDup l' /\ forall e, e ∈ l' -> e ∈ WORK_ITEM_EVENTS.
Proof. unfold vetted_events. case_match eqn:E; [|done]. intros [= <-]. by eapply vetEvents_ok. Qed.

Lemma createWebhook_step id home local seal secretEnc i w : good_step w (createWebhook projects id home local seal secretEnc i w).1.
Proof.
  unfold createWebhook. destruct (let! url := _ in _) as [h|e] eqn:E; [|done]. apply hooks_step.
  - intros j Hj. destruct (decide (id = j)) as [<-|?]; [by rewrite lookup_insert_eq|by rewrite lookup_insert_ne].
  - intros j hk Hall [[<- <-]|[_ Hj]]%lookup_insert_Some; [|by eapply Hall]. revert E.
    destruct (vetUrl _ _); [|done]. destruct (vetted_events _) eqn:Ev; [|done]. apply vetted_events_ok in Ev.
    cbn. destruct (match wi_projectId i with Some _ => _ | None => _ end); [|done]. cbn. case_match; [done|]. intros [= <-].
    split; [done|]. cbn. done.
Qed.

Lemma updateWebhook_step id local seal p w : good_step w (updateWebhook projects id local seal p w).1.
Proof.
  unfold updateWebhook. destruct (let! existing := _ in _) as [h|e] eqn:E; [|done].
  apply rbind_ok in E as (h0 & Hh0%mustFind_ok & E). apply (hook_write_step id h0); [done|].
  apply rbind_ok in E as (url & _ & E). apply rbind_ok in E as (events & Hev & E). apply rbind_ok in E as (pid & _ & E).
  intros (Hen & Hn & Hold). assert (Hevents : events <> [] /\ NoDup events /\ forall e, e ∈ events -> e ∈ WORK_ITEM_EVENTS).
  { destruct (wp_events p); [by eapply vetted_events_ok|by injection Hev as <-]. }
  destruct (wp_enabled p) as [[]|]; injection E as <-; (split; [done|]; split; [done|exact Hevents]).
Qed.

Lemma deleteWebhook_step id w : good_step w (deleteWebhook projects id w).1.
Proof.
  unfold deleteWebhook. destruct (mustFind _ _ _) as [h|] eqn:Eh; [|done]. intros Hok. apply (drop_step _ (delete id (ww_hooks w)) w); [| |exact Hok].
  - intros i r Hi Hne. cbn in Hne. rewrite lookup_delete_ne; [by eapply Hok|done].
  - intros j hk [_ Hj]%lookup_delete_Some. by eapply Hok.
Qed.

Lemma rotate_step id secretEnc w : good_step w (rotateWebhookSecret projects id secretEnc w).1.
Proof.
  unfold rotateWebhookSecret. destruct (mustFind _ _ _) as [h|] eqn:Eh; [|done]. by eapply hook_write_step; [apply mustFind_ok|].
Qed.

Lemma prune_step w : good_step w (pruneWebhookDeliveries w).
Proof. intros Hok. apply (drop_step _ (ww_hooks w) w); [intros i r Hi _; by eapply Hok|by eapply Hok|exact Hok]. Qed.

Lemma redeliver_fresh w0 wh id newId w : fresh w0 [newId] w -> fresh w0 [] (redeliver projects wh id newId w).1.
Proof.
  intros Hf. unfold redeliver. destruct (mustFind _ _ _) as [h|] eqn:Eh; [|by eapply fresh_skip]. repeat case_match; try by eapply fresh_skip.
  apply fresh_insert; [done| |done]. apply mustFind_ok in Eh. eauto.
Qed.

Lemma sendTest_fresh w0 id newId payload w :
  fresh w0 [newId] w ->
  let r := sendTestDelivery openWebhookUrl openWebhookSecret renderWebhookBody hmac_hex projects id newId payload w in
  fresh w0 [] r.1 /\ forall p, r.2 = Ok p -> honest p.
Proof.
  intros Hf. unfold sendTestDelivery. destruct (mustFind _ _ _) as [h|] eqn:Eh; [|split; [by eapply fresh_skip|done]].
  apply mustFind_ok in Eh. cbn zeta. set (w' := set_deliveries _ w).
  assert (Hw : fresh w0 [] w') by (apply fresh_insert; [done|eauto|done]). split; [exact Hw|]. intros p. cbn [snd].
  destruct (the_attempt true w' newId) as [q|] eqn:Eq; [|done]. intros [= <-]. eapply attempt_of_honest, Eq; [by apply Hw|].
  intros i r ->%list_elem_of_singleton. cbn. by rewrite lookup_insert_eq; intros [= <-].
Qed.

(** *** Every move *)

Definition machine_ok (m : WhMachine) : Prop := tables_ok (wm_world m) /\ Forall honest (wm_tasks m).

Abbreviation the_move := (wh_move openWebhookUrl openWebhookSecret renderWebhookBody hmac_hex projects).

Lemma step_task_ok inp p w w' o :
  honest p -> step_task inp p w = Some (w', o) -> good_step w w' /\ forall p', o = Some p' -> honest p'.
Proof.
  destruct p as [a|X c k]; cbn; [by intros _ [= <- <-]|]. intros [Hn Hk]. destruct (exec inp c w) as [[w1 x]|] eqn:E; [|done].
  intros [= <- <-]. split; [by eapply exec_step|]. intros p' [= <-]. exact (Hk tt x I I).
Qed.

Lemma move_kept mv m m' : the_move mv m = Some m' -> machine_ok m -> machine_ok m' /\ grows (wm_world m) (wm_world m').
Proof.
  intros Hm [Hw Ht].
  assert (Hstep : forall w', good_step (wm_world m) w' -> machine_ok (mkWhMachine w' (wm_tasks m)) /\ grows (wm_world m) w').
  { intros w' Hg. destruct (Hg Hw). done. }
  assert (Hdraw : forall ids w w', drawing ids (wm_world m) = Some w -> (fresh (wm_world m) ids w -> fresh (wm_world m) [] w') ->
    machine_ok (mkWhMachine w' (wm_tasks m)) /\ grows (wm_world m) w').
  { intros ids w w' Hd Hf. apply drawing_fresh in Hd as [Hd _]; [|done]. destruct (Hf Hd) as (? & ? & _). done. }
  destruct mv; unfold wh_move in Hm; cbn zeta in Hm.
  - case_match; [|done]. injection Hm as <-. apply Hstep. intros [? ? ?]. split; [by split|by split].
  - case_match eqn:Ec; [|done]. injection Hm as <-. apply claim_owed in Ec. apply lease_owed in Ec as [Ho Hg]. destruct (Hg Hw). split; [split|done]; [done|].
    apply Forall_app_2; [done|]. apply Forall_forall. intros p (id & Hid & Hp)%list_elem_of_omap. eapply attempt_of_honest, Hp; [done|].
    intros i r ->%list_elem_of_singleton. by apply Ho.
  - case_match eqn:Ep; [|done]. pose proof (proj1 (Forall_lookup _ _) Ht _ _ Ep) as Hp. destruct (step_task _ _ _) as [[w' o]|] eqn:Es; [|done].
    apply step_task_ok in Es as [Hg Ho]; [|done]. destruct (Hg Hw). destruct o as [p'|]; injection Hm as <-; (split; [split|done]; [done|]).
    + apply Forall_insert; [done|by apply Ho].
    + by apply Forall_delete.
  - injection Hm as <-. split; [split; [done|by apply Forall_delete]|done].
  - case_match; [done|]. case_match eqn:Ed; [|done]. injection Hm as <-. eapply Hdraw; [exact Ed|]. apply fanOutActivity_fresh.
  - case_match; [done|]. case_match eqn:Ed; [|done]. injection Hm as <-. eapply Hdraw; [exact Ed|]. apply deliver_fresh.
  - case_match eqn:Ed; [|done]. injection Hm as <-. apply drawing_fresh in Ed as [(Hd & Hg & _) _]; [|done].
    destruct (createWebhook_step id home local seal_url secretEnc i _ Hd). split; [done|]. cbn. by etrans.
  - injection Hm as <-. apply Hstep, updateWebhook_step.
  - injection Hm as <-. apply Hstep, deleteWebhook_step.
  - injection Hm as <-. apply Hstep, rotate_step.
  - case_match eqn:Ed; [|done]. injection Hm as <-. apply drawing_fresh in Ed as [Hd _]; [|done].
    apply (sendTest_fresh _ id _ payload) in Hd as [(? & ? & _) Hp]. split; [split|done]; [done|]. cbn.
    destruct (sendTestDelivery _ _ _ _ _ _ _ _ _) as [w' [p|e]]; [|done]. apply Forall_app_2; [done|]. apply Forall_singleton. by apply Hp.
  - case_match eqn:Ed; [|done]. injection Hm as <-. eapply Hdraw; [exact Ed|]. apply redeliver_fresh.
  - injection Hm as <-. apply Hstep, prune_step.
Qed.

Lemma moves_kept mvs m m' :
  wh_moves openWebhookUrl openWebhookSecret renderWebhookBody hmac_hex projects mvs m = Some m' -> machine_ok m ->
  machine_ok m' /\ grows (wm_world m) (wm_world m').
Proof.
  revert m. induction mvs as [|mv mvs IH]; intros m; cbn; [by intros [= <-]|]. destruct (the_move mv m) as [m1|] eqn:E; [|done].
  intros Hr Hok. destruct (move_kept _ _ _ E Hok) as [H1 Hg]. destruct (IH _ Hr H1). split; [done|]. by etrans.
Qed.

Lemma empty_webhooks_ok : machine_ok empty_webhooks.
Proof. split; [|done]. by split. Qed.
End kept.

(** C3: however attempts, fan-out, tests, re-deliveries, management, failing
    commands and crashes interleave, a delivery settles once, within its eight
    attempts.  A row that is pending has none counted, a failed one between one
    and seven, a settled one at most eight, and [deliveredAt] is set exactly on
    the delivered; its webhook exists, and an event queued under a key is queued
    at most once per webhook, however often it is fanned out again.  What a row
    is about, its payload included, never changes; one that is delivered or
    given up never changes at all, and one that is gone does not come back.
    A webhook is enabled exactly when it is active, and subscribes to work-item
    events only, at least one, each once. *)
Theorem deliveries_settle_once `{UrlApi} openUrl openSecret render hmac projects before after m m' :
  wh_moves openUrl openSecret render hmac projects before empty_webhooks = Some m ->
  wh_moves openUrl openSecret render hmac projects after m = Some m' ->
  let rows := ww_deliveries (wm_world m) in
  let rows' := ww_deliveries (wm_world m') in
  (forall id r, rows' !! id = Some r -> row_ok r /\ is_Some (ww_hooks (wm_world m') !! dv_webhookId r)) /\
  (forall i j r s k, rows' !! i = Some r -> rows' !! j = Some s -> dv_webhookId r = dv_webhookId s ->
     dv_sourceKey r = Some k -> dv_sourceKey s = Some k -> i = j) /\
  (forall id r', id ∈ ww_ids (wm_world m) -> rows' !! id = Some r' ->
     exists r, rows !! id = Some r /\ same_event r r' /\ (owed r = false -> r' = r)) /\
  (forall id h, ww_hooks (wm_world m') !! id = Some h -> hook_ok h).
Proof.
  intros Hb Ha rows rows'. destruct (moves_kept _ _ _ _ _ _ _ _ Hb empty_webhooks_ok) as [Hok _].
  destruct (moves_kept _ _ _ _ _ _ _ _ Ha Hok) as [[[Hr Ho Hh] _] [_ Hg]]. split_and!; [|exact Ho| |exact Hh].
  - intros id r Hi. by destruct (Hr _ _ Hi) as (? & _ & ?).
  - intros id r' Hid Hr'. specialize (Hg id Hid). fold rows rows' in Hg. rewrite Hr' in Hg. destruct (rows !! id) as [r|]; [|done]. eauto.
Qed.

(** ** A run: one event, delivered to a box of the LAN on the second attempt *)

#[local] Existing Instance toy_UrlApi.

Definition toy_projects (p : jsstr) : option jsstr := if bool_decide (p = js "p1") then Some (js "home") else None.
Definition toy_moves : list WhMove -> WhMachine -> option WhMachine := wh_moves toy_open toy_secret toy_render toy_hmac toy_projects.

Definition nas_hook : WebhookInput := mkWebhookInput (js "NAS") (js "http://nas.local/hook") (js "generic") [js "work_item.created"] None.
Definition fan_out (ids : list jsstr) : WhMove := W_FanOut (js "a1") (js "created") (Some (js "i1")) (js "p1") JNull ids.

Definition first_moves : list WhMove :=
  [W_Create (js "h1") (js "home") box_facts id (js "sealed") nas_hook; fan_out [js "d1"]; W_Claim [js "d1"];
   W_Step 0 (I_db Works); W_Step 0 (I_net (A_local (Some box_facts))); W_Step 0 (I_net (A_lookup (Some nas_answers)));
   W_Step 0 (I_sent (Throw (Failure (js "Error") (js "ECONNREFUSED")))); W_Step 0 (I_db Works); W_Step 0 (I_db LostReply); W_Step 0 (I_db Works);
   W_Tick 60000; W_Claim [js "d1"]; W_Step 0 (I_db Works); W_Step 0 (I_net (A_local (Some box_facts)));
   W_Step 0 (I_net (A_lookup (Some nas_answers))); W_Step 0 (I_sent (Ok 204)); W_Step 0 (I_db Works)].

Definition later_moves : list WhMove := [fan_out [js "d2"]; W_Tick 60000; W_Redeliver (js "h1") (js "d1") (js "d3")].

Definition shown (m : WhMachine) : list (jsstr * DeliveryStatus * Z * option Z) :=
  (fun e => (e.1, dv_status e.2, dv_attempts e.2, dv_deliveredAt e.2)) <$> map_to_list (ww_deliveries (wm_world m)).

Definition after_moves (mvs : list WhMove) (m : WhMachine) : WhMachine := default empty_webhooks (toy_moves mvs m).
Definition delivered_world : WhMachine := after_moves first_moves empty_webhooks.

Lemma reached {A} (o : option A) d : bool_decide (is_Some o) = true -> o = Some (default d o).
Proof. by destruct o. Qed.

Lemma deliveries_settle_once_witness :
  let m' := after_moves later_moves delivered_world in
  toy_moves first_moves empty_webhooks = Some delivered_world /\ toy_moves later_moves delivered_world = Some m' /\
  shown m' = [(js "d3", PENDING, 0, None); (js "d1", DELIVERED, 2, Some 60000)] /\
  (forall r, ww_deliveries (wm_world m') !! js "d3" = Some r -> row_ok r) /\
  ww_deliveries (wm_world m') !! js "d1" = ww_deliveries (wm_world delivered_world) !! js "d1".
Proof.
  intros m'. assert (H1 : toy_moves first_moves empty_webhooks = Some delivered_world) by (apply reached; by vm_compute).
  assert (H2 : toy_moves later_moves delivered_world = Some m') by (apply reached; by vm_compute).
  destruct (deliveries_settle_once toy_open toy_secret toy_render toy_hmac toy_projects first_moves later_moves _ _ H1 H2) as (Hr & _ & Hold & _).
  split; [exact H1|]. split; [exact H2|]. split; [by vm_compute|]. split; [intros r Hd; exact (proj1 (Hr _ _ Hd))|].
  destruct (ww_deliveries (wm_world m') !! js "d1") as [r'|] eqn:E; [|exfalso; revert E; by vm_compute].
  destruct (Hold (js "d1") r') as (r & Hr1 & _ & Hs); [by apply (bool_decide_unpack (js "d1" ∈ ww_ids (wm_world delivered_world))); vm_compute|done|].
  rewrite Hr1. f_equal. apply Hs. revert Hr1. clear. intros Hr1. assert (owed <$> ww_deliveries (wm_world delivered_world) !! js "d1" = Some false) as Ho by by vm_compute.
  rewrite Hr1 in Ho. by injection Ho.
Defined.
