(* ===== verification/SecondFactor.v ===== *)
(** * SecondFactor: codes that work once
      (apps/orchestrator/src/services/totp.service.ts, recovery.service.ts,
      login-second-factor.service.ts, webauthn-challenge.service.ts, and the routes
      /auth/totp/enroll, /auth/totp/verify and /auth/recovery of routes/auth.ts)

    Each operation is a program of database commands ([Prog]), and a pool runs any
    number of requests between one another's commands, with commands that fail and
    requests that stop.  The TOTP check of otplib, argon2id, the encryption of a
    secret and the random values are parameters. *)

From S2P Require Import Prelude JsNum Prog DateTime DateText.

Local Open Scope Z_scope.

(** ** The tables *)

Record TotpRow := mkTotp { tc_secretEnc : jsstr; tc_confirmedAt : option Z; tc_lastAcceptedStep : Z }.
Record CodeRow := mkCode { rc_userId : jsstr; rc_codeHash : jsstr; rc_usedAt : option Z }.

Inductive ChallengeType := REGISTRATION | AUTHENTICATION.
#[export] Instance ChallengeType_eq_dec : EqDecision ChallengeType.
Proof. solve_decision. Defined.

Record ChallengeRow := mkChallenge { ch_challenge : jsstr; ch_type : ChallengeType; ch_userId : option jsstr; ch_expiresAt : Z }.

(** Identifiers of rows are drawn in order from [fw_next]. *)
Record FactorWorld := mkFactorWorld {
  fw_now : Z; fw_totp : gmap jsstr TotpRow; fw_codes : gmap nat CodeRow; fw_challenges : gmap nat ChallengeRow; fw_next : nat
}.

Definition set_totp (t : gmap jsstr TotpRow) (w : FactorWorld) : FactorWorld :=
  mkFactorWorld (fw_now w) t (fw_codes w) (fw_challenges w) (fw_next w).
Definition set_codes (c : gmap nat CodeRow) (w : FactorWorld) : FactorWorld :=
  mkFactorWorld (fw_now w) (fw_totp w) c (fw_challenges w) (fw_next w).
Definition set_challenges (c : gmap nat ChallengeRow) (w : FactorWorld) : FactorWorld :=
  mkFactorWorld (fw_now w) (fw_totp w) (fw_codes w) c (fw_next w).
Definition set_next_id (n : nat) (w : FactorWorld) : FactorWorld :=
  mkFactorWorld (fw_now w) (fw_totp w) (fw_codes w) (fw_challenges w) n.

(** *** The statements *)

(** [updateMany] on a person's credential: the rows counted. *)
Definition update_totp (userId : jsstr) (where_ : TotpRow -> bool) (f : TotpRow -> TotpRow) (w : FactorWorld) : FactorWorld * Z :=
  match fw_totp w !! userId with
  | Some r => if where_ r then (set_totp (<[userId := f r]> (fw_totp w)) w, 1) else (w, 0)
  | None => (w, 0)
  end.

Definition claim_step (userId secretEnc : jsstr) (step : Z) : FactorWorld -> FactorWorld * Z :=
  update_totp userId (fun r => bool_decide (tc_secretEnc r = secretEnc) && (tc_lastAcceptedStep r <? step))
    (fun r => mkTotp (tc_secretEnc r) (tc_confirmedAt r) step).

Definition reset_pending (userId secretEnc : jsstr) : FactorWorld -> FactorWorld * Z :=
  update_totp userId (fun r => bool_decide (tc_confirmedAt r = None)) (fun r => mkTotp secretEnc (tc_confirmedAt r) (tc_lastAcceptedStep r)).

Definition confirm_totp (userId secretEnc : jsstr) (at_ : Z) : FactorWorld -> FactorWorld * Z :=
  update_totp userId (fun r => bool_decide (tc_secretEnc r = secretEnc) && bool_decide (tc_confirmedAt r = None))
    (fun r => mkTotp (tc_secretEnc r) (Some at_) (tc_lastAcceptedStep r)).

(** The unique index on [userId] refuses a second row. *)
Definition create_totp (userId secretEnc : jsstr) (w : FactorWorld) : option FactorWorld :=
  match fw_totp w !! userId with
  | Some _ => None
  | None => Some (set_totp (<[userId := mkTotp secretEnc None 0]> (fw_totp w)) w)
  end.

(** A person's unused codes, in the order of their identifiers. *)
Definition unused_codes (userId : jsstr) (w : FactorWorld) : list (nat * CodeRow) :=
  filter (fun e => rc_userId e.2 = userId /\ rc_usedAt e.2 = None) (map_to_list (fw_codes w)).

Definition claim_code (id : nat) (at_ : Z) (w : FactorWorld) : FactorWorld * Z :=
  match fw_codes w !! id with
  | Some r => if bool_decide (rc_usedAt r = None)
              then (set_codes (<[id := mkCode (rc_userId r) (rc_codeHash r) (Some at_)]> (fw_codes w)) w, 1) else (w, 0)
  | None => (w, 0)
  end.

Definition delete_codes (userId : jsstr) (w : FactorWorld) : FactorWorld :=
  set_codes (filter (fun e => rc_userId e.2 <> userId) (fw_codes w)) w.

Fixpoint create_codes (userId : jsstr) (hashes : list jsstr) (w : FactorWorld) : FactorWorld :=
  match hashes with
  | [] => w
  | h :: r => create_codes userId r (set_next_id (S (fw_next w)) (set_codes (<[fw_next w := mkCode userId h None]> (fw_codes w)) w))
  end.

Definition find_challenge (challenge : jsstr) (w : FactorWorld) : option (nat * ChallengeRow) :=
  List.find (fun e => bool_decide (ch_challenge e.2 = challenge)) (map_to_list (fw_challenges w)).

Definition create_challenge (r : ChallengeRow) (w : FactorWorld) : option FactorWorld :=
  match find_challenge (ch_challenge r) w with
  | Some _ => None
  | None => Some (set_next_id (S (fw_next w)) (set_challenges (<[fw_next w := r]> (fw_challenges w)) w))
  end.

(** [delete] of one row throws when it is not there. *)
Definition delete_challenge (id : nat) (w : FactorWorld) : option FactorWorld :=
  match fw_challenges w !! id with Some _ => Some (set_challenges (delete id (fw_challenges w)) w) | None => None end.

(** The oldest expired challenges; identifiers are drawn in the order of
    [createdAt]. *)
Definition expired_challenges (now : Z) (take_ : nat) (w : FactorWorld) : list nat :=
  take take_ (sort_by (fun a b => Z.of_nat a - Z.of_nat b) (filter (fun e => ch_expiresAt e.2 < now) (map_to_list (fw_challenges w))).*1).

Definition delete_challenges (ids : list nat) (w : FactorWorld) : FactorWorld * Z :=
  (set_challenges (filter (fun e => e.1 ∉ ids) (fw_challenges w)) w,
   Z.of_nat (length (filter (fun id => is_Some (fw_challenges w !! id)) ids))).

(** ** Commands

    A database command answers [None] when it throws; [StepUp] is the credential
    step-up in front of the enrolment routes, [RevokeOthers] the session sweep. *)
Inductive fcommand : Set -> Type :=
| Now : fcommand Z
| StepUp (userId : jsstr) : fcommand (option bool)
| FindTotp (userId : jsstr) : fcommand (option (option TotpRow))
| ClaimStep (userId secretEnc : jsstr) (step : Z) : fcommand (option Z)
| ResetPending (userId secretEnc : jsstr) : fcommand (option Z)
| CreateTotp (userId secretEnc : jsstr) : fcommand (option unit)
| ConfirmTotp (userId secretEnc : jsstr) (at_ : Z) : fcommand (option Z)
| FindUnused (userId : jsstr) : fcommand (option (list (nat * CodeRow)))
| ClaimCode (id : nat) (at_ : Z) : fcommand (option Z)
| DeleteCodes (userId : jsstr) : fcommand (option unit)
| CreateCodes (userId : jsstr) (hashes : list jsstr) : fcommand (option unit)
| RevokeOthers (userId : jsstr) : fcommand (option Z)
| CreateChallenge (r : ChallengeRow) : fcommand (option unit)
| FindChallenge (challenge : jsstr) : fcommand (option (option (nat * ChallengeRow)))
| DeleteChallenge (id : nat) : fcommand (option unit)
| FindExpired (now : Z) (take_ : nat) : fcommand (option (list nat))
| DeleteMany (ids : list nat) : fcommand (option Z).

(** A program that may throw. *)
Abbreviation fprog A := (prog fcommand (option A)).

(** What the outside lets a command do. *)
Inductive finput := F_db (f : Fault) | F_bool (b : option bool) | F_count (n : option Z) | F_tick (ms : Z).

(** A statement that throws of itself changes nothing. *)
Definition faulty_opt {X : Set} (f : Fault) (w : FactorWorld) (r : option FactorWorld) (x : X) : FactorWorld * option X :=
  match r with Some w' => faulty f w w' x | None => (w, None) end.

Definition fexec (X : Set) (inp : finput) (c : fcommand X) (w : FactorWorld) : option (FactorWorld * X) :=
  match c in fcommand X return option (FactorWorld * X) with
  | Now => match inp with
           | F_tick ms => if 0 <=? ms then Some (mkFactorWorld (fw_now w + ms) (fw_totp w) (fw_codes w) (fw_challenges w) (fw_next w), fw_now w + ms) else None
           | _ => None
           end
  | StepUp _ => match inp with F_bool b => Some (w, b) | _ => None end
  | RevokeOthers _ => match inp with F_count n => Some (w, n) | _ => None end
  | FindTotp u => match inp with F_db f => Some (faulty f w w (fw_totp w !! u)) | _ => None end
  | ClaimStep u e s => match inp with F_db f => Some (faulty f w (claim_step u e s w).1 (claim_step u e s w).2) | _ => None end
  | ResetPending u e => match inp with F_db f => Some (faulty f w (reset_pending u e w).1 (reset_pending u e w).2) | _ => None end
  | CreateTotp u e => match inp with F_db f => Some (faulty_opt f w (create_totp u e w) tt) | _ => None end
  | ConfirmTotp u e t => match inp with F_db f => Some (faulty f w (confirm_totp u e t w).1 (confirm_totp u e t w).2) | _ => None end
  | FindUnused u => match inp with F_db f => Some (faulty f w w (unused_codes u w)) | _ => None end
  | ClaimCode id t => match inp with F_db f => Some (faulty f w (claim_code id t w).1 (claim_code id t w).2) | _ => None end
  | DeleteCodes u => match inp with F_db f => Some (faulty f w (delete_codes u w) tt) | _ => None end
  | CreateCodes u hs => match inp with F_db f => Some (faulty f w (create_codes u hs w) tt) | _ => None end
  | CreateChallenge r => match inp with F_db f => Some (faulty_opt f w (create_challenge r w) tt) | _ => None end
  | FindChallenge v => match inp with F_db f => Some (faulty f w w (find_challenge v w)) | _ => None end
  | DeleteChallenge id => match inp with F_db f => Some (faulty_opt f w (delete_challenge id w) tt) | _ => None end
  | FindExpired now n => match inp with F_db f => Some (faulty f w w (expired_challenges now n w)) | _ => None end
  | DeleteMany ids => match inp with F_db f => Some (faulty f w (delete_challenges ids w).1 (delete_challenges ids w).2) | _ => None end
  end.

(** ** The operations *)

Section operations.
(** otplib's [verify] with its window of one period: the step a code matches,
    later than the one given; [None] when none does or it throws.  The secret's
    cipher throws with [None]. *)
Context (totp_verify : jsstr -> jsstr -> Z -> Z -> option Z).
Context (decryptTotpSecret : jsstr -> option jsstr).
Context (verifyPassword : jsstr -> jsstr -> bool).

(** *** totp.service.ts *)

(** [TOTP_CODE_RE] *)
Definition six_digits (code : jsstr) : bool := Nat.eqb (length code) 6 && forallb digitb code.

Definition verifyTotpCodeStep (secret code : jsstr) (afterTimeStep now : Z) : option Z :=
  if six_digits code then totp_verify secret code afterTimeStep now else None.

Definition acceptTotpCode (userId : jsstr) (cred : TotpRow) (code : jsstr) : fprog bool :=
  match decryptTotpSecret (tc_secretEnc cred) with
  | None => Ret None
  | Some secret =>
      now <~ Now;
      match verifyTotpCodeStep secret code (tc_lastAcceptedStep cred) now with
      | None => Ret (Some false)
      | Some step => awaiting (ClaimStep userId (tc_secretEnc cred) step) (fun count => Ret (Some (0 <? count)))
      end
  end.

(** *** recovery.service.ts *)

Definition normalizeCode (raw : jsstr) : jsstr := toLowerCase (trim raw).

Definition findMatchingRecoveryCodeHash (candidate : jsstr) (storedHashes : list jsstr) : option jsstr :=
  match normalizeCode candidate with
  | [] => None
  | normalized => List.find (fun hash => verifyPassword hash normalized) storedHashes
  end.

(** The codes left, or nothing consumed. *)
Definition consumeRecoveryCode (userId candidate : jsstr) : fprog (option Z) :=
  awaiting (FindUnused userId) (fun unused =>
  match findMatchingRecoveryCodeHash candidate (rc_codeHash <$> unused.*2) with
  | None | Some [] => Ret (Some None)
  | Some matchHash =>
      match List.find (fun e => bool_decide (rc_codeHash e.2 = matchHash)) unused with
      | None => Ret (Some None)
      | Some (id, _) =>
          now <~ Now;
          awaiting (ClaimCode id now) (fun count =>
          Ret (Some (if count =? 0 then None else Some (Z.of_nat (length unused) - 1))))
      end
  end).

(** *** login-second-factor.service.ts *)

Inductive LoginSecondFactorOutcome := not_enrolled | passed | failed.

(** [totp] and [recoveryCode], [None] when they are not strings. *)
Definition checkLoginSecondFactor (userId : jsstr) (totp recoveryCode : option jsstr) : fprog LoginSecondFactorOutcome :=
  awaiting (FindTotp userId) (fun cred =>
  match cred with
  | Some (mkTotp _ (Some _) _ as cred) =>
      let totpCode := match totp with Some t => trim t | None => [] end in
      let recoveryCode := default [] recoveryCode in
      match totpCode, recoveryCode with
      | _ :: _, _ => then_ (acceptTotpCode userId cred totpCode) (fun ok => Ret (Some (if (ok : bool) then passed else failed)))
      | [], _ :: _ =>
          then_ (consumeRecoveryCode userId recoveryCode) (fun r => Ret (Some (match r with Some _ => passed | None => failed end)))
      | [], [] => Ret (Some failed)
      end
  | _ => Ret (Some not_enrolled)
  end).

(** *** routes/auth.ts: enrolment, confirmation, recovery *)

Inductive FactorAnswer :=
| A_login (o : LoginSecondFactorOutcome) | A_stepUp | A_already | A_enrolled | A_not_enrolled | A_invalid | A_enabled (codes : list jsstr)
| A_recovered (remaining : Z) | A_minted | A_consumed (row : ChallengeRow) | A_missed | A_pruned (n : Z).

(** [secretEnc] is the new secret, sealed. *)
Definition enroll (userId secretEnc : jsstr) : fprog FactorAnswer :=
  awaiting (FindTotp userId) (fun existing =>
  match existing with
  | Some (mkTotp _ (Some _) _) => Ret (Some A_already)
  | _ =>
      awaiting (StepUp userId) (fun ok =>
      if negb ok then Ret (Some A_stepUp) else
      let finish := awaiting (DeleteCodes userId) (fun _ => Ret (Some A_enrolled)) in
      awaiting (ResetPending userId secretEnc) (fun reset =>
      if negb (reset =? 0) then finish else
      awaiting (FindTotp userId) (fun row =>
      match row with
      | Some _ => Ret (Some A_already)
      | None => awaiting (CreateTotp userId secretEnc) (fun _ => finish)
      end)))
  end).

(** [codes] are the recovery codes drawn, [hashes] what is stored of them.  The
    audit rows written at the end are left out. *)
Definition verify (userId code : jsstr) (codes hashes : list jsstr) : fprog FactorAnswer :=
  awaiting (StepUp userId) (fun ok =>
  if negb ok then Ret (Some A_stepUp) else
  awaiting (FindTotp userId) (fun cred =>
  match cred with
  | None => Ret (Some A_not_enrolled)
  | Some cred =>
      then_ (acceptTotpCode userId cred code) (fun codeOk =>
      if negb codeOk then Ret (Some A_invalid) else
      match tc_confirmedAt cred with
      | Some _ => Ret (Some (A_enabled []))
      | None =>
          now <~ Now;
          awaiting (ConfirmTotp userId (tc_secretEnc cred) now) (fun confirmed =>
          if confirmed =? 0 then
            awaiting (FindTotp userId) (fun row =>
            Ret (Some (match row with
                       | Some (mkTotp secretEnc (Some _) _) => if bool_decide (secretEnc = tc_secretEnc cred) then A_enabled [] else A_invalid
                       | _ => A_invalid
                       end)))
          else
            awaiting (DeleteCodes userId) (fun _ =>
            awaiting (CreateCodes userId hashes) (fun _ =>
            awaiting (RevokeOthers userId) (fun _ => Ret (Some (A_enabled codes))))))
      end)
  end)).

Definition recovery (userId code : jsstr) : fprog FactorAnswer :=
  then_ (consumeRecoveryCode userId code) (fun r => Ret (Some (match r with Some n => A_recovered n | None => A_invalid end))).

(** *** webauthn-challenge.service.ts *)

Definition WEBAUTHN_CHALLENGE_TTL_MS : Z := 5 * 60 * 1000.

Definition createChallenge (challenge : jsstr) (type : ChallengeType) (userId : option jsstr) : fprog FactorAnswer :=
  now <~ Now;
  awaiting (CreateChallenge (mkChallenge challenge type userId (now + WEBAUTHN_CHALLENGE_TTL_MS))) (fun _ => Ret (Some A_minted)).

(** The delete's failure is a miss. *)
Definition consumeChallenge (challenge : jsstr) (type : ChallengeType) : fprog FactorAnswer :=
  awaiting (FindChallenge challenge) (fun row =>
  match row with
  | None => Ret (Some A_missed)
  | Some (id, row) =>
      if negb (bool_decide (ch_type row = type)) then Ret (Some A_missed) else
      try_op (DeleteChallenge id) (Ret (Some A_missed)) (fun _ =>
      now <~ Now;
      Ret (Some (if ch_expiresAt row <=? now then A_missed else A_consumed row)))
  end).

Definition DEFAULT_PRUNE_BATCH_SIZE : Z := 5000.
Definition DEFAULT_PRUNE_MAX_ROWS : Z := 100000.

(** [fuel] rounds of at least one row each are enough when it is more than the
    cap. *)
Fixpoint prune_batches (fuel : nat) (now batchSize maxRowsPerRun deleted : Z) : fprog FactorAnswer :=
  if negb (deleted <? maxRowsPerRun) then Ret (Some (A_pruned deleted)) else
  match fuel with
  | O => Ret (Some (A_pruned deleted))
  | S fuel =>
      let take_ := Z.to_nat (Z.min batchSize (maxRowsPerRun - deleted)) in
      awaiting (FindExpired now take_) (fun batch =>
      match batch with
      | [] => Ret (Some (A_pruned deleted))
      | _ =>
          awaiting (DeleteMany batch) (fun count =>
          if Nat.ltb (length batch) take_ then Ret (Some (A_pruned (deleted + count)))
          else prune_batches fuel now batchSize maxRowsPerRun (deleted + count))
      end)
  end.

Definition pruneExpiredChallenges (fuel : nat) (batchSize maxRowsPerRun : option Z) : fprog FactorAnswer :=
  now <~ Now;
  prune_batches fuel now (Z.max 1 (default DEFAULT_PRUNE_BATCH_SIZE batchSize)) (Z.max 1 (default DEFAULT_PRUNE_MAX_ROWS maxRowsPerRun)) 0.

(** ** The requests *)

Inductive FactorRequest :=
| Q_login (userId : jsstr) (totp recoveryCode : option jsstr)
| Q_enroll (userId secretEnc : jsstr)
| Q_verify (userId code : jsstr) (codes hashes : list jsstr)
| Q_recovery (userId code : jsstr)
| Q_mint (challenge : jsstr) (type : ChallengeType) (userId : option jsstr)
| Q_consume (challenge : jsstr) (type : ChallengeType)
| Q_prune (fuel : nat) (batchSize maxRowsPerRun : option Z).

Definition factor_program (q : FactorRequest) : fprog FactorAnswer :=
  match q with
  | Q_login u totp rc => then_ (checkLoginSecondFactor u totp rc) (fun o => Ret (Some (A_login o)))
  | Q_enroll u e => enroll u e
  | Q_verify u code codes hashes => verify u code codes hashes
  | Q_recovery u code => recovery u code
  | Q_mint v t u => createChallenge v t u
  | Q_consume v t => consumeChallenge v t
  | Q_prune n b m => pruneExpiredChallenges n b m
  end.

Definition empty_factors (now : Z) : FactorWorld := mkFactorWorld now ∅ ∅ ∅ 0.

Definition factor_moves (mvs : list (PoolMove FactorRequest finput)) (now : Z) :=
  pool_moves factor_program fexec mvs (pool_of (empty_factors now)).
End operations.

(** ** What an acceptance rests on *)

Definition deeds := list (event fcommand).

Section justified.
Context (totp_verify : jsstr -> jsstr -> Z -> Z -> option Z).
Context (decryptTotpSecret : jsstr -> option jsstr).
Context (verifyPassword : jsstr -> jsstr -> bool).

(** The code matched a step of the credential's secret, at a time the request
    read, and the request claimed that step. *)
Definition step_proof (h : deeds) (userId : jsstr) (cred : TotpRow) (code : jsstr) : Prop :=
  exists secret now step n, decryptTotpSecret (tc_secretEnc cred) = Some secret /\ six_digits code = true /\ Ev Now now ∈ h /\
    totp_verify secret code (tc_lastAcceptedStep cred) now = Some step /\ Ev (ClaimStep userId (tc_secretEnc cred) step) (Some n) ∈ h /\ 0 < n.

(** The code matched one of the person's unused codes, and the request claimed
    it. *)
Definition code_proof (h : deeds) (userId code : jsstr) : Prop :=
  exists unused id row now n, Ev (FindUnused userId) (Some unused) ∈ h /\ (id, row) ∈ unused /\
    verifyPassword (rc_codeHash row) (normalizeCode code) = true /\ Ev (ClaimCode id now) (Some n) ∈ h /\ n <> 0.

Definition login_proof (h : deeds) (userId : jsstr) (totp recoveryCode : option jsstr) (o : LoginSecondFactorOutcome) : Prop :=
  exists row, Ev (FindTotp userId) (Some row) ∈ h /\
    match row with
    | Some cred =>
        match o with
        | not_enrolled => tc_confirmedAt cred = None
        | failed => tc_confirmedAt cred <> None
        | passed => tc_confirmedAt cred <> None /\
            ((exists t, totp = Some t /\ step_proof h userId cred (trim t)) \/ (exists c, recoveryCode = Some c /\ code_proof h userId c))
        end
    | None => o = not_enrolled
    end.

(** What the answer of a request says it did. *)
Definition justified (q : FactorRequest) (h : deeds) (a : FactorAnswer) : Prop :=
  match q, a with
  | Q_login u totp rc, A_login o => login_proof h u totp rc o
  | Q_login _ _ _, _ => False
  | Q_verify u code _ _, A_enabled _ => exists cred, Ev (FindTotp u) (Some (Some cred)) ∈ h /\ step_proof h u cred code
  | Q_recovery u code, A_recovered _ => code_proof h u code
  | Q_consume v ty, A_consumed row =>
      ch_type row = ty /\
      exists id now, Ev (FindChallenge v) (Some (Some (id, row))) ∈ h /\ Ev (DeleteChallenge id) (Some tt) ∈ h /\ Ev Now now ∈ h /\ now < ch_expiresAt row
  | _, _ => True
  end.

(** A credential is only confirmed for a secret that a code has proven. *)
Definition proven (h : deeds) (userId secretEnc : jsstr) : Prop :=
  exists cred code, tc_secretEnc cred = secretEnc /\ Ev (FindTotp userId) (Some (Some cred)) ∈ h /\ step_proof h userId cred code.

Definition factor_needs (X : Set) (h : deeds) (c : fcommand X) : Prop :=
  match c with ConfirmTotp u e _ => proven h u e | _ => True end.

Lemma step_proof_mono h h' u cred code : h ⊆ h' -> step_proof h u cred code -> step_proof h' u cred code.
Proof. intros Hs (secret & now & step & n & ? & ? & ? & ? & ? & ?). exists secret, now, step, n. split_and!; auto. Qed.

Lemma code_proof_mono h h' u code : h ⊆ h' -> code_proof h u code -> code_proof h' u code.
Proof. intros Hs (unused & id & row & now & n & ? & ? & ? & ? & ?). exists unused, id, row, now, n. split_and!; auto. Qed.

Lemma factor_needs_mono (X : Set) h h' (c : fcommand X) : h ⊆ h' -> factor_needs X h c -> factor_needs X h' c.
Proof.
  intros Hs. destruct c; cbn; try done. intros (cred & code & ? & ? & ?). exists cred, code. split_and!; [done|by apply Hs|by eapply step_proof_mono].
Qed.

#[local] Instance factor_protocol : Protocol fcommand := trace_protocol factor_needs factor_needs_mono.

(** What holds if the program did not throw. *)
Definition unless_threw {A} (Q : deeds -> A -> Prop) (h : deeds) (o : option A) : Prop := match o with Some a => Q h a | None => True end.

Abbreviation fsafe Q h p := (@safe fcommand factor_protocol _ (unless_threw Q) h p).

Lemma safe_awaiting {A} {X : Set} (Q : deeds -> A -> Prop) h (c : fcommand (option X)) (k : X -> fprog A) :
  factor_needs _ h c -> (forall h' x, h ⊆ h' -> Ev c (Some x) ∈ h' -> fsafe Q h' (k x)) -> fsafe Q h (awaiting c k).
Proof. intros Hn Hk. by apply safe_try. Qed.

Lemma safe_now {A} (Q : deeds -> A -> Prop) h (k : Z -> fprog A) :
  (forall h' now, h ⊆ h' -> Ev Now now ∈ h' -> fsafe Q h' (k now)) -> fsafe Q h (Op Now k).
Proof. intros Hk. by apply safe_op. Qed.

Lemma safe_then {A B} (Q : deeds -> A -> Prop) (R : deeds -> B -> Prop) h (p : fprog A) (k : A -> fprog B) :
  fsafe Q h p -> (forall h' a, h ⊆ h' -> Q h' a -> fsafe R h' (k a)) -> fsafe R h (then_ p k).
Proof. intros Hp Hk. eapply safe_bind; [exact Hp|]. intros h' [a|] Hle Ha; [by apply Hk|done]. Qed.

Lemma acceptTotpCode_safe h u cred code :
  fsafe (fun h (ok : bool) => ok = true -> step_proof h u cred code) h (acceptTotpCode totp_verify decryptTotpSecret u cred code).
Proof.
  unfold acceptTotpCode, verifyTotpCodeStep. destruct (decryptTotpSecret _) as [secret|] eqn:Es; [|done]. apply safe_now. intros h1 now _ Hnow.
  destruct (six_digits code) eqn:Ed; [|done]. destruct (totp_verify _ _ _ _) as [step|] eqn:Ev_; [|done].
  apply safe_awaiting; [done|]. intros h2 n Hle Hc. cbn. intros Hn. exists secret, now, step, n. split_and!; auto. lia.
Qed.

Lemma consumeRecoveryCode_safe h u code :
  fsafe (fun h r => is_Some r -> code_proof h u code) h (consumeRecoveryCode verifyPassword u code).
Proof.
  apply safe_awaiting; [done|]. intros h1 unused _ Hu. cbn. destruct (findMatchingRecoveryCodeHash _ _ _) as [[|x hash]|] eqn:Em; try by intros [? [=]].
  destruct (List.find _ unused) as [[id row]|] eqn:Ef; [|by intros [? [=]]]. apply find_some in Ef as [Hin%list_elem_of_In Heq%bool_decide_eq_true].
  apply safe_now. intros h2 now Hle2 _. apply safe_awaiting; [done|]. intros h3 n Hle3 Hc. cbn. destruct (n =? 0) eqn:En; [by intros [? [=]]|].
  intros _. exists unused, id, row, now, n. split_and!; [by apply Hle3, Hle2|done| |done|lia].
  cbn in Heq. rewrite Heq. revert Em. unfold findMatchingRecoveryCodeHash. destruct (normalizeCode code); [done|]. by intros [_ ?]%find_some.
Qed.

Lemma step_proof_sub h h' u cred code : step_proof h u cred code -> h ⊆ h' -> step_proof h' u cred code.
Proof. intros. by eapply step_proof_mono. Qed.

Lemma checkLoginSecondFactor_safe h u totp rc :
  fsafe (fun h o => login_proof h u totp rc o) h (checkLoginSecondFactor totp_verify decryptTotpSecret verifyPassword u totp rc).
Proof.
  apply safe_awaiting; [done|]. intros h1 row _ Hrow. destruct row as [[enc [at_|] last]|]; [|by exists (Some (mkTotp enc None last))|by exists None].
  set (cred := mkTotp enc (Some at_) last) in *.
  assert (Hp : forall h' (o : LoginSecondFactorOutcome), h1 ⊆ h' -> o <> not_enrolled ->
    (o = passed -> (exists t, totp = Some t /\ step_proof h' u cred (trim t)) \/ (exists c, rc = Some c /\ code_proof h' u c)) -> login_proof h' u totp rc o).
  { intros h' o Hle Hne Ho. exists (Some cred). split; [by apply Hle|]. destruct o; [done|by split; [|apply Ho]|done]. }
  cbv zeta. destruct (match totp with Some t => trim t | None => [] end) as [|x code] eqn:Et; [destruct (default [] rc) as [|y c] eqn:Er|].
  - by apply Hp.
  - eapply safe_then; [apply consumeRecoveryCode_safe|]. intros h2 r Hle Hr. apply Hp; [done|by destruct r|]. intros Hpass. right.
    destruct rc as [c'|]; [|done]. cbn in Er. subst c'. exists (y :: c). split; [done|]. apply Hr. by destruct r.
  - eapply safe_then; [apply acceptTotpCode_safe|]. intros h2 ok Hle Hok. apply Hp; [done|by destruct ok|]. intros Hpass. left.
    destruct totp as [t|]; [|done]. exists t. split; [done|]. rewrite Et. apply Hok. by destruct ok.
Qed.

Lemma safe_mono_post {A} (Q R : deeds -> A -> Prop) h (p : fprog A) : fsafe Q h p -> (forall h a, Q h a -> R h a) -> fsafe R h p.
Proof.
  intros Hp HQ. revert h Hp. induction p as [[a|]|X c k IH]; intros h Hp; [by apply HQ|done|]. destruct Hp as [Hn Hk]. split; [done|]. intros h' x Hle Ht.
  apply IH. by apply Hk.
Qed.

Lemma enroll_safe h u enc : fsafe (fun _ _ => True) h (enroll u enc).
Proof.
  assert (Hfin : forall h, fsafe (fun _ _ => True) h (awaiting (DeleteCodes u) (fun _ => Ret (Some A_enrolled)))).
  { intros h0. by apply safe_awaiting. }
  apply safe_awaiting; [done|]. intros h1 row _ _. assert (Hgo : fsafe (fun _ _ => True) h1 (awaiting (StepUp u) (fun ok =>
      if negb ok then Ret (Some A_stepUp) else
      awaiting (ResetPending u enc) (fun reset =>
      if negb (reset =? 0) then awaiting (DeleteCodes u) (fun _ => Ret (Some A_enrolled)) else
      awaiting (FindTotp u) (fun row =>
      match row with Some _ => Ret (Some A_already)
      | None => awaiting (CreateTotp u enc) (fun _ => awaiting (DeleteCodes u) (fun _ => Ret (Some A_enrolled))) end))))).
  { apply safe_awaiting; [done|]. intros h2 [] _ _; [|done]. apply safe_awaiting; [done|]. intros h3 n _ _. case_match; [apply Hfin|].
    apply safe_awaiting; [done|]. intros h4 [r|] _ _; [done|]. apply safe_awaiting; [done|]. intros. apply Hfin. }
  destruct row as [[? [?|] ?]|]; [done|exact Hgo|exact Hgo].
Qed.

Lemma verify_safe h u code codes hashes :
  fsafe (fun h a => justified (Q_verify u code codes hashes) h a) h (verify totp_verify decryptTotpSecret u code codes hashes).
Proof.
  apply safe_awaiting; [done|]. intros h1 [] _ _; [|done]. apply safe_awaiting; [done|]. intros h2 [cred|] _ Hcred; [|done].
  eapply safe_then; [apply acceptTotpCode_safe|]. intros h3 [] Hle3 Hok; [|done]. specialize (Hok eq_refl). cbn [negb].
  assert (Hin : Ev (FindTotp u) (Some (Some cred)) ∈ h3) by by apply Hle3.
  assert (Hend : forall h' l, h3 ⊆ h' -> justified (Q_verify u code codes hashes) h' (A_enabled l)).
  { intros h' l Hle. exists cred. split; [by apply Hle|by eapply step_proof_mono]. }
  destruct (tc_confirmedAt cred); [by apply Hend|]. apply safe_now. intros h4 now Hle4 _. apply safe_awaiting.
  - exists cred, code. split_and!; [done|by apply Hle4|by eapply step_proof_mono].
  - intros h5 n Hle5 _. assert (h3 ⊆ h5) by by etrans. case_match.
    + apply safe_awaiting; [done|]. intros h6 row Hle6 _. assert (h3 ⊆ h6) by by etrans. repeat case_match; cbn; try done. by apply Hend.
    + apply safe_awaiting; [done|]. intros h6 _ Hle6 _. apply safe_awaiting; [done|]. intros h7 _ Hle7 _. apply safe_awaiting; [done|].
      intros h8 _ Hle8 _. apply Hend. do 2 (etrans; [|eassumption]). by etrans.
Qed.

Lemma consumeChallenge_safe h v ty : fsafe (fun h a => justified (Q_consume v ty) h a) h (consumeChallenge v ty).
Proof.
  apply safe_awaiting; [done|]. intros h1 [[id row]|] _ Hf; [|done]. destruct (bool_decide_reflect (ch_type row = ty)) as [Ht|]; [|done]. cbn [negb].
  apply safe_try; [done|done|]. intros h2 [] Hle2 Hd. apply safe_now. intros h3 now Hle3 Hnow. cbn.
  destruct (ch_expiresAt row <=? now) eqn:E; cbn; [done|]. split; [done|]. exists id, now.
  split_and!; [by apply Hle3, Hle2|by apply Hle3|done|lia].
Qed.

Lemma prune_safe fuel h now b m d : fsafe (fun _ _ => True) h (prune_batches fuel now b m d).
Proof.
  revert h d. induction fuel as [|fuel IH]; intros h d; cbn; (case_match; [done|]); [done|]. apply safe_awaiting; [done|].
  intros h1 [|id ids] _ _; [done|]. apply safe_awaiting; [done|]. intros h2 n _ _. case_match; [done|apply IH].
Qed.

Abbreviation the_program := (factor_program totp_verify decryptTotpSecret verifyPassword).

Lemma factor_program_safe q h : fsafe (fun h a => justified q h a) h (the_program q).
Proof.
  destruct q; cbn [factor_program].
  - eapply safe_then; [apply checkLoginSecondFactor_safe|]. by intros h' o _ Ho.
  - eapply safe_mono_post; [apply enroll_safe|done].
  - apply verify_safe.
  - eapply safe_then; [apply consumeRecoveryCode_safe|]. intros h' [n|] _ Hr; cbn; [by apply Hr|done].
  - apply safe_now. intros h1 now _ _. by apply safe_awaiting.
  - apply consumeChallenge_safe.
  - apply safe_now. intros h1 now _ _. eapply safe_mono_post; [apply prune_safe|done].
Qed.

(** *** In a run *)

Lemma safe_trace q tr p : leads (the_program q) tr p -> fsafe (fun h a => justified q h a) tr p.
Proof.
  intros Hl. exact (@safe_leads _ factor_protocol _ (fun t => t) _ (trace_obs factor_needs factor_needs_mono) _ _ _ Hl [] (factor_program_safe q [])).
Qed.

Lemma run_justified q tr a : runs (the_program q) tr (Some a) -> justified q tr a.
Proof.
  intros Hr. exact (proj2 (@safe_runs _ factor_protocol _ (fun t => t) _ (trace_obs factor_needs factor_needs_mono) _ _ _ Hr [] (factor_program_safe q []))).
Qed.
End justified.

(** ** What the tables keep *)

(** What a command's answer says was used up. *)
Inductive Spent := Sp_step (userId : jsstr) (step : Z) | Sp_code (id : nat) | Sp_challenge (id : nat).

Definition spends (e : event fcommand) : option Spent :=
  match e with
  | Ev c x =>
      match c in fcommand X return X -> option Spent with
      | ClaimStep u _ step => fun x => match x with Some n => if 0 <? n then Some (Sp_step u step) else None | None => None end
      | ClaimCode id _ => fun x => match x with Some n => if 0 <? n then Some (Sp_code id) else None | None => None end
      | DeleteChallenge id => fun x => match x with Some _ => Some (Sp_challenge id) | None => None end
      | _ => fun _ => None
      end x
  end.

Definition used_up (s : Spent) (w : FactorWorld) : Prop :=
  match s with
  | Sp_step u step => exists r, fw_totp w !! u = Some r /\ step <= tc_lastAcceptedStep r
  | Sp_code id => (id < fw_next w)%nat /\ forall r, fw_codes w !! id = Some r -> rc_usedAt r <> None
  | Sp_challenge id => (id < fw_next w)%nat /\ fw_challenges w !! id = None
  end.

Definition drawn_ids (w : FactorWorld) : Prop :=
  (forall id, is_Some (fw_codes w !! id) -> (id < fw_next w)%nat) /\ (forall id, is_Some (fw_challenges w !! id) -> (id < fw_next w)%nat).

(** The tables move only one way. *)
Record moves_on (w w' : FactorWorld) : Prop := {
  mo_now : fw_now w <= fw_now w';
  mo_next : (fw_next w <= fw_next w')%nat;
  mo_totp : forall u r, fw_totp w !! u = Some r -> exists r', fw_totp w' !! u = Some r' /\ tc_lastAcceptedStep r <= tc_lastAcceptedStep r' /\
    (tc_confirmedAt r <> None -> tc_secretEnc r' = tc_secretEnc r /\ tc_confirmedAt r' = tc_confirmedAt r);
  mo_codes : forall id r', (id < fw_next w)%nat -> fw_codes w' !! id = Some r' -> exists r, fw_codes w !! id = Some r /\
    rc_userId r' = rc_userId r /\ rc_codeHash r' = rc_codeHash r /\ (rc_usedAt r <> None -> r' = r);
  mo_challenges : forall id r', (id < fw_next w)%nat -> fw_challenges w' !! id = Some r' -> fw_challenges w !! id = Some r'
}.

#[local] Instance moves_on_preorder : PreOrder moves_on.
Proof.
  split.
  - intros w. split; try done; [|by eauto]. intros u r Hr. exists r. split_and!; [done|lia|done].
  - intros w1 w2 w3 [N1 X1 T1 C1 H1] [N2 X2 T2 C2 H2]. split; [lia|lia| | |].
    + intros u r (r' & Hr' & Hl & Hc)%T1. destruct (T2 _ _ Hr') as (r2 & Hr2 & Hl2 & Hc2). exists r2. split_and!; [done|lia|].
      intros Hn. destruct (Hc Hn) as [Hs Ha]. rewrite <- Ha in Hn. destruct (Hc2 Hn). split; congruence.
    + intros id r3 Hid Hr3. destruct (C2 id r3 ltac:(lia) Hr3) as (r2 & Hr2 & Hu2 & Hh2 & Hk2). destruct (C1 id r2 Hid Hr2) as (r & Hr & Hu & Hh & Hk).
      exists r. split_and!; [done|congruence|congruence|]. intros Hn. specialize (Hk Hn). subst r2. by apply Hk2.
    + intros id r3 Hid Hr3. apply H1; [done|]. apply H2; [lia|done].
Qed.

Definition kept_on (w w' : FactorWorld) : Prop := drawn_ids w -> drawn_ids w' /\ moves_on w w'.

#[local] Instance kept_on_preorder : PreOrder kept_on.
Proof. split; [by intros w|]. intros w1 w2 w3 H12 H23 H. destruct (H12 H) as [H2 ?]. destruct (H23 H2). split; [done|]. by etrans. Qed.

Lemma kept_refl w : kept_on w w.
Proof. reflexivity. Qed.
#[local] Hint Resolve kept_refl : core.

Lemma update_totp_kept u where_ f w :
  (forall r, where_ r = true -> tc_lastAcceptedStep r <= tc_lastAcceptedStep (f r) /\
     (tc_confirmedAt r <> None -> tc_secretEnc (f r) = tc_secretEnc r /\ tc_confirmedAt (f r) = tc_confirmedAt r)) ->
  kept_on w (update_totp u where_ f w).1.
Proof.
  intros Hf. unfold update_totp. destruct (fw_totp w !! u) as [r0|] eqn:Er; [|done]. destruct (where_ r0) eqn:Ew; [|done].
  intros Hd. split; [exact Hd|]. split; cbn; [lia|lia| |by eauto|done]. intros u' r Hr. destruct (decide (u = u')) as [<-|Hne].
  - rewrite lookup_insert_eq. assert (r = r0) as -> by congruence. destruct (Hf _ Ew). by exists (f r0).
  - rewrite lookup_insert_ne by done. exists r. split_and!; [done|lia|done].
Qed.

Lemma new_code_kept r w : kept_on w (set_next_id (S (fw_next w)) (set_codes (<[fw_next w := r]> (fw_codes w)) w)).
Proof.
  intros [Hc Hh]. split; [split; cbn|split; cbn; [lia|lia| | |]].
  - intros id [x [[<- _]|[_ Hi]]%lookup_insert_Some]; [lia|]. assert (id < fw_next w)%nat by eauto. lia.
  - intros id Hi. assert (id < fw_next w)%nat by eauto. lia.
  - intros u r' Hr. exists r'. split_and!; [done|lia|done].
  - intros id r' Hid [[<- _]|[_ Hi]]%lookup_insert_Some; [lia|]. eauto.
  - done.
Qed.

Lemma create_codes_kept u hs w : kept_on w (create_codes u hs w).
Proof. revert w. induction hs as [|h hs IH]; intros w; [done|]. cbn. etrans; [apply new_code_kept|apply IH]. Qed.

Lemma delete_codes_kept u w : kept_on w (delete_codes u w).
Proof.
  intros [Hc Hh]. split; [split; cbn|split; cbn; [lia|lia| | |]]; try done.
  - intros id [x [Hi _]%map_lookup_filter_Some]. eauto.
  - intros u' r' Hr. exists r'. split_and!; [done|lia|done].
  - intros id r' Hid [Hi _]%map_lookup_filter_Some. eauto.
Qed.

Lemma claim_code_kept id t w : kept_on w (claim_code id t w).1.
Proof.
  unfold claim_code. destruct (fw_codes w !! id) as [r0|] eqn:Er; [|done]. case_bool_decide as Hn; [|done]. intros [Hc Hh].
  split; [split; cbn|split; cbn; [lia|lia| | |]]; try done.
  - intros i [x [[<- _]|[_ Hi]]%lookup_insert_Some]; eauto.
  - intros u' r' Hr. exists r'. split_and!; [done|lia|done].
  - intros i r' Hid [[<- <-]|[_ Hi]]%lookup_insert_Some; [|by eauto]. by exists r0.
Qed.

Lemma challenges_kept c n w :
  (fw_next w <= n)%nat -> (drawn_ids w -> forall id r, c !! id = Some r -> (id < n)%nat /\ ((id < fw_next w)%nat -> fw_challenges w !! id = Some r)) ->
  kept_on w (set_next_id n (set_challenges c w)).
Proof.
  intros Hn Hc Hd. specialize (Hc Hd). destruct Hd as [Hcd Hch]. split; [split; cbn|split; cbn; [lia|lia| | |]].
  - intros id Hi. assert (id < fw_next w)%nat by eauto. lia.
  - intros id [r Hi]. by apply (Hc id r).
  - intros u' r' Hr. exists r'. split_and!; [done|lia|done].
  - eauto.
  - intros id r' Hid Hi. by apply (Hc id r').
Qed.

Lemma create_challenge_kept r w w' : create_challenge r w = Some w' -> kept_on w w'.
Proof.
  unfold create_challenge. case_match; [done|]. intros [= <-]. apply (challenges_kept (<[fw_next w := r]> (fw_challenges w)) (S (fw_next w)) w); [lia|].
  intros [_ Hch] id x [[<- _]|[_ Hi]]%lookup_insert_Some; [split; lia|]. split; [|done]. assert (id < fw_next w)%nat by eauto. lia.
Qed.

Lemma fewer_challenges_kept c w : (forall id r, c !! id = Some r -> fw_challenges w !! id = Some r) -> kept_on w (set_challenges c w).
Proof.
  intros Hc. apply (challenges_kept c (fw_next w) w); [lia|]. intros [_ Hch] id r Hi%Hc. split; [by eauto|done].
Qed.

Lemma delete_challenge_kept id w w' : delete_challenge id w = Some w' -> kept_on w w'.
Proof. unfold delete_challenge. case_match; [|done]. intros [= <-]. apply fewer_challenges_kept. by intros i r [_ Hi]%lookup_delete_Some. Qed.

Lemma delete_challenges_kept ids w : kept_on w (delete_challenges ids w).1.
Proof. apply fewer_challenges_kept. by intros i r [Hi _]%map_lookup_filter_Some. Qed.

Lemma faulty_kept {X : Set} f w w1 (x : X) w' r : kept_on w w1 -> faulty f w w1 x = (w', r) -> kept_on w w'.
Proof. intros Hk He. by destruct f; injection He as <- _. Qed.

Lemma faulty_opt_kept {X : Set} f w o (x : X) w' r : (forall w1, o = Some w1 -> kept_on w w1) -> faulty_opt f w o x = (w', r) -> kept_on w w'.
Proof. intros Hk. destruct o as [w1|]; [by apply faulty_kept, Hk|]. by intros [= <- _]. Qed.

Lemma claim_step_kept u e s w : kept_on w (claim_step u e s w).1.
Proof. apply update_totp_kept. intros r [_ Hl]%andb_true_iff. cbn. split; [lia|done]. Qed.

Lemma reset_pending_kept u e w : kept_on w (reset_pending u e w).1.
Proof. apply update_totp_kept. intros r Hn%bool_decide_eq_true. cbn. split; [lia|]. by rewrite Hn. Qed.

Lemma confirm_totp_kept u e t w : kept_on w (confirm_totp u e t w).1.
Proof. apply update_totp_kept. intros r [_ Hn%bool_decide_eq_true]%andb_true_iff. cbn. split; [lia|]. by rewrite Hn. Qed.

Lemma create_totp_kept u e w w' : create_totp u e w = Some w' -> kept_on w w'.
Proof.
  unfold create_totp. case_match eqn:E; [done|]. intros [= <-] Hd. split; [exact Hd|]. split; cbn; [lia|lia| |by eauto|done].
  intros u' r Hr. rewrite lookup_insert_ne by congruence. exists r. split_and!; [done|lia|done].
Qed.

Lemma tick_kept ms w : 0 <= ms -> kept_on w (mkFactorWorld (fw_now w + ms) (fw_totp w) (fw_codes w) (fw_challenges w) (fw_next w)).
Proof. intros Hm Hd. split; [exact Hd|]. split; cbn; [lia|lia| |by eauto|done]. intros u r Hr. exists r. split_and!; [done|lia|done]. Qed.

Lemma fexec_kept (X : Set) inp (c : fcommand X) w w' x : fexec X inp c w = Some (w', x) -> kept_on w w'.
Proof.
  destruct c; cbn -[faulty faulty_opt]; repeat case_match; intros He; try done; injection He as He;
    try (eapply faulty_kept; [|exact He]); try (eapply faulty_opt_kept; [|exact He]); try done.
  - subst w'. by apply tick_kept, Z.leb_le.
  - by subst.
  - apply claim_step_kept.
  - apply reset_pending_kept.
  - intros. by eapply create_totp_kept.
  - apply confirm_totp_kept.
  - apply claim_code_kept.
  - apply delete_codes_kept.
  - apply create_codes_kept.
  - by subst.
  - intros. by eapply create_challenge_kept.
  - intros. by eapply delete_challenge_kept.
  - apply delete_challenges_kept.
Qed.

(** *** What is used up stays used up, and was not before *)

Lemma used_up_kept s w w' : moves_on w w' -> used_up s w -> used_up s w'.
Proof.
  intros [_ Hn Ht Hc Hh]. destruct s as [u step|id|id]; cbn.
  - intros (r & (r' & Hr' & Hl & _)%Ht & Hs). exists r'. split; [done|lia].
  - intros [Hid Hu]. split; [lia|]. intros r' (r & Hr & _ & _ & Hk)%Hc; [|done]. specialize (Hu _ Hr). by rewrite Hk.
  - intros [Hid Hno]. split; [lia|]. destruct (fw_challenges w' !! id) eqn:E; [|done]. apply Hh in E; [congruence|done].
Qed.

Lemma fexec_spends (X : Set) inp (c : fcommand X) w w' x s :
  drawn_ids w -> fexec X inp c w = Some (w', x) -> spends (Ev c x) = Some s -> ~ used_up s w /\ used_up s w'.
Proof.
  intros [Hcd Hch]. destruct c; cbn; try done; destruct inp as [f| | |]; cbn; try done; intros [= He] Hs.
  - destruct f; injection He as <- <-; try done. revert Hs. unfold claim_step, update_totp.
    destruct (fw_totp w !! userId) as [r|] eqn:Er; cbn; [|done]. destruct (_ && _) eqn:Ew; cbn; [|done]. intros [= <-].
    apply andb_true_iff in Ew as [_ Hl]. cbn. split; [intros (r' & Hr' & ?); replace r' with r in * by congruence; lia|].
    rewrite lookup_insert_eq. eexists. split; [done|cbn; lia].
  - destruct f; injection He as <- <-; try done. revert Hs. unfold claim_code. destruct (fw_codes w !! id) as [r|] eqn:Er; cbn; [|done].
    case_bool_decide as Hn; cbn; [|done]. intros [= <-]. cbn. split; [intros [_ Hu]; by apply (Hu r)|]. split; [by eauto|].
    intros r'. rewrite lookup_insert_eq. by intros [= <-].
  - unfold delete_challenge in He. destruct (fw_challenges w !! id) as [r|] eqn:Er; cbn in He; [|injection He as <- <-; done].
    destruct f; injection He as <- <-; try done. injection Hs as <-. cbn. split; [intros [_ ?]; congruence|]. split; [by eauto|apply lookup_delete_eq].
Qed.

(** A confirmation that is new is of a secret the command names. *)
Definition confirms (p : jsstr -> jsstr -> Prop) (w w' : FactorWorld) : Prop :=
  forall u r, fw_totp w' !! u = Some r -> tc_confirmedAt r <> None ->
    (exists r0, fw_totp w !! u = Some r0 /\ tc_confirmedAt r0 <> None /\ tc_secretEnc r0 = tc_secretEnc r) \/ p u (tc_secretEnc r).

Lemma same_totp_confirms p w w' : fw_totp w' = fw_totp w -> confirms p w w'.
Proof. intros He u r. rewrite He. intros ? ?. left. by exists r. Qed.

Lemma update_totp_confirms (p : jsstr -> jsstr -> Prop) u where_ f w :
  (forall r, where_ r = true -> tc_confirmedAt (f r) <> None ->
     tc_confirmedAt r <> None /\ tc_secretEnc (f r) = tc_secretEnc r \/ p u (tc_secretEnc (f r))) ->
  confirms p w (update_totp u where_ f w).1.
Proof.
  intros Hf. unfold update_totp. destruct (fw_totp w !! u) as [r0|] eqn:Er; [|by apply same_totp_confirms].
  destruct (where_ r0) eqn:Ew; [|by apply same_totp_confirms]. intros u' r. cbn. intros [[<- <-]|[_ Hr]]%lookup_insert_Some Hn; [|left; by exists r].
  destruct (Hf _ Ew Hn) as [[? He]|?]; [left; by exists r0|by right].
Qed.

Lemma faulty_confirms {X : Set} p f w w1 (x : X) w' r : confirms p w w1 -> faulty f w w1 x = (w', r) -> confirms p w w'.
Proof. intros Hk He. destruct f; injection He as <- _; try done. by apply same_totp_confirms. Qed.

Lemma create_codes_totp u hs w : fw_totp (create_codes u hs w) = fw_totp w.
Proof. revert w. induction hs as [|h hs IH]; intros w; [done|]. cbn. by rewrite IH. Qed.

Definition names_confirmed {X : Set} (c : fcommand X) (u e : jsstr) : Prop :=
  match c with ConfirmTotp u' e' _ => u' = u /\ e' = e | _ => False end.

Lemma fexec_confirms (X : Set) inp (c : fcommand X) w w' x : fexec X inp c w = Some (w', x) -> confirms (names_confirmed c) w w'.
Proof.
  destruct c; cbn -[faulty faulty_opt]; repeat case_match; intros He; try done; injection He as He; try (by apply same_totp_confirms; subst);
    try (eapply faulty_confirms; [|exact He]); try (by apply same_totp_confirms).
  - apply update_totp_confirms. intros r _ Hn. left. by split.
  - apply update_totp_confirms. intros r Hp%bool_decide_eq_true Hn. cbn in Hn. by rewrite Hp in Hn.
  - unfold create_totp in He. case_match; [injection He as <- _; by apply same_totp_confirms|]. eapply faulty_confirms; [|exact He].
    intros u r. cbn. intros [[<- <-]|[_ Hr]]%lookup_insert_Some Hn; [by destruct Hn|]. left. by exists r.
  - apply update_totp_confirms. intros r [He' _]%andb_true_iff _. apply bool_decide_eq_true in He'. by right.
  - unfold claim_code. apply same_totp_confirms. by repeat case_match.
  - apply same_totp_confirms, create_codes_totp.
  - unfold create_challenge in He. case_match; [injection He as <- _; by apply same_totp_confirms|]. eapply faulty_confirms; [|exact He]. by apply same_totp_confirms.
  - unfold delete_challenge in He. case_match; [|injection He as <- _; by apply same_totp_confirms]. eapply faulty_confirms; [|exact He]. by apply same_totp_confirms.
Qed.

(** *** In every run *)

Section reachable.
Context (totp_verify : jsstr -> jsstr -> Z -> Z -> option Z).
Context (decryptTotpSecret : jsstr -> option jsstr).
Context (verifyPassword : jsstr -> jsstr -> bool).

Abbreviation the_moves := (factor_moves totp_verify decryptTotpSecret verifyPassword).
Abbreviation the_program := (factor_program totp_verify decryptTotpSecret verifyPassword).
Abbreviation the_pool_ok := (pool_ok the_program).

Definition spent_in (log : list (nat * event fcommand)) : list Spent := omap (fun e => spends e.2) log.

Lemma spent_in_cons i e log : spent_in ((i, e) :: log) = match spends e with Some s => s :: spent_in log | None => spent_in log end.
Proof. reflexivity. Qed.

Record factor_ok (w : FactorWorld) (log : list (nat * event fcommand)) : Prop := {
  fo_drawn : drawn_ids w;
  fo_once : NoDup (spent_in log);
  fo_used : forall s, s ∈ spent_in log -> used_up s w;
  fo_proven : forall u r, fw_totp w !! u = Some r -> tc_confirmedAt r <> None ->
    exists i, proven totp_verify decryptTotpSecret (trace_of i log) u (tc_secretEnc r)
}.

Lemma proven_more i j e log u enc :
  proven totp_verify decryptTotpSecret (trace_of i log) u enc -> proven totp_verify decryptTotpSecret (trace_of i ((j, e) :: log)) u enc.
Proof.
  intros (cred & code & He & Hf & Hp). assert (Hsub : trace_of i log ⊆ trace_of i ((j, e) :: log)).
  { destruct (decide (i = j)) as [<-|Hne]; [rewrite trace_of_same; by apply list_subseteq_app_l|by rewrite trace_of_other]. }
  exists cred, code. split_and!; [done|by apply Hsub|by eapply step_proof_mono].
Qed.

Lemma factor_ok_step (X : Set) i inp (c : fcommand X) w w' x log :
  fexec X inp c w = Some (w', x) -> factor_needs totp_verify decryptTotpSecret X (trace_of i log) c -> factor_ok w log ->
  factor_ok w' ((i, Ev c x) :: log).
Proof.
  intros He Hn [Hd Ho Hu Hp]. destruct (fexec_kept _ _ _ _ _ _ He Hd) as [Hd' Hm]. split; [done| | |].
  - rewrite spent_in_cons. destruct (spends (Ev c x)) as [s|] eqn:Es; [|done]. apply NoDup_cons. split; [|done]. intros Hin%Hu.
    by destruct (fexec_spends _ _ _ _ _ _ _ Hd He Es).
  - rewrite spent_in_cons. intros s. destruct (spends (Ev c x)) as [s'|] eqn:Es; [|intros Hs; by eapply used_up_kept, Hu].
    intros [->|Hs]%elem_of_cons; [by destruct (fexec_spends _ _ _ _ _ _ _ Hd He Es)|by eapply used_up_kept, Hu].
  - intros u r Hr Hc. destruct (fexec_confirms _ _ _ _ _ _ He u r Hr Hc) as [(r0 & Hr0 & Hc0 & <-)|Hx].
    + destruct (Hp _ _ Hr0 Hc0) as [j Hj]. exists j. by apply proven_more.
    + destruct c; try done. destruct Hx as [-> ->]. exists i. by apply proven_more.
Qed.

Lemma factor_ok_empty now : factor_ok (empty_factors now) [].
Proof. by split; [split; intros ? [? ?]|constructor|intros ? ?%elem_of_nil|]. Qed.

Lemma needs_at q tr (X : Set) (c : fcommand X) k :
  leads (the_program q) tr (Op c k) -> factor_needs totp_verify decryptTotpSecret X tr c.
Proof. intros Hl%safe_trace. exact (proj1 Hl). Qed.

Lemma factor_moves_ok mvs m m' :
  pool_moves the_program fexec mvs m = Some m' -> the_pool_ok m -> factor_ok (pl_world m) (pl_log m) ->
  the_pool_ok m' /\ factor_ok (pl_world m') (pl_log m').
Proof. apply pool_moves_keep with (N := factor_needs totp_verify decryptTotpSecret); [apply needs_at|]. intros. by eapply factor_ok_step. Qed.

Lemma moves_on_run mvs m m' :
  pool_moves the_program fexec mvs m = Some m' -> the_pool_ok m -> drawn_ids (pl_world m) -> moves_on (pl_world m) (pl_world m').
Proof.
  intros Hm Hok Hd. refine (proj2 (proj2 (pool_moves_keep _ _ (fun _ _ _ => True) (fun w _ => drawn_ids w /\ moves_on (pl_world m) w) _ _ mvs m m' Hm Hok _))).
  - done.
  - intros X i inp c w w' x log He _ [Hdw Hmw]. destruct (fexec_kept _ _ _ _ _ _ He Hdw). split; [done|]. by etrans.
  - split; [done|]. reflexivity.
Qed.

Lemma reachable_ok mvs now m : the_moves mvs now = Some m -> the_pool_ok m /\ factor_ok (pl_world m) (pl_log m).
Proof. intros Hm. eapply factor_moves_ok; [exact Hm|apply pool_of_ok|apply factor_ok_empty]. Qed.
End reachable.

(** C12: a second factor works once.  Over every interleaving of sign-ins,
    enrolments, confirmations, recoveries and passkey ceremonies, with commands
    that fail and requests that stop, each time step of a person's
    authenticator, each recovery code and each challenge is used up at most once
    in all; and an answer that lets somebody pass was earned: the request found
    a confirmed credential, the code matched a step of its secret at a time the
    request read and the request itself claimed that step, or the code matched
    an unused recovery code of that person which the request itself claimed, or
    the challenge was of the asked ceremony, unexpired, and the request itself
    deleted it. *)
Theorem second_factor_single_use totp_verify decrypt verifyPassword mvs now m :
  factor_moves totp_verify decrypt verifyPassword mvs now = Some m ->
  NoDup (omap (fun e => spends e.2) (pl_log m)) /\
  (forall i q a, pl_done m !! i = Some (q, Some a) -> justified totp_verify decrypt verifyPassword q (trace_of i (pl_log m)) a).
Proof.
  intros Hm. destruct (reachable_ok _ _ _ _ _ _ Hm) as [Hok [_ Ho _ _]]. split; [exact Ho|].
  intros i q a Hi. apply (po_done _ _ Hok) in Hi as [_ Hr]. by apply run_justified.
Qed.

(** C20: a confirmed authenticator is one that was proven, for good.  Whatever
    interleaves, the secret of a confirmed credential is one for which some
    request read the credential, checked a code against that very secret and
    claimed its step, so that no enrolment racing a confirmation can turn on a
    secret no app has seen; from then on the credential keeps its secret and its
    confirmation, and the last accepted step never goes back. *)
Theorem confirmed_factor_proven totp_verify decrypt verifyPassword before after now m m' u r :
  factor_moves totp_verify decrypt verifyPassword before now = Some m ->
  pool_moves (factor_program totp_verify decrypt verifyPassword) fexec after m = Some m' ->
  fw_totp (pl_world m) !! u = Some r -> tc_confirmedAt r <> None ->
  (exists i, proven totp_verify decrypt (trace_of i (pl_log m)) u (tc_secretEnc r)) /\
  exists r', fw_totp (pl_world m') !! u = Some r' /\ tc_secretEnc r' = tc_secretEnc r /\ tc_confirmedAt r' = tc_confirmedAt r /\
    tc_lastAcceptedStep r <= tc_lastAcceptedStep r'.
Proof.
  intros Hb Ha Hr Hc. destruct (reachable_ok _ _ _ _ _ _ Hb) as [Hok [Hd _ _ Hp]]. split; [by apply Hp|].
  destruct (mo_totp _ _ (moves_on_run _ _ _ _ _ _ Ha Hok Hd) _ _ Hr) as (r' & Hr' & Hl & Hk). destruct (Hk Hc). by exists r'.
Qed.

(** ** Runs

    A toy authenticator whose one code is right in every step. *)

Definition toy_verify (secret code : jsstr) (after now : Z) : option Z :=
  if bool_decide (code = js "123456") && (after <? now / 30000) then Some (now / 30000) else None.
Definition toy_decrypt (blob : jsstr) : option jsstr := Some blob.
Definition toy_password (hash code : jsstr) : bool := bool_decide (hash = code).

Abbreviation toy_run mvs := (factor_moves toy_verify toy_decrypt toy_password mvs 0).

(** A request's commands, all of them working. *)
Definition go (i : nat) (inputs : list finput) : list (PoolMove FactorRequest finput) := P_Step i <$> inputs.
Definition db : finput := F_db Works.
Definition ann : jsstr := js "ann".

Definition enrolled_moves : list (PoolMove FactorRequest finput) :=
  [P_Start (Q_enroll ann (js "e0"))] ++ go 0 [db; F_bool (Some true); db; db; db; db; db] ++
  [P_Start (Q_verify ann (js "123456") [js "aaaa-bbbb"] [js "aaaa-bbbb"])] ++
  go 1 [F_bool (Some true); db; F_tick 60000; db; F_tick 1; db; db; db; F_count (Some 0); db].

(** Two sign-ins with one code, both past their read. *)
Definition twice_moves : list (PoolMove FactorRequest finput) :=
  [P_Start (Q_login ann (Some (js "123456")) None); P_Start (Q_login ann (Some (js " 123456")) None)] ++
  [P_Step 2 db; P_Step 3 db; P_Step 2 (F_tick 30000); P_Step 3 (F_tick 1); P_Step 3 db; P_Step 2 db; P_Step 2 db; P_Step 3 db].

Definition answers (m : Pool fcommand (option FactorAnswer) FactorRequest FactorWorld) : list (nat * option FactorAnswer) :=
  (fun e => (e.1, e.2.2)) <$> map_to_list (pl_done m).

Definition after_all (mvs : list (PoolMove FactorRequest finput)) : Pool fcommand (option FactorAnswer) FactorRequest FactorWorld :=
  default (pool_of (empty_factors 0)) (toy_run mvs).

Lemma ran mvs : bool_decide (is_Some (toy_run mvs)) = true -> toy_run mvs = Some (after_all mvs).
Proof. unfold after_all. by destruct (toy_run mvs). Qed.

Lemma second_factor_single_use_witness :
  let m := after_all (enrolled_moves ++ twice_moves) in
  answers m = [(2%nat, Some (A_login failed)); (3%nat, Some (A_login passed)); (1%nat, Some (A_enabled [js "aaaa-bbbb"])); (0%nat, Some A_enrolled)] /\
  NoDup (omap (fun e => spends e.2) (pl_log m)) /\
  justified toy_verify toy_decrypt toy_password (Q_login ann (Some (js " 123456")) None) (trace_of 3 (pl_log m)) (A_login passed).
Proof.
  intros m. assert (Hm : toy_run (enrolled_moves ++ twice_moves) = Some m) by (apply ran; by vm_compute).
  destruct (second_factor_single_use toy_verify toy_decrypt toy_password _ _ _ Hm) as [Hn Hj]. split; [by vm_compute|]. split; [exact Hn|].
  apply Hj. by vm_compute.
Defined.

Lemma confirmed_factor_proven_witness :
  let m := after_all enrolled_moves in
  let r := mkTotp (js "e0") (Some 60001) 2 in
  fw_totp (pl_world m) !! ann = Some r /\
  (exists i, proven toy_verify toy_decrypt (trace_of i (pl_log m)) ann (tc_secretEnc r)) /\
  exists r', fw_totp (pl_world m) !! ann = Some r' /\ tc_secretEnc r' = tc_secretEnc r.
Proof.
  intros m r. assert (Hm : toy_run enrolled_moves = Some m) by (apply ran; by vm_compute).
  assert (Hr : fw_totp (pl_world m) !! ann = Some r) by by vm_compute. split; [exact Hr|].
  assert (Hc : tc_confirmedAt r <> None) by (subst r; cbn; discriminate).
  destruct (confirmed_factor_proven toy_verify toy_decrypt toy_password enrolled_moves [] 0 m m ann r Hm eq_refl Hr Hc) as [Hp (r' & Hr' & Hs & _)].
  split; [exact Hp|]. exists r'. split; [exact Hr'|exact Hs].
Defined.

(** An enrolment that stalls before its last statement wipes the recovery codes
    of the one that overtook it: the person holds codes that no longer work, and
    no request will give new ones, though the route promises that recovery codes
    exist exactly when a confirmed credential does. *)
Lemma recovery_codes_wiped :
  let m := after_all
    ([P_Start (Q_enroll ann (js "e0"))] ++ go 0 [db; F_bool (Some true); db; db; db] ++
     [P_Start (Q_enroll ann (js "e1"))] ++ go 1 [db; F_bool (Some true); db; db; db] ++
     [P_Start (Q_verify ann (js "123456") [js "aaaa-bbbb"] [js "aaaa-bbbb"])] ++
     go 2 [F_bool (Some true); db; F_tick 60000; db; F_tick 1; db; db; db; F_count (Some 0); db] ++
     go 0 [db; db]) in
  pl_done m !! 2%nat = Some (Q_verify ann (js "123456") [js "aaaa-bbbb"] [js "aaaa-bbbb"], Some (A_enabled [js "aaaa-bbbb"])) /\
  fw_totp (pl_world m) !! ann = Some (mkTotp (js "e1") (Some 60001) 2) /\ fw_codes (pl_world m) = ∅.
Proof. by vm_compute. Qed.
