(* ===== verification/Money.v ===== *)
(** * Money: amounts in minor units, exactly or not at all
      (packages/shared-types/src/money.ts and packages/tools-core/src/major-units.ts)

    Amounts are texts of decimal digits and integers of any size; the code moves
    the decimal point by cutting and padding texts.  The theorems give the
    meaning: the text denotes a rational number, and a conversion answers with
    the integer that is exactly that number of minor units, or refuses.  The
    currency symbols of [Intl.NumberFormat] are a parameter. *)

From S2P Require Import Prelude JsNum DateTime DateText.

Local Open Scope Z_scope.

(** ** Currencies *)

(** Whether an upper-cased text consists of A to Z is decided by these: no other
    unit is upper-cased to letters of that range alone. *)
Definition upper_unit (u : N) : jsstr :=
  (if (97 <=? u) && (u <=? 122) then [u - 32]
   else if u =? 0xDF then js "SS" else if u =? 0x131 then js "I" else if u =? 0x17F then js "S"
   else if u =? 0xFB00 then js "FF" else if u =? 0xFB01 then js "FI" else if u =? 0xFB02 then js "FL"
   else if u =? 0xFB03 then js "FFI" else if u =? 0xFB04 then js "FFL"
   else if (u =? 0xFB05) || (u =? 0xFB06) then js "ST" else [u])%N.

Definition toUpperCase (s : jsstr) : jsstr := flat_map upper_unit s.

Definition DEFAULT_MINOR_UNIT_EXPONENT : nat := 2.

Definition MINOR_UNIT_EXPONENTS : list (jsstr * nat) :=
  ((fun c => (js c, 0%nat)) <$> ["BIF"; "CLP"; "DJF"; "GNF"; "ISK"; "JPY"; "KMF"; "KRW"; "PYG"; "RWF"; "UGX"; "UYI"; "VND"; "VUV"; "XAF"; "XOF"; "XPF"]%string) ++
  ((fun c => (js c, 3%nat)) <$> ["BHD"; "IQD"; "JOD"; "KWD"; "LYD"; "OMR"; "TND"]%string) ++
  ((fun c => (js c, 4%nat)) <$> ["CLF"; "UYW"]%string).

Definition CURRENCY_CODE (code : jsstr) : bool := Nat.eqb (length code) 3 && forallb (fun u => (65 <=? u) && (u <=? 90))%N code.

Definition minorUnitExponent (currency : jsstr) : option nat :=
  let code := toUpperCase (trim currency) in
  if negb (CURRENCY_CODE code) then None else Some (default DEFAULT_MINOR_UNIT_EXPONENT (alookup code MINOR_UNIT_EXPONENTS)).

(** ** From major units to minor units *)

Fixpoint span_digits (s : jsstr) : jsstr * jsstr :=
  match s with
  | c :: r => if digitb c then let '(ds, rest) := span_digits r in (c :: ds, rest) else ([], s)
  | [] => ([], [])
  end.

(** The match of [DECIMAL]: whether there is a minus, and the digits before and
    after the point. *)
Definition DECIMAL (s : jsstr) : option (bool * jsstr * jsstr) :=
  let '(negative, r) := match s with 43%N :: r => (false, r) | 45%N :: r => (true, r) | _ => (false, s) end in
  let '(whole, r) := span_digits r in
  match r with
  | [] => Some (negative, whole, [])
  | 46%N :: r => match span_digits r with (fraction, []) => Some (negative, whole, fraction) | _ => None end
  | _ => None
  end.

Definition padEnd (w : nat) (s : jsstr) : jsstr := s ++ replicate (w - length s) 48%N.

(** [BigInt] of a text of decimal digits is [digits_val]. *)
Definition toMinorUnits (major currency : jsstr) : option Z :=
  match minorUnitExponent currency with
  | None => None
  | Some exponent =>
      match DECIMAL (trim major) with
      | None => None
      | Some (negative, whole, fraction) =>
          if Nat.eqb (length whole) 0 && Nat.eqb (length fraction) 0 then None else
          let exact := negb (Nat.ltb exponent (length fraction)) || forallb (N.eqb 48) (drop exponent fraction) in
          if negb exact then None else
          let padded := padEnd exponent (take exponent fraction) in
          let value := digits_val ((if Nat.eqb (length whole) 0 then [48%N] else whole) ++ padded) in
          Some (if (negative : bool) then - value else value)
      end
  end.

(** ** From minor units to major units *)

(** [BigInt(text)], of a trimmed text. *)
Definition radix_digit (radix u : N) : option Z :=
  let v := (if (48 <=? u) && (u <=? 57) then u - 48 else if (97 <=? u) && (u <=? 122) then u - 87 else if (65 <=? u) && (u <=? 90) then u - 55 else radix)%N in
  if (v <? radix)%N then Some (Z.of_N v) else None.

Definition radix_val (radix : N) (s : jsstr) : option Z :=
  match s with
  | [] => None
  | _ => foldl (fun acc u => match acc, radix_digit radix u with Some a, Some d => Some (Z.of_N radix * a + d) | _, _ => None end) (Some 0) s
  end.

Definition BigInt_text (s : jsstr) : option Z :=
  match s with
  | [] => Some 0
  | 48%N :: x :: r =>
      if (N.eqb x 120 || N.eqb x 88)%bool then radix_val 16 r
      else if (N.eqb x 111 || N.eqb x 79)%bool then radix_val 8 r
      else if (N.eqb x 98 || N.eqb x 66)%bool then radix_val 2 r
      else radix_val 10 s
  | 43%N :: r => radix_val 10 r
  | 45%N :: r => Z.opp <$> radix_val 10 r
  | _ => radix_val 10 s
  end.

Inductive Minor := M_bigint (v : Z) | M_text (s : jsstr).

(** [typeof minor === "bigint" ? minor : BigInt(minor.trim())], None where it
    throws. *)
Definition minor_value (minor : Minor) : option Z := match minor with M_bigint v => Some v | M_text s => BigInt_text (trim s) end.

Definition formatMinorUnits (minor : Minor) (currency : jsstr) : option jsstr :=
  match minorUnitExponent currency with
  | None => None
  | Some exponent =>
      match minor_value minor with
      | None => None
      | Some value =>
          let digits := padStart (exponent + 1) (dec_str (Z.to_N (Z.abs value))) in
          let sign := if value <? 0 then [45%N] else [] in
          Some (if Nat.eqb exponent 0 then sign ++ digits
                else sign ++ take (length digits - exponent) digits ++ 46%N :: drop (length digits - exponent) digits)
      end
  end.

(** ** For display *)

(** [whole.replace(/\B(?=(\d{3})+(?!\d))/g, ",")] of a text of digits. *)
Fixpoint group_digits (first : bool) (s : jsstr) : jsstr :=
  match s with
  | [] => []
  | c :: r => (if negb first && Nat.eqb (length s mod 3) 0 then [44%N] else []) ++ c :: group_digits false r
  end.

Record MajorMoney := mkMajor { mj_amount : jsstr; mj_display : jsstr }.

Section display.
(** The currency part of [Intl.NumberFormat("en-US", ...)], by code. *)
Context (symbol_of : jsstr -> jsstr).

(** The match of the decimal with a digit on each side of a point. *)
Definition PLAIN (s : jsstr) : option (bool * jsstr * jsstr) :=
  let '(negative, r) := match s with 45%N :: r => (true, r) | _ => (false, s) end in
  match span_digits r with
  | ([], _) => None
  | (whole, []) => Some (negative, whole, [])
  | (whole, 46%N :: r) => match span_digits r with (c :: fraction, []) => Some (negative, whole, c :: fraction) | _ => None end
  | _ => None
  end.

Definition letter (u : N) : bool := ((65 <=? u) && (u <=? 90) || (97 <=? u) && (u <=? 122))%N.

Definition displayMajor (amount currency : jsstr) : option jsstr :=
  match minorUnitExponent currency, PLAIN (trim amount) with
  | Some exponent, Some (negative, whole, fraction) =>
      let symbol := symbol_of (toUpperCase (trim currency)) in
      let decimals := padEnd exponent fraction in
      Some ((if (negative : bool) then [45%N] else []) ++ symbol ++
            (match last symbol with Some u => if letter u then [32%N] else [] | None => [] end) ++ group_digits true whole ++
            (match decimals with [] => [] | _ => 46%N :: decimals end))
  | _, _ => None
  end.

Definition majorFromMinor (minor : option Minor) (currency : option jsstr) : option MajorMoney :=
  match minor, currency with
  | Some minor, Some (c :: r) =>
      match formatMinorUnits minor (c :: r) with
      | None => None
      | Some amount => match displayMajor amount (c :: r) with None => None | Some display => Some (mkMajor amount display) end
      end
  | _, _ => None
  end.
End display.

(** ** Digits and their value *)

Abbreviation all_digits s := (forallb digitb s = true).

Lemma digits_val_from acc s : foldl (fun acc c => 10 * acc + (Z.of_N c - 48)) acc s = acc * 10 ^ Z.of_nat (length s) + digits_val s.
Proof.
  unfold digits_val. revert acc. induction s as [|c s IH]; intros acc; [cbn; lia|]. cbn [foldl length].
  rewrite IH, (IH (10 * 0 + _)), Nat2Z.inj_succ, Z.pow_succ_r by lia. ring.
Qed.

Lemma digits_val_app a b : digits_val (a ++ b) = digits_val a * 10 ^ Z.of_nat (length b) + digits_val b.
Proof. unfold digits_val at 1. rewrite foldl_app. apply digits_val_from. Qed.

Lemma digits_val_cons c s : digits_val (c :: s) = (Z.of_N c - 48) * 10 ^ Z.of_nat (length s) + digits_val s.
Proof. change (c :: s) with ([c] ++ s). rewrite digits_val_app. unfold digits_val at 1. cbn. ring. Qed.

Lemma digitb_range c : digitb c = true -> 0 <= Z.of_N c - 48 <= 9.
Proof. unfold digitb. rewrite andb_true_iff, !N.leb_le. lia. Qed.

Lemma pow10_pos n : 0 < 10 ^ Z.of_nat n.
Proof. apply Z.pow_pos_nonneg; lia. Qed.

Lemma digits_val_range s : all_digits s -> 0 <= digits_val s < 10 ^ Z.of_nat (length s).
Proof.
  induction s as [|c s IH]; [done|]. cbn [forallb]. intros [Hc%digitb_range Hs]%andb_true_iff. specialize (IH Hs).
  rewrite digits_val_cons. cbn [length]. rewrite Nat2Z.inj_succ, Z.pow_succ_r by lia. pose proof (pow10_pos (length s)). nia.
Qed.

Lemma digits_val_zero s : all_digits s -> (digits_val s = 0 <-> forallb (N.eqb 48) s = true).
Proof.
  induction s as [|c s IH]; [done|]. cbn [forallb]. intros [Hc Hs]%andb_true_iff. specialize (IH Hs).
  rewrite digits_val_cons, andb_true_iff, N.eqb_eq, <- IH. apply digitb_range in Hc. apply digits_val_range in Hs. pose proof (pow10_pos (length s)).
  split; [|intros [<- ->]; lia]. intros He. assert (Z.of_N c - 48 = 0) by nia. split; [lia|]. nia.
Qed.

Lemma digits_val_zeros n : digits_val (replicate n 48%N) = 0.
Proof. induction n as [|n IH]; [done|]. cbn [replicate]. rewrite digits_val_cons, IH. lia. Qed.

Lemma dec_str_digitb n : all_digits (dec_str n).
Proof.
  apply forallb_forall. intros c Hc%list_elem_of_In. pose proof (dec_str_digits n) as Hd. rewrite Forall_forall in Hd. specialize (Hd c Hc).
  unfold is_digit in Hd. unfold digitb. rewrite andb_true_iff, !N.leb_le. lia.
Qed.

Lemma digits_val_dec_str n : digits_val (dec_str n) = Z.of_N n.
Proof.
  assert (Hd := dec_str_digitb n). rewrite <- (DecimalN.Unsigned.of_to n) at 2. rewrite of_uint_fold. unfold dec_str in *. revert Hd.
  generalize (uint_units (N.to_uint n)). intros l. unfold digits_val, dec_fold. generalize 0. induction l as [|c l IH]; intros acc; [done|].
  cbn [forallb foldl fmap list_fmap]. intros [Hc%digitb_range Hl]%andb_true_iff. rewrite IH by done. do 2 f_equal. lia.
Qed.

(** ** What a text denotes *)

(** The digits before and after the point, and the sign, of a decimal text. *)
Definition decimal_text (s : jsstr) (negative : bool) (whole fraction : jsstr) : Prop :=
  all_digits whole /\ all_digits fraction /\ whole ++ fraction <> [] /\
  exists sign, (sign = [45%N] /\ negative = true \/ (sign = [43%N] \/ sign = []) /\ negative = false) /\
    (s = sign ++ whole ++ 46%N :: fraction \/ fraction = [] /\ s = sign ++ whole).

(** The number it denotes is [decimal_val] divided by ten to the number of its
    digits after the point. *)
Definition decimal_val (negative : bool) (whole fraction : jsstr) : Z :=
  (if negative then -1 else 1) * digits_val (whole ++ fraction).

Lemma span_digits_spec s : let '(d, r) := span_digits s in s = d ++ r /\ all_digits d /\ match r with [] => True | c :: _ => digitb c = false end.
Proof.
  induction s as [|c s IH]; [done|]. cbn. destruct (digitb c) eqn:Ec; [|done]. destruct (span_digits s) as [d r]. destruct IH as (-> & Hd & Hr).
  split; [done|]. cbn. by rewrite Ec, Hd.
Qed.

Lemma span_digits_app d r : all_digits d -> match r with [] => True | c :: _ => digitb c = false end -> span_digits (d ++ r) = (d, r).
Proof.
  intros Hd Hr. induction d as [|c d IH]; cbn [app]; [destruct r as [|c r]; [done|]; cbn; by rewrite Hr|].
  cbn [forallb] in Hd. apply andb_true_iff in Hd as [Hc Hd]. cbn. by rewrite Hc, IH.
Qed.

(** After the sign. *)
Definition body_match (r : jsstr) : option (jsstr * jsstr) :=
  let '(whole, r) := span_digits r in
  match r with
  | [] => Some (whole, [])
  | 46%N :: r => match span_digits r with (fraction, []) => Some (whole, fraction) | _ => None end
  | _ => None
  end.

Lemma body_match_iff r whole fraction : body_match r = Some (whole, fraction) <->
  all_digits whole /\ all_digits fraction /\ (r = whole ++ 46%N :: fraction \/ fraction = [] /\ r = whole).
Proof.
  unfold body_match. split.
  - pose proof (span_digits_spec r) as Hs. destruct (span_digits r) as [w r']. destruct Hs as (-> & Hw & Hr').
    destruct r' as [|c r']; [intros [= <- <-]; rewrite app_nil_r; auto|]. destruct (decide (c = 46%N)) as [->|Hne].
    + pose proof (span_digits_spec r') as Hs. destruct (span_digits r') as [f r2]. destruct Hs as (-> & Hf & _). destruct r2; [|done].
      intros [= <- <-]. rewrite app_nil_r. auto.
    + intros Hx. exfalso. destruct c as [|p]; [done|]. do 6 (destruct p as [p|p|]; try done).
  - intros (Hw & Hf & [->|[-> ->]]).
    + rewrite span_digits_app by done. rewrite <- (app_nil_r fraction) at 1. by rewrite span_digits_app.
    + rewrite <- (app_nil_r whole) at 1. by rewrite span_digits_app.
Qed.

Lemma DECIMAL_body s : DECIMAL s =
  match s with
  | 43%N :: r => (fun b => (false, b.1, b.2)) <$> body_match r
  | 45%N :: r => (fun b => (true, b.1, b.2)) <$> body_match r
  | _ => (fun b => (false, b.1, b.2)) <$> body_match s
  end.
Proof.
  assert (Hr : forall n r, (let '(whole, r) := span_digits r in
    match r with
    | [] => Some (n, whole, [])
    | 46%N :: r => match span_digits r with (fraction, []) => Some (n, whole, fraction) | _ => None end
    | _ => None
    end) = (fun b => (n : bool, b.1, b.2)) <$> body_match r).
  { intros n r. unfold body_match. destruct (span_digits r) as [w [|c r']]; [done|]. destruct c as [|p]; [done|].
    do 6 (destruct p as [p|p|]; try done). by destruct (span_digits r') as [f [|]]. }
  unfold DECIMAL. destruct s as [|c s]; [apply Hr|]. destruct c as [|p]; [apply Hr|]. do 6 (destruct p as [p|p|]; try apply Hr).
Qed.

(** The sign, and what is left. *)
Definition signed (negative : bool) (sign : jsstr) : Prop := sign = [45%N] /\ negative = true \/ (sign = [43%N] \/ sign = []) /\ negative = false.

Lemma digit_head r c (w f : jsstr) : all_digits w -> (r = w ++ 46%N :: f \/ f = [] /\ r = w) -> head r = Some c -> c <> 43%N /\ c <> 45%N.
Proof.
  intros Hw Hr. destruct w as [|d w]; [destruct Hr as [->|[_ ->]]; cbn; [intros [= <-]; done|done]|].
  cbn in Hw. apply andb_true_iff in Hw as [Hd%digitb_range _]. destruct Hr as [->|[_ ->]]; cbn; intros [= <-]; lia.
Qed.

Lemma DECIMAL_signed negative sign r : signed negative sign -> (sign = [] -> forall c, head r = Some c -> c <> 43%N /\ c <> 45%N) ->
  DECIMAL (sign ++ r) = (fun b => (negative, b.1, b.2)) <$> body_match r.
Proof.
  intros [[-> ->]|[[->| ->] ->]] Hh; rewrite DECIMAL_body; cbn [app]; [done|done|].
  destruct r as [|c r]; [done|]. specialize (Hh eq_refl c eq_refl) as [H1 H2]. destruct c as [|p]; [done|]. do 6 (destruct p as [p|p|]; try done).
Qed.

Lemma DECIMAL_split s : exists negative sign r, signed negative sign /\ s = sign ++ r /\ DECIMAL s = (fun b => (negative, b.1, b.2)) <$> body_match r.
Proof.
  rewrite DECIMAL_body. destruct s as [|c s]; [exists false, [], []; unfold signed; naive_solver|].
  destruct (decide (c = 43%N)) as [->|H1]; [exists false, [43%N], s; unfold signed; naive_solver|].
  destruct (decide (c = 45%N)) as [->|H2]; [exists true, [45%N], s; unfold signed; naive_solver|].
  exists false, [], (c :: s). split; [unfold signed; naive_solver|]. split; [done|].
  destruct c as [|p]; [done|]. do 6 (destruct p as [p|p|]; try done).
Qed.

Lemma DECIMAL_iff s negative whole fraction : whole ++ fraction <> [] ->
  DECIMAL s = Some (negative, whole, fraction) <-> decimal_text s negative whole fraction.
Proof.
  intros Hne. unfold decimal_text. split.
  - destruct (DECIMAL_split s) as (n & sign & r & Hs & -> & ->). intros (b & Hb & [= -> -> ->])%fmap_Some.
    destruct b as [w f]. apply body_match_iff in Hb as (Hw & Hf & Hr). cbn. repeat split; [done..|]. exists sign. split; [exact Hs|].
    destruct Hr as [->|[-> ->]]; auto.
  - intros (Hw & Hf & _ & sign & Hs & Ht).
    assert (exists r, s = sign ++ r /\ (r = whole ++ 46%N :: fraction \/ fraction = [] /\ r = whole)) as (r & -> & Hr) by (destruct Ht as [->|[-> ->]]; eauto 6).
    rewrite (DECIMAL_signed negative sign r Hs) by (intros _ c; exact (digit_head r c whole fraction Hw Hr)).
    assert (body_match r = Some (whole, fraction)) as -> by (apply body_match_iff; auto). done.
Qed.

Lemma all_digits_app a b : all_digits (a ++ b) <-> all_digits a /\ all_digits b.
Proof. rewrite forallb_app. apply andb_true_iff. Qed.

Lemma all_digits_drop e f : all_digits f -> all_digits (drop e f).
Proof. intros Hf. rewrite <- (take_drop e f), all_digits_app in Hf. apply Hf. Qed.

Lemma digits_val_lead w : digits_val (if Nat.eqb (length w) 0 then [48%N] else w) = digits_val w.
Proof. by destruct w. Qed.

(** Cutting surplus zeros or padding with them moves the point to the exponent. *)
Lemma moved_point w f e : all_digits f -> negb (Nat.ltb e (length f)) || forallb (N.eqb 48) (drop e f) = true ->
  digits_val ((if Nat.eqb (length w) 0 then [48%N] else w) ++ padEnd e (take e f)) * 10 ^ Z.of_nat (length f) = digits_val (w ++ f) * 10 ^ Z.of_nat e.
Proof.
  intros Hf Hex. rewrite !digits_val_app, digits_val_lead. unfold padEnd. rewrite digits_val_app, digits_val_zeros, length_app, !length_replicate, length_take.
  destruct (Nat.ltb_spec e (length f)) as [Hlt|Hge]; cbn in Hex.
  - replace (e - e `min` length f)%nat with 0%nat by lia. replace (e `min` length f + 0)%nat with e by lia.
    assert (Hd : digits_val f = digits_val (take e f) * 10 ^ Z.of_nat (length f - e)).
    { rewrite <- (take_drop e f) at 1. rewrite digits_val_app, length_drop. rewrite (proj2 (digits_val_zero (drop e f) (all_digits_drop e f Hf))); [lia|done]. }
    rewrite Hd. replace (Z.of_nat (length f)) with (Z.of_nat e + Z.of_nat (length f - e)) by lia. rewrite !Z.pow_add_r by lia.
    change (10 ^ Z.of_nat 0) with 1. ring.
  - rewrite take_ge by lia. replace (e `min` length f)%nat with (length f) by lia.
    replace (Z.of_nat e) with (Z.of_nat (length f) + Z.of_nat (e - length f)) by lia. replace (Z.of_nat (length f + (e - length f))) with (Z.of_nat (length f) + Z.of_nat (e - length f)) by lia.
    rewrite !Z.pow_add_r by lia. ring.
Qed.

(** A surplus that is not zeros is a number of minor units that is no integer. *)
Lemma surplus_not_whole w f e v : all_digits f -> (e < length f)%nat -> v * 10 ^ Z.of_nat (length f) = digits_val (w ++ f) * 10 ^ Z.of_nat e ->
  forallb (N.eqb 48) (drop e f) = true.
Proof.
  intros Hf Hlt Hv. assert (Hd := all_digits_drop e f Hf).
  apply (digits_val_zero _ Hd). apply digits_val_range in Hd. rewrite length_drop in Hd. revert Hv.
  rewrite <- (take_drop e f) at 2. rewrite app_assoc, digits_val_app, length_drop.
  replace (Z.of_nat (length f)) with (Z.of_nat (length f - e) + Z.of_nat e) by lia. rewrite Z.pow_add_r by lia.
  pose proof (pow10_pos e). intros Hv. assert (v * 10 ^ Z.of_nat (length f - e) = digits_val (w ++ take e f) * 10 ^ Z.of_nat (length f - e) + digits_val (drop e f)) as Hm by (apply (Z.mul_reg_r _ _ (10 ^ Z.of_nat e)); lia).
  assert (v = digits_val (w ++ take e f)) by nia. nia.
Qed.

(** ** The theorems *)

(** C17: a conversion to minor units is exact or refused.  [toMinorUnits]
    answers v exactly when the currency is known, the trimmed text is a decimal
    (digits, an optional point, an optional sign, at least one digit, nothing
    else), and v divided by ten to the currency's exponent is the very number
    the text denotes: never rounded, never truncated, never defaulted.  So it
    refuses only a currency that is not a code, a text that is no decimal, and
    a number that is not a whole number of minor units. *)
Theorem conversion_is_exact major currency v :
  toMinorUnits major currency = Some v <->
  exists exponent negative whole fraction,
    minorUnitExponent currency = Some exponent /\ decimal_text (trim major) negative whole fraction /\
    v * 10 ^ Z.of_nat (length fraction) = decimal_val negative whole fraction * 10 ^ Z.of_nat exponent.
Proof.
  unfold toMinorUnits, decimal_val. split.
  - destruct (minorUnitExponent currency) as [e|]; [|done]. destruct (DECIMAL (trim major)) as [[[n w] f]|] eqn:ED; [|done].
    destruct (Nat.eqb (length w) 0 && Nat.eqb (length f) 0) eqn:Ez; [done|].
    assert (Hne : w ++ f <> []) by (intros [-> ->]%app_nil; done). apply DECIMAL_iff in ED; [|done].
    destruct (negb _ || _) eqn:Ex; [|done]. cbn [negb]. intros Hv. exists e, n, w, f. split_and!; [done..|].
    pose proof (moved_point w f e (proj1 (proj2 ED)) Ex) as Hm. destruct n; injection Hv as <-; lia.
  - intros (e & n & w & f & -> & Ht & Hv). pose proof Ht as (Hw & Hf & Hne & _). apply DECIMAL_iff in Ht as ->; [|done].
    assert (Nat.eqb (length w) 0 && Nat.eqb (length f) 0 = false) as -> by (destruct w, f; done).
    assert (Hx : negb (Nat.ltb e (length f)) || forallb (N.eqb 48) (drop e f) = true).
    { destruct (Nat.ltb_spec e (length f)); [|done]. cbn. apply (surplus_not_whole w f e (if n then - v else v)); [done..|]. destruct n; lia. }
    pose proof (moved_point w f e Hf Hx) as Hm. rewrite Hx. cbn [negb]. f_equal.
    pose proof (pow10_pos (length f)). destruct n; nia.
Qed.

(** ** Formatting, and reading back *)

Lemma digit_no_space c : digitb c = true -> is_space c = false.
Proof.
  intros Hc%digitb_range. unfold is_space. apply orb_false_iff. split; [apply bool_decide_eq_false|apply andb_false_iff; left; apply N.leb_gt; lia].
  rewrite !elem_of_cons, elem_of_nil. lia.
Qed.

Lemma all_digits_Forall s : all_digits s -> Forall (fun c => is_space c = false) s.
Proof. rewrite forallb_forall, Forall_forall. intros Hs c Hc. apply digit_no_space, Hs, list_elem_of_In, Hc. Qed.

(** The parts of a formatted amount. *)
Definition minus (negative : bool) : jsstr := if negative then [45%N] else [].
Definition point (fraction : jsstr) : jsstr := match fraction with [] => [] | _ => 46%N :: fraction end.

Lemma formatMinorUnits_parts minor currency amount : formatMinorUnits minor currency = Some amount ->
  exists exponent v whole fraction, minorUnitExponent currency = Some exponent /\ minor_value minor = Some v /\
    all_digits whole /\ all_digits fraction /\ whole <> [] /\ length fraction = exponent /\ digits_val (whole ++ fraction) = Z.abs v /\
    amount = minus (v <? 0) ++ whole ++ point fraction.
Proof.
  unfold formatMinorUnits. destruct (minorUnitExponent currency) as [e|]; [|done]. destruct (minor_value minor) as [v|]; [|done]. cbv zeta. intros [= Ha].
  set (d := padStart (e + 1) (dec_str (Z.to_N (Z.abs v)))) in Ha.
  assert (Hd : all_digits d).
  { unfold d, padStart. apply all_digits_app. split; [|apply dec_str_digitb]. by induction (e + 1 - _)%nat. }
  assert (Hl : (e + 1 <= length d)%nat) by (unfold d, padStart; rewrite length_app, length_replicate; lia).
  assert (Hv : digits_val d = Z.abs v) by (unfold d, padStart; rewrite digits_val_app, digits_val_zeros, digits_val_dec_str; lia).
  exists e, v, (take (length d - e) d), (drop (length d - e) d). clearbody d. rewrite take_drop, length_drop.
  assert (Hp : all_digits (take (length d - e) d) /\ all_digits (drop (length d - e) d)) by (apply all_digits_app; by rewrite take_drop).
  split_and!; try done; try apply Hp; [|lia|].
  - intros Hn%(f_equal length). rewrite length_take in Hn. cbn in Hn. lia.
  - rewrite <- Ha. destruct e as [|e]; cbn [Nat.eqb].
    + rewrite Nat.sub_0_r, firstn_all, skipn_all. by rewrite app_nil_r.
    + destruct (drop (length d - S e) d) eqn:Ed; [|done]. apply (f_equal length) in Ed. rewrite length_drop in Ed. cbn in Ed. lia.
Qed.

Lemma formatted_trim v whole fraction (sign : bool) : v = minus sign ++ whole ++ point fraction ->
  all_digits whole -> all_digits fraction -> trim v = v.
Proof.
  intros -> Hw%all_digits_Forall Hf%all_digits_Forall. apply trim_id. apply Forall_app. split; [by destruct sign; repeat constructor|]. apply Forall_app. split; [done|].
  destruct fraction; [constructor|]. by constructor.
Qed.

Lemma formatted_reads_back e v whole fraction amount currency : minorUnitExponent currency = Some e -> all_digits whole -> all_digits fraction -> whole <> [] ->
  length fraction = e -> digits_val (whole ++ fraction) = Z.abs v ->
  amount = minus (v <? 0) ++ whole ++ point fraction ->
  toMinorUnits amount currency = Some v.
Proof.
  intros He Hw Hf Hne Hl Hv Ha. unfold toMinorUnits. rewrite He, (formatted_trim _ _ _ _ Ha Hw Hf).
  assert (decimal_text amount (v <? 0) whole fraction) as Ht.
  { repeat split; [done..|by intros [-> _]%app_nil|]. exists (minus (v <? 0)). split; [destruct (v <? 0); auto|].
    rewrite Ha. destruct fraction; [right|by left]. by rewrite app_nil_r. }
  apply DECIMAL_iff in Ht as ->; [|by intros [-> _]%app_nil]. rewrite Hl, Nat.ltb_irrefl. cbn [negb orb]. unfold padEnd.
  rewrite take_ge, Hl, Nat.sub_diag by lia. cbn [replicate]. rewrite app_nil_r. destruct whole as [|w whole]; [done|]. cbn [length Nat.eqb andb]. rewrite Hv.
  destruct (Z.ltb_spec v 0); f_equal; lia.
Qed.

(** Read as text, a comma stands before each group of three digits that is
    followed by nothing but such groups, and nowhere else. *)
Lemma group_digits_plain s first : all_digits s -> filter (fun u => u <> 44%N) (group_digits first s) = s.
Proof.
  revert first. induction s as [|c s IH]; intros first; [done|]. cbn [forallb]. intros [Hc%digitb_range Hs]%andb_true_iff. cbn [group_digits].
  rewrite filter_app. replace (filter (fun u => u <> 44%N) (if negb first && Nat.eqb (length (c :: s) mod 3) 0 then [44%N] else [])) with (@nil N) by by destruct (_ && _).
  cbn [app]. rewrite filter_cons_True by lia. by rewrite IH.
Qed.

Lemma group_digits_commas s first a b : all_digits s -> group_digits first s = a ++ 44%N :: b ->
  (first = true -> a <> []) /\ exists k, length (filter (fun u => u <> 44%N) b) = (3 * S k)%nat.
Proof.
  revert first a. induction s as [|c s IH]; intros first a; [by destruct a|]. intros Ha. pose proof (group_digits_plain (c :: s) true Ha) as Hp.
  cbn [group_digits negb andb app] in Hp. cbn [forallb] in Ha. apply andb_true_iff in Ha as [Hc%digitb_range Hs].
  cbn [group_digits]. destruct (negb first && Nat.eqb (length (c :: s) mod 3) 0) eqn:Eg; cbn [app]; intros He.
  - apply andb_true_iff in Eg as [Ef Em%Nat.eqb_eq]. split; [by destruct first|]. destruct a as [|x a]; cbn in He; injection He.
    + intros <-. rewrite Hp. cbn [length] in *. pose proof (Nat.div_mod_eq (S (length s)) 3). exists (S (length s) / 3 - 1)%nat.
      destruct (S (length s) / 3)%nat; lia.
    + destruct a as [|y a]; cbn; [intros [= -> _]; lia|]. intros [= _ Hr] _. by apply IH in Hr as [_ ?].
  - destruct a as [|x a]; cbn in He; injection He; [intros _ ->; lia|]. intros Hr _. apply IH in Hr as [_ ?]; [|done]. done.
Qed.

Lemma PLAIN_parts negative whole fraction : all_digits whole -> all_digits fraction -> whole <> [] ->
  PLAIN (minus negative ++ whole ++ point fraction) = Some (negative, whole, fraction).
Proof.
  intros Hw Hf Hne. assert (Hb : match span_digits (whole ++ point fraction) with
    | ([], _) => None | (whole, []) => Some (negative, whole, [])
    | (whole, 46%N :: r) => match span_digits r with (c :: fraction, []) => Some (negative, whole, c :: fraction) | _ => None end
    | _ => None end = Some (negative, whole, fraction)).
  { rewrite span_digits_app by (done || by destruct fraction). destruct whole as [|w whole]; [done|]. destruct fraction as [|f fraction]; [done|]. cbn [point].
    assert (span_digits (f :: fraction) = (f :: fraction, [])) as -> by (rewrite <- (app_nil_r (f :: fraction)) at 1; by apply span_digits_app). done. }
  unfold PLAIN. destruct negative; [exact Hb|]. cbn [minus app]. destruct whole as [|w whole]; [done|].
  cbn [forallb] in Hw. apply andb_true_iff in Hw as [Hr%digitb_range _]. cbn [app] in *.
  destruct w as [|p]; [exact Hb|]. do 6 (destruct p as [p|p|]; try exact Hb; try lia).
Qed.

Lemma displayMajor_parts symbol_of e negative whole fraction currency amount : minorUnitExponent currency = Some e ->
  amount = minus negative ++ whole ++ point fraction -> all_digits whole -> all_digits fraction -> whole <> [] -> length fraction = e ->
  exists gap, (gap = [] \/ gap = [32%N]) /\
    displayMajor symbol_of amount currency = Some (minus negative ++ symbol_of (toUpperCase (trim currency)) ++ gap ++ group_digits true whole ++ point fraction).
Proof.
  intros He Ha Hw Hf Hne Hl. unfold displayMajor. rewrite He, (formatted_trim _ _ _ _ Ha Hw Hf), Ha, PLAIN_parts by done.
  cbv zeta. unfold padEnd. rewrite Hl, Nat.sub_diag. cbn [replicate]. rewrite app_nil_r. eexists. split; [|reflexivity].
  destruct (last _) as [u|]; [destruct (letter u)|]; auto.
Qed.

(** C25: the amount quoted is the amount stored.  For minor units and a
    currency, whatever their text, [majorFromMinor] answers two texts or
    nothing.  The first converts back to exactly the stored number of minor
    units; the second is the first with the currency's symbol after the sign
    and commas that group the whole digits by three (taking the commas out
    gives the digits back, none is in front, and a positive multiple of three
    digits follows each), with all the currency's decimals.  It answers nothing only
    if the minor units are no integer or the currency is no code. *)
Theorem quoted_amount_is_the_amount symbol_of minor currency :
  match majorFromMinor symbol_of minor currency with
  | Some (mkMajor amount display) => exists m c v whole fraction gap,
      minor = Some m /\ currency = Some c /\ minor_value m = Some v /\ minorUnitExponent c = Some (length fraction) /\
      toMinorUnits amount c = Some v /\ amount = minus (v <? 0) ++ whole ++ point fraction /\
      display = minus (v <? 0) ++ symbol_of (toUpperCase (trim c)) ++ gap ++ group_digits true whole ++ point fraction /\
      (gap = [] \/ gap = [32%N]) /\ filter (fun u => u <> 44%N) (group_digits true whole) = whole /\
      (forall a b, group_digits true whole = a ++ 44%N :: b -> a <> [] /\ exists k, length (filter (fun u => u <> 44%N) b) = (3 * S k)%nat)
  | None => forall m c, minor = Some m -> currency = Some c -> minor_value m = None \/ minorUnitExponent c = None
  end.
Proof.
  destruct minor as [m|]; [|by intros]. destruct currency as [[|x r]|]; [| |by intros]; cbn [majorFromMinor].
  { intros m' c' [= <-] [= <-]. by right. }
  generalize (x :: r). clear x r. intros c.
  destruct (formatMinorUnits m c) as [amount|] eqn:Ef.
  - apply formatMinorUnits_parts in Ef as (e & v & w & f & He & Hm & Hw & Hf & Hne & Hl & Hv & Ha).
    destruct (displayMajor_parts symbol_of e (v <? 0) w f c amount) as (gap & Hg & ->); [done..|].
    exists m, c, v, w, f, gap. split_and!; try done; [by rewrite Hl|by apply (formatted_reads_back e v w f)|by apply group_digits_plain|].
    intros a b Hab. apply group_digits_commas in Hab as [H1 H2]; auto.
  - intros m' c' [= <-] [= <-]. unfold formatMinorUnits in Ef. destruct (minorUnitExponent c); [|by right]. destruct (minor_value m); [done|by left].
Qed.

Lemma quoted_amount_is_the_amount_witness : exists gap,
  majorFromMinor (fun _ => js "KWD") (Some (M_text (js "-1234567"))) (Some (js "kwd")) = Some (mkMajor (js "-1234.567") (js "-KWD 1,234.567")) /\
  toMinorUnits (js "-1234.567") (js "kwd") = Some (-1234567) /\ js "-KWD 1,234.567" = js "-KWD" ++ gap ++ js "1,234.567".
Proof.
  assert (E : majorFromMinor (fun _ => js "KWD") (Some (M_text (js "-1234567"))) (Some (js "kwd")) = Some (mkMajor (js "-1234.567") (js "-KWD 1,234.567"))) by (vm_compute; reflexivity).
  pose proof (quoted_amount_is_the_amount (fun _ => js "KWD") (Some (M_text (js "-1234567"))) (Some (js "kwd"))) as H. rewrite E in H.
  destruct H as (m & c & v & w & f & g & [= <-] & [= <-] & Hm & _ & Ht & _). injection Hm as Hm.
  exists [32%N]. split; [exact E|]. split; [|vm_compute; reflexivity]. rewrite Ht. f_equal. rewrite <- Hm. vm_compute. reflexivity.
Defined.

(** What [BigInt] makes of no text at all: an absent value is quoted as zero. *)
Lemma empty_minor_is_zero : formatMinorUnits (M_text []) (js "USD") = Some (js "0.00").
Proof. reflexivity. Qed.
