(* ===== verification/Reconcile.v ===== *)
(** * Reconcile: positions, drift and cadence of the connector sync
      (apps/orchestrator/src/services/erp-sync/watermark.ts, reconcile.ts,
      drift-record.service.ts, schedule-jitter.ts, and m365/sync-policy.ts)

    What a page of vendor rows says about how far a sync has come, what a full
    read found that the incremental one missed, how often to sweep, and when to
    retry.  [Date.parse] is a parameter (the class [DateParse]), since most of
    the texts the code lets through to it are outside the format the language
    fixes; vendor rows are JSON values. *)

From S2P Require Import Prelude JsNum Json DateTime DateText ZonedTime.

Local Open Scope Z_scope.

(** [Date.parse], [None] for NaN. *)
Class DateParse := Date_parse : jsstr -> option Z.

(** ** watermark.ts *)

(** [ISO_TIMESTAMP], piece by piece: what is left after it. *)
Fixpoint skip_digits (n : nat) (s : jsstr) : option jsstr :=
  match n, s with
  | O, _ => Some s
  | S n, c :: r => if digitb c then skip_digits n r else None
  | S _, [] => None
  end.

Definition skip_unit (ok : N -> bool) (s : jsstr) : option jsstr :=
  match s with c :: r => if ok c then Some r else None | [] => None end.

Definition skip_all (pieces : list (jsstr -> option jsstr)) (s : jsstr) : option jsstr := foldl (fun left p => left ≫= p) (Some s) pieces.

Definition zone_end (s : jsstr) : bool :=
  match s with
  | [] => true
  | [90%N] => true
  | c :: r =>
      (N.eqb c 43 || N.eqb c 45) &&
      match skip_digits 2 r with
      | Some (58%N :: r') => bool_decide (skip_digits 2 r' = Some [])
      | Some r' => bool_decide (skip_digits 2 r' = Some [])
      | None => false
      end
  end.

Fixpoint fraction_end (s : jsstr) : bool := match s with c :: r => if digitb c then fraction_end r || zone_end r else false | [] => false end.

Definition seconds_end (s : jsstr) : bool :=
  zone_end s ||
  match skip_all [skip_unit (N.eqb 58); skip_digits 2] s with
  | Some (46%N :: r) => fraction_end r
  | Some s' => zone_end s'
  | None => false
  end.

Definition ISO_TIMESTAMP (s : jsstr) : bool :=
  match skip_all [skip_digits 4; skip_unit (N.eqb 45); skip_digits 2; skip_unit (N.eqb 45); skip_digits 2] s with
  | Some [] => true
  | Some s =>
      match skip_all [skip_unit (fun c => N.eqb c 84 || N.eqb c 32); skip_digits 2; skip_unit (N.eqb 58); skip_digits 2] s with
      | Some r => seconds_end r
      | None => false
      end
  | None => false
  end.

(** A row reduced to its key and the two positions it offers. *)
Record RecordIdentity := mkIdentity { ri_sourceKey : jsstr; ri_marker : option jsstr; ri_updatedAt : option jsstr }.

Definition watermarkValueOf (record : RecordIdentity) : option jsstr :=
  match ri_updatedAt record with
  | Some (c :: r) => Some (c :: r)
  | _ => ri_marker record
  end.

Section reconcile.
Context `{DateParse}.

Definition isoInstant (value : option jsstr) : option Z :=
  match value with Some v => if ISO_TIMESTAMP v then Date_parse v else None | None => None end.

(** The best timestamp so far with its instant, and the last opaque token. *)
Definition high_step (st : option (jsstr * Z) * option jsstr) (record : RecordIdentity) : option (jsstr * Z) * option jsstr :=
  let '(best, lastOpaque) := st in
  match watermarkValueOf record with
  | None | Some [] => st
  | Some value =>
      match isoInstant (Some value) with
      | None => (best, Some value)
      | Some instant =>
          match best with
          | Some (_, bestInstant) => if bestInstant <? instant then (Some (value, instant), lastOpaque) else st
          | None => (Some (value, instant), lastOpaque)
          end
      end
  end.

Definition highestWatermark (records : list RecordIdentity) : option jsstr :=
  let '(best, lastOpaque) := foldl high_step (None, None) records in
  match best with Some (bestIso, _) => Some bestIso | None => lastOpaque end.

Definition isWatermarkAhead (candidate reference : option jsstr) : bool :=
  match candidate, reference with
  | None, _ => false
  | Some _, None => true
  | Some _, Some _ => match isoInstant candidate, isoInstant reference with Some a, Some b => b <? a | _, _ => false end
  end.

(** ** reconcile.ts *)

Inductive ErpDriftClass := missed_newer | watermark_behind.

#[export] Instance ErpDriftClass_eq_dec : EqDecision ErpDriftClass.
Proof. solve_decision. Defined.

Record ErpEntityDrift := mkDrift {
  dr_entity : jsstr; dr_fullCount : nat; dr_incrementalCount : nat; dr_missedCount : nat; dr_watermarkBehind : bool;
  dr_classes : list ErpDriftClass; dr_earliestMissedAt : option Z
}.

Record ErpDriftReport := mkReport {
  rp_connectionId : jsstr; rp_provider : jsstr; rp_sweptAt : jsstr; rp_entities : list ErpEntityDrift; rp_totalMissed : nat; rp_driftDetected : bool
}.

(** [String(v)] of a JSON value. *)
Fixpoint js_String (v : jsval) : jsstr :=
  match v with
  | JUndef => js "undefined"
  | JNull => js "null"
  | JBool b => if b then js "true" else js "false"
  | JNum n => num_str n
  | JStr s => s
  | JArr l => join [44%N] (map (fun x => match x with JUndef | JNull => [] | _ => js_String x end) l)
  | JObj _ => js "[object Object]"
  end.

(** An own property; an array has none of the names the entities declare. *)
Definition prop (rec : entries) (k : jsstr) : jsval := default JUndef (alookup k rec).

Definition text_or_null (v : jsval) : option jsstr := match v with JUndef | JNull => None | _ => Some (js_String v) end.

Definition identify_row (sourceKeyField markerField updatedAtField : jsstr) (row : jsval) : option RecordIdentity :=
  match row with
  | JObj rec =>
      match prop rec sourceKeyField with
      | JUndef | JNull | JStr [] => None
      | key => Some (mkIdentity (js_String key) (text_or_null (prop rec markerField)) (text_or_null (prop rec updatedAtField)))
      end
  | _ => None
  end.

Definition identify (rows : list jsval) (sourceKeyField markerField updatedAtField : jsstr) : list RecordIdentity :=
  omap (identify_row sourceKeyField markerField updatedAtField) rows.

Definition highWaterMark (records : list RecordIdentity) : option jsstr := highestWatermark records.

(** The count of missed records and the earliest instant of one. *)
Definition drift_step (seen : list jsstr) (watermark : option jsstr) (st : nat * option Z) (r : RecordIdentity) : nat * option Z :=
  let '(missedCount, earliestMissedAt) := st in
  if bool_decide (ri_sourceKey r ∈ seen) then st else
  let value := watermarkValueOf r in
  if negb (isWatermarkAhead value watermark) then st else
  (S missedCount,
   match isoInstant value, earliestMissedAt with
   | Some at_, None => Some at_
   | Some at_, Some e => if at_ <? e then Some at_ else Some e
   | None, _ => earliestMissedAt
   end).

Definition diffForDrift (entity : jsstr) (watermark : option jsstr) (incremental full : list RecordIdentity) : ErpEntityDrift :=
  let seen := ri_sourceKey <$> incremental in
  let '(missedCount, earliestMissedAt) := foldl (drift_step seen watermark) (0%nat, None) full in
  let fullHigh := highWaterMark full in
  let incHigh := highWaterMark incremental in
  let watermarkBehind := isWatermarkAhead fullHigh (match incHigh with Some h => Some h | None => watermark end) in
  mkDrift entity (length full) (length incremental) missedCount watermarkBehind
    ((if Nat.ltb 0 missedCount then [missed_newer] else []) ++ (if watermarkBehind then [watermark_behind] else [])) earliestMissedAt.

Definition buildDriftReport (connectionId provider : jsstr) (sweptAt : Z) (entities : list ErpEntityDrift) : ErpDriftReport :=
  mkReport connectionId provider (toISOString sweptAt) entities (foldl (fun n e => n + dr_missedCount e)%nat 0%nat entities)
    (existsb (fun e => negb (Nat.eqb (length (dr_classes e)) 0)) entities).

(** ** drift-record.service.ts *)

Inductive ErpDriftClassificationName := NONE | MISSED_NEWER | WATERMARK_BEHIND | MISSED_NEWER_AND_WATERMARK_BEHIND.

#[export] Instance ErpDriftClassificationName_eq_dec : EqDecision ErpDriftClassificationName.
Proof. solve_decision. Defined.

Record ErpDriftRow := mkDriftRow {
  dw_connectionId : jsstr; dw_provider : jsstr; dw_entity : jsstr; dw_sweepAt : Z; dw_classification : ErpDriftClassificationName;
  dw_missedCount : nat; dw_fullCount : nat; dw_incrementalCount : nat; dw_watermarkAt : option Z; dw_earliestMissedAt : option Z
}.

Definition classifyEntityDrift (drift : ErpEntityDrift) : ErpDriftClassificationName :=
  let missed := bool_decide (missed_newer ∈ dr_classes drift) in
  let behind := bool_decide (watermark_behind ∈ dr_classes drift) in
  if missed && behind then MISSED_NEWER_AND_WATERMARK_BEHIND
  else if missed then MISSED_NEWER else if behind then WATERMARK_BEHIND else NONE.

Definition driftRowFor (connectionId provider : jsstr) (sweepAt : Z) (watermark : option jsstr) (drift : ErpEntityDrift) : ErpDriftRow :=
  mkDriftRow connectionId provider (dr_entity drift) sweepAt (classifyEntityDrift drift) (dr_missedCount drift) (dr_fullCount drift)
    (dr_incrementalCount drift) (isoInstant watermark) (dr_earliestMissedAt drift).
End reconcile.

Definition CLEAN_SWEEPS_PER_STEP : Z := 3.
Definition MAX_SWEEP_INTERVAL_MULTIPLIER : Z := 8.
Definition DEFAULT_STREAK_ROW_LIMIT : nat := 200.

(** Consecutive rows of one sweep, and whether all of them are clean; [sweeps]
    is newest first and its last element is being filled. *)
Definition group_sweep (sweeps : list (Z * bool)) (row : ErpDriftRow) : list (Z * bool) :=
  let clean := bool_decide (dw_classification row = NONE) in
  match last sweeps with
  | Some (key, c) => if key =? dw_sweepAt row then removelast sweeps ++ [(key, c && clean)] else sweeps ++ [(dw_sweepAt row, clean)]
  | None => sweeps ++ [(dw_sweepAt row, clean)]
  end.

Fixpoint count_clean (sweeps : list (Z * bool)) : Z :=
  match sweeps with (_, true) :: r => 1 + count_clean r | _ => 0 end.

(** [rows] is what the query answers: the connection's rows, newest first, at
    most [rowLimit] of them. *)
Definition streak_of_rows (rowLimit : nat) (rows : list ErpDriftRow) : Z :=
  let sweeps := foldl group_sweep [] rows in
  count_clean (if Nat.leb rowLimit (length rows) then removelast sweeps else sweeps).

Definition sweepIntervalMsFor (baseMs cleanStreak : Z) : Z :=
  if cleanStreak <=? 0 then baseMs
  else baseMs * Z.min (2 ^ (cleanStreak / CLEAN_SWEEPS_PER_STEP)) MAX_SWEEP_INTERVAL_MULTIPLIER.

(** ** sync-policy.ts *)

Inductive SyncFailureKind := TRANSIENT | RESYNC | AUTH | FATAL.

#[export] Instance SyncFailureKind_eq_dec : EqDecision SyncFailureKind.
Proof. solve_decision. Defined.

Record SyncFailureLike := mkFailure { sf_statusCode : option Z; sf_code : option jsstr; sf_message : option jsstr }.

Definition RESYNC_CODES : list jsstr :=
  js <$> ["syncStateNotFound"; "resyncRequired"; "resyncChangesApplyDifferences"; "resyncChangesUploadDifferences"]%string.
Definition TRANSIENT_CODES : list jsstr :=
  js <$> ["ETIMEDOUT"; "ECONNRESET"; "ECONNREFUSED"; "ENOTFOUND"; "EAI_AGAIN"; "EPIPE"; "ENETUNREACH"]%string.
Definition LOCAL_RETRY_CODES : list jsstr := js <$> ["HANDLER_FAILED"; "TOKEN_UNAVAILABLE"]%string.

Definition status_is (err : SyncFailureLike) (ok : Z -> bool) : bool := match sf_statusCode err with Some s => ok s | None => false end.

Definition classifySyncFailure (err : SyncFailureLike) : SyncFailureKind :=
  let code := trim (default [] (sf_code err)) in
  if bool_decide (code ∈ RESYNC_CODES) then RESYNC
  else if status_is err (Z.eqb 410) then RESYNC
  else if bool_decide (code ∈ TRANSIENT_CODES) then TRANSIENT
  else if bool_decide (code ∈ LOCAL_RETRY_CODES) then TRANSIENT
  else if status_is err (Z.eqb 429) then TRANSIENT
  else if status_is err (fun s => (500 <=? s) && (s <=? 599)) then TRANSIENT
  else if status_is err (fun s => (s =? 401) || (s =? 403)) then AUTH
  else FATAL.

Definition MAX_BACKOFF_MS : Z := 30 * 60 * 1000.
Definition BASE_BACKOFF_MS : Z := 30 * 1000.

Definition parseRetryAfter `{DateParse} (header : option jsstr) (now : Z) : option Z :=
  match trim (default [] header) with
  | [] => None
  | raw => if forallb digitb raw then Some (digits_val raw * 1000)
           else match Date_parse raw with None => None | Some when_ => Some (Z.max 0 (when_ - now)) end
  end.

(** [random()] is a number of 53 bits, [drawn] of 2^53; the product is exact
    here, and rounded to a double in the code. *)
Definition jittered (base drawn : Z) : Z := (base * 2 ^ 53 + base * drawn + 2 ^ 53) / 2 ^ 54.

Definition computeBackoffMs (consecutiveFailures : Z) (retryAfterMs : option Z) (drawn : Z) : Z :=
  match retryAfterMs with
  | Some ms => ms
  | None =>
      let attempt := Z.max 1 consecutiveFailures in
      let growth := Z.min (2 ^ Z.min (attempt - 1) 10) (MAX_BACKOFF_MS / BASE_BACKOFF_MS) in
      let base := Z.min (BASE_BACKOFF_MS * growth) MAX_BACKOFF_MS in
      Z.max 1 (Z.min (jittered base drawn) MAX_BACKOFF_MS)
  end.

(** ** schedule-jitter.ts *)

Section jitter.
(** The SHA-256 digest, in hexadecimal. *)
Context (sha256 : jsstr -> jsstr).

Definition deriveScheduleJitterMs (deviceId : jsstr) (spanMs : Z) : Z :=
  if spanMs <=? 0 then 0
  else foldl (fun acc c => 16 * acc + Z.of_N (hex_val c)) 0 (take 12 (sha256 deviceId)) mod spanMs.

(** With the default fraction, a quarter. *)
Definition jitteredPeriodMs (basePeriodMs : Z) (deviceId : jsstr) : Z := basePeriodMs + deriveScheduleJitterMs deviceId (basePeriodMs / 4).
End jitter.

(** ** What the marks mean *)

Lemma split_cmp {A} (a1 b1 a2 b2 : list A) x1 x2 : a1 ++ x1 :: b1 = a2 ++ x2 :: b2 ->
  (a1 = a2 /\ x1 = x2 /\ b1 = b2) \/ (x1 ∈ a2 /\ x2 ∈ b1) \/ (x2 ∈ a1 /\ x1 ∈ b2).
Proof.
  intros [(k & Ha & Hb)|(k & Ha & Hb)]%app_eq_inv; destruct k as [|y k]; rewrite ?app_nil_r in *; cbn in *; subst.
  - injection Hb as -> ->. auto.
  - injection Hb as -> ->. right. right. split; apply elem_of_app; right; constructor.
  - injection Hb as -> ->. auto.
  - injection Hb as -> ->. right. left. split; apply elem_of_app; right; constructor.
Qed.

Section marks.
Context `{DateParse}.

(** The position a row offers, and its instant if it is a timestamp. *)
Definition offers (r : RecordIdentity) (v : jsstr) : Prop := watermarkValueOf r = Some v /\ v <> [].
Definition instant_of (r : RecordIdentity) : option Z := isoInstant (watermarkValueOf r).

Definition first_latest (rs : list RecordIdentity) (v : jsstr) (t : Z) : Prop :=
  exists pre r post, rs = pre ++ r :: post /\ offers r v /\ isoInstant (Some v) = Some t /\
    (forall x t', x ∈ pre -> instant_of x = Some t' -> t' < t) /\ (forall x t', x ∈ post -> instant_of x = Some t' -> t' <= t).

Definition last_opaque (rs : list RecordIdentity) (v : jsstr) : Prop :=
  exists pre r post, rs = pre ++ r :: post /\ offers r v /\ instant_of r = None /\ (forall x v', x ∈ post -> offers x v' -> instant_of x <> None).

(** The first of the latest timestamps offered; the last token offered if none
    is a timestamp. *)
Definition is_high_water (rs : list RecordIdentity) (v : jsstr) : Prop :=
  (exists t, first_latest rs v t) \/ ((forall x, x ∈ rs -> instant_of x = None) /\ last_opaque rs v).

Definition high_inv (rs : list RecordIdentity) (st : option (jsstr * Z) * option jsstr) : Prop :=
  match st.1 with Some (v, t) => first_latest rs v t | None => forall x, x ∈ rs -> instant_of x = None end /\
  match st.2 with Some v => last_opaque rs v | None => forall x v, x ∈ rs -> offers x v -> instant_of x <> None end.

Lemma offers_instant r v : offers r v -> instant_of r = isoInstant (Some v).
Proof. unfold instant_of. by intros [-> _]. Qed.

Lemma no_offer r : (forall v, ~ offers r v) -> instant_of r = None.
Proof. unfold instant_of, offers. destruct (watermarkValueOf r) as [[|c v]|]; [done| |done]. intros Hn. by destruct (Hn (c :: v)). Qed.

Lemma elem_of_snoc {A} (x y : A) l : x ∈ l ++ [y] <-> x ∈ l \/ x = y.
Proof. by rewrite elem_of_app, list_elem_of_singleton. Qed.

Lemma first_latest_keep rs v t r : first_latest rs v t -> (forall t', instant_of r = Some t' -> t' <= t) -> first_latest (rs ++ [r]) v t.
Proof.
  intros (pre & x & post & -> & Ho & Ht & Hpre & Hpost) Hr. exists pre, x, (post ++ [r]). split; [by rewrite <- app_assoc|].
  split_and!; [done..|]. intros y t' [Hy| ->]%elem_of_snoc; eauto.
Qed.

Lemma first_latest_new rs v t r : offers r v -> isoInstant (Some v) = Some t -> (forall x t', x ∈ rs -> instant_of x = Some t' -> t' < t) ->
  first_latest (rs ++ [r]) v t.
Proof. intros Ho Ht Hlt. exists rs, r, []. split_and!; try done. intros x t' Hx. by apply elem_of_nil in Hx. Qed.

Lemma last_opaque_keep rs v r : last_opaque rs v -> (forall v', offers r v' -> instant_of r <> None) -> last_opaque (rs ++ [r]) v.
Proof.
  intros (pre & x & post & -> & Ho & Hx & Hpost) Hr. exists pre, x, (post ++ [r]). split; [by rewrite <- app_assoc|].
  split_and!; [done..|]. intros y v' [Hy| ->]%elem_of_snoc; eauto.
Qed.

Lemma first_latest_bound rs v t x t' : first_latest rs v t -> x ∈ rs -> instant_of x = Some t' -> t' <= t.
Proof.
  intros (pre & r & post & -> & Ho & Ht & Hpre & Hpost) [Hx|[->|Hx]%elem_of_cons]%elem_of_app Hi; [apply Z.lt_le_incl| |]; eauto.
  rewrite (offers_instant _ _ Ho), Ht in Hi. by injection Hi as ->.
Qed.

Lemma high_step_inv rs st r : high_inv rs st -> high_inv (rs ++ [r]) (high_step st r).
Proof.
  destruct st as [best op]. intros [Hb Ho]. cbn [fst snd] in Hb, Ho. unfold high_step.
  assert (Hno : (forall v, ~ offers r v) -> high_inv (rs ++ [r]) (best, op)).
  { intros Hn. pose proof (no_offer _ Hn) as Hi. split; cbn [fst snd].
    - destruct best as [[v t]|]; [apply first_latest_keep; [done|by rewrite Hi]|]. intros x [Hx| ->]%elem_of_snoc; auto.
    - destruct op as [v|]; [apply last_opaque_keep; [done|]; intros v' Hv; by destruct (Hn v')|].
      intros x v [Hx| ->]%elem_of_snoc Hv; [eauto|by destruct (Hn v)]. }
  destruct (watermarkValueOf r) as [[|c v]|] eqn:Ev.
  1, 3: apply Hno; intros v' [E Hne]; congruence.
  clear Hno. assert (Hr : offers r (c :: v)) by done. pose proof (offers_instant _ _ Hr) as Hi. revert Hr Hi. generalize (c :: v). clear c v Ev. intros v Hr Hi.
  destruct (isoInstant (Some v)) as [t|] eqn:Et.
  - assert (Hop : match op with Some w => last_opaque (rs ++ [r]) w | None => forall x w, x ∈ rs ++ [r] -> offers x w -> instant_of x <> None end).
    { destruct op as [w|]; [apply last_opaque_keep; [done|by rewrite Hi]|]. intros x w [Hx| ->]%elem_of_snoc; [eauto|by rewrite Hi]. }
    destruct best as [[v0 t0]|].
    + destruct (Z.ltb_spec t0 t) as [Hlt|Hge].
      * split; [|exact Hop]. apply first_latest_new; [done..|]. intros x t' Hx Hx'. pose proof (first_latest_bound _ _ _ _ _ Hb Hx Hx'). lia.
      * split; [|exact Hop]. apply first_latest_keep; [done|]. rewrite Hi. by intros t' [= <-].
    + split; [|exact Hop]. apply first_latest_new; [done..|]. intros x t' Hx Hx'. by rewrite (Hb x Hx) in Hx'.
  - split; cbn [fst snd].
    + destruct best as [[v0 t0]|]; [apply first_latest_keep; [done|by rewrite Hi]|]. intros x [Hx| ->]%elem_of_snoc; auto.
    + exists rs, r, []. split_and!; try done. intros x v' Hx. by apply elem_of_nil in Hx.
Qed.

Lemma high_inv_fold rs : high_inv rs (foldl high_step (None, None) rs).
Proof.
  induction rs as [|r rs IH] using rev_ind; [split; cbn; intros x Hx|rewrite foldl_app; by apply high_step_inv].
  - by apply elem_of_nil in Hx.
  - intros Hv. by apply elem_of_nil in Hv.
Qed.

Lemma highest_is_high rs : match highestWatermark rs with Some v => is_high_water rs v | None => forall r v, r ∈ rs -> ~ offers r v end.
Proof.
  unfold highestWatermark. pose proof (high_inv_fold rs) as Hi. destruct (foldl _ _ _) as [[[v t]|] op]; destruct Hi as [Hb Ho]; cbn in *.
  - left. by exists t.
  - destruct op as [v|]; [by right|]. intros r v Hr Hv. apply (Ho r v Hr Hv). by apply Hb.
Qed.

Lemma first_latest_unique rs v1 t1 v2 t2 : first_latest rs v1 t1 -> first_latest rs v2 t2 -> v1 = v2.
Proof.
  intros (p1 & r1 & q1 & E1 & [Ho1 N1] & Ht1 & Hp1 & Hq1) (p2 & r2 & q2 & E2 & [Ho2 N2] & Ht2 & Hp2 & Hq2). subst rs.
  assert (I1 : instant_of r1 = Some t1) by (unfold instant_of; by rewrite Ho1). assert (I2 : instant_of r2 = Some t2) by (unfold instant_of; by rewrite Ho2).
  apply split_cmp in E2 as [(_ & <- & _)|[[H1 H2]|[H1 H2]]]; [congruence| |].
  - pose proof (Hp2 _ _ H1 I1). pose proof (Hq1 _ _ H2 I2). lia.
  - pose proof (Hp1 _ _ H1 I2). pose proof (Hq2 _ _ H2 I1). lia.
Qed.

Lemma last_opaque_unique rs v1 v2 : last_opaque rs v1 -> last_opaque rs v2 -> v1 = v2.
Proof.
  intros (p1 & r1 & q1 & E1 & Ho1 & I1 & Hq1) (p2 & r2 & q2 & E2 & Ho2 & I2 & Hq2). subst rs.
  apply split_cmp in E2 as [(_ & <- & _)|[[H1 H2]|[H1 H2]]]; [destruct Ho1, Ho2; congruence| |].
  - by destruct (Hq1 _ _ H2 Ho2).
  - by destruct (Hq2 _ _ H2 Ho1).
Qed.

Lemma first_latest_instant rs v t : first_latest rs v t -> exists x, x ∈ rs /\ instant_of x = Some t.
Proof.
  intros (p & r & q & -> & [Ho _] & Ht & _). exists r. split; [apply elem_of_app; right; constructor|]. unfold instant_of. by rewrite Ho.
Qed.

Lemma is_high_water_unique rs v1 v2 : is_high_water rs v1 -> is_high_water rs v2 -> v1 = v2.
Proof.
  intros [(t1 & H1)|[N1 H1]] [(t2 & H2)|[N2 H2]].
  - by eapply first_latest_unique.
  - destruct (first_latest_instant _ _ _ H1) as (x & Hx & Hi). rewrite N2 in Hi; done.
  - destruct (first_latest_instant _ _ _ H2) as (x & Hx & Hi). rewrite N1 in Hi; done.
  - by eapply last_opaque_unique.
Qed.

Lemma highest_iff rs v : highestWatermark rs = Some v <-> is_high_water rs v.
Proof.
  pose proof (highest_is_high rs) as Hh. destruct (highestWatermark rs) as [w|]; split; intros Hv.
  - by injection Hv as <-.
  - f_equal. by eapply is_high_water_unique.
  - done.
  - exfalso. assert (exists p r q, rs = p ++ r :: q /\ offers r v) as (p & r & q & -> & Ho).
    { destruct Hv as [(t & p & r & q & -> & Ho & _)|[_ (p & r & q & -> & Ho & _)]]; eauto 6. }
    apply (Hh r v); [apply elem_of_app; right; constructor|done].
Qed.
End marks.

(** ** The timestamps, as a grammar *)

Definition digits (n : nat) (s : jsstr) : Prop := length s = n /\ Forall (fun c => 48 <= c <= 57)%N s.

Definition date_shape (s : jsstr) : Prop :=
  exists y m d, s = y ++ [45%N] ++ m ++ [45%N] ++ d /\ digits 4 y /\ digits 2 m /\ digits 2 d.
(** [Z], or an offset with or without its colon, or nothing. *)
Definition zone_shape (s : jsstr) : Prop :=
  s = [] \/ s = [90%N] \/
  exists sign h colon m, s = sign :: h ++ colon ++ m /\ (sign = 43%N \/ sign = 45%N) /\ digits 2 h /\ (colon = [] \/ colon = [58%N]) /\ digits 2 m.
Definition fraction_shape (s : jsstr) : Prop := s = [] \/ exists n f, s = 46%N :: f /\ digits (S n) f.
Definition seconds_shape (s : jsstr) : Prop := s = [] \/ exists ss f, s = 58%N :: ss ++ f /\ digits 2 ss /\ fraction_shape f.
Definition time_shape (s : jsstr) : Prop :=
  exists sep h m ss z, s = sep :: h ++ [58%N] ++ m ++ ss ++ z /\ (sep = 84%N \/ sep = 32%N) /\ digits 2 h /\ digits 2 m /\ seconds_shape ss /\ zone_shape z.
(** A date; or a date, [T] or a space, hours and minutes, seconds and their
    fraction if any, and a zone if any. *)
Definition iso_shape (s : jsstr) : Prop := exists d t, s = d ++ t /\ date_shape d /\ (t = [] \/ time_shape t).

Lemma digit_iff c : digitb c = true <-> (48 <= c <= 57)%N.
Proof. unfold digitb. by rewrite andb_true_iff, !N.leb_le. Qed.

Lemma digits_cons n c s : digits (S n) (c :: s) <-> digitb c = true /\ digits n s.
Proof. unfold digits. rewrite Forall_cons, digit_iff. cbn. split; [intros [[=] []]|intros (? & -> & ?)]; done. Qed.

Lemma digits_nil n : ~ digits (S n) [].
Proof. by intros []. Qed.

Lemma skip_digits_iff n s r : skip_digits n s = Some r <-> exists d, s = d ++ r /\ digits n d.
Proof.
  revert s. induction n as [|n IH]; intros s; cbn.
  - split; [intros [= ->]; by exists []|]. by intros ([|] & -> & Hl & _).
  - destruct s as [|c s]; [split; [done|]; intros ([|c d] & E & Hd); [by apply digits_nil in Hd|done]|]. destruct (digitb c) eqn:Ec; [rewrite IH|]; split.
    + intros (d & -> & Hd). exists (c :: d). by rewrite digits_cons.
    + intros ([|c' d] & E & Hd); [by apply digits_nil in Hd|]. injection E as <- ->. exists d. by apply digits_cons in Hd as [].
    + done.
    + intros ([|c' d] & E & Hd); [by apply digits_nil in Hd|]. injection E as <- ->. apply digits_cons in Hd as []. congruence.
Qed.

Lemma skip_unit_iff ok s r : skip_unit ok s = Some r <-> exists c, s = c :: r /\ ok c = true.
Proof.
  destruct s as [|c s]; cbn; [split; [done|by intros (? & [=] & _)]|]. destruct (ok c) eqn:E; split.
  - intros [= <-]. by exists c.
  - intros (c' & [= <- <-] & _). done.
  - done.
  - intros (c' & [= <- <-] & ?). congruence.
Qed.

Lemma minutes_end s : 
  (match s with 58%N :: r => bool_decide (skip_digits 2 r = Some []) | r => bool_decide (skip_digits 2 r = Some []) end) = true <->
  exists colon m, s = colon ++ m /\ (colon = [] \/ colon = [58%N]) /\ digits 2 m.
Proof.
  assert (Hm : forall x, bool_decide (skip_digits 2 x = Some []) = true <-> digits 2 x).
  { intros x. rewrite bool_decide_eq_true, skip_digits_iff. split; [intros (d & -> & Hd); by rewrite app_nil_r|]. intros Hd. exists x. by rewrite app_nil_r. }
  destruct s as [|c s].
  { rewrite Hm. split; [by intros ?%digits_nil|]. intros (colon & m & E & _ & Hd). symmetry in E. apply app_eq_nil in E as [_ ->]. by apply digits_nil in Hd. }
  destruct (decide (c = 58%N)) as [->|Hc].
  - rewrite Hm. split; [intros Hd; exists [58%N], s; split_and!; [done|by right|done]|]. intros (colon & m & E & [->| ->] & Hd); [|by injection E as ->].
    cbn in E. subst m. by apply digits_cons in Hd as [].
  - transitivity (digits 2 (c :: s)).
    + rewrite <- Hm. destruct c as [|p]; [done|]. do 6 (try destruct p as [p|p|]); done.
    + split; [intros Hd; exists [], (c :: s); split_and!; [done|by left|done]|]. intros (colon & m & E & [->| ->] & Hd); [by rewrite E|]. by injection E.
Qed.

Lemma zone_end_iff s : zone_end s = true <-> zone_shape s.
Proof.
  unfold zone_shape. destruct s as [|c r]; [naive_solver|]. destruct (decide (c :: r = [90%N])) as [E|Hne]; [rewrite E; naive_solver|].
  transitivity ((c = 43%N \/ c = 45%N) /\ exists s, skip_digits 2 r = Some s /\ exists colon m, s = colon ++ m /\ (colon = [] \/ colon = [58%N]) /\ digits 2 m).
  - setoid_rewrite <- minutes_end. rewrite <- !N.eqb_eq. rewrite <- orb_true_iff.
    transitivity ((N.eqb c 43 || N.eqb c 45) && match skip_digits 2 r with
      | Some (58%N :: r') => bool_decide (skip_digits 2 r' = Some [])
      | Some r' => bool_decide (skip_digits 2 r' = Some [])
      | None => false
      end = true).
    + apply eq_iff_eq_true. destruct c as [|p]; [done|]. do 7 (try destruct p as [p|p|]); try done. by destruct r.
    + rewrite andb_true_iff. destruct (skip_digits 2 r) as [s|]; naive_solver.
  - setoid_rewrite skip_digits_iff. split.
    + intros [Hc (s & (h & -> & Hh) & colon & m & -> & Hco & Hm)]. right. right. exists c, h, colon, m. done.
    + intros [?|[?|(sign & h & colon & m & [= <- ->] & Hs & Hh & Hco & Hm)]]; [done..|]. split; [done|]. exists (colon ++ m). split; [by exists h|]. by exists colon, m.
Qed.

Lemma fraction_end_iff s : fraction_end s = true <-> exists n f z, s = f ++ z /\ digits (S n) f /\ zone_shape z.
Proof.
  induction s as [|c r IH]; cbn; [split; [done|]; intros (n & [|c f] & z & E & Hd & _); [by apply digits_nil in Hd|done]|]. destruct (digitb c) eqn:Ec.
  - rewrite orb_true_iff, IH, zone_end_iff. split.
    + intros [(n & f & z & -> & Hd & Hz)|Hz]; [exists (S n), (c :: f), z; by rewrite digits_cons|exists 0%nat, [c], r; by rewrite digits_cons].
    + intros (n & [|c' f] & z & E & Hd & Hz); [by apply digits_nil in Hd|]. injection E as <- ->. apply digits_cons in Hd as [_ Hd]. destruct n as [|n].
      * right. destruct Hd as [Hl _]. by destruct f.
      * left. by exists n, f, z.
  - split; [done|]. intros (n & [|c' f] & z & E & Hd & Hz); [by apply digits_nil in Hd|]. injection E as <- ->. apply digits_cons in Hd as []. congruence.
Qed.

Lemma dot_or_zone s : (match s with 46%N :: r => fraction_end r | s' => zone_end s' end) = true <->
  exists f z, s = f ++ z /\ fraction_shape f /\ zone_shape z.
Proof.
  unfold fraction_shape. destruct s as [|c r].
  - split; [by exists [], []; split_and!; [|left|left]|done].
  - destruct (decide (c = 46%N)) as [->|Hc].
    + rewrite fraction_end_iff. split.
      * intros (n & f & z & -> & Hf & Hz). exists (46%N :: f), z. split; [done|]. split; [right; by exists n, f|done].
      * intros (f & z & E & [->|(n & f' & -> & Hf)] & Hz); [|injection E as ->; by exists n, f', z].
        cbn in E. subst z. destruct Hz as [?|[?|(? & ? & ? & ? & [= <- _] & [?|?] & _)]]; done.
    + transitivity (zone_shape (c :: r)).
      * rewrite <- zone_end_iff. apply eq_iff_eq_true. destruct c as [|p]; [done|]. do 6 (try destruct p as [p|p|]); done.
      * split; [intros Hz; exists [], (c :: r); split_and!; [done|by left|done]|]. intros (f & z & E & [->|(n & f' & -> & _)] & Hz); [by rewrite E|].
        by injection E.
Qed.

Lemma seconds_end_iff s : seconds_end s = true <-> exists ss z, s = ss ++ z /\ seconds_shape ss /\ zone_shape z.
Proof.
  unfold seconds_end, seconds_shape. rewrite orb_true_iff, zone_end_iff.
  transitivity (zone_shape s \/ exists r, skip_all [skip_unit (N.eqb 58); skip_digits 2] s = Some r /\ exists f z, r = f ++ z /\ fraction_shape f /\ zone_shape z).
  - setoid_rewrite <- dot_or_zone. destruct (skip_all _ s) as [r|]; [|naive_solver].
    transitivity (zone_shape s \/ match r with 46%N :: r => fraction_end r | s' => zone_end s' end = true); [|naive_solver].
    apply or_iff_compat_l. by apply eq_iff_eq_true.
  - unfold skip_all. cbn [foldl]. setoid_rewrite bind_Some. setoid_rewrite bind_Some. setoid_rewrite skip_digits_iff. setoid_rewrite skip_unit_iff. split.
    + intros [Hz|(r & (x & (s0 & [= <-] & (c & -> & <-%N.eqb_eq)) & (d & -> & Hd)) & f & z & -> & Hf & Hz)]; [exists [], s; split; [done|]; split; [by left|done]|].
      exists (58%N :: d ++ f), z. split; [cbn; by rewrite app_assoc|]. split; [|done]. right. by exists d, f.
    + intros (ss & z & -> & [->|(d & f & -> & Hd & Hf)] & Hz); [by left|]. right. exists (f ++ z). split; [|by exists f, z].
      exists (d ++ f ++ z). split; [|by exists d]. eexists. split; [done|]. exists 58%N. split; [cbn; by rewrite app_assoc|done].
Qed.

Lemma time_end_iff s : (match skip_all [skip_unit (fun c => N.eqb c 84 || N.eqb c 32); skip_digits 2; skip_unit (N.eqb 58); skip_digits 2] s with
      | Some r => seconds_end r
      | None => false
      end) = true <-> time_shape s.
Proof.
  unfold time_shape. transitivity (exists r, skip_all [skip_unit (fun c => N.eqb c 84 || N.eqb c 32); skip_digits 2; skip_unit (N.eqb 58); skip_digits 2] s = Some r /\
    exists ss z, r = ss ++ z /\ seconds_shape ss /\ zone_shape z).
  - setoid_rewrite <- seconds_end_iff. destruct (skip_all _ s); naive_solver.
  - unfold skip_all. cbn [foldl]. repeat setoid_rewrite bind_Some. setoid_rewrite skip_digits_iff. setoid_rewrite skip_unit_iff.
    setoid_rewrite orb_true_iff. setoid_rewrite N.eqb_eq. split.
    + intros (r & (x3 & (x2 & (x1 & (s0 & [= <-] & (c & -> & Hc)) & (h & -> & Hh)) & (c2 & -> & <-)) & (m & -> & Hm)) & ss & z & -> & Hs & Hz).
      by exists c, h, m, ss, z.
    + intros (c & h & m & ss & z & -> & Hc & Hh & Hm & Hs & Hz). exists (ss ++ z). split; [|by exists ss, z].
      exists (m ++ ss ++ z). split; [|by exists m]. exists (58%N :: m ++ ss ++ z). split; [|by exists 58%N].
      exists (h ++ [58%N] ++ m ++ ss ++ z). split; [|by exists h]. eexists. split; [done|]. by exists c.
Qed.

(** The pattern is the grammar. *)
Lemma iso_iff s : ISO_TIMESTAMP s = true <-> iso_shape s.
Proof.
  unfold iso_shape. transitivity (exists t, skip_all [skip_digits 4; skip_unit (N.eqb 45); skip_digits 2; skip_unit (N.eqb 45); skip_digits 2] s = Some t /\ (t = [] \/ time_shape t)).
  - setoid_rewrite <- time_end_iff. unfold ISO_TIMESTAMP. destruct (skip_all _ s) as [[|c t]|]; naive_solver.
  - unfold skip_all, date_shape. cbn [foldl]. repeat setoid_rewrite bind_Some. setoid_rewrite skip_digits_iff. setoid_rewrite skip_unit_iff.
    setoid_rewrite N.eqb_eq. split.
    + intros (t & (x4 & (x3 & (x2 & (x1 & (s0 & [= <-] & (y & -> & Hy)) & (c & -> & <-)) & (m & -> & Hm)) & (c2 & -> & <-)) & (d & -> & Hd)) & Ht).
      exists (y ++ [45%N] ++ m ++ [45%N] ++ d), t. split; [by rewrite <- !app_assoc|]. split; [by exists y, m, d|done].
    + intros (x & t & -> & (y & m & d & -> & Hy & Hm & Hd) & Ht). exists t. split; [|done]. rewrite <- !app_assoc.
      exists (d ++ t). split; [|by exists d]. exists (45%N :: d ++ t). split; [|by exists 45%N].
      exists (m ++ [45%N] ++ d ++ t). split; [|by exists m]. exists (45%N :: m ++ [45%N] ++ d ++ t). split; [|by exists 45%N].
      eexists. split; [done|]. by exists y.
Qed.

(** ** What a position says, without the comparator *)

Section positions.
Context `{DateParse}.

(** The vendor's modification time where it gives one, else the ordering key. *)
Definition position (r : RecordIdentity) (v : jsstr) : Prop :=
  (ri_updatedAt r = Some v /\ v <> []) \/ ((ri_updatedAt r = None \/ ri_updatedAt r = Some []) /\ ri_marker r = Some v).

(** The instant of a text that is a timestamp; any other text is a token. *)
Definition timestamp (v : jsstr) (t : Z) : Prop := iso_shape v /\ Date_parse v = Some t.

Definition dated (r : RecordIdentity) (t : Z) : Prop := exists v, position r v /\ timestamp v t.

(** Anything is ahead of no position; and of a position only a later instant. *)
Definition ahead (v : jsstr) (reference : option jsstr) : Prop :=
  match reference with
  | None => True
  | Some w => exists a b, timestamp v a /\ timestamp w b /\ b < a
  end.

(** The mark of some rows: the first of their latest timestamps; the last token
    offered if none is a timestamp. *)
Definition high_mark (rs : list RecordIdentity) (v : jsstr) : Prop :=
  (exists before r after t, rs = before ++ r :: after /\ position r v /\ timestamp v t /\
     (forall x t', x ∈ before -> dated x t' -> t' < t) /\ (forall x t', x ∈ after -> dated x t' -> t' <= t)) \/
  ((forall x t, x ∈ rs -> ~ dated x t) /\
   exists before r after, rs = before ++ r :: after /\ position r v /\ v <> [] /\ forall x v', x ∈ after -> position x v' -> v' = []).

(** A record of the full read that the incremental one did not show, at a
    position ahead of the one it was read from. *)
Definition missed (watermark : option jsstr) (incremental : list RecordIdentity) (r : RecordIdentity) : Prop :=
  (forall x, x ∈ incremental -> ri_sourceKey x <> ri_sourceKey r) /\ exists v, position r v /\ ahead v watermark.

(** The earliest instant among some rows. *)
Definition earliest (rs : list RecordIdentity) (t : option Z) : Prop :=
  match t with
  | Some t => (exists r, r ∈ rs /\ dated r t) /\ forall r t', r ∈ rs -> dated r t' -> t <= t'
  | None => forall r t', r ∈ rs -> ~ dated r t'
  end.

(** *** The code's comparator says the same *)

Lemma position_iff r v : watermarkValueOf r = Some v <-> position r v.
Proof. unfold watermarkValueOf, position. destruct (ri_updatedAt r) as [[|c u]|]; naive_solver. Qed.

Lemma timestamp_iff v t : isoInstant (Some v) = Some t <-> timestamp v t.
Proof. unfold isoInstant, timestamp. rewrite <- iso_iff. destruct (ISO_TIMESTAMP v); naive_solver. Qed.

Lemma dated_iff r t : instant_of r = Some t <-> dated r t.
Proof.
  unfold instant_of, dated. setoid_rewrite <- position_iff. setoid_rewrite <- timestamp_iff. destruct (watermarkValueOf r) as [v|]; [|naive_solver].
  split; [by exists v|by intros (v' & [= <-] & ?)].
Qed.

Lemma not_dated r : instant_of r = None <-> forall t, ~ dated r t.
Proof. setoid_rewrite <- dated_iff. destruct (instant_of r); naive_solver. Qed.

Lemma ahead_iff v w : isWatermarkAhead (Some v) w = true <-> ahead v w.
Proof.
  unfold isWatermarkAhead, ahead. destruct w as [w|]; [|done]. setoid_rewrite <- timestamp_iff.
  destruct (isoInstant (Some v)) as [a|], (isoInstant (Some w)) as [b|]; try (split; [done|by intros (? & ? & [=] & [=] & _)]).
  rewrite Z.ltb_lt. split; [by exists a, b|by intros (? & ? & [= <-] & [= <-] & ?)].
Qed.

Lemma offers_iff r v : offers r v <-> position r v /\ v <> [].
Proof. unfold offers. by rewrite position_iff. Qed.

Lemma high_mark_iff rs v : highestWatermark rs = Some v <-> high_mark rs v.
Proof.
  rewrite highest_iff. unfold is_high_water, high_mark, first_latest, last_opaque. setoid_rewrite offers_iff.
  setoid_rewrite timestamp_iff. setoid_rewrite dated_iff. split; intros [Hf|[Hn Ho]]; [left|right|left|right].
  - destruct Hf as (t & p & r & q & -> & [Hp _] & Ht & Hpre & Hpost). by exists p, r, q, t.
  - split; [intros x t Hx; by apply not_dated, Hn|]. destruct Ho as (p & r & q & -> & [Hp Hv] & _ & Hpost). exists p, r, q. split_and!; [done..|].
    intros x v' Hx Hv'. apply dec_stable. intros Hne. apply (Hpost x v' Hx); [by split|]. apply Hn, elem_of_app. right. by right.
  - destruct Hf as (p & r & q & t & -> & Hp & Ht & Hpre & Hpost). exists t, p, r, q. split; [done|]. split; [split; [done|]|done].
    intros ->. destruct Ht as [Hs%iso_iff _]. vm_compute in Hs. discriminate Hs.
  - assert (Hno : forall x, x ∈ rs -> instant_of x = None) by (intros x Hx; apply not_dated; intros t; by apply Hn). split; [exact Hno|].
    destruct Ho as (p & r & q & -> & Hp & Hv & Hpost). exists p, r, q. split_and!; [done..| |].
    + apply Hno, elem_of_app. right. by left.
    + intros x v' Hx [Hv' Hne]. destruct Hne. by eapply Hpost.
Qed.

Lemma missed_iff w inc r : missed w inc r <-> ri_sourceKey r ∉ ri_sourceKey <$> inc /\ isWatermarkAhead (watermarkValueOf r) w = true.
Proof.
  unfold missed. rewrite list_elem_of_fmap. setoid_rewrite <- position_iff. setoid_rewrite <- ahead_iff. split; intros [Hs Ha]; split.
  - intros (x & E & Hx). by apply (Hs x Hx).
  - by destruct Ha as (v & -> & Ha).
  - intros x Hx E. apply Hs. by exists x.
  - destruct (watermarkValueOf r) as [v|]; [by exists v|done].
Qed.

#[export] Instance missed_dec w inc r : Decision (missed w inc r).
Proof.
  destruct (decide (ri_sourceKey r ∉ ri_sourceKey <$> inc /\ isWatermarkAhead (watermarkValueOf r) w = true)) as [Hm|Hm]; [left|right]; by rewrite missed_iff.
Defined.
End positions.

(** ** Drift *)

Section drift.
Context `{DateParse}.

Lemma drift_step_spec w inc r st :
  drift_step (ri_sourceKey <$> inc) w st r =
  if decide (missed w inc r) then (S st.1, match instant_of r, st.2 with Some a, None => Some a | Some a, Some e => if a <? e then Some a else Some e | None, o => o end)
  else st.
Proof.
  destruct st as [n e]. unfold drift_step. destruct (decide (missed w inc r)) as [[Hs Ha]%missed_iff|Hm].
  - rewrite bool_decide_eq_false_2, Ha by done. cbn [negb fst snd]. unfold instant_of. by destruct (isoInstant _), e.
  - case_bool_decide; [done|]. destruct (isWatermarkAhead _ _) eqn:Ea; [|done]. by destruct Hm; apply missed_iff.
Qed.

Lemma earliest_iff rs t : earliest rs t <->
  match t with
  | Some t => (exists r, r ∈ rs /\ instant_of r = Some t) /\ forall r t', r ∈ rs -> instant_of r = Some t' -> t <= t'
  | None => forall r t', r ∈ rs -> instant_of r <> Some t'
  end.
Proof. destruct t as [t|]; cbn; setoid_rewrite dated_iff; done. Qed.

Lemma earliest_step rs e r : earliest rs e ->
  earliest (rs ++ [r]) (match instant_of r, e with Some a, None => Some a | Some a, Some e => if a <? e then Some a else Some e | None, o => o end).
Proof.
  rewrite !earliest_iff. intros He. destruct (instant_of r) as [a|] eqn:Ei; destruct e as [e|]; cbn in He |- *.
  - destruct He as [(x & Hx & Hxe) Hle]. destruct (Z.ltb_spec a e).
    + split; [exists r; split; [apply elem_of_snoc; auto|done]|]. intros y t' [Hy| ->]%elem_of_snoc Ht'; [specialize (Hle y t' Hy Ht'); lia|].
      rewrite Ei in Ht'. injection Ht' as <-. lia.
    + split; [exists x; split; [apply elem_of_snoc; auto|done]|]. intros y t' [Hy| ->]%elem_of_snoc Ht'; [eauto|]. rewrite Ei in Ht'. injection Ht' as <-. lia.
  - split; [exists r; split; [apply elem_of_snoc; auto|done]|]. intros y t' [Hy| ->]%elem_of_snoc Ht'; [by destruct (He y t' Hy)|].
    rewrite Ei in Ht'. injection Ht' as <-. lia.
  - destruct He as [(x & Hx & Hxe) Hle]. split; [exists x; split; [apply elem_of_snoc; auto|done]|].
    intros y t' [Hy| ->]%elem_of_snoc Ht'; [eauto|]. congruence.
  - intros y t' [Hy| ->]%elem_of_snoc Ht'; [by apply (He y t')|congruence].
Qed.

Lemma drift_fold w inc full :
  let st := foldl (drift_step (ri_sourceKey <$> inc) w) (0%nat, None) full in
  st.1 = length (filter (missed w inc) full) /\ earliest (filter (missed w inc) full) st.2.
Proof.
  cbv zeta. induction full as [|r full IH] using rev_ind; [split; [done|]; intros r t Hr; by apply elem_of_nil in Hr|].
  rewrite foldl_app, filter_app. cbn [foldl]. rewrite drift_step_spec. destruct IH as [IHn IHe].
  destruct (decide (missed w inc r)) as [Hm|Hm].
  - rewrite filter_cons_True, filter_nil, length_app by done. cbn [fst snd length]. split; [lia|]. by apply earliest_step.
  - by rewrite filter_cons_False, filter_nil, app_nil_r by done.
Qed.

(** The mark a page or a sweep adopts: that of its rows, else the one it had. *)
Definition adopted (watermark : option jsstr) (full : list RecordIdentity) : option jsstr :=
  match highWaterMark full with Some h => Some h | None => watermark end.

Lemma ahead_instants v w : isWatermarkAhead (Some v) (Some w) = true <-> exists a b, isoInstant (Some v) = Some a /\ isoInstant (Some w) = Some b /\ b < a.
Proof.
  unfold isWatermarkAhead. destruct (isoInstant (Some v)) as [a|], (isoInstant (Some w)) as [b|]; try (split; [done|naive_solver]).
  rewrite Z.ltb_lt. naive_solver.
Qed.

(** Nothing of a page is ahead of its own mark. *)
Lemma nothing_ahead rs w r : highestWatermark rs = Some w -> r ∈ rs -> isWatermarkAhead (watermarkValueOf r) (Some w) = false.
Proof.
  intros Hw Hr. apply not_true_is_false. destruct (watermarkValueOf r) as [v|] eqn:Ev; [|done].
  intros (a & b & Ha & Hb & Hlt)%ahead_instants. assert (Hi : instant_of r = Some a) by (unfold instant_of; by rewrite Ev).
  apply highest_iff in Hw as [(t & Hf)|[Hn _]]; [|by rewrite Hn in Hi].
  pose proof (first_latest_bound _ _ _ _ _ Hf Hr Hi). destruct Hf as (p & x & q & _ & _ & Ht & _). rewrite Hb in Ht. injection Ht as ->. lia.
Qed.

Lemma adopted_covers w full inc m : adopted w full = Some m -> filter (missed (Some m) inc) full = [].
Proof.
  intros Ha. destruct (filter (missed (Some m) inc) full) as [|r l] eqn:Ef; [done|]. assert (Hr : r ∈ filter (missed (Some m) inc) full) by (rewrite Ef; constructor).
  apply list_elem_of_filter in Hr as [[_ Hah]%missed_iff Hr]. unfold adopted, highWaterMark in Ha. pose proof (highest_is_high full) as Hh.
  destruct (highestWatermark full) as [h|] eqn:Eh.
  - injection Ha as ->. by rewrite (nothing_ahead _ _ _ Eh Hr) in Hah.
  - destruct (watermarkValueOf r) as [v|] eqn:Ev; [|done]. destruct v as [|c v]; [|by destruct (Hh r (c :: v) Hr)].
    apply ahead_instants in Hah as (a & b & Hx & _). done.
Qed.
Lemma adopted_iff w full m : adopted w full = Some m <-> high_mark full m \/ ((forall h, ~ high_mark full h) /\ w = Some m).
Proof.
  unfold adopted, highWaterMark. setoid_rewrite <- high_mark_iff. destruct (highestWatermark full) as [h|]; naive_solver.
Qed.

Lemma behind_iff full inc w : isWatermarkAhead (highWaterMark full) (match highWaterMark inc with Some h => Some h | None => w end) = true <->
  exists h, high_mark full h /\ ((exists g, high_mark inc g /\ ahead h (Some g)) \/ ((forall g, ~ high_mark inc g) /\ ahead h w)).
Proof.
  unfold highWaterMark. setoid_rewrite <- high_mark_iff. setoid_rewrite <- ahead_iff.
  destruct (highestWatermark full) as [h|]; [|split; [done|by intros (? & [=] & _)]].
  destruct (highestWatermark inc) as [g|]; split.
  - intros Ha. exists h. split; [done|]. left. by exists g.
  - intros (? & [= <-] & [(? & [= <-] & Ha)|[Hn _]]); [done|]. by destruct (Hn g).
  - intros Ha. exists h. split; [done|]. by right.
  - by intros (? & [= <-] & [(? & [=] & _)|[_ Ha]]).
Qed.
End drift.



(** ** Cadence *)

Lemma pow2_range k : 0 <= k -> 1 <= 2 ^ k.
Proof. intros Hk. pose proof (Z.pow_pos_nonneg 2 k). lia. Qed.

Lemma jittered_range base drawn : 0 <= base -> 0 <= drawn < 2 ^ 53 -> base / 2 <= jittered base drawn <= base.
Proof.
  intros Hb Hd. unfold jittered. split.
  - apply Z.div_le_lower_bound; [lia|]. pose proof (Z.mul_div_le base 2). nia.
  - apply Z.lt_succ_r. apply Z.div_lt_upper_bound; [lia|]. nia.
Qed.

Lemma backoff_range failures drawn : 0 <= drawn < 2 ^ 53 ->
  let base := Z.min (BASE_BACKOFF_MS * 2 ^ Z.min (Z.max 1 failures - 1) 10) MAX_BACKOFF_MS in
  base / 2 <= computeBackoffMs failures None drawn <= base.
Proof.
  intros Hd. cbv zeta. unfold computeBackoffMs, MAX_BACKOFF_MS, BASE_BACKOFF_MS. set (g := 2 ^ Z.min (Z.max 1 failures - 1) 10).
  assert (1 <= g) by (apply pow2_range; lia). change (30 * 60 * 1000 / (30 * 1000)) with 60.
  replace (Z.min (30 * 1000 * Z.min g 60) (30 * 60 * 1000)) with (Z.min (30 * 1000 * g) (30 * 60 * 1000)) by lia.
  set (base := Z.min _ _). assert (30000 <= base <= 1800000) by lia. pose proof (jittered_range base drawn ltac:(lia) Hd).
  assert (15000 <= base / 2) by (apply Z.div_le_lower_bound; lia). lia.
Qed.

(** The sweep's interval is between the base and eight times it, and does not
    shrink as the streak grows. *)
Lemma sweep_interval_range base streak : 0 <= base ->
  base <= sweepIntervalMsFor base streak <= base * MAX_SWEEP_INTERVAL_MULTIPLIER /\
  forall more, streak <= more -> sweepIntervalMsFor base streak <= sweepIntervalMsFor base more.
Proof.
  intros Hb. unfold sweepIntervalMsFor, MAX_SWEEP_INTERVAL_MULTIPLIER, CLEAN_SWEEPS_PER_STEP. split.
  - destruct (Z.leb_spec streak 0); [lia|]. pose proof (pow2_range (streak / 3) ltac:(apply Z.div_pos; lia)). nia.
  - intros more Hm. destruct (Z.leb_spec streak 0), (Z.leb_spec more 0); try lia.
    + pose proof (pow2_range (more / 3) ltac:(apply Z.div_pos; lia)). nia.
    + assert (2 ^ (streak / 3) <= 2 ^ (more / 3)) by (apply Z.pow_le_mono_r; [lia|apply Z.div_le_mono; lia]). nia.
Qed.

(** A box's period is the base and less than a quarter more. *)
Lemma jittered_period_range sha256 base deviceId : 4 <= base ->
  base <= jitteredPeriodMs sha256 base deviceId < base + base / 4.
Proof.
  intros Hb. unfold jitteredPeriodMs, deriveScheduleJitterMs. assert (0 < base / 4) by (apply Z.div_str_pos; lia).
  rewrite (proj2 (Z.leb_gt _ _)) by done. pose proof (Z.mod_pos_bound (foldl (fun acc c => 16 * acc + Z.of_N (hex_val c)) 0 (take 12 (sha256 deviceId))) (base / 4) ltac:(lia)). lia.
Qed.
