(* ===== verification/ErpSync.v ===== *)
(** * ErpSync: the cursors of the connector sync
      (apps/orchestrator/src/services/erp-sync/cursor.service.ts,
      erp-sync.service.ts, entities.ts, and what integrations.service.ts does to
      cursors)

    The tick claims due cursors, reads each one's dataset from its position,
    lands the rows and moves the position; the sweep reads everything again.
    Both are programs of commands ([Prog]) that a pool interleaves with one
    another, with disconnections, failing commands and requests that stop.  The
    provider table, the digest behind the jitter and the vendors' answers are
    arguments. *)

From S2P Require Import Prelude JsNum Json Prog DateTime DateText ZonedTime Reconcile.

Local Open Scope Z_scope.

(** ** entities.ts *)

Record ErpSyncEntity := mkEntity {
  es_entity : jsstr; es_readQuery : jsstr; es_sourceKeyField : jsstr; es_markerField : jsstr; es_updatedAtField : jsstr; es_openToUndeclaredTracks : bool
}.

Definition entity_row (entity readQuery sourceKeyField markerField : string) (open : bool) : ErpSyncEntity :=
  mkEntity (js entity) (js readQuery) (js sourceKeyField) (js markerField) (js "updated_at") open.

Definition ERP_SYNC_ENTITIES : list ErpSyncEntity := [
  entity_row "invoice" "get_open_invoices" "invoice_id" "issued_at" true;
  entity_row "bill" "get_open_bills" "bill_id" "issued_at" true;
  entity_row "contact" "find_contact" "contact_id" "created_at" false;
  entity_row "company" "get_company" "company_id" "created_at" false;
  entity_row "deal" "get_deals_by_stage" "deal_id" "created_at" false;
  entity_row "ticket" "get_tickets_by_status" "ticket_id" "created_at" false;
  entity_row "engagement" "get_engagements" "engagement_id" "occurred_at" false;
  entity_row "audience_member" "get_audience_members" "audience_member_id" "updated_at" false;
  entity_row "campaign" "get_campaign_performance" "campaign_id" "sent_at" false;
  entity_row "ecommerce_order" "get_ecommerce_orders" "ecommerce_order_id" "processed_at" false;
  entity_row "order" "get_recent_orders" "order_id" "created_at" false;
  entity_row "product" "get_low_stock_products" "product_id" "created_at" false;
  entity_row "customer" "find_customer" "customer_id" "created_at" false;
  entity_row "booking" "get_bookings" "booking_id" "starts_at" false;
  entity_row "employee" "find_employee" "employee_id" "last_name" false;
  entity_row "task" "get_tasks_by_status" "task_id" "created_at" false
].

Definition erpSyncEntity (entity : jsstr) : option ErpSyncEntity :=
  List.find (fun e => bool_decide (es_entity e = entity)) ERP_SYNC_ENTITIES.

(** land.ts and land-money.ts: the datasets that are kept on the box. *)
Definition LANDED_ENTITIES : list jsstr := js <$> ["company"; "contact"; "deal"]%string.
Definition MONEY_ENTITIES : list jsstr := js <$> ["invoice"; "bill"]%string.
Definition landsOnBox (entity : jsstr) : bool := bool_decide (entity ∈ LANDED_ENTITIES) || bool_decide (entity ∈ MONEY_ENTITIES).

(** ** The tables *)

Inductive ErpSyncStateName := IDLE | SYNCING | BACKOFF | RESYNC_REQUIRED | FAILED.
Inductive IntegrationStatus := NOT_CONFIGURED | PROVISIONING | CONNECTED | CAPABILITY_LIMITED | DEGRADED | DRIFT_LOCKED | NEEDS_RECONNECT | ERROR | DISABLED.

#[export] Instance ErpSyncStateName_eq_dec : EqDecision ErpSyncStateName.
Proof. solve_decision. Defined.
#[export] Instance IntegrationStatus_eq_dec : EqDecision IntegrationStatus.
Proof. solve_decision. Defined.

Definition CLAIMABLE_ERP_SYNC_STATES : list ErpSyncStateName := [IDLE; BACKOFF; RESYNC_REQUIRED].
Definition POLLABLE_CONNECTION_STATUSES : list IntegrationStatus := [CONNECTED; CAPABILITY_LIMITED; DEGRADED].

(** [lastError] holds the failure whose redacted text is stored. *)
Record Cursor := mkCursor {
  cu_connectionId : jsstr; cu_entity : jsstr; cu_watermark : option jsstr; cu_state : ErpSyncStateName; cu_failures : Z;
  cu_nextAttemptAt : option Z; cu_lastSyncedAt : option Z; cu_lastSweepAt : option Z; cu_needsReconnect : bool; cu_lastError : option SyncFailureLike
}.

Record Connection := mkConnection { cn_provider : jsstr; cn_status : IntegrationStatus; cn_lastHealthyAt : option Z }.

(** A page of rows that was landed. *)
Record Landing := mkLanding { ld_connectionId : jsstr; ld_provider : jsstr; ld_entity : jsstr; ld_rows : list jsval }.

Record SyncWorld := mkSyncWorld {
  sw_now : Z; sw_conns : gmap jsstr Connection; sw_cursors : gmap nat Cursor; sw_next : nat; sw_landed : list Landing; sw_drift : list ErpDriftRow
}.

Definition set_cursors (c : gmap nat Cursor) (w : SyncWorld) : SyncWorld :=
  mkSyncWorld (sw_now w) (sw_conns w) c (sw_next w) (sw_landed w) (sw_drift w).
Definition set_conns (c : gmap jsstr Connection) (w : SyncWorld) : SyncWorld :=
  mkSyncWorld (sw_now w) c (sw_cursors w) (sw_next w) (sw_landed w) (sw_drift w).

(** [UNSTARTED_ERP_CURSOR] *)
Definition unstarted (connectionId entity : jsstr) : Cursor := mkCursor connectionId entity None IDLE 0 None None None false None.

(** *** The statements *)

Definition pollable (w : SyncWorld) : list (jsstr * jsstr) :=
  (fun e => (e.1, cn_provider e.2)) <$> filter (fun e => cn_status e.2 ∈ POLLABLE_CONNECTION_STATUSES) (map_to_list (sw_conns w)).

(** The rows the claim's query matches. *)
Definition is_due_cursor (ids : list jsstr) (now : Z) (c : Cursor) : bool :=
  bool_decide (cu_connectionId c ∈ ids) && bool_decide (cu_state c ∈ CLAIMABLE_ERP_SYNC_STATES) &&
  match cu_nextAttemptAt c with None => true | Some t => t <=? now end.

Definition claim_cursor (id : nat) (w : SyncWorld) : SyncWorld * Z :=
  match sw_cursors w !! id with
  | Some c =>
      if bool_decide (cu_state c ∈ CLAIMABLE_ERP_SYNC_STATES)
      then (set_cursors (<[id := mkCursor (cu_connectionId c) (cu_entity c) (cu_watermark c) SYNCING (cu_failures c) (cu_nextAttemptAt c)
                                   (cu_lastSyncedAt c) (cu_lastSweepAt c) (cu_needsReconnect c) (cu_lastError c)]> (sw_cursors w)) w, 1)
      else (w, 0)
  | None => (w, 0)
  end.

Definition upsert_cursor (connectionId entity : jsstr) (w : SyncWorld) : SyncWorld :=
  match List.find (fun e => bool_decide (cu_connectionId e.2 = connectionId /\ cu_entity e.2 = entity)) (map_to_list (sw_cursors w)) with
  | Some _ => w
  | None => mkSyncWorld (sw_now w) (sw_conns w) (<[sw_next w := unstarted connectionId entity]> (sw_cursors w)) (S (sw_next w)) (sw_landed w) (sw_drift w)
  end.

Definition reset_cursors (connectionId : jsstr) (w : SyncWorld) : SyncWorld :=
  set_cursors ((fun c => if decide (cu_connectionId c = connectionId) then unstarted (cu_connectionId c) (cu_entity c) else c) <$> sw_cursors w) w.

(** What the two releases write. *)
Inductive CursorWrite :=
| W_success (watermark : option jsstr) (now : Z) (sweptAt : option Z)
| W_resync
| W_fatal (failures : Z) (err : SyncFailureLike)
| W_backoff (failures nextAttemptAt : Z) (needsReconnect : bool) (err : SyncFailureLike).

Definition apply_cursor (wr : CursorWrite) (c : Cursor) : Cursor :=
  match wr with
  | W_success watermark now sweptAt =>
      mkCursor (cu_connectionId c) (cu_entity c) watermark IDLE 0 None (Some now)
        (match sweptAt with Some t => Some t | None => cu_lastSweepAt c end) false None
  | W_resync => mkCursor (cu_connectionId c) (cu_entity c) None RESYNC_REQUIRED 0 None (cu_lastSyncedAt c) (cu_lastSweepAt c) false None
  | W_fatal failures err =>
      mkCursor (cu_connectionId c) (cu_entity c) (cu_watermark c) FAILED failures None (cu_lastSyncedAt c) (cu_lastSweepAt c) false (Some err)
  | W_backoff failures next needsReconnect err =>
      mkCursor (cu_connectionId c) (cu_entity c) (cu_watermark c) BACKOFF failures (Some next) (cu_lastSyncedAt c) (cu_lastSweepAt c) needsReconnect (Some err)
  end.

(** [update] of one row throws when it is not there. *)
Definition update_cursor (id : nat) (wr : CursorWrite) (w : SyncWorld) : option SyncWorld :=
  match sw_cursors w !! id with Some c => Some (set_cursors (<[id := apply_cursor wr c]> (sw_cursors w)) w) | None => None end.

Definition update_conn (id : jsstr) (f : Connection -> Connection) (w : SyncWorld) : option SyncWorld :=
  match sw_conns w !! id with Some c => Some (set_conns (<[id := f c]> (sw_conns w)) w) | None => None end.

Definition set_status (status : IntegrationStatus) (c : Connection) : Connection := mkConnection (cn_provider c) status (cn_lastHealthyAt c).
Definition set_healthy (at_ : Z) (c : Connection) : Connection := mkConnection (cn_provider c) (cn_status c) (Some at_).

(** The connection's drift rows, newest first, [limit] of them. *)
Definition drift_rows (connectionId : jsstr) (limit : nat) (w : SyncWorld) : list ErpDriftRow :=
  take limit (sort_by (fun a b => dw_sweepAt b - dw_sweepAt a) (filter (fun r => dw_connectionId r = connectionId) (sw_drift w))).

(** ** Errors *)

(** The classes [asSyncFailure] tells apart; [CapabilityBlocked] is any of
    [CAPABILITY_BLOCKED_ERRORS]. *)
Inductive ErrorClass :=
| QuotaExhausted | ReauthorizationRequired | XeroReauthorizationRequired | XeroScopeMissing | XeroRateLimited | RestRateLimited
| ConnectorBlocked | CapabilityBlocked | OtherError.

(** What was thrown, and the [Retry-After] it carries. *)
Record SyncError := mkSyncError {
  er_class : ErrorClass; er_status : option Z; er_code : option jsstr; er_message : option jsstr; er_retryAfter : option jsstr
}.

Definition isCapabilityBlocked (err : SyncError) : bool := match er_class err with CapabilityBlocked => true | _ => false end.

(** The header of a capability error says [MAX_BACKOFF_MS / 1000]. *)
Definition retryAfterOf (err : SyncError) : option jsstr :=
  if isCapabilityBlocked err then Some (int_str (MAX_BACKOFF_MS / 1000)) else er_retryAfter err.

Definition asSyncFailure (err : SyncError) : SyncFailureLike :=
  let as_ (code : string) status := mkFailure (Some status) (Some (js code)) (er_message err) in
  match er_class err with
  | QuotaExhausted => as_ "QUOTA_EXHAUSTED" 429
  | ReauthorizationRequired | XeroReauthorizationRequired => as_ "REAUTHORIZE_REQUIRED" 401
  | XeroScopeMissing => as_ "XERO_SCOPE_MISSING" 403
  | XeroRateLimited => as_ "XERO_RATE_LIMITED" 429
  | RestRateLimited => as_ "REST_RATE_LIMITED" 429
  | ConnectorBlocked => as_ "CONNECTOR_BLOCKED" 503
  | CapabilityBlocked => as_ "CAPABILITY_BLOCKED" 429
  | OtherError => mkFailure (er_status err) (er_code err) (er_message err)
  end%string.

(** ** Commands *)

(** The audit rows the runner writes. *)
Inductive AuditWhat := A_synced | A_failed | A_skipped | A_deferred | A_swept.

(** Every command that awaits may throw. *)
Inductive ecommand : Set -> Type :=
| Now : ecommand Z
| Draw : ecommand Z
| FindPollable : ecommand (result SyncError (list (jsstr * jsstr)))
| FindConnection (id : jsstr) : ecommand (result SyncError (option Connection))
| FindDue (ids : list jsstr) (limit : nat) (now : Z) : ecommand (result SyncError (list (nat * Cursor)))
| ClaimCursor (id : nat) : ecommand (result SyncError Z)
| FindCursors (connectionId : jsstr) : ecommand (result SyncError (list (nat * Cursor)))
| UpdateCursor (id : nat) (wr : CursorWrite) : ecommand (result SyncError unit)
| UpsertCursor (connectionId entity : jsstr) : ecommand (result SyncError unit)
| FindDrift (connectionId : jsstr) (limit : nat) : ecommand (result SyncError (list ErpDriftRow))
| CreateDrift (row : ErpDriftRow) : ecommand (result SyncError unit)
| AdvanceHealthy (connectionId : jsstr) (at_ : Z) : ecommand (result SyncError unit)
| Audit (what : AuditWhat) (connectionId : jsstr) : ecommand (result SyncError unit)
| Construct (connectionId : jsstr) : ecommand (result SyncError unit)
| Connect (connectionId : jsstr) : ecommand (result SyncError unit)
| Headroom (connectionId : jsstr) : ecommand (result SyncError unit)
| RunRead (connectionId readQuery : jsstr) (since : option jsstr) : ecommand (result SyncError (list jsval))
| Land (connectionId provider entity : jsstr) (rows : list jsval) : ecommand (result SyncError unit)
| Close (connectionId : jsstr) : ecommand unit
| Disconnect (connectionId : jsstr) : ecommand (result SyncError unit)
| Reconnect (connectionId : jsstr) : ecommand (result SyncError unit)
| SetStatus (connectionId : jsstr) (status : IntegrationStatus) : ecommand (result SyncError unit)
| CreateConnection (connectionId provider : jsstr) : ecommand (result SyncError unit).

(** A program that may throw. *)
Abbreviation eprog A := (prog ecommand (result SyncError A)).

Definition await {A : Type} {X : Set} (c : ecommand (result SyncError X)) (k : X -> eprog A) : eprog A :=
  Op c (fun r => match r with Ok x => k x | Throw e => Ret (Throw e) end).
Definition seq {A B : Type} (p : eprog A) (k : A -> eprog B) : eprog B :=
  pbind p (fun r => match r with Ok a => k a | Throw e => Ret (Throw e) end).
Definition catching {A : Type} (p : eprog A) (handler : SyncError -> eprog A) : eprog A :=
  pbind p (fun r => match r with Ok a => Ret (Ok a) | Throw e => handler e end).
(** [finally] with the close, whose own failure is swallowed. *)
Definition closing {A : Type} (connectionId : jsstr) (p : eprog A) : eprog A := pbind p (fun r => _u <~ Close connectionId; Ret r).

(** What the outside makes of a command: how a statement fares, the error it
    throws, and the answers of the vendor, the query's order and the clock. *)
Record einput := mkInput { in_fault : Fault; in_error : SyncError; in_ids : list nat; in_rows : list jsval; in_drawn : Z; in_ms : Z }.

Definition fares {X : Set} (inp : einput) (w w' : SyncWorld) (x : X) : SyncWorld * result SyncError X :=
  match in_fault inp with Works => (w', Ok x) | LostRequest => (w, Throw (in_error inp)) | LostReply => (w', Throw (in_error inp)) end.

(** A statement that throws of itself changes nothing. *)
Definition fares_opt {X : Set} (inp : einput) (w : SyncWorld) (r : option SyncWorld) (x : X) : SyncWorld * result SyncError X :=
  match r with Some w' => fares inp w w' x | None => (w, Throw (in_error inp)) end.

(** The rows of a query without an order: [in_ids] says which come first. *)
Definition rows_in (w : SyncWorld) (ids : list nat) : list (nat * Cursor) := omap (fun id => (fun c => (id, c)) <$> sw_cursors w !! id) ids.

Definition matching (w : SyncWorld) (ok : Cursor -> bool) : list nat :=
  (filter (fun e => ok e.2 = true) (map_to_list (sw_cursors w))).*1.

(** An answer of [findMany] with [take]: distinct rows that match, as many as
    asked for, or all. *)
Definition answers_query (w : SyncWorld) (ok : Cursor -> bool) (limit : nat) (ids : list nat) : bool :=
  bool_decide (NoDup ids) && bool_decide (ids ⊆ matching w ok) && Nat.eqb (length ids) (Nat.min limit (length (matching w ok))).

Definition eexec (X : Set) (inp : einput) (c : ecommand X) (w : SyncWorld) : option (SyncWorld * X) :=
  match c in ecommand X return option (SyncWorld * X) with
  | Now => if 0 <=? in_ms inp then
             Some (mkSyncWorld (sw_now w + in_ms inp) (sw_conns w) (sw_cursors w) (sw_next w) (sw_landed w) (sw_drift w), sw_now w + in_ms inp)
           else None
  | Draw => if (0 <=? in_drawn inp) && (in_drawn inp <? 2 ^ 53) then Some (w, in_drawn inp) else None
  | FindPollable => Some (fares inp w w (pollable w))
  | FindConnection id => Some (fares inp w w (sw_conns w !! id))
  | FindDue ids limit now =>
      if answers_query w (is_due_cursor ids now) limit (in_ids inp) then Some (fares inp w w (rows_in w (in_ids inp))) else None
  | ClaimCursor id => Some (fares inp w (claim_cursor id w).1 (claim_cursor id w).2)
  | FindCursors conn =>
      let ok c := bool_decide (cu_connectionId c = conn) in
      if answers_query w ok (length (matching w ok)) (in_ids inp) then Some (fares inp w w (rows_in w (in_ids inp))) else None
  | UpdateCursor id wr => Some (fares_opt inp w (update_cursor id wr w) tt)
  | UpsertCursor conn entity => Some (fares inp w (upsert_cursor conn entity w) tt)
  | FindDrift conn limit => Some (fares inp w w (drift_rows conn limit w))
  | CreateDrift row => Some (fares inp w (mkSyncWorld (sw_now w) (sw_conns w) (sw_cursors w) (sw_next w) (sw_landed w) (row :: sw_drift w)) tt)
  | AdvanceHealthy conn at_ => Some (fares_opt inp w (update_conn conn (set_healthy at_) w) tt)
  | Audit _ _ => Some (fares inp w w tt)
  | Construct _ | Connect _ | Headroom _ => Some (fares inp w w tt)
  | RunRead _ _ _ => Some (fares inp w w (in_rows inp))
  | Land conn provider entity rows =>
      Some (fares inp w (mkSyncWorld (sw_now w) (sw_conns w) (sw_cursors w) (sw_next w) (mkLanding conn provider entity rows :: sw_landed w) (sw_drift w)) tt)
  | Close _ => Some (w, tt)
  | Disconnect conn => Some (fares_opt inp w (update_conn conn (set_status DISABLED) (reset_cursors conn w)) tt)
  | Reconnect conn => Some (fares_opt inp w (update_conn conn (set_status PROVISIONING) (reset_cursors conn w)) tt)
  | SetStatus conn status => Some (fares_opt inp w (update_conn conn (set_status status) w) tt)
  | CreateConnection conn provider =>
      Some (fares_opt inp w (match sw_conns w !! conn with
                             | Some _ => None
                             | None => Some (set_conns (<[conn := mkConnection provider PROVISIONING None]> (sw_conns w)) w)
                             end) tt)
  end.

(** ** The releases and the claim (cursor.service.ts) *)

Section runner.
Context `{DateParse}.
(** The provider table's [pollIntervalFloorMs] and [datasets], [None] for a
    provider without a descriptor; the digest; the box's identity. *)
Context (pollIntervalFloorMs : jsstr -> option Z) (datasets : jsstr -> option (list jsstr)) (sha256 : jsstr -> jsstr) (deviceId : option jsstr).
(** Options of the runner. *)
Context (tickLimit : nat) (sweepIntervalMs : Z).

Definition pollFloorElapsed (lastSyncedAt : option Z) (provider : option jsstr) (now : Z) : bool :=
  match provider, lastSyncedAt with
  | Some (c :: p), Some last =>
      match pollIntervalFloorMs (c :: p) with
      | Some floor =>
          if floor <=? 0 then true
          else let period := match deviceId with Some (d :: r) => jitteredPeriodMs sha256 floor ((d :: r) ++ 58%N :: c :: p) | _ => floor end in
               period <=? now - last
      | None => true
      end
  | _, _ => true
  end.

(** The claims, one by one; a claimed cursor is its identifier and the row as it
    was read. *)
Fixpoint claim_each (providerOf : list (jsstr * jsstr)) (now : Z) (snapshots claimed : list (nat * Cursor)) : eprog (list (nat * Cursor)) :=
  match snapshots with
  | [] => Ret (Ok claimed)
  | (id, c) :: rest =>
      if negb (pollFloorElapsed (cu_lastSyncedAt c) (alookup (cu_connectionId c) providerOf) now) then claim_each providerOf now rest claimed
      else await (ClaimCursor id) (fun count => claim_each providerOf now rest (if count =? 1 then claimed ++ [(id, c)] else claimed))
  end.

Definition claimDueErpCursors (limit : nat) (now : Z) : eprog (list (nat * Cursor)) :=
  await FindPollable (fun pollable =>
  match pollable with
  | [] => Ret (Ok [])
  | _ => await (FindDue pollable.*1 limit now) (fun candidates => claim_each pollable now candidates [])
  end).

Definition releaseErpCursorSuccess (id : nat) (watermark : option jsstr) (now : Z) (sweptAt : option Z) : eprog unit :=
  await (UpdateCursor id (W_success watermark now sweptAt)) (fun _ => Ret (Ok tt)).

(** What an invalid [Date] makes of an update. *)
Definition invalid_date : SyncError := mkSyncError OtherError None None (Some (js "Invalid time value")) None.

(** [failures] is the claim's count. *)
Definition releaseErpCursorFailure (id : nat) (consecutiveFailures : Z) (err : SyncFailureLike) (retryAfterHeader : option jsstr) (now : Z) : eprog ErpSyncStateName :=
  let failures := consecutiveFailures + 1 in
  match classifySyncFailure err with
  | RESYNC => await (UpdateCursor id W_resync) (fun _ => Ret (Ok RESYNC_REQUIRED))
  | FATAL => await (UpdateCursor id (W_fatal failures err)) (fun _ => Ret (Ok FAILED))
  | kind =>
      drawn <~ Draw;
      match TimeClip (now + computeBackoffMs failures (parseRetryAfter retryAfterHeader now) drawn) with
      | None => Ret (Throw invalid_date)
      | Some next => await (UpdateCursor id (W_backoff failures next (bool_decide (kind = AUTH)) err)) (fun _ => Ret (Ok BACKOFF))
      end
  end.

(** ** The tick (erp-sync.service.ts) *)

(** [budget.record] has no effect of its own here. *)
Definition readEntity (connectionId readQuery : jsstr) (since : option jsstr) : eprog (list jsval) :=
  await (Headroom connectionId) (fun _ => await (RunRead connectionId readQuery since) (fun rows => Ret (Ok rows))).

Definition identified (spec : ErpSyncEntity) (rows : list jsval) : list RecordIdentity :=
  identify rows (es_sourceKeyField spec) (es_markerField spec) (es_updatedAtField spec).

Definition land_if (connectionId provider entity : jsstr) (rows : list jsval) (k : eprog unit) : eprog unit :=
  if landsOnBox entity then await (Land connectionId provider entity rows) (fun _ => k) else k.

Definition sync_body (id : nat) (c : Cursor) (spec : ErpSyncEntity) (provider : jsstr) (at_ : Z) : eprog ErpSyncStateName :=
  let conn := cu_connectionId c in
  await (Connect conn) (fun _ =>
  seq (readEntity conn (es_readQuery spec) (cu_watermark c)) (fun rows =>
  let next := adopted (cu_watermark c) (identified spec rows) in
  seq (land_if conn provider (cu_entity c) rows (releaseErpCursorSuccess id next at_ None)) (fun _ =>
  await (AdvanceHealthy conn at_) (fun _ =>
  await (Audit A_synced conn) (fun _ => Ret (Ok IDLE)))))).

Definition sync_failed (id : nat) (c : Cursor) (header : option jsstr) (at_ : Z) (err : SyncError) : eprog ErpSyncStateName :=
  seq (releaseErpCursorFailure id (cu_failures c) (asSyncFailure err) header at_) (fun state =>
  await (Audit A_failed (cu_connectionId c)) (fun _ => Ret (Ok state))).

Definition target_absent : SyncFailureLike := mkFailure None (Some (js "SYNC_TARGET_ABSENT")) (Some (js "connection absent")).
Definition target_not_served : SyncFailureLike := mkFailure None (Some (js "SYNC_TARGET_ABSENT")) (Some (js "entity not served")).

Definition runOneCursor (cursor : nat * Cursor) : eprog ErpSyncStateName :=
  let '(id, c) := cursor in let conn := cu_connectionId c in
  at_ <~ Now;
  await (FindConnection conn) (fun row =>
  match erpSyncEntity (cu_entity c), row with
  | Some spec, Some row =>
      constructed <~ Construct conn;
      match constructed with
      | Throw err => sync_failed id c None at_ err
      | Ok _ => closing conn (catching (sync_body id c spec (cn_provider row) at_) (fun err => sync_failed id c (retryAfterOf err) at_ err))
      end
  | spec, _ =>
      seq (releaseErpCursorFailure id (cu_failures c) (match spec with Some _ => target_absent | None => target_not_served end) None at_) (fun _ =>
      await (Audit A_skipped conn) (fun _ => Ret (Ok FAILED)))
  end).

Fixpoint run_cursors (cursors : list (nat * Cursor)) (states : list ErpSyncStateName) : eprog (list ErpSyncStateName) :=
  match cursors with
  | [] => Ret (Ok states)
  | cursor :: rest => seq (runOneCursor cursor) (fun state => run_cursors rest (states ++ [state]))
  end.

Definition runIncrementalTick : eprog (list ErpSyncStateName) :=
  now <~ Now;
  seq (claimDueErpCursors tickLimit now) (fun claimed => run_cursors claimed []).

Definition entityServedBy (provider : jsstr) (spec : ErpSyncEntity) : bool :=
  match datasets provider with None => es_openToUndeclaredTracks spec | Some served => bool_decide (es_entity spec ∈ served) end.

Fixpoint upsert_each (connectionId : jsstr) (entities : list jsstr) (k : eprog unit) : eprog unit :=
  match entities with [] => k | e :: r => await (UpsertCursor connectionId e) (fun _ => upsert_each connectionId r k) end.

Fixpoint register_each (live : list (jsstr * jsstr)) : eprog unit :=
  match live with
  | [] => Ret (Ok tt)
  | (id, provider) :: r => upsert_each id (es_entity <$> filter (fun s => entityServedBy provider s = true) ERP_SYNC_ENTITIES) (register_each r)
  end.

Definition registerCursors : eprog unit := await FindPollable register_each.

(** ** The sweep *)

Definition sweep_due (at_ interval : Z) (c : nat * Cursor) : bool :=
  match cu_lastSweepAt c.2 with None => true | Some last => interval <=? at_ - last end.

(** One due cursor: the drift found, or what was thrown before it was noted. *)
Definition sweep_read (conn provider : jsstr) (spec : ErpSyncEntity) (c : Cursor) : eprog (list RecordIdentity * ErpEntityDrift) :=
  seq (readEntity conn (es_readQuery spec) (cu_watermark c)) (fun incrementalRows =>
  seq (readEntity conn (es_readQuery spec) None) (fun fullRows =>
  let full := identified spec fullRows in
  let drift := diffForDrift (cu_entity c) (cu_watermark c) (identified spec incrementalRows) full in
  if landsOnBox (cu_entity c) then await (Land conn provider (cu_entity c) fullRows) (fun _ => Ret (Ok (full, drift)))
  else Ret (Ok (full, drift)))).

(** The loop over the due cursors: the drift noted so far, and whether it was
    left by an error. *)
Fixpoint sweep_entities (conn provider : jsstr) (at_ : Z) (due : list (nat * Cursor)) (entityDrift : list ErpEntityDrift)
    : prog ecommand (list ErpEntityDrift * option SyncError) :=
  match due with
  | [] => Ret (entityDrift, None)
  | (id, c) :: rest =>
      match erpSyncEntity (cu_entity c) with
      | None => sweep_entities conn provider at_ rest entityDrift
      | Some spec =>
          pbind (sweep_read conn provider spec c) (fun r =>
          match r with
          | Throw err => Ret (entityDrift, Some err)
          | Ok (full, drift) =>
              let entityDrift := entityDrift ++ [drift] in
              pbind (await (CreateDrift (driftRowFor conn provider at_ (cu_watermark c) drift)) (fun _ =>
                     releaseErpCursorSuccess id (adopted (cu_watermark c) full) at_ (Some at_))) (fun r =>
              match r with
              | Throw err => Ret (entityDrift, Some err)
              | Ok _ => sweep_entities conn provider at_ rest entityDrift
              end)
          end)
      end
  end.

(** The cursor the failure is written to, and how many failures in a row it is
    said to have had: past the last entity, the first cursor, with none. *)
Definition blamed (due : list (nat * Cursor)) (first : nat * Cursor) (entityDrift : list ErpEntityDrift) : nat * Z :=
  match due !! length entityDrift with Some (id, c) => (id, cu_failures c) | None => (first.1, 0) end.

(** One connection with something due: its report, or [None] when deferred. *)
Definition sweep_connection (conn provider : jsstr) (at_ : Z) (first : nat * Cursor) (due : list (nat * Cursor)) : eprog (option ErpDriftReport) :=
  seq (closing conn
        (pbind (connected <~ Connect conn; match connected with Throw err => Ret ([], Some err) | Ok _ => sweep_entities conn provider at_ due [] end) (fun '(entityDrift, failed) =>
         match failed with
         | None => Ret (Ok (Some entityDrift))
         | Some err =>
             let '(id, consecutiveFailures) := blamed due first entityDrift in
             seq (releaseErpCursorFailure id consecutiveFailures (asSyncFailure err) (retryAfterOf err) at_) (fun _ =>
             await (Audit A_deferred conn) (fun _ => Ret (Ok None)))
         end))) (fun swept =>
  match swept with
  | None => Ret (Ok None)
  | Some entityDrift => await (Audit A_swept conn) (fun _ => Ret (Ok (Some (buildDriftReport conn provider at_ entityDrift))))
  end).

Fixpoint sweep_each (at_ : Z) (live : list (jsstr * jsstr)) (reports : list ErpDriftReport) (deferred : Z) : eprog (list ErpDriftReport * Z) :=
  match live with
  | [] => Ret (Ok (reports, deferred))
  | (conn, _) :: rest =>
      await (FindConnection conn) (fun row =>
      match row with
      | None => sweep_each at_ rest reports deferred
      | Some row =>
          await (FindCursors conn) (fun cursors =>
          await (FindDrift conn DEFAULT_STREAK_ROW_LIMIT) (fun rows =>
          let interval := sweepIntervalMsFor sweepIntervalMs (streak_of_rows DEFAULT_STREAK_ROW_LIMIT rows) in
          match filter (fun c => sweep_due at_ interval c = true) cursors with
          | [] => sweep_each at_ rest reports deferred
          | first :: more =>
              constructed <~ Construct conn;
              match constructed with
              | Throw _ => sweep_each at_ rest reports deferred
              | Ok _ =>
                  seq (sweep_connection conn (cn_provider row) at_ first (first :: more)) (fun report =>
                  match report with
                  | Some r => sweep_each at_ rest (reports ++ [r]) deferred
                  | None => sweep_each at_ rest reports (deferred + 1)
                  end)
              end
          end))
      end)
  end.

Definition runReconciliationSweep : eprog (list ErpDriftReport * Z) :=
  at_ <~ Now;
  await FindPollable (fun live => sweep_each at_ live [] 0).

(** ** The requests *)

(** The scheduled tick, registration included, and what moves a connection's
    status without touching cursors. *)
Inductive TickRequest :=
| Q_tick
| Q_status (connectionId : jsstr) (status : IntegrationStatus)
| Q_create (connectionId provider : jsstr).

(** The sweep; disconnecting; connecting again. *)
Inductive SyncRequest := Q_work (q : TickRequest) | Q_sweep | Q_disconnect (connectionId : jsstr) | Q_reconnect (connectionId : jsstr).

Inductive SyncAnswer := S_ticked (states : list ErpSyncStateName) | S_swept (reports : list ErpDriftReport) (deferred : Z) | S_done.

Definition tick_program (q : TickRequest) : eprog SyncAnswer :=
  match q with
  | Q_tick => seq registerCursors (fun _ => seq runIncrementalTick (fun states => Ret (Ok (S_ticked states))))
  | Q_status conn status => await (SetStatus conn status) (fun _ => Ret (Ok S_done))
  | Q_create conn provider => await (CreateConnection conn provider) (fun _ => Ret (Ok S_done))
  end.

Definition sync_program (q : SyncRequest) : eprog SyncAnswer :=
  match q with
  | Q_work q => tick_program q
  | Q_sweep => seq runReconciliationSweep (fun r => Ret (Ok (S_swept r.1 r.2)))
  | Q_disconnect conn => await (Disconnect conn) (fun _ => Ret (Ok S_done))
  | Q_reconnect conn => await (Reconnect conn) (fun _ => Ret (Ok S_done))
  end.

Definition empty_sync (now : Z) : SyncWorld := mkSyncWorld now ∅ ∅ 0 [] [].

Definition sync_moves (mvs : list (PoolMove SyncRequest einput)) (now : Z) := pool_moves sync_program eexec mvs (pool_of (empty_sync now)).
Definition tick_moves (mvs : list (PoolMove TickRequest einput)) (w : SyncWorld) := pool_moves tick_program eexec mvs (pool_of w).
End runner.

(** ** Safety of programs that may throw *)

Definition if_ok {C : Set -> Type} `{!Protocol C} {A} (Q : history -> A -> Prop) : history -> result SyncError A -> Prop :=
  fun h r => match r with Ok a => Q h a | Throw _ => True end.

Abbreviation anyway := (fun _ _ => True).

Section esafe.
Context `{!Protocol ecommand}.

Lemma safe_anyway {A} (Q : history -> A -> Prop) h p : safe Q h p -> safe anyway h p.
Proof. revert h. induction p as [a|X c k IH]; intros h; cbn; [done|]. intros [Hn Hk]. split; [done|]. intros h' x Hle Ht. by apply IH, Hk. Qed.

Lemma safe_await {A} {X : Set} (Q : history -> A -> Prop) h (c : ecommand (result SyncError X)) k :
  needs h c -> (forall h' x, hist_le h h' -> tells h' c (Ok x) -> safe (if_ok Q) h' (k x)) -> safe (if_ok Q) h (await c k).
Proof. intros Hn Hk. split; [done|]. intros h' [x|e] Hle Ht; [by apply Hk|done]. Qed.

Lemma safe_seq {A B} (Q : history -> A -> Prop) (R : history -> B -> Prop) h p k :
  safe (if_ok Q) h p -> (forall h' a, hist_le h h' -> Q h' a -> safe (if_ok R) h' (k a)) -> safe (if_ok R) h (seq p k).
Proof. intros Hp Hk. eapply safe_bind; [exact Hp|]. intros h' [a|e] Hle HQ; [by apply Hk|done]. Qed.

Lemma safe_catching {A} (Q : history -> A -> Prop) h p handler :
  safe (if_ok Q) h p -> (stable Q) -> (forall h' e, hist_le h h' -> safe (if_ok Q) h' (handler e)) -> safe (if_ok Q) h (catching p handler).
Proof. intros Hp HQ Hh. eapply safe_bind; [exact Hp|]. intros h' [a|e] Hle Ha; [done|by apply Hh]. Qed.

Lemma safe_closing {A} (Q : history -> A -> Prop) h conn p :
  (forall h', needs h' (Close conn)) -> stable Q -> safe (if_ok Q) h p -> safe (if_ok Q) h (closing conn p).
Proof.
  intros Hn HQ Hp. eapply safe_bind; [exact Hp|]. intros h' r Hle Hr. split; [apply Hn|]. intros h2 x Hle2 _.
  destruct r as [a|e]; [by eapply HQ|done].
Qed.

Lemma stable_anyway {A} : @stable ecommand _ A anyway.
Proof. done. Qed.
End esafe.

(** ** A stored position is one that was landed *)

Section landed.
Context `{DateParse}.

(** A row the request read, and the connection it read it for. *)
Definition read_row (h : list (event ecommand)) (conn : jsstr) (id : nat) (row : Cursor) : Prop :=
  (exists ids limit now rows, Ev (FindDue ids limit now) (Ok rows) ∈ h /\ (id, row) ∈ rows /\ conn = cu_connectionId row) \/
  (exists rows, Ev (FindCursors conn) (Ok rows) ∈ h /\ (id, row) ∈ rows).

(** The mark is that of the row as it was read, or of a page the request landed
    for it. *)
Definition mark_earned (h : list (event ecommand)) (id : nat) (mark : option jsstr) : Prop :=
  exists conn row, read_row h conn id row /\
    (mark = cu_watermark row \/
     exists spec provider rows, erpSyncEntity (cu_entity row) = Some spec /\ highWaterMark (identified spec rows) = mark /\
       (landsOnBox (cu_entity row) = true -> Ev (Land conn provider (cu_entity row) rows) (Ok tt) ∈ h)).

Definition sync_needs (X : Set) (h : list (event ecommand)) (c : ecommand X) : Prop :=
  match c with UpdateCursor id (W_success mark _ _) => mark_earned h id mark | _ => True end.

Lemma read_row_mono h h' conn id row : h ⊆ h' -> read_row h conn id row -> read_row h' conn id row.
Proof. intros Hle [(ids & l & n & rows & Hin & Hr)|(rows & Hin & Hr)]; [left; exists ids, l, n, rows|right; exists rows]; auto. Qed.

Lemma sync_needs_mono (X : Set) h h' (c : ecommand X) : h ⊆ h' -> sync_needs X h c -> sync_needs X h' c.
Proof.
  intros Hle. destruct c as [| | | | | | |id wr| | | | | | | | | | | | | | |]; try done. destruct wr as [mark now sw| | |]; try done.
  intros (conn & row & Hr & Hm). exists conn, row. split; [by eapply read_row_mono|]. destruct Hm as [?|(spec & prov & rows & ? & ? & Hl)]; [auto|].
  right. exists spec, prov, rows. auto.
Qed.

#[local] Instance sync_protocol : Protocol ecommand := trace_protocol sync_needs sync_needs_mono.

#[local] Hint Resolve stable_anyway : core.

Lemma read_row_later h h' conn id row : hist_le h h' -> read_row h conn id row -> read_row h' conn id row.
Proof. apply read_row_mono. Qed.

Lemma failure_safe h id n err header now : safe (if_ok anyway) h (releaseErpCursorFailure id n err header now).
Proof.
  unfold releaseErpCursorFailure. destruct (classifySyncFailure err).
  1, 3: split; [done|]; intros h' drawn _ _; destruct (TimeClip _); [by apply safe_await|done].
  all: by apply safe_await.
Qed.

Lemma failed_safe h id c header at_ err : safe (if_ok anyway) h (sync_failed id c header at_ err).
Proof. eapply safe_seq; [apply failure_safe|]. intros h' state _ _. by apply safe_await. Qed.

Lemma read_safe h conn q since : safe (if_ok anyway) h (readEntity conn q since).
Proof. apply safe_await; [done|]. intros h' x _ _. by apply safe_await. Qed.

Lemma success_safe h id mark now sw : mark_earned h id mark -> safe (if_ok anyway) h (releaseErpCursorSuccess id mark now sw).
Proof. intros Hm. by apply safe_await. Qed.

Lemma adopted_earned h conn id row spec provider rows :
  read_row h conn id row -> erpSyncEntity (cu_entity row) = Some spec ->
  (landsOnBox (cu_entity row) = true -> Ev (Land conn provider (cu_entity row) rows) (Ok tt) ∈ h) ->
  mark_earned h id (adopted (cu_watermark row) (identified spec rows)).
Proof.
  intros Hr Hs Hl. exists conn, row. split; [done|]. unfold adopted. destruct (highWaterMark _) as [m|] eqn:Em; [|by left].
  right. exists spec, provider, rows. auto.
Qed.

Lemma body_safe h id c spec provider at_ : read_row h (cu_connectionId c) id c -> erpSyncEntity (cu_entity c) = Some spec ->
  safe (if_ok anyway) h (sync_body id c spec provider at_).
Proof.
  intros Hr Hs. apply safe_await; [done|]. intros h1 _ Hle1 _. eapply safe_seq; [apply read_safe|]. intros h2 rows Hle2 _.
  assert (Hr2 : read_row h2 (cu_connectionId c) id c) by (eapply read_row_later, Hr; by etrans). cbv zeta. eapply safe_seq.
  - unfold land_if. destruct (landsOnBox (cu_entity c)) eqn:El.
    + apply safe_await; [done|]. intros h3 [] Hle3 Hl. apply success_safe. eapply adopted_earned; [by eapply read_row_later, Hr2|done|]. intros _. exact Hl.
    + apply success_safe. eapply (adopted_earned _ _ _ _ _ []); [done..|]. congruence.
  - intros h3 [] _ _. apply safe_await; [done|]. intros h4 _ _ _. by apply safe_await.
Qed.

Lemma cursor_safe h cursor : read_row h (cu_connectionId cursor.2) cursor.1 cursor.2 -> safe (if_ok anyway) h (runOneCursor cursor).
Proof.
  destruct cursor as [id c]. cbn [fst snd]. intros Hr. split; [done|]. intros h1 at_ Hle1 _. apply safe_await; [done|]. intros h2 row Hle2 _.
  assert (Habs : forall err, safe (if_ok anyway) h2 (seq (releaseErpCursorFailure id (cu_failures c) err None at_) (fun _ => await (Audit A_skipped (cu_connectionId c)) (fun _ => Ret (Ok FAILED))))).
  { intros err. eapply safe_seq; [apply failure_safe|]. intros h3 st _ _. by apply safe_await. }
  destruct (erpSyncEntity (cu_entity c)) as [spec|] eqn:Es; [|apply Habs]. destruct row as [row|]; [|apply Habs].
  split; [done|]. intros h3 [u|err] Hle3 _; [|apply failed_safe]. apply (safe_closing anyway); [by intros|by intros|].
  apply (safe_catching anyway); [|by intros|intros; apply failed_safe]. apply body_safe; [|done]. eapply read_row_later, Hr. etrans; [exact Hle1|]. by etrans.
Qed.

Lemma cursors_safe h cursors states : Forall (fun c => read_row h (cu_connectionId c.2) c.1 c.2) cursors -> safe (if_ok anyway) h (run_cursors cursors states).
Proof.
  revert h states. induction cursors as [|c r IH]; intros h states; [done|]. intros [Hc Hr]%Forall_cons. cbn [run_cursors].
  eapply safe_seq; [by apply cursor_safe|]. intros h' state Hle _. apply IH. eapply Forall_impl; [exact Hr|]. intros c'. by apply read_row_later.
Qed.

Lemma each_claim_safe pollFloor sha256 dev h providerOf now snaps claimed :
  Forall (fun c => read_row h (cu_connectionId c.2) c.1 c.2) snaps -> Forall (fun c => read_row h (cu_connectionId c.2) c.1 c.2) claimed ->
  safe (if_ok (fun h' cs => Forall (fun c => read_row h' (cu_connectionId c.2) c.1 c.2) cs)) h (claim_each pollFloor sha256 dev providerOf now snaps claimed).
Proof.
  revert h claimed. induction snaps as [|[id c] r IH]; intros h claimed; [done|]. intros [Hc Hr]%Forall_cons Hcl. cbn [claim_each].
  destruct (negb _); [by apply IH|]. apply safe_await; [done|]. intros h' count Hle _.
  assert (Hup : forall l, Forall (fun c => read_row h (cu_connectionId c.2) c.1 c.2) l -> Forall (fun c => read_row h' (cu_connectionId c.2) c.1 c.2) l).
  { intros l Hl. eapply Forall_impl; [exact Hl|]. intros c'. by apply read_row_later. }
  apply IH; [by apply Hup|]. destruct (count =? 1); [|by apply Hup]. apply Forall_app. split; [by apply Hup|]. constructor; [|constructor]. by eapply read_row_later.
Qed.

Lemma claim_safe pollFloor sha256 dev h limit now :
  safe (if_ok (fun h' cs => Forall (fun c => read_row h' (cu_connectionId c.2) c.1 c.2) cs)) h (claimDueErpCursors pollFloor sha256 dev limit now).
Proof.
  apply safe_await; [done|]. intros h1 [|p pollable] _ _; [apply Forall_nil_2|]. apply safe_await; [done|]. intros h2 rows _ Hrows.
  apply each_claim_safe; [|constructor]. apply Forall_forall. intros [id c] Hin. left. exists (p :: pollable).*1, limit, now, rows. done.
Qed.

Lemma tick_safe pollFloor sha256 dev limit h : safe (if_ok anyway) h (runIncrementalTick pollFloor sha256 dev limit).
Proof. split; [done|]. intros h1 now _ _. eapply safe_seq; [apply claim_safe|]. intros h2 cs _ Hcs. by apply cursors_safe. Qed.

Lemma register_safe datasets h live : safe (if_ok anyway) h (register_each datasets live).
Proof.
  revert h. induction live as [|[id p] r IH]; intros h; [done|]. cbn [register_each]. generalize (es_entity <$> filter (fun s => entityServedBy datasets p s = true) ERP_SYNC_ENTITIES).
  intros l. revert h. induction l as [|e l IHl]; intros h; [apply IH|]. apply safe_await; [done|]. intros h' _ _ _. apply IHl.
Qed.

(** What a part of the sweep that is never thrown out of answers. *)
Lemma sweep_read_safe h conn provider spec id c : read_row h conn id c -> erpSyncEntity (cu_entity c) = Some spec ->
  safe (if_ok (fun h' r => mark_earned h' id (adopted (cu_watermark c) r.1))) h (sweep_read conn provider spec c).
Proof.
  intros Hr Hs. eapply safe_seq; [apply read_safe|]. intros h1 inc Hle1 _. eapply safe_seq; [apply read_safe|]. intros h2 rows Hle2 _. cbv zeta.
  assert (Hr2 : read_row h2 conn id c) by (eapply read_row_later, Hr; by etrans). destruct (landsOnBox (cu_entity c)) eqn:El.
  - apply safe_await; [done|]. intros h3 [] Hle3 Hl. eapply adopted_earned; [by eapply read_row_later, Hr2|done|]. intros _. exact Hl.
  - eapply (adopted_earned _ _ _ _ _ []); [done..|]. congruence.
Qed.

Lemma mark_earned_stable {A} id (f : A -> option jsstr) : @stable ecommand _ A (fun h a => mark_earned h id (f a)).
Proof. intros h h' a Hle. exact (sync_needs_mono _ h h' (UpdateCursor id (W_success (f a) 0 None)) Hle). Qed.

Lemma entities_safe h conn provider at_ due drifts : Forall (fun c => read_row h conn c.1 c.2) due ->
  safe anyway h (sweep_entities conn provider at_ due drifts).
Proof.
  revert h drifts. induction due as [|[id c] r IH]; intros h drifts; [done|]. intros [Hc Hr]%Forall_cons. cbn [sweep_entities fst snd] in *.
  destruct (erpSyncEntity (cu_entity c)) as [spec|] eqn:Es; [|by apply IH].
  eapply safe_bind; [by apply sweep_read_safe|]. intros h1 [[full drift]|e] Hle1 Hm; [|done]. cbn [if_ok fst] in Hm.
  eapply (safe_bind anyway).
  - eapply safe_anyway. apply (safe_await anyway); [done|]. intros h2 _ Hle2 _. apply success_safe. by eapply (mark_earned_stable id (fun full => adopted (cu_watermark c) full)).
  - intros h2 [u|e] Hle2 _; [|done]. apply IH. eapply Forall_impl; [exact Hr|]. intros c'. apply read_row_later. by etrans.
Qed.

Lemma connection_safe h conn provider at_ first due : Forall (fun c => read_row h conn c.1 c.2) due ->
  safe (if_ok anyway) h (sweep_connection conn provider at_ first due).
Proof.
  intros Hd. eapply (safe_seq anyway).
  - apply (safe_closing anyway); [by intros|by intros|]. eapply (safe_bind anyway).
    + split; [done|]. intros h1 [u|e] Hle _; [|done]. apply entities_safe. eapply Forall_impl; [exact Hd|]. intros c'. by apply read_row_later.
    + intros h1 [drifts [err|]] _ _; [|done]. destruct (blamed due first drifts) as [id n]. eapply safe_seq; [apply failure_safe|].
      intros h2 st _ _. by apply safe_await.
  - intros h1 [drifts|] _ _; [|done]. by apply safe_await.
Qed.

Lemma sweep_each_safe interval h at_ live reports deferred : safe (if_ok anyway) h (sweep_each interval at_ live reports deferred).
Proof.
  revert h reports deferred. induction live as [|[conn p] r IH]; intros h reports deferred; [done|]. cbn [sweep_each].
  apply safe_await; [done|]. intros h1 [row|] _ _; [|apply IH]. apply safe_await; [done|]. intros h2 cursors Hle2 Hcs.
  apply safe_await; [done|]. intros h3 rows Hle3 _. destruct (filter _ cursors) as [|first more] eqn:Ef; [apply IH|].
  split; [done|]. intros h4 [u|e] Hle4 _; [|apply IH]. eapply safe_seq.
  - apply connection_safe. rewrite <- Ef. apply Forall_forall. intros [id c] [_ Hin]%list_elem_of_filter. eapply read_row_later, (read_row_later h2); [exact Hle4|exact Hle3|].
    right. by exists cursors.
  - intros h5 [rep|] _ _; apply IH.
Qed.

Lemma sync_safe pollFloor datasets sha256 dev limit interval q h : safe anyway h (sync_program pollFloor datasets sha256 dev limit interval q).
Proof.
  apply (safe_anyway (if_ok anyway)). destruct q as [[|conn st|conn p]| |conn|conn]; try by apply safe_await.
  - eapply safe_seq; [apply safe_await; [done|intros; apply register_safe]|]. intros h1 _ _ _. eapply safe_seq; [apply tick_safe|done].
  - eapply (safe_seq anyway); [|done]. split; [done|]. intros h1 at_ _ _. apply safe_await; [done|]. intros. apply sweep_each_safe.
Qed.
End landed.

Section earned.
Context `{DateParse}.

(** The position is one that a landed page of the connection's dataset reached,
    where the dataset is kept on the box. *)
Definition covered (w : SyncWorld) (conn entity : jsstr) (mark : option jsstr) : Prop :=
  match mark with
  | None => True
  | Some m => landsOnBox entity = true -> exists l spec, l ∈ sw_landed w /\ ld_connectionId l = conn /\ ld_entity l = entity /\
      erpSyncEntity entity = Some spec /\ highWaterMark (identified spec (ld_rows l)) = Some m
  end.

(** A row as it was read: its position is covered and it is still of the same
    dataset. *)
Definition still (w : SyncWorld) (id : nat) (row : Cursor) : Prop :=
  covered w (cu_connectionId row) (cu_entity row) (cu_watermark row) /\
  exists c, sw_cursors w !! id = Some c /\ cu_connectionId c = cu_connectionId row /\ cu_entity c = cu_entity row.

(** What an answer keeps saying of the world. *)
Definition told (w : SyncWorld) {X : Set} (c : ecommand X) : X -> Prop :=
  match c in ecommand X return X -> Prop with
  | FindDue _ _ _ => fun x => match x with Ok rows => forall id row, (id, row) ∈ rows -> still w id row | Throw _ => True end
  | FindCursors conn => fun x => match x with Ok rows => forall id row, (id, row) ∈ rows -> still w id row /\ cu_connectionId row = conn | Throw _ => True end
  | Land conn provider entity rows => fun x => match x with Ok _ => mkLanding conn provider entity rows ∈ sw_landed w | Throw _ => True end
  | _ => fun _ => True
  end.

Record marks_ok (w : SyncWorld) : Prop := {
  mo_covered : forall id c, sw_cursors w !! id = Some c -> covered w (cu_connectionId c) (cu_entity c) (cu_watermark c);
  mo_next : forall id, is_Some (sw_cursors w !! id) -> (id < sw_next w)%nat
}.

(** How the world may move. *)
Record grows (w w' : SyncWorld) : Prop := {
  gr_landed : sw_landed w ⊆ sw_landed w';
  gr_cursors : forall id c, sw_cursors w !! id = Some c -> exists c', sw_cursors w' !! id = Some c' /\ cu_connectionId c' = cu_connectionId c /\ cu_entity c' = cu_entity c
}.

Lemma grows_refl w : grows w w.
Proof. split; [done|]. eauto. Qed.

Lemma grows_same w w' : sw_landed w' = sw_landed w -> sw_cursors w' = sw_cursors w -> grows w w'.
Proof. intros H1 H2. split; [by rewrite H1|]. rewrite H2. eauto. Qed.

Lemma covered_grows w w' conn entity mark : grows w w' -> covered w conn entity mark -> covered w' conn entity mark.
Proof. intros [Hl _]. destruct mark as [m|]; [|done]. intros Hc Hb. destruct (Hc Hb) as (l & spec & Hin & ?). exists l, spec. auto. Qed.

Lemma still_grows w w' id row : grows w w' -> still w id row -> still w' id row.
Proof.
  intros Hg [Hc (c & Hin & H1 & H2)]. split; [by eapply covered_grows|]. destruct (gr_cursors _ _ Hg _ _ Hin) as (c' & ? & ? & ?).
  exists c'. split_and!; [done|congruence..].
Qed.

Lemma told_grows w w' {X : Set} (c : ecommand X) x : grows w w' -> told w c x -> told w' c x.
Proof.
  intros Hg. destruct c; try done; cbn; destruct x; try done.
  - intros Hr id row Hin. by eapply still_grows, Hr.
  - intros Hr id row Hin. destruct (Hr id row Hin). split; [by eapply still_grows|done].
  - by apply (gr_landed _ _ Hg).
Qed.

Lemma marks_same w w' : sw_landed w' = sw_landed w -> sw_cursors w' = sw_cursors w -> sw_next w' = sw_next w -> marks_ok w -> grows w w' /\ marks_ok w'.
Proof.
  intros H1 H2 H3 [Hc Hn]. pose proof (grows_same _ _ H1 H2) as Hg. split; [done|]. split; rewrite H2; [|by rewrite H3].
  intros id c Hin. eapply covered_grows; eauto.
Qed.

Lemma fares_cases {X : Set} inp w w' (x : X) w2 r : fares inp w w' x = (w2, r) -> (w2 = w /\ exists e, r = Throw e) \/ (w2 = w' /\ (r = Ok x \/ exists e, r = Throw e)).
Proof. unfold fares. destruct (in_fault inp); intros [= <- <-]; eauto 6. Qed.

Lemma fares_opt_cases {X : Set} inp w o (x : X) w2 r : fares_opt inp w o x = (w2, r) ->
  (w2 = w /\ exists e, r = Throw e) \/ (exists w', o = Some w' /\ w2 = w' /\ (r = Ok x \/ exists e, r = Throw e)).
Proof. unfold fares_opt. destruct o as [w'|]; [|intros [= <- <-]; eauto]. intros [?|?]%fares_cases; [auto|]. right. by exists w'. Qed.

(** Writes to one cursor that keep its dataset and set a covered position. *)
Lemma marks_insert w id c c' : marks_ok w -> sw_cursors w !! id = Some c -> cu_connectionId c' = cu_connectionId c -> cu_entity c' = cu_entity c ->
  covered w (cu_connectionId c) (cu_entity c) (cu_watermark c') -> grows w (set_cursors (<[id := c']> (sw_cursors w)) w) /\ marks_ok (set_cursors (<[id := c']> (sw_cursors w)) w).
Proof.
  intros [Hc Hn] Hin H1 H2 Hm. assert (Hg : grows w (set_cursors (<[id := c']> (sw_cursors w)) w)).
  { split; [done|]. intros j cj Hj. cbn. destruct (decide (id = j)) as [<-|Hne]; [|rewrite lookup_insert_ne by done; eauto].
    rewrite lookup_insert_eq. exists c'. assert (cj = c) as -> by congruence. done. }
  split; [done|]. split; cbn.
  - intros j cj [[<- <-]|[_ Hj]]%lookup_insert_Some; [rewrite H1, H2|]; eapply covered_grows; eauto.
  - intros j Hj. destruct (decide (id = j)) as [<-|Hne]; [apply Hn; eauto|]. rewrite lookup_insert_ne in Hj by done. by apply Hn.
Qed.

Lemma claim_marks id w : marks_ok w -> grows w (claim_cursor id w).1 /\ marks_ok (claim_cursor id w).1.
Proof.
  intros Hm. unfold claim_cursor. destruct (sw_cursors w !! id) as [c|] eqn:Ec; [|split; [apply grows_refl|done]].
  case_bool_decide; [|split; [apply grows_refl|done]]. cbn [fst].
  apply (marks_insert w id c); [done..|]. by apply (mo_covered w Hm id).
Qed.

Lemma upsert_marks conn entity w : marks_ok w -> grows w (upsert_cursor conn entity w) /\ marks_ok (upsert_cursor conn entity w).
Proof.
  intros Hm. unfold upsert_cursor. destruct (List.find _ _); [split; [apply grows_refl|done]|]. destruct Hm as [Hc Hn].
  assert (Hfree : sw_cursors w !! sw_next w = None) by (destruct (sw_cursors w !! sw_next w) eqn:E; [exfalso; pose proof (Hn (sw_next w) ltac:(eauto)); lia|done]).
  match goal with |- grows w ?w' /\ _ => assert (Hg : grows w w') end.
  { split; [done|]. intros j c Hj. cbn. rewrite lookup_insert_ne by congruence. eauto. }
  split; [done|]. split; cbn.
  - intros j c [[<- <-]|[_ Hj]]%lookup_insert_Some; [done|]. eapply covered_grows; eauto.
  - intros j Hj. destruct (decide (j = sw_next w)) as [->|Hne]; [lia|]. rewrite lookup_insert_ne in Hj by done. pose proof (Hn j Hj). lia.
Qed.

Lemma reset_marks conn w : marks_ok w -> grows w (reset_cursors conn w) /\ marks_ok (reset_cursors conn w).
Proof.
  intros [Hc Hn]. assert (Hg : grows w (reset_cursors conn w)).
  { split; [done|]. intros j c Hj. cbn. rewrite lookup_fmap, Hj. cbn. destruct (decide _); eexists; split_and!; done. }
  split; [done|]. split; cbn.
  - intros j c. rewrite lookup_fmap. intros (c0 & Hj & Hc0)%fmap_Some. destruct (decide (cu_connectionId c0 = conn)); subst c; [done|]. eapply covered_grows; eauto.
  - intros j. rewrite lookup_fmap, fmap_is_Some. apply Hn.
Qed.

Lemma grows_trans w1 w2 w3 : grows w1 w2 -> grows w2 w3 -> grows w1 w3.
Proof.
  intros [L1 C1] [L2 C2]. split; [by etrans|]. intros id c Hc. destruct (C1 _ _ Hc) as (c' & Hc' & ? & ?). destruct (C2 _ _ Hc') as (c2 & ? & ? & ?).
  exists c2. split_and!; [done|congruence..].
Qed.

Lemma conn_marks id f w w' : update_conn id f w = Some w' -> marks_ok w -> grows w w' /\ marks_ok w'.
Proof. unfold update_conn. destruct (sw_conns w !! id); [|done]. intros [= <-]. by apply marks_same. Qed.

Lemma land_marks w l : marks_ok w ->
  let w' := mkSyncWorld (sw_now w) (sw_conns w) (sw_cursors w) (sw_next w) (l :: sw_landed w) (sw_drift w) in grows w w' /\ marks_ok w'.
Proof.
  intros [Hc Hn] w'. assert (Hg : grows w w') by (split; [intros x Hx; by right|eauto]). split; [done|]. split; [|done].
  intros id c Hin. eapply covered_grows; eauto.
Qed.

Lemma exec_marks (X : Set) inp (c : ecommand X) w w' x : eexec X inp c w = Some (w', x) ->
  match c with UpdateCursor id (W_success mark _ _) => forall cu, sw_cursors w !! id = Some cu -> covered w (cu_connectionId cu) (cu_entity cu) mark | _ => True end ->
  marks_ok w -> grows w w' /\ marks_ok w'.
Proof.
  intros He Hw Hm. assert (Hstay : grows w w /\ marks_ok w) by (split; [apply grows_refl|done]).
  assert (Hf : forall (Y : Set) w1 (y : Y) z, grows w w1 /\ marks_ok w1 -> fares inp w w1 y = (w', z) -> grows w w' /\ marks_ok w').
  { intros Y w1 y z H1 [[-> _]|[-> _]]%fares_cases; done. }
  assert (Ho : forall (Y : Set) o (y : Y) z, (forall w1, o = Some w1 -> grows w w1 /\ marks_ok w1) -> fares_opt inp w o y = (w', z) -> grows w w' /\ marks_ok w').
  { intros Y o y z H1 [[-> _]|(w1 & Ho & -> & _)]%fares_opt_cases; [done|by apply H1]. }
  destruct c; cbn [eexec] in He; try (injection He as He; by apply (Hf _ _ _ _ Hstay He)).
  - destruct (0 <=? _); [|done]. injection He as <- _. by apply marks_same.
  - destruct (_ && _); [|done]. by injection He as <- _.
  - destruct (answers_query _ _ _ _); [|done]. injection He as He. by apply (Hf _ _ _ _ Hstay He).
  - injection He as He. by apply (Hf _ _ _ _ (claim_marks id w Hm) He).
  - destruct (answers_query _ _ _ _); [|done]. injection He as He. by apply (Hf _ _ _ _ Hstay He).
  - injection He as He. apply (Ho _ _ _ _) in He; [done|]. intros w1. unfold update_cursor. destruct (sw_cursors w !! id) as [cu|] eqn:Ec; [|done].
    intros [= <-]. apply (marks_insert w id cu); [done|done|by destruct wr..|]. destruct wr as [mark n s| | |]; cbn [apply_cursor cu_watermark]; [|done|by apply (mo_covered w Hm id)..].
    by apply Hw.
  - injection He as He. by apply (Hf _ _ _ _ (upsert_marks connectionId entity w Hm) He).
  - injection He as He. refine (Hf _ _ _ _ _ He). by apply marks_same.
  - injection He as He. apply (Ho _ _ _ _) in He; [done|]. intros w1 Hu. by eapply conn_marks.
  - injection He as He. refine (Hf _ _ _ _ _ He). by apply land_marks.
  - injection He as <- _. done.
  - injection He as He. apply (Ho _ _ _ _) in He; [done|]. intros w1 Hu. destruct (reset_marks connectionId w Hm) as [Hg Hr].
    destruct (conn_marks _ _ _ _ Hu Hr) as [Hg' ?]. split; [by eapply grows_trans|done].
  - injection He as He. apply (Ho _ _ _ _) in He; [done|]. intros w1 Hu. destruct (reset_marks connectionId w Hm) as [Hg Hr].
    destruct (conn_marks _ _ _ _ Hu Hr) as [Hg' ?]. split; [by eapply grows_trans|done].
  - injection He as He. apply (Ho _ _ _ _) in He; [done|]. intros w1 Hu. by eapply conn_marks.
  - injection He as He. apply (Ho _ _ _ _) in He; [done|]. intros w1. destruct (sw_conns w !! connectionId); [done|]. intros [= <-]. by apply marks_same.
Qed.

Lemma rows_in_elem w ids id row : (id, row) ∈ rows_in w ids -> id ∈ ids /\ sw_cursors w !! id = Some row.
Proof. unfold rows_in. rewrite list_elem_of_omap. intros (j & Hj & (c & Hc & [= -> ->])%fmap_Some). done. Qed.

(** What an answer says is so when it is given. *)
Lemma exec_told (X : Set) inp (c : ecommand X) w w' x : eexec X inp c w = Some (w', x) -> marks_ok w -> told w' c x.
Proof.
  intros He Hm. assert (Hrow : forall ids id row, (id, row) ∈ rows_in w ids -> still w id row).
  { intros ids id row [_ Hr]%rows_in_elem. split; [by apply (mo_covered w Hm id)|]. by exists row. }
  destruct c; try done; cbn [eexec] in He; cbn [told].
  - destruct (answers_query _ _ _ _); [|done]. injection He as [[-> (e & ->)]|[-> [->|(e & ->)]]]%fares_cases; [done| |done]. apply Hrow.
  - destruct (answers_query _ _ _ _) eqn:Ea; [|done]. injection He as [[-> (e & ->)]|[-> [->|(e & ->)]]]%fares_cases; [done| |done].
    intros id row Hr. split; [by eapply Hrow|]. apply rows_in_elem in Hr as [Hin Hr]. unfold answers_query in Ea. apply andb_true_iff in Ea as [[_ Hs%bool_decide_eq_true]%andb_true_iff _].
    apply Hs in Hin. unfold matching in Hin. apply list_elem_of_fmap in Hin as ([j c] & -> & [Hc Hj%elem_of_map_to_list]%list_elem_of_filter). cbn in *.
    assert (c = row) as -> by congruence. by apply bool_decide_eq_true in Hc.
  - injection He as [[-> (e & ->)]|[-> [->|(e & ->)]]]%fares_cases; [done| |done]. by left.
Qed.

Definition sync_inv (w : SyncWorld) (log : list (nat * event ecommand)) : Prop :=
  marks_ok w /\ forall i e, (i, e) ∈ log -> match e with Ev c x => told w c x end.

(** An earned mark is covered, for the row it is written to. *)
Lemma earned_covered w log i id mark cu : sync_inv w log -> mark_earned (trace_of i log) id mark -> sw_cursors w !! id = Some cu ->
  covered w (cu_connectionId cu) (cu_entity cu) mark.
Proof.
  intros [_ Ht] (conn & row & Hr & Hm) Hcu.
  assert (Hs : still w id row /\ conn = cu_connectionId row).
  { destruct Hr as [(ids & l & n & rows & Hin & Hrow & ->)|(rows & Hin & Hrow)]; apply trace_of_elem, Ht in Hin; cbn [told] in Hin; [by split; [apply Hin|]|].
    by destruct (Hin _ _ Hrow). }
  destruct Hs as [[Hc (c & Hcid & H1 & H2)] ->]. assert (c = cu) as -> by congruence. rewrite H1, H2.
  destruct Hm as [->|(spec & prov & rows & Hspec & Hmark & Hl)]; [done|]. destruct mark as [m|]; [|done]. intros Hb.
  specialize (Hl Hb). apply trace_of_elem, Ht in Hl. cbn [told] in Hl. by exists (mkLanding (cu_connectionId row) prov (cu_entity row) rows), spec.
Qed.
End earned.

Lemma sync_world_keeps `{DateParse} (X : Set) i inp (c : ecommand X) w w' x log :
  eexec X inp c w = Some (w', x) -> sync_needs X (trace_of i log) c -> sync_inv w log -> sync_inv w' ((i, Ev c x) :: log).
Proof.
  intros He Hn Hi. pose proof Hi as [Hm Ht]. assert (Hstep : grows w w' /\ marks_ok w').
  { eapply exec_marks; [exact He| |done]. destruct c; try done. destruct wr; try done. intros cu Hcu. by eapply earned_covered. }
  destruct Hstep as [Hg Hm']. split; [done|]. intros j e [[= -> ->]|Hin]%elem_of_cons; [by eapply exec_told|].
  specialize (Ht j e Hin). destruct e as [Y d y]. by eapply told_grows.
Qed.

Lemma sync_issues `{DateParse} pollFloor datasets sha256 dev limit interval q tr (X : Set) (c : ecommand X) k :
  leads (sync_program pollFloor datasets sha256 dev limit interval q) tr (Op c k) -> sync_needs X tr c.
Proof.
  intros Hl. exact (proj1 (@safe_leads _ sync_protocol _ (fun t => t) _ (trace_obs sync_needs sync_needs_mono) _ _ _ Hl []
    (sync_safe pollFloor datasets sha256 dev limit interval q []))).
Qed.

(** C24: a position never runs ahead of the data.  However ticks, sweeps,
    registrations, disconnections and reconnections interleave, command by
    command, whichever of them fail before or after taking effect, whatever the
    vendors answer, and wherever a request stops: the position stored for a
    dataset that is kept on the box is the mark of a page given to the landing for
    that connection and dataset in a transaction that committed, namely the first
    of the page's latest timestamps, or, if it has none, the last token it offers.
    No release moves a position to rows that were read and not handed over.
    (What of a page becomes records is the landing's own decision.) *)
Theorem position_was_landed `{DateParse} pollFloor datasets sha256 dev limit interval mvs now m :
  sync_moves pollFloor datasets sha256 dev limit interval mvs now = Some m ->
  forall id c mark, sw_cursors (pl_world m) !! id = Some c -> cu_watermark c = Some mark -> landsOnBox (cu_entity c) = true ->
  exists l spec, l ∈ sw_landed (pl_world m) /\ ld_connectionId l = cu_connectionId c /\ ld_entity l = cu_entity c /\
    erpSyncEntity (cu_entity c) = Some spec /\ is_high_water (identified spec (ld_rows l)) mark.
Proof.
  intros Hmv id c mark Hc Hmark Hb.
  assert (Hinv : pool_ok (sync_program pollFloor datasets sha256 dev limit interval) m /\ sync_inv (pl_world m) (pl_log m)).
  { eapply (pool_moves_keep _ _ sync_needs sync_inv); [| |exact Hmv|apply pool_of_ok|].
    - intros q tr X c0 k. apply sync_issues.
    - intros. by eapply sync_world_keeps.
    - split; [split; cbn|]; intros j; [done| |]; [intros Hj; by apply lookup_empty_is_Some in Hj|intros e Hj; by apply elem_of_nil in Hj]. }
  destruct Hinv as [_ [Hm _]]. pose proof (mo_covered _ Hm _ _ Hc) as Hcov. rewrite Hmark in Hcov.
  destruct (Hcov Hb) as (l & spec & Hl & H1 & H2 & H3 & H4). exists l, spec. split_and!; try done. by apply highest_iff.
Qed.

(** ** Examples *)

Module SyncRuns.
#[local] Instance iso_dates : DateParse := iso_parse.

Definition db_error : SyncError := mkSyncError OtherError None (Some (js "P2028")) None None.
Definition throttled (retryAfter : string) : SyncError := mkSyncError XeroRateLimited None None None (Some (js retryAfter)).

Definition ok : einput := mkInput Works db_error [] [] 0 0.
Definition ids (l : list nat) : einput := mkInput Works db_error l [] 0 0.
Definition page (l : list jsval) : einput := mkInput Works db_error [] l 0 0.
Definition throws (e : SyncError) : einput := mkInput LostRequest e [] [] 0 0.

Definition served (provider : jsstr) : option (list jsstr) := Some [js "contact"; js "company"].
Definition only_contacts (provider : jsstr) : option (list jsstr) := Some [js "contact"].

Definition record (field id updated : string) : jsval := JObj [(js field, JStr (js id)); (js "updated_at", JStr (js updated))].
Definition old_contact : jsval := record "contact_id" "a" "2026-01-01T00:00:00.000Z".
Definition new_contact : jsval := record "contact_id" "b" "2026-02-01T00:00:00.000Z".
Definition a_company : jsval := record "company_id" "x" "2026-01-15T00:00:00.000Z".

Definition go (i : nat) (l : list einput) : list (PoolMove SyncRequest einput) := P_Step i <$> l.

(** A connection, made and found usable: requests 0 and 1. *)
Definition connected : list (PoolMove SyncRequest einput) :=
  P_Start (Q_work (Q_create (js "c") (js "hubspot"))) :: go 0 [ok; ok] ++ P_Start (Q_work (Q_status (js "c") CONNECTED)) :: go 1 [ok; ok].

Definition runs_of (datasets : jsstr -> option (list jsstr)) (mvs : list (PoolMove SyncRequest einput)) :=
  sync_moves (fun _ => None) datasets (fun s => s) None 8 0 (connected ++ mvs) 1770000000000.

(** A tick of one cursor up to its read, and from there. *)
Definition upto_read : list einput := [ok; ok; ok; ok; ids [0%nat]; ok; ok; ok; ok; ok; ok].
Definition after_read : list einput := [ok; ok; ok; ok; ok; ok].

Definition cursor_of (id : nat) (m : Pool ecommand (result SyncError SyncAnswer) SyncRequest SyncWorld) : option (ErpSyncStateName * option jsstr) :=
  (fun c => (cu_state c, cu_watermark c)) <$> sw_cursors (pl_world m) !! id.

Definition one_tick := P_Start (Q_work Q_tick) :: go 2 (upto_read ++ page [old_contact; new_contact] :: after_read).

Example tick_moves_position :
  (fun m => (cursor_of 0 m, length (sw_landed (pl_world m)))) <$> runs_of only_contacts one_tick =
  Some (Some (IDLE, Some (js "2026-02-01T00:00:00.000Z")), 1%nat).
Proof. vm_compute. reflexivity. Qed.

Lemma position_was_landed_witness : exists m l spec, runs_of only_contacts one_tick = Some m /\ l ∈ sw_landed (pl_world m) /\
  is_high_water (identified spec (ld_rows l)) (js "2026-02-01T00:00:00.000Z").
Proof.
  pose proof tick_moves_position as Hx. destruct (runs_of only_contacts one_tick) as [m|] eqn:E; [|discriminate Hx].
  injection Hx as Hc _. unfold cursor_of in Hc. destruct (sw_cursors (pl_world m) !! 0%nat) as [c|] eqn:Ec; [|discriminate Hc].
  injection Hc as _ Hw. assert (Hb : landsOnBox (cu_entity c) = true).
  { assert (He : (fun m => cu_entity <$> sw_cursors (pl_world m) !! 0%nat) <$> runs_of only_contacts one_tick = Some (Some (js "contact"))) by (vm_compute; reflexivity).
    rewrite E in He. cbn in He. rewrite Ec in He. injection He as ->. vm_compute. reflexivity. }
  destruct (position_was_landed _ _ _ _ _ _ _ _ m E 0 c _ Ec Hw Hb) as (l & spec & Hl & _ & _ & _ & Hh). exists m, l, spec. split; [reflexivity|]. split; [exact Hl|exact Hh].
Defined.
End SyncRuns.
