(* ===== verification/ErpClaims.v ===== *)
(** * ErpClaims: who runs a cursor
      (the claims of apps/orchestrator/src/services/erp-sync/cursor.service.ts)

    In the pool of [ErpSync], ticks take turns on a cursor; and what ends a claim
    under its holder, or leaves one behind. *)

From S2P Require Import Prelude JsNum Json Prog DateTime DateText ZonedTime Reconcile ErpSync.

Local Open Scope Z_scope.

(** ** One runner at a time *)

(** What an event does to the claim of a cursor: it takes it, or ends it. *)
Definition claim_mark (id : nat) (e : event ecommand) : option bool :=
  match e with
  | Ev c x =>
      match c in ecommand X return X -> option bool with
      | ClaimCursor j => fun r => match r with Ok n => if decide (j = id /\ n = 1) then Some true else None | Throw _ => None end
      | UpdateCursor j _ => fun _ => if decide (j = id) then Some false else None
      | _ => fun _ => None
      end x
  end.

(** A failure after the position was stored: of that write's reply, or of the
    book-keeping that follows it. *)
Definition slip (e : event ecommand) : bool :=
  match e with
  | Ev c x =>
      match c in ecommand X return X -> bool with
      | UpdateCursor _ (W_success _ _ _) | AdvanceHealthy _ _ | Audit _ _ => fun r => match r with Ok _ => false | Throw _ => true end
      | _ => fun _ => false
      end x
  end.

Definition smooth (h : list (event ecommand)) : Prop := Forall (fun e => slip e = false) h.

Definition hold_step (id : nat) (b : bool) (e : event ecommand) : bool := default b (claim_mark id e).

(** A request holds a cursor it has claimed and not released. *)
Definition held (id : nat) (h : list (event ecommand)) : bool := foldl (hold_step id) false h.

Definition held_needs (X : Set) (h : list (event ecommand)) (c : ecommand X) : Prop :=
  match c with
  | UpdateCursor id _ => smooth h -> held id h = true
  | Disconnect _ | Reconnect _ => False
  | _ => True
  end.

(** The rows of a query are distinct. *)
Definition distinct_rows (X : Set) (c : ecommand X) : X -> Prop :=
  match c in ecommand X return X -> Prop with
  | FindDue _ _ _ => fun r => match r with Ok rows => NoDup rows.*1 | Throw _ => True end
  | _ => fun _ => True
  end.

Abbreviation orderly := (abides distinct_rows held_needs).

(** Commands that neither take nor end a claim. *)
Definition unrelated {X : Set} (c : ecommand X) : bool :=
  match c with ClaimCursor _ | UpdateCursor _ _ | Disconnect _ | Reconnect _ => false | _ => true end.

Lemma held_snoc id h e : held id (h ++ [e]) = hold_step id (held id h) e.
Proof. unfold held. by rewrite foldl_app. Qed.

Lemma smooth_snoc h e : smooth (h ++ [e]) <-> smooth h /\ slip e = false.
Proof. unfold smooth. by rewrite Forall_app, Forall_singleton. Qed.

Lemma unrelated_held {X : Set} (c : ecommand X) x id h : unrelated c = true -> held id (h ++ [Ev c x]) = held id h.
Proof. rewrite held_snoc. by destruct c. Qed.

Lemma unrelated_needs {X : Set} (c : ecommand X) h : unrelated c = true -> held_needs X h c.
Proof. by destruct c. Qed.

Section one_runner.
Context `{DateParse}.

(** The claim is held, unless something slipped; and what happened since [h0] is
    about this cursor alone. *)
Definition own (id : nat) (h : list (event ecommand)) : Prop := smooth h -> held id h = true.
Definition about (id : nat) (h0 h : list (event ecommand)) : Prop := (smooth h -> smooth h0) /\ forall j, j <> id -> held j h = held j h0.

Lemma own_more {X : Set} (c : ecommand X) x id h : unrelated c = true -> own id h -> own id (h ++ [Ev c x]).
Proof. intros Hc Ho [Hs _]%smooth_snoc. rewrite unrelated_held by done. by apply Ho. Qed.

Lemma about_refl id h : about id h h.
Proof. by split. Qed.

Lemma about_more {X : Set} (c : ecommand X) x id h0 h : unrelated c = true -> about id h0 h -> about id h0 (h ++ [Ev c x]).
Proof. intros Hc [H1 H2]. split; [intros [Hs _]%smooth_snoc; auto|]. intros j Hj. rewrite unrelated_held by done. auto. Qed.

Lemma about_update id wr x h0 h : about id h0 h -> about id h0 (h ++ [Ev (UpdateCursor id wr) x]).
Proof.
  intros [H1 H2]. split; [intros [Hs _]%smooth_snoc; auto|]. intros j Hj. rewrite held_snoc. unfold hold_step. cbn.
  rewrite decide_False by done. cbn. auto.
Qed.

Lemma orderly_op {A} {X : Set} Q (c : ecommand X) (k : X -> prog ecommand A) h : unrelated c = true -> (forall x, orderly Q (h ++ [Ev c x]) (k x)) -> orderly Q h (Op c k).
Proof. intros Hc Hk. split; [by apply unrelated_needs|]. auto. Qed.

(** How a part of one cursor's run ends: if it throws, the claim is still held. *)
Definition part (id : nat) (h0 : list (event ecommand)) {A} (h : list (event ecommand)) (r : result SyncError A) : Prop :=
  about id h0 h /\ own id h.
Definition over (id : nat) (h0 : list (event ecommand)) {A} (h : list (event ecommand)) (r : A) : Prop := about id h0 h.
Definition body_over (id : nat) (h0 : list (event ecommand)) {A} (h : list (event ecommand)) (r : result SyncError A) : Prop :=
  about id h0 h /\ match r with Ok _ => True | Throw _ => own id h end.

Lemma failure_orderly id n err header now h0 h : about id h0 h -> own id h -> orderly (over id h0) h (releaseErpCursorFailure id n err header now).
Proof.
  intros Ha Ho. assert (Hu : forall wr st h, about id h0 h -> own id h -> orderly (over id h0) h (await (UpdateCursor id wr) (fun _ => Ret (Ok (st : ErpSyncStateName))))).
  { intros wr st h' Ha' Ho'. split; [exact Ho'|]. intros [x|e] _; by apply about_update. }
  unfold releaseErpCursorFailure. destruct (classifySyncFailure err); [|by apply Hu| |by apply Hu].
  all: apply orderly_op; [done|]; intros drawn; destruct (TimeClip _); [apply Hu; [by apply about_more|by apply own_more]|by apply about_more].
Qed.

Lemma failed_orderly id c header at_ err h0 h : about id h0 h -> own id h -> orderly (over id h0) h (sync_failed id c header at_ err).
Proof.
  intros Ha Ho. eapply abides_bind; [by apply failure_orderly|]. intros h1 [st|e] H1; [|exact H1]. apply orderly_op; [done|]. intros [u|e]; by apply about_more.
Qed.

Lemma quiet_await {A} {X : Set} id h0 (c : ecommand (result SyncError X)) (k : X -> eprog A) h :
  unrelated c = true -> about id h0 h -> own id h -> (forall x, about id h0 (h ++ [Ev c (Ok x)]) -> own id (h ++ [Ev c (Ok x)]) -> orderly (body_over id h0) (h ++ [Ev c (Ok x)]) (k x)) ->
  orderly (body_over id h0) h (await c k).
Proof.
  intros Hc Ha Ho Hk. apply orderly_op; [done|]. intros [x|e]; [apply Hk; [by apply about_more|by apply own_more]|]. split; [by apply about_more|by apply own_more].
Qed.

Lemma body_orderly id c spec provider at_ h0 h : about id h0 h -> own id h -> orderly (body_over id h0) h (sync_body id c spec provider at_).
Proof.
  intros Ha Ho. assert (Hpost : forall mark h, about id h0 h -> own id h ->
    orderly (fun h' r => about id h0 h' /\ match r with Ok _ => True | Throw _ => own id h' end) h (releaseErpCursorSuccess id mark at_ None)).
  { intros mark h' Ha' Ho'. split; [exact Ho'|]. intros [u|e] _; (split; [by apply about_update|]); [done|]. intros [_ Hf]%smooth_snoc. done. }
  apply quiet_await; [done..|]. intros u0 Ha1 Ho1. eapply abides_bind with (Q := part id h0).
  - apply orderly_op; [done|]. intros [u|e]; [|split; [by apply about_more|by apply own_more]].
    apply orderly_op; [done|]. intros [rows|e]; (split; [by repeat (apply about_more; [done|])|by repeat (apply own_more; [done|])]).
  - intros h2 [rows|e] [Ha2 Ho2]; [|done]. cbv zeta. eapply abides_bind with (Q := body_over id h0).
    + unfold land_if. destruct (landsOnBox (cu_entity c)); [|by apply Hpost]. apply quiet_await; [done..|]. intros [] Ha3 Ho3. by apply Hpost.
    + intros h3 [u|e] [Ha3 Ho3]; [|done]. apply orderly_op; [done|]. intros [x|e]; [|split; [by apply about_more|intros [_ Hf]%smooth_snoc; done]].
      apply orderly_op; [done|]. intros [y|e]; (split; [by repeat (apply about_more; [done|])|]); [done|]. intros [_ Hf]%smooth_snoc. done.
Qed.

Lemma cursor_orderly cursor h0 h : about cursor.1 h0 h -> own cursor.1 h -> orderly (over cursor.1 h0) h (runOneCursor cursor).
Proof.
  destruct cursor as [id c]. cbn [fst]. intros Ha Ho. apply orderly_op; [done|]. intros at_. apply (about_more Now at_) in Ha; [|done]. apply (own_more Now at_) in Ho; [|done].
  revert Ha Ho. generalize (h ++ [Ev Now at_]). clear h. intros h Ha Ho. apply orderly_op; [done|].
  intros [row|e]; [|by apply about_more]. match goal with |- orderly _ ?h' _ => assert (Ha1 : about id h0 h') by (by apply about_more); assert (Ho1 : own id h') by (by apply own_more); revert Ha1 Ho1; generalize h' end.
  clear h Ha Ho. intros h Ha Ho.
  assert (Habs : forall err, orderly (over id h0) h (seq (releaseErpCursorFailure id (cu_failures c) err None at_) (fun _ => await (Audit A_skipped (cu_connectionId c)) (fun _ => Ret (Ok FAILED))))).
  { intros err. eapply abides_bind; [by apply failure_orderly|]. intros h1 [st|e] H1; [|exact H1]. apply orderly_op; [done|]. intros [u|e]; by apply about_more. }
  destruct (erpSyncEntity (cu_entity c)) as [spec|]; [|apply Habs]. destruct row as [row|]; [|apply Habs].
  apply orderly_op; [done|]. intros [u|e].
  - eapply abides_bind with (Q := over id h0).
    + eapply abides_bind with (Q := body_over id h0); [apply body_orderly; [by apply about_more|by apply own_more]|].
      intros h1 [st|e] [Ha1 Ho1]; [exact Ha1|by apply failed_orderly].
    + intros h1 r H1. apply orderly_op; [done|]. intros x. by apply about_more.
  - apply failed_orderly; [by apply about_more|by apply own_more].
Qed.

Lemma cursors_orderly cursors states h : NoDup cursors.*1 -> Forall (fun c => own c.1 h) cursors -> orderly anyway h (run_cursors cursors states).
Proof.
  revert h states. induction cursors as [|c r IH]; intros h states; [done|]. cbn [run_cursors fmap list_fmap]. intros [Hni Hnd]%NoDup_cons [Hc Hr]%Forall_cons.
  eapply abides_bind; [eapply cursor_orderly; [apply about_refl|exact Hc]|]. intros h1 [st|e] [H1 H2]; [|done]. apply IH; [done|].
  apply Forall_forall. intros c' Hin Hs. rewrite H2; [|intros Heq; apply Hni; rewrite <- Heq; by apply list_elem_of_fmap_2].
  rewrite Forall_forall in Hr. by apply (Hr c' Hin), H1.
Qed.

Definition claims_held (h : list (event ecommand)) (r : result SyncError (list (nat * Cursor))) : Prop :=
  match r with Ok cs => NoDup cs.*1 /\ Forall (fun c => held c.1 h = true) cs | Throw _ => True end.

Lemma each_claim_orderly pollFloor sha256 dev providerOf now snaps claimed h :
  NoDup (claimed.*1 ++ snaps.*1) -> Forall (fun c => held c.1 h = true) claimed -> orderly claims_held h (claim_each pollFloor sha256 dev providerOf now snaps claimed).
Proof.
  revert h claimed. induction snaps as [|[id c] r IH]; intros h claimed Hnd Hcl; [rewrite app_nil_r in Hnd; done|]. cbn [claim_each fmap list_fmap fst] in *.
  assert (Hnd' : NoDup (id :: claimed.*1 ++ r.*1)) by (by rewrite Permutation_middle). apply NoDup_cons in Hnd' as [Hni Hnd'].
  destruct (negb _); [by apply IH|]. split; [done|]. intros [n|e] _; [|done].
  assert (Hkeep : Forall (fun c => held c.1 (h ++ [Ev (ClaimCursor id) (Ok n)]) = true) claimed).
  { eapply Forall_impl; [exact Hcl|]. intros c' Hc'. rewrite held_snoc. unfold hold_step. cbn [claim_mark]. by case_decide. }
  apply IH; destruct (Z.eqb_spec n 1) as [->|Hne]; try done.
  - rewrite fmap_app, <- app_assoc. exact Hnd.
  - apply Forall_app. split; [done|]. constructor; [|constructor]. cbn [fst]. rewrite held_snoc. unfold hold_step. cbn [claim_mark]. by rewrite decide_True.
Qed.

Lemma claim_orderly pollFloor sha256 dev limit now h : orderly claims_held h (claimDueErpCursors pollFloor sha256 dev limit now).
Proof.
  apply orderly_op; [done|]. intros [[|p pollable]|e]; [split; [apply NoDup_nil_2|constructor]| |done]. split; [done|]. intros [rows|e] Hd; [|done].
  apply each_claim_orderly; [exact Hd|constructor].
Qed.

Lemma tick_orderly pollFloor datasets sha256 dev limit q h : orderly anyway h (tick_program pollFloor datasets sha256 dev limit q).
Proof.
  destruct q as [|conn st|conn p]; [|apply orderly_op; [done|by intros [u|e]]..]. eapply (abides_bind _ _ anyway).
  - apply orderly_op; [done|]. intros [live|e]; [|done]. generalize (h ++ [Ev FindPollable (Ok live)]). clear h. induction live as [|[id p] r IH]; intros h; [done|].
    cbn [register_each]. generalize (es_entity <$> filter (fun s => entityServedBy datasets p s = true) ERP_SYNC_ENTITIES). intros l. revert h.
    induction l as [|e l IHl]; intros h; [apply IH|]. apply orderly_op; [done|]. intros [u|er]; [apply IHl|done].
  - intros h1 [u|e] _; [|done]. eapply (abides_bind _ _ anyway); [|by intros h2 [st|e] _].
    apply orderly_op; [done|]. intros now. eapply abides_bind; [apply claim_orderly|]. intros h2 [cs|e] Hcs; [|done]. destruct Hcs as [Hnd Hh].
    apply cursors_orderly; [done|]. eapply Forall_impl; [exact Hh|]. by intros c Hc _.
Qed.
End one_runner.

(** Who holds a cursor, by the log (newest first). *)
Fixpoint owner (id : nat) (log : list (nat * event ecommand)) : option nat :=
  match log with
  | [] => None
  | (i, e) :: r => match claim_mark id e with Some true => Some i | Some false => None | None => owner id r end
  end.

Lemma owner_cons id i e log : owner id ((i, e) :: log) = match claim_mark id e with Some true => Some i | Some false => None | None => owner id log end.
Proof. done. Qed.

(** Claims are taken when free and ended by their holder. *)
Fixpoint in_turn (id : nat) (log : list (nat * event ecommand)) : Prop :=
  match log with
  | [] => True
  | (i, e) :: r => match claim_mark id e with Some true => owner id r = None | Some false => owner id r = Some i | None => True end /\ in_turn id r
  end.

Definition log_smooth (log : list (nat * event ecommand)) : Prop := Forall (fun d => slip d.2 = false) log.

(** An unended claim is the last. *)
Lemma unended id l2 i e l3 : in_turn id (l2 ++ (i, e) :: l3) -> claim_mark id e = Some true ->
  ~ Exists (fun d => d.1 = i /\ claim_mark id d.2 = Some false) l2 -> owner id (l2 ++ (i, e) :: l3) = Some i.
Proof.
  intros Hin He. revert Hin. induction l2 as [|[k x] l2 IH]; cbn [app owner in_turn].
  - intros _ _. by rewrite He.
  - intros [Hx Hin] Hno. assert (Ho : owner id (l2 ++ (i, e) :: l3) = Some i) by (apply IH; [done|]; intros Hex; apply Hno; by right).
    destruct (claim_mark id x) as [[]|] eqn:Ex; [congruence| |done]. exfalso. apply Hno. left. split; [cbn; congruence|done].
Qed.

Lemma in_turn_between id l1 l2 l3 i j e e' : in_turn id (l1 ++ (j, e) :: l2 ++ (i, e') :: l3) ->
  claim_mark id e = Some true -> claim_mark id e' = Some true -> exists e2, (i, e2) ∈ l2 /\ claim_mark id e2 = Some false.
Proof.
  intros Hin He He'. induction l1 as [|[k x] l1 IH]; [|apply IH, Hin]. cbn [app in_turn] in Hin. rewrite He in Hin. destruct Hin as [Hfree Hin].
  destruct (decide (Exists (fun d => d.1 = i /\ claim_mark id d.2 = Some false) l2)) as [Hex|Hno].
  - apply Exists_exists in Hex as ([k x] & Hd & <- & Hm). by exists x.
  - rewrite (unended _ _ _ _ _ Hin He' Hno) in Hfree. done.
Qed.

Definition fresh_ids (w : SyncWorld) : Prop := forall id, is_Some (sw_cursors w !! id) -> (id < sw_next w)%nat.

Definition stays_syncing (w w' : SyncWorld) : Prop :=
  forall id c, sw_cursors w !! id = Some c -> cu_state c = SYNCING -> exists c', sw_cursors w' !! id = Some c' /\ cu_state c' = SYNCING.

Lemma stays_same w w' : sw_cursors w' = sw_cursors w -> stays_syncing w w'.
Proof. intros E id c Hc Hs. rewrite E. eauto. Qed.

Lemma stays_claim id w : stays_syncing w (claim_cursor id w).1.
Proof.
  unfold claim_cursor. destruct (sw_cursors w !! id) as [c|] eqn:Ec; [|by apply stays_same]. case_bool_decide as Hs; [|by apply stays_same].
  intros j cj Hj Hsj. cbn. destruct (decide (id = j)) as [<-|Hne]; [rewrite lookup_insert_eq; eauto|rewrite lookup_insert_ne by done; eauto].
Qed.

Lemma fresh_claim id w : fresh_ids w -> fresh_ids (claim_cursor id w).1.
Proof.
  intros Hf. unfold claim_cursor. destruct (sw_cursors w !! id) as [c|] eqn:Ec; [|done]. case_bool_decide; [|done]. intros j. cbn.
  destruct (decide (id = j)) as [<-|Hne]; [intros _; apply Hf; eauto|rewrite lookup_insert_ne by done; apply Hf].
Qed.

Lemma fresh_update id wr w w' : update_cursor id wr w = Some w' -> fresh_ids w -> fresh_ids w'.
Proof.
  unfold update_cursor. destruct (sw_cursors w !! id) as [c|] eqn:Ec; [|done]. intros [= <-] Hf j. cbn.
  destruct (decide (id = j)) as [<-|Hne]; [intros _; apply Hf; eauto|rewrite lookup_insert_ne by done; apply Hf].
Qed.

Lemma stays_upsert conn entity w : fresh_ids w -> stays_syncing w (upsert_cursor conn entity w) /\ fresh_ids (upsert_cursor conn entity w).
Proof.
  intros Hf. unfold upsert_cursor. destruct (List.find _ _); [split; [by apply stays_same|done]|]. split.
  - intros j c Hj Hs. cbn. rewrite lookup_insert_ne; [eauto|]. intros Heq. assert (Hi : is_Some (sw_cursors w !! j)) by eauto. apply Hf in Hi. lia.
  - intros j. cbn. destruct (decide (sw_next w = j)) as [<-|Hne]; [intros _; lia|rewrite lookup_insert_ne by done; intros Hj%Hf; lia].
Qed.

(** Commands that touch no claim leave the running cursors alone. *)
Lemma unrelated_stays (X : Set) inp (c : ecommand X) w w' x : eexec X inp c w = Some (w', x) -> unrelated c = true -> fresh_ids w -> stays_syncing w w' /\ fresh_ids w'.
Proof.
  intros He Hu Hf. assert (Hs : forall w1, sw_cursors w1 = sw_cursors w -> sw_next w1 = sw_next w -> stays_syncing w w1 /\ fresh_ids w1).
  { intros w1 E1 E2. split; [by apply stays_same|]. intros j. rewrite E1, E2. apply Hf. }
  assert (Hw : forall (Y : Set) w1 (y : Y) z, stays_syncing w w1 /\ fresh_ids w1 -> fares inp w w1 y = (w', z) -> stays_syncing w w' /\ fresh_ids w').
  { intros Y w1 y z H1 [[-> _]|[-> _]]%fares_cases; [by apply Hs|done]. }
  assert (Ho : forall (Y : Set) o (y : Y) z, (forall w1, o = Some w1 -> sw_cursors w1 = sw_cursors w /\ sw_next w1 = sw_next w) -> fares_opt inp w o y = (w', z) -> stays_syncing w w' /\ fresh_ids w').
  { intros Y o y z H1 [[-> _]|(w1 & E & -> & _)]%fares_opt_cases; [by apply Hs|]. apply Hs; by apply H1. }
  assert (Hc : forall cid f w1, update_conn cid f w = Some w1 -> sw_cursors w1 = sw_cursors w /\ sw_next w1 = sw_next w).
  { intros cid f w1. unfold update_conn. destruct (sw_conns w !! cid); [|done]. by intros [= <-]. }
  destruct c; try done; cbn [eexec] in He; try (injection He as He; by apply (Hw _ _ _ _ (Hs w eq_refl eq_refl) He)).
  - destruct (0 <=? _); [|done]. injection He as <- _. by apply Hs.
  - destruct (_ && _); [|done]. injection He as <- _. by apply Hs.
  - destruct (answers_query _ _ _ _); [|done]. injection He as He. by apply (Hw _ _ _ _ (Hs w eq_refl eq_refl) He).
  - destruct (answers_query _ _ _ _); [|done]. injection He as He. by apply (Hw _ _ _ _ (Hs w eq_refl eq_refl) He).
  - injection He as He. by apply (Hw _ _ _ _ (stays_upsert _ _ _ Hf) He).
  - injection He as He. refine (Hw _ _ _ _ _ He). by apply Hs.
  - injection He as He. apply (Ho _ _ _ _) in He; [done|]. apply Hc.
  - injection He as He. refine (Hw _ _ _ _ _ He). by apply Hs.
  - injection He as <- _. by apply Hs.
  - injection He as He. apply (Ho _ _ _ _) in He; [done|]. apply Hc.
  - injection He as He. apply (Ho _ _ _ _) in He; [done|]. intros w1. destruct (sw_conns w !! connectionId); [done|]. by intros [= <-].
Qed.

Definition turn_inv (w : SyncWorld) (log : list (nat * event ecommand)) : Prop :=
  fresh_ids w /\ Forall (fun d => match d.2 with Ev c x => distinct_rows _ c x end) log /\
  (log_smooth log -> forall id, in_turn id log /\ (forall i, held id (trace_of i log) = true <-> owner id log = Some i) /\
    (forall i, owner id log = Some i -> exists c, sw_cursors w !! id = Some c /\ cu_state c = SYNCING)).

Lemma rows_in_distinct w ids : NoDup ids -> NoDup (rows_in w ids).*1.
Proof.
  intros Hd. induction Hd as [|id ids Hni Hd IH]; [constructor|]. unfold rows_in in *. cbn. destruct (sw_cursors w !! id) as [c|]; cbn; [|done].
  constructor; [|done]. intros ([j cj] & -> & Hin)%list_elem_of_fmap. apply list_elem_of_omap in Hin as (k & Hk & (c' & Hc & Heq)%fmap_Some).
  injection Heq as -> ->. cbn in Hni. done.
Qed.

Lemma exec_distinct (X : Set) inp (c : ecommand X) w w' x : eexec X inp c w = Some (w', x) -> distinct_rows X c x.
Proof.
  intros He. destruct c; try done. cbn [eexec] in He. destruct (answers_query _ _ _ _) eqn:Ea; [|done]. unfold answers_query in Ea.
  apply andb_true_iff in Ea as [[Hd%bool_decide_eq_true _]%andb_true_iff _].
  injection He as [[-> (e & ->)]|[-> [->|(e & ->)]]]%fares_cases; [done|by apply rows_in_distinct|done].
Qed.

Lemma trace_smooth i log : log_smooth log -> smooth (trace_of i log).
Proof. intros Hs. apply Forall_forall. intros e He%trace_of_elem. by apply (Forall_forall (fun d => slip d.2 = false) log) in He. Qed.

(** One more event: what it does to the claim of each cursor. *)
Lemma turn_step id i e log : in_turn id log -> (forall j, held id (trace_of j log) = true <-> owner id log = Some j) ->
  match claim_mark id e with Some true => owner id log = None | Some false => owner id log = Some i | None => True end ->
  in_turn id ((i, e) :: log) /\ (forall j, held id (trace_of j ((i, e) :: log)) = true <-> owner id ((i, e) :: log) = Some j).
Proof.
  intros Hin Hh He. split; [by split|]. intros j. cbn [owner].
  assert (Hj : held id (trace_of j ((i, e) :: log)) = if decide (i = j) then hold_step id (held id (trace_of i log)) e else held id (trace_of j log)).
  { destruct (decide (i = j)) as [<-|Hne]; [by rewrite trace_of_same, held_snoc|by rewrite trace_of_other]. }
  rewrite Hj. unfold hold_step. destruct (claim_mark id e) as [[]|]; cbn [default]; [| |].
  - destruct (decide (i = j)) as [<-|Hne]; [done|]. rewrite Hh, He. split; [done|]. by intros [= <-].
  - destruct (decide (i = j)) as [<-|Hne]; [done|]. rewrite Hh, He. split; [|done]. by intros [= <-].
  - destruct (decide (i = j)) as [<-|Hne]; apply Hh.
Qed.

Lemma turn_world_keeps (X : Set) i inp (c : ecommand X) w w' x log : eexec X inp c w = Some (w', x) ->
  (Forall (fun e => match e with Ev c x => distinct_rows _ c x end) (trace_of i log) -> held_needs X (trace_of i log) c) ->
  turn_inv w log -> turn_inv w' ((i, @Ev ecommand X c x) :: log).
Proof.
  intros He Hn (Hf & Hd & Hi).
  assert (Hn' : held_needs X (trace_of i log) c).
  { apply Hn, Forall_forall. intros e Hin%trace_of_elem. by apply (Forall_forall (fun d => match d.2 with Ev c x => distinct_rows _ c x end) log) in Hin. }
  assert (Hd' : Forall (fun d => match d.2 with Ev c x => distinct_rows _ c x end) ((i, @Ev ecommand X c x) :: log)) by (constructor; [by eapply exec_distinct|done]).
  destruct (unrelated c) eqn:Hu.
  { destruct (unrelated_stays _ _ _ _ _ _ He Hu Hf) as [Hst Hf']. split; [done|]. split; [done|]. intros Hs id. apply Forall_cons in Hs as [_ Hs].
    destruct (Hi Hs id) as (Hin & Hh & Hsy). assert (Hm : owner id ((i, @Ev ecommand X c x) :: log) = owner id log) by by destruct c.
    destruct (turn_step id i (Ev c x) log Hin Hh) as [Hin' Hh']; [by destruct c|]. split; [done|]. split; [done|].
    rewrite Hm. intros j Ho. destruct (Hsy j Ho) as (cu & Hcu & Hcs). by eapply Hst. }
  destruct c; try done; cbn [eexec] in He.
  - injection He as He. split; [apply fares_cases in He as [[-> _]|[-> _]]; [done|by apply fresh_claim]|]. split; [done|].
    intros Hs cid. apply Forall_cons in Hs as [_ Hs]. destruct (Hi Hs cid) as (Hin & Hh & Hsy).
    assert (Hst : stays_syncing w w') by (apply fares_cases in He as [[-> _]|[-> _]]; [by apply stays_same|apply stays_claim]).
    assert (Hm : claim_mark cid (Ev (ClaimCursor id) x) = None \/ claim_mark cid (Ev (ClaimCursor id) x) = Some true /\ owner cid log = None /\
      exists cu, sw_cursors w' !! cid = Some cu /\ cu_state cu = SYNCING).
    { cbn. destruct x as [n|e]; [|by left]. destruct (decide (id = cid /\ n = 1)) as [[-> ->]|]; [right|by left]. split; [done|].
      apply fares_cases in He as [[_ (e & Hx)]|[-> [Hx|(e & Hx)]]]; [done| |done]. injection Hx as Hx. revert Hx. unfold claim_cursor.
      destruct (sw_cursors w !! cid) as [cu|] eqn:Ecu; [|done]. case_bool_decide as Hcl; [|done]. intros _. split.
      - destruct (owner cid log) as [k|] eqn:Eo; [|done]. destruct (Hsy k eq_refl) as (cu' & Hcu' & Hst'). assert (cu' = cu) as -> by congruence.
        rewrite Hst' in Hcl. exfalso. revert Hcl. unfold CLAIMABLE_ERP_SYNC_STATES. rewrite !elem_of_cons, elem_of_nil. naive_solver.
      - cbn. rewrite lookup_insert_eq. eauto. }
    destruct (turn_step cid i (Ev (ClaimCursor id) x) log Hin Hh) as [Hin' Hh']; [destruct Hm as [->|(-> & Ho & _)]; done|]. split; [done|]. split; [done|].
    rewrite owner_cons. destruct Hm as [->|(-> & _ & Hsyn)]; [|by intros j _]. intros j Ho. destruct (Hsy j Ho) as (cu & Hcu & Hcs). by eapply Hst.
  - injection He as He. split.
    { apply fares_opt_cases in He as [[-> _]|(w1 & Hu1 & -> & _)]; [done|]. by eapply fresh_update. }
    split; [done|]. intros Hs cid. apply Forall_cons in Hs as [_ Hs]. destruct (Hi Hs cid) as (Hin & Hh & Hsy).
    assert (Hm : (cid <> id /\ claim_mark cid (Ev (UpdateCursor id wr) x) = None) \/ (cid = id /\ claim_mark cid (Ev (UpdateCursor id wr) x) = Some false)).
    { cbn. destruct (decide (id = cid)); [right|left]; by split. }
    destruct (turn_step cid i (Ev (UpdateCursor id wr) x) log Hin Hh) as [Hin' Hh'].
    { destruct Hm as [[_ ->]|[-> ->]]; [done|]. apply Hh. cbn in Hn'. by apply Hn', trace_smooth. }
    split; [done|]. split; [done|]. rewrite owner_cons. destruct Hm as [[Hne ->]|[_ ->]]; [|done]. intros j Ho. destruct (Hsy j Ho) as (cu & Hcu & Hcs).
    exists cu. split; [|done]. apply fares_opt_cases in He as [[-> _]|(w1 & Hu1 & -> & _)]; [done|]. revert Hu1. unfold update_cursor.
    destruct (sw_cursors w !! id); [|done]. intros [= <-]. cbn. by rewrite lookup_insert_ne.
Qed.

(** C16: a cursor has one runner.  Take ticks, any number at a time, interleaved
    with one another and with changes of the connections, from any state of the
    tables, with any failures but these: a failed reply to the write of a new
    position, or failed book-keeping after it (the connection's health, the audit
    row).  Between two successful claims of one cursor, the first claimer has
    released it: no two runs spend calls on the same cursor at once.  (A sweep or
    a disconnection ends a claim under its holder; [sweep_ends_claims].) *)
Theorem claims_are_exclusive `{DateParse} pollFloor datasets sha256 dev limit mvs w m :
  fresh_ids w -> tick_moves pollFloor datasets sha256 dev limit mvs w = Some m -> log_smooth (pl_log m) ->
  forall id later between earlier i j,
  pl_log m = later ++ (j, Ev (ClaimCursor id) (Ok 1)) :: between ++ (i, Ev (ClaimCursor id) (Ok 1)) :: earlier ->
  exists wr x, (i, Ev (UpdateCursor id wr) x) ∈ between.
Proof.
  intros Hf Hmv Hs id later between earlier i j Hlog.
  assert (Hinv : pool_ok (tick_program pollFloor datasets sha256 dev limit) m /\ turn_inv (pl_world m) (pl_log m)).
  { eapply (pool_moves_keep _ _ (fun X tr c => Forall (fun e => match e with Ev c x => distinct_rows _ c x end) tr -> held_needs X tr c) turn_inv); [| |exact Hmv|apply pool_of_ok|].
    - intros q tr X c k Hl Hd. pose proof (abides_leads _ _ _ _ _ _ [] Hl Hd (tick_orderly pollFloor datasets sha256 dev limit q [])) as [Hn _]. exact Hn.
    - intros. by eapply turn_world_keeps.
    - split; [done|]. split; [constructor|]. intros _ id0. split; [done|]. split; [|done]. intros k. done. }
  destruct Hinv as [_ (_ & _ & Hi)]. destruct (Hi Hs id) as (Hin & _). rewrite Hlog in Hin.
  apply in_turn_between in Hin as ([X c x] & Hin & Hm); [|cbn; by rewrite decide_True..].
  destruct c; try done; cbn in Hm; [destruct x as [n|]; [case_decide|]; done|]. case_decide as Hid; [|done]. subst id0. eauto.
Qed.

(** ** Examples, and what the code does against its comments *)

Module ClaimRuns.
Import SyncRuns.
#[local] Existing Instance iso_dates.

(** Two ticks, one after the other, with one in between that finds nothing due. *)
Definition tgo (i : nat) (l : list einput) : list (PoolMove TickRequest einput) := P_Step i <$> l.
Definition two_ticks : list (PoolMove TickRequest einput) :=
  P_Start (Q_create (js "c") (js "hubspot")) :: tgo 0 [ok; ok] ++ P_Start (Q_status (js "c") CONNECTED) :: tgo 1 [ok; ok] ++
  P_Start Q_tick :: tgo 2 (upto_read ++ [page [old_contact]]) ++ P_Start Q_tick :: tgo 3 [ok; ok; ok; ok; ids []] ++ tgo 2 after_read ++
  P_Start Q_tick :: tgo 4 upto_read.
Definition ticked := tick_moves (fun _ => None) only_contacts (fun s => s) None 8 two_ticks (empty_sync 1770000000000).

(** The sweep of one connection, its two reads answering the same. *)
Definition sweep_of (cursors : list nat) : list einput := [ok; ok; ok; ids cursors; ok; ok; ok].
Definition sweep_one (rows : list jsval) : list einput := [ok; page rows; ok; page rows; ok; ok; ok].
Definition whole_sweep := P_Start Q_sweep :: go 3 (sweep_of [0%nat] ++ sweep_one [old_contact; new_contact] ++ [ok; ok]).

Definition smooth_log {A R W} (m : Pool ecommand A R W) : bool := forallb (fun d => negb (slip d.2)) (pl_log m).

Lemma mark_is_claim id e : claim_mark id e = Some true -> e = Ev (ClaimCursor id) (Ok 1).
Proof. destruct e as [X c x]. destruct c; try done; cbn; [destruct x as [n|]; [|done]|]; case_decide as Hd; try done. by destruct Hd as [-> ->]. Qed.

Lemma two_claims id (log : list (nat * event ecommand)) a b c i j :
  (fun d => (d.1, claim_mark id d.2)) <$> log = a ++ (j, Some true) :: b ++ (i, Some true) :: c ->
  exists later between earlier, log = later ++ (j, Ev (ClaimCursor id) (Ok 1)) :: between ++ (i, Ev (ClaimCursor id) (Ok 1)) :: earlier.
Proof.
  intros (A & R & _ & Hr & ->)%fmap_app_inv. symmetry in Hr. apply fmap_cons_inv in Hr as ([j' e] & R' & Hj & Hr & ->). symmetry in Hr.
  apply fmap_app_inv in Hr as (B & R2 & _ & Hr & ->). symmetry in Hr. apply fmap_cons_inv in Hr as ([i' e'] & D & Hi & _ & ->). cbn in Hj, Hi.
  injection Hj as <- Hj. injection Hi as <- Hi. symmetry in Hj, Hi. apply mark_is_claim in Hj as ->. apply mark_is_claim in Hi as ->. by exists A, B, D.
Qed.

Lemma fresh_empty now : fresh_ids (empty_sync now).
Proof. intros id [c Hc]. unfold empty_sync in Hc. cbn [sw_cursors] in Hc. by rewrite lookup_empty in Hc. Qed.

(** What is done between the two claims. *)
Definition turns_between : list (nat * option bool) :=
  repeat (4%nat, None) 5 ++ repeat (2%nat, None) 3 ++ (2%nat, Some false) :: (2%nat, None) :: repeat (3%nat, None) 5 ++ repeat (2%nat, None) 6.

Lemma claims_are_exclusive_witness : exists m, ticked = Some m /\ exists wr x, (2%nat, Ev (UpdateCursor 0 wr) x) ∈ pl_log m.
Proof.
  assert (Hx : (fun m => ((fun d => (d.1, claim_mark 0 d.2)) <$> pl_log m, smooth_log m)) <$> ticked =
    Some (repeat (4%nat, None) 5 ++ (4%nat, Some true) :: turns_between ++
          (2%nat, Some true) :: repeat (2%nat, None) 5 ++ [(1%nat, None); (0%nat, None)], true)) by (vm_compute; reflexivity).
  destruct ticked as [m|] eqn:E; [|discriminate Hx]. injection Hx as Hl Hs.
  apply (two_claims 0 (pl_log m) (repeat (4%nat, None) 5) turns_between (repeat (2%nat, None) 5 ++ [(1%nat, None); (0%nat, None)]) 2 4) in Hl as (later & between & earlier & Hl).
  exists m. split; [reflexivity|]. unfold ticked in E. assert (Hsm : log_smooth (pl_log m)).
  { apply Forall_forall. intros d Hd%list_elem_of_In. unfold smooth_log in Hs. rewrite forallb_forall in Hs. apply Hs in Hd. by apply negb_true_iff in Hd. }
  destruct (claims_are_exclusive _ _ _ _ _ _ _ m (fresh_empty _) E Hsm 0%nat later between earlier 2%nat 4%nat Hl) as (wr & x & Hin).
  exists wr, x. rewrite Hl. apply elem_of_app. right. right. apply elem_of_app. by left.
Defined.

(** The sweep does not claim what it reads and releases: a tick's claim is ended
    under it, and another tick reads the same cursor at the same time. *)
Lemma sweep_ends_claims :
  (fun m => (held 0 (trace_of 2 (pl_log m)), held 0 (trace_of 4 (pl_log m)), smooth_log m)) <$>
  runs_of only_contacts (P_Start (Q_work Q_tick) :: go 2 upto_read ++ whole_sweep ++ P_Start (Q_work Q_tick) :: go 4 upto_read) =
  Some (true, true, true).
Proof. vm_compute. reflexivity. Qed.

(** The release is unconditional: a tick that read before the sweep moves the
    position back when it ends after it. *)
Lemma stale_tick_moves_back :
  let before := P_Start (Q_work Q_tick) :: go 2 upto_read ++ whole_sweep in
  cursor_of 0 <$> runs_of only_contacts before = Some (Some (IDLE, Some (js "2026-02-01T00:00:00.000Z"))) /\
  cursor_of 0 <$> runs_of only_contacts (before ++ go 2 (page [old_contact] :: after_read)) = Some (Some (IDLE, Some (js "2026-01-01T00:00:00.000Z"))).
Proof. split; vm_compute; reflexivity. Qed.

(** A cursor that was read, landed and moved is parked as failed for good when
    the audit row cannot be written. *)
Lemma audit_failure_parks_synced :
  cursor_of 0 <$> runs_of only_contacts (P_Start (Q_work Q_tick) :: go 2 (upto_read ++ [page [new_contact]; ok; ok; ok; throws db_error; ok; ok; ok; ok])) =
  Some (Some (FAILED, Some (js "2026-02-01T00:00:00.000Z"))).
Proof. vm_compute. reflexivity. Qed.

(** A page that was read but could not be stored is not retried. *)
Lemma landing_failure_is_fatal :
  cursor_of 0 <$> runs_of only_contacts (P_Start (Q_work Q_tick) :: go 2 (upto_read ++ [page [new_contact]; throws db_error; ok; ok; ok; ok])) =
  Some (Some (FAILED, None)) /\ sf_code (asSyncFailure db_error) <> Some (js "HANDLER_FAILED").
Proof. split; [vm_compute; reflexivity|done]. Qed.

(** A [Retry-After] past the range of dates makes the release throw: its cursor
    and every other one the tick had claimed stay claimed, by nobody. *)
Definition both_served : list (PoolMove SyncRequest einput) :=
  P_Start (Q_work Q_tick) :: go 2 ([ok; ok; ok; ok; ok; ids [0%nat; 1%nat]; ok; ok; ok; ok; ok; throws (throttled "9000000000000"); ok; ok; ok]).

Lemma claims_left_behind :
  (fun m => (cursor_of 0 m, cursor_of 1 m, pl_running m !! 2%nat, bool_decide (is_Some (pl_done m !! 2%nat)))) <$> runs_of served both_served =
  Some (Some (SYNCING, None), Some (SYNCING, None), None, true).
Proof. vm_compute. reflexivity. Qed.

(** A failure after a drift was noted is written to another cursor: when the last
    drift row cannot be stored, to the first cursor, which has just been read,
    landed and released; the one it happened to is left as it was. *)
Lemma sweep_blames_another :
  (fun m => (cursor_of 0 m, cursor_of 1 m)) <$>
  runs_of served (P_Start (Q_work Q_tick) :: go 2 [ok; ok; ok] ++ P_Start Q_sweep ::
    go 3 (sweep_of [0%nat; 1%nat] ++ sweep_one [new_contact] ++ [ok; page [a_company]; ok; page [a_company]; ok; throws db_error; ok; ok; ok; ok])) =
  Some (Some (FAILED, Some (js "2026-02-01T00:00:00.000Z")), Some (IDLE, None)).
Proof. vm_compute. reflexivity. Qed.
End ClaimRuns.
