(* ===== verification/SlaSweep.v ===== *)
(** * SlaSweep: the walk over all tickets
      (apps/orchestrator/src/services/support/sla-clock.service.ts,
       sweepTicketSlas, and sla-runtime.ts)

    The desk's tickets, the cursor kept in a system flag, and the bounded walk
    that runs every minute: five pages of a hundred tickets from the cursor,
    in the order of their ids.  Each ticket is synchronised in its own
    transaction; an error ends the sweep where it is. *)

From S2P Require Import Prelude JsNum Json DateTime ZonedTime BusinessTime Sla.

Local Open Scope Z_scope.

(** ** State *)

Record Desk := mkDesk {
  dk_items : list (jsstr * WorkItem);
  dk_log : list Activity;
  (** The [pm-sla:scan-cursor] flag's value. *)
  dk_cursor : option jsval
}.

Inductive SweepError := UnreadableCursor | SyncFailed (e : SlaError).

Definition PAGE_SIZE : nat := 100.
Definition PAGES : nat := 5.

(** The [where] of the page query. *)
Definition is_due (w : WorkItem) : bool :=
  match wi_ticket w with
  | Some t => negb (bool_decide (tk_slaStatus t ∈ [S_NONE; S_MET])) && negb (wi_archived w) && wi_serviceDesk w && negb (wi_projectArchived w)
  | None => false
  end.

(** [findMany]: due tickets after the cursor, in the order of their ids. *)
Definition due_after (items : list (jsstr * WorkItem)) (cursor : jsstr) : list jsstr :=
  fst <$> sort_entries (filter (fun e : jsstr * WorkItem => str_ltb cursor e.1 && is_due e.2) items).

Definition find_page (items : list (jsstr * WorkItem)) (cursor : jsstr) : list jsstr :=
  take PAGE_SIZE (due_after items cursor).

Fixpoint set_item (id : jsstr) (w : WorkItem) (items : list (jsstr * WorkItem)) : list (jsstr * WorkItem) :=
  match items with
  | [] => []
  | e :: r => if decide (e.1 = id) then (id, w) :: r else e :: set_item id w r
  end.

(** The activities whose arrival resynchronises a ticket, and the event they
    mean ([registerOutboxConsumer]). *)
Definition outbox_event (verb : string) (field : option string) : option SlaEvent :=
  if existsb (String.eqb verb) ["created"; "state_changed"; "updated"; "commented"]%string then
    Some (if String.eqb verb "created" then E_create
          else if String.eqb verb "updated" && bool_decide (field = Some "priority"%string) then E_priority else E_tick)
  else None.

Section sweep.
Context `{Intl}.
(** The eligibility check of an assignee, and the policy row of a ticket's project. *)
Context (assertAgent : jsstr -> AgentCheck) (policy_of : jsstr -> option PolicyRow).

Abbreviation sweep_handler := (handler Desk SweepError).

(** [prisma.$transaction((tx) => syncTicketSla(tx, id, now, "tick"))] *)
Definition sync_ticket (now : Z) (id : jsstr) : sweep_handler unit := fun d =>
  match alookup id (dk_items d) with
  | None => (d, Ok tt)
  | Some w =>
      match syncTicketSla assertAgent (policy_of id) now E_tick (mkTx w []) with
      | (s', Ok _) => (mkDesk (set_item id (tx_row s') (dk_items d)) (dk_log d ++ tx_activities s') (dk_cursor d), Ok tt)
      | (_, Throw e) => (d, Throw (SyncFailed e))
      end
  end.

Fixpoint sync_tickets (now : Z) (ids : list jsstr) : sweep_handler unit :=
  match ids with [] => hret tt | id :: r => run! sync_ticket now id; sync_tickets now r end.

Definition put_cursor (cursor : jsstr) : sweep_handler unit := fun d =>
  (mkDesk (dk_items d) (dk_log d) (Some (JStr cursor)), Ok tt).

(** The turns of the loop over the pages; the tickets checked. *)
Fixpoint sweep_pages (pages : nat) (now : Z) (cursor : jsstr) : sweep_handler (list jsstr) :=
  match pages with
  | O => hret []
  | S pages =>
      do! d <- hget;
      let rows := find_page (dk_items d) cursor in
      run! sync_tickets now rows;
      let cursor := if Nat.ltb (length rows) PAGE_SIZE then [] else default [] (last rows) in
      run! put_cursor cursor;
      if Nat.ltb (length rows) PAGE_SIZE then hret rows
      else do! more <- sweep_pages pages now cursor; hret (rows ++ more)
  end.

(** The number the code answers is the length of the list. *)
Definition sweepTicketSlas (now : Z) : sweep_handler (list jsstr) :=
  do! d <- hget;
  match dk_cursor d with
  | None => sweep_pages PAGES now []
  | Some (JStr cursor) => sweep_pages PAGES now cursor
  | Some _ => hthrow UnreadableCursor
  end.
End sweep.

(** ** Counting the tickets ahead *)

Definition ids (d : Desk) : list jsstr := (dk_items d).*1.

(** The tickets of [U] after [c] that [Q] holds of. *)
Definition ahead (Q : jsstr -> bool) (U : list jsstr) (c : jsstr) : nat :=
  length (filter (fun u => str_ltb c u && Q u) U).

Lemma ahead_le Q U c : (ahead Q U c <= length U)%nat.
Proof. apply length_filter. Qed.

Lemma str_ltb_asym a b : str_ltb a b = true -> str_ltb b a = false.
Proof.
  intros Hab. destruct (str_ltb b a) eqn:E; [|done]. pose proof (str_ltb_trans _ _ _ Hab E) as Haa.
  by rewrite str_ltb_irrefl in Haa.
Qed.

(** Passing over [rows] leaves fewer tickets ahead. *)
Lemma ahead_pass Q U c c' rows : NoDup rows -> NoDup U ->
  (forall r, r ∈ rows -> r ∈ U /\ str_ltb c r = true /\ Q r = true /\ str_ltb c' r = false) -> str_ltb c c' = true ->
  (length rows + ahead Q U c' <= ahead Q U c)%nat.
Proof.
  intros Hr HU Hrows Hc. unfold ahead. rewrite <- length_app. apply submseteq_length, NoDup_submseteq.
  - apply NoDup_app. split_and!; [done| |by apply NoDup_filter].
    intros r Hin (Hf & _)%list_elem_of_filter. destruct (Hrows r Hin) as (_ & _ & _ & Hn). rewrite Hn in Hf. done.
  - intros r [Hin|Hin]%elem_of_app; apply list_elem_of_filter.
    + destruct (Hrows r Hin) as (? & -> & -> & _). done.
    + apply list_elem_of_filter in Hin as [Hf Hin]. apply Is_true_true, andb_prop in Hf as [H1 H2].
      split; [|done]. by rewrite (str_ltb_trans _ _ _ Hc H1), H2.
Qed.

(** ** Pages *)

Lemma due_after_sorted items cursor : NoDup items.*1 ->
  StronglySorted (fun a b => str_ltb a b = true) (due_after items cursor).
Proof.
  intros Hnd. unfold due_after. set (l := filter _ items).
  assert (Hl : NoDup l.*1) by (by apply filter_NoDup_fst).
  pose proof (sort_entries_sorted l Hl) as Hs. induction Hs as [|e k Hs IH He]; [constructor|]. csimpl.
  constructor; [done|]. apply Forall_fmap. exact He.
Qed.

Lemma elem_of_due_after items cursor id : id ∈ due_after items cursor <->
  str_ltb cursor id = true /\ exists w, (id, w) ∈ items /\ is_due w = true.
Proof.
  unfold due_after. rewrite list_elem_of_fmap. setoid_rewrite sort_entries_perm. setoid_rewrite list_elem_of_filter.
  split.
  - intros ([i w] & -> & Hf & Hin). apply Is_true_true, andb_prop in Hf as [H1 H2]. cbn [fst snd] in *. eauto.
  - intros (Hc & w & Hin & Hd). exists (id, w). split; [done|]. split; [|done]. cbn [fst snd]. by rewrite Hc, Hd.
Qed.

(** A page is the first of what is due: either it lists [x], or it is full of
    tickets before it. *)
Lemma page_before items cursor x : NoDup items.*1 -> x ∈ due_after items cursor ->
  x ∉ find_page items cursor ->
  length (find_page items cursor) = PAGE_SIZE /\ forall r, r ∈ find_page items cursor -> str_ltb r x = true.
Proof.
  intros Hnd Hx Hno. unfold find_page in *. pose proof (due_after_sorted items cursor Hnd) as Hs.
  set (l := due_after items cursor) in *. rewrite <- (take_drop PAGE_SIZE l) in Hx, Hs.
  apply elem_of_app in Hx as [|Hx]; [done|]. split.
  - rewrite length_take. assert (length (drop PAGE_SIZE l) <> 0)%nat by (destruct (drop PAGE_SIZE l); [by apply elem_of_nil in Hx|done]).
    rewrite length_drop in *. lia.
  - intros r Hr. by apply (StronglySorted_app_1_elem_of _ _ _ _ _ Hs).
Qed.

Lemma find_page_elem items cursor id : id ∈ find_page items cursor -> id ∈ due_after items cursor.
Proof. intros Hin. apply (list_elem_of_lookup_1 _ _) in Hin as [i Hi]. apply lookup_take_Some in Hi as [Hi _]. by apply list_elem_of_lookup_2 in Hi. Qed.

Lemma find_page_NoDup items cursor : NoDup items.*1 -> NoDup (find_page items cursor).
Proof.
  intros Hnd. eapply sublist_NoDup; [|apply sublist_take]. pose proof (due_after_sorted items cursor Hnd) as Hs.
  induction Hs as [|a l Hs IH Ha]; [constructor|]. constructor; [|done]. intros Hin.
  rewrite Forall_forall in Ha. specialize (Ha a Hin). by rewrite str_ltb_irrefl in Ha.
Qed.

(** The last of a page is after all the others. *)
Lemma find_page_last items cursor r0 r : NoDup items.*1 -> last (find_page items cursor) = Some r0 ->
  r ∈ find_page items cursor -> str_ltb r0 r = false.
Proof.
  intros Hnd Hlast Hr. unfold find_page in *. pose proof (due_after_sorted items cursor Hnd) as Hs.
  rewrite <- (take_drop PAGE_SIZE (due_after items cursor)) in Hs. apply StronglySorted_app_1_l in Hs.
  set (l := take PAGE_SIZE (due_after items cursor)) in *. apply last_Some in Hlast as [k Hk]. rewrite Hk in Hs, Hr.
  apply elem_of_app in Hr as [Hr| ->%list_elem_of_singleton]; [|by apply str_ltb_irrefl].
  apply str_ltb_asym. apply (StronglySorted_app_1_elem_of _ _ _ _ _ Hs); [done|by left].
Qed.

(** ** Synchronising does not disturb the others *)

Lemma set_item_ids id w items : (set_item id w items).*1 = items.*1.
Proof. induction items as [|e r IH]; csimpl; [done|]. case_decide; csimpl; congruence. Qed.

Lemma set_item_other id w items x v : x <> id -> (x, v) ∈ set_item id w items <-> (x, v) ∈ items.
Proof.
  intros Hne. induction items as [|e r IH]; cbn [set_item]; [done|]. case_decide as E.
  - rewrite !elem_of_cons. split; intros [Heq|?]; [congruence|by right|subst e; by cbn in *|by right].
  - rewrite !elem_of_cons, IH. done.
Qed.

Section quiet.
Context `{Intl} (assertAgent : jsstr -> AgentCheck) (policy_of : jsstr -> option PolicyRow).

(** The desk [d'] after work on the tickets [l] of [d]. *)
Definition untouched (l : list jsstr) (d d' : Desk) : Prop :=
  ids d' = ids d /\ dk_cursor d' = dk_cursor d /\
  forall x v, x ∉ l -> (x, v) ∈ dk_items d' <-> (x, v) ∈ dk_items d.

Lemma sync_ticket_untouched now id d : untouched [id] d (sync_ticket assertAgent policy_of now id d).1.
Proof.
  unfold sync_ticket. destruct (alookup id (dk_items d)) as [w|]; [|done].
  destruct (syncTicketSla _ _ _ _ _) as [s' [[]|e]]; [|done]. split_and!; [apply set_item_ids|done|].
  intros x v Hx. apply set_item_other. set_solver.
Qed.

Lemma sync_tickets_untouched now l : forall d, untouched l d (sync_tickets assertAgent policy_of now l d).1.
Proof.
  induction l as [|id l IH]; intros d; [done|]. cbn [sync_tickets]. unfold hbind.
  pose proof (sync_ticket_untouched now id d) as (H1 & H2 & H3).
  destruct (sync_ticket assertAgent policy_of now id d) as [d1 [[]|e]]; cbn [fst] in *.
  - destruct (IH d1) as (H4 & H5 & H6). split_and!; [congruence..|].
    intros x v Hx. rewrite H6 by set_solver. apply H3. set_solver.
  - split_and!; [done..|]. intros x v Hx. apply H3. set_solver.
Qed.
End quiet.

(** ** The walk comes round *)

Definition before (x c : jsstr) : bool := str_ltb c x.

(** How many pages may pass before [x] is checked. *)
Definition pages_to (x : jsstr) (U : list jsstr) (c : jsstr) : nat :=
  if before x c then ahead (before x) U c / PAGE_SIZE + 1
  else ahead (fun _ => true) U c / PAGE_SIZE + 1 + (length U / PAGE_SIZE + 1).

Lemma div_page_le a b : (a <= b -> a / PAGE_SIZE <= b / PAGE_SIZE)%nat.
Proof. intros. by apply Nat.Div0.div_le_mono. Qed.

Lemma div_page_lt a b : (PAGE_SIZE + a <= b -> a / PAGE_SIZE < b / PAGE_SIZE)%nat.
Proof.
  intros Hab. apply div_page_le in Hab. replace (PAGE_SIZE + a)%nat with (a + 1 * PAGE_SIZE)%nat in Hab by lia.
  rewrite Nat.div_add in Hab by done. lia.
Qed.

Lemma pages_to_bound x U c : (pages_to x U c <= 2 * (length U / PAGE_SIZE + 1))%nat.
Proof.
  unfold pages_to. pose proof (div_page_le _ _ (ahead_le (before x) U c)).
  pose proof (div_page_le _ _ (ahead_le (fun _ => true) U c)). case_match; lia.
Qed.

(** What holds of the desk while the ticket [x] is due. *)
Definition waiting (x : jsstr) (U : list jsstr) (d : Desk) : Prop :=
  NoDup (ids d) /\ (forall i, i ∈ ids d -> i ∈ U) /\ exists w, (x, w) ∈ dk_items d /\ is_due w = true.

Definition next_cursor (rows : list jsstr) : jsstr := if Nat.ltb (length rows) PAGE_SIZE then [] else default [] (last rows).

Lemma page_progress x U d c : NoDup U -> x <> [] -> waiting x U d -> x ∉ find_page (dk_items d) c ->
  (pages_to x U (next_cursor (find_page (dk_items d) c)) < pages_to x U c)%nat.
Proof.
  intros HU Hx (Hnd & Hin & w & Hw & Hdue) Hno. set (rows := find_page (dk_items d) c) in *.
  assert (Hrow : forall r, r ∈ rows -> r ∈ U /\ str_ltb c r = true).
  { intros r Hr%find_page_elem%elem_of_due_after. destruct Hr as (Hc & v & Hv & _). split; [|done].
    apply Hin. unfold ids. by apply (list_elem_of_fmap_2 fst _ (r, v)). }
  assert (Hlast : forall n, length rows = S n -> exists r0, last rows = Some r0 /\ r0 ∈ rows /\ str_ltb c r0 = true /\
    forall r, r ∈ rows -> str_ltb r0 r = false).
  { intros n Hn. destruct (last rows) as [r0|] eqn:El; [|apply last_None in El; by rewrite El in Hn].
    assert (Hr0 : r0 ∈ rows) by (apply last_Some in El as [k ->]; set_solver).
    exists r0. split_and!; [done..|by apply Hrow|]. intros r. by apply (find_page_last (dk_items d) c). }
  assert (Hnd' : NoDup rows) by by apply find_page_NoDup. unfold next_cursor.
  destruct (before x c) eqn:Ec.
  - destruct (page_before (dk_items d) c x Hnd) as [Hlen Hbef]; [|done|].
    { apply elem_of_due_after. split; [done|]. by exists w. }
    fold rows in Hlen, Hbef. rewrite Hlen, Nat.ltb_irrefl. destruct (Hlast 99%nat Hlen) as (r0 & -> & Hr0 & Hc0 & Hmax). cbn [default from_option id].
    assert (Hb0 : before x r0 = true) by exact (Hbef r0 Hr0). unfold pages_to.
    rewrite Ec, Hb0.
    assert (Hp : (length rows + ahead (before x) U r0 <= ahead (before x) U c)%nat).
    { apply ahead_pass; try done. intros r Hr. destruct (Hrow r Hr). split_and!; try done; [by apply Hbef|by apply Hmax]. }
    rewrite Hlen in Hp. apply div_page_lt in Hp. lia.
  - unfold pages_to at 2. rewrite Ec. destruct (Nat.ltb (length rows) PAGE_SIZE) eqn:El.
    + assert (Hb0 : before x [] = true) by (by destruct x). unfold pages_to. rewrite Hb0.
      pose proof (div_page_le _ _ (ahead_le (before x) U [])). lia.
    + apply Nat.ltb_ge in El.
      assert (Hlen : length rows = PAGE_SIZE) by (unfold rows, find_page in *; rewrite length_take in *; lia).
      destruct (Hlast 99%nat Hlen) as (r0 & -> & Hr0 & Hc0 & Hmax). cbn [default from_option id].
      assert (Hp : (length rows + ahead (fun _ => true) U r0 <= ahead (fun _ => true) U c)%nat).
      { apply ahead_pass; try done. intros r Hr. destruct (Hrow r Hr). split_and!; try done. by apply Hmax. }
      rewrite Hlen in Hp. apply div_page_lt in Hp. unfold pages_to. destruct (before x r0); [|lia].
      pose proof (div_page_le _ _ (ahead_le (before x) U r0)). lia.
Qed.

Section fair.
Context `{Intl} (assertAgent : jsstr -> AgentCheck) (policy_of : jsstr -> option PolicyRow).
Context (x : jsstr) (U : list jsstr).
Hypothesis HU : NoDup U.
Hypothesis Hx : x <> [].

Lemma untouched_waiting l d d' : x ∉ l -> untouched l d d' -> waiting x U d -> waiting x U d'.
Proof.
  intros Hno (Hi & _ & Ho) (Hnd & Hin & w & Hw & Hdue). unfold waiting. rewrite Hi. split_and!; [done..|].
  exists w. split; [|done]. by apply Ho.
Qed.

Lemma sweep_pages_progress now pages : forall c d d' rows,
  sweep_pages assertAgent policy_of pages now c d = (d', Ok rows) -> waiting x U d -> x ∉ rows ->
  waiting x U d' /\ (pages = O -> d' = d) /\
  (pages <> O -> exists c', dk_cursor d' = Some (JStr c') /\ (pages_to x U c' < pages_to x U c)%nat).
Proof.
  induction pages as [|pages IH]; intros c d d' rows; cbn [sweep_pages].
  { intros [= <- <-] Hw _. done. }
  rewrite hget_bind. cbv zeta. set (page := find_page (dk_items d) c). intros Hrun Hw Hno.
  pose proof (sync_tickets_untouched assertAgent policy_of now page d) as Hun.
  apply hbind_ok in Hrun as (? & d1 & Hsync & Hrun). rewrite Hsync in Hun. cbn [fst] in Hun.
  apply hbind_ok in Hrun as (? & d2 & [= <-] & Hrun). fold (next_cursor page) in Hrun.
  assert (Hpage : x ∉ page).
  { destruct (Nat.ltb (length page) PAGE_SIZE); [by injection Hrun as _ <-|].
    apply hbind_ok in Hrun as (more & d3 & _ & [= _ <-]). set_solver. }
  pose proof (page_progress x U d c HU Hx Hw Hpage) as Hp. fold page in Hp.
  apply (untouched_waiting _ _ _ Hpage Hun) in Hw.
  set (d2 := mkDesk (dk_items d1) (dk_log d1) (Some (JStr (next_cursor page)))) in *.
  assert (Hw2 : waiting x U d2) by exact Hw.
  destruct (Nat.ltb (length page) PAGE_SIZE).
  - injection Hrun as <- <-. split_and!; [done..|]. intros _. by exists (next_cursor page).
  - apply hbind_ok in Hrun as (more & d3 & Hmore & [= <- <-]).
    destruct (IH _ _ _ _ Hmore Hw2) as (Hw3 & H0 & Hn); [set_solver|]. split_and!; [done..|]. intros _.
    destruct pages as [|pages]; [rewrite H0 by done; by exists (next_cursor page)|].
    destruct (Hn ltac:(done)) as (c' & Hc' & Hlt). exists c'. split; [done|lia].
Qed.
End fair.

Definition cursor_text (d : Desk) : jsstr := match dk_cursor d with Some (JStr c) => c | _ => [] end.
Definition cursor_readable (d : Desk) : Prop := match dk_cursor d with None | Some (JStr _) => True | Some _ => False end.

(** What other writers do between two sweeps while [x] is due: anything to the
    tickets of [U], but the cursor is the sweep's own. *)
Definition others (x : jsstr) (U : list jsstr) (d d' : Desk) : Prop := dk_cursor d' = dk_cursor d /\ waiting x U d'.

(** Completed sweeps, with the tickets each one checked. *)
Inductive sweeps `{Intl} assertAgent policy_of (x : jsstr) (U : list jsstr) : list (list jsstr) -> Desk -> Desk -> Prop :=
| sweeps_nil d : sweeps assertAgent policy_of x U [] d d
| sweeps_cons now rows tr d d1 d2 d3 :
    others x U d d1 -> sweepTicketSlas assertAgent policy_of now d1 = (d2, Ok rows) ->
    sweeps assertAgent policy_of x U tr d2 d3 -> sweeps assertAgent policy_of x U (rows :: tr) d d3.

Lemma sweeps_progress `{Intl} assertAgent policy_of x U tr d d' : NoDup U -> x <> [] ->
  sweeps assertAgent policy_of x U tr d d' -> Forall (fun rows => x ∉ rows) tr ->
  (length tr + pages_to x U (cursor_text d') <= pages_to x U (cursor_text d))%nat.
Proof.
  intros HU Hx. induction 1 as [d|now rows tr d d1 d2 d3 [Hc Hw] Hsweep _ IH]; intros Hno; [simpl; lia|].
  apply Forall_cons in Hno as [Hr Hno]. specialize (IH Hno). cbn [length].
  unfold sweepTicketSlas in Hsweep. rewrite hget_bind in Hsweep.
  assert (Hrun : sweep_pages assertAgent policy_of PAGES now (cursor_text d) d1 = (d2, Ok rows)).
  { unfold cursor_text. rewrite <- Hc. by destruct (dk_cursor d1) as [[]|]. }
  destruct (sweep_pages_progress assertAgent policy_of x U HU Hx now _ _ _ _ _ Hrun Hw Hr) as (_ & _ & Hn).
  destruct (Hn ltac:(done)) as (c' & Hc' & Hlt). unfold cursor_text in IH at 2. rewrite Hc' in IH. lia.
Qed.

(** C13: The sweep starves nobody.  While a ticket is due, and however the
    others are created, moved, settled or removed in between, as long as all
    tickets of the desk are among some [U], it is checked within
    2 (|U|/100 + 1) completed sweeps, wherever the cursor stood. *)
Theorem due_ticket_is_checked `{Intl} assertAgent policy_of x U tr d d' :
  NoDup U -> x <> [] -> sweeps assertAgent policy_of x U tr d d' ->
  (2 * (length U / PAGE_SIZE + 1) <= length tr)%nat -> Exists (fun rows => x ∈ rows) tr.
Proof.
  intros HU Hx Hs Hlen. destruct (decide (Exists (fun rows => x ∈ rows) tr)) as [|Hno]; [done|exfalso].
  apply not_Exists_Forall in Hno; [|intros rows; apply _].
  pose proof (sweeps_progress _ _ _ _ _ _ _ HU Hx Hs Hno) as Hp. pose proof (pages_to_bound x U (cursor_text d)).
  assert (1 <= pages_to x U (cursor_text d'))%nat by (unfold pages_to; case_match; lia). lia.
Qed.

(** Two tickets of one desk, one of them at risk of nothing. *)
Definition due_row (status : SlaStatus) (terms : SlaTerms) : WorkItem :=
  mkItem true false false 0 P_high (Some C_RUNNING) [] (Some (mkTicket None None 0 None status (Some terms) None None None)).
Definition hour_terms : SlaTerms := mkTerms (Some P_high) (Some 60) None None 75 None None 0 [].
Definition two_tickets : Desk := mkDesk [(js "t2", due_row S_ON_TRACK hour_terms); (js "t1", due_row S_ON_TRACK hour_terms)] [] None.
Definition no_policy (id : jsstr) : option PolicyRow := None.

Lemma due_ticket_is_checked_witness :
  let sweep now d := @sweepTicketSlas (intl_of ny_off) all_agents no_policy (now * MS_MINUTE) d in
  let d1 := (sweep 1 two_tickets).1 in
  Exists (fun rows => js "t2" ∈ rows) [[js "t1"; js "t2"]; [js "t1"; js "t2"]].
Proof.
  intros sweep d1.
  apply (@due_ticket_is_checked (intl_of ny_off) all_agents no_policy (js "t2") [js "t1"; js "t2"]
           [[js "t1"; js "t2"]; [js "t1"; js "t2"]] two_tickets (sweep 61 d1).1).
  - by apply (bool_decide_unpack (NoDup [js "t1"; js "t2"])).
  - done.
  - assert (Hw : forall w v c l, is_due w = true -> others (js "t2") [js "t1"; js "t2"]
      (mkDesk [(js "t2", w); (js "t1", v)] l c) (mkDesk [(js "t2", w); (js "t1", v)] l c)).
    { intros w v c l Hw. split; [done|]. split_and!; [by apply (bool_decide_unpack (NoDup [js "t2"; js "t1"]))|set_solver|].
      exists w. split; [left|done]. }
    eapply (sweeps_cons _ _ _ _ (1 * MS_MINUTE) _ _ _ two_tickets d1).
    + apply Hw. reflexivity.
    + vm_compute. reflexivity.
    + eapply (sweeps_cons _ _ _ _ (61 * MS_MINUTE) _ _ _ d1 (sweep 61 d1).1); [| |apply sweeps_nil].
      * assert (E : exists w v c l, d1 = mkDesk [(js "t2", w); (js "t1", v)] l c /\ is_due w = true)
          by (vm_compute; do 4 eexists; split; reflexivity).
        destruct E as (w & v & c & l & -> & E). by apply Hw.
      * vm_compute. reflexivity.
  - vm_compute. done.
Defined.

(** ** A ticket that cannot be synchronised stops the walk *)

Section blocked.
Context `{Intl} (assertAgent : jsstr -> AgentCheck) (policy_of : jsstr -> option PolicyRow).

(** The synchronisation of the row [w] of [p] throws at [now]. *)
Definition cannot_sync (p : jsstr) (w : WorkItem) (now : Z) : Prop :=
  exists s e, syncTicketSla assertAgent (policy_of p) now E_tick (mkTx w []) = (s, Throw e).

Lemma alookup_set_item id w items x : x <> id -> alookup x (set_item id w items) = alookup x items.
Proof.
  intros Hne. induction items as [|[i v] r IH]; [done|]. cbn [set_item]. case_decide as E; cbn [fst] in E; cbn [alookup].
  - subst i. by rewrite !decide_False.
  - by rewrite IH.
Qed.

Lemma untouched_refl l d : untouched l d d.
Proof. done. Qed.

Lemma untouched_sub l l' d d' : (forall y, y ∈ l -> y ∈ l') -> untouched l d d' -> untouched l' d d'.
Proof. intros Hs (H1 & H2 & H3). split_and!; [done..|]. intros y v Hy. apply H3. auto. Qed.

Lemma untouched_trans l d1 d2 d3 : untouched l d1 d2 -> untouched l d2 d3 -> untouched l d1 d3.
Proof.
  intros (H1 & H2 & H3) (H4 & H5 & H6). split_and!; [congruence..|]. intros y v Hy. by rewrite H6, H3.
Qed.

(** A failed ticket's transaction leaves the desk as it was. *)
Lemma sync_ticket_throws now id d d' e : sync_ticket assertAgent policy_of now id d = (d', Throw e) -> d' = d.
Proof.
  unfold sync_ticket. destruct (alookup id (dk_items d)); [|done].
  destruct (syncTicketSla _ _ _ _ _) as [s' [[]|e']]; [done|]. by intros [= <- _].
Qed.

Lemma sync_ticket_keeps now id d p w : id <> p -> alookup p (dk_items d) = Some w ->
  alookup p (dk_items (sync_ticket assertAgent policy_of now id d).1) = Some w.
Proof.
  intros Hne Hp. unfold sync_ticket. destruct (alookup id (dk_items d)); [|done].
  destruct (syncTicketSla _ _ _ _ _) as [s' [[]|e]]; [|done]. cbn. by rewrite alookup_set_item.
Qed.

(** Work does not get past [p]: it throws, and only tickets before [p] in the
    page were touched. *)
Lemma sync_tickets_blocked now p w l : forall d, alookup p (dk_items d) = Some w -> cannot_sync p w now -> p ∈ l ->
  exists l1 l2 d' e, l = l1 ++ p :: l2 /\ sync_tickets assertAgent policy_of now l d = (d', Throw e) /\
    untouched l1 d d' /\ alookup p (dk_items d') = Some w.
Proof.
  induction l as [|id l IH]; intros d Hp Hf Hin; [by apply elem_of_nil in Hin|].
  cbn [sync_tickets]. unfold hbind. destruct (decide (id = p)) as [->|Hne].
  - exists [], l, d. unfold sync_ticket. rewrite Hp. destruct Hf as (s & e & ->). by exists (SyncFailed e).
  - apply elem_of_cons in Hin as [?|Hin]; [done|].
    pose proof (sync_ticket_untouched assertAgent policy_of now id d) as Hun.
    pose proof (sync_ticket_keeps now id d p w Hne Hp) as Hp1.
    destruct (sync_ticket assertAgent policy_of now id d) as [d1 [[]|e]] eqn:Es; cbn [fst] in *.
    + destruct (IH d1 Hp1 Hf Hin) as (l1 & l2 & d' & e & -> & -> & Hun' & Hp'). exists (id :: l1), l2, d', e.
      split_and!; [done..| |done]. apply (untouched_trans _ _ d1); (eapply untouched_sub; [|eassumption]); set_solver.
    + apply sync_ticket_throws in Es as ->. apply list_elem_of_split in Hin as (l1 & l2 & ->).
      exists (id :: l1), l2, d, e. split_and!; [done..|apply untouched_refl|done].
Qed.

(** The desk is stuck on [p], the [w] of fewer than a hundred tickets after
    the cursor. *)
Definition stuck (p : jsstr) (w : WorkItem) (d : Desk) : Prop :=
  NoDup (ids d) /\ cursor_readable d /\ str_ltb (cursor_text d) p = true /\
  alookup p (dk_items d) = Some w /\ is_due w = true /\
  (length (filter (fun i => str_ltb (cursor_text d) i && str_ltb i p) (ids d)) < PAGE_SIZE)%nat.

Lemma stuck_page p w d : stuck p w d -> p ∈ find_page (dk_items d) (cursor_text d).
Proof.
  intros (Hnd & _ & Hc & Hp & Hdue & Hlen). destruct (decide (p ∈ find_page (dk_items d) (cursor_text d))) as [|Hno]; [done|exfalso].
  destruct (page_before (dk_items d) (cursor_text d) p Hnd) as [Hl Hb]; [|done|].
  { apply elem_of_due_after. split; [done|]. exists w. split; [by apply alookup_elem|done]. }
  assert (Hsub : find_page (dk_items d) (cursor_text d) ⊆+ filter (fun i => str_ltb (cursor_text d) i && str_ltb i p) (ids d)).
  { apply NoDup_submseteq; [by apply find_page_NoDup|]. intros r Hr. apply list_elem_of_filter. rewrite (Hb r Hr).
    apply find_page_elem, elem_of_due_after in Hr as (Hcr & v & Hv & _). rewrite Hcr. split; [done|].
    by apply (list_elem_of_fmap_2 fst _ (r, v)). }
  apply submseteq_length in Hsub. lia.
Qed.

Lemma stuck_same p w d d' : ids d' = ids d -> dk_cursor d' = dk_cursor d -> alookup p (dk_items d') = Some w ->
  stuck p w d -> stuck p w d'.
Proof. intros Hi Hc Hp. unfold stuck, cursor_readable, cursor_text. rewrite Hi, Hc, Hp. naive_solver. Qed.

(** A sweep of a stuck desk throws, stays stuck, and touches no ticket from
    [p] on. *)
Lemma stuck_sweep p w d now : stuck p w d -> cannot_sync p w now ->
  let out := sweepTicketSlas assertAgent policy_of now d in
  is_ok out.2 = false /\ stuck p w out.1 /\
  forall y v, str_ltb p y = true -> (y, v) ∈ dk_items out.1 <-> (y, v) ∈ dk_items d.
Proof.
  intros Hst Hf. pose proof (stuck_page p w d Hst) as Hin. pose proof Hst as (Hnd & Hread & Hc & Hp & Hdue & Hlen).
  assert (Hrun : sweepTicketSlas assertAgent policy_of now d = sweep_pages assertAgent policy_of PAGES now (cursor_text d) d).
  { unfold sweepTicketSlas, cursor_text, cursor_readable in *. rewrite hget_bind. by destruct (dk_cursor d) as [[]|]. }
  destruct (sync_tickets_blocked now p w _ d Hp Hf Hin) as (l1 & l2 & d' & e & El & Es & (H1 & H2 & H3) & Hp').
  assert (Hout : sweepTicketSlas assertAgent policy_of now d = (d', Throw e)).
  { rewrite Hrun. unfold PAGES. cbn [sweep_pages]. rewrite hget_bind. cbv zeta. unfold hbind at 1. by rewrite Es. }
  rewrite Hout. cbn [fst snd]. split_and!; [done| |].
  - by apply (stuck_same p w d).
  - intros y v Hy. apply H3. intros Hl. pose proof (due_after_sorted (dk_items d) (cursor_text d) Hnd) as Hs.
    unfold find_page in El. rewrite <- (take_drop PAGE_SIZE (due_after _ _)), El in Hs.
    apply StronglySorted_app_1_l in Hs. pose proof (StronglySorted_app_1_elem_of _ _ _ y p Hs Hl ltac:(left)) as Hyp.
    apply str_ltb_asym in Hyp. congruence.
Qed.
End blocked.

(** One ticket that cannot be synchronised starves every ticket after it: at
    whatever instants the sweep runs, it throws before it reaches them, and
    the cursor never moves. *)
Theorem failing_ticket_starves `{Intl} assertAgent policy_of p w nows d :
  stuck p w d -> Forall (cannot_sync assertAgent policy_of p w) nows ->
  let after := foldl (fun d now => (sweepTicketSlas assertAgent policy_of now d).1) d nows in
  stuck p w after /\ forall y v, str_ltb p y = true -> (y, v) ∈ dk_items after <-> (y, v) ∈ dk_items d.
Proof.
  intros Hst Hf. revert d Hst. induction Hf as [|now nows Hn _ IH]; intros d Hst; [done|]. cbn [foldl].
  destruct (stuck_sweep assertAgent policy_of p w d now Hst Hn) as (_ & Hst' & Hkeep).
  destruct (IH _ Hst') as [H1 H2]. split; [done|]. intros y v Hy. rewrite H2 by done. by apply Hkeep.
Qed.

(** A calendar of one minute a week runs out of its ten years of scan: 520
    working minutes are promised, and the ticket has been waiting on hold for
    ten weeks.  Its next check throws, and so does the check of the ticket
    after it, which had nothing wrong. *)
Definition minute_a_week : BusinessCalendar := mkCalendar ny_zone [mkWindow 1 (js "09:00") (js "09:01")] [].
Definition slow_terms : SlaTerms := mkTerms (Some P_high) None None (Some 520) 75 (Some minute_a_week) None 0 [].
Definition slow_row : WorkItem :=
  mkItem true false false 0 P_high (Some C_PAUSED) []
    (Some (mkTicket None None 0 (Some DAY_MS) S_PAUSED (Some slow_terms) None None None)).
Definition slow_desk : Desk := mkDesk [(js "t1", slow_row); (js "t2", due_row S_ON_TRACK hour_terms)] [] None.

Lemma paused_ticket_starves :
  @sweepTicketSlas (intl_of ny_off) all_agents no_policy (70 * DAY_MS) slow_desk
    = (slow_desk, Throw (SyncFailed (BusinessError NothingWithinScan))).
Proof. vm_compute. reflexivity. Qed.
