(* ===== verification/Sessions.v ===== *)
(** * Sessions: server-side session records
      (apps/orchestrator/src/services/session.service.ts)

    Each operation is a program of commands: the calls of the Redis client,
    and the points where the code reads the clock, draws an identifier or
    writes an audit row.  The code awaits between commands, so the programs of
    concurrent requests interleave at every command, time passes between
    them, and any Redis command may fail, before or after it took effect.
    Keys are the two families [sess:rec:] and [sess:user:]. *)

From S2P Require Import Prelude Prog RoleGuard.

Local Open Scope Z_scope.

(** ** Configuration *)

Definition SESSION_TOUCH_INTERVAL_SECONDS : Z := 30.
Definition RECORD_GC_GRACE_SECONDS : Z := 24 * 60 * 60.
Definition DEFAULT_IDLE_TIMEOUT_ADMIN_SECONDS : Z := 30 * 60.
Definition DEFAULT_IDLE_TIMEOUT_USER_SECONDS : Z := 30 * 60.
Definition DEFAULT_ABSOLUTE_TIMEOUT_ADMIN_SECONDS : Z := 12 * 60 * 60.
Definition DEFAULT_ABSOLUTE_TIMEOUT_USER_SECONDS : Z := 12 * 60 * 60.
Definition DEFAULT_MAX_CONCURRENT_SESSIONS : Z := 5.

(** The configured numbers; [None] for anything but a finite number. *)
Class SessionConfig := {
  SESSION_IDLE_TIMEOUT_ADMIN_SECONDS : option Z; SESSION_IDLE_TIMEOUT_USER_SECONDS : option Z;
  SESSION_ABSOLUTE_TIMEOUT_ADMIN_SECONDS : option Z; SESSION_ABSOLUTE_TIMEOUT_USER_SECONDS : option Z;
  SESSION_MAX_CONCURRENT_PER_USER : option Z
}.

Definition cfgNum (value : option Z) (fallback : Z) : Z :=
  match value with Some v => if 0 <? v then v else fallback | None => fallback end.

Definition admin_class (role : Role) : bool := match role with owner | admin => true | _ => false end.

Section limits.
Context `{SessionConfig}.

Definition idleLimitSecondsForRole (role : Role) : Z :=
  if admin_class role then cfgNum SESSION_IDLE_TIMEOUT_ADMIN_SECONDS DEFAULT_IDLE_TIMEOUT_ADMIN_SECONDS
  else cfgNum SESSION_IDLE_TIMEOUT_USER_SECONDS DEFAULT_IDLE_TIMEOUT_USER_SECONDS.

Definition absoluteLimitSecondsForRole (role : Role) : Z :=
  if admin_class role then cfgNum SESSION_ABSOLUTE_TIMEOUT_ADMIN_SECONDS DEFAULT_ABSOLUTE_TIMEOUT_ADMIN_SECONDS
  else cfgNum SESSION_ABSOLUTE_TIMEOUT_USER_SECONDS DEFAULT_ABSOLUTE_TIMEOUT_USER_SECONDS.

Definition maxConcurrentSessions : Z := cfgNum SESSION_MAX_CONCURRENT_PER_USER DEFAULT_MAX_CONCURRENT_SESSIONS.
End limits.

(** ** Data *)

Record SessionRecord := mkRecord { ss_userId : jsstr; ss_role : Role; ss_createdAt : Z; ss_lastSeenAt : Z }.

(** A stored text: a record, or text that does not parse. *)
Inductive RawRecord := RawJson (r : SessionRecord) | RawGarbage.

Inductive ExpiryReason := idle_timeout | absolute_timeout.
Inductive SessionCheckResult :=
| K_ok (record : SessionRecord) | K_expired (reason : ExpiryReason) | K_missing | K_error.

Inductive SessionAudit :=
| A_evicted (userId sid : jsstr) (limit : Z)
| A_absolute_timeout (userId sid : jsstr) (limit : Z)
| A_idle_timeout (userId sid : jsstr) (limit : Z).

(** ** Commands *)

(** A Redis command answers [None] when the client throws. *)
Inductive command : Set -> Set :=
| Get (sid : jsstr) : command (option (option RawRecord))
| SetEx (sid : jsstr) (r : SessionRecord) (ttl : Z) : command (option unit)
| SetKeepTtl (sid : jsstr) (r : SessionRecord) : command (option unit)
| Del (sid : jsstr) : command (option Z)
| Exists_ (sid : jsstr) : command (option bool)
| Zadd (uid : jsstr) (score : Z) (sid : jsstr) : command (option unit)
| Zrem (uid sid : jsstr) : command (option unit)
| Zrange (uid : jsstr) : command (option (list jsstr))
| ExpireNX (uid : jsstr) (ttl : Z) : command (option unit)
| ExpireGT (uid : jsstr) (ttl : Z) : command (option unit)
(** [randomUUID()] and [nowSeconds()] of a login, with no await between them. *)
| NewSession (uid : jsstr) (role : Role) : command (jsstr * Z)
(** [nowSeconds()] of a check of [sid]. *)
| Now (sid : jsstr) (touch : bool) : command Z
| RecordActivity (a : SessionAudit) : command unit
(** jwt.service's [revokeUserSessions]: false when it throws. *)
| RevokeUserSessions (uid : jsstr) : command bool.

Abbreviation prog := (Prog.prog command).
Abbreviation redis := try_op.

(** ** The operations *)

Section operations.
Context `{SessionConfig}.

Definition destroyRecord (userId sid : jsstr) : prog bool :=
  redis (Del sid) (Ret false) (fun removed =>
  redis (Zrem userId sid) (Ret false) (fun _ => Ret (0 <? removed))).

(** The loop of [createSession] over the index: the live members, or the catch. *)
Fixpoint collect_live {A} (uid : jsstr) (members : list jsstr) (live : list jsstr) (catch : prog A) (k : list jsstr -> prog A) : prog A :=
  match members with
  | [] => k live
  | member :: rest =>
      redis (Exists_ member) catch (fun exists_ =>
        if (exists_ : bool) then collect_live uid rest (live ++ [member]) catch k
        else redis (Zrem uid member) catch (fun _ => collect_live uid rest live catch k))
  end.

(** [while (live.length > cap)]: evict from the oldest, never [sid]. *)
Fixpoint evict_oldest {A} (uid sid : jsstr) (cap : Z) (live evicted : list jsstr)
    (catch : list jsstr -> prog A) (k : list jsstr -> prog A) : prog A :=
  match live with
  | [] => k evicted
  | oldest :: rest =>
      if Z.of_nat (length live) <=? cap then k evicted
      else if bool_decide (oldest = [] \/ oldest = sid) then k evicted
      else redis (Del oldest) (catch evicted) (fun _ =>
           redis (Zrem uid oldest) (catch evicted) (fun _ =>
           evict_oldest uid sid cap rest (evicted ++ [oldest]) catch k))
  end.

Fixpoint audit_evicted {A} (uid : jsstr) (cap : Z) (evicted : list jsstr) (k : prog A) : prog A :=
  match evicted with [] => k | sid :: rest => _a <~ RecordActivity (A_evicted uid sid cap); audit_evicted uid cap rest k end.

Definition createSession (uid : jsstr) (role : Role) : prog (jsstr * list jsstr) :=
  fresh <~ NewSession uid role;
  let '(sid, now) := fresh in
  let record := mkRecord uid role now now in
  let gcTtl := absoluteLimitSecondsForRole role + RECORD_GC_GRACE_SECONDS in
  let catch evicted := Ret (sid, evicted) in
  redis (SetEx sid record gcTtl) (catch []) (fun _ =>
  redis (Zadd uid now sid) (catch []) (fun _ =>
  redis (ExpireNX uid gcTtl) (catch []) (fun _ =>
  redis (ExpireGT uid gcTtl) (catch []) (fun _ =>
  redis (Zrange uid) (catch []) (fun members =>
  collect_live uid members [] (catch []) (fun live =>
  let cap := maxConcurrentSessions in
  evict_oldest uid sid cap live [] catch (fun evicted =>
  audit_evicted uid cap evicted (Ret (sid, evicted)))))))))
  .

(** The answer, with the instant the check read ([None] when it read none). *)
Definition checkSession (sid : jsstr) (touch : bool) : prog (option Z * SessionCheckResult) :=
  redis (Get sid) (Ret (None, K_error)) (fun raw =>
  match raw with
  | None | Some RawGarbage => Ret (None, K_missing)
  | Some (RawJson record) =>
      now <~ Now sid touch;
      let absoluteLimit := absoluteLimitSecondsForRole (ss_role record) in
      if absoluteLimit <=? now - ss_createdAt record then
        pbind (destroyRecord (ss_userId record) sid) (fun _ =>
        _a <~ RecordActivity (A_absolute_timeout (ss_userId record) sid absoluteLimit);
        Ret (Some now, K_expired absolute_timeout))
      else
      let idleLimit := idleLimitSecondsForRole (ss_role record) in
      if idleLimit <=? now - ss_lastSeenAt record then
        pbind (destroyRecord (ss_userId record) sid) (fun _ =>
        _a <~ RecordActivity (A_idle_timeout (ss_userId record) sid idleLimit);
        Ret (Some now, K_expired idle_timeout))
      else
      if touch && (SESSION_TOUCH_INTERVAL_SECONDS <=? now - ss_lastSeenAt record) then
        _r <~ SetKeepTtl sid (mkRecord (ss_userId record) (ss_role record) (ss_createdAt record) now);
        Ret (Some now, K_ok record)
      else Ret (Some now, K_ok record)
  end).

(** The latest end, in epoch seconds. *)
Definition readSessionDeadline (sid : jsstr) : prog (option Z) :=
  redis (Get sid) (Ret None) (fun raw =>
  match raw with
  | Some (RawJson record) => Ret (Some (ss_createdAt record + absoluteLimitSecondsForRole (ss_role record)))
  | _ => Ret None
  end).

Definition deleteSession (userId sid : jsstr) : prog unit := pbind (destroyRecord userId sid) (fun _ => Ret tt).

Definition countLiveSessions (uid : jsstr) : prog (option Z) :=
  redis (Zrange uid) (Ret None) (fun members =>
  collect_live uid members [] (Ret None) (fun live => Ret (Some (Z.of_nat (length live))))).

Record SessionSummary := mkSummary { sm_role : Role; sm_createdAt : Z; sm_lastSeenAt : Z }.

Fixpoint collect_summaries (uid : jsstr) (members : list jsstr) (out : list SessionSummary)
    (k : list SessionSummary -> prog (option (list SessionSummary))) : prog (option (list SessionSummary)) :=
  match members with
  | [] => k out
  | sid :: rest =>
      redis (Get sid) (Ret None) (fun raw =>
        match raw with
        | None => redis (Zrem uid sid) (Ret None) (fun _ => collect_summaries uid rest out k)
        | Some (RawJson r) =>
            collect_summaries uid rest (out ++ [mkSummary (ss_role r) (ss_createdAt r) (ss_lastSeenAt r)]) k
        | Some RawGarbage => collect_summaries uid rest out k
        end)
  end.

Definition listUserSessions (uid : jsstr) : prog (option (list SessionSummary)) :=
  redis (Zrange uid) (Ret None) (fun members =>
  collect_summaries uid members [] (fun out =>
  Ret (Some (sort_by (fun x y => sm_createdAt y - sm_createdAt x) out)))).

(** The sweep over the index: the count, and whether Redis failed. *)
Fixpoint revoke_members {A} (uid : jsstr) (exceptSid : option jsstr) (members : list jsstr) (revoked : Z)
    (k : Z -> bool -> prog A) : prog A :=
  match members with
  | [] => k revoked false
  | sid :: rest =>
      if bool_decide (exceptSid = Some sid) then revoke_members uid exceptSid rest revoked k
      else redis (Del sid) (k revoked true) (fun removed =>
           redis (Zrem uid sid) (k revoked true) (fun _ =>
           revoke_members uid exceptSid rest (if 0 <? removed then revoked + 1 else revoked) k))
  end.

(** [opts.exceptSid] as a truth value: the empty string counts as absent. *)
Definition truthy_sid (o : option jsstr) : option jsstr :=
  match o with Some s => if decide (s = []) then None else Some s | None => None end.

(** After the sweep: the refresh-token denylist, unless one session is kept;
    [None] is the thrown [revocationUnavailable()]. *)
Definition revoke_finish (uid : jsstr) (exceptSid : option jsstr) (revoked : Z) (failed : bool) : prog (option Z) :=
  match exceptSid with
  | Some _ => Ret (if failed then None else Some revoked)
  | None => ok <~ RevokeUserSessions uid; Ret (if failed || negb ok then None else Some revoked)
  end.

Definition revokeAllSessions (uid : jsstr) (opts_exceptSid : option jsstr) : prog (option Z) :=
  let exceptSid := truthy_sid opts_exceptSid in
  redis (Zrange uid) (revoke_finish uid exceptSid 0 true) (fun members =>
  revoke_members uid exceptSid members 0 (revoke_finish uid exceptSid)).
End operations.

(** ** Redis, the clock and the history *)

(** What happened, for the statements: who signed in as whom and when, and
    every clock reading of a check. *)
Record History := mkHistory { hi_born : gmap jsstr (jsstr * Role * Z); hi_reads : list (jsstr * bool * Z) }.

(** A key's value with the second it expires at ([None]: no expiry). *)
Record RWorld := mkRWorld {
  rw_now : Z;
  rw_rec : gmap jsstr (RawRecord * option Z);
  rw_idx : gmap jsstr (list (Z * jsstr) * option Z);
  rw_drawn : nat;
  rw_audit : list SessionAudit;
  rw_denied : list jsstr;
  rw_history : History
}.

Definition unexpired {A} (now : Z) (e : A * option Z) : option (A * option Z) :=
  match e.2 with Some at_ => if at_ <=? now then None else Some e | None => Some e end.

Definition rec_at (w : RWorld) (sid : jsstr) : option (RawRecord * option Z) := rw_rec w !! sid ≫= unexpired (rw_now w).
Definition idx_at (w : RWorld) (uid : jsstr) : option (list (Z * jsstr) * option Z) := rw_idx w !! uid ≫= unexpired (rw_now w).

Definition set_rec (f : gmap jsstr (RawRecord * option Z) -> gmap jsstr (RawRecord * option Z)) (w : RWorld) : RWorld :=
  mkRWorld (rw_now w) (f (rw_rec w)) (rw_idx w) (rw_drawn w) (rw_audit w) (rw_denied w) (rw_history w).
Definition set_idx (f : gmap jsstr (list (Z * jsstr) * option Z) -> gmap jsstr (list (Z * jsstr) * option Z)) (w : RWorld) : RWorld :=
  mkRWorld (rw_now w) (rw_rec w) (f (rw_idx w)) (rw_drawn w) (rw_audit w) (rw_denied w) (rw_history w).

(** Ascending score, then the member's own order. *)
Definition zset_cmp (a b : Z * jsstr) : Z :=
  let d := a.1 - b.1 in if negb (d =? 0) then d else if str_ltb a.2 b.2 then -1 else if str_ltb b.2 a.2 then 1 else 0.

Section machine.
(** [randomUUID()]: the n-th identifier drawn. *)
Context (fresh : nat -> jsstr).

Definition exec {X : Set} (c : command X) (w : RWorld) : RWorld * X :=
  match c in command X return RWorld * X with
  | Get sid => (w, Some (fst <$> rec_at w sid))
  | SetEx sid r ttl => (set_rec <[sid := (RawJson r, Some (rw_now w + ttl))]> w, Some tt)
  | SetKeepTtl sid r => (set_rec <[sid := (RawJson r, rec_at w sid ≫= snd)]> w, Some tt)
  | Del sid => (set_rec (delete sid) w, Some (match rec_at w sid with Some _ => 1 | None => 0 end))
  | Exists_ sid => (w, Some (bool_decide (is_Some (rec_at w sid))))
  | Zadd uid score sid =>
      (set_idx <[uid := match idx_at w uid with
                        | Some (l, e) => ((score, sid) :: filter (fun m => m.2 <> sid) l, e)
                        | None => ([(score, sid)], None)
                        end]> w, Some tt)
  | Zrem uid sid =>
      (set_idx (match idx_at w uid with
                | Some (l, e) => match filter (fun m => m.2 <> sid) l with [] => delete uid | l' => <[uid := (l', e)]> end
                | None => delete uid
                end) w, Some tt)
  | Zrange uid => (w, Some (match idx_at w uid with Some (l, _) => snd <$> sort_by zset_cmp l | None => [] end))
  | ExpireNX uid ttl =>
      (match idx_at w uid with
       | Some (l, None) => set_idx <[uid := (l, Some (rw_now w + ttl))]> w
       | _ => w
       end, Some tt)
  | ExpireGT uid ttl =>
      (match idx_at w uid with
       | Some (l, Some e) => if e <? rw_now w + ttl then set_idx <[uid := (l, Some (rw_now w + ttl))]> w else w
       | _ => w
       end, Some tt)
  | NewSession uid role =>
      let sid := fresh (rw_drawn w) in
      (mkRWorld (rw_now w) (rw_rec w) (rw_idx w) (S (rw_drawn w)) (rw_audit w) (rw_denied w)
         (mkHistory (<[sid := (uid, role, rw_now w)]> (hi_born (rw_history w))) (hi_reads (rw_history w))),
       (sid, rw_now w))
  | Now sid touch =>
      (mkRWorld (rw_now w) (rw_rec w) (rw_idx w) (rw_drawn w) (rw_audit w) (rw_denied w)
         (mkHistory (hi_born (rw_history w)) ((sid, touch, rw_now w) :: hi_reads (rw_history w))),
       rw_now w)
  | RecordActivity a =>
      (mkRWorld (rw_now w) (rw_rec w) (rw_idx w) (rw_drawn w) (rw_audit w ++ [a]) (rw_denied w) (rw_history w), tt)
  | RevokeUserSessions uid =>
      (mkRWorld (rw_now w) (rw_rec w) (rw_idx w) (rw_drawn w) (rw_audit w) (uid :: rw_denied w) (rw_history w), true)
  end.

(** The answer of a command whose call throws; [None] for what cannot. *)
Definition thrown {X : Set} (c : command X) : option X :=
  match c in command X return option X with
  | Get _ => Some None | SetEx _ _ _ => Some None | SetKeepTtl _ _ => Some None | Del _ => Some None
  | Exists_ _ => Some None | Zadd _ _ _ => Some None | Zrem _ _ => Some None | Zrange _ => Some None
  | ExpireNX _ _ => Some None | ExpireGT _ _ => Some None | RevokeUserSessions _ => Some false
  | NewSession _ _ => None | Now _ _ => None | RecordActivity _ => None
  end.

Definition exec_faulty {X : Set} (f : Fault) (c : command X) (w : RWorld) : option (RWorld * X) :=
  match f with
  | Works => Some (exec c w)
  | LostRequest => (fun x => (w, x)) <$> thrown c
  | LostReply => (fun x => ((exec c w).1, x)) <$> thrown c
  end.

(** One operation alone, with nothing failing. *)
Fixpoint run_alone {A} (p : prog A) (w : RWorld) : RWorld * A :=
  match p with Ret a => (w, a) | Op c k => let '(w', x) := exec c w in run_alone (k x) w' end.

(** ** Concurrent requests *)

Context `{SessionConfig}.

Inductive Operation :=
| DoCreate (uid : jsstr) (role : Role) | DoCheck (sid : jsstr) (touch : bool) | DoDeadline (sid : jsstr)
| DoDelete (uid sid : jsstr) | DoCount (uid : jsstr) | DoList (uid : jsstr)
| DoRevoke (uid : jsstr) (exceptSid : option jsstr).

Inductive Outcome :=
| Created (uid sid : jsstr) (evicted : list jsstr)
| Checked (sid : jsstr) (touch : bool) (at_ : option Z) (r : SessionCheckResult)
| Deadline (sid : jsstr) (endsAt : option Z)
| Answered.

Definition start (o : Operation) : prog Outcome :=
  match o with
  | DoCreate uid role => pbind (createSession uid role) (fun r => Ret (Created uid r.1 r.2))
  | DoCheck sid touch => pbind (checkSession sid touch) (fun r => Ret (Checked sid touch r.1 r.2))
  | DoDeadline sid => pbind (readSessionDeadline sid) (fun r => Ret (Deadline sid r))
  | DoDelete uid sid => pbind (deleteSession uid sid) (fun _ => Ret Answered)
  | DoCount uid => pbind (countLiveSessions uid) (fun _ => Ret Answered)
  | DoList uid => pbind (listUserSessions uid) (fun _ => Ret Answered)
  | DoRevoke uid exceptSid => pbind (revokeAllSessions uid exceptSid) (fun _ => Ret Answered)
  end.

(** The world, the requests under way and the answers given. *)
Record Machine := mkMachine { mc_world : RWorld; mc_pool : list (prog Outcome); mc_answers : list Outcome }.

Inductive Move := Arrive (o : Operation) | Advance (task : nat) (f : Fault) | Clock (now : Z).

Definition set_now (now : Z) (w : RWorld) : RWorld :=
  mkRWorld now (rw_rec w) (rw_idx w) (rw_drawn w) (rw_audit w) (rw_denied w) (rw_history w).

(** A request arrives; a request runs its next command, or answers; the clock
    moves (in any direction). *)
Definition move (mv : Move) (m : Machine) : option Machine :=
  match mv with
  | Arrive o => Some (mkMachine (mc_world m) (mc_pool m ++ [start o]) (mc_answers m))
  | Advance i f =>
      match mc_pool m !! i with
      | None => None
      | Some (Ret a) => Some (mkMachine (mc_world m) (delete i (mc_pool m)) (a :: mc_answers m))
      | Some (Op c k) =>
          '(w', x) ← exec_faulty f c (mc_world m); Some (mkMachine w' (<[i := k x]> (mc_pool m)) (mc_answers m))
      end
  | Clock now => Some (mkMachine (set_now now (mc_world m)) (mc_pool m) (mc_answers m))
  end.

Fixpoint moves (mvs : list Move) (m : Machine) : option Machine :=
  match mvs with [] => Some m | mv :: r => m' ← move mv m; moves r m' end.

Definition empty_world : RWorld := mkRWorld 0 ∅ ∅ 0 [] [] (mkHistory ∅ []).
Definition empty_machine : Machine := mkMachine empty_world [] [].
End machine.


(** ** A session's lifetime *)

(** [hi_born] only grows; [hi_reads] only grows. *)
Definition history_le (h h' : History) : Prop := hi_born h ⊆ hi_born h' /\ hi_reads h ⊆ hi_reads h'.

#[export] Instance history_le_preorder : PreOrder history_le.
Proof. split; [by split|]. intros ??? [] []; split; by etrans. Qed.

Section lifetime.
Context `{SessionConfig}.

(** A recorded activity instant of the session: its login, or a reading of
    the clock by a touching check, each within the idle limit of the one
    before and within the absolute limit of the login. *)
Inductive alive (h : History) (sid : jsstr) (role : Role) (createdAt : Z) : Z -> Prop :=
| alive_login : alive h sid role createdAt createdAt
| alive_touch t t' :
    alive h sid role createdAt t -> (sid, true, t') ∈ hi_reads h ->
    SESSION_TOUCH_INTERVAL_SECONDS <= t' - t < idleLimitSecondsForRole role ->
    t' - createdAt < absoluteLimitSecondsForRole role ->
    alive h sid role createdAt t'.

(** The record tells the login that drew its identifier, and its last
    recorded activity. *)
Definition legit (h : History) (sid : jsstr) (r : SessionRecord) : Prop :=
  hi_born h !! sid = Some (ss_userId r, ss_role r, ss_createdAt r) /\
  alive h sid (ss_role r) (ss_createdAt r) (ss_lastSeenAt r).

Lemma alive_mono h h' sid role c t : history_le h h' -> alive h sid role c t -> alive h' sid role c t.
Proof. intros [_ Hr]. induction 1; econstructor; eauto. Qed.

Lemma legit_mono h h' sid r : history_le h h' -> legit h sid r -> legit h' sid r.
Proof. intros Hle [Hb Ha]. split; [by eapply lookup_weaken, Hle | by eapply alive_mono]. Qed.

(** What an answer promises. *)
Definition promised (h : History) (o : Outcome) : Prop :=
  match o with
  | Checked sid touch at_ (K_ok r) =>
      exists t, at_ = Some t /\ legit h sid r /\ (sid, touch, t) ∈ hi_reads h /\
        t - ss_createdAt r < absoluteLimitSecondsForRole (ss_role r) /\
        t - ss_lastSeenAt r < idleLimitSecondsForRole (ss_role r)
  | Deadline sid (Some e) =>
      exists uid role c, hi_born h !! sid = Some (uid, role, c) /\ e = c + absoluteLimitSecondsForRole role
  | Created uid sid _ => exists role c, hi_born h !! sid = Some (uid, role, c)
  | _ => True
  end.

(** What a command needs, and what its answer then tells. *)
Definition command_needs {X : Set} (h : History) (c : command X) : Prop :=
  match c with SetEx sid r _ => legit h sid r | SetKeepTtl sid r => legit h sid r | _ => True end.

Definition command_tells {X : Set} (h : History) (c : command X) : X -> Prop :=
  match c in command X return X -> Prop with
  | Get sid => fun x => forall r, x = Some (Some (RawJson r)) -> legit h sid r
  | NewSession uid role => fun x => hi_born h !! x.1 = Some (uid, role, x.2)
  | Now sid touch => fun t => (sid, touch, t) ∈ hi_reads h
  | _ => fun _ => True
  end.

Lemma command_needs_mono {X : Set} h h' (c : command X) : history_le h h' -> command_needs h c -> command_needs h' c.
Proof. intros Hle. destruct c; cbn; eauto using legit_mono. Qed.

#[export] Instance session_protocol : Protocol command := {|
  history := History; hist_le := history_le; hist_le_preorder := history_le_preorder;
  needs := @command_needs; tells := @command_tells; needs_mono := @command_needs_mono
|}.

Lemma promised_stable : stable promised.
Proof.
  intros h h' o Hle. destruct o as [uid sid ev|sid touch at_ []|sid [e|]|]; cbn; try done.
  - intros (role & c & Hb). exists role, c. by eapply lookup_weaken, Hle.
  - intros (t & -> & Hl & Hin & Ht). exists t. split_and!; try apply Ht; [done | by eapply legit_mono | by apply Hle].
  - intros (uid & role & c & Hb & ->). exists uid, role, c. split; [by eapply lookup_weaken, Hle | done].
Qed.

(** *** Every operation is safe *)

Lemma destroyRecord_safe {B} (R : History -> B -> Prop) h uid sid k :
  (forall h' b, hist_le h h' -> safe R h' (k b)) -> safe R h (pbind (destroyRecord uid sid) k).
Proof.
  intros Hk. apply safe_bind with (Q := fun _ _ => True).
  - apply safe_try; [done..|]. intros h1 n _ _. by apply safe_try.
  - intros h' b Hle _. by apply Hk.
Qed.

Section loops.
Context {A : Type} (Q : History -> A -> Prop).

Lemma collect_live_safe uid members : forall live catch k h,
  (forall h', hist_le h h' -> safe Q h' catch) ->
  (forall h' l, hist_le h h' -> safe Q h' (k l)) -> safe Q h (collect_live uid members live catch k).
Proof.
  induction members as [|m rest IH]; intros live catch k h Hc Hk; [by apply Hk|].
  apply safe_try; [done..|]. intros h' [] Hle _; [|apply safe_try; [done| |]].
  - apply IH; intros; [apply Hc|apply Hk]; by etrans.
  - intros h2 ?. apply Hc. by etrans.
  - intros h2 _u Hle2 _. apply IH; intros; [apply Hc|apply Hk]; (etrans; [exact Hle|by etrans]).
Qed.

Lemma evict_oldest_safe uid sid cap live : forall evicted catch k h,
  (forall h' l, hist_le h h' -> safe Q h' (catch l)) ->
  (forall h' l, hist_le h h' -> safe Q h' (k l)) -> safe Q h (evict_oldest uid sid cap live evicted catch k).
Proof.
  induction live as [|m rest IH]; intros evicted catch k h Hc Hk; [by apply Hk|]. cbn [evict_oldest].
  case_match; [by apply Hk|]. case_match; [by apply Hk|].
  apply safe_try; [done| |]. { intros. by apply Hc. }
  intros h' _n Hle _. apply safe_try; [done| |]. { intros. apply Hc. by etrans. }
  intros h2 _u Hle2 _. apply IH; intros; [apply Hc|apply Hk]; (etrans; [exact Hle|by etrans]).
Qed.

Lemma audit_evicted_safe uid cap evicted : forall k h,
  (forall h', hist_le h h' -> safe Q h' k) -> safe Q h (audit_evicted uid cap evicted k).
Proof.
  induction evicted as [|m rest IH]; intros k h Hk; [by apply Hk|]. split; [done|]. intros h' [] Hle _.
  apply IH. intros. apply Hk. by etrans.
Qed.

Lemma revoke_members_safe uid exceptSid members : forall n k h,
  (forall h' n b, hist_le h h' -> safe Q h' (k n b)) -> safe Q h (revoke_members uid exceptSid members n k).
Proof.
  induction members as [|m rest IH]; intros n k h Hk; [by apply Hk|]. cbn [revoke_members].
  case_match; [by apply IH|].
  apply safe_try; [done| |]. { intros. by apply Hk. }
  intros h' x Hle _. apply safe_try; [done| |]. { intros. apply Hk. by etrans. }
  intros h2 _u Hle2 _. apply IH. intros. apply Hk. etrans; [exact Hle|by etrans].
Qed.
End loops.

Lemma collect_summaries_safe (Q : History -> option (list SessionSummary) -> Prop) uid members : forall out k h,
  (forall h', Q h' None) -> (forall h' l, hist_le h h' -> safe Q h' (k l)) -> safe Q h (collect_summaries uid members out k).
Proof.
  induction members as [|m rest IH]; intros out k h HN Hk; [by apply Hk|].
  apply safe_try; [done| |]. { intros. apply HN. }
  intros h' [[r|]|] Hle _; [| |apply safe_try; [done| |]].
  1,2: apply IH; [done|]; intros; apply Hk; by etrans.
  - intros. apply HN.
  - intros h2 _u Hle2 _. apply IH; [done|]. intros. apply Hk. etrans; [exact Hle|by etrans].
Qed.

Definition minted (uid : jsstr) (h : History) (r : jsstr * list jsstr) : Prop :=
  exists role c, hi_born h !! r.1 = Some (uid, role, c).

Lemma createSession_safe h uid role :
  safe (minted uid) h (createSession uid role).
Proof.
  split; [done|]. intros h1 [sid now] _ Hb. cbn in Hb.
  assert (Hany : forall h' l, hist_le h1 h' -> safe (minted uid) h' (Ret (sid, l))).
  { intros h' l Hle. exists role, now. by eapply lookup_weaken, Hle. }
  apply safe_try; [by split; [|constructor]|by auto|]. intros h2 _u Hl2 _.
  assert (Hany2 : forall h' l, hist_le h2 h' -> safe (minted uid) h' (Ret (sid, l))).
  { intros. apply Hany. by etrans. }
  clear Hb Hany Hl2. apply safe_try; [done|by auto|]. intros h3 _u3 L3 _.
  apply safe_try; [done|intros; apply Hany2; by etrans|]. intros h4 _u4 L4 _.
  apply safe_try; [done|intros; apply Hany2; etrans; [exact L3|by etrans]|]. intros h5 _u5 L5 _.
  assert (L : hist_le h2 h5) by (etrans; [exact L3|by etrans]). clear L3 L4 L5.
  apply safe_try; [done|intros; apply Hany2; by etrans|]. intros h6 members L6 _.
  apply collect_live_safe; [intros; apply Hany2; etrans; [exact L|by etrans]|]. intros h7 live L7.
  apply evict_oldest_safe; intros h8 l L8; [|apply audit_evicted_safe; intros h9 L9];
    apply Hany2; (etrans; [exact L|etrans; [exact L6|by repeat (etrans; [eassumption|])]]).
Qed.

Lemma checkSession_safe h sid touch :
  safe (fun h r => promised h (Checked sid touch r.1 r.2)) h (checkSession sid touch).
Proof.
  apply safe_try; [done..|]. intros h1 [[r|]|] _ Ht; [|done..]. specialize (Ht r eq_refl).
  split; [done|]. intros h2 now Hle Hnow. cbn [tells] in Hnow. apply (legit_mono _ _ _ _ Hle) in Ht. clear h1 Hle.
  cbv zeta. case_match; [by apply destroyRecord_safe; intros; split|].
  case_match; [by apply destroyRecord_safe; intros; split|].
  assert (Hok : promised h2 (Checked sid touch (Some now) (K_ok r))).
  { exists now. split_and!; [done|done|done|lia|lia]. }
  case_match eqn:Hts; [|done]. apply andb_prop in Hts as [-> Hts].
  split.
  - destruct Ht as [Hb Ha]. split; [done|]. cbn. eapply alive_touch; [done|done|lia|lia].
  - intros h3 _u Hle _. by apply (promised_stable _ _ _ Hle).
Qed.

Lemma start_safe h o : safe promised h (start o).
Proof.
  destruct o as [uid role|sid touch|sid|uid sid|uid|uid|uid e]; cbn [start].
  - eapply safe_bind; [apply createSession_safe|]. by intros h' [sid ev].
  - eapply safe_bind; [apply checkSession_safe|]. by intros h' [t r].
  - split; [done|]. intros h1 [[[r|]|]|] _ Ht; [|done..]. destruct (Ht r eq_refl) as [Hb _]. cbn. eauto.
  - apply safe_bind with (Q := fun _ _ => True); [|done]. by apply destroyRecord_safe.
  - apply safe_bind with (Q := fun _ _ => True); [|done].
    apply safe_try; [done..|]. intros. by apply collect_live_safe.
  - apply safe_bind with (Q := fun _ _ => True); [|done].
    apply safe_try; [done..|]. intros. by apply collect_summaries_safe.
  - apply safe_bind with (Q := fun _ _ => True); [|done].
    assert (Hfin : forall h n b, safe (fun _ _ => True) h (revoke_finish uid (truthy_sid e) n b)).
    { intros. unfold revoke_finish. by destruct (truthy_sid e). }
    apply safe_try; [done|intros; apply Hfin|]. intros. apply revoke_members_safe. intros. apply Hfin.
Qed.

(** *** The world and the machine *)

Context (fresh : nat -> jsstr) `{Hfresh : !Inj (=) (=) fresh}.

(** Every stored record is legitimate; no identifier not yet drawn has a login. *)
Record world_ok (w : RWorld) : Prop := {
  wo_records : forall sid r e, rw_rec w !! sid = Some (RawJson r, e) -> legit (rw_history w) sid r;
  wo_fresh : forall i, (rw_drawn w <= i)%nat -> hi_born (rw_history w) !! fresh i = None
}.

Lemma world_ok_history w h' :
  world_ok w -> hist_le (rw_history w) h' -> forall sid r e, rw_rec w !! sid = Some (RawJson r, e) -> legit h' sid r.
Proof. intros Hw Hle sid r e He. eapply legit_mono; [done|]. by eapply wo_records. Qed.

Lemma rec_at_stored w sid v : rec_at w sid = Some v -> rw_rec w !! sid = Some v.
Proof. unfold rec_at, unexpired. intros [e [He Hu]]%bind_Some. repeat case_match; congruence. Qed.

Lemma world_ok_set_rec w sid r e :
  world_ok w -> legit (rw_history w) sid r -> world_ok (set_rec <[sid := (RawJson r, e)]> w).
Proof.
  intros Hw Hl. split; [|apply Hw]. intros sid' r' e'. cbn. intros [[-> [= -> ->]]|[_ He]]%lookup_insert_Some; [done|].
  by eapply wo_records.
Qed.

Lemma world_ok_idx w f : world_ok w -> world_ok (set_idx f w).
Proof. intros Hw. split; apply Hw. Qed.

Lemma exec_ok {X : Set} (c : command X) w w' x :
  world_ok w -> needs (rw_history w) c -> exec fresh c w = (w', x) ->
  world_ok w' /\ hist_le (rw_history w) (rw_history w') /\ tells (rw_history w') c x.
Proof.
  intros Hw Hn. destruct c; cbn [exec needs] in *; intros [= <- <-].
  all: try (split_and!; [done || by apply world_ok_idx || (split; apply Hw) | done | done]; fail).
  - split_and!; [done..|]. cbn. intros r Hr. destruct (rec_at w sid) as [[v e]|] eqn:E; [|done].
    cbn in Hr. simplify_eq. apply rec_at_stored in E. by eapply wo_records.
  - split_and!; [by apply world_ok_set_rec|done..].
  - split_and!; [by apply world_ok_set_rec|done..].
  - split_and!; [|done..]. split; [|apply Hw]. cbn. intros sid' r e [_ He]%lookup_delete_Some. by eapply wo_records.
  - repeat case_match; split_and!; try done; by apply world_ok_idx.
  - repeat case_match; split_and!; try done; by apply world_ok_idx.
  - assert (Hnew : hi_born (rw_history w) !! fresh (rw_drawn w) = None) by (apply wo_fresh; [done|lia]).
    assert (Hle : hist_le (rw_history w) (mkHistory
      (<[fresh (rw_drawn w) := (uid, role, rw_now w)]> (hi_born (rw_history w))) (hi_reads (rw_history w)))).
    { split; [by apply insert_subseteq|done]. }
    split_and!; [|done|by cbn; rewrite lookup_insert_eq].
    split; [exact (world_ok_history _ _ Hw Hle)|]. cbn. intros i Hi. rewrite lookup_insert_ne.
    + apply wo_fresh; [done|lia].
    + intros ?%(inj fresh). lia.
  - assert (Hle : hist_le (rw_history w) (mkHistory (hi_born (rw_history w))
      ((sid, touch, rw_now w) :: hi_reads (rw_history w)))) by (split; [done|cbn; set_solver]).
    split_and!; [|done|cbn; set_solver]. split; [exact (world_ok_history _ _ Hw Hle)|apply Hw].
Qed.

Lemma exec_faulty_ok {X : Set} f (c : command X) w w' x :
  world_ok w -> needs (rw_history w) c -> exec_faulty fresh f c w = Some (w', x) ->
  world_ok w' /\ hist_le (rw_history w) (rw_history w') /\ tells (rw_history w') c x.
Proof.
  intros Hw Hn. destruct (exec fresh c w) as [w1 x1] eqn:E. destruct (exec_ok c w w1 x1 Hw Hn E) as (H1 & H2 & H3).
  destruct f; cbn [exec_faulty]; rewrite ?E; [by intros [= <- <-]|..];
    intros (y & Ht & [= -> ->])%fmap_Some_1; (split_and!; [done..|]); destruct c; cbn in Ht; simplify_eq; done.
Qed.

Record machine_ok (m : Machine) : Prop := {
  mo_world : world_ok (mc_world m);
  mo_pool : Forall (safe promised (rw_history (mc_world m))) (mc_pool m);
  mo_answers : Forall (promised (rw_history (mc_world m))) (mc_answers m)
}.

Lemma move_ok mv m m' : machine_ok m -> move fresh mv m = Some m' -> machine_ok m'.
Proof.
  intros [Hw Hp Ha]. destruct mv as [o|i f|now]; cbn [move].
  - intros [= <-]. split; cbn; [done| |done]. apply Forall_app. split; [done|]. by apply Forall_singleton, start_safe.
  - destruct (mc_pool m !! i) as [[a|X c k]|] eqn:Ei; [| |done].
    + intros [= <-]. split; cbn; [done|by apply Forall_delete|]. constructor; [|done].
      by apply (Forall_lookup_1 _ _ _ _ Hp Ei).
    + intros ([w' x] & Ex & [= <-])%bind_Some.
      destruct (Forall_lookup_1 _ _ _ _ Hp Ei) as [Hn Hk].
      destruct (exec_faulty_ok f c _ _ _ Hw Hn Ex) as (Hw' & Hle & Ht). split; cbn; [done| |].
      * apply Forall_insert; [|by apply Hk]. eapply Forall_impl; [exact Hp|].
        intros q. by apply safe_mono; [exact promised_stable|].
      * eapply Forall_impl; [exact Ha|]. intros o. by apply promised_stable.
  - intros [= <-]. split; cbn; [split; apply Hw|done..].
Qed.

Lemma moves_ok mvs : forall m m', machine_ok m -> moves fresh mvs m = Some m' -> machine_ok m'.
Proof.
  induction mvs as [|mv r IH]; intros m m' Hm; cbn [moves]; [by intros [= <-]|].
  intros (m1 & H1 & Hr)%bind_Some. eapply IH; [|done]. by eapply move_ok.
Qed.

Lemma empty_machine_ok : machine_ok empty_machine.
Proof. split; cbn; [|constructor..]. split; cbn; [intros ??? Hl; by rewrite lookup_empty in Hl|intros; apply lookup_empty]. Qed.

(** C40: however requests interleave, whichever Redis commands fail before or
    after taking effect, and however the clock moves, an accepted session
    belongs to the login that drew its identifier, with that login's person,
    role and instant; the check is within the absolute limit of the login, and
    within the idle limit of an activity that is the login itself or a
    touching check reached from it by steps each shorter than the idle limit. *)
Theorem accepted_session_alive mvs m sid touch at_ r :
  moves fresh mvs empty_machine = Some m -> Checked sid touch at_ (K_ok r) ∈ mc_answers m ->
  let h := rw_history (mc_world m) in
  exists now, at_ = Some now /\ (sid, touch, now) ∈ hi_reads h /\
    hi_born h !! sid = Some (ss_userId r, ss_role r, ss_createdAt r) /\
    now - ss_createdAt r < absoluteLimitSecondsForRole (ss_role r) /\
    alive h sid (ss_role r) (ss_createdAt r) (ss_lastSeenAt r) /\
    now - ss_lastSeenAt r < idleLimitSecondsForRole (ss_role r).
Proof.
  intros Hm Hin. pose proof (moves_ok _ _ _ empty_machine_ok Hm) as [_ _ Ha].
  rewrite Forall_forall in Ha. destruct (Ha _ Hin) as (t & Ht & [Hb Hl] & Hr & Habs & Hidle).
  exists t. by split_and!.
Qed.
End lifetime.

(** The shipped configuration, and identifiers numbered as they are drawn. *)
Definition shipped : SessionConfig := Build_SessionConfig (Some 1800) (Some 1800) (Some 43200) (Some 43200) (Some 5).
Definition numbered (n : nat) : jsstr := [N.of_nat n].
#[export] Instance numbered_inj : Inj (=) (=) numbered.
Proof. intros i j [= H]. lia. Qed.

Definition run_task (i n : nat) : list Move := replicate n (Advance i Works).

(** A login at 0, a check at 1000 that touches, and one at 2500, past the
    idle limit of the login but not of the touch. *)
Definition touched_day : list Move :=
  Clock 0 :: Arrive (DoCreate (js "u1") family) :: run_task 0 8 ++
  Clock 1000 :: Arrive (DoCheck (numbered 0) true) :: run_task 0 4 ++
  Clock 2500 :: Arrive (DoCheck (numbered 0) false) :: run_task 0 3.

Lemma accepted_session_alive_witness :
  exists m, @moves numbered shipped touched_day empty_machine = Some m /\
    @alive shipped (rw_history (mc_world m)) (numbered 0) family 0 1000.
Proof.
  destruct (@moves numbered shipped touched_day empty_machine) as [m|] eqn:E; [|vm_compute in E; discriminate E].
  exists m. split; [reflexivity|].
  destruct (@accepted_session_alive shipped numbered numbered_inj touched_day m (numbered 0) false (Some 2500)
    (mkRecord (js "u1") family 0 1000) E) as (now & _ & _ & _ & _ & Ha & _); [|exact Ha].
  vm_compute in E. injection E as <-. vm_compute. left.
Defined.

(** ** What the schedules show *)

(** A touching check has read the record and the clock when the person's
    sessions are revoked; its write then puts the record back, without an
    expiry and outside the person's index, and the next check accepts the
    revoked session. *)
Definition resurrected : list Move :=
  Clock 0 :: Arrive (DoCreate (js "u1") family) :: run_task 0 8 ++
  Clock 100 :: Arrive (DoCheck (numbered 0) true) :: run_task 0 2 ++
  Arrive (DoRevoke (js "u1") None) :: run_task 1 5 ++
  run_task 0 2 ++ Arrive (DoCheck (numbered 0) true) :: run_task 0 3.

Lemma touch_resurrects :
  exists m, @moves numbered shipped resurrected empty_machine = Some m /\
    mc_answers m =
      [Checked (numbered 0) true (Some 100) (K_ok (mkRecord (js "u1") family 0 100));
       Checked (numbered 0) true (Some 100) (K_ok (mkRecord (js "u1") family 0 0));
       Answered; Created (js "u1") (numbered 0) []] /\
    rw_rec (mc_world m) !! numbered 0 = Some (RawJson (mkRecord (js "u1") family 0 100), None) /\
    rw_idx (mc_world m) !! js "u1" = None.
Proof. eexists. split; [vm_compute; reflexivity|]. split_and!; vm_compute; reflexivity. Qed.

(** [n] logins of one person, one after the other, in the same second. *)
Definition logins (fresh : nat -> jsstr) (n : nat) : RWorld :=
  Nat.iter n (fun w => (@run_alone fresh _ (@createSession shipped (js "u1") family) w).1) empty_world.

(** The loop stops at the login's own identifier, which sorts first among
    equal instants when it is the smallest: the cap of five is then not
    enforced at all. *)
Definition descending (n : nat) : jsstr := [N.of_nat (100 - n)].

Lemma same_second_cap : size (rw_rec (logins numbered 9)) = 5%nat /\ size (rw_rec (logins descending 9)) = 9%nat.
Proof. vm_compute. done. Qed.
