(* ===== verification/RefreshTokens.v ===== *)
(** * RefreshTokens: JWTs, rotation and revocation
      (apps/orchestrator/src/services/jwt.service.ts, session-mint.ts, and the routes
      /auth/refresh and /auth/logout of routes/auth.ts)

    Requests are programs of Redis and database commands, run in the pool of
    [Prog]; the session records they check, create and delete are those of
    [Sessions], whose programs run here as parts of the requests, with the
    denylist sweep of [revokeUserSessions] in the place where that file only names
    it.  The JWT library, the token hash and random values are parameters.  The
    OAuth2 fallback of a refresh, its answer without a database, and the
    Nextcloud half of a logout are left out. *)

From S2P Require Import Prelude Prog JsNum Json DateTime DateText RoleGuard Sessions.

Local Open Scope Z_scope.

(** ** The JWT library *)

(** [jwt_verify s token]: the claims of a token that carries the secret's HS256
    signature and has not expired at second [s]; [jwt_sign claims iat expiresIn]. *)
Class JwtApi := {
  jwt_verify : Z -> jsstr -> option entries;
  jwt_sign : entries -> Z -> Z -> jsstr;
  tokenHash : jsstr -> jsstr
}.

Definition claim (c : entries) (k : string) : jsval := default JUndef (alookup (js k) c).

(** [exp], a whole number of seconds. *)
Definition exp_of (c : entries) : option Z := match claim c "exp" with JNum n => num_int n | _ => None end.

(** The library's documented behaviour: a token is accepted until the second of
    its [exp], with the same claims each time; a signed token carries its claims
    (texts and nulls) with [iat] and [exp]. *)
Class JwtLaws `{JwtApi} := {
  verify_unexpired s t c e : jwt_verify s t = Some c -> exp_of c = Some e -> s < e;
  verify_stable s s' t c e : jwt_verify s t = Some c -> exp_of c = Some e -> s' < e -> jwt_verify s' t = Some c;
  verify_same s s' t c c' : jwt_verify s t = Some c -> jwt_verify s' t = Some c' -> c = c';
  verify_sign s c iat ttl : Forall (fun e => e.2 = JNull \/ exists t, e.2 = JStr t) c -> iat <= s < iat + ttl ->
    jwt_verify s (jwt_sign c iat ttl) = Some (c ++ [(js "iat", JNum (num_of_Z iat)); (js "exp", JNum (num_of_Z (iat + ttl)))])
}.

(** ** Tokens *)

(** [accessRoleId] has three states: unknown, none, a role. *)
Record JwtPayload := mkPayload {
  jp_sub : jsstr; jp_username : jsstr; jp_displayName : jsstr; jp_role : Role;
  jp_lastMfaAt : option jsstr; jp_sid : option jsstr; jp_accessRoleId : option (option jsstr)
}.

Definition ACCESS_TOKEN_TTL_SECONDS : Z := 15 * 60.
Definition REFRESH_TOKEN_TTL_SECONDS : Z := 7 * 24 * 60 * 60.
Definition VALID_ROLES : list Role := [owner; admin; family; guest; service].

Definition role_of_name (s : jsstr) : option Role := List.find (fun r => bool_decide (role_name r = s)) VALID_ROLES.

Section tokens.
Context `{JwtApi}.

(** A text that is not empty, spread in as a claim. *)
Definition claim_if (k : string) (v : option jsstr) : entries :=
  match v with Some (u :: r) => [(js k, JStr (u :: r))] | _ => [] end.

Definition access_claims (user : JwtPayload) : entries :=
  [(js "sub", JStr (jp_sub user)); (js "username", JStr (jp_username user));
   (js "displayName", JStr (jp_displayName user)); (js "role", JStr (role_name (jp_role user)))] ++
  claim_if "lastMfaAt" (jp_lastMfaAt user) ++ claim_if "sid" (jp_sid user) ++
  match jp_accessRoleId user with
  | None => []
  | Some None => [(js "accessRoleId", JNull)]
  | Some (Some r) => [(js "accessRoleId", JStr r)]
  end ++ [(js "type", JStr (js "access"))].

Definition refresh_claims (user : JwtPayload) (jti : jsstr) : entries :=
  [(js "sub", JStr (jp_sub user)); (js "username", JStr (jp_username user));
   (js "displayName", JStr (jp_displayName user)); (js "role", JStr (role_name (jp_role user)))] ++
  claim_if "sid" (jp_sid user) ++ [(js "type", JStr (js "refresh")); (js "jti", JStr jti)].

(** [now] is the clock in milliseconds, which the library reads. *)
Definition signAccessToken (user : JwtPayload) (now : Z) : jsstr := jwt_sign (access_claims user) (now / 1000) ACCESS_TOKEN_TTL_SECONDS.

Definition signRefreshToken (user : JwtPayload) (jti : jsstr) (now : Z) : jsstr :=
  jwt_sign (refresh_claims user jti) (now / 1000) REFRESH_TOKEN_TTL_SECONDS.

Definition str_claim (c : entries) (k : string) : option jsstr := match claim c k with JStr s => Some s | _ => None end.

(** A claim that must be there; the signers only write texts in these, and
    anything else is read as absent. *)
Definition must_claim (c : entries) (k : string) : option jsstr := match str_claim c k with Some (u :: r) => Some (u :: r) | _ => None end.

Definition is_type (c : entries) (k : string) : bool := bool_decide (str_claim c "type" = Some (js k)).

(** The claims every token must carry. *)
Definition read_identity (c : entries) : option (jsstr * jsstr * jsstr * Role) :=
  match must_claim c "sub", must_claim c "username", must_claim c "role" with
  | Some sub, Some username, Some role =>
      match role_of_name role with
      | Some role => Some (sub, username, default username (str_claim c "displayName"), role)
      | None => None
      end
  | _, _, _ => None
  end.

Definition verifyAccessToken (token : jsstr) (now : Z) : option JwtPayload :=
  match jwt_verify (now / 1000) token with
  | None => None
  | Some c =>
      if negb (is_type c "access") then None else
      match read_identity c with
      | None => None
      | Some (sub, username, displayName, role) =>
          Some (mkPayload sub username displayName role (str_claim c "lastMfaAt") (str_claim c "sid")
            (match claim c "accessRoleId" with JStr r => Some (Some r) | JNull => Some None | _ => None end))
      end
  end.

(** What [verifyRefreshToken] reads from the token, before the denylist. *)
Definition read_refresh (token : jsstr) (now : Z) : option JwtPayload :=
  match jwt_verify (now / 1000) token with
  | None => None
  | Some c =>
      if negb (is_type c "refresh") then None else
      match read_identity c with
      | None => None
      | Some (sub, username, displayName, role) => Some (mkPayload sub username displayName role None (str_claim c "sid") None)
      end
  end.

(** The expiry of a token that verifies, if it has one. *)
Definition verified_exp (token : jsstr) (now : Z) : option Z :=
  match jwt_verify (now / 1000) token with
  | Some c => match exp_of c with Some e => if e =? 0 then None else Some e | None => None end
  | None => None
  end.

Definition refresh_exp (token : jsstr) (now : Z) : option Z :=
  match jwt_verify (now / 1000) token with
  | Some c => if is_type c "refresh" then verified_exp token now else None
  | None => None
  end.

(** [`${tokenHash(token)}:${exp}`], and how it is read back. *)
Definition session_member (token : jsstr) (e : Z) : jsstr := tokenHash token ++ 58%N :: int_str e.

Definition whole_number (s : jsstr) : option Z :=
  match s with [] => None | _ => if forallb digitb s then Some (Z.of_N (dec_val s)) else None end.

Fixpoint split_last (c : N) (s : jsstr) : option (jsstr * jsstr) :=
  match s with
  | [] => None
  | u :: r => match split_last c r with
              | Some (a, b) => Some (u :: a, b)
              | None => if N.eqb u c then Some ([], r) else None
              end
  end.

Definition read_member (m : jsstr) : option (jsstr * Z) :=
  match split_last 58 m with
  | Some (u :: hash, rest) => match whole_number rest with Some e => Some (u :: hash, e) | None => None end
  | _ => None
  end.
End tokens.

(** ** The world and its commands *)

(** Keys of the denylist with the millisecond they expire at, and the sets of
    the session index. *)
Record TokenWorld := mkTokenWorld {
  tw_now : Z; tw_deny : gmap jsstr Z; tw_sets : gmap jsstr (list jsstr * option Z); tw_sess : RWorld
}.

Definition set_clock (now : Z) (w : TokenWorld) : TokenWorld := mkTokenWorld now (tw_deny w) (tw_sets w) (tw_sess w).
Definition set_deny (d : gmap jsstr Z) (w : TokenWorld) : TokenWorld := mkTokenWorld (tw_now w) d (tw_sets w) (tw_sess w).
Definition set_sets (s : gmap jsstr (list jsstr * option Z)) (w : TokenWorld) : TokenWorld := mkTokenWorld (tw_now w) (tw_deny w) s (tw_sess w).
Definition set_sess (s : RWorld) (w : TokenWorld) : TokenWorld := mkTokenWorld (tw_now w) (tw_deny w) (tw_sets w) s.

Record UserRow := mkUserRow { ur_role : option Role; ur_accessRoleId : option jsstr; ur_deactivated : bool }.

(** A Redis or database command answers [None] when it throws. *)
Inductive tcommand : Set -> Type :=
| Clock : tcommand Z
| Uuid : tcommand jsstr
| GetDeny (hash : jsstr) : tcommand (option bool)
| SetDeny (hash : jsstr) (ttl : Z) : tcommand (option unit)
| NxDeny (hash : jsstr) (ttl : Z) : tcommand (option bool)
| Sadd (uid member : jsstr) : tcommand (option unit)
| ExpireSetNX (uid : jsstr) (ttl : Z) : tcommand (option unit)
| ExpireSetGT (uid : jsstr) (ttl : Z) : tcommand (option unit)
| Srem (uid member : jsstr) : tcommand (option unit)
| Smembers (uid : jsstr) : tcommand (option (list jsstr))
| DelSet (uid : jsstr) : tcommand (option unit)
| FindUser (id : jsstr) : tcommand (option (option UserRow))
| TouchNc (uid : jsstr) : tcommand unit
| Sess {X : Set} (c : command X) : tcommand X.

Abbreviation tprog A := (Prog.prog tcommand A).

(** *** Redis *)

(** A key with an expiry is gone from that millisecond on. *)
Definition denied_at (w : TokenWorld) (hash : jsstr) : option Z :=
  match tw_deny w !! hash with Some e => if e <=? tw_now w then None else Some e | None => None end.

Definition set_at (w : TokenWorld) (uid : jsstr) : option (list jsstr * option Z) := tw_sets w !! uid ≫= unexpired (tw_now w).

(** Each step lets some time pass first. *)
Inductive tkind := T_redis (f : Fault) | T_text (s : jsstr) | T_user (u : option (option UserRow)) | T_none.
Definition tinput : Type := Z * tkind.

Section machine.
Context (fresh : nat -> jsstr).

Definition redis_step {X : Set} (f : Fault) (w w' : TokenWorld) (x : X) : option (TokenWorld * option X) := Some (faulty f w w' x).

Definition texec_at (X : Set) (inp : tkind) (c : tcommand X) (w : TokenWorld) : option (TokenWorld * X) :=
  match c in tcommand X return option (TokenWorld * X) with
  | Clock => match inp with T_none => Some (w, tw_now w) | _ => None end
  | Uuid => match inp with T_text s => Some (w, s) | _ => None end
  | FindUser _ => match inp with T_user u => Some (w, u) | _ => None end
  | TouchNc _ => match inp with T_none => Some (w, tt) | _ => None end
  | GetDeny h => match inp with T_redis f => redis_step f w w (bool_decide (is_Some (denied_at w h))) | _ => None end
  | SetDeny h ttl => match inp with T_redis f => redis_step f w (set_deny (<[h := tw_now w + 1000 * ttl]> (tw_deny w)) w) tt | _ => None end
  | NxDeny h ttl =>
      match inp with
      | T_redis f =>
          match denied_at w h with
          | Some _ => redis_step f w w false
          | None => redis_step f w (set_deny (<[h := tw_now w + 1000 * ttl]> (tw_deny w)) w) true
          end
      | _ => None
      end
  | Sadd uid m =>
      match inp with
      | T_redis f =>
          redis_step f w (set_sets (<[uid := match set_at w uid with
                                             | Some (l, e) => (if decide (m ∈ l) then l else m :: l, e)
                                             | None => ([m], None)
                                             end]> (tw_sets w)) w) tt
      | _ => None
      end
  | ExpireSetNX uid ttl =>
      match inp with
      | T_redis f =>
          redis_step f w (match set_at w uid with
                          | Some (l, None) => set_sets (<[uid := (l, Some (tw_now w + 1000 * ttl))]> (tw_sets w)) w
                          | _ => w
                          end) tt
      | _ => None
      end
  | ExpireSetGT uid ttl =>
      match inp with
      | T_redis f =>
          redis_step f w (match set_at w uid with
                          | Some (l, Some e) =>
                              if e <? tw_now w + 1000 * ttl then set_sets (<[uid := (l, Some (tw_now w + 1000 * ttl))]> (tw_sets w)) w else w
                          | _ => w
                          end) tt
      | _ => None
      end
  | Srem uid m =>
      match inp with
      | T_redis f =>
          redis_step f w (set_sets (match set_at w uid with
                                    | Some (l, e) => match filter (fun m' => m' <> m) l with
                                                     | [] => delete uid (tw_sets w)
                                                     | l' => <[uid := (l', e)]> (tw_sets w)
                                                     end
                                    | None => delete uid (tw_sets w)
                                    end) w) tt
      | _ => None
      end
  | Smembers uid => match inp with T_redis f => redis_step f w w (match set_at w uid with Some (l, _) => l | None => [] end) | _ => None end
  | DelSet uid => match inp with T_redis f => redis_step f w (set_sets (delete uid (tw_sets w)) w) tt | _ => None end
  | Sess c =>
      match inp with
      | T_redis f => match exec_faulty fresh f c (set_now (tw_now w / 1000) (tw_sess w)) with Some (s, x) => Some (set_sess s w, x) | None => None end
      | _ => None
      end
  end.

Definition texec (X : Set) (inp : tinput) (c : tcommand X) (w : TokenWorld) : option (TokenWorld * X) :=
  if 0 <=? inp.1 then texec_at X inp.2 c (set_clock (tw_now w + inp.1) w) else None.
End machine.

(** ** The operations *)

Section operations.
Context `{JwtApi, SessionConfig}.

(** *** jwt.service.ts *)

Definition denyRefreshToken (token : jsstr) : tprog (option unit) :=
  at_ <~ Clock;
  match verified_exp token at_ with
  | None => Ret (Some tt)
  | Some e =>
      now <~ Clock;
      let ttl := e - now / 1000 in
      if ttl <=? 0 then Ret (Some tt) else awaiting (SetDeny (tokenHash token) ttl) (fun _ => Ret (Some tt))
  end.

(** The read of the denylist fails open. *)
Definition verifyRefreshToken (token : jsstr) : tprog (option JwtPayload) :=
  at_ <~ Clock;
  match read_refresh token at_ with
  | None => Ret None
  | Some p => try_op (GetDeny (tokenHash token)) (Ret (Some p)) (fun denied => Ret (if (denied : bool) then None else Some p))
  end.

Definition claimRefreshRotation (token : jsstr) : tprog bool := try_op (NxDeny (tokenHash token) 30) (Ret false) Ret.

Definition cacheSetAdd (uid member : jsstr) (ttl : Z) : tprog unit :=
  try_op (Sadd uid member) (Ret tt) (fun _ =>
  try_op (ExpireSetNX uid ttl) (Ret tt) (fun _ =>
  try_op (ExpireSetGT uid ttl) (Ret tt) (fun _ => Ret tt))).

Definition registerRefreshSession (userId token : jsstr) : tprog unit :=
  at_ <~ Clock;
  match refresh_exp token at_ with
  | None => Ret tt
  | Some e =>
      now <~ Clock;
      let ttl := e - now / 1000 in
      if ttl <=? 0 then Ret tt else cacheSetAdd userId (session_member token e) ttl
  end.

Definition unregisterRefreshSession (userId token : jsstr) : tprog unit :=
  at_ <~ Clock;
  match refresh_exp token at_ with
  | None => Ret tt
  | Some e => try_op (Srem userId (session_member token e)) (Ret tt) (fun _ => Ret tt)
  end.

Fixpoint revoke_tokens (now : Z) (members : list jsstr) (revoked : Z) (k : Z -> tprog (option Z)) : tprog (option Z) :=
  match members with
  | [] => k revoked
  | member :: rest =>
      match read_member member with
      | None => revoke_tokens now rest revoked k
      | Some (hash, e) =>
          let ttl := e - now in
          if ttl <=? 0 then revoke_tokens now rest revoked k
          else awaiting (SetDeny hash ttl) (fun _ => revoke_tokens now rest (revoked + 1) k)
      end
  end.

Definition revokeUserSessions (userId : jsstr) : tprog (option Z) :=
  read <~ Smembers userId;
  at_ <~ Clock;
  revoke_tokens (at_ / 1000) (default [] read) 0 (fun revoked => awaiting (DelSet userId) (fun _ => Ret (Some revoked))).

(** A program of [Sessions] as a part of a request: the denylist sweep it calls
    is the one above. *)
Definition session_command (X : Set) (c : command X) : tprog X :=
  match c in command X return tprog X with
  | RevokeUserSessions uid => pbind (revokeUserSessions uid) (fun r => Ret (bool_decide (is_Some r)))
  | c => Op (Sess c) Ret
  end.

Definition session {A} (p : prog A) : tprog A := pinterp session_command p.

(** *** session-mint.ts *)

Record IssuedSession := mkIssued { is_sid : jsstr; is_accessToken : jsstr; is_refreshToken : jsstr; is_accessTokenExpiresAt : Z; is_refreshTokenExpiresAt : Z }.

Definition with_sid (sid : jsstr) (user : JwtPayload) : JwtPayload :=
  mkPayload (jp_sub user) (jp_username user) (jp_displayName user) (jp_role user) (jp_lastMfaAt user) (Some sid) (jp_accessRoleId user).

(** [user] with [opts.lastMfaAt]. *)
Definition issueSessionTokens (user : JwtPayload) : tprog IssuedSession :=
  pbind (session (createSession (jp_sub user) (jp_role user))) (fun s =>
  let user := with_sid s.1 user in
  now <~ Clock;
  let accessToken := signAccessToken user now in
  jti <~ Uuid;
  now <~ Clock;
  let refreshToken := signRefreshToken user jti now in
  pbind (registerRefreshSession (jp_sub user) refreshToken) (fun _ =>
  now <~ Clock;
  Ret (mkIssued s.1 accessToken refreshToken (now / 1000 + ACCESS_TOKEN_TTL_SECONDS) (now / 1000 + REFRESH_TOKEN_TTL_SECONDS)))).

(** *** routes/auth.ts *)

Inductive RefreshAnswer :=
| R_no_token | R_session_expired (reason : option ExpiryReason) | R_in_flight | R_not_provisioned
| R_rotated (accessToken refreshToken : jsstr) (wantBody : bool) | R_fallback.

(** The part of a rotation after the claim; [p] is what the token said. *)
Definition rotate (token : jsstr) (p : JwtPayload) (wantBody : bool) : tprog (option RefreshAnswer) :=
  let refuse := then_ (denyRefreshToken token) (fun _ => Ret (Some R_not_provisioned)) in
  awaiting (FindUser (jp_sub p)) (fun localUser =>
  match localUser with
  | None => refuse
  | Some u =>
      if ur_deactivated u then refuse else
      let user := mkPayload (jp_sub p) (jp_username p) (jp_displayName p) (default (jp_role p) (ur_role u)) None (jp_sid p) (Some (ur_accessRoleId u)) in
      then_ (denyRefreshToken token) (fun _ =>
      pbind (unregisterRefreshSession (jp_sub p) token) (fun _ =>
      jti <~ Uuid;
      now <~ Clock;
      let newRefreshToken := signRefreshToken user jti now in
      now <~ Clock;
      let newAccessToken := signAccessToken user now in
      pbind (registerRefreshSession (jp_sub p) newRefreshToken) (fun _ =>
      _t <~ TouchNc (jp_sub p);
      Ret (Some (R_rotated newAccessToken newRefreshToken wantBody)))))
  end).

(** The live session a rotation needs. *)
Definition session_check (sid : option jsstr) : tprog SessionCheckResult :=
  match sid with
  | Some (u :: r) => pbind (session (checkSession (u :: r) false)) (fun c => Ret c.2)
  | _ => Ret K_missing
  end.

(** [body] and [cookie] hold the token; [browser] tells a browser's marker
    header.  [R_fallback] is the legacy OAuth2 refresh that follows. *)
Definition refresh (body cookie : option jsstr) (browser : bool) : tprog (option RefreshAnswer) :=
  match (match body with Some b => Some b | None => cookie end) with
  | None | Some [] => Ret (Some R_no_token)
  | Some token =>
      pbind (verifyRefreshToken token) (fun refreshResult =>
      match refreshResult with
      | None => Ret (Some R_fallback)
      | Some p =>
          pbind (session_check (jp_sid p)) (fun sessionCheck =>
          let expired reason := then_ (denyRefreshToken token) (fun _ => Ret (Some (R_session_expired reason))) in
          match sessionCheck with
          | K_missing => expired None
          | K_expired reason => expired (Some reason)
          | _ =>
              pbind (claimRefreshRotation token) (fun claimed =>
              if negb claimed then Ret (Some R_in_flight)
              else rotate token p (bool_decide (is_Some body) && negb browser))
          end)
      end)
  end.

(** The part of a logout that ends the session; [user] is the signed-in person
    and the session of the access token. *)
Definition logout (user : option (jsstr * option jsstr)) (refreshToken : option jsstr) : tprog (option unit) :=
  let drop_session :=
    match user with
    | Some (u :: id, Some (s :: sid)) => pbind (session (deleteSession (u :: id) (s :: sid))) (fun _ => Ret (Some tt))
    | _ => Ret (Some tt)
    end in
  match refreshToken with
  | Some (t :: token) =>
      then_ (denyRefreshToken (t :: token)) (fun _ =>
      match user with
      | Some (u :: id, _) => pbind (unregisterRefreshSession (u :: id) (t :: token)) (fun _ => drop_session)
      | _ => drop_session
      end)
  | _ => drop_session
  end.

(** *** The requests *)

Inductive TokenRequest :=
| Q_issue (user : JwtPayload)
| Q_refresh (body cookie : option jsstr) (browser : bool)
| Q_logout (user : option (jsstr * option jsstr)) (refreshToken : option jsstr)
| Q_revoke (userId : jsstr)
| Q_sessions (o : Operation).

Inductive TokenAnswer :=
| A_issued (s : IssuedSession) | A_refresh (a : RefreshAnswer) | A_loggedOut | A_revoked (n : Z) | A_sessions (o : Outcome).

Definition token_program (q : TokenRequest) : tprog (option TokenAnswer) :=
  match q with
  | Q_issue user => pbind (issueSessionTokens user) (fun s => Ret (Some (A_issued s)))
  | Q_refresh body cookie browser => then_ (refresh body cookie browser) (fun a => Ret (Some (A_refresh a)))
  | Q_logout user t => then_ (logout user t) (fun _ => Ret (Some A_loggedOut))
  | Q_revoke uid => then_ (revokeUserSessions uid) (fun n => Ret (Some (A_revoked n)))
  | Q_sessions o => pbind (session (start o)) (fun r => Ret (Some (A_sessions r)))
  end.

Definition empty_tokens (now : Z) : TokenWorld := mkTokenWorld now ∅ ∅ empty_world.

Definition token_moves (fresh : nat -> jsstr) (mvs : list (PoolMove TokenRequest tinput)) (now : Z) :=
  pool_moves token_program (texec fresh) mvs (pool_of (empty_tokens now)).
End operations.

(** ** What a log says of one key of the denylist *)

(** A member of a session set splits where it was joined. *)
Lemma split_last_app c a b : c ∉ b -> split_last c (a ++ c :: b) = Some (a, b).
Proof.
  intros Hb. assert (Hn : split_last c b = None).
  { clear a. induction b as [|u r IH]; [done|]. cbn. rewrite IH by set_solver. destruct (N.eqb_spec u c); [set_solver|done]. }
  induction a as [|u a IH]; cbn; [by rewrite Hn, N.eqb_refl|]. by rewrite IH.
Qed.

Lemma digits_forallb l : Forall is_digit l -> forallb digitb l = true.
Proof. intros Hl. apply forallb_forall. intros c Hc%list_elem_of_In. rewrite Forall_forall in Hl. specialize (Hl c Hc). unfold is_digit in Hl. unfold digitb. rewrite andb_true_iff, !N.leb_le. lia. Qed.

Lemma read_session_member `{JwtApi} t e hash e' : 0 <= e -> read_member (session_member t e) = Some (hash, e') -> hash = tokenHash t /\ e' = e.
Proof.
  intros He. unfold read_member, session_member. assert (Hd : Forall is_digit (int_str e)).
  { unfold int_str. destruct (Z.ltb_spec e 0); [lia|]. apply dec_str_digits. }
  rewrite split_last_app by (by apply digit_not_in; [|unfold is_digit; lia]).
  destruct (tokenHash t) as [|u h]; [done|]. unfold whole_number, int_str in *. destruct (Z.ltb_spec e 0) as [|_]; [lia|].
  destruct (dec_str (Z.to_N e)) as [|u' r] eqn:Es; [done|]. rewrite digits_forallb by done. rewrite <- Es, dec_val_str.
  intros [= <- <-]. split; [done|lia].
Qed.

(** What an event did. *)
Definition clock_read (e : event tcommand) : option Z :=
  match e with Ev c x => match c in tcommand X return X -> option Z with Clock => Some | _ => fun _ => None end x end.

Definition won (hash : jsstr) (e : event tcommand) : bool :=
  match e with
  | Ev c x => match c in tcommand X return X -> bool with
              | NxDeny h _ => fun r => match r with Some true => bool_decide (h = hash) | _ => false end
              | _ => fun _ => false
              end x
  end.

Definition denied (hash : jsstr) (e : event tcommand) : bool :=
  match e with
  | Ev c x => match c in tcommand X return X -> bool with
              | SetDeny h _ => fun r => match r with Some _ => bool_decide (h = hash) | None => false end
              | _ => fun _ => false
              end x
  end.

Definition members_read (e : event tcommand) : option (list jsstr) :=
  match e with Ev c x => match c in tcommand X return X -> option (list jsstr) with Smembers _ => fun r => r | _ => fun _ => None end x end.

Section one_key.
Context `{JwtApi} (hash : jsstr) (X : Z).

(** A lower bound on the clock, and on the time the key lives to, from the log
    alone: a claim that is won is won because the key has gone. *)
Fixpoint bounds (log : list (nat * event tcommand)) : Z * option Z :=
  match log with
  | [] => (0, None)
  | (_, e) :: r =>
      let '(now, lives) := bounds r in
      let now := match clock_read e with Some t => Z.max t now | None => now end in
      if won hash e then
        let now := match lives with Some b => Z.max b now | None => now end in
        (now, Some (Z.min (now + 30000) (1000 * X)))
      else if denied hash e then (now, Some (1000 * X))
      else (now, lives)
  end.

Definition now_at_least (log : list (nat * event tcommand)) : Z := (bounds log).1.
Definition lives_to (log : list (nat * event tcommand)) : option Z := (bounds log).2.

(** The clock never reads less than the log says it must. *)
Fixpoint reads_on (log : list (nat * event tcommand)) : Prop :=
  match log with
  | [] => True
  | (_, e) :: r => (forall t, clock_read e = Some t -> now_at_least r <= t) /\ reads_on r
  end.

Lemma now_grows l log : now_at_least log <= now_at_least (l ++ log).
Proof.
  induction l as [|[i e] l IH]; [done|]. cbn. unfold now_at_least in *. cbn. destruct (bounds (l ++ log)) as [n o] eqn:E. cbn in IH.
  destruct (clock_read e), (won hash e), o, (denied hash e); cbn; lia.
Qed.

Lemma read_now i a log : (i, Ev Clock a) ∈ log -> a <= now_at_least log.
Proof.
  intros (l & l0 & ->)%list_elem_of_split. etrans; [|apply now_grows]. unfold now_at_least. cbn. destruct (bounds l0). cbn. lia.
Qed.

Lemma now_nonneg log : 0 <= now_at_least log.
Proof. rewrite <- (app_nil_r log). etrans; [|apply now_grows]. done. Qed.

Lemma lives_bounded log b : lives_to log = Some b -> b <= 1000 * X.
Proof.
  revert b. induction log as [|[i e] log IH]; intros b; [done|]. unfold lives_to in *. cbn. destruct (bounds log) as [n o]. cbn in IH.
  destruct (won hash e); cbn; [intros [= <-]; lia|]. destruct (denied hash e); cbn; [intros [= <-]; lia|apply IH].
Qed.

Lemma lives_grows l log b : lives_to log = Some b -> exists b', lives_to (l ++ log) = Some b' /\ b <= b'.
Proof.
  intros Hb. assert (Hx := lives_bounded _ _ Hb). induction l as [|[i e] l IH]; [by exists b|]. destruct IH as (b' & Hb' & Hle).
  assert (Hx' := lives_bounded _ _ Hb'). unfold lives_to in *. cbn. destruct (bounds (l ++ log)) as [n o]. cbn in Hb'. subst o.
  destruct (won hash e); cbn; [eexists; split; [done|destruct (clock_read e); lia]|]. destruct (denied hash e); cbn; eexists; (split; [done|lia]).
Qed.

Lemma won_lives i e log : won hash e = true -> lives_to ((i, e) :: log) = Some (Z.min (now_at_least ((i, e) :: log) + 30000) (1000 * X)).
Proof. intros Hw. unfold lives_to, now_at_least. cbn. destruct (bounds log). rewrite Hw. done. Qed.

Lemma denied_lives i e log : won hash e = false -> denied hash e = true -> lives_to ((i, e) :: log) = Some (1000 * X).
Proof. intros Hw Hd. unfold lives_to. cbn. destruct (bounds log). by rewrite Hw, Hd. Qed.

Lemma read_after l i t log : reads_on (l ++ log) -> (i, Ev Clock t) ∈ l -> now_at_least log <= t.
Proof.
  intros Hr (l1 & l2 & ->)%list_elem_of_split. rewrite <- app_assoc in Hr. induction l1 as [|[j e] l1 IH]; [|apply IH, Hr].
  destruct Hr as [Ht _]. etrans; [apply (now_grows l2)|]. by apply Ht.
Qed.

(** A claim that is won after the key was to live to [b] was won at [b] or
    later, and so is every reading after it. *)
Lemma won_after l i j e t log b : reads_on (l ++ (j, e) :: log) -> won hash e = true -> lives_to log = Some b -> (i, Ev Clock t) ∈ l -> b <= t.
Proof.
  intros Hr Hw Hb Hin. etrans; [|by eapply read_after]. unfold now_at_least, lives_to in *. cbn. destruct (bounds log). cbn in Hb. subst o. rewrite Hw.
  cbn. lia.
Qed.
End one_key.

(** ** What each command is issued with *)

Section protocol.
Context `{JwtApi, SessionConfig}.

(** The hash stands for a token that ends at second [e]: one that verified, or
    a member read from a session set. *)
Definition ends_at (h : list (event tcommand)) (hash : jsstr) (e : Z) : Prop :=
  (exists s t c, jwt_verify s t = Some c /\ exp_of c = Some e /\ hash = tokenHash t) \/
  (exists uid ms m, Ev (Smembers uid) (Some ms) ∈ h /\ m ∈ ms /\ read_member m = Some (hash, e)).

Definition token_needs (X : Set) (h : list (event tcommand)) (c : tcommand X) : Prop :=
  match c with
  | NxDeny _ ttl => ttl = 30
  | SetDeny hash ttl => exists a e, Ev Clock a ∈ h /\ ttl = e - a / 1000 /\ ends_at h hash e
  | Sadd _ m => exists a s t c e, Ev Clock a ∈ h /\ jwt_verify s t = Some c /\ exp_of c = Some e /\ a / 1000 < e /\ m = session_member t e
  | _ => True
  end.

Lemma token_needs_mono (X : Set) h h' (c : tcommand X) : h ⊆ h' -> token_needs X h c -> token_needs X h' c.
Proof.
  intros Hle. destruct c; cbn; try done.
  - intros (a & e & Ha & -> & Hx). exists a, e. split; [by apply Hle|]. split; [done|].
    destruct Hx as [Hx|(uid & ms & m & Hi & ? & ?)]; [by left|right]. exists uid, ms, m. split; [by apply Hle|done].
  - intros (a & s & t & c & e & ? & ? & ? & ? & ?). exists a, s, t, c, e. split; [by apply Hle|done].
Qed.

#[local] Instance token_protocol : Protocol tcommand := trace_protocol token_needs token_needs_mono.

(** Every command is issued with what it needs, whatever the answers. *)
Definition careful {A} (h : list (event tcommand)) (p : tprog A) : Prop := safe (fun _ _ => True) h p.

Lemma careful_op {A} {X : Set} h (c : tcommand X) (k : X -> tprog A) :
  token_needs X h c -> (forall h' x, h ⊆ h' -> Ev c x ∈ h' -> careful h' (k x)) -> careful h (Op c k).
Proof. intros Hn Hk. by apply safe_op. Qed.

Lemma careful_plain {A} {X : Set} h (c : tcommand X) (k : X -> tprog A) :
  (forall h', token_needs X h' c) -> (forall h' x, careful h' (k x)) -> careful h (Op c k).
Proof. intros Hn Hk. by apply careful_op. Qed.

Lemma careful_bind {A B} h (p : tprog A) (f : A -> tprog B) : careful h p -> (forall h' a, careful h' (f a)) -> careful h (pbind p f).
Proof. intros Hp Hf. eapply safe_bind; [exact Hp|]. intros h' a _ _. apply Hf. Qed.

Lemma careful_then {A B} h (p : tprog (option A)) (f : A -> tprog (option B)) :
  careful h p -> (forall h' a, careful h' (f a)) -> careful h (then_ p f).
Proof. intros Hp Hf. apply careful_bind; [done|]. by intros h' [a|]; [apply Hf|]. Qed.

Lemma careful_try {A} {X : Set} h (c : tcommand (option X)) (catch : tprog A) (k : X -> tprog A) :
  token_needs _ h c -> (forall h', careful h' catch) -> (forall h' x, careful h' (k x)) -> careful h (try_op c catch k).
Proof. intros Hn Hc Hk. apply safe_try; [done|intros; apply Hc|intros; apply Hk]. Qed.

Lemma verified_exp_ends t now e : verified_exp t now = Some e -> exists s c, jwt_verify s t = Some c /\ exp_of c = Some e.
Proof.
  unfold verified_exp. destruct (jwt_verify _ t) as [c|] eqn:E; [|done]. destruct (exp_of c) as [e'|] eqn:Ee; [|done].
  destruct (e' =? 0); [done|]. intros [= <-]. by exists (now / 1000), c.
Qed.

Lemma refresh_exp_ends t now e : refresh_exp t now = Some e -> exists s c, jwt_verify s t = Some c /\ exp_of c = Some e.
Proof. unfold refresh_exp. destruct (jwt_verify _ t); [|done]. destruct (is_type _ _); [apply verified_exp_ends|done]. Qed.

Lemma deny_careful t h : careful h (denyRefreshToken t).
Proof.
  apply careful_op; [done|]. intros h1 a _ _. destruct (verified_exp t a) as [e|] eqn:Ee; [|done].
  apply verified_exp_ends in Ee as (s & c & Hv & Hx). apply careful_op; [done|]. intros h2 now _ Hn. cbn. destruct (_ <=? 0); [done|].
  apply careful_try; [|done..]. exists now, e. split_and!; [done..|]. left. by exists s, t, c.
Qed.

Lemma verify_careful t h : careful h (verifyRefreshToken t).
Proof. apply careful_plain; [done|]. intros h1 a. destruct (read_refresh t a) as [p|]; [|done]. by apply careful_try. Qed.

Lemma claim_careful t h : careful h (claimRefreshRotation t).
Proof. by apply careful_try. Qed.

Lemma register_careful uid t h : careful h (registerRefreshSession uid t).
Proof.
  apply careful_op; [done|]. intros h1 a _ _. destruct (refresh_exp t a) as [e|] eqn:Ee; [|done].
  apply refresh_exp_ends in Ee as (s & c & Hv & Hx). apply careful_op; [done|]. intros h2 now _ Hn. cbn.
  destruct (Z.leb_spec (e - now / 1000) 0); [done|]. apply careful_try; [|done|].
  - exists now, s, t, c, e. split_and!; [done..|lia|done].
  - intros h3 _. apply careful_try; [done..|]. intros h4 _. by apply careful_try.
Qed.

Lemma unregister_careful uid t h : careful h (unregisterRefreshSession uid t).
Proof. apply careful_plain; [done|]. intros h1 a. destruct (refresh_exp t a); [|done]. by apply careful_try. Qed.

Lemma revoke_tokens_careful a uid ms members : forall revoked h k,
  members ⊆ ms -> Ev Clock a ∈ h -> Ev (Smembers uid) (Some ms) ∈ h -> (forall h' n, careful h' (k n)) ->
  careful h (revoke_tokens (a / 1000) members revoked k).
Proof.
  induction members as [|m members IH]; intros revoked h k Hsub Ha Hm Hk; cbn; [apply Hk|].
  assert (Hin : m ∈ ms) by (apply Hsub; left). assert (Hr : members ⊆ ms) by (intros x Hx; apply Hsub; by right).
  destruct (read_member m) as [[hash e]|] eqn:Er; [|by apply IH]. destruct (_ <=? 0); [by apply IH|].
  apply careful_op.
  - exists a, e. split_and!; [done..|]. right. by exists uid, ms, m.
  - intros h' [[]|] Hle _; [|done]. by apply IH; [|apply Hle|apply Hle|].
Qed.

Lemma revoke_careful uid h : careful h (revokeUserSessions uid).
Proof.
  apply careful_op; [done|]. intros h1 read _ Hm. apply careful_op; [done|]. intros h2 a Hle Ha.
  assert (Hk : forall h' (n : Z), careful h' (awaiting (DelSet uid) (fun _ => Ret (Some n)))) by (intros; by apply careful_try).
  destruct read as [ms|]; [|apply Hk]. eapply revoke_tokens_careful; [reflexivity|done|by apply Hle|done].
Qed.

Lemma session_careful {A} (p : prog A) h : careful h (session p).
Proof.
  revert h. induction p as [a|X c k IH]; intros h; [done|]. cbn. apply careful_bind; [|done]. destruct c; try (by apply careful_plain).
  apply careful_bind; [apply revoke_careful|done].
Qed.

#[local] Hint Resolve deny_careful verify_careful claim_careful register_careful unregister_careful revoke_careful session_careful : careful.
#[local] Hint Extern 1 (careful _ (Ret _)) => exact I : careful.

Ltac careful := repeat first
  [ solve [auto with careful] | progress cbn beta iota zeta
  | match goal with
    | |- careful _ (pbind _ _) => apply careful_bind; [|intros ? ?]
    | |- careful _ (then_ _ _) => apply careful_then; [|intros ? ?]
    | |- careful _ (awaiting _ _) => apply careful_try; [done|done|intros ? ?]
    | |- careful _ (Op _ _) => apply careful_plain; [done|intros ? ?]
    | |- careful _ (match ?x with _ => _ end) => destruct x
    end ].

Lemma token_program_careful q h : careful h (token_program q).
Proof. destruct q; cbn [token_program]; unfold issueSessionTokens, refresh, rotate, session_check, logout; careful. Qed.
End protocol.

(** ** The denylist, in every run *)

Section denylist.
Context `{JwtApi, SessionConfig} (fresh : nat -> jsstr) (hash : jsstr) (X : Z).

(** Every token that verifies under the hash ends at second [X]. *)
Hypothesis one_end : forall s t c e, jwt_verify s t = Some c -> exp_of c = Some e -> tokenHash t = hash -> e = X.

Definition good_member (m : jsstr) : Prop := forall e, read_member m = Some (hash, e) -> e = X.

Record token_ok (w : TokenWorld) (log : list (nat * event tcommand)) : Prop := {
  tk_now : now_at_least hash X log <= tw_now w;
  tk_lives : forall b, lives_to hash X log = Some b -> exists e, tw_deny w !! hash = Some e /\ b <= e;
  tk_reads : reads_on hash X log;
  tk_sets : forall uid l e m, tw_sets w !! uid = Some (l, e) -> m ∈ l -> good_member m;
  tk_members : forall i uid ms m, (i, Ev (Smembers uid) (Some ms)) ∈ log -> m ∈ ms -> good_member m
}.

Lemma later_ok ms w log : 0 <= ms -> token_ok w log -> token_ok (set_clock (tw_now w + ms) w) log.
Proof. intros Hms [? ? ? ? ?]. split; try done. cbn. lia. Qed.

(** What the key becomes. *)
Definition key_kept (w w' : TokenWorld) : Prop :=
  tw_now w' = tw_now w /\
  forall e, tw_deny w !! hash = Some e -> exists e', tw_deny w' !! hash = Some e' /\ (e <= e' \/ 1000 * X <= e').

Lemma same_key w w' : tw_now w' = tw_now w -> tw_deny w' = tw_deny w -> key_kept w w'.
Proof. intros Hn Hd. split; [done|]. intros e He. exists e. rewrite Hd. split; [done|by left]. Qed.

Lemma keeps_lives w w' log b : token_ok w log -> key_kept w w' -> lives_to hash X log = Some b -> exists e, tw_deny w' !! hash = Some e /\ b <= e.
Proof.
  intros Hok [_ Hk] Hb. destruct (tk_lives _ _ Hok b Hb) as (e & He & Hle). destruct (Hk e He) as (e' & He' & Hx).
  exists e'. split; [done|]. assert (b <= 1000 * X) by by eapply lives_bounded. lia.
Qed.

Definition sets_good (w : TokenWorld) : Prop := forall uid l e m, tw_sets w !! uid = Some (l, e) -> m ∈ l -> good_member m.

(** An event that tells nothing of the key. *)
Lemma plain_ok i (e : event tcommand) w w' log :
  token_ok w log -> key_kept w w' -> sets_good w' ->
  clock_read e = None -> won hash e = false -> denied hash e = false ->
  (forall ms m, members_read e = Some ms -> m ∈ ms -> good_member m) -> token_ok w' ((i, e) :: log).
Proof.
  intros Hok Hk Hs Hr Hw Hd Hm. assert (Hb : bounds hash X ((i, e) :: log) = bounds hash X log).
  { cbn. destruct (bounds hash X log). by rewrite Hr, Hw, Hd. } split.
  - unfold now_at_least. rewrite Hb. destruct Hk as [-> _]. apply Hok.
  - unfold lives_to. rewrite Hb. intros b. by eapply keeps_lives.
  - split; [by rewrite Hr|apply Hok].
  - exact Hs.
  - intros j uid ms m [[= _ Hx]|Hin]%elem_of_cons Hi; [by apply (Hm ms); [rewrite <- Hx|]|by eapply (tk_members _ _ Hok)].
Qed.

Lemma set_good w l uid e : sets_good w -> set_at w uid = Some (l, e) -> forall m, m ∈ l -> good_member m.
Proof.
  unfold set_at. intros Hs Hx m Hm. destruct (tw_sets w !! uid) as [[l' e']|] eqn:E; [|done]. cbn in Hx. unfold unexpired in Hx. cbn in Hx.
  destruct e' as [at_|]; [destruct (at_ <=? _); [done|]|]; injection Hx as <- _; by eapply Hs.
Qed.

Lemma put_good w uid l e : sets_good w -> (forall m, m ∈ l -> good_member m) -> sets_good (set_sets (<[uid := (l, e)]> (tw_sets w)) w).
Proof. intros Hs Hl u l' e' m. cbn. intros [[<- [= <- <-]]|[_ ?]]%lookup_insert_Some; [by apply Hl|by eapply Hs]. Qed.

Lemma drop_good w uid : sets_good w -> sets_good (set_sets (delete uid (tw_sets w)) w).
Proof. intros Hs u l' e' m. cbn. intros [_ ?]%lookup_delete_Some. by eapply Hs. Qed.

Lemma ends_here i w log e : token_ok w log -> ends_at (trace_of i log) hash e -> e = X.
Proof.
  intros Hok [(s & t & c & Hv & He & Ht)|(uid & ms & m & Hin & Hm & Hr)]; [by eapply one_end|].
  apply trace_of_elem in Hin. by eapply (tk_members _ _ Hok).
Qed.

Lemma clock_in i a w log : token_ok w log -> Ev Clock a ∈ trace_of i log -> 0 <= a <= tw_now w.
Proof.
  intros Hok Hin. apply trace_of_elem in Hin. split; [|etrans; [by eapply read_now|apply Hok]].
  apply list_elem_of_split in Hin as (l & l0 & ->). assert (Hr := tk_reads _ _ Hok). clear Hok. induction l as [|[j e] l IH]; [|apply IH, Hr].
  destruct Hr as [Ht _]. specialize (Ht a eq_refl). etrans; [|exact Ht]. apply now_nonneg.
Qed.

Lemma clock_ok i w log : token_ok w log -> token_ok w ((i, Ev Clock (tw_now w)) :: log).
Proof.
  intros Hok. destruct Hok as [Hn Hl Hr Hs Hm]. unfold now_at_least, lives_to in *. split; unfold now_at_least, lives_to; cbn.
  - destruct (bounds hash X log). cbn in *. lia.
  - destruct (bounds hash X log). exact Hl.
  - split; [|done]. intros t [= <-]. exact Hn.
  - done.
  - intros j uid ms m [[=]|Hin]%elem_of_cons. by eapply Hm.
Qed.

Lemma deny_key_ok i f h ttl w w' x log : token_ok w log -> token_needs _ (trace_of i log) (SetDeny h ttl) ->
  faulty f w (set_deny (<[h := tw_now w + 1000 * ttl]> (tw_deny w)) w) tt = (w', x) -> token_ok w' ((i, Ev (SetDeny h ttl) x) :: log).
Proof.
  intros Hok (a & e & Ha & -> & He) Hf. set (w1 := set_deny _ w) in Hf.
  assert (Hx : h = hash -> 1000 * X <= tw_now w + 1000 * (e - a / 1000)).
  { intros ->. rewrite (ends_here _ _ _ _ Hok He). pose proof (clock_in _ _ _ _ Hok Ha). pose proof (Z.mul_div_le a 1000). lia. }
  assert (Hk : key_kept w w1).
  { split; [done|]. intros e0 He0. cbn. destruct (decide (h = hash)) as [->|Hne]; [rewrite lookup_insert_eq; eexists; split; [done|by right; apply Hx]|].
    rewrite lookup_insert_ne by done. exists e0. split; [done|by left]. }
  destruct f; injection Hf as <- <-; [|by eapply plain_ok; [exact Hok|by apply same_key|exact (tk_sets _ _ Hok)|..]
                                        |by eapply plain_ok; [exact Hok|exact Hk|exact (tk_sets _ _ Hok)|..]].
  destruct (decide (h = hash)) as [Hh|Hne].
  2:{ eapply plain_ok; [exact Hok|exact Hk|exact (tk_sets _ _ Hok)|done|done| |done]. cbn. by rewrite bool_decide_eq_false_2. }
  subst h. specialize (Hx eq_refl). assert (Hd : denied hash (Ev (SetDeny hash (e - a / 1000)) (Some tt)) = true) by (cbn; by rewrite bool_decide_eq_true_2).
  destruct Hok as [Hn Hl Hr Hs Hm]. split; try done.
  - unfold now_at_least in *. cbn. destruct (bounds hash X log). cbn in Hn. by rewrite bool_decide_eq_true_2.
  - intros b. rewrite denied_lives by done. intros [= <-]. cbn. rewrite lookup_insert_eq. by eexists.
  - intros j uid ms m [[=]|Hin]%elem_of_cons. by eapply Hm.
Qed.

Lemma claim_key_ok i f h w w' x log : token_ok w log -> denied_at w h = None ->
  faulty f w (set_deny (<[h := tw_now w + 1000 * 30]> (tw_deny w)) w) true = (w', x) -> token_ok w' ((i, Ev (NxDeny h 30) x) :: log).
Proof.
  intros Hok Hfree Hf. set (w1 := set_deny _ w) in Hf.
  assert (Hold : forall e0, h = hash -> tw_deny w !! hash = Some e0 -> e0 <= tw_now w).
  { intros e0 -> He0. unfold denied_at in Hfree. rewrite He0 in Hfree. destruct (Z.leb_spec e0 (tw_now w)); [done|done]. }
  assert (Hk : key_kept w w1).
  { split; [done|]. intros e0 He0. cbn. destruct (decide (h = hash)) as [->|Hne]; [|rewrite lookup_insert_ne by done; exists e0; split; [done|by left]].
    rewrite lookup_insert_eq. eexists. split; [done|left]. specialize (Hold e0 eq_refl He0). lia. }
  destruct f; injection Hf as <- <-; [|by eapply plain_ok; [exact Hok|by apply same_key|exact (tk_sets _ _ Hok)|..]
                                        |by eapply plain_ok; [exact Hok|exact Hk|exact (tk_sets _ _ Hok)|..]].
  destruct (decide (h = hash)) as [Hh|Hne].
  2:{ eapply plain_ok; [exact Hok|exact Hk|exact (tk_sets _ _ Hok)|done| |done|done]. cbn. by rewrite bool_decide_eq_false_2. }
  subst h. assert (Hw : won hash (Ev (NxDeny hash 30) (Some true)) = true) by (cbn; by rewrite bool_decide_eq_true_2).
  destruct Hok as [Hn Hl Hr Hs Hm].
  assert (Hnow : now_at_least hash X ((i, Ev (NxDeny hash 30) (Some true)) :: log) <= tw_now w1).
  { unfold now_at_least, lives_to in *. cbn. destruct (bounds hash X log) as [n [b|]]; cbn in *; rewrite bool_decide_eq_true_2 by done; cbn; [|done].
    destruct (Hl b eq_refl) as (e0 & He0 & Hle). specialize (Hold e0 eq_refl He0). lia. }
  split; try done.
  - intros b. rewrite won_lives by done. intros [= <-]. cbn. rewrite lookup_insert_eq. eexists. split; [done|]. cbn in Hnow. lia.
  - intros j uid ms m [[=]|Hin]%elem_of_cons. by eapply Hm.
Qed.

(** A command that leaves the denylist alone. *)
Lemma aside_ok {A : Set} i f w w1 (v : A) w' x (c : tcommand (option A)) log :
  token_ok w log -> faulty f w w1 v = (w', x) -> tw_now w1 = tw_now w -> tw_deny w1 = tw_deny w -> sets_good w1 ->
  clock_read (Ev c x) = None -> won hash (Ev c x) = false -> denied hash (Ev c x) = false ->
  (forall ms m, members_read (Ev c x) = Some ms -> m ∈ ms -> good_member m) -> token_ok w' ((i, Ev c x) :: log).
Proof.
  intros Hok Hf Hn Hd Hs Hr Hw Hd' Hm. assert (tw_now w' = tw_now w /\ tw_deny w' = tw_deny w /\ sets_good w') as (? & ? & ?).
  { assert (Hs0 := tk_sets _ _ Hok). by destruct f; injection Hf as <- _. }
  apply plain_ok with w; [done|by apply same_key|done..].
Qed.

Lemma added_good i w log (uid m : jsstr) : token_ok w log -> token_needs _ (trace_of i log) (Sadd uid m) -> good_member m.
Proof.
  intros Hok (a & s & t & c & e & Ha & Hv & He & Hlt & ->) e' Hr. pose proof (clock_in _ _ _ _ Hok Ha). assert (0 <= a / 1000) by (apply Z.div_pos; lia).
  apply read_session_member in Hr as [Hh ->]; [|lia]. by eapply one_end.
Qed.

Lemma token_ok_step (Y : Set) i inp (c : tcommand Y) w w' x log :
  texec fresh Y inp c w = Some (w', x) -> token_needs Y (trace_of i log) c -> token_ok w log -> token_ok w' ((i, Ev c x) :: log).
Proof.
  unfold texec. destruct (Z.leb_spec 0 inp.1) as [Hms|]; [|done]. intros He Hn Hok. apply later_ok with (ms := inp.1) in Hok; [|done].
  revert He Hok. generalize (set_clock (tw_now w + inp.1) w). clear w. intros w He Hok. assert (Hs := tk_sets _ _ Hok).
  assert (Hset : forall uid l e, set_at w uid = Some (l, e) -> forall m, m ∈ l -> good_member m) by (intros; by eapply set_good).
  destruct c; cbn -[faulty] in He; destruct (inp.2) as [f|s|u|]; try done; unfold redis_step in He.
  - injection He as <- <-. by apply clock_ok.
  - injection He as <- <-. by eapply plain_ok; [exact Hok|by apply same_key|done|..].
  - injection He as He. by eapply aside_ok; [exact Hok|exact He|..].
  - injection He as He. by eapply deny_key_ok.
  - cbn in Hn. subst ttl. destruct (denied_at w hash0) as [e|] eqn:Ed; injection He as He; [|by eapply claim_key_ok].
    by eapply aside_ok; [exact Hok|exact He|..]; destruct f; injection He as _ <-.
  - injection He as He. eapply aside_ok; [exact Hok|exact He|done|done| |done..]. assert (Hg := added_good _ _ _ _ _ Hok Hn).
    destruct (set_at w uid) as [[l e]|] eqn:Es; (apply put_good; [done|]).
    + destruct (decide _); intros m; [by eapply Hset|]. intros [->|Hm]%elem_of_cons; [done|by eapply Hset].
    + intros m ->%list_elem_of_singleton. exact Hg.
  - injection He as He. eapply aside_ok; [exact Hok|exact He| | | |done..]; destruct (set_at w uid) as [[l [e|]]|] eqn:Es; try done.
    apply put_good; [done|by eapply Hset].
  - injection He as He. eapply aside_ok; [exact Hok|exact He| | | |done..]; destruct (set_at w uid) as [[l [e|]]|] eqn:Es; try done; destruct (_ <? _); try done.
    apply put_good; [done|by eapply Hset].
  - injection He as He. eapply aside_ok; [exact Hok|exact He|done|done| |done..]. destruct (set_at w uid) as [[l e]|] eqn:Es; [|by apply drop_good].
    destruct (filter _ l) as [|m0 l'] eqn:Ef; [by apply drop_good|]. apply put_good; [done|]. intros m Hm. rewrite <- Ef in Hm.
    apply list_elem_of_filter in Hm as [_ Hm]. by eapply Hset.
  - injection He as He. eapply aside_ok; [exact Hok|exact He|done..|]. intros ms m Hx Hm. destruct f; injection He as _ <-; [|done|done].
    injection Hx as <-. destruct (set_at w uid) as [[l e]|] eqn:Es; [by eapply Hset|by apply elem_of_nil in Hm].
  - injection He as He. eapply aside_ok; [exact Hok|exact He|done|done|by apply drop_good|done..].
  - injection He as <- <-. by eapply plain_ok; [exact Hok|by apply same_key|done|..].
  - injection He as <- <-. by eapply plain_ok; [exact Hok|by apply same_key|done|..].
  - destruct (exec_faulty _ _ _ _) as [[s x']|]; [|done]. injection He as <- <-. by eapply plain_ok; [exact Hok|by apply same_key|done|..].
Qed.
End denylist.

(** ** What a request that answered did *)

Section traces.
Context `{JwtApi, SessionConfig}.

Lemma runs_then {A B} (p : tprog (option A)) (k : A -> tprog (option B)) tr b :
  runs (then_ p k) tr (Some b) -> exists tr1 tr2 a, tr = tr1 ++ tr2 /\ runs p tr1 (Some a) /\ runs (k a) tr2 (Some b).
Proof. intros Hr. apply runs_bind in Hr as (tr1 & tr2 & [a|] & -> & Hp & Hk); [by exists tr1, tr2, a|]. by destruct Hk. Qed.

Lemma runs_awaiting {B} {X : Set} (c : tcommand (option X)) (k : X -> tprog (option B)) tr b :
  runs (awaiting c k) tr (Some b) -> exists x tr', tr = Ev c (Some x) :: tr' /\ runs (k x) tr' (Some b).
Proof. intros (o & tr' & -> & Hr). destruct o as [x|]; [by exists x, tr'|]. by destruct Hr. Qed.

(** The token presented to a refresh. *)
Definition presented (body cookie : option jsstr) : option jsstr :=
  match (match body with Some b => Some b | None => cookie end) with Some (u :: r) => Some (u :: r) | _ => None end.

(** [denyRefreshToken] came to its end: it wrote the denylist, or it read the
    clock when the token no longer verified. *)
Definition disposed (tr : list (event tcommand)) (token : jsstr) : Prop :=
  (exists ttl, Ev (SetDeny (tokenHash token) ttl) (Some tt) ∈ tr) \/
  (exists a, Ev Clock a ∈ tr /\ (verified_exp token a = None \/ exists e a', verified_exp token a' = Some e /\ e <= a / 1000)).

Lemma runs_deny token tr : runs (denyRefreshToken token) tr (Some tt) -> disposed tr token.
Proof.
  intros (a & tr1 & -> & Hr). destruct (verified_exp token a) as [e|] eqn:Ee; [|right; exists a; split; [left|by left]].
  destruct Hr as (now & tr2 & -> & Hr). cbn in Hr. destruct (Z.leb_spec (e - now / 1000) 0).
  - right. exists now. split; [right; left|]. right. exists e, a. split; [done|lia].
  - apply runs_awaiting in Hr as ([] & tr3 & -> & _). left. eexists. right. right. left.
Qed.

Lemma runs_verify token tr p : runs (verifyRefreshToken token) tr (Some p) -> exists a, Ev Clock a ∈ tr /\ read_refresh token a = Some p.
Proof.
  intros (a & tr1 & -> & Hr). exists a. split; [left|]. destruct (read_refresh token a) as [p'|]; [|by destruct Hr].
  destruct Hr as ([[]|] & tr2 & -> & Hr); cbn in Hr; by destruct Hr as [_ [= <-]].
Qed.

Lemma runs_claim token tr : runs (claimRefreshRotation token) tr true -> tr = [Ev (NxDeny (tokenHash token) 30) (Some true)].
Proof. intros ([b|] & tr1 & -> & Hr); destruct Hr as [-> Hb]; [by rewrite Hb|done]. Qed.

(** The tokens of a rotation, made for the person's row of that moment. *)
Definition rotated_for (p : JwtPayload) (tr : list (event tcommand)) (accessToken refreshToken : jsstr) : Prop :=
  exists u jti now now', Ev (FindUser (jp_sub p)) (Some (Some u)) ∈ tr /\ ur_deactivated u = false /\
    Ev Uuid jti ∈ tr /\ Ev Clock now ∈ tr /\ Ev Clock now' ∈ tr /\
    let user := mkPayload (jp_sub p) (jp_username p) (jp_displayName p) (default (jp_role p) (ur_role u)) None (jp_sid p) (Some (ur_accessRoleId u)) in
    refreshToken = signRefreshToken user jti now /\ accessToken = signAccessToken user now'.

Lemma runs_rotate token p wb tr acc ref w :
  runs (rotate token p wb) tr (Some (R_rotated acc ref w)) ->
  exists d post, tr = d ++ post /\ disposed d token /\ (exists b, Ev Clock b ∈ post) /\ rotated_for p tr acc ref.
Proof.
  intros Hr. apply runs_awaiting in Hr as (row & tr1 & -> & Hr). cbn zeta in Hr.
  assert (Hno : forall tr', ~ runs (then_ (denyRefreshToken token) (fun _ => Ret (Some R_not_provisioned))) tr' (Some (R_rotated acc ref w))).
  { intros tr' Hx. apply runs_then in Hx as (? & ? & ? & _ & _ & Hx). by destruct Hx as [_ [=]]. }
  destruct row as [u|]; [|by apply Hno in Hr]. destruct (ur_deactivated u) eqn:Eu; [by apply Hno in Hr|].
  apply runs_then in Hr as (d & tr2 & [] & -> & Hd & Hr). apply runs_deny in Hd.
  apply runs_bind in Hr as (tr3 & tr4 & [] & -> & _ & Hr). destruct Hr as (jti & tr5 & -> & now & tr6 & -> & now' & tr7 & -> & Hr). cbn zeta in Hr.
  apply runs_bind in Hr as (tr8 & tr9 & [] & -> & _ & _t & tr10 & -> & [-> [= -> -> ->]]).
  exists (Ev (FindUser (jp_sub p)) (Some (Some u)) :: d), (tr3 ++ Ev Uuid jti :: Ev Clock now :: Ev Clock now' :: tr8 ++ [Ev (TouchNc (jp_sub p)) _t]).
  split; [done|]. split; [|split].
  - destruct Hd as [[ttl Hx]|(a & Hx & ?)]; [left; exists ttl; by right|right; exists a; split; [by right|done]].
  - exists now. set_solver.
  - exists u, jti, now, now'. split; [left|]. split; [done|]. set_solver.
Qed.

(** A rotation: the token verified, the claim was won, then it was disposed of,
    and only then the new pair was made. *)
Lemma runs_refresh body cookie browser tr acc ref w :
  runs (refresh body cookie browser) tr (Some (R_rotated acc ref w)) ->
  exists token a p pre d post, presented body cookie = Some token /\
    tr = pre ++ Ev (NxDeny (tokenHash token) 30) (Some true) :: d ++ post /\ Ev Clock a ∈ pre /\ read_refresh token a = Some p /\
    disposed d token /\ (exists b, Ev Clock b ∈ post) /\ rotated_for p (d ++ post) acc ref.
Proof.
  unfold refresh, presented. destruct (match body with Some b => Some b | None => cookie end) as [[|c token]|] eqn:Et; [by intros [_ [=]]| |by intros [_ [=]]].
  intros Hr. apply runs_bind in Hr as (tr1 & tr2 & [p|] & -> & Hv & Hr); [|by destruct Hr as [_ [=]]].
  apply runs_verify in Hv as (a & Ha & Hp). apply runs_bind in Hr as (tr3 & tr4 & check & -> & _ & Hr). cbn zeta in Hr.
  assert (Hrot : exists tr5 tr6, tr4 = tr5 ++ tr6 /\ tr5 = [Ev (NxDeny (tokenHash (c :: token)) 30) (Some true)] /\
    runs (rotate (c :: token) p (bool_decide (is_Some body) && negb browser)) tr6 (Some (R_rotated acc ref w))).
  { assert (Hno : forall r tr', ~ runs (then_ (denyRefreshToken (c :: token)) (fun _ => Ret (Some (R_session_expired r)))) tr' (Some (R_rotated acc ref w))).
    { intros r tr' Hx. apply runs_then in Hx as (? & ? & ? & _ & _ & Hx). by destruct Hx as [_ [=]]. }
    destruct check; try (by apply Hno in Hr); apply runs_bind in Hr as (tr5 & tr6 & [] & -> & Hc & Hr); try (by destruct Hr as [_ [=]]);
      apply runs_claim in Hc; by exists tr5, tr6. }
  destruct Hrot as (tr5 & tr6 & -> & -> & Hrot). apply runs_rotate in Hrot as (d & post & -> & Hd & Hb & Hf).
  exists (c :: token), a, p, (tr1 ++ tr3), d, post. split; [done|]. split; [by rewrite <- app_assoc|]. split; [set_solver|done].
Qed.
End traces.

(** ** Rotations of one token *)

(** The request read the clock at the token's end or later; two of its readings
    are thirty seconds apart. *)
Definition outlived (X : Z) (tr : list (event tcommand)) : Prop := exists b, Ev Clock b ∈ tr /\ 1000 * X <= b.
Definition slow (tr : list (event tcommand)) : Prop := exists a b, Ev Clock a ∈ tr /\ Ev Clock b ∈ tr /\ a + 30000 <= b.

Lemma in_order {A} (l1 l2 k1 k2 : list A) x y : l1 ++ x :: l2 = k1 ++ y :: k2 -> x <> y ->
  (exists k, l1 = k1 ++ y :: k /\ k2 = k ++ x :: l2) \/ (exists k, k1 = l1 ++ x :: k /\ l2 = k ++ y :: k2).
Proof.
  intros [(k & -> & Hk)|(k & -> & Hk)]%app_eq_inv Hne; destruct k as [|z k]; injection Hk as <- Hk; try done; [left|right]; by exists k.
Qed.

Section rotations.
Context `{JwtLaws, SessionConfig} (fresh : nat -> jsstr) (token : jsstr) (X : Z).

Abbreviation hash := (tokenHash token).

(** The token ends at second [X], and so does whatever else has its hash. *)
Context (s0 : Z) (c0 : entries) (Hverified : jwt_verify s0 token = Some c0) (Hends : exp_of c0 = Some X).
Context (one_end : forall s t c e, jwt_verify s t = Some c -> exp_of c = Some e -> tokenHash t = hash -> e = X).

Abbreviation tok_ok := (token_ok hash X).

Lemma tokens_start now : 0 <= now -> tok_ok (empty_tokens now) [].
Proof. intros Hn. split; try done. intros i uid ms m Hin. by apply elem_of_nil in Hin. Qed.

Lemma tokens_moves_ok mvs m m' :
  pool_moves token_program (texec fresh) mvs m = Some m' -> pool_ok token_program m -> tok_ok (pl_world m) (pl_log m) ->
  pool_ok token_program m' /\ tok_ok (pl_world m') (pl_log m').
Proof.
  apply pool_moves_keep with (N := token_needs).
  - intros q tr Y c k Hl. refine (proj1 (safe_leads (Protocol0 := trace_protocol token_needs token_needs_mono) id _ _ _ _ _ Hl [] _)); [apply trace_obs|].
    apply token_program_careful.
  - intros. by eapply token_ok_step.
Qed.

Lemma disposed_or_outlived i w log tr : tok_ok w log -> (forall e, e ∈ tr -> e ∈ trace_of i log) -> disposed tr token ->
  (exists ttl, Ev (SetDeny hash ttl) (Some tt) ∈ tr) \/ outlived X tr.
Proof.
  intros Hok Hsub [?|(a & Ha & Hx)]; [by left|right]. exists a. split; [done|]. destruct (clock_in _ _ _ _ _ _ Hok (Hsub _ Ha)) as [Ha0 _].
  assert (Hle : X <= a / 1000 -> 1000 * X <= a) by (pose proof (Z.mul_div_le a 1000); lia).
  destruct (Z.le_gt_cases X (a / 1000)) as [|Hlt]; [auto|]. assert (0 <= a / 1000) by (apply Z.div_pos; lia).
  assert (Hv := verify_stable _ _ _ _ _ Hverified Hends Hlt). destruct Hx as [Hx|(e & a' & Hx & He)].
  - unfold verified_exp in Hx. rewrite Hv, Hends in Hx. destruct (Z.eqb_spec X 0); [lia|done].
  - apply verified_exp_ends in Hx as (s & c & Hs & Hc). assert (c = c0) as -> by by eapply verify_same. assert (e = X) as -> by congruence. auto.
Qed.

(** The log, oldest last: the first request's claim, [K], the second's. *)
Lemma first_and_second w log i j L K M wi wj a d post b' :
  log = M ++ (j, wj) :: K ++ (i, wi) :: L ->
  tok_ok w log -> i <> j -> won hash wi = true -> won hash wj = true ->
  Ev Clock a ∈ trace_of i L -> trace_of i (M ++ (j, wj) :: K) = d ++ post -> disposed d token -> (exists b, Ev Clock b ∈ post) ->
  Ev Clock b' ∈ trace_of j M ->
  slow (trace_of i log) \/ exists k, (k = i \/ k = j) /\ outlived X (trace_of k log).
Proof.
  intros Hlog Hok Hne Hwi Hwj Ha Htr Hd (b & Hb) Hb'. assert (Hall : trace_of i log = trace_of i L ++ wi :: d ++ post).
  { rewrite Hlog, app_comm_cons, app_assoc, trace_of_app, trace_of_same, Htr. by rewrite <- app_assoc. }
  destruct (disposed_or_outlived i w log d Hok) as [[ttl Hset]|(b0 & Hb0 & Hle)]; [rewrite Hall; set_solver|done| |].
  2:{ right. exists i. split; [by left|]. exists b0. split; [|done]. rewrite Hall. set_solver. }
  rewrite trace_of_app, trace_of_other in Htr by congruence. apply app_eq_inv in Htr as [(k & HK & Hpost)|(k & -> & HM)].
  - assert (Hin : (i, Ev (SetDeny hash ttl) (Some tt)) ∈ K) by (apply trace_of_elem; rewrite HK; set_solver).
    apply list_elem_of_split in Hin as (K1 & K2 & ->). right. exists j. split; [by right|]. exists b'. split; [rewrite Hlog; apply trace_of_elem, elem_of_app; left; by apply trace_of_elem|].
    assert (Hl := denied_lives hash X i (Ev (SetDeny hash ttl) (Some tt)) (K2 ++ (i, wi) :: L) eq_refl ltac:(by cbn; rewrite bool_decide_eq_true_2)).
    destruct (lives_grows hash X K1 _ _ Hl) as (b1 & Hb1 & Hle). etrans; [exact Hle|]. eapply (won_after hash X M j); [|exact Hwj|exact Hb1|by apply trace_of_elem].
    assert (Hr := tk_reads _ _ _ _ Hok). by rewrite Hlog, <- app_assoc in Hr.
  - assert (Hin : (i, Ev Clock b) ∈ M) by (apply trace_of_elem; rewrite HM; set_solver).
    assert (Hl := won_lives hash X i wi L Hwi). destruct (lives_grows hash X K _ _ Hl) as (b1 & Hb1 & Hle).
    assert (Hr := tk_reads _ _ _ _ Hok). rewrite Hlog in Hr. assert (Hbb : b1 <= b) by (eapply (won_after hash X M); [exact Hr|exact Hwj|exact Hb1|exact Hin]).
    assert (Ha' : a <= now_at_least hash X ((i, wi) :: L)) by (etrans; [by eapply read_now, trace_of_elem|apply (now_grows _ _ [_])]).
    assert (a + 30000 <= b \/ 1000 * X <= b) as [Hs|Ho] by lia.
    + left. exists a, b. rewrite Hall. set_solver.
    + right. exists i. split; [by left|]. exists b. rewrite Hall. set_solver.
Qed.
End rotations.

(** Requests that use a token up or refuse it for good. *)
Definition retires (q : TokenRequest) (a : TokenAnswer) (token : jsstr) : Prop :=
  match q, a with
  | Q_logout _ t, A_loggedOut => presented None t = Some token
  | Q_refresh b c _, A_refresh (R_rotated _ _ _ | R_session_expired _ | R_not_provisioned) => presented b c = Some token
  | _, _ => False
  end.

Section answers.
Context `{JwtApi, SessionConfig}.

Lemma disposed_mono tr tr' token : tr ⊆ tr' -> disposed tr token -> disposed tr' token.
Proof. intros Hs [[ttl ?]|(a & ? & ?)]; [left; exists ttl; by apply Hs|right; exists a; split; [by apply Hs|done]]. Qed.

Lemma runs_answer {A B} (p : tprog (option A)) (f : A -> B) tr b :
  runs (then_ p (fun a => Ret (Some (f a)))) tr (Some b) -> exists a, b = f a /\ runs p tr (Some a).
Proof. intros (tr1 & tr2 & a & -> & Hr & [-> [= ->]])%runs_then. exists a. by rewrite app_nil_r. Qed.

Lemma runs_denied token {B} (r b : B) tr : runs (then_ (denyRefreshToken token) (fun _ => Ret (Some r))) tr (Some b) -> disposed tr token.
Proof. intros (tr1 & tr2 & [] & -> & Hr%runs_deny & _)%runs_then. eapply disposed_mono; [|exact Hr]. set_solver. Qed.

Lemma runs_rotate_disposed token p wb tr a : runs (rotate token p wb) tr (Some a) -> disposed tr token.
Proof.
  intros (row & tr1 & -> & Hr)%runs_awaiting. cbn zeta in Hr. eapply disposed_mono with tr1; [set_solver|].
  destruct row as [u|]; [|by eapply runs_denied]. destruct (ur_deactivated u); [by eapply runs_denied|].
  apply runs_then in Hr as (d & tr2 & [] & -> & Hd%runs_deny & _). eapply disposed_mono; [|exact Hd]. set_solver.
Qed.

Lemma runs_refresh_disposed token b c br tr a :
  runs (refresh b c br) tr (Some a) -> retires (Q_refresh b c br) (A_refresh a) token -> disposed tr token.
Proof.
  unfold retires, refresh, presented. destruct (match b with Some x => Some x | None => c end) as [[|u t]|]; [by destruct a| |by destruct a].
  intros (tr1 & tr2 & [p|] & -> & _ & Hr)%runs_bind; [|by destruct Hr as [_ [= ->]]].
  apply runs_bind in Hr as (tr3 & tr4 & check & -> & _ & Hr). cbn zeta in Hr. intros Ha. assert (Ht : u :: t = token) by (destruct a; cbn in Ha; done || congruence). subst token.
  eapply disposed_mono with tr4; [set_solver|].
  destruct check; try (by eapply runs_denied); apply runs_bind in Hr as (tr5 & tr6 & [] & -> & _ & Hr); try (by destruct Hr as [_ [= ->]]);
    (eapply disposed_mono with tr6; [set_solver|]; cbn [negb] in Hr; by eapply runs_rotate_disposed).
Qed.

Lemma runs_retires q a token tr : runs (token_program q) tr (Some a) -> retires q a token -> disposed tr token.
Proof.
  destruct q; cbn [token_program]; try done; intros Hr Ha.
  - apply runs_answer in Hr as (a' & -> & Hr). by eapply runs_refresh_disposed.
  - apply runs_answer in Hr as ([] & -> & Hr). cbn in Ha. unfold presented in Ha. destruct refreshToken as [[|u t]|]; [done| |done]. injection Ha as <-.
    unfold logout in Hr. apply runs_then in Hr as (d & tr2 & [] & -> & Hd%runs_deny & _). eapply disposed_mono; [|exact Hd]. set_solver.
Qed.

Lemma runs_rotation b c br tr acc ref w : runs (token_program (Q_refresh b c br)) tr (Some (A_refresh (R_rotated acc ref w))) ->
  runs (refresh b c br) tr (Some (R_rotated acc ref w)).
Proof. intros Hr. apply runs_answer in Hr as (a' & [= <-] & Hr). exact Hr. Qed.
End answers.

(** C6: a refresh token rotates once.  However requests interleave, whichever
    Redis commands fail before or after taking effect, and however the time
    passes: when two requests both answered with a new pair for one token, then
    one of them took thirty seconds or more between two readings of the clock,
    which is what the claim lasts, or read the clock after the token's end. *)
Theorem refresh_token_rotates_once `{JwtLaws, SessionConfig} fresh mvs now m token s0 c0 X i j b1 c1 br1 b2 c2 br2 acc1 ref1 w1 acc2 ref2 w2 :
  0 <= now -> token_moves fresh mvs now = Some m ->
  jwt_verify s0 token = Some c0 -> exp_of c0 = Some X ->
  (forall s t c e, jwt_verify s t = Some c -> exp_of c = Some e -> tokenHash t = tokenHash token -> e = X) ->
  i <> j -> presented b1 c1 = Some token -> presented b2 c2 = Some token ->
  pl_done m !! i = Some (Q_refresh b1 c1 br1, Some (A_refresh (R_rotated acc1 ref1 w1))) ->
  pl_done m !! j = Some (Q_refresh b2 c2 br2, Some (A_refresh (R_rotated acc2 ref2 w2))) ->
  exists k, (k = i \/ k = j) /\ (slow (trace_of k (pl_log m)) \/ outlived X (trace_of k (pl_log m))).
Proof.
  intros Hnow Hm Hv He Hone Hne Hp1 Hp2 Hi Hj.
  destruct (tokens_moves_ok fresh token X Hone _ _ _ Hm (pool_of_ok _ _) (tokens_start _ _ _ Hnow)) as [Hok Htok].
  apply (po_done _ _ Hok) in Hi as [_ Hi%runs_rotation%runs_refresh]. apply (po_done _ _ Hok) in Hj as [_ Hj%runs_rotation%runs_refresh].
  destruct Hi as (t1 & a1 & p1 & pre1 & d1 & post1 & Ht1 & Htr1 & Ha1 & _ & Hd1 & Hb1 & _).
  destruct Hj as (t2 & a2 & p2 & pre2 & d2 & post2 & Ht2 & Htr2 & Ha2 & _ & Hd2 & Hb2 & _).
  assert (t1 = token) as -> by congruence. assert (t2 = token) as -> by congruence.
  assert (Hw : won (tokenHash token) (Ev (NxDeny (tokenHash token) 30) (Some true)) = true) by (cbn; by rewrite bool_decide_eq_true_2).
  apply trace_of_split in Htr1 as (l1 & e1 & Hl1 & Hpre1 & Hpost1). apply trace_of_split in Htr2 as (l2 & e2 & Hl2 & Hpre2 & Hpost2).
  destruct (in_order l1 e1 l2 e2 (i, Ev (NxDeny (tokenHash token) 30) (Some true)) (j, Ev (NxDeny (tokenHash token) 30) (Some true))) as [(K & HK & HK')|(K & HK & HK')]; [congruence|congruence| |].
  - destruct Hb2 as [b' Hb'].
    destruct (first_and_second fresh token X s0 c0 Hv He Hone (pl_world m) (pl_log m) i j e1 K l2 _ _ a1 d1 post1 b'
      ltac:(rewrite Hl2, HK'; reflexivity) Htok Hne Hw Hw) as [Hs|(k & Hk & Ho)]; [by rewrite Hpre1|by rewrite <- HK|done|done|rewrite Hpost2; set_solver| |].
    + exists i. auto.
    + exists k. auto.
  - destruct Hb1 as [b' Hb'].
    destruct (first_and_second fresh token X s0 c0 Hv He Hone (pl_world m) (pl_log m) j i e2 K l1 _ _ a2 d2 post2 b'
      ltac:(rewrite Hl1, HK'; reflexivity) Htok (not_eq_sym Hne) Hw Hw) as [Hs|(k & Hk & Ho)]; [by rewrite Hpre2|by rewrite <- HK|done|done|rewrite Hpost1; set_solver| |].
    + exists j. auto.
    + exists k. split; [tauto|auto].
Qed.

(** C18: a token that was used up, refused or signed out stays dead.  When a
    request that disposed of a token has answered (a logout, a rotation, a
    refresh refused for the session's end or the person's removal), then
    whatever interleaves afterwards, however many Redis reads fail, a refresh
    that starts later answers with a new pair for that token only by reading
    the clock at the token's end or later: the claim is on the key the disposal
    wrote, and it fails closed. *)
Theorem retired_token_stays_dead `{JwtLaws, SessionConfig} fresh before after now m m' token s0 c0 X k q a i b c br acc ref w :
  0 <= now -> token_moves fresh before now = Some m -> pool_moves token_program (texec fresh) after m = Some m' ->
  jwt_verify s0 token = Some c0 -> exp_of c0 = Some X ->
  (forall s t c e, jwt_verify s t = Some c -> exp_of c = Some e -> tokenHash t = tokenHash token -> e = X) ->
  pl_done m !! k = Some (q, Some a) -> retires q a token ->
  (pl_next m <= i)%nat -> presented b c = Some token ->
  pl_done m' !! i = Some (Q_refresh b c br, Some (A_refresh (R_rotated acc ref w))) ->
  outlived X (trace_of i (pl_log m')).
Proof.
  intros Hnow Hm Hm' Hv He Hone Hk Hq Hi Hp Hdone.
  destruct (tokens_moves_ok fresh token X Hone _ _ _ Hm (pool_of_ok _ _) (tokens_start _ _ _ Hnow)) as [Hok Htok].
  destruct (tokens_moves_ok fresh token X Hone _ _ _ Hm' Hok Htok) as [Hok' Htok'].
  apply (po_done _ _ Hok) in Hk as [_ Hk]. apply (runs_retires _ _ token) in Hk; [|done].
  apply (po_done _ _ Hok') in Hdone as [_ Hr%runs_rotation%runs_refresh].
  destruct Hr as (t & a1 & p & pre & d & post & Ht & Htr & _ & _ & _ & (b1 & Hb1) & _). assert (t = token) as -> by congruence.
  destruct (pool_moves_log _ _ _ _ _ Hm') as (l & Hl). destruct (po_old _ _ Hok i Hi) as (_ & _ & Hnone).
  rewrite Hl, trace_of_app, Hnone in Htr. cbn [app] in Htr. apply trace_of_split in Htr as (l1 & l2 & -> & _ & Hpost).
  exists b1. assert (Hin : (i, Ev Clock b1) ∈ l1) by (apply trace_of_elem; rewrite Hpost; set_solver).
  split; [rewrite Hl, !trace_of_app, trace_of_same, Hpost; set_solver|].
  assert (Hreads := tk_reads _ _ _ _ Htok'). rewrite Hl in Hreads. rewrite <- app_assoc in Hreads. cbn [app] in Hreads.
  assert (Hw : won (tokenHash token) (Ev (NxDeny (tokenHash token) 30) (Some true)) = true) by (cbn; by rewrite bool_decide_eq_true_2).
  destruct (disposed_or_outlived token X s0 c0 Hv He k (pl_world m) (pl_log m) _ Htok (fun _ H => H) Hk) as [[ttl Hs%trace_of_elem]|(b0 & Hb0%trace_of_elem & Hle)].
  - apply list_elem_of_split in Hs as (m1 & m2 & Hs).
    assert (Hd := denied_lives (tokenHash token) X k (Ev (SetDeny (tokenHash token) ttl) (Some tt)) m2 eq_refl ltac:(cbn; by rewrite bool_decide_eq_true_2)).
    destruct (lives_grows (tokenHash token) X (l2 ++ m1) _ _ Hd) as (b2 & Hb2 & Hle). etrans; [exact Hle|].
    eapply (won_after (tokenHash token) X l1); [exact Hreads|exact Hw| |exact Hin]. by rewrite Hs, app_assoc.
  - etrans; [exact Hle|]. etrans; [by eapply read_now|]. etrans; [|eapply read_after; [exact Hreads|exact Hin]]. rewrite app_comm_cons. apply now_grows.
Qed.

(** ** What the tokens carry *)

(** An empty text is not sent as a claim. *)
Definition kept_text (v : option jsstr) : option jsstr := match v with Some (u :: r) => Some (u :: r) | _ => None end.

Definition is_text (e : jsstr * jsval) : Prop := e.2 = JNull \/ exists t, e.2 = JStr t.

Ltac texts := repeat first [apply Forall_cons_2 | apply Forall_nil_2]; unfold is_text; cbn; eauto.

Lemma claim_if_text k v : Forall is_text (claim_if k v).
Proof. destruct v as [[|u r]|]; texts. Qed.

Lemma access_claims_text user : Forall is_text (access_claims user).
Proof. unfold access_claims. rewrite !Forall_app. split_and!; try apply claim_if_text; [texts|destruct (jp_accessRoleId user) as [[r|]|]; texts|texts]. Qed.

Lemma refresh_claims_text user jti : Forall is_text (refresh_claims user jti).
Proof. unfold refresh_claims. rewrite !Forall_app. split_and!; try apply claim_if_text; texts. Qed.

Lemma role_of_name_name r : role_of_name (role_name r) = Some r.
Proof. by destruct r. Qed.

Section claims.
Context (user : JwtPayload) (jti : jsstr) (iat e : jsval).

Definition with_times (c : entries) : entries := c ++ [(js "iat", iat); (js "exp", e)].

Lemma access_read : jp_sub user <> [] -> jp_username user <> [] ->
  let c := with_times (access_claims user) in
  read_identity c = Some (jp_sub user, jp_username user, jp_displayName user, jp_role user) /\
  str_claim c "type" = Some (js "access") /\ str_claim c "lastMfaAt" = kept_text (jp_lastMfaAt user) /\
  str_claim c "sid" = kept_text (jp_sid user) /\
  (match claim c "accessRoleId" with JStr r => Some (Some r) | JNull => Some None | _ => None end) = jp_accessRoleId user.
Proof.
  destruct user as [sub un dn role mfa sid acc]. cbn [jp_sub jp_username]. destruct sub as [|s0 sub]; [done|]. destruct un as [|u0 un]; [done|].
  intros _ _. split; [by destruct role|]. destruct mfa as [[|? ?]|], sid as [[|? ?]|], acc as [[|]|]; split_and!; reflexivity.
Qed.

Lemma refresh_read : jp_sub user <> [] -> jp_username user <> [] ->
  let c := with_times (refresh_claims user jti) in
  read_identity c = Some (jp_sub user, jp_username user, jp_displayName user, jp_role user) /\
  str_claim c "type" = Some (js "refresh") /\ str_claim c "sid" = kept_text (jp_sid user).
Proof.
  destruct user as [sub un dn role mfa sid acc]. cbn [jp_sub jp_username]. destruct sub as [|s0 sub]; [done|]. destruct un as [|u0 un]; [done|].
  intros _ _. split; [by destruct role|]. destruct sid as [[|? ?]|]; split; reflexivity.
Qed.
End claims.

Lemma access_verifies `{JwtLaws} user now t : jp_sub user <> [] -> jp_username user <> [] -> now <= t ->
  t / 1000 < now / 1000 + ACCESS_TOKEN_TTL_SECONDS ->
  verifyAccessToken (signAccessToken user now) t =
    Some (mkPayload (jp_sub user) (jp_username user) (jp_displayName user) (jp_role user)
            (kept_text (jp_lastMfaAt user)) (kept_text (jp_sid user)) (jp_accessRoleId user)) /\
  read_refresh (signAccessToken user now) t = None.
Proof.
  intros Hs Hu Ht Hlt. assert (Hle : now / 1000 <= t / 1000) by (apply Z.div_le_mono; lia).
  unfold verifyAccessToken, read_refresh, signAccessToken. rewrite verify_sign by (done || apply access_claims_text).
  destruct (access_read user (JNum (num_of_Z (now / 1000))) (JNum (num_of_Z (now / 1000 + ACCESS_TOKEN_TTL_SECONDS))) Hs Hu) as (Hi & Hty & Hm & Hsid & Hr).
  fold (with_times (JNum (num_of_Z (now / 1000))) (JNum (num_of_Z (now / 1000 + ACCESS_TOKEN_TTL_SECONDS))) (access_claims user)).
  unfold is_type. rewrite Hi, Hty, Hm, Hsid, Hr. done.
Qed.

Lemma refresh_verifies `{JwtLaws} user jti now t : jp_sub user <> [] -> jp_username user <> [] -> now <= t ->
  t / 1000 < now / 1000 + REFRESH_TOKEN_TTL_SECONDS ->
  read_refresh (signRefreshToken user jti now) t =
    Some (mkPayload (jp_sub user) (jp_username user) (jp_displayName user) (jp_role user) None (kept_text (jp_sid user)) None) /\
  verifyAccessToken (signRefreshToken user jti now) t = None.
Proof.
  intros Hs Hu Ht Hlt. assert (Hle : now / 1000 <= t / 1000) by (apply Z.div_le_mono; lia).
  unfold verifyAccessToken, read_refresh, signRefreshToken. rewrite verify_sign by (done || apply refresh_claims_text).
  destruct (refresh_read user jti (JNum (num_of_Z (now / 1000))) (JNum (num_of_Z (now / 1000 + REFRESH_TOKEN_TTL_SECONDS))) Hs Hu) as (Hi & Hty & Hsid).
  fold (with_times (JNum (num_of_Z (now / 1000))) (JNum (num_of_Z (now / 1000 + REFRESH_TOKEN_TTL_SECONDS))) (refresh_claims user jti)).
  unfold is_type. rewrite Hi, Hty, Hsid. done.
Qed.

(** C5: a token says who was signed in, and of which kind it is.  For a person
    with an identifier and a name, the access token verifies for its fifteen
    minutes as exactly that person, the role included, with the session and the
    time of the second factor if there are any, and with the three states of the
    custom access role (unknown, none, one) told apart; the refresh token says
    the same for seven days, without the second factor and the access role; and
    neither is ever read as the other. *)
Theorem tokens_carry_identity `{JwtLaws} user jti now t :
  jp_sub user <> [] -> jp_username user <> [] -> now <= t ->
  (t / 1000 < now / 1000 + ACCESS_TOKEN_TTL_SECONDS ->
     verifyAccessToken (signAccessToken user now) t =
       Some (mkPayload (jp_sub user) (jp_username user) (jp_displayName user) (jp_role user)
               (kept_text (jp_lastMfaAt user)) (kept_text (jp_sid user)) (jp_accessRoleId user)) /\
     read_refresh (signAccessToken user now) t = None) /\
  (t / 1000 < now / 1000 + REFRESH_TOKEN_TTL_SECONDS ->
     read_refresh (signRefreshToken user jti now) t =
       Some (mkPayload (jp_sub user) (jp_username user) (jp_displayName user) (jp_role user) None (kept_text (jp_sid user)) None) /\
     verifyAccessToken (signRefreshToken user jti now) t = None).
Proof. split; intros; [by apply access_verifies|by apply refresh_verifies]. Qed.

(** A rotation keeps the person and the session of the token it was given, and
    takes the role and the access role from the person's row of that moment,
    which was not deactivated. *)
Lemma rotation_keeps_identity `{JwtLaws, SessionConfig} b c br tr acc ref w t :
  runs (refresh b c br) tr (Some (R_rotated acc ref w)) ->
  exists token a p u now, presented b c = Some token /\ read_refresh token a = Some p /\ Ev (FindUser (jp_sub p)) (Some (Some u)) ∈ tr /\
    ur_deactivated u = false /\ Ev Clock now ∈ tr /\
    (now <= t -> t / 1000 < now / 1000 + ACCESS_TOKEN_TTL_SECONDS ->
     verifyAccessToken acc t = Some (mkPayload (jp_sub p) (jp_username p) (jp_displayName p) (default (jp_role p) (ur_role u)) None
       (kept_text (jp_sid p)) (Some (ur_accessRoleId u)))).
Proof.
  intros (token & a & p & pre & d & post & Ht & -> & _ & Hp & _ & _ & (u & jti & now & now' & Hu & Hact & _ & _ & Hnow & -> & ->))%runs_refresh.
  exists token, a, p, u, now'. split_and!; [done|done|set_solver|done|set_solver|]. intros Hle Hlt. unfold read_refresh in Hp.
  destruct (jwt_verify _ token) as [cl|]; [|done]. destruct (negb _); [done|]. unfold read_identity, must_claim in Hp.
  destruct (str_claim cl "sub") as [[|s0 sub]|]; [done| |done]. destruct (str_claim cl "username") as [[|u0 un]|]; [done| |done].
  destruct (str_claim cl "role") as [[|r0 rn]|]; [done| |done]. destruct (role_of_name _); [|done]. injection Hp as <-.
  by apply access_verifies.
Qed.

(** ** Runs

    A toy library: the token is a code of its claims and times, and its own hash. *)

Definition toy_claims (c : entries) : list (jsstr * option jsstr) := (fun e => (e.1, match e.2 with JStr s => Some s | _ => None end)) <$> c.
Definition read_claims (c : list (jsstr * option jsstr)) : entries := (fun e => (e.1, match e.2 with Some s => JStr s | None => JNull end)) <$> c.

#[local] Instance toy_jwt : JwtApi := {|
  jwt_sign c iat ttl := [Npos (encode (toy_claims c, iat, ttl))];
  jwt_verify s t :=
    match t with
    | [Npos p] =>
        match decode p with
        | Some (c, iat, ttl) =>
            if s <? iat + ttl then Some (read_claims c ++ [(js "iat", JNum (num_of_Z iat)); (js "exp", JNum (num_of_Z (iat + ttl)))]) else None
        | None => None
        end
    | _ => None
    end;
  tokenHash t := t
|}.

Lemma read_toy_claims c : Forall is_text c -> read_claims (toy_claims c) = c.
Proof.
  intros Hc. unfold read_claims, toy_claims. induction Hc as [|[k v] c Hv _ IH]; [done|]. cbn. rewrite IH. by destruct Hv as [Hv|[s Hv]]; cbn in Hv; subst v.
Qed.

(** A token's own claims are texts, so its [exp] is the one added. *)
Lemma toy_exp c iat e x : exp_of (read_claims c ++ [(js "iat", JNum (num_of_Z iat)); (js "exp", JNum (num_of_Z e))]) = Some x -> x = e.
Proof.
  unfold exp_of, claim. induction c as [|[k v] c IH].
  - change (num_int (num_of_Z e) = Some x -> x = e). rewrite num_int_of_Z. by intros [= ->].
  - change (read_claims ((k, v) :: c)) with ((k, match v with Some s => JStr s | None => JNull end) :: read_claims c).
    rewrite <- app_comm_cons. cbn [alookup fst snd]. destruct (decide _); [by destruct v|exact IH].
Qed.

Lemma toy_laws : JwtLaws.
Proof.
  split; cbn.
  - intros s [|[|p] [|]] c e; try done. destruct (decode p) as [[[c' iat] ttl]|]; [|done]. destruct (Z.ltb_spec s (iat + ttl)); [|done].
    intros [= <-] ->%toy_exp. done.
  - intros s s' [|[|p] [|]] c e; try done. destruct (decode p) as [[[c' iat] ttl]|]; [|done]. destruct (s <? iat + ttl); [|done].
    intros [= <-] ->%toy_exp Hlt. destruct (Z.ltb_spec s' (iat + ttl)); [done|lia].
  - intros s s' [|[|p] [|]] c c'; try done. destruct (decode p) as [[[c0 iat] ttl]|]; [|done]. destruct (s <? _), (s' <? _); congruence.
  - intros s c iat ttl Hc Hs. rewrite decode_encode. destruct (Z.ltb_spec s (iat + ttl)); [|lia]. by rewrite read_toy_claims.
Qed.

#[local] Instance toy_config : SessionConfig := Build_SessionConfig None None None None None.

Definition toy_fresh (n : nat) : jsstr := js "sid" ++ [N.of_nat n].
Definition ann : JwtPayload := mkPayload (js "u1") (js "ann") (js "Ann") family None None (Some None).

Definition rd : tinput := (0, T_redis Works).
Definition ck : tinput := (0, T_none).
Definition go (i : nat) (inputs : list tinput) : list (PoolMove TokenRequest tinput) := P_Step i <$> inputs.

Definition issued_moves : list (PoolMove TokenRequest tinput) :=
  [P_Start (Q_issue ann)] ++ go 0 [rd; rd; rd; rd; rd; rd; rd; ck; (0, T_text (js "jti0")); ck; ck; ck; rd; rd; rd; ck; ck].

Definition after_moves (mvs : list (PoolMove TokenRequest tinput)) : Pool tcommand (option TokenAnswer) TokenRequest TokenWorld :=
  default (pool_of (empty_tokens 0)) (token_moves toy_fresh mvs 0).

Definition first_refresh_token : jsstr :=
  match pl_done (after_moves issued_moves) !! 0%nat with Some (_, Some (A_issued s)) => is_refreshToken s | _ => [] end.

Definition ann_row : tinput := (0, T_user (Some (Some (mkUserRow (Some admin) None false)))).
Definition the_refresh : TokenRequest := Q_refresh (Some first_refresh_token) None false.

(** After the claim: the row, the disposal, the new pair. *)
Definition rest_of_rotation (i : nat) (jti : string) : list (PoolMove TokenRequest tinput) :=
  go i [ann_row; ck; ck; rd; ck; rd; (0, T_text (js jti)); ck; ck; ck; ck; rd; rd; rd; ck; ck].

(** Two refreshes with one token, the second claiming thirty-one seconds after
    the first, which has stalled. *)
Definition stalled_moves : list (PoolMove TokenRequest tinput) :=
  issued_moves ++ [P_Start the_refresh; P_Start the_refresh] ++ go 1 [ck; rd; rd; rd] ++ go 2 [ck; rd; rd; rd] ++
  [P_Step 1 rd; P_Step 2 (31000, T_redis Works)] ++ rest_of_rotation 1 "jti1" ++ rest_of_rotation 2 "jti2".

(** A logout, and a refresh that begins before the token's end, reads nothing of
    the denylist because Redis fails, and claims after it. *)
Definition logout_moves : list (PoolMove TokenRequest tinput) :=
  issued_moves ++ [P_Start (Q_logout (Some (js "u1", None)) (Some first_refresh_token))] ++ go 1 [ck; ck; rd; ck; rd; ck].
Definition late_moves : list (PoolMove TokenRequest tinput) :=
  [P_Start the_refresh] ++ go 2 [ck; (0, T_redis LostRequest); (0, T_redis LostRequest); (604800000, T_redis Works); ann_row; ck; ck; (0, T_text (js "jti1")); ck; ck; ck; ck; rd; rd; rd; ck; ck].

Definition its_claims : entries := default [] (jwt_verify 0 first_refresh_token).

Lemma its_verification : jwt_verify 0 first_refresh_token = Some its_claims /\ exp_of its_claims = Some 604800.
Proof. by vm_compute. Qed.

Lemma its_one_end s t c e : jwt_verify s t = Some c -> exp_of c = Some e -> tokenHash t = tokenHash first_refresh_token -> e = 604800.
Proof.
  intros Hv He Ht. destruct its_verification as [H0 H1]. change (t = first_refresh_token) in Ht. subst t.
  assert (c = its_claims) by (eapply (verify_same (JwtLaws := toy_laws)); [exact Hv|exact H0]). congruence.
Qed.

Lemma its_presented : presented (Some first_refresh_token) None = Some first_refresh_token.
Proof. by vm_compute. Qed.

Definition rotated_pair (mvs : list (PoolMove TokenRequest tinput)) (i : nat) : jsstr * jsstr :=
  match pl_done (after_moves mvs) !! i with Some (_, Some (A_refresh (R_rotated a r _))) => (a, r) | _ => ([], []) end.

Lemma tokens_ran mvs : bool_decide (is_Some (token_moves toy_fresh mvs 0)) = true -> token_moves toy_fresh mvs 0 = Some (after_moves mvs).
Proof. unfold after_moves. by destruct (token_moves toy_fresh mvs 0). Qed.

Lemma refresh_token_rotates_once_witness :
  let m := after_moves stalled_moves in
  pl_done m !! 1%nat = Some (the_refresh, Some (A_refresh (R_rotated (rotated_pair stalled_moves 1).1 (rotated_pair stalled_moves 1).2 true))) /\
  pl_done m !! 2%nat = Some (the_refresh, Some (A_refresh (R_rotated (rotated_pair stalled_moves 2).1 (rotated_pair stalled_moves 2).2 true))) /\
  exists k, (k = 1%nat \/ k = 2%nat) /\ (slow (trace_of k (pl_log m)) \/ outlived 604800 (trace_of k (pl_log m))).
Proof.
  intros m. assert (Hm : token_moves toy_fresh stalled_moves 0 = Some m) by (apply tokens_ran; by vm_compute).
  assert (H1 : pl_done m !! 1%nat = Some (the_refresh, Some (A_refresh (R_rotated (rotated_pair stalled_moves 1).1 (rotated_pair stalled_moves 1).2 true)))) by by vm_compute.
  assert (H2 : pl_done m !! 2%nat = Some (the_refresh, Some (A_refresh (R_rotated (rotated_pair stalled_moves 2).1 (rotated_pair stalled_moves 2).2 true)))) by by vm_compute.
  split; [exact H1|]. split; [exact H2|]. destruct its_verification as [Hv He].
  refine (@refresh_token_rotates_once toy_jwt toy_laws toy_config toy_fresh stalled_moves 0 m first_refresh_token 0 its_claims 604800
    1 2 _ _ _ _ _ _ _ _ _ _ _ _ _ Hm Hv He its_one_end _ its_presented its_presented H1 H2); lia.
Defined.

Lemma retired_token_stays_dead_witness :
  let m := after_moves logout_moves in
  let m' := after_moves (logout_moves ++ late_moves) in
  pl_done m !! 1%nat = Some (Q_logout (Some (js "u1", None)) (Some first_refresh_token), Some A_loggedOut) /\
  outlived 604800 (trace_of 2 (pl_log m')).
Proof.
  intros m m'. assert (Hm : token_moves toy_fresh logout_moves 0 = Some m) by (apply tokens_ran; by vm_compute).
  assert (Hm' : pool_moves token_program (texec toy_fresh) late_moves m = Some m').
  { assert (Hx : token_moves toy_fresh (logout_moves ++ late_moves) 0 = Some m') by (apply tokens_ran; by vm_compute).
    unfold token_moves in Hx, Hm. by rewrite pool_moves_app, Hm in Hx. }
  assert (H1 : pl_done m !! 1%nat = Some (Q_logout (Some (js "u1", None)) (Some first_refresh_token), Some A_loggedOut)) by by vm_compute.
  assert (H2 : pl_done m' !! 2%nat = Some (the_refresh, Some (A_refresh (R_rotated (rotated_pair (logout_moves ++ late_moves) 2).1 (rotated_pair (logout_moves ++ late_moves) 2).2 true)))) by by vm_compute.
  assert (Hn : (pl_next m <= 2)%nat) by (apply Nat.leb_le; by vm_compute).
  split; [exact H1|]. destruct its_verification as [Hv He].
  refine (@retired_token_stays_dead toy_jwt toy_laws toy_config toy_fresh logout_moves late_moves 0 m m' first_refresh_token 0 its_claims 604800
    1 _ _ 2 _ _ _ _ _ _ _ Hm Hm' Hv He its_one_end H1 its_presented Hn its_presented H2). lia.
Defined.

Lemma tokens_carry_identity_witness :
  verifyAccessToken (signAccessToken ann 0) 899999 = Some ann /\ read_refresh (signAccessToken ann 0) 899999 = None.
Proof. by apply (@tokens_carry_identity toy_jwt toy_laws ann (js "jti") 0 899999). Defined.

(** A sweep whose read of the index fails and whose delete then works answers
    that it revoked nothing, drops the index, and leaves every token alive: here
    the person's refresh token still rotates. *)
Lemma failed_read_revokes_nothing :
  let m := after_moves (issued_moves ++ [P_Start (Q_revoke (js "u1"))] ++ go 1 [(0, T_redis LostRequest); ck; rd; ck] ++
    [P_Start the_refresh] ++ go 2 [ck; rd; rd; rd; rd] ++ rest_of_rotation 2 "jti1") in
  pl_done m !! 1%nat = Some (Q_revoke (js "u1"), Some (A_revoked 0)) /\
  match pl_done m !! 2%nat with Some (_, Some (A_refresh (R_rotated _ _ _))) => True | _ => False end.
Proof. by vm_compute. Qed.
