(* ===== verification/AccessCatalog.v ===== *)
(** * AccessCatalog: what a tier may hold, and what depends on what
      (apps/orchestrator/src/services/access-catalog.ts and
       tool-layers.service.ts, modules/module-registry.ts, services/
       modules.service.ts)

    The catalog of levels with its floors and its clamps, the modules with
    their availability, enablement and declared parents, and the two layers of
    tools with the domains they populate. The compiled tools of tools-core are
    the class [ToolCatalog]: the functions here read no particular tool.  A
    JavaScript [Map] is the list of its entries in insertion order; a [Set]
    whose order nothing reads is a list. *)

From stdpp Require Import finite.
From S2P Require Import Prelude JsNum Json DateTime AuditSigning AuditVerify AuditRecorder RoleGuard Webhooks.

Local Open Scope Z_scope.

(** ** Maps in insertion order *)

Section jmap.
Context {K V : Type} `{!EqDecision K}.

Fixpoint jm_get (k : K) (m : list (K * V)) : option V :=
  match m with [] => None | (k', v) :: r => if decide (k' = k) then Some v else jm_get k r end.

Fixpoint jm_set (k : K) (v : V) (m : list (K * V)) : list (K * V) :=
  match m with
  | [] => [(k, v)]
  | (k', v') :: r => if decide (k' = k) then (k, v) :: r else (k', v') :: jm_set k v r
  end.

Definition jm_delete (k : K) (m : list (K * V)) : list (K * V) := List.filter (fun e => negb (bool_decide (e.1 = k))) m.
End jmap.

(** ** Levels and floors *)

Inductive ModuleId :=
| chat | knowledge | files | docs | email | calendar | projects | voice | cameras | smart_home | network
| managed_switch | team_chat | contacts | crm | money | support.

#[export] Instance ModuleId_eq_dec : EqDecision ModuleId.
Proof. solve_decision. Defined.

#[export] Instance ModuleId_finite : Finite ModuleId.
Proof.
  refine {| enum := [chat; knowledge; files; docs; email; calendar; projects; voice; cameras; smart_home; network;
                     managed_switch; team_chat; contacts; crm; money; support] |}; [|by intros []; set_solver].
  apply (bool_decide_unpack _). vm_compute. exact I.
Defined.

#[export] Instance Role_finite : Finite Role.
Proof.
  refine {| enum := [owner; admin; family; guest; service] |}; [|by intros []; set_solver].
  apply (bool_decide_unpack _). vm_compute. exact I.
Defined.

Inductive FeatureLevel := view | act | manage.
Inductive ToolLevel := tool_view | use.
Inductive ConnectorLevel := read | read_write.

#[export] Instance FeatureLevel_eq_dec : EqDecision FeatureLevel.
Proof. solve_decision. Defined.
#[export] Instance ToolLevel_eq_dec : EqDecision ToolLevel.
Proof. solve_decision. Defined.
#[export] Instance ConnectorLevel_eq_dec : EqDecision ConnectorLevel.
Proof. solve_decision. Defined.

#[export] Instance FeatureLevel_finite : Finite FeatureLevel.
Proof.
  refine {| enum := [view; act; manage] |}; [|by intros []; set_solver]. apply (bool_decide_unpack _). vm_compute. exact I.
Defined.

Definition FEATURE_LEVEL_RANK (l : FeatureLevel) : Z := match l with view => 0 | act => 1 | manage => 2 end.

Definition ALWAYS_ON_FEATURES : list (ModuleId * FeatureLevel) := [(chat, act)].

Record CatalogLevelDef := mkLevel { cd_level : FeatureLevel; cd_minTier : option Role; cd_refuseBelowFloor : bool }.

Definition unfloored (l : FeatureLevel) : CatalogLevelDef := mkLevel l None false.
Definition floored (l : FeatureLevel) (r : Role) : CatalogLevelDef := mkLevel l (Some r) false.
Definition refused_below (r : Role) : CatalogLevelDef := mkLevel view (Some r) true.

(** [chat] is no key of the table. *)
Definition CATALOG (m : ModuleId) : list CatalogLevelDef :=
  match m with
  | chat => []
  | files | email | cameras | smart_home | calendar | docs | knowledge | contacts =>
      [unfloored view; floored act family; floored manage family]
  | network => [unfloored view; floored act admin; floored manage admin]
  | projects | crm => [refused_below family; floored act family; floored manage family]
  | money => [refused_below family; floored manage admin]
  | support => [refused_below family; floored act family; floored manage admin]
  | voice => [unfloored view; unfloored act; floored manage family]
  | managed_switch => [unfloored view; floored manage admin]
  | team_chat => [unfloored view; unfloored act]
  end.

Definition GATEABLE_MODULE_IDS : list ModuleId :=
  [files; email; cameras; network; smart_home; calendar; docs; knowledge; projects; crm; money; support; contacts; voice;
   managed_switch; team_chat].

Definition isGateableModuleId (m : ModuleId) : bool := negb (bool_decide (m = chat)).

(** [TIER_RANK] is the ladder of jwt.service.ts. *)
Definition TIER_RANK (r : Role) : Z := match r with service => -1 | guest => 0 | family => 1 | admin => 2 | owner => 3 end.

Definition tierMayHold (tier : Role) (def : CatalogLevelDef) : bool :=
  match cd_minTier def with None => true | Some m => TIER_RANK m <=? TIER_RANK tier end.

Definition tierRefused (tier : Role) (m : ModuleId) : bool :=
  match List.find (fun d => bool_decide (cd_level d = view)) (CATALOG m) with
  | Some v => cd_refuseBelowFloor v && negb (tierMayHold tier v)
  | None => false
  end.

Definition maxLevelFor (tier : Role) (m : ModuleId) : option FeatureLevel :=
  if tierRefused tier m then None
  else Some (foldl (fun best def =>
    if tierMayHold tier def && (FEATURE_LEVEL_RANK best <? FEATURE_LEVEL_RANK (cd_level def)) then cd_level def else best)
    view (CATALOG m)).

Definition tierRefusingModuleIds : list ModuleId :=
  List.filter (fun id => tierRefused guest id || tierRefused family id) GATEABLE_MODULE_IDS.

Definition clampLevel (tier : Role) (m : ModuleId) (requested : FeatureLevel) : option FeatureLevel :=
  if tierRefused tier m then None
  else Some (foldl (fun best def =>
    if tierMayHold tier def && (FEATURE_LEVEL_RANK (cd_level def) <=? FEATURE_LEVEL_RANK requested) &&
       (FEATURE_LEVEL_RANK best <? FEATURE_LEVEL_RANK (cd_level def)) then cd_level def else best)
    view (CATALOG m)).

Definition fullCatalogFeatures (tier : Role) : list (ModuleId * FeatureLevel) :=
  ALWAYS_ON_FEATURES ++ omap (fun m => l ← maxLevelFor tier m; Some (m, l)) GATEABLE_MODULE_IDS.

Definition clampConnectorLevel (startingPoint : Role) (requested : ConnectorLevel) : option ConnectorLevel :=
  match startingPoint with
  | admin | owner => Some requested
  | guest | service => None
  | family => Some (match requested with read_write => read | read => read end)
  end.

(** ** Modules *)

(** [DOCS_ENABLED] is a text or a boolean. *)
Inductive EnvFlag := FlagBool (b : bool) | FlagText (s : jsstr) | FlagOther.

Record AvailabilityConfig := mkConfig {
  AI_GATEWAY_URL : jsstr; FILE_INDEXER_URL : jsstr; NEXTCLOUD_URL : jsstr; DOCS_ENABLED : EnvFlag;
  DOCS_INTERNAL_URL : jsstr; SERVICE_TOKEN_EMAIL : jsstr; SERVICE_TOKEN_VOICE : jsstr; FRIGATE_URL : jsstr;
  DROPLET_MATTER_SERVICE_URL : jsstr; ROUTING_SERVICE_URL : jsstr; SWITCH_SERVICE_URL : jsstr
}.

Definition isSet (v : jsstr) : bool := negb (bool_decide (trim v = [])).
Definition isTruthy (v : EnvFlag) : bool :=
  match v with
  | FlagBool b => b
  | FlagText s => bool_decide (toLowerCase (trim s) ∈ [js "1"; js "true"; js "yes"; js "on"])
  | FlagOther => false
  end.

Record ModuleDef := mkModule {
  md_id : ModuleId; md_toolDomains : list jsstr; md_core : bool; md_requires : option ModuleId; md_defaultEnabled : bool;
  md_available : AvailabilityConfig -> bool
}.

Definition always_available (c : AvailabilityConfig) : bool := true.

Definition MODULES : list ModuleDef := [
  mkModule chat [] true None true (fun c => isSet (AI_GATEWAY_URL c));
  mkModule team_chat [js "team_chat"] false None true always_available;
  mkModule knowledge [js "memory"] false None true (fun c => isSet (FILE_INDEXER_URL c));
  mkModule files [js "files"] false None true (fun c => isSet (NEXTCLOUD_URL c));
  mkModule docs [] false (Some files) false (fun c => isTruthy (DOCS_ENABLED c) && isSet (DOCS_INTERNAL_URL c));
  mkModule email [js "email"] false None false (fun c => isSet (SERVICE_TOKEN_EMAIL c));
  mkModule calendar [js "calendar"; js "reminders"; js "notifications"] false None true always_available;
  mkModule projects [js "pm"; js "business"] false None false always_available;
  mkModule crm [js "crm"; js "business"] false None false always_available;
  mkModule money [js "money"] false None false always_available;
  mkModule support [] false None false always_available;
  mkModule contacts [] false None false always_available;
  mkModule voice [] false None false (fun c => isSet (SERVICE_TOKEN_VOICE c));
  mkModule cameras [js "cameras"] false None false (fun c => isSet (FRIGATE_URL c));
  mkModule smart_home [js "smart-home"] false None false (fun c => isSet (DROPLET_MATTER_SERVICE_URL c));
  mkModule network [js "network"] false None true (fun c => isSet (ROUTING_SERVICE_URL c));
  mkModule managed_switch [js "switch"] false None false (fun c => isSet (SWITCH_SERVICE_URL c))].

(** [MODULE_REQUIRES], built from the registry. *)
Definition MODULE_REQUIRES (m : ModuleId) : option ModuleId :=
  match List.find (fun d => bool_decide (md_id d = m)) MODULES with Some d => md_requires d | None => None end.

Section satisfied.
Context (edges : ModuleId -> option ModuleId).

(** One turn of the loop, over the live set: elements go while it runs. *)
Definition settle_step (st : list ModuleId * bool) (id : ModuleId) : list ModuleId * bool :=
  match edges id with
  | Some parent =>
      if bool_decide (parent ∈ st.1) then st else (List.filter (fun m => negb (bool_decide (m = id))) st.1, true)
  | None => st
  end.

Definition settle_pass (out : list ModuleId) : list ModuleId * bool := foldl settle_step (out, false) out.

Fixpoint settle (fuel : nat) (out : list ModuleId) : option (list ModuleId) :=
  match fuel with
  | O => None
  | S n => let '(out', changed) := settle_pass out in if changed then settle n out' else Some out'
  end.

(** A turn that changes something removes something. *)
Definition satisfiedModuleIds (held : list ModuleId) : list ModuleId := default [] (settle (S (length held)) held).
End satisfied.

(** [overrides]: the rows of [ModuleSetting]. *)
Definition resolveEnabled (def : ModuleDef) (overrides : list (ModuleId * bool)) : bool :=
  if md_core def then true
  else match jm_get (md_id def) overrides with Some row => row | None => md_defaultEnabled def end.

Definition computeSelfEffectiveIds (overrides : list (ModuleId * bool)) (cfg : AvailabilityConfig) : list ModuleId :=
  md_id <$> List.filter (fun def => md_available def cfg && resolveEnabled def overrides) MODULES.

Definition computeEffectiveIds (overrides : list (ModuleId * bool)) (cfg : AvailabilityConfig) : list ModuleId :=
  satisfiedModuleIds MODULE_REQUIRES (computeSelfEffectiveIds overrides cfg).

(** ** Tools and their domains *)

Definition TOOL_DOMAINS : list jsstr := js <$>
  ["network"; "files"; "smart-home"; "cameras"; "switch"; "calendar"; "reminders"; "notifications"; "email"; "memory"; "pm";
   "money"; "crm"; "erp"; "cloud"; "business"; "team_chat"; "agent_runs"; "routines"; "workspace"; "system"; "data"]%string.

Record CatalogEntry := mkEntry {
  ce_name : jsstr; ce_domain : jsstr; ce_requiresWrite : bool; ce_requiresConfirmation : bool
}.

(** [TOOL_CATALOG] is built from a [Map] of tools by name, each with a declared
    domain. *)
Class ToolCatalog := {
  TOOL_CATALOG : list CatalogEntry;
  catalog_names : NoDup (ce_name <$> TOOL_CATALOG);
  catalog_domains : Forall (fun e => ce_domain e ∈ TOOL_DOMAINS) TOOL_CATALOG
}.

(** [source]: [None] is the catalog, [Some s] the server [s]. *)
Record LayeredTool := mkTool { lt_name : jsstr; lt_domain : jsstr; lt_requiresWrite : bool; lt_source : option jsstr }.
Record ToolLayers := mkLayers { tl_catalog : list LayeredTool; tl_runtime : list LayeredTool }.

Definition CATALOG_LAYER `{ToolCatalog} : list LayeredTool :=
  (fun e => mkTool (ce_name e) (ce_domain e) (ce_requiresWrite e) None) <$> TOOL_CATALOG.

(** Who said which domain a runtime tool is of. *)
Inductive DomainSource := by_operator | by_server | by_default.

Record RuntimeDescriptorFacts := mkDescriptor {
  rd_name : jsstr; rd_serverId : jsstr; rd_domain : jsstr; rd_domainSource : DomainSource
}.
Record RemoteToolClassificationRow := mkClassification {
  rc_serverId : jsstr; rc_toolName : jsstr; rc_requiresWrite : bool; rc_denied : bool
}.

(** [name.indexOf("__")] *)
Fixpoint separator_at (s : jsstr) : option nat :=
  if startsWith (js "__") s then Some 0%nat else match s with [] => None | _ :: r => S <$> separator_at r end.

Definition parseNamespacedToolName (name : jsstr) : option (jsstr * jsstr) :=
  match separator_at name with
  | None | Some O => None
  | Some at_ => match drop (at_ + 2) name with [] => None | wireName => Some (take at_ name, wireName) end
  end.

Definition IMPORT_DEFAULT_requiresWrite : bool := true.

Definition runtime_tool (lookup : jsstr -> jsstr -> option RemoteToolClassificationRow) (d : RuntimeDescriptorFacts) : option LayeredTool :=
  match rd_domainSource d with
  | by_operator =>
      let wireName := match parseNamespacedToolName (rd_name d) with Some (_, w) => w | None => rd_name d end in
      let row := lookup (rd_serverId d) wireName in
      if match row with Some r => rc_denied r | None => false end then None
      else Some (mkTool (rd_name d) (rd_domain d)
                   (match row with Some r => rc_requiresWrite r | None => IMPORT_DEFAULT_requiresWrite end) (Some (rd_serverId d)))
  | by_server | by_default => None
  end.

Definition runtimeLayer (descriptors : list RuntimeDescriptorFacts) lookup : list LayeredTool :=
  omap (runtime_tool lookup) descriptors.

Definition toolLayers `{ToolCatalog} (runtime : list LayeredTool) : ToolLayers := mkLayers CATALOG_LAYER runtime.
Definition allTools (layers : ToolLayers) : list LayeredTool := tl_catalog layers ++ tl_runtime layers.

Definition populatedDomains (layers : ToolLayers) : list jsstr := lt_domain <$> allTools layers.
Definition readableDomains (layers : ToolLayers) : list jsstr :=
  lt_domain <$> List.filter (fun t => negb (lt_requiresWrite t)) (allTools layers).

(** The order of [Array.prototype.sort]. *)
Definition by_units (a b : jsstr) : Z := if str_ltb a b then -1 else if str_ltb b a then 1 else 0.

Definition runtimeOnlyDomains (layers : ToolLayers) : list jsstr :=
  sort_by by_units (remove_dups (List.filter (fun d => negb (bool_decide (d ∈ TOOL_DOMAINS))) (lt_domain <$> tl_runtime layers))).
Definition toolDomainUniverse (layers : ToolLayers) : list jsstr := TOOL_DOMAINS ++ runtimeOnlyDomains layers.

(** The text the classification rows are keyed by. *)
Definition classification_key (serverId toolName : jsstr) : jsstr := serverId ++ js " " ++ toolName.

(** The last row of a key is the one the [Map] keeps. *)
Definition classification_lookup (rows : list RemoteToolClassificationRow) (serverId toolName : jsstr) : option RemoteToolClassificationRow :=
  List.find (fun r => bool_decide (classification_key (rc_serverId r) (rc_toolName r) = classification_key serverId toolName)) (rev rows).

Definition loadToolLayers `{ToolCatalog} (registry : list RuntimeDescriptorFacts) (rows : list RemoteToolClassificationRow) : ToolLayers :=
  match registry with [] => toolLayers [] | _ => toolLayers (runtimeLayer registry (classification_lookup rows)) end.

(** [OWNERS_BY_DOMAIN.get(d)] is [undefined] where this is empty. *)
Definition OWNERS_BY_DOMAIN (d : jsstr) : list ModuleId :=
  md_id <$> List.filter (fun def => bool_decide (d ∈ md_toolDomains def)) MODULES.

Definition FEATURE_UNGATED_TOOL_DOMAINS : list jsstr :=
  js <$> ["system"; "data"; "agent_runs"; "routines"; "workspace"; "erp"; "cloud"]%string.

Definition unmappedToolDomains : list jsstr :=
  List.filter (fun d => bool_decide (OWNERS_BY_DOMAIN d = []) && negb (bool_decide (d ∈ FEATURE_UNGATED_TOOL_DOMAINS))) TOOL_DOMAINS.

(** A domain of the catalog passes by an owner that is held, or undeclared
    owners and a declared exemption. *)
Definition domain_passes (featureIds : list ModuleId) (domain : jsstr) : bool :=
  match OWNERS_BY_DOMAIN domain with
  | [] => bool_decide (domain ∈ FEATURE_UNGATED_TOOL_DOMAINS)
  | owners => existsb (fun m => bool_decide (m ∈ featureIds)) owners
  end.

Definition domainsForFeatures (featureIds : list ModuleId) (runtimeDomains : list jsstr) : list jsstr :=
  List.filter (fun d => bool_decide (OWNERS_BY_DOMAIN d = [])) runtimeDomains ++
  List.filter (domain_passes featureIds) TOOL_DOMAINS.

Definition GRANTABLE_TOOL_DOMAINS : list jsstr := List.filter (fun d => negb (bool_decide (d = js "erp"))) TOOL_DOMAINS.

Definition isGrantableDomain (domain : jsstr) (layers : ToolLayers) : bool :=
  if bool_decide (domain = js "erp") then false
  else if bool_decide (domain ∈ GRANTABLE_TOOL_DOMAINS) then true
  else existsb (fun t => bool_decide (lt_domain t = domain)) (tl_runtime layers).

Definition tierReachableDomains (tier : Role) (layers : ToolLayers) : list jsstr :=
  match tier with owner | admin => populatedDomains layers | _ => readableDomains layers end.

Lemma elem_of_bfilter {A} (f : A -> bool) x (l : list A) : x ∈ List.filter f l <-> x ∈ l /\ f x = true.
Proof. rewrite list_elem_of_In, filter_In. by rewrite list_elem_of_In. Qed.

Lemma nodup_key_inj {A B} (f : A -> B) (l : list A) x y : NoDup (f <$> l) -> x ∈ l -> y ∈ l -> f x = f y -> x = y.
Proof.
  induction l as [|z l IH]; [set_solver|]. cbn. intros [Hz Hl]%NoDup_cons [->|Hx]%elem_of_cons [->|Hy]%elem_of_cons Hf; auto.
  - destruct Hz. rewrite Hf. by apply list_elem_of_fmap_2.
  - destruct Hz. rewrite <- Hf. by apply list_elem_of_fmap_2.
Qed.

Lemma includes_iff p s : includes p s = true <-> exists pre post, s = pre ++ p ++ post.
Proof.
  assert (H : forall s, includes p s = true <-> startsWith p s = true \/ exists c r, s = c :: r /\ includes p r = true).
  { intros [|c r]; cbn; rewrite ?orb_true_iff, ?orb_false_r; naive_solver. }
  induction s as [|c s IH]; rewrite H, startsWith_iff; split.
  - intros [[t ->]|(c & r & [=] & _)]. by exists [], t.
  - intros (pre & post & E). symmetry in E. apply app_eq_nil in E as [-> E]. left. by exists post.
  - intros [[t ->]|(c' & r & [= <- <-] & (pre & post & ->)%IH)]; [by exists [], t|by exists (c :: pre), post].
  - intros ([|c' pre] & post & E); cbn in E; [left; by exists post|]. injection E as <- ->. right. exists c, (pre ++ p ++ post).
    split; [done|]. apply IH. by exists pre, post.
Qed.

(** A separator is found where the text before it has no underscore. *)
Lemma separator_at_app a w : 95%N ∉ a -> separator_at (a ++ js "__" ++ w) = Some (length a).
Proof.
  change (js "__") with [95; 95]%N. induction a as [|c a IH]; intros Ha; cbn [separator_at app length].
  - change (js "__") with [95; 95]%N. by rewrite (startsWith_app [95; 95]%N w : startsWith [95; 95]%N (95 :: 95 :: w)%N = true).
  - apply not_elem_of_cons in Ha as [Hc Ha]. change (js "__") with [95; 95]%N. cbn [startsWith].
    rewrite (proj2 (N.eqb_neq 95 c) Hc). cbn. cbn in IH. by rewrite IH.
Qed.

Lemma parse_namespaced a w : 95%N ∉ a -> a <> [] -> w <> [] -> parseNamespacedToolName (a ++ js "__" ++ w) = Some (a, w).
Proof.
  intros Hu Ha Hw. unfold parseNamespacedToolName. rewrite separator_at_app by done. destruct a as [|c a]; [done|].
  cbn [length]. change (js "__") with [95; 95]%N. replace (S (length a) + 2)%nat with (length ((c :: a) ++ [95; 95]%N)) by (rewrite length_app; done).
  rewrite app_assoc, drop_app_length. destruct w as [|d w]; [done|]. rewrite <- app_assoc.
  change (S (length a)) with (length (c :: a)). by rewrite take_app_length.
Qed.

(** A key with one space in it has one reading. *)
Lemma classification_key_inj s w s' w' : 32%N ∉ s -> 32%N ∉ w -> classification_key s' w' = classification_key s w -> s' = s /\ w' = w.
Proof.
  unfold classification_key. change (js " ") with [32%N]. cbn [app]. intros Hs Hw. revert s' Hs.
  induction s as [|c s IH]; intros [|c' s'] Hs E; cbn in E.
  - by injection E.
  - injection E as -> E. destruct Hw. rewrite <- E. apply elem_of_app. right. by left.
  - injection E as <- _. destruct Hs. by left.
  - injection E as -> E. apply not_elem_of_cons in Hs as [_ Hs]. by destruct (IH _ Hs E) as [-> ->].
Qed.

(** The entry of a key in a [Map] filled from a list without repeated keys. *)
Lemma find_rev_key {A B} `{!EqDecision B} (f : A -> B) (l : list A) k x : NoDup (f <$> l) ->
  List.find (fun y => bool_decide (f y = k)) (rev l) = Some x <-> x ∈ l /\ f x = k.
Proof.
  intros Hnd. split.
  - intros [Hin Hk%bool_decide_eq_true]%find_some. split; [|done]. rewrite <- in_rev in Hin. by apply list_elem_of_In.
  - intros [Hin <-]. destruct (List.find _ _) as [y|] eqn:E.
    + apply find_some in E as [Hy Hk%bool_decide_eq_true]. rewrite <- in_rev in Hy. apply list_elem_of_In in Hy.
      f_equal. by eapply nodup_key_inj.
    + eapply find_none in E; [|rewrite <- in_rev; by apply list_elem_of_In]. by apply bool_decide_eq_false in E.
Qed.

(** ** Maps *)

Section jmap_facts.
Context {K V : Type} `{!EqDecision K}.
Implicit Types (m : list (K * V)) (k : K) (v : V).

Lemma jm_get_set k k' v m : jm_get k' (jm_set k v m) = if decide (k = k') then Some v else jm_get k' m.
Proof. induction m as [|[k0 v0] m IH]; cbn; repeat (case_decide; cbn; simplify_eq); rewrite ?IH; by repeat case_decide. Qed.

Lemma jm_get_delete k k' m : jm_get k' (jm_delete k m) = if decide (k = k') then None else jm_get k' m.
Proof.
  induction m as [|[k0 v0] m IH]; cbn; [by case_decide|]. unfold jm_delete in *. cbn. case_bool_decide; cbn; simplify_eq.
  - rewrite IH. by repeat case_decide.
  - rewrite IH. repeat case_decide; simplify_eq; done.
Qed.

Lemma jm_keys_set k k' v m : k' ∈ (jm_set k v m).*1 <-> k' = k \/ k' ∈ m.*1.
Proof. induction m as [|[k0 v0] m IH]; cbn; [set_solver|]. case_decide; subst; cbn; rewrite ?elem_of_cons, ?IH; set_solver. Qed.

Lemma jm_set_nodup k v m : NoDup m.*1 -> NoDup (jm_set k v m).*1.
Proof.
  induction m as [|[k0 v0] m IH]; cbn; [intros _; apply NoDup_singleton|]. intros [Hk Hm]%NoDup_cons. case_decide; subst; cbn; constructor; auto.
  rewrite jm_keys_set. intros [->|?]; done.
Qed.

Lemma jm_delete_sublist k m : jm_delete k m `sublist_of` m.
Proof. unfold jm_delete. induction m as [|e m IH]; cbn; [done|]. case_match; [by apply sublist_skip|by apply sublist_cons]. Qed.

Lemma jm_delete_nodup k m : NoDup m.*1 -> NoDup (jm_delete k m).*1.
Proof. intros Hm. eapply sublist_NoDup; [exact Hm|]. apply fmap_sublist, jm_delete_sublist. Qed.

Lemma jm_get_elem k v m : NoDup m.*1 -> jm_get k m = Some v <-> (k, v) ∈ m.
Proof.
  induction m as [|[k0 v0] m IH]; cbn; [set_solver|]. intros [Hk Hm]%NoDup_cons. case_decide; subst; rewrite elem_of_cons.
  - split; [intros [= ->]; by left|]. intros [[= ->]|Hin]; [done|]. destruct Hk. by apply (list_elem_of_fmap_2 fst) in Hin.
  - rewrite IH by done. split; [by right|]. intros [[= -> ->]|?]; done.
Qed.

Lemma jm_get_None k m : jm_get k m = None <-> k ∉ m.*1.
Proof. induction m as [|[k0 v0] m IH]; cbn; [set_solver|]. case_decide; subst; rewrite ?IH; set_solver. Qed.

Lemma jm_get_Some k m : is_Some (jm_get k m) <-> k ∈ m.*1.
Proof. rewrite <- not_eq_None_Some, jm_get_None. split; [apply dec_stable|auto]. Qed.

(** A loop each of whose turns touches one key only, and no key twice. *)
Lemma loop_get {X} (step : list (K * V) -> X -> list (K * V)) (key : X -> K) (G : X -> option V -> option V) (l : list X) m k :
  (forall m x k, jm_get k (step m x) = if decide (key x = k) then G x (jm_get k m) else jm_get k m) -> NoDup (key <$> l) ->
  jm_get k (foldl step m l) = match List.find (fun x => bool_decide (key x = k)) l with Some x => G x (jm_get k m) | None => jm_get k m end.
Proof.
  intros Hstep. revert m. induction l as [|x l IH]; intros m; cbn; [done|]. intros [Hx Hl]%NoDup_cons. rewrite IH, Hstep by done.
  case_bool_decide as Hk; case_decide; try done. destruct (List.find _ l) as [y|] eqn:Ey; [|done]. apply find_some in Ey as [Hy Hyk].
  apply bool_decide_eq_true in Hyk. destruct Hx. rewrite Hk, <- Hyk. apply list_elem_of_fmap_2. by apply list_elem_of_In.
Qed.

Lemma loop_nodup {X} (step : list (K * V) -> X -> list (K * V)) (l : list X) m :
  (forall m x, NoDup m.*1 -> NoDup (step m x).*1) -> NoDup m.*1 -> NoDup (foldl step m l).*1.
Proof. intros Hstep. revert m. induction l as [|x l IH]; intros m Hm; cbn; [done|]. by apply IH, Hstep. Qed.

Lemma find_self k (l : list K) : List.find (fun x => bool_decide (x = k)) l = if decide (k ∈ l) then Some k else None.
Proof.
  induction l as [|x l IH]; cbn; [by case_decide; set_solver|]. case_bool_decide; subst; [rewrite decide_True; [done|by left]|].
  rewrite IH. repeat case_decide; set_solver.
Qed.

Lemma find_key k m : List.find (fun e => bool_decide (e.1 = k)) m = (fun v => (k, v)) <$> jm_get k m.
Proof. induction m as [|[k0 v0] m IH]; cbn; [done|]. case_bool_decide; case_decide; simplify_eq; done. Qed.
End jmap_facts.

(** ** Levels *)

(** The tiers that stand at a floor or above it; [service] is no rung. *)
Definition at_least (tier : Role) (floor : option Role) : Prop :=
  match floor with
  | None | Some service => True
  | Some guest => tier <> service
  | Some family => tier = family \/ tier = admin \/ tier = owner
  | Some admin => tier = admin \/ tier = owner
  | Some owner => tier = owner
  end.

(** Viewing is less than acting, and acting less than managing. *)
Definition at_most (a b : FeatureLevel) : Prop :=
  match b with view => a = view | act => a = view \/ a = act | manage => True end.

(** The levels a tier may hold on a module. *)
Definition offered (tier : Role) (m : ModuleId) (l : FeatureLevel) : Prop :=
  exists def, def ∈ CATALOG m /\ cd_level def = l /\ at_least tier (cd_minTier def).

(** The best of them at or below what is asked for. *)
Definition best_level (tier : Role) (m : ModuleId) (asked l : FeatureLevel) : Prop :=
  offered tier m l /\ at_most l asked /\ forall l', offered tier m l' -> at_most l' asked -> at_most l' l.

#[export] Instance CatalogLevelDef_eq_dec : EqDecision CatalogLevelDef.
Proof. solve_decision. Defined.

#[export] Instance at_least_dec tier floor : Decision (at_least tier floor).
Proof. destruct floor as [[]|]; cbn; apply _. Defined.

#[export] Instance at_most_dec a b : Decision (at_most a b).
Proof. destruct b; cbn; apply _. Defined.

#[export] Instance offered_dec tier m l : Decision (offered tier m l).
Proof.
  destruct (decide (Exists (fun def => cd_level def = l /\ at_least tier (cd_minTier def)) (CATALOG m))) as [H|H].
  - left. by apply Exists_exists in H.
  - right. intros Ho. destruct H. by apply Exists_exists.
Defined.

#[export] Instance best_level_dec tier m asked l : Decision (best_level tier m asked l).
Proof. unfold best_level. apply _. Defined.

Lemma at_most_rank a b : FEATURE_LEVEL_RANK a <= FEATURE_LEVEL_RANK b <-> at_most a b.
Proof. revert a b. apply (bool_decide_unpack _). vm_compute. exact I. Qed.

(** [clampLevel] answers the best level at or below the request; nothing exactly
    where the tier is refused, which is where it may not view. *)
Lemma clamp_best tier m asked l : m <> chat -> clampLevel tier m asked = Some l <-> best_level tier m asked l.
Proof. revert tier m asked l. apply (bool_decide_unpack _). vm_compute. exact I. Qed.

Lemma max_best tier m l : m <> chat -> maxLevelFor tier m = Some l <-> best_level tier m manage l.
Proof. revert tier m l. apply (bool_decide_unpack _). vm_compute. exact I. Qed.

Lemma clamp_none tier m requested : m <> chat -> clampLevel tier m requested = None <-> ~ offered tier m view.
Proof. revert m tier requested. apply (bool_decide_unpack _). vm_compute. exact I. Qed.

Lemma max_is_clamp tier m : maxLevelFor tier m = clampLevel tier m manage.
Proof. revert m tier. apply (bool_decide_unpack _). vm_compute. exact I. Qed.

Lemma clamp_idemp tier m l l' : clampLevel tier m l = Some l' -> clampLevel tier m l' = Some l'.
Proof. revert tier m l l'. apply (bool_decide_unpack _). vm_compute. exact I. Qed.

Lemma clamp_refused tier m l : clampLevel tier m l = None <-> tierRefused tier m = true.
Proof. unfold clampLevel. by destruct (tierRefused tier m). Qed.

(** A guest holds nothing on the company's business data. *)
Lemma guests_are_refused : tierRefusingModuleIds = [projects; crm; money; support].
Proof. reflexivity. Qed.

(** ** Parents *)

Section settle_facts.
Context (edges : ModuleId -> option ModuleId).

(** Every parent is there. *)
Definition closed (s : list ModuleId) : Prop := forall id parent, id ∈ s -> edges id = Some parent -> parent ∈ s.

Lemma settle_step_spec st id st' : settle_step edges st id = st' ->
  (st' = st /\ (forall parent, edges id = Some parent -> parent ∈ st.1)) \/
  (exists parent, edges id = Some parent /\ parent ∉ st.1 /\ st' = (List.filter (fun m => negb (bool_decide (m = id))) st.1, true)).
Proof. unfold settle_step. intros <-. destruct (edges id) as [p|] eqn:E; [case_bool_decide|left]; naive_solver. Qed.

Lemma filter_ne_elem (id m : ModuleId) l : m ∈ List.filter (fun m => negb (bool_decide (m = id))) l <-> m ∈ l /\ m <> id.
Proof. rewrite elem_of_bfilter. case_bool_decide; naive_solver. Qed.

Lemma filter_ne_length (id : ModuleId) l : (length (List.filter (fun m => negb (bool_decide (m = id))) l) <= length l)%nat /\
  (id ∈ l -> length (List.filter (fun m => negb (bool_decide (m = id))) l) < length l)%nat.
Proof. induction l as [|x l [IH1 IH2]]; cbn; [set_solver|]. case_bool_decide; cbn; split; try lia; intros [->|]%elem_of_cons; try done; try (specialize (IH2 ltac:(done)); lia). Qed.

(** What a turn over [l] does to the set: it only removes, it keeps every
    closed set whole, and if it changed nothing every parent was there. *)
Lemma settle_turn l : forall st st', foldl (settle_step edges) st l = st' -> l ⊆ st.1 \/ st.2 = true ->
  st'.1 ⊆ st.1 /\ (forall s, closed s -> s ⊆ st.1 -> s ⊆ st'.1) /\
  (st'.2 = false -> st' = st /\ forall id parent, id ∈ l -> edges id = Some parent -> parent ∈ st.1) /\
  (st'.2 = true -> st.2 = true \/ (length st'.1 < length st.1)%nat) /\ (length st'.1 <= length st.1)%nat.
Proof.
  induction l as [|id l IH]; intros st st'; cbn; [intros <- _; repeat split; auto; set_solver|].
  intros Hf Hl. destruct (settle_step_spec st id _ eq_refl) as [[Hs Hp]|(p & Hp & Hn & Hs)].
  - rewrite Hs in Hf. destruct (IH _ _ Hf) as (H1 & H2 & H3 & H4 & H5); [set_solver|]. split; [done|]. split; [done|]. split; [|done].
    intros Hc. destruct (H3 Hc) as [-> H]. split; [done|]. intros id' p [->|Hin]%elem_of_cons He; [by apply Hp|by eapply H].
  - destruct (filter_ne_length id st.1) as [Hle Hlt]. destruct (IH _ _ Hf) as (H1 & H2 & H3 & H4 & H5); [rewrite Hs; by right|]. rewrite Hs in *. cbn in *.
    split; [intros m Hm%H1; by apply filter_ne_elem in Hm as [? _]|]. split.
    { intros s Hc Hsub. apply H2; [done|]. intros m Hm. apply filter_ne_elem. split; [by apply Hsub|]. intros ->. apply Hn, Hsub. by eapply Hc. }
    split; [intros Hc; by destruct (H3 Hc) as [-> _]|]. split; [|lia]. intros _.
    destruct Hl as [Hl|Hl]; [right; specialize (Hlt ltac:(set_solver)); lia|by left].
Qed.

(** The loop ends, and leaves the largest part of [held] in which every parent
    is there. *)
Lemma settle_greatest n held : (length held < n)%nat -> exists out, settle edges n held = Some out /\
  out ⊆ held /\ closed out /\ forall s, closed s -> s ⊆ held -> s ⊆ out.
Proof.
  revert held. induction n as [|n IH]; intros held Hn; [lia|]. cbn. unfold settle_pass.
  destruct (settle_turn held (held, false) _ eq_refl) as (H1 & H2 & H3 & H4 & H5); [by left|]. cbn in *.
  destruct (foldl (settle_step edges) (held, false) held) as [out changed]. cbn in *. destruct changed.
  - destruct (H4 eq_refl) as [|Hlt]; [done|]. destruct (IH out ltac:(lia)) as (o & Ho & Hsub & Hc & Hg). exists o. split; [done|].
    split; [by etrans|]. split; [done|]. intros s Hs Hsh. apply Hg; auto.
  - destruct (H3 eq_refl) as [[= ->] H]. exists held. split; [done|]. split; [done|]. split; [|done]. intros id p Hid Hp. by eapply H.
Qed.

Lemma satisfied_greatest held :
  satisfiedModuleIds edges held ⊆ held /\ closed (satisfiedModuleIds edges held) /\
  forall s, closed s -> s ⊆ held -> s ⊆ satisfiedModuleIds edges held.
Proof. unfold satisfiedModuleIds. destruct (settle_greatest (S (length held)) held ltac:(lia)) as (out & -> & H). exact H. Qed.
End settle_facts.

(** In the registry as it is: Documents needs Files. *)
Lemma satisfied_modules held m : m ∈ satisfiedModuleIds MODULE_REQUIRES held <-> m ∈ held /\ (m = docs -> files ∈ held).
Proof.
  destruct (satisfied_greatest MODULE_REQUIRES held) as (H1 & H2 & H3). split.
  - intros Hm. split; [by apply H1|]. intros ->. by apply H1, (H2 docs).
  - intros [Hm Hd]. apply (H3 (List.filter (fun m => bool_decide (m ∈ held /\ (m = docs -> files ∈ held))) held)).
    + intros id p [Hid Hb%bool_decide_eq_true]%elem_of_bfilter Hp. apply elem_of_bfilter. destruct id; vm_compute in Hp; try done.
      injection Hp as <-. split; [naive_solver|]. apply bool_decide_eq_true_2. naive_solver.
    + by intros x [? _]%elem_of_bfilter.
    + apply elem_of_bfilter. split; [done|]. by apply bool_decide_eq_true_2.
Qed.

(** ** Domains *)

Lemma no_domain_is_unmapped : unmappedToolDomains = [].
Proof. vm_compute. reflexivity. Qed.

Lemma runtime_only_spec layers d : d ∈ runtimeOnlyDomains layers <-> d ∉ TOOL_DOMAINS /\ exists t, t ∈ tl_runtime layers /\ lt_domain t = d.
Proof.
  unfold runtimeOnlyDomains. rewrite (sort_by_perm _ _ : _ ≡ₚ _), elem_of_remove_dups, elem_of_bfilter, list_elem_of_fmap.
  case_bool_decide; naive_solver.
Qed.

Lemma features_domains feats rt d : d ∈ domainsForFeatures feats rt <->
  (OWNERS_BY_DOMAIN d = [] /\ d ∈ rt) \/ (d ∈ TOOL_DOMAINS /\ domain_passes feats d = true).
Proof. unfold domainsForFeatures. rewrite elem_of_app, !elem_of_bfilter. case_bool_decide; naive_solver. Qed.

Lemma domain_passes_spec feats d : domain_passes feats d = true <->
  (OWNERS_BY_DOMAIN d = [] /\ d ∈ FEATURE_UNGATED_TOOL_DOMAINS) \/ exists m, m ∈ OWNERS_BY_DOMAIN d /\ m ∈ feats.
Proof.
  unfold domain_passes. destruct (OWNERS_BY_DOMAIN d) as [|o os].
  - rewrite bool_decide_eq_true. set_solver.
  - rewrite existsb_exists. setoid_rewrite <- list_elem_of_In. setoid_rewrite bool_decide_eq_true. naive_solver.
Qed.
