(* ===== verification/EffectiveAccess.v ===== *)
(** * EffectiveAccess: what a person may do on the box
      (apps/orchestrator/src/services/effective-access.service.ts and
       effective-usage.service.ts, middleware/feature-gate.ts)

    The composition of a person's tier, access role, exceptions and the
    workspace's modules into what they hold, the read of all of it from one
    snapshot of the database, and the gates of the routes.  A module's level is
    given by three loops over a [Map]; [held_level] says in one expression what
    comes out of them. *)

From stdpp Require Import finite.
From S2P Require Import Prelude JsNum Json DateTime AuditSigning AuditVerify AuditRecorder RoleGuard Webhooks AccessCatalog.

Local Open Scope Z_scope.

(** ** Shapes *)

Record AccessRoleGrantRows := mkGrants {
  ar_mayOperateLocks : bool; ar_cloudModelsAllowed : bool;
  ar_storageQuotaBytes : option Z; ar_maxUploadSizeMb : option Z; ar_llmDailyMessageCap : option Z;
  ar_featureGrants : list (ModuleId * FeatureLevel);
  ar_toolGrants : list (jsstr * ToolLevel);
  ar_connectorGrants : list (jsstr * ConnectorLevel)
}.

Inductive AccessExceptionEffect := allow | deny.

Record AccessExceptionRow := mkException {
  ex_id : jsstr; ex_moduleId : ModuleId; ex_effect : AccessExceptionEffect; ex_level : option FeatureLevel
}.

Record UsageDefaultFields := mkUsage {
  uf_storageQuotaBytes : option Z; uf_maxUploadSizeMb : option Z; uf_llmDailyMessageCap : option Z
}.

Record DeptRight := mkDeptRight { dr_id : jsstr; dr_name : jsstr; dr_kind : jsstr; dr_right : jsstr }.

Record EffectiveAccessInputs := mkInputs {
  in_tier : Role;
  in_accessRole : option AccessRoleGrantRows;
  in_exceptions : list AccessExceptionRow;
  in_workspaceModuleIds : list ModuleId;
  in_cloudEscapeEnabled : bool;
  in_connections : list (jsstr * bool);
  in_usagePolicy : option UsageDefaultFields;
  in_deptRights : list DeptRight;
  in_toolLayers : ToolLayers
}.

(** ** Usage *)

Inductive EffectiveUsageSource := person | role_default | box_default.

Definition pickField (personValue roleValue : option Z) : option Z * EffectiveUsageSource :=
  match personValue, roleValue with
  | Some v, _ => (Some v, person)
  | None, Some v => (Some v, role_default)
  | None, None => (None, box_default)
  end.

Record EffectiveUsagePolicy := mkPolicy {
  up_storageQuotaBytes : option Z * EffectiveUsageSource;
  up_maxUploadSizeMb : option Z * EffectiveUsageSource;
  up_llmDailyMessageCap : option Z * EffectiveUsageSource
}.

Definition role_usage (r : AccessRoleGrantRows) : UsageDefaultFields :=
  mkUsage (ar_storageQuotaBytes r) (ar_maxUploadSizeMb r) (ar_llmDailyMessageCap r).

Definition resolveEffectiveUsage (p r : option UsageDefaultFields) : EffectiveUsagePolicy :=
  let f (get : UsageDefaultFields -> option Z) := pickField (p ≫= get) (r ≫= get) in
  mkPolicy (f uf_storageQuotaBytes) (f uf_maxUploadSizeMb) (f uf_llmDailyMessageCap).

Record EffectiveAccessResult := mkResult {
  ea_tier : Role;
  ea_features : list (ModuleId * FeatureLevel);
  ea_toolDomains : list jsstr;
  ea_locks : bool;
  ea_cloud : bool;
  ea_connectors : list (jsstr * ConnectorLevel);
  ea_connectorGrants : option (list (jsstr * ConnectorLevel));
  ea_usage : EffectiveUsagePolicy;
  ea_deptRights : list DeptRight;
  ea_exceptions : list AccessExceptionRow
}.

(** ** The composition *)

Definition LOCK_CAPABLE_TIERS : list Role := [owner; admin; family].

Definition minConnectorLevel (a b : ConnectorLevel) : ConnectorLevel :=
  match a, b with read_write, read_write => read_write | _, _ => read end.

Definition connection_level (prev : option ConnectorLevel) (writeEnabled : bool) : ConnectorLevel :=
  match prev with Some read_write => read_write | _ => if writeEnabled then read_write else read end.

Definition connectionLevels (connections : list (jsstr * bool)) : list (jsstr * ConnectorLevel) :=
  foldl (fun out conn => jm_set conn.1 (connection_level (jm_get conn.1 out) conn.2) out) [] connections.

Abbreviation Levels := (list (ModuleId * FeatureLevel)).

Definition set_all (m : Levels) (l : Levels) : Levels := foldl (fun m f => jm_set f.1 f.2 m) m l.

(** A grant of a role, at what the tier may hold of it. *)
Definition set_grant (tier : Role) (m : Levels) (grant : ModuleId * FeatureLevel) : Levels :=
  if negb (isGateableModuleId grant.1) then m
  else match clampLevel tier grant.1 grant.2 with Some level => jm_set grant.1 level m | None => m end.

Definition granted_levels (tier : Role) (accessRole : option AccessRoleGrantRows) : Levels :=
  match accessRole with
  | None => set_all [] (fullCatalogFeatures tier)
  | Some role => foldl (set_grant tier) (set_all [] ALWAYS_ON_FEATURES) (ar_featureGrants role)
  end.

Definition apply_exception (tier : Role) (m : Levels) (x : AccessExceptionRow) : Levels :=
  if negb (isGateableModuleId (ex_moduleId x)) then m
  else match ex_effect x with
       | deny => jm_delete (ex_moduleId x) m
       | allow => match clampLevel tier (ex_moduleId x) (default view (ex_level x)) with
                  | Some level => jm_set (ex_moduleId x) level m
                  | None => m
                  end
       end.

Definition in_workspace (workspace : list ModuleId) (m : Levels) (id : ModuleId) : Levels :=
  if negb (isGateableModuleId id) then m else if bool_decide (id ∈ workspace) then m else jm_delete id m.

Definition in_satisfied (satisfied : list ModuleId) (m : Levels) (id : ModuleId) : Levels :=
  if bool_decide (id ∈ satisfied) then m else jm_delete id m.

Definition levelByModule (i : EffectiveAccessInputs) : Levels :=
  let tier := in_tier i in
  let m1 := granted_levels tier (in_accessRole i) in
  let m2 := foldl (apply_exception tier) m1 (in_exceptions i) in
  let m3 := foldl (in_workspace (in_workspaceModuleIds i)) m2 m2.*1 in
  foldl (in_satisfied (satisfiedModuleIds MODULE_REQUIRES m3.*1)) m3 m3.*1.

Definition effective_tool_domains (i : EffectiveAccessInputs) (featureIds : list ModuleId) : list jsstr :=
  let layers := in_toolLayers i in
  let universe := toolDomainUniverse layers in
  let reachable := tierReachableDomains (in_tier i) layers in
  let featureDomains := domainsForFeatures featureIds (runtimeOnlyDomains layers) in
  let granted := match in_accessRole i with None => universe | Some r => (ar_toolGrants r).*1 end in
  List.filter (fun d => bool_decide (d ∈ reachable) && bool_decide (d ∈ featureDomains) && bool_decide (d ∈ granted)) universe.

Definition effective_locks (i : EffectiveAccessInputs) (featureIds : list ModuleId) : bool :=
  let smartHomeOn := bool_decide (smart_home ∈ featureIds) in
  match in_accessRole i with
  | None => smartHomeOn && bool_decide (in_tier i ∈ LOCK_CAPABLE_TIERS)
  | Some r => ar_mayOperateLocks r && smartHomeOn
  end.

Definition effective_cloud (i : EffectiveAccessInputs) : bool :=
  match in_accessRole i with
  | None => in_cloudEscapeEnabled i
  | Some r => in_cloudEscapeEnabled i && ar_cloudModelsAllowed r
  end.

Definition role_connectors (connLevels : list (jsstr * ConnectorLevel)) (grants : list (jsstr * ConnectorLevel))
  : list (jsstr * ConnectorLevel) :=
  foldl (fun out g => match jm_get g.1 connLevels with
                      | None => out
                      | Some connLevel => jm_set g.1 (minConnectorLevel g.2 connLevel) out
                      end) [] grants.

Definition role_connector_grants (grants : list (jsstr * ConnectorLevel)) : list (jsstr * ConnectorLevel) :=
  foldl (fun out g => jm_set g.1 g.2 out) [] grants.

Definition effective_connectors (i : EffectiveAccessInputs) : list (jsstr * ConnectorLevel) * option (list (jsstr * ConnectorLevel)) :=
  let connLevels := connectionLevels (in_connections i) in
  match in_accessRole i with
  | None => (match in_tier i with admin => connLevels | _ => [] end, None)
  | Some r => (role_connectors connLevels (ar_connectorGrants r), Some (role_connector_grants (ar_connectorGrants r)))
  end.

Definition owner_access (i : EffectiveAccessInputs) (usage : EffectiveUsagePolicy) : EffectiveAccessResult :=
  mkResult owner (ALWAYS_ON_FEATURES ++ ((fun m => (m, manage)) <$> GATEABLE_MODULE_IDS))
    (toolDomainUniverse (in_toolLayers i)) true (in_cloudEscapeEnabled i) (connectionLevels (in_connections i)) None usage
    (in_deptRights i) (in_exceptions i).

Definition computeEffectiveAccess (i : EffectiveAccessInputs) : EffectiveAccessResult :=
  let usage := resolveEffectiveUsage (in_usagePolicy i) (role_usage <$> in_accessRole i) in
  match in_tier i with
  | owner => owner_access i usage
  | tier =>
      let features := levelByModule i in
      let '(connectors, connectorGrants) := effective_connectors i in
      mkResult tier features (effective_tool_domains i features.*1) (effective_locks i features.*1) (effective_cloud i)
        connectors connectorGrants usage (in_deptRights i) (in_exceptions i)
  end.

(** ** The read

    One REPEATABLE READ transaction: all of it is from one snapshot. *)

Record AccessRole := mkRole {
  rl_name : jsstr; rl_slug : jsstr; rl_startingPoint : Role; rl_archived : bool; rl_grants : AccessRoleGrantRows
}.

Record AccessSnapshot := mkSnapshot {
  sn_users : Directory;
  sn_roles : gmap jsstr AccessRole;
  sn_exceptions : gmap jsstr (list AccessExceptionRow);     (* oldest first *)
  sn_moduleSettings : list (ModuleId * bool);
  sn_cloudModelEscape : option bool;
  sn_connections : list (jsstr * bool);
  sn_usagePolicies : gmap jsstr UsageDefaultFields;
  sn_memberships : gmap jsstr (list DeptRight);
  sn_classifications : list RemoteToolClassificationRow
}.

(** The relation [User.accessRole]. *)
Definition role_of (sn : AccessSnapshot) (u : User) : option AccessRole := id ← us_accessRoleId u; sn_roles sn !! id.

Section resolver.
Context `{ToolCatalog} (cfg : AvailabilityConfig).

Definition inputs_of (registry : list RuntimeDescriptorFacts) (sn : AccessSnapshot) (u : User) : EffectiveAccessInputs :=
  mkInputs (us_role u) (rl_grants <$> role_of sn u) (default [] (sn_exceptions sn !! us_id u))
    (computeEffectiveIds (sn_moduleSettings sn) cfg) (bool_decide (sn_cloudModelEscape sn = Some true)) (sn_connections sn)
    (sn_usagePolicies sn !! us_id u) (default [] (sn_memberships sn !! us_id u)) (loadToolLayers registry (sn_classifications sn)).

Definition resolveEffectiveAccess (registry : list RuntimeDescriptorFacts) (sn : AccessSnapshot) (userId : jsstr) : option EffectiveAccessResult :=
  u ← sn_users sn !! userId; Some (computeEffectiveAccess (inputs_of registry sn u)).
End resolver.

(** ** The gates *)

(** [req.user]: the session's claims. *)
Record Principal := mkPrincipal { pr_id : option jsstr; pr_role : Role }.

Inductive GateAnswer := Next | ModuleDisabled (m : ModuleId).

(** [guestShared]: the declared exception of guest-shares.ts for this request. *)
Definition requireModuleTierFloor (m : ModuleId) (guestShared : bool) (user : option Principal) : GateAnswer :=
  match user with
  | None => Next
  | Some u =>
      if bool_decide (pr_role u = service) then Next
      else if isGateableModuleId m && bool_decide (maxLevelFor (pr_role u) m = None) then
        if bool_decide (pr_role u = guest) && guestShared then Next else ModuleDisabled m
      else Next
  end.

(** [resolve]: [None] when it throws. *)
Definition featureGate (m : ModuleId) (minLevel : FeatureLevel) (resolve : jsstr -> option (option EffectiveAccessResult))
    (user : option Principal) : GateAnswer :=
  match user with
  | None => Next
  | Some u =>
      if bool_decide (pr_role u = service) then Next
      else match pr_id u with
           | None | Some [] => Next
           | Some userId =>
               match resolve userId with
               | None => ModuleDisabled m
               | Some None => Next
               | Some (Some access) =>
                   match List.find (fun f => bool_decide (f.1 = m)) (ea_features access) with
                   | None => ModuleDisabled m
                   | Some held => if FEATURE_LEVEL_RANK held.2 <? FEATURE_LEVEL_RANK minLevel then ModuleDisabled m else Next
                   end
               end
           end
  end.

(** ** What comes out of the loops *)

(** What the tier or the role gives. *)
Definition assigned_level (i : EffectiveAccessInputs) (m : ModuleId) : option FeatureLevel :=
  if decide (m = chat) then Some act
  else match in_accessRole i with
       | None => maxLevelFor (in_tier i) m
       | Some role => l ← jm_get m (ar_featureGrants role); clampLevel (in_tier i) m l
       end.

(** A personal exception takes its place. *)
Definition excepted_level (i : EffectiveAccessInputs) (m : ModuleId) : option FeatureLevel :=
  match List.find (fun x => bool_decide (ex_moduleId x = m)) (in_exceptions i) with
  | None => assigned_level i m
  | Some x => match ex_effect x with
              | deny => None
              | allow => clampLevel (in_tier i) m (default view (ex_level x))
              end
  end.

(** The workspace has to have the module on; the assistant always is. *)
Definition own_level (i : EffectiveAccessInputs) (m : ModuleId) : option FeatureLevel :=
  if decide (m = chat) then Some act else if decide (m ∈ in_workspaceModuleIds i) then excepted_level i m else None.

(** And the module it cannot do without has to be held. *)
Definition held_level (i : EffectiveAccessInputs) (m : ModuleId) : option FeatureLevel :=
  match MODULE_REQUIRES m with Some parent => _ ← own_level i parent; own_level i m | None => own_level i m end.

(** *** Said without the loops *)

(** What the role gives, or without a role the tier, at a module of the catalog. *)
Definition assigned (i : EffectiveAccessInputs) (m : ModuleId) (l : FeatureLevel) : Prop :=
  match in_accessRole i with
  | None => best_level (in_tier i) m manage l
  | Some role => exists granted, (m, granted) ∈ ar_featureGrants role /\ best_level (in_tier i) m granted l
  end.

(** A personal exception takes its place: one that denies leaves nothing. *)
Definition excepted (i : EffectiveAccessInputs) (m : ModuleId) (l : FeatureLevel) : Prop :=
  (assigned i m l /\ forall x, x ∈ in_exceptions i -> ex_moduleId x <> m) \/
  exists x, x ∈ in_exceptions i /\ ex_moduleId x = m /\ ex_effect x = allow /\
    best_level (in_tier i) m (match ex_level x with Some asked => asked | None => view end) l.

(** The workspace has to have the module on; the assistant always is. *)
Definition own (i : EffectiveAccessInputs) (m : ModuleId) (l : FeatureLevel) : Prop :=
  (m = chat /\ l = act) \/ (m <> chat /\ m ∈ in_workspaceModuleIds i /\ excepted i m l).

(** And documents go with files. *)
Definition holds (i : EffectiveAccessInputs) (m : ModuleId) (l : FeatureLevel) : Prop :=
  own i m l /\ (m = docs -> exists l', own i files l').

(** The owner is outside the model. *)
Definition person_holds (i : EffectiveAccessInputs) (m : ModuleId) (l : FeatureLevel) : Prop :=
  (in_tier i = owner /\ l = match m with chat => act | _ => manage end) \/ (in_tier i <> owner /\ holds i m l).

(** A role's grants and a person's exceptions are keyed by module: the primary
    key of the one table and the unique index of the other. *)
Record inputs_wf (i : EffectiveAccessInputs) : Prop := {
  wf_grants : forall r, in_accessRole i = Some r -> NoDup (ar_featureGrants r).*1;
  wf_exceptions : NoDup (ex_moduleId <$> in_exceptions i)
}.

(** ** Facts *)

Lemma set_grant_get tier m g k : jm_get k (set_grant tier m g) =
  if decide (g.1 = k) then (if isGateableModuleId g.1 then match clampLevel tier g.1 g.2 with Some l => Some l | None => jm_get k m end else jm_get k m)
  else jm_get k m.
Proof.
  unfold set_grant. destruct (isGateableModuleId g.1); cbn; [|by case_decide]. destruct (clampLevel _ _ _); [|by case_decide].
  rewrite jm_get_set. by case_decide.
Qed.

Lemma apply_exception_get tier m x k : jm_get k (apply_exception tier m x) =
  if decide (ex_moduleId x = k) then
    (if isGateableModuleId (ex_moduleId x) then
       match ex_effect x with
       | deny => None
       | allow => match clampLevel tier (ex_moduleId x) (default view (ex_level x)) with Some l => Some l | None => jm_get k m end
       end else jm_get k m)
  else jm_get k m.
Proof.
  unfold apply_exception. destruct (isGateableModuleId _); cbn; [|by case_decide]. destruct (ex_effect x); [|rewrite jm_get_delete; by case_decide].
  destruct (clampLevel _ _ _); [|by case_decide]. rewrite jm_get_set. by case_decide.
Qed.

Lemma in_workspace_get w m id k : jm_get k (in_workspace w m id) =
  if decide (id = k) then (if isGateableModuleId id && negb (bool_decide (id ∈ w)) then None else jm_get k m) else jm_get k m.
Proof.
  unfold in_workspace. destruct (isGateableModuleId id); cbn; [|by case_decide]. case_bool_decide; cbn; [by case_decide|].
  rewrite jm_get_delete. by case_decide.
Qed.

Lemma in_satisfied_get s m id k : jm_get k (in_satisfied s m id) =
  if decide (id = k) then (if bool_decide (id ∈ s) then jm_get k m else None) else jm_get k m.
Proof. unfold in_satisfied. case_bool_decide; [by case_decide|]. rewrite jm_get_delete. by case_decide. Qed.

Lemma set_grant_nodup tier m g : NoDup m.*1 -> NoDup (set_grant tier m g).*1.
Proof. unfold set_grant. repeat case_match; auto using jm_set_nodup. Qed.
Lemma apply_exception_nodup tier m x : NoDup m.*1 -> NoDup (apply_exception tier m x).*1.
Proof. unfold apply_exception. repeat case_match; auto using jm_set_nodup, jm_delete_nodup. Qed.
Lemma in_workspace_nodup w m id : NoDup m.*1 -> NoDup (in_workspace w m id).*1.
Proof. unfold in_workspace. repeat case_match; auto using jm_delete_nodup. Qed.
Lemma in_satisfied_nodup s m id : NoDup m.*1 -> NoDup (in_satisfied s m id).*1.
Proof. unfold in_satisfied. case_match; auto using jm_delete_nodup. Qed.
Lemma set_all_nodup l m : NoDup m.*1 -> NoDup (set_all m l).*1.
Proof. apply loop_nodup. intros. by apply jm_set_nodup. Qed.

Lemma gateable_iff m : isGateableModuleId m = true <-> m <> chat.
Proof. unfold isGateableModuleId. case_bool_decide; naive_solver. Qed.

Lemma gateable_chat : isGateableModuleId chat = false.
Proof. reflexivity. Qed.

Lemma full_catalog_get tier m : jm_get m (set_all [] (fullCatalogFeatures tier)) = if decide (m = chat) then Some act else maxLevelFor tier m.
Proof. revert tier m. apply (bool_decide_unpack _). vm_compute. exact I. Qed.

Lemma always_on_get m : jm_get m (set_all [] ALWAYS_ON_FEATURES) = if decide (m = chat) then Some act else None.
Proof. revert m. apply (bool_decide_unpack _). vm_compute. exact I. Qed.

Lemma granted_levels_get tier role m : (forall r, role = Some r -> NoDup (ar_featureGrants r).*1) ->
  jm_get m (granted_levels tier role) =
  if decide (m = chat) then Some act
  else match role with None => maxLevelFor tier m | Some r => l ← jm_get m (ar_featureGrants r); clampLevel tier m l end.
Proof.
  intros Hwf. unfold granted_levels. destruct role as [r|]; [|apply full_catalog_get].
  rewrite (loop_get _ fst (fun g old => if isGateableModuleId g.1 then match clampLevel tier g.1 g.2 with Some l => Some l | None => old end else old));
    [|intros; apply set_grant_get|by apply Hwf].
  rewrite find_key, always_on_get. destruct (jm_get m (ar_featureGrants r)) as [l|]; cbn; [|by case_decide].
  destruct (decide (m = chat)) as [->|Hm]; [done|]. rewrite (proj2 (gateable_iff m) Hm). by destruct (clampLevel tier m l).
Qed.

Lemma granted_levels_nodup tier role : NoDup (granted_levels tier role).*1.
Proof.
  unfold granted_levels. destruct role; [apply loop_nodup; [intros; by apply set_grant_nodup|]|]; apply set_all_nodup, NoDup_nil_2.
Qed.

Section levels.
Context (i : EffectiveAccessInputs) (Hwf : inputs_wf i).

#[local] Abbreviation m1 := (granted_levels (in_tier i) (in_accessRole i)).
#[local] Abbreviation m2 := (foldl (apply_exception (in_tier i)) m1 (in_exceptions i)).
#[local] Abbreviation m3 := (foldl (in_workspace (in_workspaceModuleIds i)) m2 m2.*1).

Lemma assigned_get m : jm_get m m1 = assigned_level i m.
Proof. apply granted_levels_get. apply (wf_grants i Hwf). Qed.

Lemma m2_nodup : NoDup m2.*1.
Proof. apply loop_nodup; [intros; by apply apply_exception_nodup|apply granted_levels_nodup]. Qed.
Lemma m3_nodup : NoDup m3.*1.
Proof. apply loop_nodup; [intros; by apply in_workspace_nodup|apply m2_nodup]. Qed.

Lemma excepted_get m : jm_get m m2 = if decide (m = chat) then Some act else excepted_level i m.
Proof.
  rewrite (loop_get _ ex_moduleId (fun x old => if isGateableModuleId (ex_moduleId x) then
       match ex_effect x with
       | deny => None
       | allow => match clampLevel (in_tier i) (ex_moduleId x) (default view (ex_level x)) with Some l => Some l | None => old end
       end else old)); [|intros; apply apply_exception_get|apply (wf_exceptions i Hwf)].
  rewrite assigned_get. unfold excepted_level. destruct (List.find _ _) as [x|] eqn:Ex; [|unfold assigned_level; by case_decide].
  apply find_some in Ex as [_ <-%bool_decide_eq_true]. destruct (decide (ex_moduleId x = chat)) as [E|E].
  - by rewrite E.
  - rewrite (proj2 (gateable_iff _) E). destruct (ex_effect x); [|done]. destruct (clampLevel _ _ (default view _)) eqn:Ec; [done|].
    apply clamp_refused in Ec. unfold assigned_level. rewrite decide_False by done. destruct (in_accessRole i).
    + destruct (jm_get _ _); [|done]. by apply clamp_refused.
    + rewrite max_is_clamp. by apply clamp_refused.
Qed.

Lemma own_get m : jm_get m m3 = own_level i m.
Proof.
  rewrite (loop_get _ (fun id => id) (fun id old => if isGateableModuleId id && negb (bool_decide (id ∈ in_workspaceModuleIds i)) then None else old));
    [|intros; apply in_workspace_get|rewrite list_fmap_id; apply m2_nodup].
  rewrite find_self. unfold own_level. destruct (decide (m ∈ m2.*1)) as [Hin|Hin].
  - rewrite excepted_get. destruct (decide (m = chat)) as [->|Hm]; [done|].
    rewrite (proj2 (gateable_iff m) Hm). case_bool_decide; by case_decide.
  - apply jm_get_None in Hin. rewrite excepted_get in Hin. rewrite excepted_get. destruct (decide (m = chat)) as [->|Hm]; [done|].
    rewrite Hin. by case_decide.
Qed.

Lemma held_get m : jm_get m (levelByModule i) = held_level i m.
Proof.
  unfold levelByModule. rewrite (loop_get _ (fun id => id) (fun id old => if bool_decide (id ∈ satisfiedModuleIds MODULE_REQUIRES m3.*1) then old else None));
    [|intros; apply in_satisfied_get|rewrite list_fmap_id; apply m3_nodup].
  rewrite find_self, own_get. case_decide as Hin.
  - case_bool_decide as Hs; rewrite satisfied_modules, <- !jm_get_Some, !own_get in Hs; unfold held_level.
    + destruct m; try done. destruct Hs as [_ [l Hl]]; [done|]. change (MODULE_REQUIRES docs) with (Some files). cbn. by rewrite Hl.
    + apply jm_get_Some in Hin. rewrite own_get in Hin. destruct m; try (destruct Hs; split; [done|discriminate]).
      change (MODULE_REQUIRES docs) with (Some files). cbn. destruct (own_level i files) eqn:E; [|done]. destruct Hs. split; [done|by eexists].
  - apply jm_get_None in Hin. rewrite own_get in Hin. unfold held_level. rewrite Hin. destruct (MODULE_REQUIRES m) as [p|]; [by destruct (own_level i p)|done].
Qed.

Lemma levels_nodup : NoDup (levelByModule i).*1.
Proof. apply loop_nodup; [intros; by apply in_satisfied_nodup|apply m3_nodup]. Qed.
End levels.

(** ** Who holds what *)

(** The owner is outside the model. *)
Definition person_level (i : EffectiveAccessInputs) (m : ModuleId) : option FeatureLevel :=
  if decide (in_tier i = owner) then Some (if decide (m = chat) then act else manage) else held_level i m.

Lemma access_eq i : in_tier i <> owner -> computeEffectiveAccess i =
  mkResult (in_tier i) (levelByModule i) (effective_tool_domains i (levelByModule i).*1) (effective_locks i (levelByModule i).*1)
    (effective_cloud i) (effective_connectors i).1 (effective_connectors i).2 (resolveEffectiveUsage (in_usagePolicy i) (role_usage <$> in_accessRole i))
    (in_deptRights i) (in_exceptions i).
Proof. intros Ht. unfold computeEffectiveAccess. destruct (in_tier i); [done| | | |]; by destruct (effective_connectors i). Qed.

Lemma access_features i : ea_features (computeEffectiveAccess i) =
  if decide (in_tier i = owner) then ALWAYS_ON_FEATURES ++ ((fun m => (m, manage)) <$> GATEABLE_MODULE_IDS) else levelByModule i.
Proof. unfold computeEffectiveAccess. destruct (effective_connectors i) as [a b], (in_tier i); reflexivity. Qed.

Lemma person_get i m : inputs_wf i -> jm_get m (ea_features (computeEffectiveAccess i)) = person_level i m.
Proof.
  intros Hwf. rewrite access_features. unfold person_level. case_decide; [|by apply held_get].
  revert m. apply (bool_decide_unpack _). vm_compute. exact I.
Qed.

Lemma person_nodup i : NoDup (ea_features (computeEffectiveAccess i)).*1.
Proof. rewrite access_features. case_decide; [apply (bool_decide_unpack _); vm_compute; exact I|apply levels_nodup]. Qed.

Lemma assigned_iff i m l : inputs_wf i -> m <> chat -> assigned_level i m = Some l <-> assigned i m l.
Proof.
  intros Hwf Hm. unfold assigned_level, assigned. rewrite decide_False by done. destruct (in_accessRole i) as [r|] eqn:Er; [|by apply max_best].
  setoid_rewrite <- (jm_get_elem m _ (ar_featureGrants r)); [|by apply (wf_grants i Hwf)].
  destruct (jm_get m (ar_featureGrants r)) as [g|]; cbn; [rewrite clamp_best by done|]; naive_solver.
Qed.

Lemma find_exception i m x : inputs_wf i ->
  List.find (fun x => bool_decide (ex_moduleId x = m)) (in_exceptions i) = Some x <-> x ∈ in_exceptions i /\ ex_moduleId x = m.
Proof.
  intros Hwf. split; [intros [? ?%bool_decide_eq_true]%find_some; by rewrite list_elem_of_In|]. intros [Hx <-].
  destruct (List.find _ _) as [y|] eqn:E.
  - apply find_some in E as [Hy%list_elem_of_In Hk%bool_decide_eq_true]. f_equal. by eapply (nodup_key_inj ex_moduleId); [apply Hwf|..].
  - eapply find_none in E; [|by apply list_elem_of_In]. by apply bool_decide_eq_false in E.
Qed.

Lemma excepted_iff i m l : inputs_wf i -> m <> chat -> excepted_level i m = Some l <-> excepted i m l.
Proof.
  intros Hwf Hm. unfold excepted_level, excepted. destruct (List.find _ _) as [x|] eqn:Ex.
  - apply find_exception in Ex as [Hx Hxm]; [|done]. transitivity (ex_effect x = allow /\ best_level (in_tier i) m (default view (ex_level x)) l).
    + destruct (ex_effect x); [rewrite clamp_best by done|]; naive_solver.
    + split; [intros [? ?]; right; by exists x|]. intros [[_ Hno]|(y & Hy & Hym & Hb)]; [by destruct (Hno x)|].
      rewrite (nodup_key_inj ex_moduleId (in_exceptions i) x y); [done|apply Hwf|done..|congruence].
  - rewrite assigned_iff by done. assert (Hno : forall x, x ∈ in_exceptions i -> ex_moduleId x <> m).
    { intros x Hx. eapply find_none in Ex; [|by apply list_elem_of_In]. by apply bool_decide_eq_false in Ex. }
    split; [by left|]. intros [[? _]|(x & Hx & Hxm & _)]; [done|]. by destruct (Hno x).
Qed.

Lemma own_iff i m l : inputs_wf i -> own_level i m = Some l <-> own i m l.
Proof.
  intros Hwf. unfold own_level, own. case_decide as Hm; [naive_solver|]. case_decide as Hw; [rewrite excepted_iff by done|]; naive_solver.
Qed.

Lemma held_iff i m l : inputs_wf i -> held_level i m = Some l <-> holds i m l.
Proof.
  intros Hwf. unfold held_level, holds. setoid_rewrite <- own_iff; [|done..].
  destruct m; try (change (MODULE_REQUIRES _) with (@None ModuleId); cbn; naive_solver).
  change (MODULE_REQUIRES docs) with (Some files). cbn. destruct (own_level i files); cbn; naive_solver.
Qed.

Lemma person_iff i m l : inputs_wf i -> person_level i m = Some l <-> person_holds i m l.
Proof.
  intros Hwf. unfold person_level, person_holds. case_decide; [|rewrite held_iff by done; naive_solver].
  case_decide as Hm; [naive_solver|]. destruct m; naive_solver.
Qed.

Lemma features_iff i m l : inputs_wf i -> (m, l) ∈ ea_features (computeEffectiveAccess i) <-> person_holds i m l.
Proof. intros Hwf. rewrite <- person_iff, <- person_get by done. symmetry. apply jm_get_elem, person_nodup. Qed.

(** Below the owner, what is held is on offer to the tier, and the workspace has
    it on. *)
Lemma held_within i m l : holds i m l -> m <> chat -> offered (in_tier i) m l /\ m ∈ in_workspaceModuleIds i.
Proof.
  intros [[[? _]|(_ & Hw & He)] _] Hm; [done|]. split; [|done]. destruct He as [[Ha _]|(x & _ & _ & _ & Ho & _)]; [|done].
  unfold assigned in Ha. destruct (in_accessRole i); [destruct Ha as (g & _ & Ho & _)|destruct Ha as [Ho _]]; done.
Qed.

(** An exception may also lower a level: allowed to view, a manager of the files
    is left with viewing. *)
Lemma allow_may_lower :
  let i := mkInputs family None [mkException (js "x") files allow (Some view)] [files] false [] None [] (mkLayers [] []) in
  assigned_level i files = Some manage /\ held_level i files = Some view.
Proof. split; vm_compute; reflexivity. Qed.

(** C35: What a person holds is exactly what their tier, role, exceptions and
    workspace say. Below the owner a module is held at a level just when the level
    is the best on offer to the tier at or below what was granted - by the role,
    or without a role everything, or by a personal exception, which takes the
    place of either - the workspace has the module on, and for the documents the
    files are held too; the assistant is always held, for use. Nothing outside the
    tier's offer or the workspace's modules is ever held, by whatever grants and
    exceptions are stored. And a route that needs a level lets a person in just
    when they hold at least it, a service always. The offer is the table of the
    catalog's rows with their floors, and the order of tiers and of levels is
    written out: no comparison of the code's is used. *)
Theorem access_is_exact (i : EffectiveAccessInputs) : inputs_wf i ->
  (forall m l, (m, l) ∈ ea_features (computeEffectiveAccess i) <-> person_holds i m l) /\
  (in_tier i <> owner -> forall m l, (m, l) ∈ ea_features (computeEffectiveAccess i) -> m <> chat ->
     offered (in_tier i) m l /\ m ∈ in_workspaceModuleIds i) /\
  forall m need userId, userId <> [] ->
    featureGate m need (fun _ => Some (Some (computeEffectiveAccess i))) (Some (mkPrincipal (Some userId) (in_tier i))) = Next <->
    in_tier i = service \/ exists l, person_holds i m l /\ at_most need l.
Proof.
  intros Hwf. split; [intros m l; by apply features_iff|]. split.
  - intros Ho m l [[? _]|[_ Hl]]%features_iff Hm; [done| |done]. by apply held_within.
  - intros m need userId Hu. setoid_rewrite <- person_iff; [|done]. setoid_rewrite <- at_most_rank.
    unfold featureGate. cbn [pr_role pr_id]. case_bool_decide as Hs; [split; [by left|done]|].
    destruct userId as [|c s]; [done|]. rewrite find_key, person_get by done.
    destruct (person_level i m) as [l|]; cbn; [destruct (Z.ltb_spec (FEATURE_LEVEL_RANK l) (FEATURE_LEVEL_RANK need))|].
    + split; [done|]. intros [?|(l' & [= <-] & ?)]; [done|lia].
    + split; [|done]. intros _. right. by exists l.
    + split; [done|]. by intros [?|(l' & ? & _)].
Qed.

(** A front desk's person: no files by exception, so no documents either. *)
Definition example_inputs : EffectiveAccessInputs :=
  mkInputs family
    (Some (mkGrants true true None None None [(files, manage); (docs, manage); (network, manage); (smart_home, act)]
       [(js "smart-home", use)] [(js "eaglesoft", read)]))
    [mkException (js "x1") files deny None; mkException (js "x2") cameras allow (Some act)]
    [files; docs; network; smart_home; cameras] false [(js "eaglesoft", true)] None [] (mkLayers [] []).

Lemma example_levels : person_level example_inputs <$> [chat; files; docs; network; smart_home; cameras; crm] =
  [Some act; None; None; Some view; Some act; Some act; None].
Proof. vm_compute. reflexivity. Qed.

Lemma example_wf : inputs_wf example_inputs.
Proof. split; [intros r [= <-]|]; apply (bool_decide_unpack _); vm_compute; exact I. Qed.

Lemma example_no_docs l : ~ person_holds example_inputs docs l.
Proof. intros Hl%person_iff; [|exact example_wf]. vm_compute in Hl. discriminate Hl. Qed.

Lemma access_is_exact_witness : inputs_wf example_inputs /\
  (forall m l, (m, l) ∈ ea_features (computeEffectiveAccess example_inputs) <-> person_holds example_inputs m l) /\
  (smart_home, act) ∈ ea_features (computeEffectiveAccess example_inputs) /\
  (smart_home, manage) ∉ ea_features (computeEffectiveAccess example_inputs) /\
  featureGate docs view (fun _ => Some (Some (computeEffectiveAccess example_inputs))) (Some (mkPrincipal (Some (js "u")) family)) <> Next.
Proof.
  pose proof (access_is_exact example_inputs example_wf) as (Hf & _ & Hg). split; [exact example_wf|]. split; [exact Hf|]. split.
  { apply (bool_decide_unpack _). vm_compute. exact I. } split.
  { apply (bool_decide_unpack _). vm_compute. exact I. }
  intros Hn. apply (Hg docs view (js "u")) in Hn as [Hs|(l & Hl & _)]; [discriminate Hs| |discriminate]. by apply example_no_docs in Hl.
Defined.
