(* ===== verification/ToolAccess.v ===== *)
(** * ToolAccess: which tools a person may call
      (apps/orchestrator/src/services/tool-access.service.ts and
       tool-layers.service.ts)

    The write tiers and the narrowing by access role, the catalog filter and
    the check at dispatch, and the two ways the scope of a person is found: for
    the principal of a request and for a stored user id.  What a read of the
    database answers is an argument, so that each may fail, and may see another
    state than the read before it. *)

From stdpp Require Import finite.
From S2P Require Import Prelude JsNum Json DateTime AuditSigning AuditVerify AuditRecorder RoleGuard Webhooks AccessCatalog EffectiveAccess.

Local Open Scope Z_scope.

Record ToolAccessScope := mkScope { ts_domains : list jsstr; ts_writeDomains : list jsstr; ts_locks : bool }.

Definition DENY_ALL_TOOL_SCOPE : ToolAccessScope := mkScope [] [] false.

(** What a scope check reads of a tool. *)
Record ToolFacts := mkFacts { tf_domain : jsstr; tf_requiresWrite : bool }.

Definition RuntimeToolLookup : Type := jsstr -> option ToolFacts.
Definition NO_RUNTIME_TOOLS : RuntimeToolLookup := fun _ => None.

(** The [Map] keeps the last tool of a name. *)
Definition runtimeToolLookupFrom (registry : list RuntimeDescriptorFacts) (lookup : jsstr -> jsstr -> option RemoteToolClassificationRow)
  : RuntimeToolLookup :=
  fun name => (fun t => mkFacts (lt_domain t) (lt_requiresWrite t)) <$>
              List.find (fun t => bool_decide (lt_name t = name)) (rev (runtimeLayer registry lookup)).

Section tools.
Context `{ToolCatalog}.

Definition CATALOG_BY_NAME (name : jsstr) : option CatalogEntry :=
  List.find (fun e => bool_decide (ce_name e = name)) (rev TOOL_CATALOG).

Definition entry_facts (e : CatalogEntry) : ToolFacts := mkFacts (ce_domain e) (ce_requiresWrite e).

(** ** The write tiers *)

Definition WRITE_TOOLS : list jsstr := ce_name <$> List.filter ce_requiresWrite TOOL_CATALOG.
Definition VOICE_WRITE_TOOLS : list jsstr := [js "control_device"].

Definition writeToolsIn (names : list jsstr) (runtimeWrite : option (list jsstr)) : list jsstr :=
  List.filter (fun n => bool_decide (n ∈ WRITE_TOOLS) || match runtimeWrite with Some l => bool_decide (n ∈ l) | None => false end) names.
Definition hasWriteTool (names : list jsstr) : bool := negb (bool_decide (writeToolsIn names None = [])).
Definition isCatalogRead (name : jsstr) : bool :=
  match CATALOG_BY_NAME name with Some e => negb (ce_requiresWrite e) && negb (ce_requiresConfirmation e) | None => false end.
Definition unknownToolsIn (names : list jsstr) (extraKnown : option (list jsstr)) : list jsstr :=
  List.filter (fun n => bool_decide (CATALOG_BY_NAME n = None) &&
                        negb (match extraKnown with Some l => bool_decide (n ∈ l) | None => false end)) names.

Definition isPrivilegedRole (role : option Role) : bool :=
  match role with Some owner | Some admin => true | _ => false end.
Definition tierKeepsWriteTools (tier : Role) : bool := match tier with owner | admin => true | _ => false end.

Definition toolAllowedForTier (name : jsstr) (tier : option Role) (isVoice : bool) : bool :=
  if isPrivilegedRole tier then true
  else negb (bool_decide (name ∈ WRITE_TOOLS)) || (isVoice && bool_decide (name ∈ VOICE_WRITE_TOOLS)).

(** ** The scope *)

Definition known_tool (runtime : RuntimeToolLookup) (name : jsstr) : option ToolFacts :=
  match CATALOG_BY_NAME name with Some e => Some (entry_facts e) | None => runtime name end.

Definition toolAllowedInScope (name : jsstr) (scope : ToolAccessScope) (runtime : RuntimeToolLookup) : bool :=
  match known_tool runtime name with
  | None => false
  | Some entry =>
      if negb (bool_decide (tf_domain entry ∈ ts_domains scope)) then false
      else if tf_requiresWrite entry && negb (bool_decide (tf_domain entry ∈ ts_writeDomains scope)) then false else true
  end.

Definition narrowToolNamesToScope (names : list jsstr) (scope : ToolAccessScope) (runtime : RuntimeToolLookup) : list jsstr :=
  List.filter (fun n => toolAllowedInScope n scope runtime) names.

Definition firstForbiddenToolName (names : list jsstr) (scope : option ToolAccessScope) : option jsstr :=
  match scope with
  | None => None
  | Some s => List.find (fun n => negb (toolAllowedInScope n s NO_RUNTIME_TOOLS)) names
  end.

Definition toolAllowedForPrincipal (name : jsstr) (tier : option Role) (scope : option ToolAccessScope) (isVoice : bool)
    (runtime : RuntimeToolLookup) : bool :=
  if negb (toolAllowedForTier name tier isVoice) then false
  else match scope with None => true | Some s => toolAllowedInScope name s runtime end.

Definition narrowToolNamesForPrincipal (names : list jsstr) (tier : option Role) (scope : option ToolAccessScope) (isVoice : bool)
    (runtime : RuntimeToolLookup) : list jsstr :=
  List.filter (fun n => toolAllowedForPrincipal n tier scope isVoice runtime) names.

Inductive ToolDenialAxis := write_tier | role_grant.

Fixpoint firstToolDeniedForPrincipal (names : list jsstr) (tier : option Role) (scope : option ToolAccessScope) (isVoice : bool)
    (runtime : RuntimeToolLookup) : option (jsstr * ToolDenialAxis) :=
  match names with
  | [] => None
  | name :: r =>
      if negb (toolAllowedForTier name tier isVoice) then Some (name, write_tier)
      else match scope with
           | Some s => if negb (toolAllowedInScope name s runtime) then Some (name, role_grant)
                       else firstToolDeniedForPrincipal r tier scope isVoice runtime
           | None => firstToolDeniedForPrincipal r tier scope isVoice runtime
           end
  end.

(** ** Locks *)

Definition text_or_empty (v : option jsval) : jsstr := match v with Some (JStr s) => s | _ => [] end.

Definition lock_word (s : jsstr) : bool := includes (js "lock") (toLowerCase s).

Definition lock_value (v : jsval) : bool := match v with JStr s => lock_word s | _ => false end.

(** [Object.entries(data)]: the keys of an array are digits. *)
Definition lock_in_data (v : option jsval) : bool :=
  match v with
  | Some (JObj kvs) => existsb (fun kv => lock_word kv.1 || lock_value kv.2) kvs
  | Some (JArr l) => existsb lock_value l
  | _ => false
  end.

Definition isLockLikeInvocation (args : jsval) : bool :=
  match args with
  | JObj kvs => lock_word (text_or_empty (alookup (js "command") kvs)) || lock_in_data (alookup (js "data") kvs)
  | _ => false
  end.

Definition lockOperationDenied (name : jsstr) (args : jsval) (scope : ToolAccessScope) : bool :=
  if ts_locks scope then false else if negb (bool_decide (name = js "control_device")) then false else isLockLikeInvocation args.

(** ** At dispatch *)

Inductive ToolDispatchDenial := FORBIDDEN_TOOL_FOR_ROLE | LOCK_OPERATION_NOT_PERMITTED.

Definition toolDispatchDenial (name : jsstr) (args : jsval) (scope : option ToolAccessScope) (runtime : RuntimeToolLookup)
  : option ToolDispatchDenial :=
  match scope with
  | None => None
  | Some s =>
      if bool_decide (known_tool runtime name = None) then None
      else if negb (toolAllowedInScope name s runtime) then Some FORBIDDEN_TOOL_FOR_ROLE
      else if lockOperationDenied name args s then Some LOCK_OPERATION_NOT_PERMITTED
      else None
  end.
End tools.

(** ** Finding the scope *)

Inductive ToolScopeTrust := database | session_claim.

(** The claim of a session: absent, null or a role's id. *)
Inductive RoleClaim := ClaimAbsent | ClaimNull | ClaimRole (id : jsstr).

Record SessionUser := mkSessionUser { su_id : option jsstr; su_role : option Role; su_accessRoleId : RoleClaim }.

(** The columns of the row the resolvers read. *)
Record AccessRoleIdRow := mkIdRow { ir_accessRoleId : option jsstr; ir_toolGrants : list (jsstr * ToolLevel) }.

(** What a read answers: it threw, or it found nothing, or a row. *)
Abbreviation Read A := (option (option A)).

Definition write_domains (domains : list jsstr) (grants : list (jsstr * ToolLevel)) : list jsstr :=
  fst <$> List.filter (fun g => bool_decide (g.2 = use) && bool_decide (g.1 ∈ domains)) grants.

Definition composeScopeForRow (row : AccessRoleIdRow) (resolved : Read EffectiveAccessResult) : option ToolAccessScope :=
  match ir_accessRoleId row with
  | None => None
  | Some _ =>
      match resolved with
      | None | Some None => Some DENY_ALL_TOOL_SCOPE
      | Some (Some access) =>
          let domains := ea_toolDomains access in
          Some (mkScope domains (if tierKeepsWriteTools (ea_tier access) then write_domains domains (ir_toolGrants row) else [])
                  (ea_locks access))
      end
  end.

Definition resolveToolAccessScope (user : option SessionUser) (trust : ToolScopeTrust) (row : Read AccessRoleIdRow)
    (resolved : Read EffectiveAccessResult) : option ToolAccessScope :=
  match user ≫= su_role with
  | None | Some owner | Some service => None
  | Some _ =>
      match user with
      | None => None
      | Some u =>
          match su_id u with
          | None | Some [] => Some DENY_ALL_TOOL_SCOPE
          | Some _ =>
              match trust, su_accessRoleId u with
              | session_claim, ClaimNull => None
              | _, _ =>
                  match row with
                  | None | Some None => Some DENY_ALL_TOOL_SCOPE
                  | Some (Some r) => composeScopeForRow r resolved
                  end
              end
          end
      end
  end.

Inductive AttributionFailure := no_principal | user_missing | user_deactivated | read_failed.

Record AttributedToolAccess := mkAttributed {
  at_scope : option ToolAccessScope; at_tier : option Role; at_unresolved : option AttributionFailure; at_username : option jsstr
}.

Definition attribution_denied (f : AttributionFailure) : AttributedToolAccess :=
  mkAttributed (Some DENY_ALL_TOOL_SCOPE) None (Some f) None.

Definition resolveAttributedToolAccess (userId : option jsstr) (row : Read (User * AccessRoleIdRow)) (resolved : Read EffectiveAccessResult)
  : AttributedToolAccess :=
  match userId with
  | None | Some [] => attribution_denied no_principal
  | Some _ =>
      match row with
      | None => attribution_denied read_failed
      | Some None => attribution_denied user_missing
      | Some (Some (u, r)) =>
          if bool_decide (us_status u = DEACTIVATED) then attribution_denied user_deactivated
          else
            let username := if bool_decide (us_username u = []) then None else Some (us_username u) in
            if bool_decide (us_role u = owner) then mkAttributed None (Some owner) None username
            else mkAttributed (composeScopeForRow r resolved) (Some (us_role u)) None username
      end
  end.

(** The reads, on one state of the database. *)
Definition id_row (sn : AccessSnapshot) (u : User) : AccessRoleIdRow :=
  mkIdRow (us_accessRoleId u) (match role_of sn u with Some r => ar_toolGrants (rl_grants r) | None => [] end).
Definition read_id_row (sn : AccessSnapshot) (userId : jsstr) : Read AccessRoleIdRow := Some (id_row sn <$> sn_users sn !! userId).
Definition read_user_row (sn : AccessSnapshot) (userId : jsstr) : Read (User * AccessRoleIdRow) :=
  Some ((fun u => (u, id_row sn u)) <$> sn_users sn !! userId).

(** A call goes through: the tool was in the pool of the principal and the
    dispatch lets these arguments by. *)
Definition callable `{ToolCatalog} (name : jsstr) (args : jsval) (tier : option Role) (scope : option ToolAccessScope)
    (runtime : RuntimeToolLookup) : bool :=
  toolAllowedForPrincipal name tier scope false runtime && bool_decide (toolDispatchDenial name args scope runtime = None).

(** ** Who may call what *)

(** A descriptor as the multiplexer vets it ([SERVER_ID_PATTERN],
    [WIRE_TOOL_NAME_PATTERN]): the name is the server, the separator and the name
    on the wire; the server has no underscore, neither has a space. *)
Definition namespaced (d : RuntimeDescriptorFacts) (wire : jsstr) : Prop :=
  rd_name d = rd_serverId d ++ js "__" ++ wire /\ rd_serverId d <> [] /\ wire <> [] /\
  95%N ∉ rd_serverId d /\ 32%N ∉ rd_serverId d /\ 32%N ∉ wire.

Record registry_wf (registry : list RuntimeDescriptorFacts) : Prop := {
  rg_names : NoDup (rd_name <$> registry);
  rg_namespaced : forall d, d ∈ registry -> exists wire, namespaced d wire
}.

(** The records are unique by server and tool, the table's key. *)
Definition records_wf (rows : list RemoteToolClassificationRow) : Prop := NoDup ((fun r => (rc_serverId r, rc_toolName r)) <$> rows).

Definition recorded (rows : list RemoteToolClassificationRow) (server wire : jsstr) (r : RemoteToolClassificationRow) : Prop :=
  r ∈ rows /\ rc_serverId r = server /\ rc_toolName r = wire.

(** What a tool is: the catalog's entry of the name; or, where the catalog has
    none, a tool of an attached server that the operator gave a domain: as its
    record says, which must not deny it, and one that writes where it has none. *)
Definition tool_is `{ToolCatalog} (registry : list RuntimeDescriptorFacts) (rows : list RemoteToolClassificationRow) (name : jsstr) (f : ToolFacts) : Prop :=
  (exists e, e ∈ TOOL_CATALOG /\ ce_name e = name /\ tf_domain f = ce_domain e /\ tf_requiresWrite f = ce_requiresWrite e) \/
  (forall e, e ∈ TOOL_CATALOG -> ce_name e <> name) /\
  exists d wire, d ∈ registry /\ rd_name d = name /\ namespaced d wire /\ rd_domainSource d = by_operator /\ tf_domain f = rd_domain d /\
    ((exists r, recorded rows (rd_serverId d) wire r /\ rc_denied r = false /\ tf_requiresWrite f = rc_requiresWrite r) \/
     (forall r, ~ recorded rows (rd_serverId d) wire r) /\ tf_requiresWrite f = true).

(** A module that claims the domain is held; or no module claims it, and it is
    declared to need none or is an extension's. *)
Definition feature_open (i : EffectiveAccessInputs) (d : jsstr) : Prop :=
  (exists def l, def ∈ MODULES /\ d ∈ md_toolDomains def /\ holds i (md_id def) l) \/
  ((forall def, def ∈ MODULES -> d ∉ md_toolDomains def) /\ (d ∈ FEATURE_UNGATED_TOOL_DOMAINS \/ d ∉ TOOL_DOMAINS)).

(** The word, in any letter case, anywhere in the text. *)
Definition says_lock (s : jsstr) : Prop := exists before after, toLowerCase s = before ++ js "lock" ++ after.

(** The command says so, or a key or a text of the data does. *)
Definition lock_like (args : jsval) : Prop :=
  exists kvs, args = JObj kvs /\
    ((exists s, alookup (js "command") kvs = Some (JStr s) /\ says_lock s) \/
     (exists data k v, alookup (js "data") kvs = Some (JObj data) /\ (k, v) ∈ data /\ (says_lock k \/ exists s, v = JStr s /\ says_lock s)) \/
     (exists data s, alookup (js "data") kvs = Some (JArr data) /\ JStr s ∈ data /\ says_lock s)).

Definition may_call (i : EffectiveAccessInputs) (role : AccessRoleGrantRows) (f : ToolFacts) (name : jsstr) (args : jsval) : Prop :=
  (exists level, (tf_domain f, level) ∈ ar_toolGrants role /\ (tf_requiresWrite f = true -> in_tier i = admin /\ level = use)) /\
  feature_open i (tf_domain f) /\
  (name = js "control_device" -> lock_like args -> ar_mayOperateLocks role = true /\ exists l, holds i smart_home l).

(** ** Facts *)

Section facts.
Context `{ToolCatalog}.

Lemma by_name_elem name e : CATALOG_BY_NAME name = Some e <-> e ∈ TOOL_CATALOG /\ ce_name e = name.
Proof. apply find_rev_key, catalog_names. Qed.

Lemma write_tools_elem name : name ∈ WRITE_TOOLS <-> exists e, CATALOG_BY_NAME name = Some e /\ ce_requiresWrite e = true.
Proof.
  unfold WRITE_TOOLS. rewrite list_elem_of_fmap. split.
  - intros (e & -> & [Hin Hw]%elem_of_bfilter). exists e. by rewrite by_name_elem.
  - intros (e & [Hin <-]%by_name_elem & Hw). exists e. by rewrite elem_of_bfilter.
Qed.

Lemma runtime_names registry lookup : runtimeLayer registry lookup = omap (runtime_tool lookup) registry /\
  forall d t, runtime_tool lookup d = Some t -> lt_name t = rd_name d.
Proof. split; [done|]. intros d t. unfold runtime_tool. repeat case_match; naive_solver. Qed.

Lemma runtime_layer_nodup registry lookup : NoDup (rd_name <$> registry) -> NoDup (lt_name <$> runtimeLayer registry lookup).
Proof.
  unfold runtimeLayer. induction registry as [|d l IH]; cbn; [constructor|]. intros [Hd Hl]%NoDup_cons.
  destruct (runtime_tool lookup d) as [t|] eqn:E; cbn; [|by apply IH]. constructor; [|by apply IH].
  rewrite (proj2 (runtime_names l lookup) _ _ E). intros (t' & Ht' & Hin)%list_elem_of_fmap. destruct Hd. rewrite Ht'.
  apply list_elem_of_omap in Hin as (d' & Hin & E'). rewrite (proj2 (runtime_names l lookup) _ _ E'). by apply list_elem_of_fmap_2.
Qed.

Lemma load_layers registry rows : loadToolLayers registry rows = toolLayers (runtimeLayer registry (classification_lookup rows)).
Proof. by destruct registry. Qed.

Lemma lookup_record rows server wire r : records_wf rows -> 32%N ∉ server -> 32%N ∉ wire ->
  classification_lookup rows server wire = Some r <-> recorded rows server wire r.
Proof.
  intros Hnd Hs Hw. assert (Hk : forall r', classification_key (rc_serverId r') (rc_toolName r') = classification_key server wire <->
    rc_serverId r' = server /\ rc_toolName r' = wire).
  { intros r'. split; [by apply classification_key_inj|by intros [-> ->]]. }
  unfold classification_lookup, recorded. split.
  - intros [Hin Hb%bool_decide_eq_true]%find_some. rewrite <- in_rev in Hin. split; [by apply list_elem_of_In|by apply Hk].
  - intros (Hin & Hrs & Hrw). destruct (List.find _ _) as [y|] eqn:E.
    + apply find_some in E as [Hy Hb%bool_decide_eq_true]. rewrite <- in_rev in Hy. apply list_elem_of_In in Hy.
      apply Hk in Hb as [? ?]. f_equal. eapply (nodup_key_inj (fun r => (rc_serverId r, rc_toolName r))); [done..|]. cbn. congruence.
    + eapply find_none in E; [|rewrite <- in_rev; by apply list_elem_of_In]. apply bool_decide_eq_false in E. by destruct E; apply Hk.
Qed.

Lemma runtime_tool_iff rows d wire t : records_wf rows -> namespaced d wire -> runtime_tool (classification_lookup rows) d = Some t <->
  rd_domainSource d = by_operator /\ lt_name t = rd_name d /\ lt_domain t = rd_domain d /\ lt_source t = Some (rd_serverId d) /\
  ((exists r, recorded rows (rd_serverId d) wire r /\ rc_denied r = false /\ lt_requiresWrite t = rc_requiresWrite r) \/
   (forall r, ~ recorded rows (rd_serverId d) wire r) /\ lt_requiresWrite t = true).
Proof.
  intros Hrows (Hname & Hs & Hw & Hu & Hsp & Hwp). unfold runtime_tool.
  assert (Hparse : parseNamespacedToolName (rd_name d) = Some (rd_serverId d, wire)) by (rewrite Hname; by apply parse_namespaced). rewrite Hparse.
  setoid_rewrite <- (lookup_record rows (rd_serverId d) wire); [|done..].
  destruct (rd_domainSource d); [|split; [done|by intros (? & _)]..].
  clear. destruct t as [n dm w src]. cbn. change IMPORT_DEFAULT_requiresWrite with true.
  destruct (classification_lookup rows (rd_serverId d) wire) as [r|]; [destruct (rc_denied r) eqn:Ed|]; split.
  - done.
  - intros (_ & _ & _ & _ & [(r' & [= <-] & ? & _)|[Hno _]]); [congruence|by destruct (Hno r)].
  - intros [= <- <- <- <-]. repeat split. left. by exists r.
  - intros (_ & -> & -> & -> & [(r' & [= <-] & _ & ->)|[Hno _]]); [done|by destruct (Hno r)].
  - intros [= <- <- <- <-]. repeat split. right. by split.
  - intros (_ & -> & -> & -> & [(r' & [=] & _)|[_ ->]]). done.
Qed.

(** The lookups of the code find what a tool is. *)
Lemma known_iff registry rows name f : registry_wf registry -> records_wf rows ->
  known_tool (runtimeToolLookupFrom registry (classification_lookup rows)) name = Some f <-> tool_is registry rows name f.
Proof.
  intros [Hnd Hns] Hrows. unfold known_tool, tool_is. destruct (CATALOG_BY_NAME name) as [e|] eqn:E.
  - apply by_name_elem in E as [Hin Hen]. split.
    + intros [= <-]. left. by exists e.
    + intros [(e' & Hin' & Hn & Hd & Hw)|[Hno _]]; [|by destruct (Hno e)].
      rewrite (nodup_key_inj ce_name TOOL_CATALOG e e'); [|apply catalog_names|done..|congruence]. destruct f. cbn in *. by subst.
  - assert (Hno : forall e, e ∈ TOOL_CATALOG -> ce_name e <> name).
    { intros e Hin Hn. assert (CATALOG_BY_NAME name = Some e) by (apply by_name_elem; done). congruence. }
    unfold runtimeToolLookupFrom. rewrite fmap_Some. setoid_rewrite find_rev_key; [|by apply runtime_layer_nodup]. split.
    + intros (t & [(d & Hd & Ht)%list_elem_of_omap Hn] & ->). right. split; [done|]. destruct (Hns d Hd) as [wire Hwire].
      apply (runtime_tool_iff rows d wire) in Ht as (Hsrc & Hname & Hdom & _ & Hrec); [|done..]. exists d, wire. cbn. by rewrite <- Hname.
    + intros [(e & Hin & Hn & _)|[_ (d & wire & Hd & Hn & Hwire & Hsrc & Hdom & Hrec)]]; [by destruct (Hno e)|].
      exists (mkTool name (tf_domain f) (tf_requiresWrite f) (Some (rd_serverId d))). split; [|by destruct f]. split; [|done].
      apply list_elem_of_omap. exists d. split; [done|]. by apply (runtime_tool_iff rows d wire).
Qed.

Lemma lock_word_iff s : lock_word s = true <-> says_lock s.
Proof. apply includes_iff. Qed.

Lemma lock_value_iff v : lock_value v = true <-> exists s, v = JStr s /\ says_lock s.
Proof.
  destruct v as [| | | |s| |]; try (split; [done|by intros (? & [=] & _)]). cbn [lock_value]. rewrite lock_word_iff.
  split; [by exists s|by intros (? & [= <-] & ?)].
Qed.

Lemma command_iff v : lock_word (text_or_empty v) = true <-> exists s, v = Some (JStr s) /\ says_lock s.
Proof.
  assert (Hempty : lock_word [] = false) by (vm_compute; reflexivity).
  destruct v as [[| | | |s| |]|]; cbn [text_or_empty]; rewrite ?Hempty; try (split; [done|by intros (? & [=] & _)]).
  rewrite lock_word_iff. split; [by exists s|by intros (? & [= <-] & ?)].
Qed.

Lemma data_iff v : lock_in_data v = true <->
  (exists data k x, v = Some (JObj data) /\ (k, x) ∈ data /\ (says_lock k \/ exists s, x = JStr s /\ says_lock s)) \/
  (exists data s, v = Some (JArr data) /\ JStr s ∈ data /\ says_lock s).
Proof.
  destruct v as [[| | | | |l|kvs]|]; cbn [lock_in_data]; try (split; [done|intros [(? & ? & ? & [=] & _)|(? & ? & [=] & _)]]); rewrite existsb_exists; split.
  - intros (x & Hin%list_elem_of_In & (s & -> & Hs)%lock_value_iff). right. by exists l, s.
  - intros [(? & ? & ? & [=] & _)|(? & s & [= <-] & Hin & Hs)]. exists (JStr s). rewrite lock_value_iff. split; [by apply list_elem_of_In|by exists s].
  - intros ([k x] & Hin%list_elem_of_In & Hor). cbn [fst snd] in Hor. rewrite orb_true_iff, lock_word_iff, lock_value_iff in Hor. left. by exists kvs, k, x.
  - intros [(? & k & x & [= <-] & Hin & Hs)|(? & ? & [=] & _)]. exists (k, x). cbn [fst snd]. rewrite orb_true_iff, lock_word_iff, lock_value_iff.
    split; [by apply list_elem_of_In|done].
Qed.

Lemma lock_like_iff args : isLockLikeInvocation args = true <-> lock_like args.
Proof.
  unfold lock_like. destruct args as [| | | | | |kvs]; cbn [isLockLikeInvocation]; try (split; [done|by intros (? & [=] & _)]).
  rewrite orb_true_iff, command_iff, data_iff. split; [intros H; by exists kvs|by intros (? & [= <-] & ?)].
Qed.

(** A tool that is known is a tool of one of the layers. *)
Lemma known_in_layers registry rows name f : NoDup (rd_name <$> registry) ->
  known_tool (runtimeToolLookupFrom registry (classification_lookup rows)) name = Some f ->
  exists t, t ∈ allTools (loadToolLayers registry rows) /\ lt_domain t = tf_domain f /\ lt_requiresWrite t = tf_requiresWrite f /\
    (tf_domain f ∈ TOOL_DOMAINS \/ t ∈ tl_runtime (loadToolLayers registry rows)).
Proof.
  intros Hnd. unfold known_tool. rewrite load_layers. unfold allTools. cbn. destruct (CATALOG_BY_NAME name) as [e|] eqn:E.
  - intros [= <-]. apply by_name_elem in E as [Hin _]. exists (mkTool (ce_name e) (ce_domain e) (ce_requiresWrite e) None). repeat split.
    + apply elem_of_app. left. unfold CATALOG_LAYER. apply list_elem_of_fmap. by exists e.
    + left. cbn. pose proof catalog_domains as Hd. rewrite Forall_forall in Hd. by apply Hd.
  - unfold runtimeToolLookupFrom. intros (t & [Hin _]%find_rev_key & ->)%fmap_Some; [|by apply runtime_layer_nodup].
    exists t. split; [apply elem_of_app; by right|]. by split_and!; [| |right].
Qed.
End facts.

Section reach.
Context `{ToolCatalog} (i : EffectiveAccessInputs) (role : AccessRoleGrantRows).
Context (Hwf : inputs_wf i) (Hrole : in_accessRole i = Some role).

Lemma held_elem m : m ∈ (levelByModule i).*1 <-> is_Some (held_level i m).
Proof using Hwf. by rewrite <- held_get, jm_get_Some. Qed.

Lemma ungated_declared d : d ∈ FEATURE_UNGATED_TOOL_DOMAINS -> d ∈ TOOL_DOMAINS.
Proof. revert d. apply Forall_forall. apply (bool_decide_unpack _). vm_compute. exact I. Qed.

Lemma modules_declared : Forall (fun def => Forall (fun d => d ∈ TOOL_DOMAINS) (md_toolDomains def)) MODULES.
Proof. apply (bool_decide_unpack _). vm_compute. exact I. Qed.

Lemma owned_declared d m : m ∈ OWNERS_BY_DOMAIN d -> d ∈ TOOL_DOMAINS.
Proof.
  unfold OWNERS_BY_DOMAIN. rewrite list_elem_of_fmap. intros (def & _ & Hdef). apply elem_of_bfilter in Hdef as [Hin Hd].
  apply bool_decide_eq_true in Hd. pose proof modules_declared as HM. revert HM Hin. generalize MODULES TOOL_DOMAINS.
  intros M D HM Hin. rewrite Forall_forall in HM. specialize (HM def Hin). rewrite Forall_forall in HM. by apply HM.
Qed.

Lemma holds_some m : is_Some (held_level i m) <-> exists l, holds i m l.
Proof using Hwf. unfold is_Some. setoid_rewrite held_iff; done. Qed.

Lemma owners_iff d m : m ∈ OWNERS_BY_DOMAIN d <-> exists def, def ∈ MODULES /\ d ∈ md_toolDomains def /\ md_id def = m.
Proof.
  unfold OWNERS_BY_DOMAIN. rewrite list_elem_of_fmap. setoid_rewrite elem_of_bfilter. setoid_rewrite bool_decide_eq_true.
  generalize MODULES. intros M. naive_solver.
Qed.

Lemma feature_open_iff d : feature_open i d <->
  (exists m, m ∈ OWNERS_BY_DOMAIN d /\ is_Some (held_level i m)) \/
  (OWNERS_BY_DOMAIN d = [] /\ (d ∈ FEATURE_UNGATED_TOOL_DOMAINS \/ d ∉ TOOL_DOMAINS)).
Proof using Hwf.
  unfold feature_open. assert (Hnone : OWNERS_BY_DOMAIN d = [] <-> forall def, def ∈ MODULES -> d ∉ md_toolDomains def).
  { split.
    - intros E def Hin Hd. assert (Hm : md_id def ∈ OWNERS_BY_DOMAIN d) by (apply owners_iff; by exists def). rewrite E in Hm. by apply elem_of_nil in Hm.
    - intros Hno. destruct (OWNERS_BY_DOMAIN d) as [|m l] eqn:E; [done|]. assert (Hm : m ∈ OWNERS_BY_DOMAIN d) by (rewrite E; by left).
      apply owners_iff in Hm as (def & Hin & Hd & _). by destruct (Hno def Hin). }
  rewrite Hnone. setoid_rewrite holds_some. setoid_rewrite owners_iff. generalize MODULES. intros M. naive_solver.
Qed.

Lemma feature_domain d : d ∈ domainsForFeatures (levelByModule i).*1 (runtimeOnlyDomains (in_toolLayers i)) <->
  (d ∈ TOOL_DOMAINS \/ d ∈ runtimeOnlyDomains (in_toolLayers i)) /\ feature_open i d.
Proof using Hwf.
  rewrite features_domains, domain_passes_spec, feature_open_iff. setoid_rewrite held_elem.
  pose proof (ungated_declared d) as Hun. pose proof (owned_declared d) as Hod.
  assert (Hown : forall m, m ∈ OWNERS_BY_DOMAIN d -> OWNERS_BY_DOMAIN d <> []) by (intros m Hm E; rewrite E in Hm; by apply elem_of_nil in Hm).
  rewrite runtime_only_spec. revert Hun Hod Hown. generalize (OWNERS_BY_DOMAIN d) FEATURE_UNGATED_TOOL_DOMAINS TOOL_DOMAINS.
  intros os U D Hun Hod Hown. destruct (decide (d ∈ D)); naive_solver.
Qed.

Lemma tool_domain d : d ∈ effective_tool_domains i (levelByModule i).*1 <->
  d ∈ toolDomainUniverse (in_toolLayers i) /\ d ∈ tierReachableDomains (in_tier i) (in_toolLayers i) /\ feature_open i d /\
  d ∈ (ar_toolGrants role).*1.
Proof using Hwf Hrole.
  unfold effective_tool_domains. rewrite elem_of_bfilter, Hrole, !andb_true_iff, !bool_decide_eq_true, feature_domain.
  unfold toolDomainUniverse. rewrite elem_of_app. naive_solver.
Qed.

Lemma locks_spec : effective_locks i (levelByModule i).*1 = true <-> ar_mayOperateLocks role = true /\ exists l, holds i smart_home l.
Proof using Hwf Hrole. unfold effective_locks. by rewrite Hrole, andb_true_iff, bool_decide_eq_true, held_elem, holds_some. Qed.
End reach.

(** A known tool's domain is in the universe, and reachable by a tier that may
    call it. *)
Lemma known_reachable `{ToolCatalog} registry rows name f tier : NoDup (rd_name <$> registry) ->
  known_tool (runtimeToolLookupFrom registry (classification_lookup rows)) name = Some f ->
  tf_domain f ∈ toolDomainUniverse (loadToolLayers registry rows) /\
  ((tf_requiresWrite f = true -> tier = admin) -> tf_domain f ∈ tierReachableDomains tier (loadToolLayers registry rows)).
Proof.
  intros Hnd (t & Hin & Hd & Hw & Hu)%known_in_layers; [|done]. split.
  - unfold toolDomainUniverse. apply elem_of_app. destruct (decide (tf_domain f ∈ TOOL_DOMAINS)) as [?|Hn]; [by left|right].
    destruct Hu as [?|Hu]; [done|]. apply runtime_only_spec. split; [done|]. by exists t.
  - intros Ht. unfold tierReachableDomains, populatedDomains, readableDomains. rewrite <- Hd.
    assert (Hp : lt_domain t ∈ lt_domain <$> allTools (loadToolLayers registry rows)) by by apply list_elem_of_fmap_2.
    destruct (tf_requiresWrite f) eqn:E; [by rewrite Ht|].
    assert (Hr : lt_domain t ∈ lt_domain <$> List.filter (fun t => negb (lt_requiresWrite t)) (allTools (loadToolLayers registry rows)));
      [|by destruct tier]. apply list_elem_of_fmap_2, elem_of_bfilter. by rewrite Hw.
Qed.

Lemma in_scope_spec `{ToolCatalog} name s runtime : toolAllowedInScope name s runtime = true <->
  exists f, known_tool runtime name = Some f /\ tf_domain f ∈ ts_domains s /\ (tf_requiresWrite f = true -> tf_domain f ∈ ts_writeDomains s).
Proof.
  unfold toolAllowedInScope. destruct (known_tool runtime name) as [f|]; [|split; [done|by intros (? & ? & _)]].
  trans (tf_domain f ∈ ts_domains s /\ (tf_requiresWrite f = true -> tf_domain f ∈ ts_writeDomains s));
    [|split; [intros []; by exists f|by intros (f' & [= <-] & H')]].
  destruct (tf_requiresWrite f); repeat case_bool_decide; cbn; split; tauto || (intros [? Hw]; specialize (Hw eq_refl); done) || done.
Qed.

Lemma lock_spec name args s : lockOperationDenied name args s = false <->
  (name = js "control_device" -> isLockLikeInvocation args = true -> ts_locks s = true).
Proof.
  unfold lockOperationDenied. destruct (ts_locks s); [tauto|]. case_bool_decide; cbn; [|tauto].
  destruct (isLockLikeInvocation args); split; intros; try done. by discriminate H0.
Qed.

Lemma callable_scope `{ToolCatalog} name args tier s runtime : callable name args tier (Some s) runtime = true <->
  toolAllowedForTier name tier false = true /\ exists f, known_tool runtime name = Some f /\ tf_domain f ∈ ts_domains s /\
    (tf_requiresWrite f = true -> tf_domain f ∈ ts_writeDomains s) /\
    (name = js "control_device" -> isLockLikeInvocation args = true -> ts_locks s = true).
Proof.
  unfold callable, toolAllowedForPrincipal, toolDispatchDenial. setoid_rewrite <- lock_spec.
  destruct (toolAllowedForTier name tier false); cbn; [|split; [done|by intros [? _]]].
  destruct (toolAllowedInScope name s runtime) eqn:E; cbn.
  - apply in_scope_spec in E as (f & Hk & Hd & Hw). rewrite Hk, (bool_decide_eq_false_2 (Some f = None)) by done.
    destruct (lockOperationDenied name args s); cbn.
    + split; [done|]. by intros (_ & ? & _ & _ & _ & ?).
    + split; [|done]. intros _. split; [done|]. by exists f.
  - split; [done|]. intros (_ & f & Hk & Hd & Hw & _). rewrite (proj2 (in_scope_spec name s runtime)) in E; [done|]. by exists f.
Qed.

(** The coarse tier gate asks no more of a known tool than the scope does. *)
Lemma tier_gate `{ToolCatalog} name tier runtime f : known_tool runtime name = Some f -> tier <> owner -> (tf_requiresWrite f = true -> tier = admin) ->
  toolAllowedForTier name (Some tier) false = true.
Proof.
  intros Hk Ho Ht. unfold toolAllowedForTier. destruct (isPrivilegedRole (Some tier)) eqn:Ep; [done|]. case_bool_decide as Hn; [|done].
  apply write_tools_elem in Hn as (e & He & Hw). unfold known_tool in Hk. rewrite He in Hk. injection Hk as <-.
  rewrite Ht in Ep by done. done.
Qed.

Lemma write_domain d domains grants : d ∈ write_domains domains grants <-> (d, use) ∈ grants /\ d ∈ domains.
Proof.
  unfold write_domains. rewrite list_elem_of_fmap. split.
  - intros ([d' l] & -> & [Hin Hb]%elem_of_bfilter). cbn in Hb. apply andb_true_iff in Hb as [->%bool_decide_eq_true Hd%bool_decide_eq_true]. done.
  - intros [Hin Hd]. exists (d, use). split; [done|]. apply elem_of_bfilter. cbn. by rewrite !bool_decide_eq_true_2.
Qed.

(** Where the row of a person is read, the row decides. *)
Lemma scope_by_row su trust row resolved r : su_id su <> None -> su_id su <> Some [] -> su_role su = Some r ->
  r <> owner -> r <> service -> trust = database \/ su_accessRoleId su <> ClaimNull ->
  resolveToolAccessScope (Some su) trust (Some (Some row)) resolved = composeScopeForRow row resolved.
Proof.
  intros Hid Hid' Hr Ho Hs Ht. unfold resolveToolAccessScope. change (Some su ≫= su_role) with (su_role su). rewrite Hr.
  destruct r; try done; destruct (su_id su) as [[|c l]|]; try done; destruct trust; try done; destruct (su_accessRoleId su); try done; by destruct Ht.
Qed.

(** The scope of somebody with an access role, on one state of the database. *)
Lemma scope_of_holder `{ToolCatalog} cfg registry sn u role i rid : role_of sn u = Some role -> us_role u <> owner ->
  us_accessRoleId u = Some rid -> i = inputs_of cfg registry sn u ->
  composeScopeForRow (id_row sn u) (Some (Some (computeEffectiveAccess i))) =
  Some (mkScope (effective_tool_domains i (levelByModule i).*1)
          (if bool_decide (us_role u = admin) then write_domains (effective_tool_domains i (levelByModule i).*1) (ar_toolGrants (rl_grants role)) else [])
          (effective_locks i (levelByModule i).*1)).
Proof.
  intros Hr Ht Hid ->. rewrite access_eq by exact Ht. unfold composeScopeForRow, id_row. rewrite Hid, Hr.
  cbn [ir_accessRoleId ir_toolGrants ea_toolDomains ea_tier ea_locks]. change (in_tier (inputs_of cfg registry sn u)) with (us_role u).
  destruct (us_role u); try done; reflexivity.
Qed.

(** ** The theorem *)

(** C10: The reach of an access role, from the database to the dispatch. Take a
    person below the owner who holds a role, on one state of the database. A
    tool is in their pool and passes the dispatch with given arguments just when
    it is a tool of the catalog, or one of an attached server that the operator
    gave a domain and did not deny, counted as one that writes where it has no
    record; and the role grants its domain, and, if it writes, grants the use to an
    administrator; a module claiming the domain is held, or none claims it and it
    is declared open or belongs to an extension; and an operation on a lock comes
    with the role's lock permission and the smart home. What a tool is, what is
    held and what speaks of a lock are said without the code's lookups. *)
Theorem narrowed_reach_exact `{ToolCatalog} cfg registry sn u role name args su trust :
  registry_wf registry -> records_wf (sn_classifications sn) ->
  sn_users sn !! us_id u = Some u -> us_id u <> [] -> role_of sn u = Some role ->
  us_role u <> owner -> us_role u <> service -> inputs_wf (inputs_of cfg registry sn u) ->
  su_id su = Some (us_id u) -> su_role su = Some (us_role u) -> trust = database \/ su_accessRoleId su <> ClaimNull ->
  let runtime := runtimeToolLookupFrom registry (classification_lookup (sn_classifications sn)) in
  let scope := resolveToolAccessScope (Some su) trust (read_id_row sn (us_id u))
                 (Some (resolveEffectiveAccess cfg registry sn (us_id u))) in
  callable name args (Some (us_role u)) scope runtime = true <->
  exists f, tool_is registry (sn_classifications sn) name f /\ may_call (inputs_of cfg registry sn u) (rl_grants role) f name args.
Proof.
  intros Hreg Hrec Hu Hid Hr Ho Hs Hwf Hsi Hsr Htr runtime scope. setoid_rewrite <- known_iff; [|done..].
  assert (is_Some (us_accessRoleId u)) as [rid Hrid] by (unfold role_of in Hr; destruct (us_accessRoleId u); [by eexists|discriminate]).
  assert (Hrole : in_accessRole (inputs_of cfg registry sn u) = Some (rl_grants role)) by (unfold inputs_of; by rewrite Hr).
  assert (Hscope : scope = Some (mkScope (effective_tool_domains (inputs_of cfg registry sn u) (levelByModule (inputs_of cfg registry sn u)).*1)
      (if bool_decide (us_role u = admin) then write_domains (effective_tool_domains (inputs_of cfg registry sn u)
         (levelByModule (inputs_of cfg registry sn u)).*1) (ar_toolGrants (rl_grants role)) else [])
      (effective_locks (inputs_of cfg registry sn u) (levelByModule (inputs_of cfg registry sn u)).*1))).
  { subst scope. unfold read_id_row, resolveEffectiveAccess. rewrite Hu.
    rewrite (scope_by_row su trust (id_row sn u) _ (us_role u)); [by eapply scope_of_holder|by rewrite Hsi|rewrite Hsi; congruence|done..]. }
  rewrite Hscope, callable_scope. cbn [ts_domains ts_writeDomains ts_locks]. setoid_rewrite lock_like_iff.
  assert (Ht : in_tier (inputs_of cfg registry sn u) = us_role u) by done.
  assert (Hl : in_toolLayers (inputs_of cfg registry sn u) = loadToolLayers registry (sn_classifications sn)) by done.
  revert Ht Hl Hwf Hrole. generalize (inputs_of cfg registry sn u) as i. intros i Ht Hl Hwf Hrole.
  setoid_rewrite (locks_spec i _ Hwf Hrole). setoid_rewrite (tool_domain i _ Hwf Hrole). split.
  - intros (_ & f & Hk & (Hun & Hre & Hf & Hg) & Hw & Hlk). exists f. split; [done|]. split; [|by split].
    case_bool_decide as Ha.
    + destruct (tf_requiresWrite f) eqn:E.
      * destruct (proj1 (write_domain _ _ _) (Hw eq_refl)) as [Huse _]. exists use. split; [done|]. by rewrite Ht.
      * apply list_elem_of_fmap in Hg as ([d l] & Hd & Hin). cbn in Hd. subst d. by exists l.
    + destruct (tf_requiresWrite f) eqn:E; [by specialize (Hw eq_refl); apply elem_of_nil in Hw|].
      apply list_elem_of_fmap in Hg as ([d l] & Hd & Hin). cbn in Hd. subst d. by exists l.
  - intros (f & Hk & (lvl & Hg & Hw) & Hf & Hlk). rewrite Ht in Hw.
    destruct (known_reachable registry (sn_classifications sn) name f (us_role u) (rg_names _ Hreg) Hk) as [Hun Hre].
    rewrite <- Hl in Hun, Hre. rewrite <- Ht in Hre at 2.
    assert (Hd : tf_domain f ∈ effective_tool_domains i (levelByModule i).*1).
    { apply (tool_domain i _ Hwf Hrole). split; [done|]. split; [apply Hre; by intros [? _]%Hw|]. split; [done|]. by apply (list_elem_of_fmap_2 fst) in Hg. }
    split; [eapply tier_gate; [exact Hk|done|by intros [? _]%Hw]|]. exists f. split; [done|]. split; [by apply (tool_domain i _ Hwf Hrole)|]. split; [|done].
    intros E. destruct (Hw E) as [Ha ->]. rewrite bool_decide_eq_true_2 by done. by apply write_domain.
Qed.

Module ToolRuns.

(** Two tools of the catalog, and an attached server with four more: the
    operator mapped three of them to the smart home, recorded one of these as a
    read and denied another. *)
Definition sample : list CatalogEntry :=
  [mkEntry (js "list_devices") (js "smart-home") false false; mkEntry (js "control_device") (js "smart-home") true true].

#[local] Instance sample_catalog : ToolCatalog.
Proof. refine {| TOOL_CATALOG := sample |}; apply (bool_decide_unpack _); vm_compute; exact I. Defined.

Definition hue (name : string) (s : DomainSource) : RuntimeDescriptorFacts := mkDescriptor (js "hue__" ++ js name) (js "hue") (js "smart-home") s.
Definition registry : list RuntimeDescriptorFacts :=
  [hue "dim" by_operator; hue "erase" by_server; hue "look" by_operator; hue "reset" by_operator].
Definition records : list RemoteToolClassificationRow :=
  [mkClassification (js "hue") (js "look") false false; mkClassification (js "hue") (js "reset") false true].

Definition cfg : AvailabilityConfig :=
  mkConfig (js "x") (js "x") (js "x") (FlagText (js "1")) (js "x") (js "x") (js "x") (js "x") (js "x") (js "x") (js "x").

Definition keeper (sp : Role) : AccessRole :=
  mkRole (js "Keeper") (js "keeper") sp false (mkGrants true false None None None [(smart_home, act)] [(js "smart-home", use)] []).
Definition person (r : Role) : User := mkUser (js "u") (js "ann") None r (Some (js "r")) false RoleGuard.ACTIVE NONE None None None None None.

Definition state (r : Role) : AccessSnapshot :=
  mkSnapshot (<[js "u" := person r]> ∅) (<[js "r" := keeper r]> ∅) ∅ [(smart_home, true)] None [] ∅ ∅ records.

Definition session (r : Role) : SessionUser := mkSessionUser (Some (js "u")) (Some r) (ClaimRole (js "r")).
Definition lock_the_door : jsval := JObj [(js "command", JStr (js "LOCK"))].

Definition runtime : RuntimeToolLookup := runtimeToolLookupFrom registry (classification_lookup records).
Definition scope (r : Role) : option ToolAccessScope :=
  resolveToolAccessScope (Some (session r)) session_claim (read_id_row (state r) (js "u")) (Some (resolveEffectiveAccess cfg registry (state r) (js "u"))).

(** Dimming has no record, so it counts as a write. *)
Lemma what_ann_may_call :
  ((fun r => (fun n => callable n lock_the_door (Some r) (scope r) runtime) <$>
    [js "list_devices"; js "control_device"; js "hue__dim"; js "hue__erase"; js "hue__look"; js "hue__reset"; js "made_up"]) <$> [admin; family]) =
  [[true; true; true; false; true; false; false]; [true; false; false; false; true; false; false]].
Proof. vm_compute. reflexivity. Qed.

Lemma ann_wf : inputs_wf (inputs_of cfg registry (state admin) (person admin)).
Proof. split; [intros r Hr; vm_compute in Hr; injection Hr as <-|]; apply (bool_decide_unpack _); vm_compute; exact I. Qed.

Lemma registry_ok : registry_wf registry.
Proof.
  split; [apply (bool_decide_unpack _); vm_compute; exact I|]. apply Forall_forall. unfold registry.
  repeat (apply Forall_cons; split;
    [eexists; split; [reflexivity|]; split; [discriminate|]; split; [discriminate|]; apply (bool_decide_unpack _); vm_compute; exact I|]).
  apply Forall_nil_2.
Qed.

Lemma records_ok : records_wf records.
Proof. apply (bool_decide_unpack _). vm_compute. exact I. Qed.

Lemma narrowed_reach_exact_witness : registry_wf registry /\ records_wf records /\ inputs_wf (inputs_of cfg registry (state admin) (person admin)) /\
  (exists f, tool_is registry records (js "control_device") f /\
    may_call (inputs_of cfg registry (state admin) (person admin)) (rl_grants (keeper admin)) f (js "control_device") lock_the_door) /\
  ~ exists f, tool_is registry records (js "hue__reset") f /\
    may_call (inputs_of cfg registry (state admin) (person admin)) (rl_grants (keeper admin)) f (js "hue__reset") lock_the_door.
Proof.
  assert (Hiff : forall name, callable name lock_the_door (Some admin) (scope admin) runtime = true <->
    exists f, tool_is registry records name f /\ may_call (inputs_of cfg registry (state admin) (person admin)) (rl_grants (keeper admin)) f name lock_the_door).
  { intros name. exact (narrowed_reach_exact cfg registry (state admin) (person admin) (keeper admin) name lock_the_door (session admin) session_claim
      registry_ok records_ok ltac:(reflexivity) ltac:(discriminate) ltac:(reflexivity) ltac:(discriminate) ltac:(discriminate) ann_wf ltac:(reflexivity)
      ltac:(reflexivity) ltac:(right; discriminate)). }
  split; [exact registry_ok|]. split; [exact records_ok|]. split; [exact ann_wf|]. split.
  - apply Hiff. vm_compute. reflexivity.
  - intros Hc. apply Hiff in Hc. vm_compute in Hc. discriminate Hc.
Defined.
End ToolRuns.
