(* ===== verification/AccessRoles.v ===== *)
(** * AccessRoles: custom roles and who holds them
      (apps/orchestrator/src/routes/access.ts, services/
       role-grant-writer.service.ts)

    Roles are created, duplicated, edited, deleted and assigned by requests that
    read before their SERIALIZABLE transaction and decide again inside it.  What
    a request loaded before is an argument of its transaction, so that another
    request may commit in between.  Bodies arrive parsed; the post-commit
    effects (sessions, groups, audit rows) are those of [RoleGuard]. *)

From stdpp Require Import finite.
From S2P Require Import Prelude JsNum Json DateTime DateText AuditSigning AuditVerify AuditRecorder RoleGuard Webhooks PeopleDirectory PeopleMachine AccessCatalog EffectiveAccess.

Local Open Scope Z_scope.

(** ** Grants as they are stored *)

Record NormalizedGrants := mkNormal {
  ng_featureGrants : list (ModuleId * FeatureLevel);
  ng_toolGrants : list (jsstr * ToolLevel);
  ng_connectorGrants : list (jsstr * ConnectorLevel);
  ng_mayOperateLocks : bool
}.

Definition clamp_feature (sp : Role) (g : ModuleId * FeatureLevel) : option (ModuleId * FeatureLevel) :=
  level ← clampLevel sp g.1 g.2; Some (g.1, level).
Definition clamp_connector (sp : Role) (g : jsstr * ConnectorLevel) : option (jsstr * ConnectorLevel) :=
  level ← clampConnectorLevel sp g.2; Some (g.1, level).

Definition normalizeGrants (sp : Role) (features : list (ModuleId * FeatureLevel)) (tools : list (jsstr * ToolLevel))
    (connectors : list (jsstr * ConnectorLevel)) (locks : bool) : NormalizedGrants :=
  let featureGrants := omap (clamp_feature sp) features in
  mkNormal featureGrants tools (omap (clamp_connector sp) connectors)
    (locks && existsb (fun g => bool_decide (g.1 = smart_home)) featureGrants).

(** What the roles page lists of a stored role. *)
Definition serialized_features (r : AccessRole) : list (ModuleId * FeatureLevel) :=
  omap (fun g => if negb (isGateableModuleId g.1) then Some g else clamp_feature (rl_startingPoint r) g)
    (ar_featureGrants (rl_grants r)).

(** ** The slug *)

Definition slug_char (c : N) : bool := ((97 <=? c) && (c <=? 122) || (48 <=? c) && (c <=? 57))%N.

(** Every run of other characters becomes one dash. *)
Fixpoint dashed (in_run : bool) (s : jsstr) : jsstr :=
  match s with
  | [] => []
  | c :: r => if slug_char c then c :: dashed false r else if in_run then dashed true r else 45%N :: dashed true r
  end.

Fixpoint trim_dashes (s : jsstr) : jsstr :=
  match s with c :: r => if N.eqb c 45 then trim_dashes r else s | [] => [] end.

Definition slugifyRoleName (name : jsstr) : jsstr :=
  match reverse (trim_dashes (reverse (trim_dashes (dashed false (trim (toLowerCase name)))))) with
  | [] => js "role"
  | slug => slug
  end.

Definition numbered (base : jsstr) (n : Z) : jsstr := base ++ js "-" ++ int_str n.

Fixpoint free_slug (fuel : nat) (base : jsstr) (taken : list jsstr) (n : Z) : option jsstr :=
  match fuel with
  | O => None
  | S k => if bool_decide (numbered base n ∈ taken) then free_slug k base taken (n + 1) else Some (numbered base n)
  end.

(** One of the first candidates is free: there are more of them than slugs. *)
Definition deriveUniqueSlug (slugs : list jsstr) (name : jsstr) : jsstr :=
  let base := slugifyRoleName name in
  let taken := List.filter (startsWith base) slugs in
  if negb (bool_decide (base ∈ taken)) then base else default base (free_slug (S (length taken)) base taken 2).

(** ** The tables *)

Record AccessWorld := mkAccess { aw_users : Directory; aw_roles : gmap jsstr AccessRole }.

Abbreviation RW A := (handler AccessWorld GuardError A).

Definition on_users {A} (m : DB A) : RW A := fun w => let '(d, r) := m (aw_users w) in (mkAccess d (aw_roles w), r).

Definition all_slugs (w : AccessWorld) : list jsstr := rl_slug <$> (map_to_list (aw_roles w)).*2.

(** [accessRole.create]: the id and the slug are unique. *)
Definition role_create (id : jsstr) (r : AccessRole) : RW unit :=
  fun w => if bool_decide (is_Some (aw_roles w !! id)) || bool_decide (rl_slug r ∈ all_slugs w)
           then (w, Throw (PrismaError (js "P2002")))
           else (mkAccess (aw_users w) (<[id := r]> (aw_roles w)), Ok tt).

Definition role_update (id : jsstr) (f : AccessRole -> AccessRole) : RW unit :=
  fun w => match aw_roles w !! id with
           | Some r => (mkAccess (aw_users w) (<[id := f r]> (aw_roles w)), Ok tt)
           | None => (w, Throw (PrismaError (js "P2025")))
           end.

Definition set_grants (f : AccessRoleGrantRows -> AccessRoleGrantRows) (r : AccessRole) : AccessRole :=
  mkRole (rl_name r) (rl_slug r) (rl_startingPoint r) (rl_archived r) (f (rl_grants r)).

Definition set_features (l : list (ModuleId * FeatureLevel)) (g : AccessRoleGrantRows) : AccessRoleGrantRows :=
  mkGrants (ar_mayOperateLocks g) (ar_cloudModelsAllowed g) (ar_storageQuotaBytes g) (ar_maxUploadSizeMb g) (ar_llmDailyMessageCap g)
    l (ar_toolGrants g) (ar_connectorGrants g).
Definition set_tools (l : list (jsstr * ToolLevel)) (g : AccessRoleGrantRows) : AccessRoleGrantRows :=
  mkGrants (ar_mayOperateLocks g) (ar_cloudModelsAllowed g) (ar_storageQuotaBytes g) (ar_maxUploadSizeMb g) (ar_llmDailyMessageCap g)
    (ar_featureGrants g) l (ar_connectorGrants g).
Definition set_connectors (l : list (jsstr * ConnectorLevel)) (g : AccessRoleGrantRows) : AccessRoleGrantRows :=
  mkGrants (ar_mayOperateLocks g) (ar_cloudModelsAllowed g) (ar_storageQuotaBytes g) (ar_maxUploadSizeMb g) (ar_llmDailyMessageCap g)
    (ar_featureGrants g) (ar_toolGrants g) l.

(** ** The writer of tool grants *)

Definition refused_domains (layers : ToolLayers) (held : list jsstr) (grants : list (jsstr * ToolLevel)) : list jsstr :=
  List.filter (fun d => if bool_decide (d = js "erp") then true
                        else if bool_decide (d ∈ held) then false else negb (isGrantableDomain d layers)) grants.*1.

Definition assertGrantableToolDomains (layers : ToolLayers) (held : list jsstr) (grants : list (jsstr * ToolLevel)) : RW unit :=
  if bool_decide (refused_domains layers held grants = []) then hret tt else hthrow (RouteRefused 400 (js "TOOL_DOMAIN_NOT_GRANTABLE")).

Definition createToolGrantsTx (layers : ToolLayers) (held : list jsstr) (roleId : jsstr) (grants : list (jsstr * ToolLevel)) : RW unit :=
  run! assertGrantableToolDomains layers held grants; role_update roleId (set_grants (set_tools grants)).

Definition replaceToolGrantsTx (layers : ToolLayers) (roleId : jsstr) (grants : list (jsstr * ToolLevel)) : RW unit :=
  do! w <- hget;
  let current := match aw_roles w !! roleId with Some r => (ar_toolGrants (rl_grants r)).*1 | None => [] end in
  run! assertGrantableToolDomains layers current grants;
  role_update roleId (set_grants (set_tools grants)).

Inductive ToolGrantDeadReason := empty_domain | not_provided.

(** [None]: the grant is live. *)
Definition toolGrantState (layers : ToolLayers) (g : jsstr * ToolLevel) : option ToolGrantDeadReason :=
  if bool_decide (g.1 ∈ populatedDomains layers) then None
  else Some (if bool_decide (g.1 ∈ TOOL_DOMAINS) then empty_domain else not_provided).

(** ** POST /access/roles *)

Record RolePayload := mkPayload {
  rb_name : jsstr; rb_startingPoint : Role; rb_storageQuotaBytes : option Z; rb_maxUploadSizeMb : option Z;
  rb_llmDailyMessageCap : option Z; rb_cloudModelsAllowed : bool; rb_mayOperateLocks : bool;
  rb_featureGrants : list (ModuleId * FeatureLevel); rb_toolGrants : list (jsstr * ToolLevel);
  rb_connectorGrants : list (jsstr * ConnectorLevel)
}.

Definition createRoleTx (layers : ToolLayers) (alreadyHeld : list jsstr) (newId : jsstr) (b : RolePayload) : RW unit :=
  let grants := normalizeGrants (rb_startingPoint b) (rb_featureGrants b) (rb_toolGrants b) (rb_connectorGrants b) (rb_mayOperateLocks b) in
  do! w <- hget;
  run! role_create newId (mkRole (rb_name b) (deriveUniqueSlug (all_slugs w) (rb_name b)) (rb_startingPoint b) false
         (mkGrants (ng_mayOperateLocks grants) (rb_cloudModelsAllowed b) (rb_storageQuotaBytes b) (rb_maxUploadSizeMb b)
            (rb_llmDailyMessageCap b) [] [] []));
  run! role_update newId (set_grants (set_features (ng_featureGrants grants)));
  run! createToolGrantsTx layers alreadyHeld newId (ng_toolGrants grants);
  role_update newId (set_grants (set_connectors (ng_connectorGrants grants))).

(** A transaction that the database may abort. *)
Definition serializable_tx {A} (conflict : bool) (m : RW A) : RW A :=
  if conflict then hthrow (PrismaError (js "P2034")) else htransaction m.

(** A template expands to a payload ([roleTemplateCreatePayload]) and takes this
    path. *)
Definition postRole (actor : GuardActor) (layers : ToolLayers) (newId : jsstr) (b : RolePayload) (conflict : bool) : RW unit :=
  match assertAssignableForCreate (ga_role actor) (rb_startingPoint b) (js "You cannot create a role above your own rank") with
  | Throw e => hthrow (Refused e)
  | Ok _ => serializable_tx conflict (createRoleTx layers [] newId b)
  end.

(** The payload of a duplicate of [source]. *)
Definition copy_of (source : AccessRole) : RolePayload :=
  let g := rl_grants source in
  mkPayload (rl_name source ++ js " (copy)") (rl_startingPoint source) (ar_storageQuotaBytes g) (ar_maxUploadSizeMb g)
    (ar_llmDailyMessageCap g) (ar_cloudModelsAllowed g) (ar_mayOperateLocks g) (ar_featureGrants g) (ar_toolGrants g) (ar_connectorGrants g).

Definition duplicateRole (layers : ToolLayers) (newId : jsstr) (source : option AccessRole) (conflict : bool) : RW unit :=
  match source with
  | None => hthrow (RouteRefused 404 [])
  | Some s => serializable_tx conflict (createRoleTx layers (ar_toolGrants (rl_grants s)).*1 newId (copy_of s))
  end.

(** ** PATCH /access/roles/:id *)

Record RolePatch := mkPatch {
  rp_name : option jsstr; rp_startingPoint : option Role; rp_archived : option bool; rp_storageQuotaBytes : option (option Z);
  rp_maxUploadSizeMb : option (option Z); rp_llmDailyMessageCap : option (option Z); rp_cloudModelsAllowed : option bool;
  rp_mayOperateLocks : option bool; rp_featureGrants : option (list (ModuleId * FeatureLevel));
  rp_toolGrants : option (list (jsstr * ToolLevel)); rp_connectorGrants : option (list (jsstr * ConnectorLevel))
}.

Definition patched_grants (existing : AccessRole) (b : RolePatch) : NormalizedGrants :=
  let g := rl_grants existing in
  normalizeGrants (default (rl_startingPoint existing) (rp_startingPoint b)) (default (ar_featureGrants g) (rp_featureGrants b))
    (default (ar_toolGrants g) (rp_toolGrants b)) (default (ar_connectorGrants g) (rp_connectorGrants b))
    (default (ar_mayOperateLocks g) (rp_mayOperateLocks b)).

Definition startingPointChanged (existing : AccessRole) (b : RolePatch) : bool :=
  negb (bool_decide (default (rl_startingPoint existing) (rp_startingPoint b) = rl_startingPoint existing)).

(** The columns of the row: those the body names, and the locks, always. *)
Definition patch_row (b : RolePatch) (locks : bool) (r : AccessRole) : AccessRole :=
  let g := rl_grants r in
  mkRole (default (rl_name r) (rp_name b)) (rl_slug r) (default (rl_startingPoint r) (rp_startingPoint b))
    (default (rl_archived r) (rp_archived b))
    (mkGrants locks (default (ar_cloudModelsAllowed g) (rp_cloudModelsAllowed b))
       (default (ar_storageQuotaBytes g) (rp_storageQuotaBytes b)) (default (ar_maxUploadSizeMb g) (rp_maxUploadSizeMb b))
       (default (ar_llmDailyMessageCap g) (rp_llmDailyMessageCap b)) (ar_featureGrants g) (ar_toolGrants g) (ar_connectorGrants g)).

Definition members_of (roleId : jsstr) (d : Directory) : list User :=
  List.filter (fun u => bool_decide (us_accessRoleId u = Some roleId)) (map_to_list d).*2.

Definition retier (actor : GuardActor) (requested : Role) (member : User) : DB unit :=
  run! lift_verdict (assertRoleChangeAllowed actor (target_of member) requested None);
  run! assertRoleChangeInvariantsTx member requested;
  run! user_update (us_id member) any_row (set_role requested);
  hret tt.

Definition patchRoleTx (layers : ToolLayers) (actor : GuardActor) (id : jsstr) (existing : AccessRole) (b : RolePatch) : RW unit :=
  let grants := patched_grants existing b in
  let changed := startingPointChanged existing b in
  run! role_update id (patch_row b (ng_mayOperateLocks grants));
  run! (if bool_decide (is_Some (rp_featureGrants b)) || changed
        then role_update id (set_grants (set_features (ng_featureGrants grants))) else hret tt);
  run! (if bool_decide (is_Some (rp_toolGrants b)) then replaceToolGrantsTx layers id (ng_toolGrants grants) else hret tt);
  run! (if bool_decide (is_Some (rp_connectorGrants b)) || changed
        then role_update id (set_grants (set_connectors (ng_connectorGrants grants))) else hret tt);
  if changed then
    do! w <- hget;
    on_users (each (retier actor (default (rl_startingPoint existing) (rp_startingPoint b))) (members_of id (aw_users w)))
  else hret tt.

Definition patchRole (actor : GuardActor) (layers : ToolLayers) (id : jsstr) (existing : option AccessRole) (b : RolePatch) (conflict : bool) : RW unit :=
  match existing with
  | None => hthrow (RouteRefused 404 [])
  | Some e =>
      match (if startingPointChanged e b
             then assertAssignableForCreate (ga_role actor) (default (rl_startingPoint e) (rp_startingPoint b))
                    (js "You cannot move a role above your own rank")
             else Ok tt) with
      | Throw r => hthrow (Refused r)
      | Ok _ => serializable_tx conflict (patchRoleTx layers actor id e b)
      end
  end.

(** ** DELETE, and the two assignments *)

(** [existing], [inUse]: what the request had read before.  The foreign keys of
    people, and of pending invitations, refuse inside. *)
Definition deleteRole (id : jsstr) (existing inUse : bool) (pendingInvites : nat) (conflict : bool) : RW unit :=
  if negb existing then hthrow (RouteRefused 404 [])
  else if inUse then hthrow (RouteRefused 409 (js "ACCESS_ROLE_IN_USE"))
  else serializable_tx conflict (fun w =>
    match aw_roles w !! id with
    | None => (w, Throw (PrismaError (js "P2025")))
    | Some _ =>
        if bool_decide (members_of id (aw_users w) = []) && Nat.eqb pendingInvites 0
        then (mkAccess (aw_users w) (delete id (aw_roles w)), Ok tt)
        else (w, Throw (RouteRefused 409 (js "ACCESS_ROLE_IN_USE")))
    end).

Definition assignRole (actor : GuardActor) (id : jsstr) (userIds : list jsstr) (conflict : bool) : RW (list User) :=
  serializable_tx conflict (
    do! w <- hget;
    match aw_roles w !! id with
    | None => hthrow (RouteRefused 404 [])
    | Some r => if rl_archived r then hthrow (RouteRefused 409 []) else on_users (assignRoleTx actor id (rl_startingPoint r) userIds)
    end).

(** [target]: an access role, or no role and a tier. *)
Definition assignPerson (actor : GuardActor) (userId : jsstr) (target : jsstr + Role) (conflict : bool) : RW User :=
  serializable_tx conflict (
    match target with
    | inr tier => on_users (personAccessTx actor userId None tier)
    | inl id =>
        do! w <- hget;
        match aw_roles w !! id with
        | None => hthrow (RouteRefused 404 [])
        | Some r => if rl_archived r then hthrow (RouteRefused 409 [])
                    else on_users (personAccessTx actor userId (Some id) (rl_startingPoint r))
        end
    end).

(** ** Requests, one after another *)

Inductive RoleRequest :=
| RqCreate (actor : GuardActor) (layers : ToolLayers) (newId : jsstr) (b : RolePayload)
| RqDuplicate (layers : ToolLayers) (newId sourceId : jsstr) (loaded : option AccessRole)
| RqPatch (actor : GuardActor) (layers : ToolLayers) (id : jsstr) (loaded : option AccessRole) (b : RolePatch)
| RqDelete (id : jsstr) (existing inUse : bool) (pendingInvites : nat)
| RqAssign (actor : GuardActor) (id : jsstr) (userIds : list jsstr)
| RqPerson (actor : GuardActor) (userId : jsstr) (target : jsstr + Role).

Definition serve (rq : RoleRequest) (conflict : bool) (w : AccessWorld) : AccessWorld :=
  match rq with
  | RqCreate actor layers newId b => (postRole actor layers newId b conflict w).1
  | RqDuplicate layers newId _ loaded => (duplicateRole layers newId loaded conflict w).1
  | RqPatch actor layers id loaded b => (patchRole actor layers id loaded b conflict w).1
  | RqDelete id existing inUse pendingInvites => (deleteRole id existing inUse pendingInvites conflict w).1
  | RqAssign actor id userIds => (assignRole actor id userIds conflict w).1
  | RqPerson actor userId target => (assignPerson actor userId target conflict w).1
  end.

(** What the schemas of the bodies let through. *)
Definition features_wf (l : list (ModuleId * FeatureLevel)) : Prop := NoDup l.*1 /\ chat ∉ l.*1.

Definition request_wf (rq : RoleRequest) : Prop :=
  match rq with
  | RqCreate _ _ _ b =>
      ASSIGNABLE (rb_startingPoint b) = true /\ features_wf (rb_featureGrants b) /\ NoDup (rb_toolGrants b).*1 /\ NoDup (rb_connectorGrants b).*1
  | RqPatch _ _ _ _ b =>
      (forall r, rp_startingPoint b = Some r -> ASSIGNABLE r = true) /\ (forall l, rp_featureGrants b = Some l -> features_wf l) /\
      (forall l, rp_toolGrants b = Some l -> NoDup l.*1) /\ (forall l, rp_connectorGrants b = Some l -> NoDup l.*1)
  | _ => True
  end.

(** What the request had loaded is still what is stored. *)
Definition loaded_fresh (rq : RoleRequest) (w : AccessWorld) : Prop :=
  match rq with
  | RqDuplicate _ _ id loaded | RqPatch _ _ id loaded _ => loaded = aw_roles w !! id
  | _ => True
  end.

(** Requests on roles, and other commits on people: they keep a person's tier
    and role, or leave the person without a role. *)
Inductive role_step : AccessWorld -> AccessWorld -> Prop :=
| RS_Request rq conflict w : request_wf rq -> loaded_fresh rq w -> role_step w (serve rq conflict w)
| RS_People d w :
    (forall id u', d !! id = Some u' -> us_id u' = id /\ (us_accessRoleId u' = None \/
       exists u, aw_users w !! id = Some u /\ us_accessRoleId u' = us_accessRoleId u /\ us_role u' = us_role u)) ->
    role_step w (mkAccess d (aw_roles w)).

(** ** What stays true of roles *)

Record role_normal (r : AccessRole) : Prop := {
  rn_tier : ASSIGNABLE (rl_startingPoint r) = true;
  rn_features : features_wf (ar_featureGrants (rl_grants r));
  rn_clamped : Forall (fun g => clamp_feature (rl_startingPoint r) g = Some g) (ar_featureGrants (rl_grants r));
  rn_tools : NoDup (ar_toolGrants (rl_grants r)).*1;
  rn_erp : js "erp" ∉ (ar_toolGrants (rl_grants r)).*1;
  rn_connectors : NoDup (ar_connectorGrants (rl_grants r)).*1;
  rn_capped : Forall (fun g => clamp_connector (rl_startingPoint r) g = Some g) (ar_connectorGrants (rl_grants r));
  rn_locks : ar_mayOperateLocks (rl_grants r) = true -> smart_home ∈ (ar_featureGrants (rl_grants r)).*1
}.

(** A holder's tier is the role's. *)
Definition user_ok (roles : gmap jsstr AccessRole) (u : User) : Prop :=
  forall rid, us_accessRoleId u = Some rid -> exists r, roles !! rid = Some r /\ us_role u = rl_startingPoint r.

Record world_ok (w : AccessWorld) : Prop := {
  wk_roles : forall id r, aw_roles w !! id = Some r -> role_normal r;
  wk_users : forall id u, aw_users w !! id = Some u -> us_id u = id /\ user_ok (aw_roles w) u
}.

(** ** Normal grants *)

Lemma omap_fixed {A} (f : A -> option A) l : Forall (fun x => f x = Some x) l -> omap f l = l.
Proof. induction 1 as [|x l Hx _ IH]; cbn; [done|]. by rewrite Hx, IH. Qed.

Lemma omap_keys {K V} (f : K * V -> option (K * V)) (Hf : forall g g', f g = Some g' -> g'.1 = g.1) l :
  (forall k, k ∈ (omap f l).*1 -> k ∈ l.*1) /\ (NoDup l.*1 -> NoDup (omap f l).*1).
Proof.
  induction l as [|g l [IH1 IH2]]; cbn; [done|]. destruct (f g) as [g'|] eqn:E; cbn; split.
  - intros k. rewrite !elem_of_cons, (Hf _ _ E). naive_solver.
  - intros [Hg Hl]%NoDup_cons. constructor; [|auto]. rewrite (Hf _ _ E). auto.
  - intros k Hk. apply elem_of_cons. right. auto.
  - intros [Hg Hl]%NoDup_cons. auto.
Qed.

Lemma clamp_feature_key sp g g' : clamp_feature sp g = Some g' -> g'.1 = g.1.
Proof. unfold clamp_feature. destruct (clampLevel sp g.1 g.2); [by intros [= <-]|done]. Qed.
Lemma clamp_connector_key sp g g' : clamp_connector sp g = Some g' -> g'.1 = g.1.
Proof. unfold clamp_connector. destruct (clampConnectorLevel sp g.2); [by intros [= <-]|done]. Qed.

Lemma clamp_feature_idemp sp g g' : clamp_feature sp g = Some g' -> clamp_feature sp g' = Some g'.
Proof.
  unfold clamp_feature. destruct (clampLevel sp g.1 g.2) as [l|] eqn:E; [|done]. intros [= <-]. cbn.
  by rewrite (clamp_idemp _ _ _ _ E).
Qed.
Lemma clamp_connector_idemp sp g g' : clamp_connector sp g = Some g' -> clamp_connector sp g' = Some g'.
Proof. unfold clamp_connector. destruct sp, g as [p []]; cbn; intros [= <-]; done. Qed.

Lemma omap_forall_idemp {A} (f : A -> option A) l : (forall x y, f x = Some y -> f y = Some y) -> Forall (fun x => f x = Some x) (omap f l).
Proof. intros Hf. apply Forall_forall. intros y (x & _ & Hx)%list_elem_of_omap. by eapply Hf. Qed.

(** Whatever is asked for, what is stored is normal. *)
Lemma normalized_normal nm slug sp arch cl a b c features tools connectors locks :
  let n := normalizeGrants sp features tools connectors locks in
  ASSIGNABLE sp = true -> features_wf features -> NoDup tools.*1 -> js "erp" ∉ tools.*1 -> NoDup connectors.*1 ->
  role_normal (mkRole nm slug sp arch (mkGrants (ng_mayOperateLocks n) cl a b c (ng_featureGrants n) (ng_toolGrants n) (ng_connectorGrants n))).
Proof.
  intros n Hsp [Hf Hc] Ht He Hcn. destruct (omap_keys (clamp_feature sp) (clamp_feature_key sp) features) as [F1 F2].
  destruct (omap_keys (clamp_connector sp) (clamp_connector_key sp) connectors) as [C1 C2]. split; cbn; auto.
  - split; auto.
  - apply omap_forall_idemp, clamp_feature_idemp.
  - apply omap_forall_idemp, clamp_connector_idemp.
  - intros [_ Hx]%andb_true_iff. apply existsb_exists in Hx as (g & Hg & Hk%bool_decide_eq_true). rewrite <- Hk.
    apply list_elem_of_fmap_2. by apply list_elem_of_In.
Qed.

(** ** Transactions *)

Lemma tx_cases {A} c (m : RW A) w : (serializable_tx c m w).1 = w \/ exists w' a, m w = (w', Ok a) /\ (serializable_tx c m w).1 = w'.
Proof. unfold serializable_tx, htransaction. destruct c; [by left|]. destruct (m w) as [w' [a|e]]; [right; by exists w', a|by left]. Qed.

(** A handler that does [F] to one role. *)
Definition role_fn (id : jsstr) (F : AccessRole -> AccessRole) {A} (m : RW A) : Prop :=
  forall w w' x r, m w = (w', Ok x) -> aw_roles w !! id = Some r -> w' = mkAccess (aw_users w) (<[id := F r]> (aw_roles w)).

Lemma rf_update id f : role_fn id f (role_update id f).
Proof. intros w w' x r H Hr. unfold role_update in H. rewrite Hr in H. by injection H as <- _. Qed.

Lemma rf_ret {A} id (a : A) : role_fn id (fun r => r) (hret a).
Proof. intros [us rs] w' x r [= <- _] Hr. cbn in *. by rewrite insert_id. Qed.

Lemma rf_bind {A B} id F G (m : RW A) (k : RW B) : role_fn id F m -> role_fn id G k -> role_fn id (fun r => G (F r)) (run! m; k).
Proof.
  intros Hm Hk w w' x r (a & w1 & H1 & H2)%hbind_ok Hr. rewrite (Hm _ _ _ _ H1 Hr) in H2.
  rewrite (Hk _ _ _ (F r) H2); cbn; [|apply lookup_insert_eq]. by rewrite insert_insert_eq.
Qed.

Lemma rf_if id F G (b : bool) (m k : RW unit) : role_fn id F m -> role_fn id G k ->
  role_fn id (fun r => if b then F r else G r) (if b then m else k).
Proof. by destruct b. Qed.

Lemma rf_assert layers held grants id : role_fn id (fun r => r) (assertGrantableToolDomains layers held grants).
Proof. unfold assertGrantableToolDomains. case_match; [apply rf_ret|]. intros w w' x r [=]. Qed.

Lemma rf_create_tools layers held id grants : role_fn id (set_grants (set_tools grants)) (createToolGrantsTx layers held id grants).
Proof. apply (rf_bind id (fun r => r)); [apply rf_assert|apply rf_update]. Qed.

Lemma rf_replace_tools layers id grants : role_fn id (set_grants (set_tools grants)) (replaceToolGrantsTx layers id grants).
Proof.
  intros w w' x r (w0 & w1 & [= <- <-] & H)%hbind_ok Hr. exact (rf_bind id (fun r => r) _ _ _ (rf_assert _ _ _ _) (rf_update id _) w w' x r H Hr).
Qed.

(** The writer of tool grants lets no [erp] by. *)
Lemma grantable_no_erp layers held grants w w' x : assertGrantableToolDomains layers held grants w = (w', Ok x) -> js "erp" ∉ grants.*1.
Proof.
  unfold assertGrantableToolDomains. case_bool_decide as H; [|done]. intros _ Hin.
  assert (js "erp" ∈ refused_domains layers held grants) as Hr; [|rewrite H in Hr; by apply elem_of_nil in Hr].
  unfold refused_domains. apply elem_of_bfilter. split; [done|]. by rewrite bool_decide_eq_true_2.
Qed.

Lemma create_role_normal layers held id b w w' x : createRoleTx layers held id b w = (w', Ok x) ->
  ASSIGNABLE (rb_startingPoint b) = true -> features_wf (rb_featureGrants b) -> NoDup (rb_toolGrants b).*1 -> NoDup (rb_connectorGrants b).*1 ->
  aw_roles w !! id = None /\ exists r, role_normal r /\ w' = mkAccess (aw_users w) (<[id := r]> (aw_roles w)).
Proof.
  intros H Hsp Hf Ht Hc. unfold createRoleTx in H. apply hbind_ok in H as (w0 & w1 & [= <- <-] & H).
  apply hbind_ok in H as (? & w2 & Hcr & H). unfold role_create in Hcr.
  destruct (bool_decide (is_Some (aw_roles w !! id))) eqn:En; [done|]. apply bool_decide_eq_false in En. cbn [orb] in Hcr.
  destruct (bool_decide (_ ∈ all_slugs w)); [done|]. injection Hcr as <- _. split; [by apply eq_None_not_Some|].
  apply hbind_ok in H as (? & w3 & H1 & H). pose proof (rf_update _ _ _ _ _ _ H1 (lookup_insert_eq _ _ _)) as ->. cbn [aw_roles aw_users] in H.
  rewrite insert_insert_eq in H. apply hbind_ok in H as (? & w4 & H2 & H).
  assert (He : js "erp" ∉ (rb_toolGrants b).*1).
  { unfold createToolGrantsTx in H2. apply hbind_ok in H2 as (? & ? & Ha & _). by eapply grantable_no_erp. }
  pose proof (rf_create_tools _ _ _ _ _ _ _ _ H2 (lookup_insert_eq _ _ _)) as ->. cbn [aw_roles aw_users] in H. rewrite insert_insert_eq in H.
  pose proof (rf_update _ _ _ _ _ _ H (lookup_insert_eq _ _ _)) as ->. cbn [aw_roles aw_users]. rewrite insert_insert_eq.
  eexists. split; [|reflexivity]. by apply normalized_normal.
Qed.

(** ** The loops over people *)

Lemma invariants_same (u : User) r (d d' : Directory) x : assertRoleChangeInvariantsTx u r d = (d', Ok x) -> d' = d.
Proof.
  unfold assertRoleChangeInvariantsTx. rewrite hbind_ok. intros (? & d1 & ->%last_owner_same & H). case_match; [|by injection H].
  unfold assertNotLastOperator, hbind, hget, hret, hthrow in H. repeat case_match; simplify_eq; done.
Qed.

(** The tier of every member is the new one; nobody else's changed. *)
Lemma retier_loop actor sp ts : forall (d d' : Directory) x, each (retier actor sp) ts d = (d', Ok x) ->
  forall id u', d' !! id = Some u' -> exists u, d !! id = Some u /\ us_id u' = us_id u /\ us_accessRoleId u' = us_accessRoleId u /\
    ((id ∈ us_id <$> ts /\ us_role u' = sp) \/ (id ∉ us_id <$> ts /\ us_role u' = us_role u)).
Proof.
  induction ts as [|t ts IH]; intros d d' x H id u'.
  - injection H as <- _. intros Hu. exists u'. do 3 (split; [done|]). right. split; [apply not_elem_of_nil|done].
  - change (each (retier actor sp) (t :: ts)) with (run! retier actor sp t; each (retier actor sp) ts) in H.
    apply hbind_ok in H as (? & d1 & H1 & H2). unfold retier in H1.
    apply hbind_ok in H1 as (? & ? & [-> _]%lift_verdict_ok & H1). apply hbind_ok in H1 as (? & ? & ->%invariants_same & H1).
    apply hbind_ok in H1 as (? & ? & (u0 & Hu0 & _ & _ & ->)%user_update_ok & [= <- _]). intros Hu.
    destruct (IH _ _ _ H2 _ _ Hu) as (u1 & Hu1 & Hi & Ha & Hor). apply lookup_insert_Some in Hu1 as [[<- <-]|[Hne Hu1]].
    + exists u0. do 3 (split; [done|]). left. split; [rewrite fmap_cons; by left|]. by destruct Hor as [[_ ?]|[_ ?]].
    + exists u1. do 3 (split; [done|]). destruct Hor as [[Hin ?]|[Hn ?]]; [left|right]; split; try done; [rewrite fmap_cons; by right|].
      rewrite fmap_cons, not_elem_of_cons. by split.
Qed.

Section users.
Context (roles : gmap jsstr AccessRole).

#[local] Abbreviation I := (fun d : Directory => forall id u, d !! id = Some u -> us_id u = id /\ user_ok roles u).

Lemma users_update id p f : (forall u, us_id (f u) = us_id u /\ user_ok roles (f u)) -> keeps I (user_update id p f).
Proof.
  intros Hf d Hd. unfold user_update. destruct (d !! id) as [u|] eqn:Hu; [|done]. destruct (p u); [|done]. cbn.
  intros j v [[<- <-]|[_ Hj]]%lookup_insert_Some; [|by eapply Hd].
  destruct (Hf u) as [-> ?]. split; [|done]. by apply (Hd id).
Qed.

Lemma users_invariants u r : keeps I (assertRoleChangeInvariantsTx u r).
Proof.
  apply keeps_bind; [|intros _; case_match; [|apply keeps_ret]].
  - unfold assertNotLastOwner. intros d Hd. unfold hbind, hget, hret, hthrow. by boom.
  - unfold assertNotLastOperator. intros d Hd. unfold hbind, hget, hret, hthrow. by boom.
Qed.

Lemma users_verdict v : keeps I (lift_verdict v).
Proof. destruct v; by intros d Hd. Qed.

Lemma users_each {A} (f : A -> DB unit) l : (forall x, keeps I (f x)) -> keeps I (each f l).
Proof. intros Hf. induction l as [|x l IH]; [apply keeps_ret|]. apply keeps_bind; [apply Hf|]. intros _. exact IH. Qed.

Lemma set_access_ok rid r (u : User) : roles !! rid = Some r -> user_ok roles (set_access (Some rid) (rl_startingPoint r) u).
Proof. intros Hr j [= <-]. by exists r. Qed.

Lemma assign_keeps actor rid r ids : roles !! rid = Some r -> keeps I (assignRoleTx actor rid (rl_startingPoint r) ids).
Proof.
  intros Hr. apply keeps_bind; [apply keeps_get|]. intros d. cbv beta zeta. destruct (negb _); [apply keeps_throw|].
  apply keeps_bind; [apply users_each; intros; apply users_verdict|]. intros _.
  apply keeps_bind; [|intros _; apply keeps_ret]. apply users_each. intros t.
  apply keeps_bind; [apply users_invariants|]. intros _. apply keeps_bind; [apply users_update; intros; split; [done|by apply set_access_ok]|]. intros _. apply keeps_ret.
Qed.

Lemma person_keeps actor uid rid sp : (forall u, user_ok roles (set_access rid sp u)) -> keeps I (personAccessTx actor uid rid sp).
Proof.
  intros Hok. apply keeps_bind; [by intros d Hd|]. intros [u|]; [|apply keeps_throw].
  apply keeps_bind; [apply users_verdict|]. intros _. apply keeps_bind; [apply users_invariants|]. intros _.
  apply keeps_bind; [apply users_update; by split|]. intros _. apply keeps_ret.
Qed.
End users.

(** ** The edit of a role *)

Lemma normalized_same r b : role_normal r -> startingPointChanged r b = false ->
  (rp_featureGrants b = None -> ng_featureGrants (patched_grants r b) = ar_featureGrants (rl_grants r)) /\
  (rp_connectorGrants b = None -> ng_connectorGrants (patched_grants r b) = ar_connectorGrants (rl_grants r)).
Proof.
  intros Hn Hc. unfold startingPointChanged in Hc. apply negb_false_iff, bool_decide_eq_true in Hc.
  unfold patched_grants. cbn. rewrite Hc. split; intros ->; cbn; apply omap_fixed; apply Hn.
Qed.

(** The role as the edit leaves it. *)
Definition patched_role (r : AccessRole) (b : RolePatch) : AccessRole :=
  let n := patched_grants r b in
  set_grants (fun g => set_connectors (ng_connectorGrants n) (set_tools (ng_toolGrants n) (set_features (ng_featureGrants n) g)))
    (patch_row b (ng_mayOperateLocks n) r).

Lemma patch_effect layers actor id r b w w' x : patchRoleTx layers actor id r b w = (w', Ok x) -> aw_roles w !! id = Some r -> role_normal r ->
  aw_roles w' = <[id := patched_role r b]> (aw_roles w) /\ (rp_toolGrants b = None \/ js "erp" ∉ (ng_toolGrants (patched_grants r b)).*1) /\
  if startingPointChanged r b
  then exists y, each (retier actor (default (rl_startingPoint r) (rp_startingPoint b))) (members_of id (aw_users w)) (aw_users w) = (aw_users w', Ok y)
  else aw_users w' = aw_users w.
Proof.
  intros H Hr Hn. unfold patchRoleTx in H. set (n := patched_grants r b) in *.
  apply hbind_ok in H as (? & w1 & H1 & H). apply hbind_ok in H as (? & w2 & H2 & H). apply hbind_ok in H as (? & w3 & H3 & H).
  apply hbind_ok in H as (? & w4 & H4 & H).
  pose proof (rf_update _ _ _ _ _ _ H1 Hr) as ->.
  pose proof (rf_if id _ _ _ _ _ (rf_update id _) (rf_ret id tt) _ _ _ _ H2 (lookup_insert_eq _ _ _)) as ->. cbn [aw_roles aw_users] in *. rewrite insert_insert_eq in *.
  assert (He : rp_toolGrants b = None \/ js "erp" ∉ (ng_toolGrants n).*1).
  { destruct (rp_toolGrants b); [right|by left]. rewrite bool_decide_eq_true_2 in H3 by (by eexists). unfold replaceToolGrantsTx in H3. apply hbind_ok in H3 as (? & ? & _ & H3). apply hbind_ok in H3 as (? & ? & H3 & _).
    by eapply grantable_no_erp. }
  pose proof (rf_if id _ _ _ _ _ (rf_replace_tools layers id _) (rf_ret id tt) _ _ _ _ H3 (lookup_insert_eq _ _ _)) as ->. cbn [aw_roles aw_users] in *. rewrite insert_insert_eq in *.
  pose proof (rf_if id _ _ _ _ _ (rf_update id _) (rf_ret id tt) _ _ _ _ H4 (lookup_insert_eq _ _ _)) as ->. cbn [aw_roles aw_users] in *. rewrite insert_insert_eq in *.
  match type of H with context [<[id := ?R]> _] => assert (HR : R = patched_role r b) end.
  { assert (Ht : rp_toolGrants b = None -> ng_toolGrants n = ar_toolGrants (rl_grants r)) by (intros Et; unfold n, patched_grants; by rewrite Et).
    pose proof (normalized_same r b Hn) as Hs. fold n in Hs. unfold patched_role. fold n. clearbody n. clear H1 H2 H3 H4 H He.
    destruct (startingPointChanged r b).
    - rewrite !orb_true_r. destruct (rp_toolGrants b); [done|]. unfold set_grants, patch_row, set_connectors, set_tools, set_features. cbn.
      by rewrite Ht.
    - destruct (Hs eq_refl) as [Hf Hc].
      destruct (rp_featureGrants b), (rp_toolGrants b), (rp_connectorGrants b); cbn; unfold set_grants, patch_row, set_connectors, set_tools, set_features; cbn;
        rewrite ?Hf, ?Hc, ?Ht by done; reflexivity. }
  rewrite HR in *. destruct (startingPointChanged r b).
  - apply hbind_ok in H as (? & ? & [= <- <-] & H). unfold on_users in H. cbn [aw_users aw_roles] in H.
    destruct (each _ _ _) as [d [y|e]] eqn:Ee; [|done]. injection H as <- _. cbn. split; [done|]. split; [done|]. by exists y.
  - injection H as <- _. done.
Qed.

Lemma patched_normal r b : role_normal r -> (forall r', rp_startingPoint b = Some r' -> ASSIGNABLE r' = true) ->
  (forall l, rp_featureGrants b = Some l -> features_wf l) -> (forall l, rp_toolGrants b = Some l -> NoDup l.*1) ->
  (forall l, rp_connectorGrants b = Some l -> NoDup l.*1) ->
  rp_toolGrants b = None \/ js "erp" ∉ (ng_toolGrants (patched_grants r b)).*1 -> role_normal (patched_role r b).
Proof.
  intros Hn Hsp Hf Ht Hc He. apply (normalized_normal _ _ _ _ _ _ _ _ _ _ _ _).
  - cbn. destruct (rp_startingPoint b) eqn:E; cbn; [by apply Hsp|apply Hn].
  - cbn. destruct (rp_featureGrants b) eqn:E; cbn; [by apply Hf|apply Hn].
  - cbn. destruct (rp_toolGrants b) eqn:E; cbn; [by apply Ht|apply Hn].
  - unfold patched_grants in He. cbn in He. destruct He as [->|He]; [apply Hn|done].
  - cbn. destruct (rp_connectorGrants b) eqn:E; cbn; [by apply Hc|apply Hn].
Qed.

Lemma member_elem id (d : Directory) k u : d !! k = Some u -> us_accessRoleId u = Some id -> us_id u ∈ us_id <$> members_of id d.
Proof.
  intros Hu Ha. apply list_elem_of_fmap_2. unfold members_of. apply elem_of_bfilter. rewrite bool_decide_eq_true. split; [|done].
  apply list_elem_of_fmap. exists (k, u). split; [done|]. by apply elem_of_map_to_list.
Qed.

Lemma elem_member id (d : Directory) k u : (forall j v, d !! j = Some v -> us_id v = j) -> d !! k = Some u -> k ∈ us_id <$> members_of id d ->
  us_accessRoleId u = Some id.
Proof.
  intros Hwf Hu (v & -> & Hv)%list_elem_of_fmap. unfold members_of in Hv. apply elem_of_bfilter in Hv as [Hin Ha%bool_decide_eq_true].
  apply list_elem_of_fmap in Hin as ([j v'] & -> & Hj%elem_of_map_to_list). cbn in *. rewrite (Hwf _ _ Hj), Hj in Hu. by injection Hu as <-.
Qed.

(** A new role leaves the people of the others alone. *)
Lemma insert_role_ok w id r : world_ok w -> role_normal r -> aw_roles w !! id = None -> world_ok (mkAccess (aw_users w) (<[id := r]> (aw_roles w))).
Proof.
  intros [Hr Hu] Hn Hf. split; cbn.
  - intros j r' [[_ <-]|[_ Hj]]%lookup_insert_Some; [done|by eapply Hr].
  - intros j u Hj. destruct (Hu j u Hj) as [Hid Hok]. split; [done|]. intros rid Ha. destruct (Hok rid Ha) as (r' & Hr' & Ht).
    exists r'. split; [|done]. rewrite lookup_insert_ne; [done|]. intros <-. congruence.
Qed.

Lemma keep_users_ok {A} (m : DB A) w : world_ok w ->
  keeps (fun d : Directory => forall id u, d !! id = Some u -> us_id u = id /\ user_ok (aw_roles w) u) m -> world_ok (on_users m w).1.
Proof.
  intros [Hr Hu] Hk. unfold on_users. pose proof (Hk (aw_users w) Hu) as Hd. destruct (m (aw_users w)) as [d [x|e]]; by split.
Qed.

(** A role with other grants, its members on its tier. *)
Lemma change_role_ok w id r r' d : world_ok w -> aw_roles w !! id = Some r -> role_normal r' ->
  (forall k u', d !! k = Some u' -> exists u, aw_users w !! k = Some u /\ us_id u' = us_id u /\ us_accessRoleId u' = us_accessRoleId u /\
     (us_accessRoleId u = Some id -> us_role u' = rl_startingPoint r') /\ (us_accessRoleId u <> Some id -> us_role u' = us_role u)) ->
  world_ok (mkAccess d (<[id := r']> (aw_roles w))).
Proof.
  intros [Hr Hu] Hid Hn Hd. split; cbn.
  - intros j r2 [[_ <-]|[_ Hj]]%lookup_insert_Some; [done|by eapply Hr].
  - intros k u' Hk. destruct (Hd k u' Hk) as (u & Hku & Hi & Ha & Hin & Hout). destruct (Hu k u Hku) as [Hk' Hok]. split; [congruence|].
    intros rid Hrid. rewrite Ha in Hrid. destruct (decide (rid = id)) as [->|Hne].
    + exists r'. split; [apply lookup_insert_eq|auto].
    + destruct (Hok rid Hrid) as (r2 & Hr2 & Ht). exists r2. split; [by rewrite lookup_insert_ne|]. rewrite Hout; [done|congruence].
Qed.

Lemma tx_world {A} c (m : RW A) w : world_ok w -> (forall w' a, m w = (w', Ok a) -> world_ok w') -> world_ok (serializable_tx c m w).1.
Proof. intros Hw Hm. destruct (tx_cases c m w) as [->|(w' & a & H & ->)]; [done|by eapply Hm]. Qed.

Lemma on_users_ok {A} (m : DB A) w w' a : world_ok w ->
  keeps (fun d : Directory => forall id u, d !! id = Some u -> us_id u = id /\ user_ok (aw_roles w) u) m -> on_users m w = (w', Ok a) -> world_ok w'.
Proof. intros Hw Hk H. pose proof (keep_users_ok m w Hw Hk) as Hok. by rewrite H in Hok. Qed.

Lemma patch_ok layers actor id b w : world_ok w -> request_wf (RqPatch actor layers id (aw_roles w !! id) b) -> forall conflict,
  world_ok (patchRole actor layers id (aw_roles w !! id) b conflict w).1.
Proof.
  intros Hw (Hsp & Hf & Ht & Hc) conflict. unfold patchRole. destruct (aw_roles w !! id) as [r|] eqn:Er; [|done].
  pose proof (wk_roles w Hw _ _ Er) as Hn. case_match; [|done]. apply tx_world; [done|]. intros [d' rs'] x HT.
  destruct (patch_effect _ _ _ _ _ _ _ _ HT Er Hn) as (Hrs & He & Hd). cbn in Hrs, Hd. subst rs'.
  pose proof (patched_normal r b Hn Hsp Hf Ht Hc He) as Hn'. apply (change_role_ok w id r); [done..|].
  change (rl_startingPoint (patched_role r b)) with (default (rl_startingPoint r) (rp_startingPoint b)).
  destruct (startingPointChanged r b) eqn:Ec.
  - destruct Hd as [y Hl]. intros k u' Hk. destruct (retier_loop _ _ _ _ _ _ Hl k u' Hk) as (u & Hu & Hi & Ha & Hor).
    destruct (wk_users w Hw k u Hu) as [Hik _]. exists u. do 3 (split; [done|]). split.
    + intros Hm. destruct Hor as [[_ ?]|[Hn2 _]]; [done|]. destruct Hn2. rewrite <- Hik. by eapply member_elem.
    + intros Hm. destruct Hor as [[Hin _]|[_ ?]]; [|done]. destruct Hm. eapply elem_member; [|exact Hu|exact Hin]. intros j v Hj. by apply (wk_users w Hw j v).
  - subst d'. intros k u' Hk. exists u'. do 3 (split; [done|]). split; [|done]. intros Ha.
    destruct (wk_users w Hw k u' Hk) as [_ Hok]. destruct (Hok id Ha) as (r2 & Hr2 & Ht2). rewrite Er in Hr2. injection Hr2 as <-.
    apply negb_false_iff, bool_decide_eq_true in Ec. by rewrite Ec.
Qed.

Lemma create_role_ok layers held id b w : world_ok w -> ASSIGNABLE (rb_startingPoint b) = true -> features_wf (rb_featureGrants b) ->
  NoDup (rb_toolGrants b).*1 -> NoDup (rb_connectorGrants b).*1 -> forall conflict, world_ok (serializable_tx conflict (createRoleTx layers held id b) w).1.
Proof.
  intros Hw H1 H2 H3 H4 conflict. apply tx_world; [done|]. intros w' a H.
  destruct (create_role_normal _ _ _ _ _ _ _ H H1 H2 H3 H4) as (Hf & r & Hn & ->). by apply insert_role_ok.
Qed.

Lemma delete_ok id existing inUse pending conflict w : world_ok w -> world_ok (deleteRole id existing inUse pending conflict w).1.
Proof.
  intros Hw. unfold deleteRole. destruct existing, inUse; try done. apply tx_world; [done|]. intros w' a H. cbn in H.
  destruct (aw_roles w !! id) eqn:Er; [|done]. destruct (bool_decide (members_of id (aw_users w) = [])) eqn:Em; [|done].
  apply bool_decide_eq_true in Em. destruct (pending =? 0)%nat; [|done]. injection H as <- _. split; cbn.
  - intros j r [_ Hj]%lookup_delete_Some. by eapply (wk_roles w Hw).
  - intros k u Hk. destruct (wk_users w Hw k u Hk) as [Hi Hok]. split; [done|]. intros rid Ha. destruct (Hok rid Ha) as (r & Hr & Ht).
    exists r. split; [|done]. rewrite lookup_delete_ne; [done|]. intros ->. pose proof (member_elem rid _ _ _ Hk Ha) as Hm. rewrite Em in Hm.
    by apply elem_of_nil in Hm.
Qed.

Lemma assign_ok actor id ids conflict w : world_ok w -> world_ok (assignRole actor id ids conflict w).1.
Proof.
  intros Hw. apply tx_world; [done|]. intros w' a (w0 & w1 & [= <- <-] & H)%hbind_ok. destruct (aw_roles w !! id) as [r|] eqn:Er; [|done].
  destruct (rl_archived r); [done|]. eapply on_users_ok; [done| |exact H]. by apply assign_keeps.
Qed.

Lemma assign_person_ok actor uid target conflict w : world_ok w -> world_ok (assignPerson actor uid target conflict w).1.
Proof.
  intros Hw. apply tx_world; [done|]. intros w' a H. destruct target as [id|tier].
  - apply hbind_ok in H as (w0 & w1 & [= <- <-] & H). destruct (aw_roles w !! id) as [r|] eqn:Er; [|done].
    destruct (rl_archived r); [done|]. eapply on_users_ok; [done| |exact H]. apply person_keeps. intros u. by apply set_access_ok.
  - eapply on_users_ok; [done| |exact H]. apply person_keeps. by intros u rid [=].
Qed.

Lemma step_ok w w' : world_ok w -> role_step w w' -> world_ok w'.
Proof.
  intros Hw. destruct 1 as [rq conflict w Hwf Hfr|d w Hd].
  - destruct rq; cbn [serve].
    + destruct Hwf as (H1 & H2 & H3 & H4). unfold postRole. case_match; [|done]. by apply create_role_ok.
    + cbn in Hfr. subst. unfold duplicateRole. destruct (aw_roles w !! sourceId) as [s|] eqn:Es; [|done].
      pose proof (wk_roles w Hw _ _ Es) as Hn. by apply create_role_ok; try apply Hn.
    + cbn in Hfr. subst. by apply patch_ok.
    + by apply delete_ok.
    + by apply assign_ok.
    + by apply assign_person_ok.
  - split; [apply Hw|]. cbn. intros k u' Hk. destruct (Hd k u' Hk) as [Hi [Hn|(u & Hu & Ha & Ht)]]; (split; [done|]); intros rid Hr; [congruence|].
    rewrite Ha in Hr. destruct (wk_users w Hw k u Hu) as [_ Hok]. destruct (Hok rid Hr) as (r & Hrr & Htt). exists r. split; [done|congruence].
Qed.

Lemma steps_ok w w' : world_ok w -> rtc role_step w w' -> world_ok w'.
Proof. intros Hw. induction 1; [done|]. eauto using step_ok. Qed.

(** What the page lists of a normal role is what is stored. *)
Lemma normal_listed r : role_normal r -> serialized_features r = ar_featureGrants (rl_grants r).
Proof.
  intros Hn. apply omap_fixed. eapply Forall_impl; [apply (rn_clamped r Hn)|]. intros g Hg. cbn. by destruct (isGateableModuleId g.1).
Qed.

Lemma role_connectors_elem conns grants p l : (p, l) ∈ role_connectors conns grants ->
  exists l', (p, l') ∈ grants /\ exists c, l = minConnectorLevel l' c.
Proof.
  unfold role_connectors. assert (H : forall out, (p, l) ∈ foldl (fun out g => match jm_get g.1 conns with
    | None => out | Some c => jm_set g.1 (minConnectorLevel g.2 c) out end) out grants -> (p, l) ∈ out \/
      exists l', (p, l') ∈ grants /\ exists c, l = minConnectorLevel l' c); [|intros Hin; destruct (H [] Hin) as [Hn|?]; [by apply elem_of_nil in Hn|done]].
  induction grants as [|[q m] grants IH]; cbn; intros out; [by left|]. intros [Hin|(l' & Hl & Hc)]%IH; [|right; exists l'; split; [by right|done]].
  destruct (jm_get q conns) as [c|]; [|by left]. assert (Hs : (p, l) ∈ out \/ (p, l) = (q, minConnectorLevel m c)).
  { clear IH. induction out as [|[a b] out IH]; cbn in Hin; [right; by apply list_elem_of_singleton in Hin|].
    case_decide; apply elem_of_cons in Hin as [->|Hin]; [by right|left; by right|left; by left|]. destruct (IH Hin); [left; by right|by right]. }
  destruct Hs as [?|[= -> ->]]; [by left|]. right. exists m. split; [by left|by exists c].
Qed.

(** Reading is within whatever a tier may be given. *)
Lemma min_capped sp l c : clampConnectorLevel sp l = Some l -> clampConnectorLevel sp (minConnectorLevel l c) = Some (minConnectorLevel l c).
Proof. destruct sp, l, c; cbn; congruence. Qed.

(** ** The slug is free *)

Lemma numbered_inj base n m : 0 <= n -> 0 <= m -> numbered base n = numbered base m -> n = m.
Proof.
  unfold numbered, int_str. intros Hn Hm H%app_inv_head%app_inv_head. rewrite !(proj2 (Z.ltb_ge _ 0)) in H by lia.
  apply dec_str_inj in H. lia.
Qed.

Lemma free_slug_fails fuel base taken n : free_slug fuel base taken n = None ->
  forall j, (j < fuel)%nat -> numbered base (n + Z.of_nat j) ∈ taken.
Proof.
  revert n. induction fuel as [|k IH]; intros n H j Hj; [lia|]. cbn in H. case_bool_decide as Hin; [|done].
  destruct j as [|j]; [by rewrite Z.add_0_r|]. specialize (IH (n + 1) H j ltac:(lia)). by replace (n + Z.of_nat (S j)) with (n + 1 + Z.of_nat j) by lia.
Qed.

Lemma free_slug_found base taken : is_Some (free_slug (S (length taken)) base taken 2).
Proof.
  destruct (free_slug _ _ _ _) eqn:E; [by eexists|]. pose proof (free_slug_fails _ _ _ _ E) as H.
  assert (Hnd : NoDup ((fun j => numbered base (2 + Z.of_nat j)) <$> seq 0 (S (length taken)))).
  { apply NoDup_fmap_2_strong; [|apply NoDup_seq]. intros x y _ _ Hxy. apply numbered_inj in Hxy; lia. }
  assert (Hsub : (fun j => numbered base (2 + Z.of_nat j)) <$> seq 0 (S (length taken)) ⊆ taken).
  { intros c (j & -> & Hj)%list_elem_of_fmap. apply H. apply elem_of_seq in Hj. lia. }
  pose proof (submseteq_length _ _ (NoDup_submseteq _ _ Hnd Hsub)) as Hl. rewrite length_fmap, length_seq in Hl. lia.
Qed.

Lemma free_slug_spec fuel base taken n c : free_slug fuel base taken n = Some c -> c ∉ taken /\ startsWith base c = true.
Proof.
  revert n. induction fuel as [|k IH]; intros n; cbn; [done|]. case_bool_decide; [apply IH|]. intros [= <-]. split; [done|apply startsWith_app].
Qed.

(** The creation of a role is never refused for its name. *)
Lemma derived_slug_is_free slugs name : deriveUniqueSlug slugs name ∉ slugs.
Proof.
  unfold deriveUniqueSlug. set (base := slugifyRoleName name). set (taken := List.filter (startsWith base) slugs).
  assert (Hfree : forall c, c ∉ taken -> startsWith base c = true -> c ∉ slugs) by (intros c Hc Hs Hin; apply Hc, elem_of_bfilter; by split).
  case_bool_decide; cbn [negb].
  - destruct (free_slug_found base taken) as [c Hc]. rewrite Hc. cbn. apply free_slug_spec in Hc as [? ?]. by apply Hfree.
  - apply Hfree; [done|]. rewrite <- (app_nil_r base) at 2. apply startsWith_app.
Qed.

(** A connector level that the clamp leaves alone. *)
Lemma capped_level sp l : clampConnectorLevel sp l = Some l -> sp <> guest /\ (sp = family -> l = read).
Proof. destruct sp, l; cbn; naive_solver. Qed.

(** At a module of the catalog a normal role gives what its page lists. *)
Lemma listed_assigned i r m l : in_accessRole i = Some (rl_grants r) -> in_tier i = rl_startingPoint r -> role_normal r -> m <> chat ->
  assigned i m l <-> (m, l) ∈ serialized_features r.
Proof.
  intros Hrole Htier Hn Hm. unfold assigned. rewrite Hrole, Htier, normal_listed by done.
  assert (Hg : forall g, (m, g) ∈ ar_featureGrants (rl_grants r) -> best_level (rl_startingPoint r) m g l <-> l = g).
  { intros g Hin. rewrite <- clamp_best by done. pose proof (proj1 (Forall_forall _ _) (rn_clamped r Hn) _ Hin) as Hc.
    unfold clamp_feature in Hc. cbn in Hc. destruct (clampLevel (rl_startingPoint r) m g); [|done]. injection Hc as ->. naive_solver. }
  split; [intros (g & Hin & Hb); apply Hg in Hb; congruence|]. intros Hin. exists l. split; [done|]. by apply Hg.
Qed.

Lemma listed_held i r m l : in_accessRole i = Some (rl_grants r) -> in_tier i = rl_startingPoint r -> role_normal r -> m <> chat ->
  (forall x, x ∈ in_exceptions i -> ex_moduleId x <> m /\ (m = docs -> ex_moduleId x <> files)) ->
  holds i m l <-> (m, l) ∈ serialized_features r /\ m ∈ in_workspaceModuleIds i /\
    (m = docs -> files ∈ in_workspaceModuleIds i /\ exists l', (files, l') ∈ serialized_features r).
Proof.
  intros Hrole Htier Hn Hm Hx. unfold holds, own, excepted. repeat (setoid_rewrite (listed_assigned i r); [|done..]). naive_solver.
Qed.

(** C27: A role gives its people what the roles page lists. Start from roles
    whose grants fit their starting point and people on the tier of their role.
    Let roles be created, duplicated, edited, deleted and assigned, one person or
    many, each request finding in its transaction what it had read before, and
    let other commits touch people without parting tier and role. Then everybody
    who holds a role is on its tier; where no personal exception says otherwise,
    the composition of their access holds a module at a level just when the page
    lists it for the role at that level and the workspace has it on (for the
    documents, the files too); a connector reaches a person only through a grant
    of the role, a family person only for reading and a guest not at all; and no role opens the ERP's tools. *)
Theorem holders_get_what_is_listed `{ToolCatalog} (w w' : AccessWorld) : world_ok w -> rtc role_step w w' ->
  forall cfg registry sn u rid r, sn_users sn = aw_users w' -> sn_roles sn = aw_roles w' ->
    aw_users w' !! us_id u = Some u -> us_accessRoleId u = Some rid -> aw_roles w' !! rid = Some r ->
    let i := inputs_of cfg registry sn u in
    NoDup (ex_moduleId <$> in_exceptions i) ->
    us_role u = rl_startingPoint r /\
    (forall m l, m <> chat -> (forall x, x ∈ in_exceptions i -> ex_moduleId x <> m /\ (m = docs -> ex_moduleId x <> files)) ->
       (m, l) ∈ ea_features (computeEffectiveAccess i) <->
       (m, l) ∈ serialized_features r /\ m ∈ in_workspaceModuleIds i /\
       (m = docs -> files ∈ in_workspaceModuleIds i /\ exists l', (files, l') ∈ serialized_features r)) /\
    (forall p l, (p, l) ∈ ea_connectors (computeEffectiveAccess i) ->
       p ∈ (ar_connectorGrants (rl_grants r)).*1 /\ us_role u <> guest /\ (us_role u = family -> l = read)) /\
    js "erp" ∉ ea_toolDomains (computeEffectiveAccess i).
Proof.
  intros Hw Hs cfg registry sn u rid r Hu Hr Hin Ha Hrid i Hx. pose proof (steps_ok w w' Hw Hs) as Hok.
  pose proof (wk_roles w' Hok _ _ Hrid) as Hn. destruct (wk_users w' Hok _ _ Hin) as [_ Huo].
  destruct (Huo rid Ha) as (r2 & Hr2 & Ht). rewrite Hrid in Hr2. injection Hr2 as <-.
  assert (Hrole : in_accessRole i = Some (rl_grants r)) by (unfold i, inputs_of, role_of; rewrite Ha, Hr; cbn; by rewrite Hrid).
  assert (Htier : in_tier i = rl_startingPoint r) by exact Ht.
  assert (Ho : in_tier i <> owner) by (rewrite Htier; intros E; pose proof (rn_tier r Hn) as Hsp; rewrite E in Hsp; done).
  split; [done|]. split; [|split].
  - intros m l Hm Hm'. rewrite features_iff; [|split; [rewrite Hrole; intros r' [= <-]; apply Hn|done]].
    rewrite <- (listed_held i r) by done. unfold person_holds. naive_solver.
  - intros p l. rewrite access_eq by done. cbn [ea_connectors]. unfold effective_connectors. rewrite Hrole. cbn [fst].
    intros (l' & Hl' & c & ->)%role_connectors_elem. split; [by apply (list_elem_of_fmap_2 fst) in Hl'|].
    rewrite Ht. apply capped_level, min_capped. pose proof (proj1 (Forall_forall _ _) (rn_capped r Hn) _ Hl') as Hc. unfold clamp_connector in Hc. cbn in Hc.
    destruct (clampConnectorLevel (rl_startingPoint r) l'); [|done]. by injection Hc as ->.
  - rewrite access_eq by done. cbn [ea_toolDomains]. unfold effective_tool_domains. rewrite elem_of_bfilter, Hrole, !andb_true_iff, !bool_decide_eq_true.
    intros (_ & _ & Hg). by apply (rn_erp r Hn).
Qed.

(** ** Where it does not hold *)

Module RoleRuns.

Definition boss : User := mkUser (js "o") (js "boss") None owner None false RoleGuard.ACTIVE NONE None None None None None.
Definition clerk : User := mkUser (js "u") (js "clerk") None admin (Some (js "r")) false RoleGuard.ACTIVE NONE None None None None None.
Definition desk : AccessRole :=
  mkRole (js "Desk") (js "desk") admin false (mkGrants false false None None None [(files, manage)] [] [(js "eaglesoft", read_write)]).
Definition before : AccessWorld := mkAccess (<[js "o" := boss]> (<[js "u" := clerk]> ∅)) (<[js "r" := desk]> ∅).

Definition as_boss : GuardActor := mkGuardActor (Some (js "o")) (Some owner).
Definition no_layers : ToolLayers := mkLayers [] [].
Definition no_patch : RolePatch := mkPatch None None None None None None None None None None None.

(** To the tier of the family. *)
Definition demote : RolePatch := mkPatch None (Some family) None None None None None None None None None.
(** The same connectors again; and the same starting point again. *)
Definition resave : RolePatch := mkPatch None None None None None None None None None None (Some [(js "eaglesoft", read_write)]).
Definition restate : RolePatch := mkPatch None (Some admin) None None None None None None None None None.

Definition patch (loaded : option AccessRole) (b : RolePatch) : AccessWorld -> AccessWorld := serve (RqPatch as_boss no_layers (js "r") loaded b) false.

Definition glance (w : AccessWorld) : option (Role * Role * list (jsstr * ConnectorLevel)) :=
  u ← aw_users w !! js "u"; r ← aw_roles w !! js "r"; Some (us_role u, rl_startingPoint r, ar_connectorGrants (rl_grants r)).

(** One after the other, the demotion holds: the connector is read only. *)
Lemma demotion_holds :
  glance (patch (Some desk) demote before) = Some (family, family, [(js "eaglesoft", read)]).
Proof. vm_compute. reflexivity. Qed.

(** An edit that loaded the role before the demotion and commits after it stores
    what an administrator's role may hold: a family role that writes. *)
Lemma stale_edit_widens :
  glance (patch (Some desk) resave (patch (Some desk) demote before)) = Some (family, family, [(js "eaglesoft", read_write)]) /\
  clampConnectorLevel family read_write = Some read.
Proof. split; vm_compute; reflexivity. Qed.

(** An edit that restates the starting point it had loaded moves the role back
    and leaves its people where they are. *)
Lemma stale_restatement_splits :
  glance (patch (Some desk) restate (patch (Some desk) demote before)) = Some (family, admin, [(js "eaglesoft", read)]).
Proof. vm_compute. reflexivity. Qed.

(** A person's tier is also changed without their role: the two part, and the
    connectors, which no tier clamps when they are read, stay those of the role. *)
Lemma tier_change_keeps_role :
  let d := (roleChangeTx (js "u") family (aw_users before)).1 in
  glance (mkAccess d (aw_roles before)) = Some (family, admin, [(js "eaglesoft", read_write)]) /\
  effective_connectors (mkInputs family (Some (rl_grants desk)) [] [] false [(js "eaglesoft", true)] None [] no_layers) =
    ([(js "eaglesoft", read_write)], Some [(js "eaglesoft", read_write)]).
Proof. split; vm_compute; reflexivity. Qed.

(** ** The witness *)

#[local] Instance no_tools : ToolCatalog.
Proof. refine {| TOOL_CATALOG := [] |}; [apply NoDup_nil_2|apply Forall_nil_2]. Defined.

Definition demoted : User := set_role family clerk.
Definition after : AccessWorld := patch (Some desk) demote before.
Definition cfg : AvailabilityConfig := mkConfig [] [] (js "x") FlagOther [] [] [] [] [] [] [].
Definition snapshot : AccessSnapshot := mkSnapshot (aw_users after) (aw_roles after) ∅ [] None [(js "eaglesoft", true)] ∅ ∅ [].

Lemma before_ok : world_ok before.
Proof.
  split.
  - unfold before. cbn [aw_roles]. intros id r [[_ <-]|[_ Hi]]%lookup_insert_Some; [|by rewrite lookup_empty in Hi].
    split; try (apply (bool_decide_unpack _); vm_compute; exact I); try reflexivity; done.
  - unfold before. cbn [aw_roles aw_users]. intros id u [[<- <-]|[_ [[<- <-]|[_ Hi]]%lookup_insert_Some]]%lookup_insert_Some; [split; [done|by intros rid [=]]| |by rewrite lookup_empty in Hi].
    split; [done|]. intros rid [= <-]. exists desk. split; [apply lookup_insert_eq|done].
Qed.

Lemma demote_step : role_step before after.
Proof.
  apply (RS_Request (RqPatch as_boss no_layers (js "r") (Some desk) demote) false before); [|vm_compute; reflexivity].
  split; [intros r [= <-]; reflexivity|]. split_and!; by intros l [=].
Qed.

Lemma holders_get_what_is_listed_witness : world_ok before /\ rtc role_step before after /\
  exists r, aw_roles after !! js "r" = Some r /\ us_role demoted = rl_startingPoint r /\
    (files, manage) ∈ ea_features (computeEffectiveAccess (inputs_of cfg [] snapshot demoted)) /\
    forall p l, (p, l) ∈ ea_connectors (computeEffectiveAccess (inputs_of cfg [] snapshot demoted)) -> l = read.
Proof.
  assert (Hs : rtc role_step before after) by (eapply rtc_l; [exact demote_step|apply rtc_refl]).
  assert (Hu : aw_users after !! us_id demoted = Some demoted) by (vm_compute; reflexivity).
  split; [exact before_ok|]. split; [exact Hs|]. destruct (aw_roles after !! js "r") as [r|] eqn:Er; [|vm_compute in Er; discriminate Er].
  pose proof (holders_get_what_is_listed before after before_ok Hs cfg [] snapshot demoted (js "r") r eq_refl eq_refl Hu eq_refl Er
    ltac:(apply (bool_decide_unpack _); vm_compute; exact I)) as (Ht & Hf & Hc & _).
  exists r. split; [reflexivity|]. split; [exact Ht|]. split.
  - apply (Hf files manage); [discriminate|intros x Hx; vm_compute in Hx; by apply elem_of_nil in Hx|].
    vm_compute in Er. injection Er as <-. split; [by left|]. split; [|discriminate]. apply (bool_decide_unpack _). vm_compute. exact I.
  - intros p l Hpl. exact (proj2 (proj2 (Hc p l Hpl)) eq_refl).
Defined.
End RoleRuns.
